(* ===== verification/_CoqProject ===== *)
-Q . S2P
Prelude.v
Types.v
TaskAttempt.v
Settlement.v
Heartbeat.v
RenewalRound.v
ReservedConnection.v
Borrow.v
ClaimGate.v
WorkerOptions.v
Claiming.v
Dispatch.v
HandlerContext.v
Canonical.v
ErrorChain.v
Completions.v
LeaseStatements.v
Replay.v
BatchHandler.v
RunLoop.v
JsonbText.v
Notifications.v
Enqueue.v
Timers.v
