(* ===== verification/Prelude.v ===== *)
(** * A verification library for the Workhorse worker

    Workhorse is a task queue on PostgreSQL.  A client enqueues tasks, and a
    worker process leases tasks, runs their handlers, renews the leases while
    they run, and settles each task with one fenced statement.  The program is
    [typescript/core/src]; this library models the parts of it that decide what
    is sent to PostgreSQL, when, and with which lease, and proves them correct.

    ** How the models are built

    Pure code is a function, code that throws returns [res], and code that
    changes state and throws is an [stx] step.  Asynchronous code is a state
    machine: a [Record] with the fields of the class, one [Definition] for each
    piece of code between two awaits, and a step function over events.  An
    event is an answer of PostgreSQL or of the pool, a timer, an abort or a call
    of the user, and the theorems hold for every sequence of events, so for
    every interleaving.  [run] folds the step over the events, and
    [run_invariant] is the induction principle of the library.  Code that is
    not in the repository is a parameter: PostgreSQL and the handlers answer
    through oracles or events, Ajv is a function, and the laws that are assumed
    of them are hypotheses of the theorems.

    Times are integers: nanoseconds of the monotonic clock, with [ms] for spans,
    or milliseconds where the code keeps dates.  JavaScript numbers that a
    validator sees are [num].  Strings that the code inspects are lists of
    UTF-16 code units; names are [string].

    ** The parts

    - [Prelude]: record update, [res] and [stx], numbers, the clock, runs, and
      lemmas on lists and on insertion-ordered maps ([jsmap], a JavaScript Map).
    - [Types]: the status types and the claimed task ([types.ts]).
    - [TaskAttempt] ([task-attempt.ts]): the arbiter of one attempt, its lease
      window, its expiry request and its abort signal.  The lease window never
      outlives the lease, a spent window never reopens, and the first outcome
      wins.
    - [Settlement] ([executeTaskWithinSpan], [settleFailure] and their callees
      of [worker.ts]): from the handler to the statement that settles the task.
      One execution settles at most once, a completion is sent within the lease,
      and a worker that lost its lease or suspended writes no failure.
    - [Heartbeat] ([worker.ts], [heartbeat-round.ts]): the scheduler of batched
      heartbeats over the attempts of a worker; heartbeats never stall, and lease
      checks stay safe under every order of renewals.
    - [RenewalRound] and [ReservedConnection] ([heartbeat-connection.ts],
      [queue/fenced-write.ts]): the transaction of a round under its deadline,
      the resend loop of a fenced write, and the reserved client with the rounds
      that share it.  No round is lost, members get their own rows, and each
      client has one owner.
    - [Borrow] and [ClaimGate] ([heartbeat-connection.ts],
      [connection-pool.ts]): ordinary connections that a round borrows, and the
      gate that keeps claims off a pool without a spare connection.
    - [WorkerOptions], [Claiming] and [Dispatch] ([worker.ts]): the checks of the
      constructor, one claim pass over queues and tiers, and the dispatch loop
      with its slots and cohorts.  Slots are never overbooked, a pass strands no
      leased task, and the loop ends with nothing in flight.
    - [BatchHandler] ([handleBatch] of [worker.ts]): tasks gathered for one
      handler call; each member settles exactly once, in well-formed batches.
    - [RunLoop] ([runLoop], [stop], [deregister] and the registration and
      maintenance loops of [worker.ts], and the registry functions of
      [sql/schema/current.sql]): the life of a worker over its runs.  A stopped
      worker leaves no row, and a new run starts alone.
    - [Notifications] ([notifications.ts]): the listening connection that the
      workers of a pool share.  Open subscriptions are served, no wake-up is
      lost, clients go back clean, and the last close never hangs.
    - [Completions] and [LeaseStatements] ([queue/claim-lease-fence.ts]): fused
      completions, which refine calls that settle one by one, and the statements
      on owned tasks with their fence and their redacted failure envelopes.
    - [Canonical] ([checkpoint-fingerprint.ts]), [ErrorChain] ([errors.ts]) and
      [Replay] ([handler-replay.ts]): canonical JSON text and its comparisons,
      the walk over wrapped errors, and the replay of a handler against its
      recorded checkpoints.
    - [HandlerContext] ([handler-context.ts]): the checkpoints, waits and
      children of one activation, over the model of its attempt.  Calls of one
      name agree on one value, an operation is saved at most once, and durable
      work starts only under the lease.
    - [JsonbText] and [Enqueue] ([queue/enqueue-contracts.ts]): the measure of
      jsonb text, the storability check, option checks, task contracts, and the
      submission of a batch with one retry.  The measure is exact, submitted
      batches are valid, and a stored result is one that PostgreSQL accepts.

    - [Timers] ([timers.ts]): timeouts longer than the platform's maximum run
      their callback once, never early, and arrive.

    The worker side composes: [Settlement] and [Heartbeat] run the attempts of
    [TaskAttempt]; [ReservedConnection] carries the rounds of [RenewalRound];
    [Enqueue] uses the measure of [JsonbText], which uses the text of
    [Canonical]; [HandlerContext] runs over [TaskAttempt].

    ** Fuel

    Loops that are not structural take fuel that is shown to be enough, never
    assumed: the readers of JSON text take the length of the text, which
    bounds the characters left; the walk over wrapped errors takes one more
    than five times the sixteen objects it may visit; the single claims of a
    pass take the tasks that are asked for plus one, times the queues plus one.
    Retry loops recurse on their attempts: three sends of a fenced write, two
    submissions of a batch.

    ** Not modelled

    The PL/pgSQL functions of the schema, apart from the two registry functions
    of [RunLoop], are answers; so the theorems say what the client sends and
    how it reads an answer, not what the database does.  Spans, logs and
    metrics go to OpenTelemetry and are left out, apart from the outcome of an
    execution and the counts of retries.  The facade [queue.ts] and the modules
    for schedules, groups, signals, operator reads and retention validate
    parameters and send one statement each.  The digest of a fingerprint, the
    JSON Schema validator and the random numbers of jitter are parameters.  Of
    [enqueue-contracts.ts] the checks of the queue options and the acceptances
    for schedules and retained children are left out; of [handler-context.ts]
    progress, task groups and the fast-tier guard.  Process control, the command
    line, migrations, ORM adapters, the dashboard and the clients in other
    languages are outside the library. *)

From Stdlib Require Export ZArith QArith Qround Lia.
From stdpp Require Export base list gmap strings.

#[global] Open Scope Z_scope.

(** ** Functional record update

    [s <| f := v |>] is the record [s] with field [f] replaced.  A record
    type opts in with one [Eta] instance, the eta expansion of its
    constructor; the setter of each field is computed from it. *)
Class Eta (R : Type) := eta : R -> R.

Class Setter {R T : Type} (proj : R -> T) := upd : (T -> T) -> R -> R.
Arguments upd {R T} proj {_} g r.

Ltac derive_setter :=
  match goal with
  | |- @Setter ?R ?T ?proj =>
      let e := constr:(_ : Eta R) in
      let e := eval hnf in e in
      let p := eval pattern proj in e in
      match p with
      | ?F _ =>
          let s := constr:(fun (g : T -> T) => F (fun r : R => g (proj r))) in
          let s := eval cbv beta in s in
          exact s
      end
  end.

#[global] Hint Extern 1 (Setter _) => derive_setter : typeclass_instances.

Declare Scope wh_scope.
Delimit Scope wh_scope with wh.
#[global] Open Scope wh_scope.

Notation "s <| f := v |>" := (upd f (fun _ => v) s)
  (at level 1, f at level 200, left associativity,
   format "s  <|  f  :=  v  |>") : wh_scope.
Notation "s <| f ::= g |>" := (upd f g s)
  (at level 1, f at level 200, left associativity,
   format "s  <|  f  ::=  g  |>") : wh_scope.

(** ** Code that throws

    A computation either returns a value or throws; [E] is what it throws. *)
Inductive res (E A : Type) : Type :=
| Ret (a : A)
| Throw (e : E).
Arguments Ret {E A} a.
Arguments Throw {E A} e.

Definition res_bind {E A B} (m : res E A) (k : A -> res E B) : res E B :=
  match m with Ret a => k a | Throw e => Throw e end.

Notation "x <- m ;; k" := (res_bind m (fun x => k))
  (at level 60, m at next level, right associativity) : wh_scope.
Notation "m ;;; k" := (res_bind m (fun _ => k))
  (at level 60, right associativity) : wh_scope.

(** [if (cond) throw e;] *)
Definition throw_if {E} (cond : bool) (e : E) : res E unit :=
  if cond then Throw e else Ret tt.

Definition is_ret {E A} (m : res E A) : bool :=
  match m with Ret _ => true | Throw _ => false end.

(** [for (const x of l) f(x)] where [f] may throw. *)
Fixpoint res_iter {E A} (f : A -> res E unit) (l : list A) : res E unit :=
  match l with
  | [] => Ret tt
  | x :: l => f x ;;; res_iter f l
  end.

(** [l.map(f)] where [f] may throw, in order. *)
Definition res_map {E A B} (f : A -> res E B) : list A -> res E (list B) :=
  fix go l := match l with
              | [] => Ret []
              | x :: l => y <- f x ;; ys <- go l ;; Ret (y :: ys)
              end.

Lemma res_map_Ret {E A B} (f : A -> res E B) (g : A -> B) l :
  Forall (fun x => f x = Ret (g x)) l -> res_map f l = Ret (map g l).
Proof. induction 1 as [|x l Hx _ IH]; simpl; [done|]. by rewrite Hx, IH. Qed.

(** The elements that satisfy [b] throw [e]; the others are mapped. *)
Lemma res_map_test {E A B} (f : A -> res E B) (g : A -> B) (b : A -> bool) e l :
  Forall (fun x => f x = if b x then Throw e else Ret (g x)) l ->
  res_map f l = if existsb b l then Throw e else Ret (map g l).
Proof.
  induction 1 as [|x l Hx _ IH]; simpl; [done|]. rewrite Hx. destruct (b x); simpl; [done|].
  rewrite IH. by destruct (existsb b l).
Qed.

Lemma existsb_flat_map {A B} (p : B -> bool) (h : A -> list B) l :
  existsb p (flat_map h l) = existsb (fun x => existsb p (h x)) l.
Proof. induction l as [|x l IH]; simpl; [done|]. by rewrite existsb_app, IH. Qed.

Lemma forallb_Forall {A} (p : A -> bool) l : forallb p l = true -> Forall (fun x => p x = true) l.
Proof. intros H. apply List.Forall_forall. by apply forallb_forall. Qed.

Lemma forallb_negb {A} (p : A -> bool) l : forallb (fun x => negb (p x)) l = negb (existsb p l).
Proof. induction l as [|x l IH]; simpl; [done|]. by rewrite IH, negb_orb. Qed.

Lemma res_bind_Ret {E A B} (m : res E A) (k : A -> res E B) b :
  res_bind m k = Ret b <-> exists a, m = Ret a /\ k a = Ret b.
Proof.
  destruct m as [a|e]; simpl; split.
  - intros H. by exists a.
  - by intros (? & [= ->] & ?).
  - done.
  - by intros (? & ? & ?).
Qed.

Lemma throw_if_Ret {E} c (e : E) u : throw_if c e = Ret u <-> c = false.
Proof. destruct c, u; simpl; naive_solver. Qed.

Lemma res_iter_Ret {E A} (f : A -> res E unit) l u :
  res_iter f l = Ret u <-> Forall (fun x => f x = Ret tt) l.
Proof.
  destruct u. induction l as [|x l IH]; simpl; [by split|].
  rewrite res_bind_Ret, Forall_cons, <- IH. split.
  - intros ([] & ? & ?). done.
  - intros [? ?]. by exists tt.
Qed.

(** ** Code that changes state and throws

    A step of type [stx S E A] runs in a state [S] and returns an [A] or throws
    an [E]; a throw keeps the state changes made before it, as in the source. *)
Definition stx (S E A : Type) : Type := S -> S * res E A.

Definition st_ret {S E A} (a : A) : stx S E A := fun s => (s, Ret a).
Definition st_throw {S E A} (e : E) : stx S E A := fun s => (s, Throw e).
Definition st_bind {S E A B} (m : stx S E A) (k : A -> stx S E B) : stx S E B :=
  fun s => match m s with
           | (s, Ret a) => k a s
           | (s, Throw e) => (s, Throw e)
           end.
(** [try m catch (e) h(e)] *)
Definition st_catch {S E A} (m : stx S E A) (h : E -> stx S E A) : stx S E A :=
  fun s => match m s with
           | (s, Ret a) => (s, Ret a)
           | (s, Throw e) => h e s
           end.
Definition st_get {S E} : stx S E S := fun s => (s, Ret s).
Definition st_modify {S E} (f : S -> S) : stx S E unit := fun s => (f s, Ret tt).
Definition st_lift {S E A} (r : res E A) : stx S E A := fun s => (s, r).

Notation "x <-- m ;; k" := (st_bind m (fun x => k))
  (at level 60, m at next level, right associativity) : wh_scope.
Notation "m ;;- k" := (st_bind m (fun _ => k))
  (at level 60, right associativity) : wh_scope.

(** ** JavaScript numbers

    A number is a finite double, one of the infinities, or NaN.  Finite
    doubles are rationals; the validators only compare them and ask whether
    they are integers, which is exact. *)
Inductive num : Type :=
| Fin (q : Q)
| Inf (negative : bool)
| NaN.

Definition num_of_Z (z : Z) : num := Fin (inject_Z z).
Coercion num_of_Z : Z >-> num.

Definition MAX_SAFE_INTEGER : Z := 9007199254740991.

Definition q_is_integer (q : Q) : bool := Qeq_bool q (inject_Z (Qfloor q)).

(** [Number.isSafeInteger] *)
Definition isSafeInteger (n : num) : bool :=
  match n with
  | Fin q => q_is_integer q && (Z.abs (Qfloor q) <=? MAX_SAFE_INTEGER)
  | _ => false
  end.

(** [Number.isFinite] *)
Definition isFinite (n : num) : bool :=
  match n with Fin _ => true | _ => false end.

(** [n < z], [n > z]: every comparison with NaN is false. *)
Definition num_lt_Z (n : num) (z : Z) : bool :=
  match n with
  | Fin q => negb (Qle_bool (inject_Z z) q)
  | Inf negative => negative
  | NaN => false
  end.
Definition num_gt_Z (n : num) (z : Z) : bool :=
  match n with
  | Fin q => negb (Qle_bool q (inject_Z z))
  | Inf negative => negb negative
  | NaN => false
  end.

(** The integer a safe-integer number denotes. *)
Definition num_to_Z (n : num) : Z :=
  match n with Fin q => Qfloor q | _ => 0 end.

Lemma isSafeInteger_spec n :
  isSafeInteger n = true <->
  exists q, n = Fin q /\ q == inject_Z (num_to_Z n) /\ Z.abs (num_to_Z n) <= MAX_SAFE_INTEGER.
Proof.
  destruct n as [q| |]; simpl; split; try (by intros (?&?&?)); try done.
  - intros [H1 H2]%andb_prop. exists q. split; [done|]. split.
    + by apply Qeq_bool_iff.
    + lia.
  - intros (q' & [= <-] & Hq & Hb). apply andb_true_intro. split; [|lia].
    by apply Qeq_bool_iff.
Qed.

Lemma num_lt_Z_safe n z : isSafeInteger n = true -> num_lt_Z n z = (num_to_Z n <? z).
Proof.
  intros (q & -> & Hq & _)%isSafeInteger_spec. simpl in *.
  apply eq_true_iff_eq. rewrite negb_true_iff, Z.ltb_lt.
  destruct (Qle_bool (inject_Z z) q) eqn:E.
  - apply Qle_bool_iff in E. rewrite Hq, <- Zle_Qle in E. split; [done|lia].
  - split; [intros _|done]. apply Z.nle_gt. intros Hle. rewrite Zle_Qle, <- Hq in Hle.
    apply Qle_bool_iff in Hle. congruence.
Qed.

Lemma num_gt_Z_safe n z : isSafeInteger n = true -> num_gt_Z n z = (z <? num_to_Z n).
Proof.
  intros (q & -> & Hq & _)%isSafeInteger_spec. simpl in *.
  apply eq_true_iff_eq. rewrite negb_true_iff, Z.ltb_lt.
  destruct (Qle_bool q (inject_Z z)) eqn:E.
  - apply Qle_bool_iff in E. rewrite Hq, <- Zle_Qle in E. split; [done|lia].
  - split; [intros _|done]. apply Z.nle_gt. intros Hle. rewrite Zle_Qle, <- Hq in Hle.
    apply Qle_bool_iff in Hle. congruence.
Qed.

Lemma isSafeInteger_Z (z : Z) : Z.abs z <= MAX_SAFE_INTEGER -> isSafeInteger z = true.
Proof.
  intros H. unfold num_of_Z, isSafeInteger, q_is_integer. rewrite Qfloor_Z.
  apply andb_true_intro. split; [by apply Qeq_bool_iff | lia].
Qed.

Lemma num_to_Z_of_Z (z : Z) : num_to_Z z = z.
Proof. apply Qfloor_Z. Qed.

(** ** The monotonic clock

    [performance.now()] counts nanoseconds of the process clock and reports
    them in milliseconds.  A clock reading is an integer number of
    nanoseconds, and [ms d] is the span of [d] milliseconds. *)
Definition NS_PER_MS : Z := 1000000.
Definition ms (d : Z) : Z := d * NS_PER_MS.

Lemma ms_le a b : ms a <= ms b <-> a <= b.
Proof. unfold ms, NS_PER_MS. lia. Qed.

(** ** Runs of a labelled transition function *)
Section runs.
Context {S E : Type} (step : S -> E -> S).

Definition run (s : S) (evs : list E) : S := foldl step s evs.

Lemma run_app s evs1 evs2 : run s (evs1 ++ evs2) = run (run s evs1) evs2.
Proof. apply foldl_app. Qed.

Lemma run_snoc s evs e : run s (evs ++ [e]) = step (run s evs) e.
Proof. by rewrite run_app. Qed.

(** An invariant of the step function holds along every run. *)
Lemma run_invariant (P : S -> Prop) :
  (forall s e, P s -> P (step s e)) -> forall evs s, P s -> P (run s evs).
Proof. intros Hstep evs. induction evs as [|e evs IH]; simpl; eauto. Qed.

(** An invariant that needs the events to satisfy [Q]. *)
Lemma run_invariant_on (P : S -> Prop) (Q : E -> Prop) :
  (forall s e, Q e -> P s -> P (step s e)) ->
  forall evs s, Forall Q evs -> P s -> P (run s evs).
Proof.
  intros Hstep evs. induction evs as [|e evs IH]; simpl; intros s Hall Hs; [done|].
  apply Forall_cons in Hall as [? ?]. eauto.
Qed.
End runs.

(** Runs whose every event is allowed in the state it meets. *)
Fixpoint allowed {S E} (step : S -> E -> S) (ok : S -> E -> Prop) (s : S) (evs : list E) : Prop :=
  match evs with
  | [] => True
  | e :: evs => ok s e /\ allowed step ok (step s e) evs
  end.

Lemma allowed_invariant {S E} (step : S -> E -> S) (ok : S -> E -> Prop) (P : S -> Prop) :
  (forall s e, P s -> ok s e -> P (step s e)) ->
  forall evs s, allowed step ok s evs -> P s -> P (run step s evs).
Proof.
  intros Hstep evs. induction evs as [|e evs IH]; simpl; [done|]. intros s [He Hevs] Hs. eauto.
Qed.

(** Events with clock readings that never go back, and the last reading. *)
Fixpoint in_order {E} (t : Z) (evs : list (Z * E)) : Prop :=
  match evs with
  | [] => True
  | e :: evs => t <= e.1 /\ in_order e.1 evs
  end.

Fixpoint final_time {E} (t : Z) (evs : list (Z * E)) : Z :=
  match evs with
  | [] => t
  | e :: evs => final_time e.1 evs
  end.

(** An invariant that mentions the latest clock reading. *)
Lemma run_timed_invariant {S E} (step : S -> Z * E -> S) (P : Z -> S -> Prop) :
  (forall t s e, t <= e.1 -> P t s -> P e.1 (step s e)) ->
  forall evs t s, in_order t evs -> P t s -> P (final_time t evs) (run step s evs).
Proof.
  intros Hstep evs. induction evs as [|e evs IH]; simpl; [done|]. intros t s [Ht Ho] Hs. eauto.
Qed.

(** ** Generic lemmas on lists *)

(** Insertion before the first element that satisfies [p], at the end when
    none does: [findIndex] followed by [splice] or [push]. *)
Fixpoint insert_before {A} (p : A -> bool) (x : A) (l : list A) : list A :=
  match l with
  | [] => [x]
  | y :: l => if p y then x :: y :: l else y :: insert_before p x l
  end.

Lemma insert_before_perm {A} (p : A -> bool) x l : insert_before p x l ≡ₚ x :: l.
Proof.
  induction l as [|y l IH]; simpl; [done|]. destruct (p y); [done|].
  rewrite IH. apply Permutation_swap.
Qed.

(** Removes the first element that satisfies [p]: [indexOf] and [splice]. *)
Fixpoint remove_first {A} (p : A -> bool) (l : list A) : list A :=
  match l with
  | [] => []
  | y :: l => if p y then l else y :: remove_first p l
  end.

Lemma remove_first_sublist {A} (p : A -> bool) l : remove_first p l `sublist_of` l.
Proof.
  induction l as [|y l IH]; simpl; [done|].
  destruct (p y); [by apply sublist_cons | by apply sublist_skip].
Qed.

Lemma elem_of_remove_first {A} (p : A -> bool) x l : x ∈ remove_first p l -> x ∈ l.
Proof. intros H. eapply elem_of_sublist; [done | apply remove_first_sublist]. Qed.

Lemma remove_first_NoDup {A} (p : A -> bool) (l : list A) : NoDup l -> NoDup (remove_first p l).
Proof. intros H. eapply sublist_NoDup; [done | apply remove_first_sublist]. Qed.

Lemma elem_of_remove_value {A} `{EqDecision A} (v x : A) l :
  NoDup l -> x ∈ remove_first (fun y => bool_decide (y = v)) l <-> x ∈ l /\ x <> v.
Proof.
  induction l as [|y l IH]; simpl; [set_solver|]. intros [Hn Hl]%NoDup_cons.
  case_bool_decide; [subst|].
  - split; [|set_solver]. intros Hx. split; [by right|]. by intros ->.
  - rewrite !elem_of_cons, IH by done. split; [|naive_solver]. intros [->|?]; naive_solver.
Qed.

Lemma remove_value_perm {A} `{EqDecision A} (v : A) l :
  v ∈ l -> l ≡ₚ v :: remove_first (fun y => bool_decide (y = v)) l.
Proof.
  induction l as [|y l IH]; simpl; [by intros ?%elem_of_nil|]. intros Hin.
  case_bool_decide as Hy; [by subst|]. apply elem_of_cons in Hin as [->|Hin]; [done|].
  rewrite (IH Hin) at 1. apply Permutation_swap.
Qed.

Lemma forallb_lookup {A} (p : A -> bool) (l : list A) :
  forallb p l = true <-> forall i x, l !! i = Some x -> p x = true.
Proof.
  rewrite forallb_forall. split.
  - intros H i x Hx. apply H. by apply list_elem_of_In, list_elem_of_lookup_2 with i.
  - intros H x Hx. apply list_elem_of_In, list_elem_of_lookup_1 in Hx as [i Hi]. eauto.
Qed.
Lemma lookup_alter_inv {A} (f : A -> A) (i j : nat) (l : list A) y :
  alter f i l !! j = Some y -> exists x, l !! j = Some x /\ y = if decide (j = i) then f x else x.
Proof.
  case_decide; subst.
  - rewrite list_lookup_alter_eq, fmap_Some. intros (x & ? & ->). eauto.
  - rewrite list_lookup_alter_ne by done. eauto.
Qed.
(** Every other element stays. *)
Lemma lookup_alter_other {A} (f : A -> A) (i j : nat) (l : list A) x : i <> j -> l !! j = Some x -> alter f i l !! j = Some x.
Proof. intros Hne Hx. by rewrite list_lookup_alter_ne. Qed.
Lemma sublist_Forall {A} (P : A -> Prop) (l k : list A) : l `sublist_of` k -> Forall P k -> Forall P l.
Proof. intros Hs. rewrite !Forall_forall. eauto using elem_of_sublist. Qed.
Lemma flat_map_alter {A B} (f : A -> list B) g i l b :
  l !! i = Some b ->
  exists rest, flat_map f l ≡ₚ f b ++ rest /\ flat_map f (alter g i l) ≡ₚ f (g b) ++ rest.
Proof.
  revert i. induction l as [|a l IH]; intros [|i]; simpl; intros [=]; subst; [by eexists|].
  edestruct IH as (rest & H1 & H2); [done|]. exists (f a ++ rest). rewrite H1, H2.
  split; solve_Permutation.
Qed.

(** [Math.min(x, ...l)] *)
Lemma foldl_min_le (l : list Z) : forall x,
  foldl Z.min x l <= x /\ forall y, y ∈ l -> foldl Z.min x l <= y.
Proof.
  induction l as [|y l IH]; intros x; simpl.
  - split; [lia|]. by intros y ?%elem_of_nil.
  - destruct (IH (Z.min x y)) as [H1 H2]. split; [lia|].
    intros z [->|Hz]%elem_of_cons; [lia|auto].
Qed.

(** ** JavaScript [Map] objects: entries in insertion order

    [set] replaces the value of a present key in place, and appends a new
    key. *)
Abbreviation jsmap K V := (list (K * V)).

Section jsmaps.
Context {K V : Type} `{EqDecision K}.
Implicit Types m : jsmap K V.

Fixpoint jsget (k : K) m : option V :=
  match m with
  | [] => None
  | (k', v) :: m => if decide (k' = k) then Some v else jsget k m
  end.

Definition jshas (k : K) m : bool := match jsget k m with Some _ => true | None => false end.

Definition jsset (k : K) (v : V) m : jsmap K V :=
  if jshas k m then map (fun e => if decide (e.1 = k) then (k, v) else e) m else m ++ [(k, v)].

Definition jsdelete (k : K) m : jsmap K V := filter (fun e => e.1 <> k) m.

Lemma jsget_app k m1 m2 :
  jsget k (m1 ++ m2) = match jsget k m1 with Some v => Some v | None => jsget k m2 end.
Proof. induction m1 as [|[k' v] m1 IH]; simpl; [done|]. by case_decide. Qed.

Lemma jsget_in k v m : jsget k m = Some v -> (k, v) ∈ m.
Proof.
  induction m as [|[k' v'] m IH]; simpl; [done|]. case_decide; intros; simplify_eq; set_solver.
Qed.

Lemma jsget_set k k' v m :
  jsget k' (jsset k v m) = if decide (k' = k) then Some v else jsget k' m.
Proof.
  unfold jsset, jshas. destruct (jsget k m) as [w|] eqn:E.
  - induction m as [|[k0 v0] m IH]; simpl in *; [done|].
    repeat case_decide; simplify_eq; try done; eauto.
    clear -H1. by induction m as [|[k0 v0] m IH]; simpl; [|repeat case_decide; simplify_eq; auto].
  - rewrite jsget_app. simpl. repeat case_decide; simplify_eq; try done; [by rewrite E|].
    by destruct (jsget k' m).
Qed.

Lemma jsget_delete k k' m :
  jsget k' (jsdelete k m) = if decide (k' = k) then None else jsget k' m.
Proof.
  unfold jsdelete. induction m as [|[k0 v0] m IH]; [by case_decide|].
  rewrite filter_cons. simpl. repeat case_decide; simplify_eq/=; rewrite ?decide_True by done;
    rewrite ?IH; repeat case_decide; simplify_eq; done.
Qed.

Lemma jsset_nonempty k v m : jsset k v m <> [].
Proof.
  unfold jsset. destruct (jshas k m) eqn:E; [|by destruct m]. by destruct m.
Qed.

Lemma jsset_keys k v m : (jsset k v m).*1 = if jshas k m then m.*1 else m.*1 ++ [k].
Proof.
  unfold jsset. destruct (jshas k m); [|by rewrite fmap_app].
  induction m as [|[k0 v0] m IH]; simpl; [done|]. case_decide; simplify_eq/=; by f_equal.
Qed.

Lemma jsget_None k m : jsget k m = None <-> k ∉ m.*1.
Proof.
  induction m as [|[k0 v0] m IH]; simpl; [set_solver|]. case_decide; set_solver.
Qed.

Lemma jsset_NoDup k v m : NoDup m.*1 -> NoDup (jsset k v m).*1.
Proof.
  intros H. rewrite jsset_keys. unfold jshas. destruct (jsget k m) eqn:E; [done|].
  apply jsget_None in E. apply NoDup_app. split_and!; [done| |apply NoDup_singleton]. set_solver.
Qed.

Lemma jsdelete_NoDup k m : NoDup m.*1 -> NoDup (jsdelete k m).*1.
Proof.
  unfold jsdelete. induction m as [|[k0 v0] m IH]; [done|]. simpl. intros [Hn H]%NoDup_cons.
  rewrite filter_cons. case_decide; [|by apply IH]. simpl. apply NoDup_cons. split; [|by apply IH].
  contradict Hn. apply list_elem_of_fmap in Hn as (e & He & Hin). apply list_elem_of_fmap.
  apply list_elem_of_filter in Hin as [_ Hin]. eauto.
Qed.

(** The entries of a map up to order: one key apart from the others. *)
Lemma jsdelete_absent k m : k ∉ m.*1 -> jsdelete k m = m.
Proof.
  unfold jsdelete. induction m as [|[k0 v0] m IH]; [done|]. rewrite fmap_cons, not_elem_of_cons.
  intros [Hk Hm]. simpl in Hk. rewrite filter_cons_True by (simpl; congruence). by rewrite IH.
Qed.

Lemma jsdelete_perm k v m : NoDup m.*1 -> jsget k m = Some v -> m ≡ₚ (k, v) :: jsdelete k m.
Proof.
  induction m as [|[k0 v0] m IH]; simpl; [done|]. intros [Hn Hm]%NoDup_cons. unfold jsdelete.
  case_decide as Hk; rewrite filter_cons; simpl.
  - subst. intros [= ->]. rewrite decide_False by naive_solver. f_equiv.
    by rewrite <- (jsdelete_absent k m) at 1.
  - intros Hg. rewrite decide_True by done. rewrite Permutation_swap. constructor. by apply IH.
Qed.

Lemma jsset_perm k v m : NoDup m.*1 -> jsset k v m ≡ₚ (k, v) :: jsdelete k m.
Proof.
  intros Hm. pose proof (jsset_NoDup k v m Hm) as Hs.
  rewrite (jsdelete_perm k v (jsset k v m) Hs) by (rewrite jsget_set; by case_decide).
  constructor. unfold jsset, jshas. destruct (jsget k m) as [w|] eqn:E.
  - clear. unfold jsdelete. induction m as [|[k0 v0] m IH]; [done|]. simpl map. rewrite !filter_cons. simpl.
    destruct (decide (k0 = k)); simpl; [by rewrite decide_False, decide_False by naive_solver|].
    rewrite !decide_True by done. by constructor.
  - apply jsget_None in E. unfold jsdelete. rewrite filter_app. rewrite filter_cons_False by naive_solver.
    by rewrite app_nil_r.
Qed.

Lemma jsget_NoDup k v m : NoDup m.*1 -> (k, v) ∈ m -> jsget k m = Some v.
Proof.
  induction m as [|[k0 v0] m IH]; simpl; [set_solver|]. intros H Hin. apply NoDup_cons in H as [Hn H].
  case_decide as Hk; [|apply IH; [done|]; set_solver].
  subst. apply elem_of_cons in Hin as [?|Hin]; [by simplify_eq|].
  destruct Hn. apply list_elem_of_fmap. by exists (k, v).
Qed.
End jsmaps.


(** ** Automation *)
Create HintDb wh discriminated.
#[export] Hint Resolve insert_before_perm remove_first_NoDup : wh.

(** Unfold record updates and reduce the projections. *)
Ltac reduce_records := unfold upd in *; cbn in *.

(** Case analysis on every [match] or [if] of the goal, then of the hypotheses. *)
Ltac split_goal :=
  repeat match goal with
  | |- context [match ?x with _ => _ end] => destruct x eqn:?; simplify_eq/=
  end.
Ltac split_hyps :=
  repeat match goal with
  | H : context [match ?x with _ => _ end] |- _ => destruct x eqn:?; simplify_eq/=
  end.

(** Boolean tests of the code as propositions. *)
Ltac bool_to_prop :=
  repeat match goal with
  | H : _ && _ = true |- _ => apply andb_true_iff in H; destruct H
  | H : _ || _ = false |- _ => apply orb_false_iff in H; destruct H
  | H : negb _ = true |- _ => apply negb_true_iff in H
  | H : negb _ = false |- _ => apply negb_false_iff in H
  | H : (_ <=? _) = true |- _ => apply Z.leb_le in H
  | H : (_ <=? _) = false |- _ => apply Z.leb_gt in H
  | H : (_ <? _) = true |- _ => apply Z.ltb_lt in H
  | H : (_ <? _) = false |- _ => apply Z.ltb_ge in H
  | H : (_ =? _) = true |- _ => apply Z.eqb_eq in H
  | H : (_ =? _) = false |- _ => apply Z.eqb_neq in H
  | H : bool_decide _ = true |- _ => apply bool_decide_eq_true in H
  | H : bool_decide _ = false |- _ => apply bool_decide_eq_false in H
  end.
