(* ===== verification/Types.v ===== *)
(** * Status vocabularies and claimed tasks

    The string unions of [typescript/core/src/types.ts], [telemetry.ts] and
    [queue/claim-lease-fence.ts] that the worker, the attempt and the queue
    exchange, each as an inductive type with the source's constructors, and
    the fields of a claimed task that the worker reads. *)

From S2P Require Import Prelude.

(** [AttemptOutcome]: the outcome that wins one handler activation. *)
Module AO.
Inductive AttemptOutcome : Set :=
| completed | failed | cancelled | deadline_exceeded | attempt_timeout
| lease_expired | released | suspended_for_wait | suspended_for_child.
End AO.

(** [TaskExecutionOutcome]: what telemetry records for the activation. *)
Module TE.
Inductive TaskExecutionOutcome : Set :=
| canceled | deadline_exceeded | failed | lease_lost | released | retry
| succeeded | suspended | timeout | unknown.
End TE.

(** [HeartbeatBatchStatus]: the verdict on one lease of a batched heartbeat. *)
Module HB.
Inductive HeartbeatBatchStatus : Set :=
| accepted | cancel_requested | deadline_exceeded | timeout_exceeded | stale | busy.
End HB.

(** [ExpireOwnedStatus]: the answer of [expire_owned_v1]. *)
Module EO.
Inductive ExpireOwnedStatus : Set :=
| not_due | cancel_requested | deadline_exceeded | timeout_exceeded | stale.
End EO.

(** [ReleaseOwnedStatus]: the answer of [release_owned_v1]. *)
Module RO.
Inductive ReleaseOwnedStatus : Set :=
| released | cancel_requested | deadline_exceeded | timeout_exceeded | not_due | stale.
End RO.

(** [FailureStatus]: the answer of [fail_v1]. *)
Module FS.
Inductive FailureStatus : Set :=
| ready | scheduled | failed | cancel_requested | deadline_exceeded | timeout_exceeded | stale.
End FS.

#[export] Instance AttemptOutcome_eq_dec : EqDecision AO.AttemptOutcome.
Proof. solve_decision. Defined.
#[export] Instance TaskExecutionOutcome_eq_dec : EqDecision TE.TaskExecutionOutcome.
Proof. solve_decision. Defined.
#[export] Instance HeartbeatBatchStatus_eq_dec : EqDecision HB.HeartbeatBatchStatus.
Proof. solve_decision. Defined.
#[export] Instance ExpireOwnedStatus_eq_dec : EqDecision EO.ExpireOwnedStatus.
Proof. solve_decision. Defined.
#[export] Instance ReleaseOwnedStatus_eq_dec : EqDecision RO.ReleaseOwnedStatus.
Proof. solve_decision. Defined.
#[export] Instance FailureStatus_eq_dec : EqDecision FS.FailureStatus.
Proof. solve_decision. Defined.

(** The fields of [ClaimedTask] that the worker reads.  Dates are the integer
    milliseconds of [Date.getTime()]. *)
Record ClaimedTask : Type := {
  task_id : string;
  task_queue : string;
  task_type : string;
  task_priority : Z;
  task_attempt : Z;
  redactErrorDetails : bool;
  deadlineAt : option Z;
  attemptTimeoutAt : option Z;
  leaseExpiresAt : Z;
}.

(** Errors are compared by identity only; a thrown value is named by a number. *)
Abbreviation error_id := nat.

(** A claimed task for the concrete inputs of the witnesses. *)
Definition sampleTask : ClaimedTask := {|
  task_id := "t1"; task_queue := "default"; task_type := "email";
  task_priority := 0; task_attempt := 1; redactErrorDetails := false;
  deadlineAt := Some 45000; attemptTimeoutAt := Some 40000; leaseExpiresAt := 30000;
|}.
