(* ===== verification/TaskAttempt.v ===== *)
(** * One claimed task's ownership during a handler activation

    Model of [typescript/core/src/task-attempt.ts]: the arbiter that decides
    which outcome wins, the abort signal of the handler, the lease watchdog,
    the local expiration timer and the expiry request to PostgreSQL.

    An attempt is a record, one field per private field of the class.  Each
    method is one function on it.  Timers, promise settlements and handler
    calls reach the attempt as events of [attempt_step]; a synchronous block
    of the source reads the clock once, and its reading is the time of the
    event.  A promise is represented by its state ([expiration]) and by the
    list of reactions registered on it. *)

From S2P Require Import Prelude Types.

(** The reasons the attempt gives to [AbortController.abort]. *)
Inductive AbortReason : Set :=
| WorkerShutdownError
| DURABLE_WAIT_SUSPENSION
| CHILD_TASK_SUSPENSION
| CancellationRequestedError
| DeadlineExceededError
| ExecutionTimeoutError
| LeaseLost             (* new Error("Task lease was lost") *)
| NoHeartbeatAccepted   (* new Error("No heartbeat was accepted within the task lease") *)
| Rejected (e : error_id).

#[export] Instance AbortReason_eq_dec : EqDecision AbortReason.
Proof. solve_decision. Defined.

Definition EXPIRATION_RETRY_MIN_MS : Z := 5.
Definition EXPIRATION_RETRY_MAX_MS : Z := 1000.

(** The state of [expirationPromise]: undefined, a request in flight, the wait
    between two requests, an answer, or a rejection.  [retryMs] is the local
    of the retry loop of [requestExpiration]. *)
Inductive expiration : Set :=
| NotRequested
| Asking (retryMs : Z)
| Waiting (retryMs : Z) (wakeAt : Z)
| Answered (status : EO.ExpireOwnedStatus)
| RequestFailed (e : error_id).

(** What waits on the expiration promise: [expireOnConfirmation],
    [expireOwnershipInBackground], and the stale branch of [refreshOwnership]. *)
Inductive reaction : Set :=
| OnConfirmation (retryMs : Z)
| InBackground
| LoseLeaseAfter.

Record TaskAttempt : Type := mkAttempt {
  accepted : option AO.AttemptOutcome;      (* arbiter.accepted *)
  aborted : option AbortReason;             (* controller.signal *)
  expirationTimer : option (Z * Z);         (* armed timer: due time, retryMs *)
  leaseWatchdog : option Z;                 (* armed timer: due time *)
  leaseWindowEndsAt : option Z;
  expirationDueAt : option Z;
  expirationPromise : expiration;
  expirationId : nat;                       (* identity of the promise *)
  reactions : list reaction;
  heartbeatStopped : bool;
  expiryReported : bool;
  settling : bool;
  heartbeatRegistered : bool;               (* removeHeartbeatLease *)
  shutdownRequested : bool;
  activation : TE.TaskExecutionOutcome;     (* activation.outcome *)
}.

#[export] Instance eta_TaskAttempt : Eta TaskAttempt := fun s =>
  mkAttempt (accepted s) (aborted s) (expirationTimer s) (leaseWatchdog s)
    (leaseWindowEndsAt s) (expirationDueAt s) (expirationPromise s) (expirationId s)
    (reactions s) (heartbeatStopped s) (expiryReported s) (settling s)
    (heartbeatRegistered s) (shutdownRequested s) (activation s).

(** ** [AttemptOutcomeArbiter] *)

(** [submit]: the new attempt, and whether the outcome was accepted. *)
Definition submit (o : AO.AttemptOutcome) (s : TaskAttempt) : bool * TaskAttempt :=
  match accepted s with
  | Some _ => (false, s)
  | None => (true, s <| accepted := Some o |>)
  end.

Definition arbiter_is (o : AO.AttemptOutcome) (s : TaskAttempt) : bool :=
  bool_decide (accepted s = Some o).

Definition isSuspended (s : TaskAttempt) : bool :=
  arbiter_is AO.suspended_for_wait s || arbiter_is AO.suspended_for_child s.

(** [controller.abort]: a signal keeps the reason of its first abort. *)
Definition abort (r : AbortReason) (s : TaskAttempt) : TaskAttempt :=
  match aborted s with
  | Some _ => s
  | None => s <| aborted := Some r |>
  end.

Definition isAborted (s : TaskAttempt) : bool :=
  match aborted s with Some _ => true | None => false end.

(** ** Ending the attempt *)

Definition stopHeartbeat (s : TaskAttempt) : TaskAttempt :=
  s <| heartbeatStopped := true |> <| heartbeatRegistered := false |>.

Definition stop (s : TaskAttempt) : TaskAttempt :=
  stopHeartbeat s <| expirationTimer := None |> <| leaseWatchdog := None |>
    <| leaseWindowEndsAt := None |>.

Definition endLeaseWindow (s : TaskAttempt) : TaskAttempt :=
  abort NoHeartbeatAccepted
    (stop (submit AO.lease_expired (s <| leaseWatchdog := None |>)).2).

Definition loseLease (s : TaskAttempt) : TaskAttempt :=
  abort LeaseLost (stop (submit AO.lease_expired s).2).

Definition markCancellationRequested (s : TaskAttempt) : TaskAttempt :=
  abort CancellationRequestedError (stop (submit AO.cancelled s).2).

(** ** The local lease window *)

Section attempt.
(** The lease duration each claim and accepted heartbeat grants. *)
Variable leaseMs : Z.

Definition windowSpent (now : Z) (s : TaskAttempt) : bool :=
  match leaseWindowEndsAt s with Some e => e <=? now | None => false end.

Definition renewLease (now sentAt : Z) (s : TaskAttempt) : TaskAttempt :=
  if heartbeatStopped s then s
  else if windowSpent now s then endLeaseWindow s
  else
    let ends := sentAt + ms leaseMs in
    let s := s <| leaseWatchdog := None |> <| leaseWindowEndsAt := Some ends |> in
    if ends <=? now then endLeaseWindow s
    else s <| leaseWatchdog := Some ends |>.

(** [requireLease]: the attempt after the check, and the reason it throws. *)
Definition requireLease (now : Z) (s : TaskAttempt) : TaskAttempt * option AbortReason :=
  let s := if windowSpent now s then endLeaseWindow s else s in
  (s, aborted s).

Definition stoppedForShutdown (s : TaskAttempt) : bool :=
  shutdownRequested s && bool_decide (accepted s = None).

Definition requireSettlementLease (now : Z) (s : TaskAttempt)
    : TaskAttempt * option AbortReason :=
  let s := if windowSpent now s then endLeaseWindow s else s in
  (s, if stoppedForShutdown s then None else aborted s).

Definition abortForShutdown (s : TaskAttempt) : TaskAttempt :=
  if bool_decide (accepted s <> None) || isAborted s then s
  else abort WorkerShutdownError (s <| shutdownRequested := true |>).

(** [suspend]: it always throws the suspension reason. *)
Definition suspend (child : bool) (s : TaskAttempt) : TaskAttempt * AbortReason :=
  let reason := if child then CHILD_TASK_SUSPENSION else DURABLE_WAIT_SUSPENSION in
  let outcome := if child then AO.suspended_for_child else AO.suspended_for_wait in
  let '(won, s) := submit outcome s in
  (if won then abort reason s else s, reason).

(** [suspendForScheduledWait]: it throws only when its outcome wins. *)
Definition suspendForScheduledWait (s : TaskAttempt) : TaskAttempt * option AbortReason :=
  let '(won, s) := submit AO.suspended_for_wait s in
  if won then (abort DURABLE_WAIT_SUSPENSION s, Some DURABLE_WAIT_SUSPENSION) else (s, None).

(** ** The expiry request *)

Definition finished (s : TaskAttempt) : bool :=
  bool_decide (accepted s <> None)
  || (heartbeatStopped s || settling s) && negb (expiryReported s).

Definition armExpirationTimer (at_ retryMs : Z) (s : TaskAttempt) : TaskAttempt :=
  s <| expirationTimer := Some (at_, retryMs) |>.

(** One reaction to the settled promise, at time [now]. *)
Definition react (now : Z) (settled : EO.ExpireOwnedStatus + error_id)
    (r : reaction) (s : TaskAttempt) : TaskAttempt :=
  match r, settled with
  | OnConfirmation _, inl EO.deadline_exceeded => abort DeadlineExceededError (stop s)
  | OnConfirmation _, inl EO.timeout_exceeded => abort ExecutionTimeoutError (stop s)
  | OnConfirmation _, inl EO.stale => abort LeaseLost (stop s)
  | OnConfirmation _, inl _ => s
  | OnConfirmation retryMs, inr _ =>
      if finished s then s
      else armExpirationTimer (now + ms retryMs)
             (Z.min (retryMs * 2) EXPIRATION_RETRY_MAX_MS)
             (s <| expirationPromise := NotRequested |>)
  | InBackground, inl _ => s
  | InBackground, inr e => abort (Rejected e) s
  | LoseLeaseAfter, _ => loseLease s
  end.

(** The promise settles: its own continuation runs first, then the reactions
    in the order they were registered. *)
Definition settlePromise (now : Z) (settled : EO.ExpireOwnedStatus + error_id)
    (s : TaskAttempt) : TaskAttempt :=
  let s := match settled with
           | inl EO.cancel_requested => markCancellationRequested s
           | inl EO.deadline_exceeded => (submit AO.deadline_exceeded s).2
           | inl EO.timeout_exceeded => (submit AO.attempt_timeout s).2
           | inl EO.stale => (submit AO.lease_expired s).2
           | inl EO.not_due => s
           | inr _ => s
           end in
  let rs := reactions s in
  let s := s <| expirationPromise := match settled with
                                     | inl st => Answered st
                                     | inr e => RequestFailed e
                                     end |> <| reactions := [] |> in
  foldl (fun s r => react now settled r s) s rs.

(** [expireOwnership]: the promise is memoized. *)
Definition expireOwnership (s : TaskAttempt) : TaskAttempt :=
  match expirationPromise s with
  | NotRequested =>
      s <| expirationPromise := Asking EXPIRATION_RETRY_MIN_MS |> <| expirationId ::= S |>
  | _ => s
  end.

(** [promise.then(...)]: a settled promise runs the reaction at once. *)
Definition addReaction (now : Z) (r : reaction) (s : TaskAttempt) : TaskAttempt :=
  match expirationPromise s with
  | Answered st => react now (inl st) r s
  | RequestFailed e => react now (inr e) r s
  | _ => s <| reactions ::= fun rs => rs ++ [r] |>
  end.

Definition expireOnConfirmation (now retryMs : Z) (s : TaskAttempt) : TaskAttempt :=
  addReaction now (OnConfirmation retryMs) (expireOwnership s).

Definition expireOwnershipInBackground (now : Z) (s : TaskAttempt) : TaskAttempt :=
  addReaction now InBackground (expireOwnership s).

(** The retry loop of [requestExpiration], one function per await: an answer of
    [expire_owned_v1], a failure of it, and the end of the wait. *)
Definition expireAnswer (now : Z) (status : EO.ExpireOwnedStatus) (s : TaskAttempt)
    : TaskAttempt :=
  match expirationPromise s with
  | Asking retryMs =>
      if bool_decide (status <> EO.not_due) || finished s then settlePromise now (inl status) s
      else
        let waitMs := Z.max (ms retryMs) (default 0 (expirationDueAt s) - now) in
        s <| expirationPromise := Waiting retryMs (now + waitMs) |>
  | _ => s
  end.

Definition expireError (now : Z) (e : error_id) (s : TaskAttempt) : TaskAttempt :=
  match expirationPromise s with
  | Asking _ => settlePromise now (inr e) s
  | _ => s
  end.

Definition retryWaitEnds (now : Z) (s : TaskAttempt) : TaskAttempt :=
  match expirationPromise s with
  | Waiting retryMs _ =>
      if finished s then settlePromise now (inl EO.not_due) s
      else s <| expirationPromise := Asking (Z.min (retryMs * 2) EXPIRATION_RETRY_MAX_MS) |>
  | _ => s
  end.

(** ** Heartbeat answers *)

Definition refreshOwnership (now : Z) (status : HB.HeartbeatBatchStatus) (sentAt : Z)
    (s : TaskAttempt) : TaskAttempt :=
  match status with
  | HB.busy => s
  | HB.accepted => renewLease now sentAt s
  | HB.cancel_requested => markCancellationRequested s
  | HB.deadline_exceeded =>
      abort DeadlineExceededError
        (expireOwnershipInBackground now (stop (s <| expiryReported := true |>)))
  | HB.timeout_exceeded =>
      abort ExecutionTimeoutError
        (expireOwnershipInBackground now (stop (s <| expiryReported := true |>)))
  | HB.stale =>
      match expirationPromise s with
      | NotRequested => loseLease s
      | _ => addReaction now LoseLeaseAfter (stopHeartbeat s)
      end
  end.

(** ** Recording outcomes *)

Definition recordExecution (o : TE.TaskExecutionOutcome) (s : TaskAttempt) : TaskAttempt :=
  if bool_decide (activation s <> TE.unknown) then s else s <| activation := o |>.

Definition submitAndRecord (o : AO.AttemptOutcome) (x : TE.TaskExecutionOutcome)
    (s : TaskAttempt) : TaskAttempt :=
  let '(won, s) := submit o s in if won then recordExecution x s else s.

Definition recordFailure (state : FS.FailureStatus) (s : TaskAttempt) : TaskAttempt :=
  match state with
  | FS.ready | FS.scheduled => submitAndRecord AO.failed TE.retry s
  | FS.failed => submitAndRecord AO.failed TE.failed s
  | FS.deadline_exceeded => submitAndRecord AO.deadline_exceeded TE.deadline_exceeded s
  | FS.timeout_exceeded => submitAndRecord AO.attempt_timeout TE.timeout s
  | FS.cancel_requested | FS.stale => s
  end.

Definition recordRelease (status : RO.ReleaseOwnedStatus) (s : TaskAttempt) : TaskAttempt :=
  match status with
  | RO.released => submitAndRecord AO.released TE.released s
  | RO.deadline_exceeded => submitAndRecord AO.deadline_exceeded TE.deadline_exceeded s
  | RO.timeout_exceeded => submitAndRecord AO.attempt_timeout TE.timeout s
  | _ => submitAndRecord AO.lease_expired TE.lease_lost s
  end.

(** The outcome PostgreSQL settled, and its handler span outcome. *)
Inductive Settled : Set := SCancelled | SDeadline | STimeout | SLeaseExpired.
Inductive SpanOutcome : Set :=
| span_canceled | span_deadline_exceeded | span_timeout_exceeded | span_stale.

Definition recordSettled (o : Settled) (s : TaskAttempt) : TaskAttempt * SpanOutcome :=
  match o with
  | SCancelled => (recordExecution TE.canceled (submit AO.cancelled s).2, span_canceled)
  | SDeadline =>
      (recordExecution TE.deadline_exceeded (submit AO.deadline_exceeded s).2,
       span_deadline_exceeded)
  | STimeout => (recordExecution TE.timeout (submit AO.attempt_timeout s).2, span_timeout_exceeded)
  | SLeaseExpired => (recordExecution TE.lease_lost (submit AO.lease_expired s).2, span_stale)
  end.

(** ** Events *)

Inductive event : Set :=
| HeartbeatAnswer (status : HB.HeartbeatBatchStatus) (sentAt : Z)
| WatchdogFires
| ExpirationTimerFires
| ExpireAnswer (status : EO.ExpireOwnedStatus)
| ExpireError (e : error_id)
| RetryWaitEnds
| ShutdownAbort
| RequireLease
| Suspend (child : bool)
| SuspendForScheduledWait.

(** The event loop delivers one event at time [fst].  A timer callback runs
    only while it is armed and due ([setUnrefTimeoutAt]). *)
Definition attempt_step (s : TaskAttempt) (te : Z * event) : TaskAttempt :=
  let now := te.1 in
  match te.2 with
  | HeartbeatAnswer status sentAt => refreshOwnership now status sentAt s
  | WatchdogFires =>
      match leaseWatchdog s with
      | Some at_ => if at_ <=? now then endLeaseWindow s else s
      | None => s
      end
  | ExpirationTimerFires =>
      match expirationTimer s with
      | Some (at_, retryMs) =>
          if at_ <=? now
          then expireOnConfirmation now retryMs (s <| expirationTimer := None |>)
          else s
      | None => s
      end
  | ExpireAnswer status => expireAnswer now status s
  | ExpireError e => expireError now e s
  | RetryWaitEnds => retryWaitEnds now s
  | ShutdownAbort => abortForShutdown s
  | RequireLease => (requireLease now s).1
  | Suspend child => (suspend child s).1
  | SuspendForScheduledWait => (suspendForScheduledWait s).1
  end.

Definition attempt_run : TaskAttempt -> list (Z * event) -> TaskAttempt := run attempt_step.

(** ** The constructor *)

(** [[task.deadlineAt, task.attemptTimeoutAt].reduce(...)] *)
Definition earliestExpiration (task : ClaimedTask) : option Z :=
  foldl (fun earliest candidate =>
           match candidate with
           | Some c => match earliest with
                       | Some e => if c <? e then Some c else earliest
                       | None => Some c
                       end
           | None => earliest
           end) None [deadlineAt task; attemptTimeoutAt task].

Definition newTaskAttempt (task : ClaimedTask) (now claimSentAt : Z) : TaskAttempt :=
  let s := mkAttempt None None None None None None NotRequested 0 [] false false false
                     false false TE.unknown in
  let s := match earliestExpiration task with
           | Some expirationAt =>
               let databaseClaimedAt := leaseExpiresAt task - leaseMs in
               let due := now + ms (expirationAt - databaseClaimedAt + 1) in
               armExpirationTimer due EXPIRATION_RETRY_MIN_MS (s <| expirationDueAt := Some due |>)
           | None => s
           end in
  renewLease now claimSentAt (s <| heartbeatRegistered := true |>).

(** ** Operations that await PostgreSQL

    [during] lists the events that reach the attempt while the operation
    waits. *)

Definition acknowledgeCancellation (during : list (Z * event)) (answer : res error_id bool)
    (s : TaskAttempt) : TaskAttempt * res error_id bool :=
  let s := attempt_run s during in
  match answer with
  | Ret true => (if arbiter_is AO.cancelled s then recordExecution TE.canceled s else s, answer)
  | _ => (s, answer)
  end.

Definition acknowledgeRequestedCancellation (during : list (Z * event))
    (answer : res error_id bool) (s : TaskAttempt) : TaskAttempt * res error_id bool :=
  let s := abort CancellationRequestedError (stop s) in
  let s := attempt_run s during in
  match answer with
  | Ret accepted => ((recordSettled (if accepted then SCancelled else SLeaseExpired) s).1, answer)
  | Throw _ => (s, answer)
  end.

(** [sharedExpiration]: the answer of the request in flight, unless the wait
    ends without one.  A promise that was replaced meanwhile was rejected. *)
Definition sharedExpiration (during : list (Z * event)) (s : TaskAttempt)
    : TaskAttempt * option EO.ExpireOwnedStatus :=
  match expirationPromise s with
  | NotRequested => (s, None)
  | _ =>
      let s' := attempt_run s during in
      (s', if bool_decide (expirationId s' = expirationId s)
           then match expirationPromise s' with Answered st => Some st | _ => None end
           else None)
  end.

(** What PostgreSQL answers while a stale settlement reconciles. *)
Record reconcile_env : Type := {
  re_shared1 : list (Z * event);
  re_expire : list (Z * event);
  re_expireAnswer : res error_id EO.ExpireOwnedStatus;
  re_shared2 : list (Z * event);
  re_ack : list (Z * event);
  re_ackAnswer : res error_id bool;
}.

(** The answer that names the boundary PostgreSQL settled. *)
Definition reconcileStatus (env : reconcile_env) (s : TaskAttempt)
    : TaskAttempt * res error_id EO.ExpireOwnedStatus :=
  let '(s, shared) := sharedExpiration (re_shared1 env) s in
  let '(s, status) := match shared with
                      | Some st => (s, Ret st)
                      | None => (attempt_run s (re_expire env), re_expireAnswer env)
                      end in
  match status with
  | Ret EO.stale =>
      let '(s, again) := sharedExpiration (re_shared2 env) s in
      (s, Ret (default EO.stale again))
  | _ => (s, status)
  end.

Definition reconcileStale (env : reconcile_env) (s : TaskAttempt)
    : TaskAttempt * res error_id SpanOutcome :=
  let settled o s := let '(s, span) := recordSettled o s in (s, Ret span) in
  let '(s, status) := reconcileStatus env s in
  match status with
  | Throw e => (s, Throw e)
  | Ret EO.deadline_exceeded => settled SDeadline s
  | Ret EO.timeout_exceeded => settled STimeout s
  | Ret EO.cancel_requested =>
      let s := attempt_run s (re_ack env) in
      match re_ackAnswer env with
      | Throw e => (s, Throw e)
      | Ret true => settled SCancelled s
      | Ret false => settled SLeaseExpired s
      end
  | Ret _ => settled SLeaseExpired s
  end.

(** [settleExpiration]: the retry wait ends at once, then settlement waits for
    the request in flight. *)
Definition settleExpiration (now : Z) (during : list (Z * event)) (s : TaskAttempt)
    : TaskAttempt :=
  let s := retryWaitEnds now (s <| settling := true |>) in
  match expirationPromise s with
  | NotRequested => s
  | _ => attempt_run s during
  end.

Definition expirationRequested (s : TaskAttempt) : bool :=
  match expirationPromise s with NotRequested => false | _ => true end.
End attempt.

(** ** What never changes: the order of attempts

    [s ⊑ s'] says that [s'] extends [s]: the accepted outcome, the reason of
    the signal and the recorded execution outcome are each assigned once. *)
Definition kept {A} (x y : option A) : Prop := forall a, x = Some a -> y = Some a.

Record attempt_le (s s' : TaskAttempt) : Prop := {
  le_accepted : kept (accepted s) (accepted s');
  le_aborted : kept (aborted s) (aborted s');
  le_activation : activation s <> TE.unknown -> activation s' = activation s;
  le_heartbeatStopped : heartbeatStopped s = true -> heartbeatStopped s' = true;
}.
Infix "⊑ₐ" := attempt_le (at level 70) : wh_scope.

#[export] Instance attempt_le_preorder : PreOrder attempt_le.
Proof.
  split.
  - intros s. split; unfold kept; eauto.
  - intros s1 s2 s3 [A1 B1 C1 D1] [A2 B2 C2 D2]. split; unfold kept in *; eauto.
    intros H. rewrite C2; [by apply C1|]. by rewrite C1.
Qed.

(** Unfold one operation on attempts and finish each of its branches. *)
Ltac le_crush :=
  repeat case_match; simplify_eq/=; try reflexivity;
  split; unfold kept, upd; simpl; intros; simplify_eq/=; try congruence; try done.

Section order.
Variable leaseMs : Z.
Implicit Types (s : TaskAttempt) (now : Z).

Lemma submit_le o s : s ⊑ₐ (submit o s).2.
Proof. unfold submit. le_crush. Qed.

Lemma abort_le r s : s ⊑ₐ abort r s.
Proof. unfold abort. le_crush. Qed.

Lemma stopHeartbeat_le s : s ⊑ₐ stopHeartbeat s.
Proof. unfold stopHeartbeat. le_crush. Qed.

Lemma stop_le s : s ⊑ₐ stop s.
Proof. destruct (stopHeartbeat_le s). unfold stop. by split. Qed.

Lemma recordExecution_le o s : s ⊑ₐ recordExecution o s.
Proof.
  unfold recordExecution. case_bool_decide as H; [reflexivity|].
  split; unfold kept, upd; simpl; done.
Qed.

Lemma set_silent_le s s' :
  accepted s' = accepted s -> aborted s' = aborted s -> activation s' = activation s ->
  heartbeatStopped s' = heartbeatStopped s -> s ⊑ₐ s'.
Proof. intros H1 H2 H3 H4. split; unfold kept; rewrite ?H1, ?H2, ?H3, ?H4; done. Qed.
End order.

#[export] Hint Resolve submit_le abort_le stop_le stopHeartbeat_le recordExecution_le : wh.
#[export] Hint Extern 3 (attempt_le ?s ?s) => reflexivity : wh.
#[export] Hint Extern 5 (attempt_le _ _) => apply set_silent_le; reflexivity : wh.

(** Chain the order through the operations a definition composes. *)
Ltac le_chain :=
  repeat first
    [ solve [eauto 2 with wh]
    | etransitivity; [| apply abort_le]
    | etransitivity; [| apply stop_le]
    | etransitivity; [| apply submit_le]
    | etransitivity; [| apply recordExecution_le]
    | etransitivity; [| apply stopHeartbeat_le] ].

Section order_of_operations.
Variable leaseMs : Z.
Implicit Types (s : TaskAttempt) (now : Z).

Lemma endLeaseWindow_le s : s ⊑ₐ endLeaseWindow s.
Proof. unfold endLeaseWindow. le_chain. Qed.

Lemma loseLease_le s : s ⊑ₐ loseLease s.
Proof. unfold loseLease. le_chain. Qed.

Lemma markCancellationRequested_le s : s ⊑ₐ markCancellationRequested s.
Proof. unfold markCancellationRequested. le_chain. Qed.
Hint Resolve endLeaseWindow_le loseLease_le markCancellationRequested_le : wh.

Lemma renewLease_le now sentAt s : s ⊑ₐ renewLease leaseMs now sentAt s.
Proof.
  unfold renewLease. repeat case_match; eauto 2 with wh.
  etransitivity; [|apply endLeaseWindow_le]. eauto with wh.
Qed.

Lemma react_le now settled r s : s ⊑ₐ react now settled r s.
Proof. unfold react, armExpirationTimer. repeat case_match; eauto 2 with wh; le_chain. Qed.

Lemma foldl_react_le now settled rs s : s ⊑ₐ foldl (fun s r => react now settled r s) s rs.
Proof.
  revert s. induction rs as [|r rs IH]; intros s; simpl; [reflexivity|].
  etransitivity; [apply react_le | apply IH].
Qed.

Lemma settlePromise_le now settled s : s ⊑ₐ settlePromise now settled s.
Proof.
  unfold settlePromise. etransitivity; [|apply foldl_react_le].
  set (h := match settled with inl EO.cancel_requested => _ | _ => _ end).
  transitivity h; [|apply set_silent_le; reflexivity].
  subst h. repeat case_match; eauto 2 with wh.
Qed.
Hint Resolve renewLease_le react_le settlePromise_le : wh.

Lemma addReaction_le now r s : s ⊑ₐ addReaction now r s.
Proof. unfold addReaction. case_match; eauto 2 with wh. Qed.

Lemma expireOwnership_le s : s ⊑ₐ expireOwnership s.
Proof. unfold expireOwnership. case_match; eauto 2 with wh. Qed.

Lemma refreshOwnership_le now status sentAt s :
  s ⊑ₐ refreshOwnership leaseMs now status sentAt s.
Proof.
  unfold refreshOwnership, expireOwnershipInBackground.
  repeat case_match; eauto 2 with wh; le_chain;
    (etransitivity; [|apply addReaction_le]); eauto 2 with wh;
    (etransitivity; [|apply expireOwnership_le]); le_chain.
Qed.

Lemma abortForShutdown_le s : s ⊑ₐ abortForShutdown s.
Proof. unfold abortForShutdown. case_match; le_chain. Qed.

Lemma suspend_le child s : s ⊑ₐ (suspend child s).1.
Proof.
  unfold suspend. set (o := if child then _ else _ : AO.AttemptOutcome).
  pose proof (submit_le o s) as H. destruct (submit o s) as [[] s']; simpl in *; [|done].
  etransitivity; [exact H | apply abort_le].
Qed.

Lemma suspendForScheduledWait_le s : s ⊑ₐ (suspendForScheduledWait s).1.
Proof.
  unfold suspendForScheduledWait. pose proof (submit_le AO.suspended_for_wait s) as H.
  destruct (submit _ s) as [[] s']; simpl in *; [|done].
  etransitivity; [exact H | apply abort_le].
Qed.

Lemma attempt_step_le s te : s ⊑ₐ attempt_step leaseMs s te.
Proof.
  destruct te as [now []]; unfold attempt_step; simpl.
  - apply refreshOwnership_le.
  - repeat case_match; eauto 2 with wh.
  - repeat case_match; eauto 2 with wh. unfold expireOnConfirmation.
    etransitivity; [|apply addReaction_le]. etransitivity; [|apply expireOwnership_le].
    eauto with wh.
  - unfold expireAnswer. repeat case_match; eauto 2 with wh.
  - unfold expireError. repeat case_match; eauto 2 with wh.
  - unfold retryWaitEnds. repeat case_match; eauto 2 with wh.
  - apply abortForShutdown_le.
  - unfold requireLease. simpl. case_match; eauto 2 with wh.
  - apply suspend_le.
  - apply suspendForScheduledWait_le.
Qed.

Lemma attempt_run_le s evs : s ⊑ₐ attempt_run leaseMs s evs.
Proof.
  apply (run_invariant (attempt_step leaseMs) (fun s' => s ⊑ₐ s')); [|reflexivity].
  intros s' te H. etransitivity; [exact H | apply attempt_step_le].
Qed.
End order_of_operations.

#[export] Hint Resolve attempt_run_le : wh.

(** ** The lease window

    [provenance]: an open window comes from a request that PostgreSQL
    accepted.  [live]: an attempt whose signal is not aborted has a window. *)
Section window.
Variable leaseMs : Z.
Variable sent : Z -> Prop.
Implicit Types (s : TaskAttempt) (now : Z).

Definition provenance s : Prop :=
  forall e, leaseWindowEndsAt s = Some e -> exists t, sent t /\ e = t + ms leaseMs.
Definition live s : Prop := aborted s = None -> is_Some (leaseWindowEndsAt s).

Definition same_window s s' : Prop :=
  leaseWindowEndsAt s' = leaseWindowEndsAt s /\ aborted s' = aborted s.

Lemma provenance_same s s' : same_window s s' -> provenance s -> provenance s'.
Proof. intros [E _]. unfold provenance. by rewrite E. Qed.

Lemma live_same s s' : same_window s s' -> live s -> live s'.
Proof. intros [E1 E2]. unfold live. by rewrite E1, E2. Qed.

Lemma submit_window o s : same_window s (submit o s).2.
Proof. unfold submit. case_match; by split. Qed.

Lemma abort_window r s : leaseWindowEndsAt (abort r s) = leaseWindowEndsAt s.
Proof. unfold abort. by case_match. Qed.

Lemma abort_aborted r s : aborted (abort r s) <> None.
Proof. unfold abort. case_match; simpl; congruence. Qed.

Lemma endLeaseWindow_aborted s : aborted (endLeaseWindow s) <> None.
Proof. exact (abort_aborted _ _). Qed.

(** A lease check that passes changes nothing. *)
Lemma requireLease_inv now s s' :
  requireLease now s = (s', None) -> s' = s /\ aborted s = None /\ windowSpent now s = false.
Proof.
  unfold requireLease. destruct (windowSpent now s); intros [Hs Ha]%pair_equal_spec; [|done].
  by destruct (endLeaseWindow_aborted s).
Qed.

Lemma live_aborted s : aborted s <> None -> live s.
Proof. by intros ? ?. Qed.

Lemma provenance_closed s : leaseWindowEndsAt s = None -> provenance s.
Proof. intros E e. by rewrite E. Qed.

Lemma provenance_abort r s : provenance s -> provenance (abort r s).
Proof. unfold provenance. by rewrite abort_window. Qed.

Lemma live_abort r s : live (abort r s).
Proof. apply live_aborted, abort_aborted. Qed.

Lemma provenance_stop s : provenance (stop s).
Proof. by apply provenance_closed. Qed.
Hint Resolve provenance_abort live_abort provenance_stop : wh.

Lemma react_ok now settled r s :
  (provenance s -> provenance (react now settled r s)) /\
  (live s -> live (react now settled r s)).
Proof.
  unfold react, loseLease. repeat case_match; split; eauto 3 with wh; intros;
    first [eapply provenance_same | eapply live_same]; eauto; by split.
Qed.

Lemma foldl_react_ok now settled rs s :
  (provenance s -> provenance (foldl (fun s r => react now settled r s) s rs)) /\
  (live s -> live (foldl (fun s r => react now settled r s) s rs)).
Proof.
  revert s. induction rs as [|r rs IH]; intros s; simpl; [done|].
  destruct (react_ok now settled r s) as [H1 H2]. destruct (IH (react now settled r s)).
  split; eauto.
Qed.

Lemma settlePromise_ok now settled s :
  (provenance s -> provenance (settlePromise now settled s)) /\
  (live s -> live (settlePromise now settled s)).
Proof.
  unfold settlePromise.
  set (h := match settled with inl EO.cancel_requested => _ | _ => _ end).
  assert (Hh : (provenance s -> provenance h) /\ (live s -> live h)).
  { subst h. unfold markCancellationRequested.
    repeat case_match; split; eauto 3 with wh;
      first [apply provenance_same | apply live_same]; apply submit_window. }
  destruct Hh as [H1 H2]. set (h' := upd reactions _ _).
  destruct (foldl_react_ok now settled (reactions h) h') as [H3 H4].
  assert (Hs : same_window h h') by by split.
  split; intros H; [apply H3; eapply provenance_same; eauto | apply H4; eapply live_same; eauto].
Qed.

Lemma addReaction_ok now r s :
  (provenance s -> provenance (addReaction now r s)) /\
  (live s -> live (addReaction now r s)).
Proof. unfold addReaction. case_match; try done; apply react_ok. Qed.

Lemma expireOwnership_window s : same_window s (expireOwnership s).
Proof. unfold expireOwnership. case_match; by split. Qed.

Lemma addReaction_expire_ok now r s :
  (provenance s -> provenance (addReaction now r (expireOwnership s))) /\
  (live s -> live (addReaction now r (expireOwnership s))).
Proof.
  pose proof (expireOwnership_window s) as Hw.
  destruct (addReaction_ok now r (expireOwnership s)) as [H1 H2].
  split; intros; [eapply H1, provenance_same | eapply H2, live_same]; eauto.
Qed.

Lemma endLeaseWindow_ok s : provenance (endLeaseWindow s) /\ live (endLeaseWindow s).
Proof. unfold endLeaseWindow. split; eauto with wh. Qed.

Lemma renewLease_ok now sentAt s :
  sent sentAt -> provenance s -> live s ->
  provenance (renewLease leaseMs now sentAt s) /\ live (renewLease leaseMs now sentAt s).
Proof.
  intros Hsent Hp Hl. unfold renewLease.
  case_match; [done|]. case_match; [apply endLeaseWindow_ok|].
  case_match; [apply endLeaseWindow_ok|].
  split; intros ?; simpl; [|by eauto]. intros [= <-]. by exists sentAt.
Qed.

Lemma attempt_step_ok s te :
  (forall t, te.2 = HeartbeatAnswer HB.accepted t -> sent t) ->
  provenance s /\ live s ->
  provenance (attempt_step leaseMs s te) /\ live (attempt_step leaseMs s te).
Proof.
  intros Hsent [Hp Hl]. destruct te as [now ev]; unfold attempt_step; simpl in *.
  destruct ev; simpl.
  - destruct status; simpl; unfold markCancellationRequested, expireOwnershipInBackground.
    + apply renewLease_ok; auto.
    + split; eauto with wh.
    + split; [|eauto with wh]. apply provenance_abort, addReaction_expire_ok, provenance_stop.
    + split; [|eauto with wh]. apply provenance_abort, addReaction_expire_ok, provenance_stop.
    + case_match; [unfold loseLease; split; eauto with wh|..];
        (split; [by apply addReaction_ok | by apply addReaction_ok]).
    + done.
  - repeat case_match; try done; apply endLeaseWindow_ok.
  - repeat case_match; try done. unfold expireOnConfirmation.
    split; apply addReaction_expire_ok; done.
  - unfold expireAnswer. repeat case_match; try done; split; by apply settlePromise_ok.
  - unfold expireError. repeat case_match; try done; split; by apply settlePromise_ok.
  - unfold retryWaitEnds. repeat case_match; try done; split; by apply settlePromise_ok.
  - unfold abortForShutdown. case_match; [done|]. split; [|eauto with wh].
    by apply provenance_abort.
  - unfold requireLease. simpl. case_match; [apply endLeaseWindow_ok | done].
  - unfold suspend. set (o := if child then _ else _ : AO.AttemptOutcome).
    pose proof (submit_window o s) as Hw. destruct (submit o s) as [[] s']; simpl in *;
      split; eauto using provenance_same, live_same with wh.
  - unfold suspendForScheduledWait. pose proof (submit_window AO.suspended_for_wait s) as Hw.
    destruct (submit _ s) as [[] s']; simpl in *;
      split; eauto using provenance_same, live_same with wh.
Qed.

Lemma newTaskAttempt_ok task now claimSentAt :
  sent claimSentAt ->
  provenance (newTaskAttempt leaseMs task now claimSentAt) /\
  live (newTaskAttempt leaseMs task now claimSentAt).
Proof.
  intros Hsent. unfold newTaskAttempt. set (s := upd heartbeatRegistered _ _).
  assert (E : heartbeatStopped s = false /\ leaseWindowEndsAt s = None).
  { subst s. by case_match. }
  destruct E as [E1 E2]. unfold renewLease, windowSpent. rewrite E1, E2.
  case_match; [apply endLeaseWindow_ok|].
  split; intros ?; simpl; [|by eauto]. intros [= <-]. by exists claimSentAt.
Qed.
End window.

(** The requests whose acceptance a run of an attempt saw: the claim and the
    accepted heartbeats. *)
Definition accepted_request (claimSentAt : Z) (evs : list (Z * event)) (t : Z) : Prop :=
  t = claimSentAt \/ exists now, (now, HeartbeatAnswer HB.accepted t) ∈ evs.

Lemma attempt_run_window leaseMs task now0 claimSentAt evs :
  let sent := accepted_request claimSentAt evs in
  let s := attempt_run leaseMs (newTaskAttempt leaseMs task now0 claimSentAt) evs in
  provenance leaseMs sent s /\ live s.
Proof.
  intros sent s. subst s.
  apply (run_invariant_on (attempt_step leaseMs) (fun s => provenance leaseMs sent s /\ live s)
           (fun te => te ∈ evs)).
  - intros s [now ev] Hin Hs. apply attempt_step_ok; [|done].
    simpl. intros t ->. right. by exists now.
  - by apply Forall_forall.
  - apply newTaskAttempt_ok. by left.
Qed.

(** ** Expiry verdicts

    [k] selects the deadline ([true]) or the attempt timeout ([false]).  The
    attempt ends for that expiry only after PostgreSQL reported it. *)
Section verdict.
Variable leaseMs : Z.
Variable k : bool.
Variable V : Prop.
Implicit Types (s : TaskAttempt) (now : Z).

Definition expiry_reason : AbortReason :=
  if k then DeadlineExceededError else ExecutionTimeoutError.
Definition expiry_outcome : AO.AttemptOutcome :=
  if k then AO.deadline_exceeded else AO.attempt_timeout.
Definition expiry_answer : EO.ExpireOwnedStatus :=
  if k then EO.deadline_exceeded else EO.timeout_exceeded.
Definition expiry_heartbeat : HB.HeartbeatBatchStatus :=
  if k then HB.deadline_exceeded else HB.timeout_exceeded.

Definition reports_expiry (ev : event) : Prop :=
  ev = ExpireAnswer expiry_answer \/ exists sentAt, ev = HeartbeatAnswer expiry_heartbeat sentAt.

Definition justified s : Prop :=
  (aborted s = Some expiry_reason -> V) /\
  (accepted s = Some expiry_outcome -> V) /\
  (expirationPromise s = Answered expiry_answer -> V).

Ltac jsplit := unfold justified; split_and!; simpl; auto.

Lemma justified_same s s' :
  aborted s' = aborted s -> accepted s' = accepted s ->
  expirationPromise s' = expirationPromise s -> justified s -> justified s'.
Proof. unfold justified. by intros -> -> ->. Qed.

Lemma justified_abort r s : (r = expiry_reason -> V) -> justified s -> justified (abort r s).
Proof.
  intros Hr H. pose proof H as (H1 & H2 & H3). unfold abort. case_match; [done|].
  jsplit; simpl; auto. intros [= ->]. auto.
Qed.

Lemma justified_submit o s :
  (o = expiry_outcome -> V) -> justified s -> justified (submit o s).2.
Proof.
  intros Ho H. pose proof H as (H1 & H2 & H3). unfold submit. case_match; [done|].
  jsplit; simpl; auto. intros [= ->]. auto.
Qed.

Lemma justified_stop s : justified s -> justified (stop s).
Proof. by apply justified_same. Qed.

Lemma not_expiry_reason r :
  r <> DeadlineExceededError -> r <> ExecutionTimeoutError -> r = expiry_reason -> V.
Proof. unfold expiry_reason. by destruct k. Qed.
Lemma not_expiry_outcome o :
  o <> AO.deadline_exceeded -> o <> AO.attempt_timeout -> o = expiry_outcome -> V.
Proof. unfold expiry_outcome. by destruct k. Qed.

Ltac other := first [by apply not_expiry_reason | by apply not_expiry_outcome].

Lemma justified_endLeaseWindow s : justified s -> justified (endLeaseWindow s).
Proof.
  intros H. apply justified_abort; [other|]. apply justified_stop, justified_submit; [other|].
  by eapply justified_same.
Qed.
Lemma justified_loseLease s : justified s -> justified (loseLease s).
Proof. intros H. apply justified_abort; [other|]. apply justified_stop, justified_submit; [other|done]. Qed.
Lemma justified_cancel s : justified s -> justified (markCancellationRequested s).
Proof. intros H. apply justified_abort; [other|]. apply justified_stop, justified_submit; [other|done]. Qed.
Hint Resolve justified_endLeaseWindow justified_loseLease justified_cancel justified_stop : wh.

Definition answer_justified (settled : EO.ExpireOwnedStatus + error_id) : Prop :=
  settled = inl expiry_answer -> V.

Lemma justified_react now settled r s :
  answer_justified settled -> justified s -> justified (react now settled r s).
Proof.
  unfold answer_justified, react. intros Hans H.
  repeat case_match; simplify_eq/=; eauto 2 with wh; try (apply justified_abort; eauto 2 with wh);
    try other.
  - intros E. apply Hans. f_equal. unfold expiry_reason, expiry_answer in *. by destruct k.
  - intros E. apply Hans. f_equal. unfold expiry_reason, expiry_answer in *. by destruct k.
  - destruct H as (Ha & Ho & _). by jsplit.
Qed.

Lemma justified_foldl now settled rs s :
  answer_justified settled -> justified s ->
  justified (foldl (fun s r => react now settled r s) s rs).
Proof.
  intros Hans. revert s. induction rs as [|r rs IH]; intros s Hs; simpl; [done|].
  apply IH, justified_react; done.
Qed.

Lemma justified_settle now settled s :
  answer_justified settled -> justified s -> justified (settlePromise now settled s).
Proof.
  intros Hans Hs. unfold settlePromise. apply justified_foldl; [done|].
  set (h := match settled with inl EO.cancel_requested => _ | _ => _ end).
  assert (Hh : justified h).
  { subst h. unfold answer_justified in Hans.
    repeat case_match; simplify_eq/=; eauto 2 with wh; apply justified_submit; try done; try other.
    - intros E. apply Hans. f_equal. unfold expiry_outcome, expiry_answer in *. by destruct k.
    - intros E. apply Hans. f_equal. unfold expiry_outcome, expiry_answer in *. by destruct k. }
  destruct Hh as (H1 & H2 & H3). jsplit; simpl; auto.
  case_match; [|done]. intros [= ->]. by apply Hans.
Qed.

Lemma justified_addReaction now r s : justified s -> justified (addReaction now r s).
Proof.
  intros H. pose proof H as (_ & _ & H3). unfold addReaction.
  case_match eqn:E; try by (eapply justified_same; [..|exact H]).
  - apply justified_react; [|done]. intros [= ->]. auto.
  - by apply justified_react.
Qed.

Lemma justified_expire s : justified s -> justified (expireOwnership s).
Proof.
  intros H. unfold expireOwnership. case_match eqn:E; try done.
  destruct H as (Ha & Ho & He). by jsplit.
Qed.
Hint Resolve justified_addReaction justified_expire : wh.

Lemma justified_refresh now status sentAt s :
  (status = expiry_heartbeat -> V) -> justified s ->
  justified (refreshOwnership leaseMs now status sentAt s).
Proof.
  intros Hst H. unfold refreshOwnership, expireOwnershipInBackground.
  destruct status; eauto 2 with wh.
  - unfold renewLease. repeat case_match; eauto 2 with wh; by eapply justified_same.
  - apply justified_abort.
    + intros E. apply Hst. unfold expiry_reason, expiry_heartbeat in *. by destruct k.
    + apply justified_addReaction, justified_expire, justified_stop. by eapply justified_same.
  - apply justified_abort.
    + intros E. apply Hst. unfold expiry_reason, expiry_heartbeat in *. by destruct k.
    + apply justified_addReaction, justified_expire, justified_stop. by eapply justified_same.
  - case_match; eauto 2 with wh;
      apply justified_addReaction; by eapply justified_same.
Qed.

Lemma justified_step s te :
  (reports_expiry te.2 -> V) -> justified s -> justified (attempt_step leaseMs s te).
Proof.
  intros Hte H. destruct te as [now ev]; unfold attempt_step; simpl in *. destruct ev.
  - apply justified_refresh; [|done]. intros ->. apply Hte. right. by eexists.
  - repeat case_match; eauto 2 with wh.
  - repeat case_match; try done. unfold expireOnConfirmation.
    apply justified_addReaction, justified_expire. by eapply justified_same.
  - unfold expireAnswer. repeat case_match; try done.
    + apply justified_settle; [|done]. intros [= ->]. apply Hte. by left.
    + destruct H as (Ha & Ho & _). by jsplit.
  - unfold expireError. repeat case_match; try done. by apply justified_settle.
  - unfold retryWaitEnds. repeat case_match; try done.
    + apply justified_settle; [|done]. unfold answer_justified, expiry_answer. by destruct k.
    + destruct H as (Ha & Ho & _). by jsplit.
  - unfold abortForShutdown. case_match; [done|]. apply justified_abort; [other|].
    by eapply justified_same.
  - unfold requireLease. simpl. case_match; eauto 2 with wh.
  - unfold suspend. simpl. set (o := if child then _ else _ : AO.AttemptOutcome).
    assert (Hs : justified (submit o s).2) by (apply justified_submit; [destruct child; other|done]).
    destruct (submit o s) as [[] s']; simpl in *; [|done].
    apply justified_abort; [destruct child; other|done].
  - unfold suspendForScheduledWait. simpl.
    assert (Hs : justified (submit AO.suspended_for_wait s).2) by (apply justified_submit; [other|done]).
    destruct (submit _ s) as [[] s']; simpl in *; [|done].
    apply justified_abort; [other|done].
Qed.

Lemma justified_new task now claimSentAt :
  justified (newTaskAttempt leaseMs task now claimSentAt).
Proof.
  unfold newTaskAttempt. set (s := upd heartbeatRegistered _ _).
  assert (H : justified s) by (subst s; case_match; by jsplit).
  unfold renewLease. repeat case_match; eauto 2 with wh; by eapply justified_same.
Qed.
End verdict.

(** ** A spent window stays spent *)
Section spent.
Variable leaseMs : Z.
Variable t : Z.

(** The window, if any, ends by [t]. *)
Definition ended_by (x : Z) : Prop := x + ms leaseMs <= t.
Definition spent (s : TaskAttempt) : Prop :=
  aborted s <> None \/ (provenance leaseMs ended_by s /\ live s).

Lemma accepted_dec ev :
  (exists x, ev = HeartbeatAnswer HB.accepted x) \/
  (forall x, ev <> HeartbeatAnswer HB.accepted x).
Proof. destruct ev as [[]| | | | | | | | |]; eauto. Qed.

Lemma spent_aborted_step s te : aborted s <> None -> aborted (attempt_step leaseMs s te) <> None.
Proof.
  destruct (aborted s) as [r|] eqn:E; [intros _|done].
  by rewrite (le_aborted _ _ (attempt_step_le leaseMs s te) r E).
Qed.

Lemma spent_step s te : t <= te.1 -> spent s -> spent (attempt_step leaseMs s te).
Proof.
  intros Ht [Ha|[Hp Hl]]; [left; by apply spent_aborted_step|].
  destruct (aborted s) as [r|] eqn:Ea; [left; apply spent_aborted_step; congruence|].
  destruct te as [now ev]. destruct (accepted_dec ev) as [[x ->]|Hno].
  - right. unfold attempt_step. simpl. destruct (Hl Ea) as [e He].
    destruct (Hp e He) as (y & Hy & ->). unfold ended_by in Hy. simpl in Ht.
    unfold renewLease, windowSpent. rewrite He. case_match; [done|].
    rewrite (proj2 (Z.leb_le _ _)) by lia. apply endLeaseWindow_ok.
  - right. apply attempt_step_ok; [|done]. simpl. intros x ->. by destruct (Hno x).
Qed.

Lemma spent_of_window s : windowSpent t s = true -> spent s.
Proof.
  unfold windowSpent. destruct (leaseWindowEndsAt s) as [e|] eqn:E; [|done].
  intros He%Z.leb_le. right. split.
  - intros e' [= <-]%(eq_trans (eq_sym E)). exists (e - ms leaseMs). unfold ended_by. lia.
  - intros _. rewrite E. by eexists.
Qed.

Lemma spent_refuses s now : t <= now -> spent s -> (requireLease now s).2 <> None.
Proof.
  intros Hn Hs. unfold requireLease. simpl. case_match eqn:E; [apply abort_aborted|].
  destruct Hs as [?|[Hp Hl]]; [done|]. intros Ha. destruct (Hl Ha) as [e He].
  destruct (Hp e He) as (y & Hy & ->). unfold windowSpent, ended_by in *. rewrite He in E.
  bool_to_prop. lia.
Qed.
End spent.

(** Only [abortForShutdown] marks the attempt as stopped for the shutdown. *)
Section shutdown.
Variable leaseMs : Z.
Create Rewrite HintDb shutdown.

Lemma abort_shutdown r s : shutdownRequested (abort r s) = shutdownRequested s.
Proof. unfold abort. by destruct (aborted s). Qed.
Lemma submit_shutdown o s : shutdownRequested (submit o s).2 = shutdownRequested s.
Proof. unfold submit. by destruct (accepted s). Qed.
Hint Rewrite abort_shutdown submit_shutdown : shutdown.
Local Ltac same_shutdown := repeat (autorewrite with shutdown; simpl); try done.

Lemma endLeaseWindow_shutdown s : shutdownRequested (endLeaseWindow s) = shutdownRequested s.
Proof. unfold endLeaseWindow. same_shutdown. Qed.
Lemma loseLease_shutdown s : shutdownRequested (loseLease s) = shutdownRequested s.
Proof. unfold loseLease. same_shutdown. Qed.
Lemma markCancellation_shutdown s :
  shutdownRequested (markCancellationRequested s) = shutdownRequested s.
Proof. unfold markCancellationRequested. same_shutdown. Qed.
Hint Rewrite endLeaseWindow_shutdown loseLease_shutdown markCancellation_shutdown : shutdown.

Lemma react_shutdown now settled r s :
  shutdownRequested (react now settled r s) = shutdownRequested s.
Proof. unfold react. repeat case_match; same_shutdown. Qed.
Lemma foldl_react_shutdown now settled rs s :
  shutdownRequested (foldl (fun s r => react now settled r s) s rs) = shutdownRequested s.
Proof. revert s. induction rs as [|r rs IH]; intros s; simpl; [done|]. by rewrite IH, react_shutdown. Qed.
Lemma settlePromise_shutdown now settled s :
  shutdownRequested (settlePromise now settled s) = shutdownRequested s.
Proof.
  unfold settlePromise. rewrite foldl_react_shutdown. simpl. repeat case_match; same_shutdown.
Qed.
Lemma addReaction_shutdown now r s :
  shutdownRequested (addReaction now r s) = shutdownRequested s.
Proof. unfold addReaction. case_match; rewrite ?react_shutdown; done. Qed.
Lemma expireOwnership_shutdown s : shutdownRequested (expireOwnership s) = shutdownRequested s.
Proof. unfold expireOwnership. by case_match. Qed.
Hint Rewrite settlePromise_shutdown addReaction_shutdown expireOwnership_shutdown : shutdown.

Lemma attempt_step_shutdown s te :
  te.2 <> ShutdownAbort -> shutdownRequested (attempt_step leaseMs s te) = shutdownRequested s.
Proof.
  intros Hne. destruct te as [now ev]. unfold attempt_step. simpl in *.
  destruct ev; simpl; try done;
    unfold refreshOwnership, renewLease, expireOwnershipInBackground, expireOnConfirmation, expireAnswer,
      expireError, retryWaitEnds, requireLease, suspend, suspendForScheduledWait;
    repeat case_match; simplify_eq; same_shutdown.
  all: match goal with H : submit ?o ?a = _ |- _ =>
         pose proof (submit_shutdown o a) as E; rewrite H in E; simpl in E end; same_shutdown.
Qed.
End shutdown.

(** ** Properties *)






(** The handler is aborted for its deadline ([k = true]) or its attempt
    timeout ([k = false]), and the arbiter accepts that outcome, only after
    PostgreSQL reported that expiry in a heartbeat answer or in the answer of
    the expiry request.  The local timer alone ends nothing. *)
Theorem expiry_needs_verdict leaseMs k task now0 claimSentAt evs
    (Hend : aborted (attempt_run leaseMs (newTaskAttempt leaseMs task now0 claimSentAt) evs)
              = Some (expiry_reason k) \/
            accepted (attempt_run leaseMs (newTaskAttempt leaseMs task now0 claimSentAt) evs)
              = Some (expiry_outcome k)) :
  exists now ev, (now, ev) ∈ evs /\ reports_expiry k ev.
Proof.
  set (V := exists now ev, (now, ev) ∈ evs /\ reports_expiry k ev).
  assert (H : justified k V
                (attempt_run leaseMs (newTaskAttempt leaseMs task now0 claimSentAt) evs)).
  { apply (run_invariant_on (attempt_step leaseMs) (justified k V) (fun te => te ∈ evs)).
    - intros s [now ev] Hin Hs. apply justified_step; [|done]. intros Hr. by exists now, ev.
    - by apply Forall_forall.
    - apply justified_new. }
  destruct H as (H1 & H2 & _). destruct Hend; auto.
Qed.

Lemma expiry_needs_verdict_witness :
  exists now ev,
    (now, ev) ∈ [(ms 40002, ExpirationTimerFires); (ms 40003, ExpireAnswer EO.timeout_exceeded)]
    /\ reports_expiry false ev.
Proof.
  apply (expiry_needs_verdict 50000 false
           {| task_id := "t1"; task_queue := "q"; task_type := "x"; task_priority := 0;
              task_attempt := 1; redactErrorDetails := false; deadlineAt := None;
              attemptTimeoutAt := Some 40000; leaseExpiresAt := 50000 |} (ms 1) 0).
  left. vm_compute. reflexivity.
Defined.

(** The local expiration timer is never early and at most two milliseconds
    late.  PostgreSQL read its clock once at [claimed], when the worker's clock
    showed at most [now], granted a lease from that reading, and stored an
    expiry; both timestamps were truncated to milliseconds on the way.  The
    timer then comes due after the time from [claimed] to the expiry. *)
Theorem expiration_timer_never_early leaseMs task now claimSentAt claimed claimedMono expiry
    (Hclock : claimedMono <= now)
    (Hlease : leaseExpiresAt task = (claimed + ms leaseMs) / NS_PER_MS)
    (Hexpiry : earliestExpiration task = Some (expiry / NS_PER_MS)) :
  exists due,
    expirationDueAt (newTaskAttempt leaseMs task now claimSentAt) = Some due /\
    expiry - claimed < due - claimedMono /\
    due - now <= expiry - claimed + ms 2.
Proof.
  exists (now + ms (expiry / NS_PER_MS - (leaseExpiresAt task - leaseMs) + 1)). split_and!.
  - unfold newTaskAttempt. rewrite Hexpiry. unfold renewLease, endLeaseWindow, submit, abort.
    by repeat case_match.
  - rewrite Hlease. unfold ms, NS_PER_MS in *.
    pose proof (Z.div_mod expiry 1000000). pose proof (Z.mod_pos_bound expiry 1000000).
    pose proof (Z.div_mod (claimed + leaseMs * 1000000) 1000000).
    pose proof (Z.mod_pos_bound (claimed + leaseMs * 1000000) 1000000). lia.
  - rewrite Hlease. unfold ms, NS_PER_MS in *.
    pose proof (Z.div_mod expiry 1000000). pose proof (Z.mod_pos_bound expiry 1000000).
    pose proof (Z.div_mod (claimed + leaseMs * 1000000) 1000000).
    pose proof (Z.mod_pos_bound (claimed + leaseMs * 1000000) 1000000). lia.
Qed.

Lemma expiration_timer_never_early_witness :
  exists due,
    expirationDueAt (newTaskAttempt 30000 sampleTask (ms 7) 0) = Some due /\
    40000700000 - 900000 < due - ms 5 /\ due - ms 7 <= 40000700000 - 900000 + ms 2.
Proof.
  apply (expiration_timer_never_early 30000 sampleTask (ms 7) 0 900000 (ms 5) 40000700000).
  - vm_compute. discriminate.
  - vm_compute. reflexivity.
  - vm_compute. reflexivity.
Defined.

(** A stale settlement ends with a recorded outcome.  Whatever PostgreSQL
    answers and whatever events arrive meanwhile, [reconcileStale] either
    throws the error of a failed request, or leaves an accepted outcome in the
    arbiter and a telemetry outcome that is not [unknown]. *)
Theorem reconcileStale_records leaseMs env s :
  match reconcileStale leaseMs env s with
  | (s', Ret _) => accepted s' <> None /\ activation s' <> TE.unknown
  | (_, Throw e) => re_expireAnswer env = Throw e \/ re_ackAnswer env = Throw e
  end.
Proof.
  assert (H : forall o s, accepted (recordSettled o s).1 <> None /\
                          activation (recordSettled o s).1 <> TE.unknown).
  { intros o s0. unfold recordSettled, recordExecution, submit.
    destruct o; repeat (case_match || case_bool_decide); simpl in *; split; congruence. }
  assert (Hst : forall s' e, reconcileStatus leaseMs env s = (s', Throw e) ->
                             re_expireAnswer env = Throw e).
  { intros s' e. unfold reconcileStatus. repeat case_match; intros; simplify_eq; done. }
  unfold reconcileStale. destruct (reconcileStatus leaseMs env s) as [s1 [st|e]]; [|eauto].
  destruct st; [|destruct (re_ackAnswer env) as [[]|e]; [| |by right]|..];
    match goal with
    | |- context [recordSettled ?o ?x] =>
        specialize (H o x); destruct (recordSettled o x); exact H
    end.
Qed.
