(* ===== verification/Settlement.v ===== *)
(** * Executing one claimed task and settling it

    Model of [executeTaskWithinSpan], [prepareCompletion], [writeCompletion],
    [releaseOwned], [releaseAfterShutdown] and [settleFailure] of
    [typescript/core/src/worker.ts], and of [durableReplayConflict] of
    [typescript/core/src/queue/replay-conflicts.ts].

    The state of one execution is the attempt, the handler outcome attribute
    of the telemetry span, and the log of statements sent to PostgreSQL with
    their answers.  What the outside world does is a parameter [env]: the
    answer at each await, and the events of the attempt that arrive while the
    execution waits there.  Each await of the source has its own site. *)

From S2P Require Import Prelude Types TaskAttempt.

Inductive Failpoint : Set :=
| afterClaim | beforeHandler | afterHandler | beforeComplete | afterComplete.

(** A thrown value: the reason of the signal or a suspension symbol, an
    injected crash, or a value that the handler, a hook or the queue threw. *)
Inductive thrown : Set :=
| ThrownReason (r : AbortReason)
| InjectedCrashError
| ThrownValue (e : error_id)
| CompletionRejected        (* new Error("Completion rejected because ...") *)
| BadRetryDelay.            (* new Error("retryDelayMs must return ...") *)

(** ** Error objects and [durableReplayConflict] *)

Inductive error_class : Set :=
| CheckpointConflictError | CheckpointInputConflictError | WaitConflictError
| ChildConflictError | HumanWaitConflictError
| CancellationRequestedErrorClass
| PlainError.

Record error_object : Type := { err_class : error_class; err_cause : option error_id }.

(** The heap of error objects.  A value that is not in it is not an instance
    of [Error].  The causes can form a cycle. *)
Abbreviation error_heap := (error_id -> option error_object).

Definition is_conflict (c : error_class) : bool :=
  match c with
  | CheckpointConflictError | CheckpointInputConflictError | WaitConflictError
  | ChildConflictError | HumanWaitConflictError => true
  | _ => false
  end.

Definition MAX_CAUSE_DEPTH : nat := 16.

(** The loop of [durableReplayConflict] with [depth] iterations left; a cause
    that is undefined or not an error ends it. *)
Fixpoint conflict_in_chain (heap : error_heap) (depth : nat) (current : option error_id)
    : option error_id :=
  match depth, current with
  | S depth, Some e =>
      match heap e with
      | Some o => if is_conflict (err_class o) then Some e
                  else conflict_in_chain heap depth (err_cause o)
      | None => None
      end
  | _, _ => None
  end.

Definition durableReplayConflict (heap : error_heap) (t : thrown) : option error_id :=
  match t with
  | ThrownValue e => conflict_in_chain heap MAX_CAUSE_DEPTH (Some e)
  | _ => None
  end.

(** [error instanceof CancellationRequestedError] *)
Definition is_cancellation (heap : error_heap) (t : thrown) : bool :=
  match t with
  | ThrownReason CancellationRequestedError => true
  | ThrownValue e =>
      match heap e with
      | Some {| err_class := CancellationRequestedErrorClass |} => true
      | _ => false
      end
  | _ => false
  end.

(** ** The execution state *)

(** A statement sent to PostgreSQL, with its answer. *)
Inductive write : Type :=
| WComplete (fused : bool) (answer : res thrown bool)
| WFail (delay : option num) (answer : res thrown FS.FailureStatus)
| WRelease (answer : res thrown RO.ReleaseOwnedStatus)
| WAcknowledge (answer : res error_id bool)
| WReconcile (answer : res error_id SpanOutcome).

Record exec : Type := mkExec {
  att : TaskAttempt;
  span : option string;      (* workhorse.handler.outcome of the span *)
  writes : list write;
}.
#[export] Instance eta_exec : Eta exec := fun x => mkExec (att x) (span x) (writes x).

(** The awaits of an execution. *)
Inductive site : Set :=
| AtInject (p : Failpoint)
| AtHandler
| AtPrepare
| AtWrite
| AtRefused          (* acknowledgeCancellation after a refused completion *)
| AtRelease | AtReleaseAck | AtReleaseStale
| AtCancelled        (* acknowledgeCancellation after a returned handler *)
| AtSettleCancelled | AtSettleExpiration | AtExpirationCancelled | AtHandlerCancelled
| AtShutdownRelease | AtShutdownReleaseAck | AtShutdownReleaseStale
| AtFail | AtFailAck | AtFailStale.

Record env : Type := {
  env_leaseMs : Z;
  env_heap : error_heap;
  env_hasHandler : bool;                       (* this.handlers.get(task.type) *)
  env_fast : bool;                             (* this.fastTasks.has(task) *)
  env_during : site -> list (Z * event);
  env_clock : site -> Z;
  env_inject : Failpoint -> res thrown unit;
  env_handler : res thrown unit;
  env_prepare : res thrown unit;
  env_write : res thrown bool;
  env_release : site -> res thrown RO.ReleaseOwnedStatus;
  env_fail : res thrown FS.FailureStatus;
  env_retryDelay : res thrown (option num);    (* the retryDelayMs option or callback *)
  env_ack : site -> res error_id bool;
  env_reconcile : site -> reconcile_env;
}.

Section execution.
Variable w : env.
Local Abbreviation run_att := (attempt_run (env_leaseMs w)).
Local Abbreviation action := (stx exec thrown).

(** The events that arrive while the execution waits at a site. *)
Definition await (at_ : site) : action unit :=
  st_modify (fun x => x <| att ::= fun a => run_att a (env_during w at_) |>).
Definition modify_att (f : TaskAttempt -> TaskAttempt) : action unit :=
  st_modify (fun x => x <| att ::= f |>).
Definition setSpan (s : string) : action unit := st_modify (fun x => x <| span := Some s |>).
Definition log (wr : write) : action unit :=
  st_modify (fun x => x <| writes ::= fun ws => ws ++ [wr] |>).
Definition attempt_ : action TaskAttempt := x <-- st_get ;; st_ret (att x).

(** A failed request of the attempt throws its error. *)
Definition raise {A} (r : res error_id A) : action A :=
  st_lift (match r with Ret a => Ret a | Throw e => Throw (ThrownValue e) end).

Definition inject (p : Failpoint) : action unit :=
  await (AtInject p) ;;- st_lift (env_inject w p).

(** [attempt.requireLease()] and [attempt.requireSettlementLease()] *)
Definition checked (check : TaskAttempt -> TaskAttempt * option AbortReason) : action unit :=
  fun x => let '(a, reason) := check (att x) in
           (x <| att := a |>, match reason with Some r => Throw (ThrownReason r) | None => Ret tt end).

Definition acknowledge (at_ : site) : action bool :=
  log (WAcknowledge (env_ack w at_)) ;;-
  fun x => let '(a, answer) :=
             acknowledgeCancellation (env_leaseMs w) (env_during w at_) (env_ack w at_) (att x) in
           raise answer (x <| att := a |>).

Definition acknowledgeRequested (at_ : site) : action bool :=
  log (WAcknowledge (env_ack w at_)) ;;-
  fun x => let '(a, answer) :=
             acknowledgeRequestedCancellation (env_leaseMs w) (env_during w at_) (env_ack w at_)
               (att x) in
           raise answer (x <| att := a |>).

Definition span_string (o : SpanOutcome) : string :=
  match o with
  | span_canceled => "canceled" | span_deadline_exceeded => "deadline_exceeded"
  | span_timeout_exceeded => "timeout_exceeded" | span_stale => "stale"
  end.

Definition reconcile (at_ : site) : action unit :=
  answer <-- (fun x => let '(a, answer) :=
                         reconcileStale (env_leaseMs w) (env_reconcile w at_) (att x) in
                       (x <| att := a |> <| writes ::= fun ws => ws ++ [WReconcile answer] |>,
                        Ret answer)) ;;
  o <-- raise answer ;; setSpan (span_string o).

Definition release_string (s : RO.ReleaseOwnedStatus) : string :=
  match s with
  | RO.released => "released" | RO.cancel_requested => "cancel_requested"
  | RO.deadline_exceeded => "deadline_exceeded" | RO.timeout_exceeded => "timeout_exceeded"
  | RO.not_due => "not_due" | RO.stale => "stale"
  end.
Definition failure_string (s : FS.FailureStatus) : string :=
  match s with
  | FS.ready => "ready" | FS.scheduled => "scheduled" | FS.failed => "failed"
  | FS.cancel_requested => "cancel_requested" | FS.deadline_exceeded => "deadline_exceeded"
  | FS.timeout_exceeded => "timeout_exceeded" | FS.stale => "stale"
  end.

(** ** [releaseOwned] *)
Definition releaseOwned (at_ ack stale : site) : action unit :=
  await at_ ;;-
  log (WRelease (env_release w at_)) ;;-
  released <-- st_lift (env_release w at_) ;;
  setSpan (release_string released) ;;-
  match released with
  | RO.cancel_requested =>
      ok <-- acknowledgeRequested ack ;;
      if (ok : bool) then st_ret tt else setSpan "stale"
  | RO.stale => reconcile stale
  | _ => modify_att (recordRelease released)
  end.

(** [releaseAfterShutdown]: a failed release is logged, and lease recovery
    settles the task. *)
Definition releaseAfterShutdown : action unit :=
  st_catch (releaseOwned AtShutdownRelease AtShutdownReleaseAck AtShutdownReleaseStale)
           (fun _ => st_ret tt).

(** ** [settleFailure] *)

Definition MAX_RETRY_DELAY_MS : Z := 2147483647.

Definition validDelay (delay : option num) : bool :=
  match delay with
  | None => true
  | Some d => isSafeInteger d && negb (num_lt_Z d 0) && negb (num_gt_Z d MAX_RETRY_DELAY_MS)
  end.

(** The delay sent to [fail_v1]: the terminal sentinel of a durable replay
    conflict, or the checked delay of the option. *)
Definition failureDelay (error : thrown) : action (option num) :=
  match durableReplayConflict (env_heap w) error with
  | Some _ => st_ret (Some (num_of_Z (-1)))
  | None =>
      delay <-- st_lift (env_retryDelay w) ;;
      if validDelay delay then st_ret delay else st_throw BadRetryDelay
  end.

(** The ordinary failure path, from [span.recordException] on. *)
Definition failAttempt (error : thrown) : action unit :=
  delay <-- failureDelay error ;;
  await AtFail ;;-
  log (WFail delay (env_fail w)) ;;-
  failed <-- st_lift (env_fail w) ;;
  setSpan (failure_string failed) ;;-
  match failed with
  | FS.cancel_requested =>
      ok <-- acknowledgeRequested AtFailAck ;;
      if (ok : bool) then st_ret tt else setSpan "stale"
  | FS.stale => reconcile AtFailStale
  | _ => modify_att (recordFailure failed)
  end.

(** The end of [settleFailure] once no expiry settled the attempt. *)
Definition settleUnexpired (error : thrown) : action unit :=
  acked <-- (if is_cancellation (env_heap w) error then acknowledge AtHandlerCancelled
             else st_ret false) ;;
  if (acked : bool) then
    modify_att (fun a => recordExecution TE.canceled (submit AO.cancelled a).2) ;;-
    setSpan "canceled"
  else
    a <-- attempt_ ;;
    if stoppedForShutdown a then releaseAfterShutdown
    else failAttempt error.

Definition abortedFor (r : AbortReason) (a : TaskAttempt) : bool :=
  bool_decide (aborted a = Some r).

(** The branch of a deadline, an attempt timeout or an expiry request. *)
Definition settleExpired (error : thrown) : action unit :=
  modify_att (settleExpiration (env_leaseMs w) (env_clock w AtSettleExpiration)
                (env_during w AtSettleExpiration)) ;;-
  a <-- attempt_ ;;
  if arbiter_is AO.cancelled a then
    acknowledge AtExpirationCancelled ;;- setSpan "canceled"
  else if arbiter_is AO.lease_expired a then
    modify_att (recordExecution TE.lease_lost) ;;- setSpan "stale"
  else if arbiter_is AO.deadline_exceeded a || arbiter_is AO.attempt_timeout a then
    let executionTimedOut := arbiter_is AO.attempt_timeout a in
    modify_att (recordExecution (if executionTimedOut then TE.timeout else TE.deadline_exceeded)) ;;-
    setSpan (if executionTimedOut then "timeout_exceeded" else "deadline_exceeded")
  else settleUnexpired error.

Definition settleFailure (error : thrown) : action unit :=
  a <-- attempt_ ;;
  if isSuspended a then
    setSpan "suspended" ;;- modify_att (recordExecution TE.suspended)
  else match error with
  | InjectedCrashError => st_throw error
  | _ =>
  if arbiter_is AO.lease_expired a then
    setSpan "stale" ;;- modify_att (recordExecution TE.lease_lost)
  else if arbiter_is AO.cancelled a || abortedFor CancellationRequestedError a then
    modify_att (fun a => (submit AO.cancelled a).2) ;;-
    acknowledge AtSettleCancelled ;;- setSpan "canceled"
  else if arbiter_is AO.deadline_exceeded a || arbiter_is AO.attempt_timeout a
          || abortedFor DeadlineExceededError a || abortedFor ExecutionTimeoutError a
          || expirationRequested a
  then settleExpired error
  else settleUnexpired error
  end.

(** ** [executeTaskWithinSpan] *)

(** The [try] block: [true] when the completion write is prepared, [false]
    when the execution has ended. *)
Definition handlerPhase : action bool :=
  inject afterClaim ;;-
  if negb (env_hasHandler w) then
    releaseOwned AtRelease AtReleaseAck AtReleaseStale ;;- st_ret false
  else
  inject beforeHandler ;;-
  checked (requireLease (env_clock w AtHandler)) ;;-
  await AtHandler ;;- st_lift (env_handler w) ;;-
  inject afterHandler ;;-
  a <-- attempt_ ;;
  if isSuspended a then
    setSpan "suspended" ;;- modify_att (recordExecution TE.suspended) ;;- st_ret false
  else if arbiter_is AO.cancelled a then
    acknowledge AtCancelled ;;- setSpan "canceled" ;;- st_ret false
  else if arbiter_is AO.lease_expired a then
    setSpan "stale" ;;- modify_att (recordExecution TE.lease_lost) ;;- st_ret false
  else
  checked (requireSettlementLease (env_clock w AtPrepare)) ;;-
  inject beforeComplete ;;-
  await AtPrepare ;;- st_lift (env_prepare w) ;;-
  st_ret true.

(** The completion write: alone after the shutdown abort, otherwise fused for
    a fast-tier task. *)
Definition sendCompletion (fused : bool) : action bool :=
  await AtWrite ;;- log (WComplete fused (env_write w)) ;;- st_lift (env_write w).

(** The rest of the execution once the answer of the write is known. *)
Definition afterWrite (ok : bool) : action unit :=
  if ok then
    x <-- st_get ;;
    let '(won, a) := submit AO.completed (att x) in
    modify_att (fun _ => a) ;;-
    if (won : bool) then
      setSpan "succeeded" ;;- modify_att (recordExecution TE.succeeded) ;;- inject afterComplete
    else st_ret tt
  else
    acked <-- acknowledge AtRefused ;;
    if (acked : bool) then
      modify_att (fun a => recordExecution TE.canceled (submit AO.cancelled a).2) ;;-
      setSpan "canceled"
    else settleFailure CompletionRejected.

Definition completionPhase : action unit :=
  a <-- attempt_ ;;
  if stoppedForShutdown a then
    answer <-- st_catch (ok <-- sendCompletion false ;; st_ret (Some ok)) (fun _ => st_ret None) ;;
    match answer with
    | None => st_ret tt             (* logShutdownSettlementFailure *)
    | Some ok => afterWrite ok
    end
  else ok <-- sendCompletion (env_fast w) ;; afterWrite ok.

Definition executeBody : action unit :=
  prepared <-- st_catch handlerPhase (fun error => settleFailure error ;;- st_ret false) ;;
  if (prepared : bool) then completionPhase else st_ret tt.

(** The [finally] block stops the attempt on every exit. *)
Definition executeTaskWithinSpan : action unit :=
  fun x => let '(x, r) := executeBody x in (x <| att ::= stop |>, r).
End execution.

(** The execution of a fresh attempt. *)
Definition startExecution (w : env) (task : ClaimedTask) (now claimSentAt : Z)
    (shutdownAborted : bool) : exec :=
  let a := newTaskAttempt (env_leaseMs w) task now claimSentAt in
  mkExec (if shutdownAborted then abortForShutdown a else a) None [].

Definition executeTask (w : env) (task : ClaimedTask) (now claimSentAt : Z)
    (shutdownAborted : bool) : exec * res thrown unit :=
  executeTaskWithinSpan w (startExecution w task now claimSentAt shutdownAborted).

(** ** Counting the statements that settled the task

    A statement settles the task when PostgreSQL's answer says that it made
    the final transition of this attempt. *)
Definition settles (wr : write) : bool :=
  match wr with
  | WComplete _ (Ret ok) => ok
  | WFail _ (Ret st) => bool_decide (st <> FS.cancel_requested /\ st <> FS.stale)
  | WRelease (Ret st) =>
      bool_decide (st = RO.released \/ st = RO.deadline_exceeded \/ st = RO.timeout_exceeded)
  | WAcknowledge (Ret ok) => ok
  | WReconcile (Ret o) => match o with span_stale => false | _ => true end
  | _ => false
  end.

Definition settled_count (x : exec) : nat := length (filter (fun wr => settles wr = true) (writes x)).

Section counting.
Variable w : env.
Local Abbreviation action := (stx exec thrown).

(** [keeps m]: [m] sends nothing that settles.  [once m]: [m] settles the task
    at most once, and not at all when it throws. *)
Definition keeps {A} (m : action A) : Prop :=
  forall x, settled_count (m x).1 = settled_count x.
Definition once {A} (m : action A) : Prop :=
  forall x, match m x with
            | (x', Ret _) => (settled_count x' <= settled_count x + 1)%nat
            | (x', Throw _) => settled_count x' = settled_count x
            end.
(** The continuation changes no count and never throws. *)
Definition quiet {A} (m : action A) : Prop :=
  forall x, exists x' a, m x = (x', Ret a) /\ settled_count x' = settled_count x.

Lemma keeps_once {A} (m : action A) : keeps m -> once m.
Proof. intros H x. specialize (H x). destruct (m x) as [x' []]; simpl in *; lia. Qed.
Lemma quiet_keeps {A} (m : action A) : quiet m -> keeps m.
Proof. intros H x. by destruct (H x) as (x' & a & -> & ?). Qed.

Lemma keeps_bind {A B} (m : action A) (k : A -> action B) :
  keeps m -> (forall a, keeps (k a)) -> keeps (st_bind m k).
Proof.
  intros Hm Hk x. unfold st_bind. specialize (Hm x). destruct (m x) as [x' [a|e]]; simpl in *; [|done].
  by rewrite Hk.
Qed.
Lemma once_bind {A B} (m : action A) (k : A -> action B) :
  keeps m -> (forall a, once (k a)) -> once (st_bind m k).
Proof.
  intros Hm Hk x. unfold st_bind. specialize (Hm x). destruct (m x) as [x' [a|e]]; simpl in *; [|done].
  specialize (Hk a x'). rewrite Hm in Hk. done.
Qed.
Lemma once_then {A B} (m : action A) (k : A -> action B) :
  once m -> (forall a, quiet (k a)) -> once (st_bind m k).
Proof.
  intros Hm Hk x. unfold st_bind. specialize (Hm x). destruct (m x) as [x' [a|e]]; simpl in *; [|done].
  destruct (Hk a x') as (x2 & b & -> & ->). done.
Qed.
Lemma quiet_bind {A B} (m : action A) (k : A -> action B) :
  quiet m -> (forall a, quiet (k a)) -> quiet (st_bind m k).
Proof.
  intros Hm Hk x. unfold st_bind. destruct (Hm x) as (x1 & a & -> & H1).
  destruct (Hk a x1) as (x2 & b & -> & H2). exists x2, b. split; [done|lia].
Qed.

Lemma quiet_ret {A} (a : A) : quiet (st_ret a).
Proof. intros x. by exists x, a. Qed.
Lemma quiet_await at_ : quiet (await w at_).
Proof. intros x. eexists _, _. split; [reflexivity|done]. Qed.
Lemma quiet_modify f : quiet (modify_att f).
Proof. intros x. eexists _, _. split; [reflexivity|done]. Qed.
Lemma quiet_span s : quiet (setSpan s).
Proof. intros x. eexists _, _. split; [reflexivity|done]. Qed.
Lemma quiet_attempt : quiet attempt_.
Proof. intros x. eexists _, _. split; [reflexivity|done]. Qed.
Lemma quiet_get : quiet (@st_get exec thrown).
Proof. intros x. eexists _, _. split; [reflexivity|done]. Qed.
Lemma keeps_throw {A} e : keeps (st_throw e : action A).
Proof. by intros x. Qed.
Lemma keeps_lift {A} (r : res thrown A) : keeps (st_lift r).
Proof. by intros x. Qed.
Lemma keeps_raise {A} (r : res error_id A) : keeps (raise r).
Proof. by intros x. Qed.
Lemma keeps_checked f : keeps (checked f).
Proof. intros x. unfold checked. by destruct (f (att x)). Qed.
End counting.

#[export] Hint Resolve quiet_ret quiet_await quiet_modify quiet_span quiet_attempt quiet_get : wh.
#[export] Hint Resolve keeps_throw keeps_lift keeps_raise keeps_checked : wh.
#[export] Hint Extern 2 (keeps _) => apply quiet_keeps : wh.

(** Split binds and conditionals, and close the steps that send nothing. *)
Ltac count_steps :=
  repeat first
    [ solve [eauto 3 with wh]
    | match goal with
      | |- keeps (st_bind _ _) => apply keeps_bind; [|intros ?]
      | |- quiet (st_bind _ _) => apply quiet_bind; [|intros ?]
      | |- context [match ?b with _ => _ end] => destruct b
      end ].

Section settlement_counts.
Variable w : env.
Local Abbreviation action := (stx exec thrown).

Lemma keeps_inject p : keeps (inject w p).
Proof. unfold inject. count_steps. Qed.

Lemma settled_count_log wr x :
  settled_count (x <| writes ::= fun ws => ws ++ [wr] |>)
  = (settled_count x + if settles wr then 1 else 0)%nat.
Proof.
  unfold settled_count, upd. simpl. rewrite filter_app, length_app. f_equal.
  rewrite filter_cons, filter_nil. case_decide as H; [by rewrite H|].
  by destruct (settles wr).
Qed.

(** [answered m v]: [m] settles exactly when it returns [true]. *)
Definition answered (m : action bool) : Prop :=
  forall x, match m x with
            | (x', Ret b) => settled_count x' = (settled_count x + if b then 1 else 0)%nat
            | (x', Throw _) => settled_count x' = settled_count x
            end.

Lemma answered_once m : answered m -> once m.
Proof. intros H x. specialize (H x). destruct (m x) as [x' [[]|]]; lia. Qed.

Lemma answered_acknowledge at_ : answered (acknowledge w at_).
Proof.
  intros x. unfold acknowledge, log, st_modify, st_bind.
  pose proof (settled_count_log (WAcknowledge (env_ack w at_)) x) as H.
  unfold acknowledgeCancellation, raise, st_lift.
  destruct (env_ack w at_) as [[]|e]; simpl in *;
    first [exact H | etransitivity; [exact H | lia]].
Qed.

Lemma answered_acknowledgeRequested at_ : answered (acknowledgeRequested w at_).
Proof.
  intros x. unfold acknowledgeRequested, log, st_modify, st_bind.
  pose proof (settled_count_log (WAcknowledge (env_ack w at_)) x) as H.
  unfold acknowledgeRequestedCancellation, raise, st_lift.
  destruct (env_ack w at_) as [[]|e]; simpl in *;
    first [exact H | etransitivity; [exact H | lia]].
Qed.

Lemma once_reconcile at_ : once (reconcile w at_).
Proof.
  intros x. unfold reconcile, st_bind.
  destruct (reconcileStale _ _ _) as [a answer].
  pose proof (settled_count_log (WReconcile answer) (x <| att := a |>)) as H.
  destruct answer as [o|e]; unfold raise, st_lift; simpl in *.
  - change (settled_count (x <| att := a |>)) with (settled_count x) in H.
    unfold setSpan, st_modify. simpl.
    match goal with |- (settled_count ?y <= _)%nat =>
      change (settled_count y) with
        (settled_count (upd writes (fun ws => ws ++ [WReconcile (Ret o)]) (x <| att := a |>)))
    end.
    rewrite H. destruct o; lia.
  - rewrite H. change (settled_count (x <| att := a |>)) with (settled_count x). lia.
Qed.

(** A logged statement either settles, with nothing but bookkeeping after it,
    or leaves the settling to what follows. *)
Lemma once_log {B} wr (k : action B) :
  (settles wr = false -> once k) -> (settles wr = true -> quiet k) -> once (log wr ;;- k).
Proof.
  intros Hno Hyes x. unfold st_bind, log, st_modify.
  pose proof (settled_count_log wr x) as H. set (x1 := upd writes _ x) in *.
  destruct (settles wr).
  - destruct (Hyes eq_refl x1) as (x2 & b & -> & ->). lia.
  - specialize (Hno eq_refl x1). destruct (k x1) as [x2 [b|e]]; lia.
Qed.

Lemma once_requested at_ :
  once (ok <-- acknowledgeRequested w at_ ;; if (ok : bool) then st_ret tt else setSpan "stale").
Proof.
  apply once_then; [apply answered_once, answered_acknowledgeRequested|].
  intros []; eauto with wh.
Qed.

Lemma once_releaseOwned at_ ack stale : once (releaseOwned w at_ ack stale).
Proof.
  unfold releaseOwned. apply once_bind; [eauto with wh|intros _].
  destruct (env_release w at_) as [st|e] eqn:E.
  - apply once_log; intros Hs.
    + apply once_bind; [eauto with wh|intros st'].
      apply once_bind; [eauto with wh|intros _].
      destruct st'; eauto using keeps_once, once_requested, once_reconcile with wh.
    + intros x. unfold st_bind, st_lift. simpl.
      by destruct st; simpl in Hs; try discriminate;
        (eexists _, _; split; [reflexivity|]).
  - apply once_log; [|done]. intros _ x. unfold st_bind, st_lift. simpl. lia.
Qed.

Lemma once_failAttempt error : once (failAttempt w error).
Proof.
  unfold failAttempt. apply once_bind.
  { unfold failureDelay. count_steps. }
  intros delay. apply once_bind; [eauto with wh|intros _].
  destruct (env_fail w) as [st|e] eqn:E.
  - apply once_log; intros Hs.
    + apply once_bind; [eauto with wh|intros st'].
      apply once_bind; [eauto with wh|intros _].
      destruct st'; eauto using keeps_once, once_requested, once_reconcile with wh.
    + intros x. unfold st_bind, st_lift. simpl.
      by destruct st; simpl in Hs; try discriminate;
        (eexists _, _; split; [reflexivity|]).
  - apply once_log; [|done]. intros _ x. unfold st_bind, st_lift. simpl. lia.
Qed.

Lemma once_releaseAfterShutdown : once (releaseAfterShutdown w).
Proof.
  intros x. unfold releaseAfterShutdown, st_catch.
  pose proof (once_releaseOwned AtShutdownRelease AtShutdownReleaseAck AtShutdownReleaseStale x) as H.
  destruct (releaseOwned _ _ _ _ x) as [x' [u|e]]; simpl in *; lia.
Qed.

(** A refused acknowledgement leaves the settling to the continuation. *)
Lemma once_answered {B} (m : action bool) (k : bool -> action B) :
  answered m -> quiet (k true) -> once (k false) -> once (st_bind m k).
Proof.
  intros Hm Ht Hf x. unfold st_bind. specialize (Hm x). destruct (m x) as [x' [[]|e]]; [..|done].
  - destruct (Ht x') as (x2 & b & -> & ->). lia.
  - specialize (Hf x'). destruct (k false x') as [x2 [b|e]]; lia.
Qed.

Lemma answered_ret_false : answered (st_ret false).
Proof. intros x. simpl. lia. Qed.

Lemma once_settleUnexpired error : once (settleUnexpired w error).
Proof.
  unfold settleUnexpired. apply once_answered.
  - case_match; [apply answered_acknowledge | apply answered_ret_false].
  - count_steps.
  - apply once_bind; [eauto with wh|intros a].
    case_match; eauto using once_releaseAfterShutdown, once_failAttempt.
Qed.

Lemma once_settleExpired error : once (settleExpired w error).
Proof.
  unfold settleExpired. apply once_bind; [eauto with wh|intros _].
  apply once_bind; [eauto with wh|intros a].
  case_match; [apply once_then; eauto using answered_once, answered_acknowledge with wh|].
  repeat case_match; eauto using once_settleUnexpired; apply keeps_once; count_steps.
Qed.

Lemma once_settleFailure error : once (settleFailure w error).
Proof.
  unfold settleFailure. apply once_bind; [eauto with wh|intros a].
  assert (Hcancel : once (modify_att (fun a => (submit AO.cancelled a).2) ;;-
                          acknowledge w AtSettleCancelled ;;- setSpan "canceled")).
  { apply once_bind; [eauto with wh|intros _].
    apply once_then; eauto using answered_once, answered_acknowledge with wh. }
  case_match; [apply keeps_once; count_steps|].
  destruct error; try (apply keeps_once; by intros x);
    repeat case_match; eauto using once_settleUnexpired, once_settleExpired;
    apply keeps_once; count_steps.
Qed.

(** The handler phase settles at most once, and nothing when it throws or
    when the completion is still to be written. *)
Definition prepares (m : action bool) : Prop :=
  forall x, match m x with
            | (x', Ret true) | (x', Throw _) => settled_count x' = settled_count x
            | (x', Ret false) => (settled_count x' <= settled_count x + 1)%nat
            end.

Lemma prepares_false {A} (m : action A) : once m -> prepares (m ;;- st_ret false).
Proof.
  intros H x. unfold st_bind. specialize (H x). destruct (m x) as [x' [a|e]]; simpl; lia.
Qed.
Lemma prepares_bind {A} (m : action A) (k : A -> action bool) :
  keeps m -> (forall a, prepares (k a)) -> prepares (st_bind m k).
Proof.
  intros Hm Hk x. unfold st_bind. specialize (Hm x).
  destruct (m x) as [x' [a|e]]; simpl in *; [|done].
  specialize (Hk a x'). destruct (k a x') as [x2 [[]|e]]; lia.
Qed.
Lemma st_bind_assoc {A B C} (m : action A) (k : A -> action B) (h : B -> action C) x :
  st_bind (st_bind m k) h x = st_bind m (fun a => st_bind (k a) h) x.
Proof. unfold st_bind. by destruct (m x) as [x' [a|e]]. Qed.

Lemma prepares_handlerPhase : prepares (handlerPhase w).
Proof.
  unfold handlerPhase. apply prepares_bind; [apply keeps_inject|intros _].
  case_match; [apply prepares_false, once_releaseOwned|].
  apply prepares_bind; [apply keeps_inject|intros _].
  apply prepares_bind; [eauto with wh|intros _].
  apply prepares_bind; [eauto with wh|intros _].
  apply prepares_bind; [eauto with wh|intros _].
  apply prepares_bind; [apply keeps_inject|intros _].
  apply prepares_bind; [eauto with wh|intros a].
  case_match.
  { apply prepares_bind; [eauto with wh|intros _]. apply prepares_false, keeps_once. eauto with wh. }
  case_match.
  { intros x. rewrite <- st_bind_assoc. apply prepares_false.
    apply once_then; eauto using answered_once, answered_acknowledge with wh. }
  case_match.
  { apply prepares_bind; [eauto with wh|intros _]. apply prepares_false, keeps_once. eauto with wh. }
  apply prepares_bind; [eauto with wh|intros _].
  apply prepares_bind; [apply keeps_inject|intros _].
  apply prepares_bind; [eauto with wh|intros _].
  apply prepares_bind; [eauto with wh|intros _].
  by intros x.
Qed.
End settlement_counts.

Section completion_counts.
Variable w : env.
Local Abbreviation action := (stx exec thrown).

Definition at_most_one {A} (m : action A) : Prop :=
  forall x, (settled_count (m x).1 <= settled_count x + 1)%nat.

Lemma once_at_most_one {A} (m : action A) : once m -> at_most_one m.
Proof. intros H x. specialize (H x). destruct (m x) as [x' []]; simpl; lia. Qed.

Lemma answered_sendCompletion fused : answered (sendCompletion w fused).
Proof.
  intros x. unfold sendCompletion, st_bind, await, log, st_modify, st_lift. simpl.
  set (x1 := upd att _ x).
  pose proof (settled_count_log (WComplete fused (env_write w)) x1) as H.
  change (settled_count x1) with (settled_count x) in H.
  destruct (env_write w) as [[]|e]; simpl in *; rewrite H; lia.
Qed.

Lemma keeps_afterWrite_true : keeps (afterWrite w true).
Proof.
  unfold afterWrite. apply keeps_bind; [eauto with wh|intros x].
  destruct (submit AO.completed (att x)) as [won a].
  apply keeps_bind; [eauto with wh|intros _]. destruct won; [|eauto with wh].
  count_steps. apply keeps_inject.
Qed.

Lemma once_afterWrite_false : once (afterWrite w false).
Proof.
  unfold afterWrite. apply once_answered; [apply answered_acknowledge | count_steps |].
  apply once_settleFailure.
Qed.

(** Writing the completion and what follows it. *)
Lemma at_most_one_write fused : at_most_one (ok <-- sendCompletion w fused ;; afterWrite w ok).
Proof.
  intros x. unfold st_bind. pose proof (answered_sendCompletion fused x) as H.
  destruct (sendCompletion w fused x) as [x1 [[]|e]]; cbn beta iota in *.
  - rewrite keeps_afterWrite_true. lia.
  - pose proof (once_at_most_one _ once_afterWrite_false x1). lia.
  - simpl. lia.
Qed.

Lemma at_most_one_completionPhase : at_most_one (completionPhase w).
Proof.
  intros x. unfold completionPhase. unfold st_bind at 1. simpl.
  case_match; [|apply at_most_one_write].
  pose proof (answered_sendCompletion false x) as Hsend. unfold st_bind at 1, st_catch.
  unfold st_bind at 1. destruct (sendCompletion w false x) as [x1 [[]|e]]; cbn -[afterWrite] in *.
  - rewrite keeps_afterWrite_true. lia.
  - pose proof (once_at_most_one _ once_afterWrite_false x1). lia.
  - lia.
Qed.

Lemma at_most_one_executeBody : at_most_one (executeBody w).
Proof.
  intros x. unfold executeBody, st_bind, st_catch.
  pose proof (prepares_handlerPhase w x) as H.
  destruct (handlerPhase w x) as [x1 [[]|e]]; simpl in *.
  - pose proof (at_most_one_completionPhase x1). lia.
  - done.
  - pose proof (once_settleFailure w e x1) as H'.
    destruct (settleFailure w e x1) as [x2 [u|e']]; simpl in *; lia.
Qed.
End completion_counts.

(** ** What an action appends to the log *)
Section appending.
Variable w : env.
Variable P : write -> Prop.
Local Abbreviation action := (stx exec thrown).

Definition appends {A} (m : action A) : Prop :=
  forall x, exists new, writes (m x).1 = writes x ++ new /\ Forall P new.

Lemma appends_silent {A} (m : action A) : (forall x, writes (m x).1 = writes x) -> appends m.
Proof. intros H x. exists []. by rewrite H, app_nil_r. Qed.

Lemma appends_bind {A B} (m : action A) (k : A -> action B) :
  appends m -> (forall a, appends (k a)) -> appends (st_bind m k).
Proof.
  intros Hm Hk x. unfold st_bind. destruct (Hm x) as (n1 & E1 & H1).
  destruct (m x) as [x1 [a|e]]; simpl in *; [|eauto].
  destruct (Hk a x1) as (n2 & E2 & H2). exists (n1 ++ n2).
  rewrite E2, E1, app_assoc. split; [done|]. by apply Forall_app.
Qed.

(** The first action is silent, and what it returns is known. *)
Lemma appends_bind_value {A B} (Q : A -> Prop) (m : action A) (k : A -> action B) :
  (forall x, writes (m x).1 = writes x /\ forall a, (m x).2 = Ret a -> Q a) ->
  (forall a, Q a -> appends (k a)) -> appends (st_bind m k).
Proof.
  intros Hm Hk x. unfold st_bind. destruct (Hm x) as [E H].
  destruct (m x) as [x1 [a|e]]; simpl in *; [|exists []; by rewrite app_nil_r].
  rewrite <- E. by apply Hk, H.
Qed.

Lemma appends_catch {A} (m : action A) (h : thrown -> action A) :
  appends m -> (forall e, appends (h e)) -> appends (st_catch m h).
Proof.
  intros Hm Hh x. unfold st_catch. destruct (Hm x) as (n1 & E1 & H1).
  destruct (m x) as [x1 [a|e]]; simpl in *; [eauto|].
  destruct (Hh e x1) as (n2 & E2 & H2). exists (n1 ++ n2).
  rewrite E2, E1, app_assoc. split; [done|]. by apply Forall_app.
Qed.

Lemma appends_log wr : P wr -> appends (log wr).
Proof. intros H x. exists [wr]. by repeat constructor. Qed.

Lemma appends_ret {A} (a : A) : appends (st_ret a).
Proof. by apply appends_silent. Qed.
Lemma appends_throw {A} e : appends (st_throw e : action A).
Proof. by apply appends_silent. Qed.
Lemma appends_lift {A} (r : res thrown A) : appends (st_lift r).
Proof. by apply appends_silent. Qed.
Lemma appends_get : appends (@st_get exec thrown).
Proof. by apply appends_silent. Qed.
Lemma appends_await at_ : appends (await w at_).
Proof. by apply appends_silent. Qed.
Lemma appends_modify f : appends (modify_att f).
Proof. by apply appends_silent. Qed.
Lemma appends_span t : appends (setSpan t).
Proof. by apply appends_silent. Qed.
Lemma appends_attempt : appends attempt_.
Proof. by apply appends_silent. Qed.
Lemma appends_checked f : appends (checked f).
Proof. apply appends_silent. intros x. unfold checked. by destruct (f (att x)). Qed.
Lemma appends_inject p : appends (inject w p).
Proof. apply appends_silent. intros x. done. Qed.

Lemma appends_acknowledge at_ : P (WAcknowledge (env_ack w at_)) -> appends (acknowledge w at_).
Proof.
  intros H. apply appends_bind; [by apply appends_log|]. intros _. apply appends_silent.
  intros x. by destruct (acknowledgeCancellation _ _ _ _).
Qed.
Lemma appends_acknowledgeRequested at_ :
  P (WAcknowledge (env_ack w at_)) -> appends (acknowledgeRequested w at_).
Proof.
  intros H. apply appends_bind; [by apply appends_log|]. intros _. apply appends_silent.
  intros x. by destruct (acknowledgeRequestedCancellation _ _ _ _).
Qed.
Lemma appends_reconcile at_ : (forall r, P (WReconcile r)) -> appends (reconcile w at_).
Proof.
  intros H. apply appends_bind.
  - intros x. destruct (reconcileStale _ _ _) as [a r]. exists [WReconcile r]. by repeat constructor.
  - intros r. apply appends_bind; [by apply appends_silent|]. intros o. apply appends_span.
Qed.
End appending.

#[export] Hint Resolve appends_ret appends_throw appends_lift appends_get appends_await appends_modify
  appends_span appends_attempt appends_checked appends_inject : wh.

(** Walk through an action; the logged statements are left to [auto]. *)
Ltac append_steps :=
  repeat first
    [ solve [eauto 3 with wh]
    | solve [first [apply appends_log | apply appends_acknowledge
                   | apply appends_acknowledgeRequested | apply appends_reconcile]; done]
    | match goal with
      | |- appends _ (st_bind _ _) => apply appends_bind; [|intros ?]
      | |- appends _ (st_catch _ _) => apply appends_catch; [|intros ?]
      | |- appends _ (match ?b with _ => _ end) => destruct b eqn:?
      | |- appends _ (let '(_, _) := ?b in _) => destruct b
      end ].

Section appended_by_settlement.
Variable w : env.

(** A failure is written with the terminal sentinel for a durable replay
    conflict, and otherwise with no delay or a valid one. *)
Definition failure_ok (error : thrown) (wr : write) : Prop :=
  match wr with
  | WFail d _ =>
      match durableReplayConflict (env_heap w) error with
      | Some _ => d = Some (num_of_Z (-1))
      | None => validDelay d = true
      end
  | WComplete _ _ => False
  | _ => True
  end.

Lemma appends_releaseOwned error at_ ack stale :
  appends (failure_ok error) (releaseOwned w at_ ack stale).
Proof. unfold releaseOwned. append_steps. Qed.

Lemma failureDelay_ok error x :
  writes (failureDelay w error x).1 = writes x /\
  forall d, (failureDelay w error x).2 = Ret d -> forall r, failure_ok error (WFail d r).
Proof.
  unfold failureDelay, failure_ok. destruct (durableReplayConflict (env_heap w) error).
  - split; [done|]. by intros d [= <-].
  - unfold st_bind, st_lift. destruct (env_retryDelay w) as [d|e]; [|done].
    destruct (validDelay d) eqn:V; [|done]. split; [done|]. by intros d' [= <-].
Qed.

Lemma appends_failAttempt error : appends (failure_ok error) (failAttempt w error).
Proof.
  apply (appends_bind_value _ (fun d => forall r, failure_ok error (WFail d r))).
  - apply failureDelay_ok.
  - intros d Hd. append_steps.
Qed.

Lemma appends_settleFailure error : appends (failure_ok error) (settleFailure w error).
Proof.
  unfold settleFailure, settleExpired, settleUnexpired, releaseAfterShutdown.
  append_steps; first [apply appends_failAttempt | apply appends_releaseOwned].
Qed.
End appended_by_settlement.

(** ** The lease at the completion write *)
Section leased.
Variable w : env.
Variable sent : Z -> Prop.
Local Abbreviation action := (stx exec thrown).

Hypothesis Hsent :
  forall at_ now t, (now, HeartbeatAnswer HB.accepted t) ∈ env_during w at_ -> sent t.
Hypothesis Hserving : forall at_ now, (now, ShutdownAbort) ∉ env_during w at_.

Definition leased (a : TaskAttempt) : Prop :=
  (provenance (env_leaseMs w) sent a /\ live a) /\ shutdownRequested a = false.

Lemma leased_await at_ a : leased a -> leased (attempt_run (env_leaseMs w) a (env_during w at_)).
Proof.
  intros [Ha Hs].
  apply (run_invariant_on (attempt_step (env_leaseMs w)) leased
           (fun te => te ∈ env_during w at_)); [|by apply Forall_forall|done].
  intros s [now ev] Hin [Hw Hd]. split.
  - apply attempt_step_ok; [|done]. simpl. intros t ->. by eapply Hsent.
  - rewrite attempt_step_shutdown; [done|]. simpl. intros ->. by eapply Hserving.
Qed.

Lemma leased_requireLease now a a' : leased a -> requireLease now a = (a', None) -> leased a'.
Proof.
  by intros Hl (-> & _)%requireLease_inv.
Qed.

Lemma leased_settlement now a a' :
  leased a -> requireSettlementLease now a = (a', None) ->
  exists sentAt, sent sentAt /\ now < sentAt + ms (env_leaseMs w).
Proof.
  intros [[Hp Hl] Hd]. unfold requireSettlementLease.
  destruct (windowSpent now a) eqn:E; intros [_ Ha]%pair_equal_spec; revert Ha.
  - assert (stoppedForShutdown (endLeaseWindow a) = false) as ->.
    { unfold stoppedForShutdown. by rewrite endLeaseWindow_shutdown, Hd. }
    intros Ha. exact (False_ind _ (endLeaseWindow_aborted a Ha)).
  - unfold stoppedForShutdown. rewrite Hd. intros Ha. destruct (Hl Ha) as [e He].
    destruct (Hp e He) as (t & Ht & ->). exists t. split; [done|].
    unfold windowSpent in E. rewrite He in E. bool_to_prop. lia.
Qed.

(** A prepared completion passed the check within the lease. *)
Lemma handlerPhase_leased x :
  leased (att x) -> (handlerPhase w x).2 = Ret true ->
  exists sentAt, sent sentAt /\ env_clock w AtPrepare < sentAt + ms (env_leaseMs w).
Proof.
  intros Hx. unfold handlerPhase, inject, await, attempt_, checked, st_bind, st_modify, st_lift,
    st_get, st_ret.
  destruct (env_inject w afterClaim); [|done].
  destruct (env_hasHandler w); cbn [negb].
  2: { destruct (releaseOwned _ _ _ _ _) as [? []]; done. }
  destruct (env_inject w beforeHandler); [|done]. cbn [att].
  destruct (requireLease _ _) as [a1 [r|]] eqn:E1; [done|].
  destruct (env_handler w); [|done]. destruct (env_inject w afterHandler); [|done].
  apply leased_requireLease in E1; [|by apply leased_await, leased_await].
  repeat case_match; try done; intros _; simplify_eq.
  all: eapply leased_settlement; [|eassumption]; simpl; by apply leased_await, leased_await.
Qed.
End leased.

(** Only a prepared execution sends a completion. *)
Section completed.
Variable w : env.

Definition no_completion (wr : write) : Prop :=
  match wr with WComplete _ _ => False | _ => True end.

Lemma appends_weaken {A} (P Q : write -> Prop) (m : stx exec thrown A) :
  (forall wr, P wr -> Q wr) -> appends P m -> appends Q m.
Proof.
  intros HPQ Hm x. destruct (Hm x) as (new & E & H). exists new. split; [done|].
  eapply Forall_impl; eauto.
Qed.

Lemma handlerPhase_no_completion : appends no_completion (handlerPhase w).
Proof. unfold handlerPhase, releaseOwned. append_steps. Qed.

Lemma settleFailure_no_completion error : appends no_completion (settleFailure w error).
Proof.
  eapply appends_weaken; [|apply appends_settleFailure]. by intros [].
Qed.

Lemma completed_prepared x fused answer :
  writes x = [] -> WComplete fused answer ∈ writes (executeTaskWithinSpan w x).1 ->
  (handlerPhase w x).2 = Ret true.
Proof.
  intros Hx. unfold executeTaskWithinSpan, executeBody, st_bind at 1, st_catch.
  destruct (handlerPhase_no_completion x) as (n1 & E1 & H1). rewrite Hx in E1.
  assert (Hno : forall n, Forall no_completion n -> WComplete fused answer ∉ n).
  { intros n Hn Hin. rewrite Forall_forall in Hn. by apply Hn in Hin. }
  destruct (handlerPhase w x) as [x1 [[]|e]]; simpl in *; [done|..].
  - rewrite E1. intros Hin. by destruct (Hno n1 H1).
  - unfold st_bind. destruct (settleFailure_no_completion e x1) as (n2 & E2 & H2).
    rewrite E1 in E2. destruct (settleFailure w e x1) as [x2 [[]|e']]; simpl in *;
      rewrite E2; intros Hin; by destruct (Hno (n1 ++ n2) (proj2 (Forall_app _ _ _) (conj H1 H2))).
Qed.
End completed.

(** ** Properties *)



Definition lost_attempt : TaskAttempt :=
  attempt_run 30000 (newTaskAttempt 30000 sampleTask (ms 1) 0) [(ms 30001, WatchdogFires)].

Definition sample_env : env := {|
  env_leaseMs := 30000; env_heap := fun _ => None; env_hasHandler := true; env_fast := false;
  env_during := fun _ => []; env_clock := fun _ => ms 2; env_inject := fun _ => Ret tt;
  env_handler := Ret tt; env_prepare := Ret tt; env_write := Ret true;
  env_release := fun _ => Ret RO.released; env_fail := Ret FS.scheduled;
  env_retryDelay := Ret None; env_ack := fun _ => Ret false;
  env_reconcile := fun _ => {| re_shared1 := []; re_expire := []; re_expireAnswer := Ret EO.stale;
                               re_shared2 := []; re_ack := []; re_ackAnswer := Ret false |};
|}.


(** A handler stopped by the end of the shutdown grace is released, never
    failed.  If no other outcome won and the error is not a cancellation, the
    first statement that settling its error sends is [release_owned_v1], no
    failure is written, and settling does not throw even when the release
    fails. *)
Theorem shutdown_releases_without_failure w error x
    (Hcrash : error <> InjectedCrashError)
    (Hstop : stoppedForShutdown (att x) = true)
    (Hreason : aborted (att x) = Some WorkerShutdownError)
    (Hnone : expirationPromise (att x) = NotRequested)
    (Hcancel : is_cancellation (env_heap w) error = false) :
  let '(x', r) := settleFailure w error x in
  r = Ret tt /\
  exists rest, writes x' = writes x ++ WRelease (env_release w AtShutdownRelease) :: rest /\
               Forall (fun wr => match wr with WFail _ _ => False | _ => True end) rest.
Proof.
  assert (Hacc : accepted (att x) = None).
  { unfold stoppedForShutdown in Hstop. by bool_to_prop. }
  assert (E : settleFailure w error x = settleUnexpired w error x).
  { unfold settleFailure, attempt_, st_bind, st_get, st_ret, isSuspended, arbiter_is, abortedFor,
      expirationRequested. rewrite Hacc, Hreason, Hnone.
    rewrite !bool_decide_false by done. by destruct error. }
  rewrite E. unfold settleUnexpired, attempt_, st_bind, st_get, st_ret. rewrite Hcancel, Hstop.
  unfold releaseAfterShutdown, st_catch, releaseOwned, st_bind, await, log, st_modify, st_lift.
  destruct (env_release w AtShutdownRelease) as [st|e]; simpl; [|by eauto].
  destruct st; simpl; try by eauto.
  - unfold acknowledgeRequested, acknowledgeRequestedCancellation, st_bind, log, st_modify, raise.
    simpl. destruct (env_ack w AtShutdownReleaseAck) as [[]|e]; simpl; split; try done;
      (eexists; split; [by rewrite <- app_assoc|]; repeat constructor).
  - unfold reconcile, st_bind, raise, st_lift. destruct (reconcileStale _ _ _) as [a [o|e]]; simpl;
      split; try done; (eexists; split; [by rewrite <- app_assoc|]; repeat constructor).
Qed.

Definition shutdown_attempt : TaskAttempt :=
  attempt_run 30000 (newTaskAttempt 30000 sampleTask (ms 1) 0) [(ms 5, ShutdownAbort)].

Lemma shutdown_releases_without_failure_witness :
  let '(x', r) := settleFailure sample_env (ThrownReason WorkerShutdownError)
                    (mkExec shutdown_attempt None []) in
  r = Ret tt /\
  exists rest, writes x' = [] ++ WRelease (env_release sample_env AtShutdownRelease) :: rest /\
               Forall (fun wr => match wr with WFail _ _ => False | _ => True end) rest.
Proof.
  apply (shutdown_releases_without_failure sample_env (ThrownReason WorkerShutdownError)
           (mkExec shutdown_attempt None [])); first [discriminate | vm_compute; reflexivity].
Defined.

(** The delay of a failed attempt is well formed.  Every [fail_v1] that
    settling an error sends carries the terminal sentinel [-1] exactly when the
    error is a durable replay conflict, at most sixteen causes deep, and
    otherwise no delay or a whole number of milliseconds in the range of a
    PostgreSQL integer; so a handler or an option never produces the sentinel.
    Settling an error sends no completion. *)
Theorem failure_delay_well_formed w error x :
  exists new, writes (settleFailure w error x).1 = writes x ++ new /\
    forall delay answer, WFail delay answer ∈ new ->
      match durableReplayConflict (env_heap w) error, delay with
      | Some _, d => d = Some (num_of_Z (-1))
      | None, None => True
      | None, Some d => isSafeInteger d = true /\ 0 <= num_to_Z d <= MAX_RETRY_DELAY_MS
      end.
Proof.
  destruct (appends_settleFailure w error x) as (new & E & H). exists new. split; [done|].
  intros delay answer Hin. rewrite Forall_forall in H. specialize (H _ Hin). simpl in H.
  destruct (durableReplayConflict _ _); [done|]. destruct delay as [d|]; [|done].
  unfold validDelay in H. apply andb_true_iff in H as [H Hhi]. apply andb_true_iff in H as [Hd Hlo].
  split; [done|]. rewrite num_lt_Z_safe in Hlo by done. rewrite num_gt_Z_safe in Hhi by done.
  bool_to_prop. lia.
Qed.

(** C4: A completion is written only within the lease.  Outside a shutdown,
    when an execution sends [complete_v1], the check before it ran less than
    one lease after the claim request or an accepted heartbeat request of this
    attempt left the worker. *)
Theorem completion_within_lease w task now claimSentAt fused answer
    (Hserving : forall at_ t, (t, ShutdownAbort) ∉ env_during w at_)
    (Hcompletes : WComplete fused answer ∈ writes (executeTask w task now claimSentAt false).1) :
  exists sentAt,
    (sentAt = claimSentAt \/
     exists at_ t, (t, HeartbeatAnswer HB.accepted sentAt) ∈ env_during w at_) /\
    env_clock w AtPrepare < sentAt + ms (env_leaseMs w).
Proof.
  set (sent := fun t => t = claimSentAt \/
                 exists at_ n, (n, HeartbeatAnswer HB.accepted t) ∈ env_during w at_).
  set (x := startExecution w task now claimSentAt false) in *.
  apply (handlerPhase_leased w sent) with (x := x); [by unfold sent; eauto|done|..].
  { split; [apply newTaskAttempt_ok; by left|].
    unfold x, startExecution, newTaskAttempt, renewLease. simpl. by repeat case_match. }
  by apply (completed_prepared w x fused answer eq_refl).
Qed.

Lemma completion_within_lease_witness :
  exists sentAt,
    (sentAt = 0 \/
     exists at_ t, (t, HeartbeatAnswer HB.accepted sentAt) ∈ env_during sample_env at_) /\
    env_clock sample_env AtPrepare < sentAt + ms (env_leaseMs sample_env).
Proof.
  apply (completion_within_lease sample_env sampleTask (ms 1) 0 false (Ret true)).
  - intros at_ t Hin. by apply elem_of_nil in Hin.
  - vm_compute. left.
Defined.

(** An execution whose lease watchdog fires while PostgreSQL accepts its
    completion. *)
Definition watchdog_env : env := {|
  env_leaseMs := 30000; env_heap := fun _ => None; env_hasHandler := true; env_fast := false;
  env_during := fun at_ => match at_ with AtWrite => [(ms 30001, WatchdogFires)] | _ => [] end;
  env_clock := fun _ => ms 2; env_inject := fun _ => Ret tt;
  env_handler := Ret tt; env_prepare := Ret tt; env_write := Ret true;
  env_release := fun _ => Ret RO.released; env_fail := Ret FS.scheduled;
  env_retryDelay := Ret None; env_ack := fun _ => Ret false;
  env_reconcile := env_reconcile sample_env;
|}.

(** A normal race records the outcome [unknown].  PostgreSQL can accept
    the completion after the local lease window ended; the arbiter then holds
    the lost lease, and the worker returns without recording any outcome, so
    telemetry reports [unknown] for a task that succeeded. *)
Theorem accepted_completion_can_stay_unknown :
  exists w task now claimSentAt,
    let '(x, r) := executeTask w task now claimSentAt false in
    r = Ret tt /\ writes x = [WComplete false (Ret true)] /\
    accepted (att x) = Some AO.lease_expired /\ activation (att x) = TE.unknown.
Proof. exists watchdog_env, sampleTask, (ms 1), 0. vm_compute. by split_and!. Qed.
