(* ===== verification/Heartbeat.v ===== *)
(** * The heartbeat schedule of a worker

    Model of the heartbeat rounds of [typescript/core/src/worker.ts]
    ([addHeartbeatLease], [scheduleHeartbeatBatch], [takeBusyRetry],
    [busyRetryDelayMs], [runHeartbeatBatch]) and of
    [typescript/core/src/heartbeat-round.ts].

    The scheduler sees an attempt only through the two callbacks it registers
    and the removal function it gets back.  [LeaseHolder] is that interface;
    [TaskAttempt] implements it.  Attempts are objects with an identity, and a
    lease is a task id together with the object that registered it. *)

From S2P Require Import Prelude Types TaskAttempt.

(** [heartbeatRoundBoundMs] *)
Definition heartbeatRoundBoundMs (heartbeatMs : Z) : Z :=
  Z.max (Z.max 1 (heartbeatMs * 3 / 4)) (Z.min 50 heartbeatMs).

Definition MINIMUM_REMAINING_MS : Z := 8.
Definition BUSY_RETRY_BASE_MS : Z := 100.
Definition BUSY_RETRY_MARGIN_MS : Z := 12.
Definition BUSY_RETRY_MINIMUM_MS : Z := MINIMUM_REMAINING_MS + BUSY_RETRY_MARGIN_MS.

(** What an attempt gives to [addHeartbeatLease]: the [status] callback, the
    end of its lease window, and whether it still holds the removal function
    that it calls when it stops. *)
Class LeaseHolder (A : Type) : Type := {
  lease_status : Z -> HB.HeartbeatBatchStatus -> Z -> A -> A;
  lease_endsAt : A -> option Z;
  lease_registered : A -> bool;
}.

#[export] Instance TaskAttempt_holder (leaseMs : Z) : LeaseHolder TaskAttempt := {
  lease_status now status sentAt := refreshOwnership leaseMs now status sentAt;
  lease_endsAt := leaseWindowEndsAt;
  lease_registered := heartbeatRegistered;
}.

(** One [HeartbeatLease] object: the task id and the identity of the object. *)
Abbreviation lease := (string * nat)%type.

(** A request that left the worker. *)
Record round : Type := mkRound {
  round_leases : list lease;
  round_sentAt : Z;
  round_ms : Z;
  round_isRetry : bool;
  round_settled : bool;     (* its [then] ran, its [finally] not yet *)
}.
#[export] Instance eta_round : Eta round := fun r =>
  mkRound (round_leases r) (round_sentAt r) (round_ms r) (round_isRetry r) (round_settled r).

Record Scheduler (A : Type) : Type := mkScheduler {
  attempts : gmap nat (string * A);     (* each object, with its task id *)
  heartbeatLeases : jsmap string nat;
  heartbeatTimer : option Z;
  heartbeatTimerIsRetry : bool;
  busyRetryLeases : option (list lease);
  busyRetryAt : Z;
  heartbeatInFlight : bool;
  nextHeartbeatAt : option Z;
  outstanding : list round;
  sent_rounds : list round;     (* every request, for the statements below *)
}.
Arguments mkScheduler {A}.
Arguments attempts {A}.
Arguments heartbeatLeases {A}.
Arguments heartbeatTimer {A}.
Arguments heartbeatTimerIsRetry {A}.
Arguments busyRetryLeases {A}.
Arguments busyRetryAt {A}.
Arguments heartbeatInFlight {A}.
Arguments nextHeartbeatAt {A}.
Arguments outstanding {A}.
Arguments sent_rounds {A}.
#[export] Instance eta_Scheduler A : Eta (Scheduler A) := fun s =>
  mkScheduler (attempts s) (heartbeatLeases s) (heartbeatTimer s) (heartbeatTimerIsRetry s)
    (busyRetryLeases s) (busyRetryAt s) (heartbeatInFlight s) (nextHeartbeatAt s) (outstanding s)
    (sent_rounds s).

(** What happens outside the scheduler's own code. *)
Inductive hb_event (A : Type) : Type :=
| AddLease (obj : nat) (id : string) (a : A)
| AttemptChanges (obj : nat) (f : A -> A)
| HeartbeatTimerFires
| RoundAnswers (i : nat) (statuses : jsmap string HB.HeartbeatBatchStatus) (random : Z)
| RoundFails (i : nat)
| RoundEnds (i : nat).
Arguments AddLease {A}.
Arguments AttemptChanges {A}.
Arguments HeartbeatTimerFires {A}.
Arguments RoundAnswers {A}.
Arguments RoundFails {A}.
Arguments RoundEnds {A}.

Section scheduler.
Context {A : Type} `{LeaseHolder A}.
Variable heartbeatMs : Z.
(** Whether the queue lends a reserved connection, and whether it has
    [heartbeatMany]; neither changes while the worker lives. *)
Variable hasChannel : bool.
Implicit Types s : Scheduler A.

Definition heartbeatRoundMs : Z := heartbeatRoundBoundMs heartbeatMs.

Definition lease_end s (l : lease) : option Z :=
  match attempts s !! l.2 with Some (_, a) => lease_endsAt a | None => None end.

(** The map entry of the task is this very lease object. *)
Definition is_registered s (l : lease) : bool :=
  bool_decide (jsget l.1 (heartbeatLeases s) = Some l.2).

Definition scheduleHeartbeatBatch (now : Z) s : Scheduler A :=
  if bool_decide (heartbeatTimer s <> None) || bool_decide (heartbeatLeases s = []) then s
  else
    let next := default (now + ms heartbeatMs) (nextHeartbeatAt s) in
    let s := s <| nextHeartbeatAt := Some next |> in
    if heartbeatInFlight s then s
    else
      let retry := bool_decide (busyRetryLeases s <> None) && (busyRetryAt s <? next) in
      let dueAt := if retry then busyRetryAt s else next in
      s <| heartbeatTimerIsRetry := retry |>
        <| heartbeatTimer := Some (now + Z.max 0 (dueAt - now)) |>.

(** A busy lease that a retry can still renew. *)
Definition retryable (now : Z) s (l : lease) : bool :=
  is_registered s l && match lease_end s l with Some e => now <? e | None => false end.

Definition takeBusyRetry (now : Z) s : Scheduler A * option (list lease) :=
  let leases := busyRetryLeases s in
  let s := s <| busyRetryLeases := None |> in
  match leases, nextHeartbeatAt s with
  | Some leases, Some next =>
      if next <=? now then (s, None)
      else
        let selection := filter (fun l => retryable now s l = true) leases in
        (s, if bool_decide (selection = []) then None else Some selection)
  | _, _ => (s, None)
  end.

(** [base * (1 + Math.random())], with [Math.random()] as [random / 2^53] and
    the result at the resolution of the clock. *)
Definition busyRetryDelay (random : Z) : Z :=
  let base := Z.min (ms BUSY_RETRY_BASE_MS) (ms heartbeatMs / 8) in
  base + base * random / 2 ^ 53.

(** The bound of a round: a busy retry ends by the next slot and by the end of
    the earliest window in it. *)
Definition round_bound (sentAt : Z) (retrySelection : option (list lease)) s : Z :=
  match retrySelection with
  | None => heartbeatRoundMs
  | Some selection =>
      Z.max 1 (foldl Z.min
                 (Z.min (ms heartbeatRoundMs)
                    (default (sentAt + ms heartbeatMs) (nextHeartbeatAt s) - sentAt))
                 (map (fun l => default sentAt (lease_end s l) - sentAt) selection)
               / NS_PER_MS)
  end.

Definition runHeartbeatBatch (sentAt : Z) (retrySelection : option (list lease)) s : Scheduler A :=
  let leases := default (heartbeatLeases s) retrySelection in
  let s := match retrySelection with
           | None => s <| nextHeartbeatAt := Some (sentAt + ms heartbeatMs) |>
           | Some _ => s
           end in
  let s := s <| busyRetryLeases := None |> in
  let roundMs := round_bound sentAt retrySelection s in
  if bool_decide (retrySelection <> None) && hasChannel && (roundMs <? BUSY_RETRY_MINIMUM_MS)
  then scheduleHeartbeatBatch sentAt (s <| heartbeatInFlight := false |>)
  else
    let r := mkRound leases sentAt roundMs (bool_decide (retrySelection <> None)) false in
    s <| outstanding ::= fun rs => rs ++ [r] |> <| sent_rounds ::= fun rs => rs ++ [r] |>.

(** The callback of the heartbeat timer. *)
Definition heartbeatTimerFires (now : Z) s : Scheduler A :=
  match heartbeatTimer s with
  | None => s
  | Some _ =>
      let s := s <| heartbeatTimer := None |> in
      if heartbeatTimerIsRetry s then
        let '(s, selection) := takeBusyRetry now s in
        match selection with
        | None => scheduleHeartbeatBatch now s
        | Some _ => runHeartbeatBatch now selection (s <| heartbeatInFlight := true |>)
        end
      else runHeartbeatBatch now None (s <| heartbeatInFlight := true |>)
  end.

(** The function that [addHeartbeatLease] returns. *)
Definition removeLease (l : lease) s : Scheduler A :=
  let s := if is_registered s l then s <| heartbeatLeases ::= jsdelete l.1 |> else s in
  if bool_decide (heartbeatLeases s = []) then
    s <| heartbeatTimer := None |> <| busyRetryLeases := None |> <| nextHeartbeatAt := None |>
  else s.

(** An attempt changes; it calls its removal function when it stops. *)
Definition changeAttempt (obj : nat) (f : A -> A) s : Scheduler A :=
  match attempts s !! obj with
  | None => s
  | Some (id, a) =>
      let s := s <| attempts ::= <[obj := (id, f a)]> |> in
      if lease_registered a && negb (lease_registered (f a)) then removeLease (id, obj) s else s
  end.

(** The [then] of a round: each lease that is still the registered object gets
    its status; the busy ones are collected. *)
Definition deliver (now : Z) (statuses : jsmap string HB.HeartbeatBatchStatus) (sentAt : Z)
    (acc : Scheduler A * list lease) (l : lease) : Scheduler A * list lease :=
  let '(s, busy) := acc in
  if negb (is_registered s l) then acc
  else
    let status := default HB.stale (jsget l.1 statuses) in
    (changeAttempt l.2 (lease_status now status sentAt) s,
     if bool_decide (status = HB.busy) then busy ++ [l] else busy).

Definition answerRound (now : Z) (r : round) (statuses : jsmap string HB.HeartbeatBatchStatus)
    (random : Z) s : Scheduler A :=
  let '(s, busy) := foldl (deliver now statuses (round_sentAt r)) (s, []) (round_leases r) in
  if bool_decide (busy = []) then s
  else s <| busyRetryLeases := Some busy |> <| busyRetryAt := now + busyRetryDelay random |>.

(** [addHeartbeatLease] *)
Definition addHeartbeatLease (now : Z) (obj : nat) (id : string) (a : A) s : Scheduler A :=
  scheduleHeartbeatBatch now
    (s <| attempts ::= <[obj := (id, a)]> |> <| heartbeatLeases ::= jsset id obj |>).

(** Requests settle once.  An object registers once, when it is created. *)
Definition hb_step s (te : Z * hb_event A) : Scheduler A :=
  let now := te.1 in
  match te.2 with
  | AddLease obj id a =>
      if bool_decide (attempts s !! obj = None) && lease_registered a
      then addHeartbeatLease now obj id a s else s
  | AttemptChanges obj f => changeAttempt obj f s
  | HeartbeatTimerFires => heartbeatTimerFires now s
  | RoundAnswers i statuses random =>
      match outstanding s !! i with
      | Some r => if round_settled r then s
                  else answerRound now r statuses random
                         (s <| outstanding ::= <[i := r <| round_settled := true |>]> |>)
      | None => s
      end
  | RoundFails i =>
      match outstanding s !! i with
      | Some r => if round_settled r then s
                  else s <| outstanding ::= <[i := r <| round_settled := true |>]> |>
      | None => s
      end
  | RoundEnds i =>
      match outstanding s !! i with
      | Some r => if round_settled r
                  then scheduleHeartbeatBatch now
                         (s <| outstanding ::= delete i |> <| heartbeatInFlight := false |>)
                  else s
      | None => s
      end
  end.

Definition hb_run : Scheduler A -> list (Z * hb_event A) -> Scheduler A := run hb_step.

Definition newScheduler : Scheduler A :=
  mkScheduler ∅ [] None false None 0 false None [] [].
End scheduler.

(** ** The scheduling invariant

    [core]: the lease map is keyed by task, its objects are registered
    attempts of that task, and the next slot is at most one interval away.
    [flight]: at most one round is pending, and no timer is armed meanwhile.
    [awake]: while a lease is registered, a round is pending or a timer is
    armed that is not due after the next slot. *)
Section invariant.
Context {A : Type} `{LeaseHolder A}.
Variable heartbeatMs : Z.
Variable hasChannel : bool.
Implicit Types s : Scheduler A.

Record core (t : Z) s : Prop := {
  core_keys : NoDup (heartbeatLeases s).*1;
  core_idle : heartbeatLeases s = [] -> heartbeatTimer s = None /\ nextHeartbeatAt s = None;
  core_next : forall n, nextHeartbeatAt s = Some n -> n <= t + ms heartbeatMs;
  core_objs : forall id obj, (id, obj) ∈ heartbeatLeases s ->
                exists a, attempts s !! obj = Some (id, a) /\ lease_registered a = true;
}.

Definition flight s : Prop :=
  (outstanding s = [] /\ heartbeatInFlight s = false) \/
  (exists r, outstanding s = [r] /\ heartbeatInFlight s = true /\ heartbeatTimer s = None).

Definition awake (t : Z) s : Prop :=
  heartbeatLeases s <> [] ->
  exists n, nextHeartbeatAt s = Some n /\
    (heartbeatInFlight s = true \/ exists at_, heartbeatTimer s = Some at_ /\ at_ <= Z.max t n).

Definition wf (t : Z) s : Prop := core t s /\ flight s /\ awake t s.

Lemma wf_later t t' s : t <= t' -> wf t s -> wf t' s.
Proof.
  intros Ht ([Hk Hi Hn Ho] & Hf & Ha). split_and!; [split; eauto| done |].
  - intros n Hn'. specialize (Hn n Hn'). lia.
  - intros Hl. destruct (Ha Hl) as (n & En & [Hfl|(at_ & Et & Hat)]); exists n; split; auto.
    right. exists at_. split; [done|lia].
Qed.

(** The fields that [core] reads. *)
Lemma core_same t s s' :
  core t s -> heartbeatLeases s' = heartbeatLeases s -> nextHeartbeatAt s' = nextHeartbeatAt s ->
  heartbeatTimer s' = heartbeatTimer s \/ heartbeatTimer s' = None ->
  attempts s' = attempts s -> core t s'.
Proof.
  intros [Hk Hi Hn Ho] El En Et Ea. split; rewrite ?El, ?En, ?Ea; eauto.
  intros E. destruct (Hi E). split; [|done]. destruct Et as [->|]; done.
Qed.

Lemma schedule_wf t s :
  core t s -> flight s -> (heartbeatTimer s <> None -> awake t s) ->
  wf t (scheduleHeartbeatBatch heartbeatMs t s).
Proof.
  intros Hc Hf Ha. pose proof Hc as [Hk Hi Hn Ho]. unfold scheduleHeartbeatBatch.
  destruct (bool_decide (heartbeatTimer s <> None)) eqn:Et; bool_to_prop.
  { split_and!; auto. }
  destruct (heartbeatTimer s) as [?|] eqn:Htimer; [destruct Et; congruence|]. clear Et.
  destruct (bool_decide (heartbeatLeases s = [])) eqn:El; bool_to_prop; simpl.
  { split_and!; [done|done|]. intros Hl. by destruct Hl. }
  set (next := default _ (nextHeartbeatAt s)).
  assert (Hnext : next <= t + ms heartbeatMs).
  { unfold next. destruct (nextHeartbeatAt s) eqn:E; simpl; [by apply Hn|lia]. }
  assert (Hc' : core t (s <| nextHeartbeatAt := Some next |>)).
  { split; simpl; try done. by intros n [= <-]. }
  destruct (heartbeatInFlight s) eqn:Efl.
  { split_and!; [done| |].
    - destruct Hf as [[? ?]|(r & ? & ? & ?)]; [congruence|]. right. by exists r.
    - intros _. exists next. auto. }
  split_and!.
  - destruct Hc' as [Hk' Hi' Hn' Ho']. by split.
  - destruct Hf as [[? ?]|(r & ? & ? & ?)]; [|congruence]. by left.
  - intros _. exists next. split; [done|]. right. eexists. split; [reflexivity|].
    destruct (bool_decide _ && (busyRetryAt s <? next)) eqn:Er; bool_to_prop; simpl in *; lia.
Qed.

Local Ltac same_core :=
  eapply core_same; [eassumption | reflexivity | reflexivity
                    | simpl; first [left; reflexivity | right; reflexivity | right; assumption]
                    | reflexivity].

(** Removing a lease: the fields that scheduling reads are kept or cleared. *)
Lemma removeLease_wf t id obj a a' s :
  wf t s -> attempts s !! obj = Some (id, a) ->
  wf t (removeLease (id, obj) (s <| attempts ::= <[obj := (id, a')]> |>)).
Proof.
  intros (Hc & Hf & Ha) Hobj. destruct Hc as [Hk Hi Hn Ho]. unfold removeLease, is_registered. simpl.
  set (s' := if bool_decide (jsget id _ = _) then _ else _).
  assert (Hs' : heartbeatLeases s' ⊆ heartbeatLeases s /\ NoDup (heartbeatLeases s').*1 /\
                (forall id' obj', (id', obj') ∈ heartbeatLeases s' -> obj' <> obj) /\
                attempts s' = <[obj := (id, a')]> (attempts s) /\
                heartbeatTimer s' = heartbeatTimer s /\ nextHeartbeatAt s' = nextHeartbeatAt s /\
                outstanding s' = outstanding s /\ heartbeatInFlight s' = heartbeatInFlight s).
  { assert (Hown : forall id', (id', obj) ∈ heartbeatLeases s -> id' = id).
    { intros id' Hin. destruct (Ho _ _ Hin) as (b & Hb & _). congruence. }
    unfold s'. destruct (bool_decide (jsget id _ = _)) eqn:Hreg; bool_to_prop; split_and!;
      try done; simpl.
    - intros e He. by apply list_elem_of_filter in He as [_ ?].
    - by apply jsdelete_NoDup.
    - intros id' obj' [Hne Hin]%list_elem_of_filter ->. by apply Hne, Hown.
    - intros id' obj' Hin ->. pose proof (Hown _ Hin) as ->. by apply Hreg, jsget_NoDup. }
  clearbody s'. destruct Hs' as (Hsub & Hk' & Hne & Ea & Et & En & Eo & Efl).
  case_bool_decide as El.
  - split_and!; [split; simpl; try done| |by intros []].
    + by rewrite El; intros ? ? ?%elem_of_nil.
    + destruct Hf as [[? ?]|(r & ? & ? & ?)]; [left|right]; simpl; rewrite ?Eo, ?Efl; eauto.
  - split_and!; [split; rewrite ?Et, ?En; try done| |].
    + intros id' obj' Hin. rewrite Ea, lookup_insert_ne by (symmetry; eauto). by apply Ho, Hsub.
    + unfold flight. by rewrite Eo, Efl, Et.
    + intros _. unfold awake in Ha. rewrite En, Efl, Et. apply Ha.
      intros E. rewrite E in Hsub. destruct (heartbeatLeases s') as [|e l]; [done|].
      eapply elem_of_nil, (Hsub e). left.
Qed.

Lemma changeAttempt_wf t obj f s : wf t s -> wf t (changeAttempt obj f s).
Proof.
  intros Hwf. unfold changeAttempt. destruct (attempts s !! obj) as [[id a]|] eqn:E; [|done].
  destruct (lease_registered a && negb (lease_registered (f a))) eqn:Er.
  { by eapply removeLease_wf. }
  destruct Hwf as ([Hk Hi Hn Ho] & Hf & Ha). split_and!; [|done|done].
  split; simpl; try done. intros id' obj' Hin. destruct (Ho _ _ Hin) as (b & Hb & Hr).
  destruct (decide (obj' = obj)) as [->|Hne]; [|rewrite lookup_insert_ne by done; eauto].
  rewrite lookup_insert_eq. simplify_eq. eexists. split; [done|].
  rewrite Hr in Er. simpl in Er. by bool_to_prop.
Qed.

Lemma runHeartbeatBatch_wf t retry s :
  core t s -> heartbeatTimer s = None -> heartbeatInFlight s = true -> outstanding s = [] ->
  (retry <> None -> heartbeatLeases s <> [] -> nextHeartbeatAt s <> None) ->
  (retry = None -> heartbeatLeases s <> []) ->
  wf t (runHeartbeatBatch heartbeatMs hasChannel t retry s).
Proof.
  intros Hc Ht Hfl Ho Hr Hl. unfold runHeartbeatBatch.
  set (s0 := match retry with None => _ | Some _ => s end).
  assert (H0 : core t (s0 <| busyRetryLeases := None |>) /\ heartbeatTimer s0 = None /\
               heartbeatInFlight s0 = true /\ outstanding s0 = [] /\
               (heartbeatLeases s0 <> [] -> nextHeartbeatAt s0 <> None)).
  { unfold s0. destruct retry; split_and!; auto; [same_core|].
    destruct Hc as [Hk Hi Hn Hob]. split; simpl; try done.
    - intros E. by destruct Hl.
    - intros n [= <-]. lia. }
  clearbody s0. destruct H0 as (Hc0 & Ht0 & Hfl0 & Ho0 & Hn0).
  case_match.
  - apply schedule_wf; simpl; [same_core|by left|congruence].
  - split_and!; [same_core| |].
    + right. eexists. simpl. by rewrite Ho0.
    + intros Hne. simpl in *. destruct (nextHeartbeatAt s0) as [n|] eqn:En; [|by destruct Hn0].
      exists n. auto.
Qed.

Lemma timer_wf t s : wf t s -> wf t (heartbeatTimerFires heartbeatMs hasChannel t s).
Proof.
  intros (Hc & Hf & Ha). unfold heartbeatTimerFires.
  destruct (heartbeatTimer s) as [at_|] eqn:Et; [|by split_and!].
  destruct Hf as [[Ho Hfl]|(r & _ & _ & ?)]; [|congruence].
  assert (Hl : heartbeatLeases s <> []).
  { intros E. destruct (core_idle _ _ Hc E). congruence. }
  destruct (Ha Hl) as (n & En & _).
  destruct (heartbeatTimerIsRetry s) eqn:Er; simpl; rewrite Er.
  - unfold takeBusyRetry. simpl. rewrite En.
    assert (Hidle : forall s', core t s' -> outstanding s' = [] -> heartbeatInFlight s' = false ->
                     heartbeatTimer s' = None -> wf t (scheduleHeartbeatBatch heartbeatMs t s')).
    { intros s' ? ? ? ?. apply schedule_wf; [done|by left|congruence]. }
    repeat case_match; simplify_eq;
      first [ apply Hidle; simpl; try done; same_core
            | apply runHeartbeatBatch_wf; simpl; try done; [same_core|congruence] ].
  - apply runHeartbeatBatch_wf; simpl; try done. same_core.
Qed.

Lemma deliver_wf t statuses sentAt ls : forall s busy,
  wf t s -> wf t (foldl (deliver t statuses sentAt) (s, busy) ls).1.
Proof.
  induction ls as [|l ls IH]; intros s busy Hs; simpl; [done|].
  destruct (negb (is_registered s l)); apply IH; [done|]. by apply changeAttempt_wf.
Qed.

Lemma answerRound_wf t r statuses random s :
  wf t s -> wf t (answerRound heartbeatMs t r statuses random s).
Proof.
  intros Hs. unfold answerRound.
  pose proof (deliver_wf t statuses (round_sentAt r) (round_leases r) s [] Hs) as Hd.
  destruct (foldl _ _ _) as [s' busy]. simpl in Hd. case_bool_decide; [done|].
  destruct Hd as (Hc & Hf & Ha). split_and!; [same_core|done|done].
Qed.

Lemma settle_wf t i r s :
  wf t s -> outstanding s !! i = Some r ->
  wf t (s <| outstanding ::= <[i := r <| round_settled := true |>]> |>).
Proof.
  intros (Hc & Hf & Ha) Hi. split_and!; [same_core| |done].
  destruct Hf as [[Ho ?]|(r' & Ho & ? & ?)]; [by rewrite Ho in Hi|].
  right. simpl. rewrite Ho in *. destruct i as [|i]; [|done]. by eexists.
Qed.

Lemma hb_step_wf t s te : t <= te.1 -> wf t s -> wf te.1 (hb_step heartbeatMs hasChannel s te).
Proof.
  intros Ht Hs0. pose proof (wf_later _ _ _ Ht Hs0) as Hs. clear Hs0 Ht.
  destruct te as [now ev]; simpl in *. unfold hb_step; simpl.
  destruct ev as [obj id a|obj f| |i statuses random|i|i].
  - case_match eqn:E; [|done]. bool_to_prop. destruct Hs as ([Hk Hi Hn Ho] & Hf & Ha).
    apply schedule_wf; simpl.
    + split; simpl; try done.
      * by apply jsset_NoDup.
      * intros E. apply (f_equal (fmap fst)) in E. rewrite jsset_keys in E. unfold jshas in E.
        destruct (jsget id _) eqn:G; [|by apply app_eq_nil in E as [_ ?]].
        apply jsget_in in G. by destruct (heartbeatLeases s); [apply elem_of_nil in G|].
      * intros id' obj' Hin. apply jsget_NoDup in Hin; [|by apply jsset_NoDup].
        rewrite jsget_set in Hin. case_decide; simplify_eq.
        -- rewrite lookup_insert_eq. eauto.
        -- destruct (Ho id' obj') as (b & Hb & Hr); [by apply jsget_in|].
           rewrite lookup_insert_ne by congruence. eauto.
    + done.
    + intros Hne _. simpl. apply Ha. intros E. by destruct (Hi E).
  - by apply changeAttempt_wf.
  - by apply timer_wf.
  - repeat case_match; try done. by apply answerRound_wf, settle_wf.
  - repeat case_match; try done. by apply settle_wf.
  - repeat case_match; try done. destruct Hs as (Hc & Hf & Ha).
    destruct Hf as [[Ho ?]|(r' & Ho & ? & ?)]; [by rewrite Ho in *|].
    apply schedule_wf; simpl; [same_core| |congruence].
    left. simpl. rewrite Ho in *. destruct i as [|i]; [|done]. done.
Qed.

Lemma hb_run_wf evs :
  in_order 0 evs -> wf (final_time 0 evs) (hb_run heartbeatMs hasChannel newScheduler evs).
Proof.
  intros Ho. apply (run_timed_invariant _ wf hb_step_wf); [done|].
  split_and!; [split; simpl; try done|by left|by intros []].
  - constructor.
  - by intros ? ? ?%elem_of_nil.
Qed.
End invariant.

(** ** Where a lease window comes from *)
Section provenance_of_rounds.
Variables (leaseMs heartbeatMs : Z) (hasChannel : bool).
Variable claimed : nat -> Z -> Prop.
Variable fired : Z -> Prop.
Local Existing Instance TaskAttempt_holder.
Local Abbreviation sched := (Scheduler TaskAttempt).
Implicit Types s : sched.

(** A request that renews [obj] left at time [t]. *)
Definition requested (rs : list round) (obj : nat) (t : Z) : Prop :=
  claimed obj t \/
  exists r, r ∈ rs /\ round_sentAt r = t /\ obj ∈ (round_leases r).*2 /\ fired t.

Record windows s : Prop := {
  windows_ok : forall obj id a, attempts s !! obj = Some (id, a) ->
    provenance leaseMs (requested (sent_rounds s) obj) a /\ live a;
  windows_sent : forall r, r ∈ outstanding s ->
    exists r', r' ∈ sent_rounds s /\ round_leases r' = round_leases r /\
               round_sentAt r' = round_sentAt r /\ fired (round_sentAt r);
}.

Lemma windows_same s s' :
  windows s -> attempts s' = attempts s -> sent_rounds s' = sent_rounds s ->
  outstanding s' = outstanding s -> windows s'.
Proof. intros [H1 H2] Ea Es Eo. by split; rewrite ?Ea, ?Es, ?Eo. Qed.

Lemma schedule_windows now s :
  windows s -> windows (scheduleHeartbeatBatch heartbeatMs now s).
Proof.
  intros Hw. unfold scheduleHeartbeatBatch. repeat case_match; try done; by eapply windows_same.
Qed.

Lemma removeLease_windows l s : windows s -> windows (removeLease l s).
Proof.
  intros Hw. unfold removeLease. repeat case_match; try done; by eapply windows_same.
Qed.

Lemma changeAttempt_windows obj f s :
  (forall id a, attempts s !! obj = Some (id, a) ->
     provenance leaseMs (requested (sent_rounds s) obj) a /\ live a ->
     provenance leaseMs (requested (sent_rounds s) obj) (f a) /\ live (f a)) ->
  windows s -> windows (changeAttempt (H := TaskAttempt_holder leaseMs) obj f s).
Proof.
  intros Hf Hw. unfold changeAttempt. destruct (attempts s !! obj) as [[id a]|] eqn:E; [|done].
  assert (Hw' : windows (s <| attempts ::= <[obj := (id, f a)]> |>)).
  { destruct Hw as [H1 H2]. split; simpl; [|done]. intros obj' id' a' Hl.
    destruct (decide (obj' = obj)) as [->|Hne].
    - rewrite lookup_insert_eq in Hl. simplify_eq. eapply Hf; eauto.
    - rewrite lookup_insert_ne in Hl by done. eauto. }
  case_match; [by apply removeLease_windows|done].
Qed.

Lemma changeAttempt_sent obj f s :
  sent_rounds (changeAttempt (H := TaskAttempt_holder leaseMs) obj f s) = sent_rounds s.
Proof. unfold changeAttempt, removeLease. by repeat case_match. Qed.

(** Delivering a status adds a window only for the request of its round. *)
Lemma deliver_windows now statuses sentAt ls : forall s busy,
  (forall l, l ∈ ls -> requested (sent_rounds s) l.2 sentAt) ->
  windows s ->
  windows (foldl (deliver (H := TaskAttempt_holder leaseMs) now statuses sentAt) (s, busy) ls).1.
Proof.
  induction ls as [|l ls IH]; intros s busy Hreq Hw; simpl; [done|].
  destruct (negb (is_registered s l)).
  { apply IH; [|done]. intros l' Hl'. apply Hreq. by right. }
  apply IH.
  - rewrite changeAttempt_sent. intros l' Hl'. apply Hreq. by right.
  - apply changeAttempt_windows; [|done]. intros id a _ Ha.
    apply (attempt_step_ok leaseMs _ a (now, HeartbeatAnswer _ sentAt)); [|done].
    simpl. intros t [= _ <-]. apply Hreq. left.
Qed.

Lemma windows_send r s :
  fired (round_sentAt r) -> windows s ->
  windows (s <| outstanding ::= fun rs => rs ++ [r] |> <| sent_rounds ::= fun rs => rs ++ [r] |>).
Proof.
  intros Hf [H1 H2]. split; simpl.
  - intros obj id a Ha. destruct (H1 _ _ _ Ha) as [Hp Hl]. split; [|done].
    intros e He. destruct (Hp e He) as (t & [Ht|(r' & Hr' & ?)] & ->); exists t; (split; [|done]).
    + by left.
    + right. exists r'. split; [set_solver|done].
  - intros r' [Hr'|Hr'%list_elem_of_singleton]%elem_of_app.
    + destruct (H2 _ Hr') as (r2 & ? & ?). exists r2. split; [set_solver|done].
    + subst. exists r. split_and!; try done. set_solver.
Qed.

Lemma runHeartbeatBatch_windows now retry s :
  fired now -> windows s ->
  windows (runHeartbeatBatch (H := TaskAttempt_holder leaseMs) heartbeatMs hasChannel now retry s).
Proof.
  intros Hf Hw. unfold runHeartbeatBatch. case_match.
  - apply schedule_windows. eapply windows_same; [exact Hw|..]; by destruct retry.
  - apply windows_send; [done|]. eapply windows_same; [exact Hw|..]; by destruct retry.
Qed.

Lemma timer_windows now s :
  fired now -> windows s ->
  windows (heartbeatTimerFires (H := TaskAttempt_holder leaseMs) heartbeatMs hasChannel now s).
Proof.
  intros Hf Hw. unfold heartbeatTimerFires, takeBusyRetry.
  repeat case_match; simplify_eq; try done;
    first [apply schedule_windows | apply runHeartbeatBatch_windows; [done|]];
    by eapply windows_same.
Qed.

Lemma settle_windows i r s :
  outstanding s !! i = Some r -> windows s ->
  windows (s <| outstanding ::= <[i := r <| round_settled := true |>]> |>).
Proof.
  intros Hi [H1 H2]. split; simpl; [done|].
  intros r' (j & Hj)%list_elem_of_lookup.
  destruct (decide (i = j)) as [<-|Hne].
  - rewrite list_lookup_insert_eq in Hj by (by eapply lookup_lt_Some). simplify_eq. simpl.
    apply H2. by eapply list_elem_of_lookup_2.
  - rewrite list_lookup_insert_ne in Hj by done. apply H2. by eapply list_elem_of_lookup_2.
Qed.

(** The events that reach an attempt outside the heartbeat rounds. *)
Definition hb_event_ok (te : Z * hb_event TaskAttempt) : Prop :=
  match te.2 with
  | AddLease obj id a => exists task claimSentAt,
      a = newTaskAttempt leaseMs task te.1 claimSentAt /\ claimed obj claimSentAt
  | AttemptChanges obj f => exists now ev,
      f = (fun a => attempt_step leaseMs a (now, ev)) /\
      forall t, ev <> HeartbeatAnswer HB.accepted t
  | HeartbeatTimerFires => fired te.1
  | _ => True
  end.

Lemma hb_step_windows s te :
  hb_event_ok te -> windows s ->
  windows (hb_step (H := TaskAttempt_holder leaseMs) heartbeatMs hasChannel s te).
Proof.
  intros Hok Hw. destruct te as [now ev]. unfold hb_step, hb_event_ok in *. simpl in *.
  destruct ev as [obj id a|obj f| |i statuses random|i|i].
  - destruct Hok as (task & c & -> & Hc). case_match eqn:E; [|done].
    apply schedule_windows. destruct Hw as [H1 H2]. split; simpl; [|done].
    intros obj' id' a' Hl. destruct (decide (obj' = obj)) as [->|Hne].
    + rewrite lookup_insert_eq in Hl. simplify_eq. apply newTaskAttempt_ok. by left.
    + rewrite lookup_insert_ne in Hl by done. eauto.
  - destruct Hok as (n & ev & -> & Hev). apply changeAttempt_windows; [|done].
    intros id a _ Ha. apply attempt_step_ok; [|done]. simpl. intros t E. by destruct (Hev t).
  - by apply timer_windows.
  - destruct (outstanding s !! i) as [r|] eqn:Er; [|done]. destruct (round_settled r); [done|].
    pose proof (settle_windows _ _ _ Er Hw) as Hw'. unfold answerRound.
    destruct (windows_sent _ Hw r) as (r' & Hin & El & Es & Hf); [by eapply list_elem_of_lookup_2|].
    set (s1 := s <| outstanding ::= _ |>) in *.
    pose proof (deliver_windows now statuses (round_sentAt r) (round_leases r) s1 []) as Hd.
    destruct (foldl _ _ _) as [s2 busy]. simpl in Hd.
    assert (windows s2).
    { apply Hd; [|done]. intros l Hl. right. exists r'. rewrite El, Es. split_and!; try done.
      apply list_elem_of_fmap. eauto. }
    case_match; [done|by eapply windows_same].
  - repeat case_match; try done. by apply settle_windows.
  - destruct (outstanding s !! i) as [r|] eqn:Er; [|done]. destruct (round_settled r); [|done].
    apply schedule_windows. destruct Hw as [H1 H2]. split; simpl; [done|].
    intros r' Hr'. apply H2. eapply elem_of_submseteq; [exact Hr'|].
    apply sublist_submseteq, sublist_delete.
Qed.
End provenance_of_rounds.

(** The bound of a retry that is long enough for a round. *)
Lemma round_bound_le {A} `{LeaseHolder A} heartbeatMs now sel next (s : Scheduler A) :
  nextHeartbeatAt s = Some next ->
  BUSY_RETRY_MINIMUM_MS <= round_bound heartbeatMs now (Some sel) s ->
  let b := round_bound heartbeatMs now (Some sel) s in
  (BUSY_RETRY_MINIMUM_MS <= b <= heartbeatRoundBoundMs heartbeatMs) /\ now + ms b <= next /\
  forall l, l ∈ sel -> now + ms b <= default now (lease_end s l).
Proof.
  intros En Hmin b. unfold b, round_bound in *. rewrite En in *. simpl in *.
  set (ends := map (fun l => default now (lease_end s l) - now) sel) in *.
  set (init := Z.min _ (next - now)) in *.
  pose proof (foldl_min_le ends init) as [Hinit Hall]. set (m := foldl Z.min init ends) in *.
  unfold BUSY_RETRY_MINIMUM_MS, MINIMUM_REMAINING_MS, BUSY_RETRY_MARGIN_MS in *.
  assert (Hm : ms (Z.max 1 (m / NS_PER_MS)) <= m).
  { unfold ms, NS_PER_MS in *. pose proof (Z.mul_div_le m 1000000). lia. }
  split_and!; [done| |lia|].
  - unfold init, heartbeatRoundMs, ms, NS_PER_MS in *. lia.
  - intros l Hl. specialize (Hall (default now (lease_end s l) - now)).
    assert (m <= default now (lease_end s l) - now); [|lia].
    apply Hall, list_elem_of_fmap. eauto.
Qed.

(** ** Properties *)

(** C13: Heartbeats never stall and never overlap.  For every order of timer
    firings, answers, failures, new leases and ended attempts, while a lease
    is registered exactly one of two things holds: one round is pending and no
    timer is armed, or no round is pending and a timer is armed that is due at
    most one heartbeat interval after the latest event. *)
Theorem heartbeats_never_stall {A} `{LeaseHolder A} heartbeatMs hasChannel
    (evs : list (Z * hb_event A))
    (Hclock : in_order 0 evs) (Hpos : 0 <= heartbeatMs) :
  let s := hb_run heartbeatMs hasChannel newScheduler evs in
  heartbeatLeases s <> [] ->
  (exists r, outstanding s = [r] /\ heartbeatTimer s = None) \/
  (outstanding s = [] /\
   exists at_, heartbeatTimer s = Some at_ /\ at_ <= final_time 0 evs + ms heartbeatMs).
Proof.
  intros s Hl. destruct (hb_run_wf heartbeatMs hasChannel evs Hclock) as (Hc & Hf & Ha).
  fold s in Hc, Hf, Ha. destruct (Ha Hl) as (n & En & Hor).
  pose proof (core_next _ _ _ Hc n En) as Hn.
  destruct Hf as [[Ho Hfl]|(r & Ho & _ & Ht)]; [right|left; eauto].
  split; [done|]. destruct Hor as [?|(at_ & Et & Hat)]; [congruence|].
  exists at_. split; [done|]. unfold ms, NS_PER_MS in *. lia.
Qed.

(** A lease that is registered at 1 ms, renewed by a round at 10 001 ms that
    reports it busy, and retried. *)
Definition sample_events : list (Z * hb_event TaskAttempt) :=
  [(ms 1, AddLease 0 "t1" (newTaskAttempt 30000 sampleTask (ms 1) 0));
   (ms 10001, HeartbeatTimerFires);
   (ms 10003, RoundAnswers 0 [("t1", HB.busy)] 0);
   (ms 10003, RoundEnds 0)].

Lemma heartbeats_never_stall_witness :
  let s := hb_run (H := TaskAttempt_holder 30000) 10000 true newScheduler sample_events in
  (exists r, outstanding s = [r] /\ heartbeatTimer s = None) \/
  (outstanding s = [] /\
   exists at_, heartbeatTimer s = Some at_ /\
               at_ <= final_time 0 sample_events + ms 10000).
Proof.
  apply (heartbeats_never_stall (H := TaskAttempt_holder 30000) 10000 true sample_events).
  - repeat split; vm_compute; congruence.
  - lia.
  - vm_compute. discriminate.
Defined.


Definition renewed_events : list (Z * hb_event TaskAttempt) :=
  [(ms 1, AddLease 0 "t1" (newTaskAttempt 30000 sampleTask (ms 1) 0));
   (ms 10001, HeartbeatTimerFires);
   (ms 10003, RoundAnswers 0 [("t1", HB.accepted)] 0);
   (ms 10003, RoundEnds 0)].
Definition renewed_run : Scheduler TaskAttempt :=
  hb_run (H := TaskAttempt_holder 30000) 10000 true newScheduler renewed_events.
Definition renewed_attempt : TaskAttempt :=
  default (newTaskAttempt 30000 sampleTask 0 0) (snd <$> attempts renewed_run !! 0%nat).


(** A busy retry never outlives what it renews.  A retry round that leaves
    on the reserved connection contains only leases that are still registered
    by the same object and whose local window is open, it is bounded so that
    it ends by the next regular slot and before every one of those windows,
    the bound is long enough for a round, and the regular slot stays where it
    was. *)
Theorem busy_retry_bounded {A} `{LeaseHolder A} heartbeatMs now (s : Scheduler A) r
    (Hsent : sent_rounds (heartbeatTimerFires heartbeatMs true now s) = sent_rounds s ++ [r])
    (Hretry : round_isRetry r = true) :
  exists next,
    nextHeartbeatAt s = Some next /\
    nextHeartbeatAt (heartbeatTimerFires heartbeatMs true now s) = Some next /\
    round_sentAt r = now /\ BUSY_RETRY_MINIMUM_MS <= round_ms r <= heartbeatRoundBoundMs heartbeatMs /\
    now + ms (round_ms r) <= next /\
    forall l, l ∈ round_leases r ->
      is_registered s l = true /\ exists e, lease_end s l = Some e /\ now + ms (round_ms r) <= e.
Proof.
  assert (Hsched : forall n (s' : Scheduler A),
            sent_rounds (scheduleHeartbeatBatch heartbeatMs n s') = sent_rounds s').
  { intros n s'. unfold scheduleHeartbeatBatch. by repeat case_match. }
  assert (Hnot : forall rs : list round, rs = rs ++ [r] -> False).
  { intros rs E. apply (f_equal length) in E. rewrite length_app in E. simpl in E. lia. }
  revert Hsent. unfold heartbeatTimerFires.
  destruct (heartbeatTimer s) as [at_|]; [|by intros ?%Hnot]. simpl.
  destruct (heartbeatTimerIsRetry s).
  2: { intros E. cbn in E. apply app_inv_head in E as [= <-]. done. }
  unfold takeBusyRetry. simpl. destruct (busyRetryLeases s) as [leases|].
  2: { rewrite Hsched. by intros ?%Hnot. }
  destruct (nextHeartbeatAt s) as [next|] eqn:En; [|rewrite Hsched; by intros ?%Hnot].
  destruct (next <=? now) eqn:Ele; [rewrite Hsched; by intros ?%Hnot|]. bool_to_prop.
  case_bool_decide as Esel; [rewrite Hsched; by intros ?%Hnot|].
  set (sel := filter _ leases) in *. unfold runHeartbeatBatch.
  cbn -[round_bound scheduleHeartbeatBatch].
  match goal with |- context [round_bound ?h ?n (Some sel) ?s1] =>
    pose proof (round_bound_le h n sel next s1 En) as Hb;
    set (b := round_bound h n (Some sel) s1) in * end.
  clearbody b. destruct (b <? BUSY_RETRY_MINIMUM_MS) eqn:Eb; [rewrite Hsched; by intros ?%Hnot|].
  bool_to_prop. destruct (Hb Eb) as (Hround & Hslot & Hends).
  intros E. apply app_inv_head in E as [= <-]. simpl. exists next. rewrite En.
  split_and!; try done; try apply Hround. intros l Hl. assert (Hsel := Hl).
  apply list_elem_of_filter in Hl as [[Hreg He]%andb_true_iff _].
  split; [exact Hreg|]. specialize (Hends l Hsel). unfold lease_end in *. simpl in *.
  destruct (match attempts s !! l.2 with Some _ => _ | None => _ end) as [e|]; [|done]. eauto.
Qed.

Lemma busy_retry_bounded_witness :
  let s := hb_run (H := TaskAttempt_holder 30000) 10000 true newScheduler sample_events in
  let s' := heartbeatTimerFires (H := TaskAttempt_holder 30000) 10000 true (ms 10110) s in
  let r := mkRound [("t1", 0%nat)] (ms 10110) 7500 true false in
  exists next,
    nextHeartbeatAt s = Some next /\ nextHeartbeatAt s' = Some next /\
    round_sentAt r = ms 10110 /\ BUSY_RETRY_MINIMUM_MS <= round_ms r <= heartbeatRoundBoundMs 10000 /\
    ms 10110 + ms (round_ms r) <= next /\
    forall l, l ∈ round_leases r ->
      is_registered s l = true /\
      exists e, lease_end (H := TaskAttempt_holder 30000) s l = Some e /\
                ms 10110 + ms (round_ms r) <= e.
Proof.
  apply (busy_retry_bounded (H := TaskAttempt_holder 30000) 10000 (ms 10110)
           (hb_run (H := TaskAttempt_holder 30000) 10000 true newScheduler sample_events));
    vm_compute; reflexivity.
Defined.

(** A regular round renews every registered lease, and the next slot is one
    interval after it left, however late it was; missed slots are not
    replayed. *)
Theorem regular_round_renews_all {A} `{LeaseHolder A} heartbeatMs hasChannel now (s : Scheduler A)
    (Harmed : heartbeatTimer s <> None) (Hregular : heartbeatTimerIsRetry s = false) :
  let s' := heartbeatTimerFires heartbeatMs hasChannel now s in
  exists r, outstanding s' = outstanding s ++ [r] /\ sent_rounds s' = sent_rounds s ++ [r] /\
    round_leases r = heartbeatLeases s /\ round_sentAt r = now /\
    round_ms r = heartbeatRoundBoundMs heartbeatMs /\
    nextHeartbeatAt s' = Some (now + ms heartbeatMs) /\ heartbeatInFlight s' = true.
Proof.
  unfold heartbeatTimerFires. destruct (heartbeatTimer s); [|done]. simpl. rewrite Hregular.
  eexists. by split_and!.
Qed.

Lemma regular_round_renews_all_witness :
  let s := hb_run (H := TaskAttempt_holder 30000) 10000 true newScheduler
             (take 1 sample_events) in
  let s' := heartbeatTimerFires (H := TaskAttempt_holder 30000) 10000 true (ms 25000) s in
  exists r, outstanding s' = outstanding s ++ [r] /\ sent_rounds s' = sent_rounds s ++ [r] /\
    round_leases r = heartbeatLeases s /\ round_sentAt r = ms 25000 /\
    round_ms r = heartbeatRoundBoundMs 10000 /\
    nextHeartbeatAt s' = Some (ms 25000 + ms 10000) /\ heartbeatInFlight s' = true.
Proof.
  apply (regular_round_renews_all (H := TaskAttempt_holder 30000) 10000 true (ms 25000)).
  - vm_compute. discriminate.
  - vm_compute. reflexivity.
Defined.
