(* ===== verification/RenewalRound.v ===== *)
(** * One heartbeat transaction and its deadline

    Model of [transactOnce], [transact] and [roundTimeouts] of
    [typescript/core/src/heartbeat-connection.ts], and of [queryFencedWrite]
    of [typescript/core/src/queue/fenced-write.ts].

    The clock, PostgreSQL's answers and the moment when the transaction is
    ended by its timer are parameters.  Each call of [monotonicNow()] is one
    reading [clock k], so two reads of one synchronous block can differ; each
    statement is logged with the reading that admitted it. *)

From S2P Require Import Prelude Types Heartbeat.

Definition FENCED_WRITE_DEADLOCK_ATTEMPTS : nat := 3.

(** A failed query, with its SQLSTATE when it has one. *)
Record query_error : Type := { qe_id : error_id; qe_code : option string }.

Inductive round_error : Type :=
| RoundExpired                  (* HeartbeatRoundTimeoutError *)
| RoundExpiredCleanly           (* HeartbeatRoundExpiredCleanly *)
| QueryFailed (e : query_error).
#[export] Instance query_error_eq_dec : EqDecision query_error.
Proof. solve_decision. Defined.
#[export] Instance round_error_eq_dec : EqDecision round_error.
Proof. solve_decision. Defined.

Definition databaseErrorCode_of (e : round_error) : option string :=
  match e with QueryFailed q => qe_code q | _ => None end.

Inductive statement : Type :=
| SBegin
| STimeouts (statementMs idleMs : Z)
| SHeartbeat
| SCommit
| SRollback.
#[export] Instance statement_eq_dec : EqDecision statement.
Proof. solve_decision. Defined.

(** [roundTimeouts], of a remaining time in nanoseconds. *)
Definition roundTimeouts (remaining : Z) : Z * Z :=
  let quarter := Z.max 1 (remaining / (4 * NS_PER_MS)) in (quarter, quarter).

Record round_state : Type := mkRoundState {
  tick : nat;                        (* clock readings so far *)
  sent : list (nat * statement);     (* statements, with the reading that admitted them *)
}.
#[export] Instance eta_round_state : Eta round_state := fun x => mkRoundState (tick x) (sent x).

Section transaction.
Context {Rows : Type}.
Variable clock : nat -> Z.
(** Whether [transaction.ended] is set after that many readings. *)
Variable ended : nat -> bool.
(** The answer to each statement, by its position. *)
Variable answer : nat -> res query_error Rows.
Variable deadline : Z.
Local Abbreviation action := (stx round_state round_error).

Definition monotonicNow : action Z :=
  fun x => (x <| tick ::= S |>, Ret (clock (tick x))).

Definition isEnded : action bool := fun x => (x, Ret (ended (tick x))).

Definition late : action bool :=
  e <-- isEnded ;;
  if (e : bool) then st_ret true
  else now <-- monotonicNow ;; st_ret (deadline <=? now).

Definition expiry (heartbeatSent : bool) : round_error :=
  if heartbeatSent then RoundExpired else RoundExpiredCleanly.

(** [client.query]: the statement is logged with the latest reading. *)
Definition query (st : statement) : action Rows :=
  fun x => (x <| sent ::= fun l => l ++ [(pred (tick x), st)] |>,
            match answer (length (sent x)) with
            | Ret rows => Ret rows
            | Throw e => Throw (QueryFailed e)
            end).

Definition send (heartbeatSent : bool) (st : statement) : action Rows :=
  l <-- late ;;
  if (l : bool) then st_throw (expiry heartbeatSent) else query st.

Definition throw_when (b : bool) (e : round_error) : action unit :=
  if b then st_throw e else st_ret tt.

(** The [try] block after [BEGIN], up to the heartbeat statement. *)
Definition beforeHeartbeat (resent : bool) : action unit :=
  setAt <-- monotonicNow ;;
  let remaining := deadline - setAt in
  throw_when (remaining <? ms MINIMUM_REMAINING_MS) (expiry resent) ;;-
  let '(statementMs, idleMs) := roundTimeouts remaining in
  send resent (STimeouts statementMs idleMs) ;;-
  now <-- monotonicNow ;;
  throw_when (remaining <? 4 * (now - setAt)) (expiry resent) ;;-
  l <-- late ;; throw_when l (expiry resent) ;;-
  l <-- late ;; throw_when l (expiry resent).

Definition fromHeartbeat : action Rows :=
  rows <-- query SHeartbeat ;;
  send true SCommit ;;-
  l <-- late ;; throw_when l RoundExpired ;;-
  st_ret rows.

(** The [catch] block.  An error of the [ROLLBACK] itself is not reported, so
    the kind of its expiry does not matter. *)
Definition rollback (error : round_error) : action Rows :=
  match error with
  | RoundExpiredCleanly =>
      st_catch (send true SRollback ;;- st_ret tt) (fun _ => st_throw RoundExpired) ;;-
      l <-- late ;; throw_when l RoundExpired ;;-
      st_throw error
  | _ =>
      st_catch (send true SRollback ;;- st_ret tt) (fun _ => st_ret tt) ;;-
      st_throw error
  end.

Definition transactOnce (resent : bool) : action Rows :=
  e <-- isEnded ;;
  (if (e : bool) then st_throw (expiry resent)
   else now <-- monotonicNow ;;
        throw_when (deadline - now <? ms MINIMUM_REMAINING_MS) (expiry resent)) ;;-
  send resent SBegin ;;-
  st_catch (beforeHeartbeat resent ;;- fromHeartbeat) rollback.

(** The loop of [transact], with [fuel] attempts left after this one. *)
Fixpoint resend (fuel : nat) (resent : bool) : action Rows :=
  st_catch (transactOnce resent)
    (fun error =>
       match fuel with
       | S fuel =>
           if bool_decide (databaseErrorCode_of error = Some "40P01") then resend fuel true
           else st_throw error
       | O => st_throw error
       end).

(** [transact] from the arrival of the client on.  The loop ends at the last
    attempt, so two resends are all of them. *)
Definition transact : action Rows :=
  e <-- isEnded ;;
  if (e : bool) then st_throw RoundExpired
  else resend (pred FENCED_WRITE_DEADLOCK_ATTEMPTS) false.

(** ** What one attempt sends *)

(** The statements of one attempt and its result, against the readings from
    [t0] on. *)
Record attempt_ok (resent : bool) (t0 t1 n0 : nat) (l : list (nat * statement))
    (r : res round_error Rows) : Prop := {
  ok_ticks : (t0 <= t1)%nat;
  ok_in_time : Forall (fun e => clock e.1 < deadline /\ (t0 <= e.1 < t1)%nat) l;
  ok_rows : forall rows, r = Ret rows ->
    exists k1 s1 k2 kH kC k3,
      l = [(k1, SBegin); (k2, s1); (kH, SHeartbeat); (kC, SCommit)] /\
      answer (n0 + 2) = Ret rows /\ is_ret (answer (n0 + 3)) = true /\
      (kC < k3 < t1)%nat /\ clock k3 < deadline;
  ok_clean : r = Throw RoundExpiredCleanly ->
    resent = false /\ Forall (fun e => e.2 <> SHeartbeat) l /\
    (l = [] \/ exists l' k k3, l = l' ++ [(k, SRollback)] /\ is_ret (answer (n0 + length l')) = true /\
                               (k < k3 < t1)%nat /\ clock k3 < deadline);
  ok_budget : forall kH, (kH, SHeartbeat) ∈ l ->
    exists k1 k2 q, (k1, STimeouts q q) ∈ l /\ (k1 < k2 < kH)%nat /\ 1 <= q /\
                    clock k2 + 3 * ms q <= deadline;
  ok_once : (length (filter (fun e => e.2 = SBegin) l) <= 1)%nat;
}.

(** A check that passed read the clock before the deadline. *)
Lemma late_spec x :
  (late x).1 = x /\ (late x).2 = Ret true \/
  exists b, late x = (x <| tick ::= S |>, Ret b) /\ (b = false -> clock (tick x) < deadline).
Proof.
  unfold late, isEnded, st_bind, st_ret, monotonicNow. destruct (ended (tick x)); [by left|right].
  eexists. split; [reflexivity|]. intros E. bool_to_prop. lia.
Qed.

Lemma send_spec flag st x :
  (exists x', send flag st x = (x', Throw (expiry flag)) /\ sent x' = sent x /\
              (tick x <= tick x')%nat) \/
  (clock (tick x) < deadline /\
   send flag st x = (mkRoundState (S (tick x)) (sent x ++ [(tick x, st)]),
                     match answer (length (sent x)) with
                     | Ret rows => Ret rows
                     | Throw e => Throw (QueryFailed e)
                     end)).
Proof.
  unfold send, st_bind. destruct (late_spec x) as [[E1 E2]|(b & E & Hb)].
  - destruct (late x) as [x' r]. simpl in *. subst. left. by eexists.
  - rewrite E. destruct b; [left; eexists; split; [reflexivity|]; simpl; auto with lia|].
    right. split; [auto|]. unfold query. by destruct x.
Qed.

Lemma rollback_spec error x :
  exists x' l e, rollback error x = (x', Throw e) /\ sent x' = sent x ++ l /\
    (tick x <= tick x')%nat /\
    (l = [] \/ l = [(tick x, SRollback)] /\ clock (tick x) < deadline /\ (tick x < tick x')%nat) /\
    (e = RoundExpiredCleanly ->
       error = e /\ l = [(tick x, SRollback)] /\ is_ret (answer (length (sent x))) = true /\
       exists k3, (tick x < k3 < tick x')%nat /\ clock k3 < deadline).
Proof.
  destruct (send_spec true SRollback x) as [(x1 & E & Es & Ht)|[Hc E]].
  - exists x1, [], (match error with RoundExpiredCleanly => RoundExpired | _ => error end).
    rewrite app_nil_r. split_and!; [|done|done|by left|by destruct error].
    destruct error; unfold rollback, st_catch, st_bind; by rewrite E.
  - set (x1 := mkRoundState _ _) in E.
    assert (Hx1 : tick x1 = S (tick x) /\ sent x1 = sent x ++ [(tick x, SRollback)]) by done.
    clearbody x1. destruct Hx1 as [Et Es].
    assert (Hplain : error <> RoundExpiredCleanly -> rollback error x = (x1, Throw error)).
    { intros Hne. destruct error; try done; unfold rollback, st_catch, st_bind; rewrite E;
        by destruct (answer _). }
    destruct (decide (error = RoundExpiredCleanly)) as [->|Hne].
    2: { exists x1, [(tick x, SRollback)], error. rewrite Et.
         split_and!; auto with lia. intros ->. done. }
    unfold rollback, st_catch, st_bind. rewrite E.
    destruct (answer (length (sent x))) as [rows|e0] eqn:Ea.
    2: { exists x1, [(tick x, SRollback)], RoundExpired. rewrite Et. split_and!; auto with lia. done. }
    simpl. destruct (late_spec x1) as [[E1 E2]|(b & E1 & Hb)].
    + destruct (late x1) as [x2 r]. simpl in *. subst.
      exists x1, [(tick x, SRollback)], RoundExpired. rewrite Et. split_and!; auto with lia. done.
    + rewrite E1. destruct b; simpl.
      * eexists _, [(tick x, SRollback)], _. split_and!; [reflexivity|simpl; auto with lia..|done].
      * eexists _, [(tick x, SRollback)], _. split_and!; [reflexivity|simpl; auto with lia..|].
        intros _. split_and!; try done. exists (S (tick x)). simpl. rewrite <- Et.
        split; [lia|]. by apply Hb.
Qed.

Lemma expiry_clean resent : expiry resent = RoundExpiredCleanly -> resent = false.
Proof. by destruct resent. Qed.

(** The settings statement fits its budgets into the time left. *)
Lemma roundTimeouts_fit remaining :
  ms MINIMUM_REMAINING_MS <= remaining ->
  let q := (roundTimeouts remaining).1 in
  roundTimeouts remaining = (q, q) /\ 1 <= q /\ 4 * ms q <= remaining.
Proof.
  intros Hr q. split; [done|]. unfold q, roundTimeouts, ms, MINIMUM_REMAINING_MS in *. simpl in *.
  change (4 * NS_PER_MS) with 4000000. unfold NS_PER_MS in *.
  pose proof (Z.mul_div_le remaining 4000000). lia.
Qed.

Lemma beforeHeartbeat_spec resent x :
  match beforeHeartbeat resent x with
  | (x', Throw e) => exists l, sent x' = sent x ++ l /\ (tick x <= tick x')%nat /\
      (e = RoundExpiredCleanly -> resent = false) /\
      (l = [] \/ exists k q, l = [(k, STimeouts q q)] /\ clock k < deadline /\
                             (tick x <= k < tick x')%nat)
  | (x', Ret _) => exists k1 k2 q, sent x' = sent x ++ [(k1, STimeouts q q)] /\
      (tick x <= k1 < k2)%nat /\ (k2 < pred (tick x'))%nat /\ 1 <= q /\
      clock k2 + 3 * ms q <= deadline /\ clock k1 < deadline /\ clock (pred (tick x')) < deadline
  end.
Proof.
  unfold beforeHeartbeat. unfold st_bind at 1, monotonicNow at 1.
  set (setAt := clock (tick x)). set (remaining := deadline - setAt).
  destruct (remaining <? ms MINIMUM_REMAINING_MS) eqn:Er; bool_to_prop.
  { exists []. rewrite app_nil_r. split_and!; simpl; auto with lia. apply expiry_clean. }
  destruct (roundTimeouts_fit remaining) as (Eq & Hq1 & Hq4); [lia|].
  rewrite Eq. set (q := (roundTimeouts remaining).1) in *. clearbody q.
  unfold throw_when at 1, st_ret at 1. unfold st_bind at 1 2.
  set (x1 := x <| tick ::= S |>).
  destruct (send_spec resent (STimeouts q q) x1) as [(x2 & -> & Es & Ht)|[Hc ->]].
  { exists []. rewrite app_nil_r. split_and!; simpl in *; auto with lia. apply expiry_clean. }
  set (x2 := mkRoundState _ _). simpl in x2.
  assert (Hfail : forall x' e, sent x' = sent x2 -> (tick x2 <= tick x')%nat ->
    (e = RoundExpiredCleanly -> resent = false) ->
    exists l, sent x' = sent x ++ l /\
      (tick x <= tick x')%nat /\ (e = RoundExpiredCleanly -> resent = false) /\
      (l = [] \/ exists k q, l = [(k, STimeouts q q)] /\ clock k < deadline /\
                             (tick x <= k < tick x')%nat)).
  { intros x' e Es Ht He. exists [(S (tick x), STimeouts q q)]. simpl in *.
    split_and!; try done; [lia|]. right. eexists _, _. split_and!; [done|done|lia|lia]. }
  destruct (answer _) as [rows|e]; [|by apply Hfail].
  unfold st_bind at 1, monotonicNow at 1.
  destruct (remaining <? 4 * (clock (tick x2) - setAt)) eqn:Eb; bool_to_prop.
  { apply Hfail; simpl; auto with lia. apply expiry_clean. }
  unfold throw_when at 1, st_ret at 1. unfold st_bind at 1 2.
  set (x3 := x2 <| tick ::= S |>).
  destruct (late_spec x3) as [[E1 E2]|(b & E & Hb)].
  { destruct (late x3) as [x4 r4]. simpl in *. subst. apply Hfail; simpl; auto with lia.
    apply expiry_clean. }
  rewrite E. destruct b. { apply Hfail; simpl; auto with lia. apply expiry_clean. }
  unfold throw_when at 1, st_ret at 1. unfold st_bind at 1 2.
  set (x4 := x3 <| tick ::= S |>).
  destruct (late_spec x4) as [[E1 E2]|(b & E' & Hb')].
  { destruct (late x4) as [x5 r5]. simpl in *. subst. apply Hfail; simpl; auto with lia.
    apply expiry_clean. }
  rewrite E'. destruct b. { apply Hfail; simpl; auto with lia. apply expiry_clean. }
  exists (S (tick x)), (tick x2), q. split_and!; simpl; try done; try lia.
  - unfold x2, remaining in *. simpl in *. lia.
  - by apply Hb'.
Qed.

Lemma fromHeartbeat_spec x :
  match fromHeartbeat x with
  | (x', Throw e) => e <> RoundExpiredCleanly /\ (tick x <= tick x')%nat /\
     (sent x' = sent x ++ [(pred (tick x), SHeartbeat)] \/
      sent x' = sent x ++ [(pred (tick x), SHeartbeat); (tick x, SCommit)] /\
      clock (tick x) < deadline /\ (tick x < tick x')%nat)
  | (x', Ret rows) =>
     sent x' = sent x ++ [(pred (tick x), SHeartbeat); (tick x, SCommit)] /\
     clock (tick x) < deadline /\ clock (S (tick x)) < deadline /\ tick x' = S (S (tick x)) /\
     answer (length (sent x)) = Ret rows /\ is_ret (answer (S (length (sent x)))) = true
  end.
Proof.
  unfold fromHeartbeat. unfold st_bind at 1, query at 1.
  destruct (answer (length (sent x))) as [rows|e] eqn:Ea; [|split_and!; simpl; auto; done].
  set (x1 := x <| sent ::= _ |>). unfold st_bind at 1.
  destruct (send_spec true SCommit x1) as [(x2 & -> & Es & Ht)|[Hc ->]].
  { split_and!; simpl in *; auto; done. }
  set (x2 := mkRoundState _ _).
  assert (Es : sent x2 = sent x ++ [(pred (tick x), SHeartbeat); (tick x, SCommit)]).
  { simpl. by rewrite <- app_assoc. }
  assert (El : length (sent x1) = S (length (sent x))).
  { simpl. rewrite length_app. simpl. lia. }
  rewrite El. destruct (answer (S _)) as [rows'|e] eqn:Ea'.
  2: { split_and!; [done|simpl; lia|]. right. simpl. auto with lia. }
  unfold st_bind at 1. destruct (late_spec x2) as [[E1 E2]|(b & E & Hb)].
  { destruct (late x2) as [x3 r3]. simpl in *. subst. split_and!; [done|simpl; lia|].
    right. simpl. auto with lia. }
  rewrite E. destruct b.
  { split_and!; [done|simpl; lia|]. right. simpl. auto with lia. }
  simpl in *. split_and!; auto.
Qed.

(** An attempt that fails inside the [try] block. *)
Lemma failed_attempt_ok resent x0 x l error :
  sent x = sent x0 ++ l -> (tick x0 <= tick x)%nat ->
  Forall (fun e => clock e.1 < deadline /\ (tick x0 <= e.1 < tick x)%nat) l ->
  (error = RoundExpiredCleanly -> resent = false /\ Forall (fun e => e.2 <> SHeartbeat) l) ->
  (forall kH, (kH, SHeartbeat) ∈ l ->
     exists k1 k2 q, (k1, STimeouts q q) ∈ l /\ (k1 < k2 < kH)%nat /\ 1 <= q /\
                     clock k2 + 3 * ms q <= deadline) ->
  (length (filter (fun e => e.2 = SBegin) l) <= 1)%nat ->
  match rollback error x with
  | (x', r) => exists l', sent x' = sent x0 ++ l' /\
      attempt_ok resent (tick x0) (tick x') (length (sent x0)) l' r
  end.
Proof.
  intros Es Ht Htime Hclean Hbudget Honce.
  destruct (rollback_spec error x) as (x' & lr & e & -> & Es' & Ht' & Hlr & He).
  exists (l ++ lr). rewrite Es', Es, app_assoc. split; [done|]. split; [lia|..].
  - apply Forall_app. split.
    + eapply Forall_impl; [exact Htime|]. simpl. intros ? [? ?]. split; [done|lia].
    + destruct Hlr as [->|(-> & ? & ?)]; [done|]. repeat constructor; simpl; [done|lia|lia].
  - done.
  - intros [= ->]. destruct (He eq_refl) as (-> & -> & Ha & k3 & Hk & Hk3).
    destruct (Hclean eq_refl) as [Hres Hno]. split_and!; [done|..].
    + apply Forall_app. split; [done|]. by repeat constructor.
    + right. exists l, (tick x), k3. split_and!; try done; try lia.
      by rewrite Es, length_app in Ha.
  - intros kH [HkH|HkH]%elem_of_app.
    + destruct (Hbudget _ HkH) as (k1 & k2 & q & ? & ?). exists k1, k2, q.
      split; [|done]. apply elem_of_app. by left.
    + destruct Hlr as [->|(-> & _)]; [by apply elem_of_nil in HkH|].
      apply list_elem_of_singleton in HkH. by simplify_eq.
  - rewrite filter_app, length_app. destruct Hlr as [->|(-> & _)]; simpl; lia.
Qed.

(** An attempt that fails before the [try] block sends [BEGIN] at most. *)
Lemma unbegun_ok resent x x' l e :
  sent x' = sent x ++ l -> (tick x <= tick x')%nat ->
  (l = [] \/ l = [(pred (tick x'), SBegin)] /\ clock (pred (tick x')) < deadline /\
             (tick x < tick x')%nat /\ e <> RoundExpiredCleanly) ->
  (e = RoundExpiredCleanly -> resent = false) ->
  exists l', sent x' = sent x ++ l' /\
    attempt_ok resent (tick x) (tick x') (length (sent x)) l' (Throw e).
Proof.
  intros Es Ht Hl He. exists l. split; [done|]. split; try done.
  - destruct Hl as [->|(-> & ? & ? & ?)]; [done|]. repeat constructor; simpl; [done|lia|lia].
  - intros [= ->]. split; [auto|]. destruct Hl as [->|(_ & _ & _ & ?)]; [|done]. by auto.
  - intros kH. destruct Hl as [->|(-> & _)]; [by intros ?%elem_of_nil|].
    intros ?%list_elem_of_singleton. by simplify_eq.
  - destruct Hl as [->|(-> & _)]; simpl; lia.
Qed.

(** From the heartbeat statement on: [k1] admitted the settings and [k2] was
    read after them. *)
Lemma heartbeat_ok resent x x3 k1 k2 q :
  sent x3 = sent x ++ [(S (tick x), SBegin); (k1, STimeouts q q)] ->
  (S (S (tick x)) <= k1 < k2)%nat -> (k2 < pred (tick x3))%nat -> 1 <= q ->
  clock k2 + 3 * ms q <= deadline -> clock (S (tick x)) < deadline -> clock k1 < deadline ->
  clock (pred (tick x3)) < deadline ->
  match (match fromHeartbeat x3 with
         | (s, Ret a) => (s, Ret a)
         | (s, Throw e) => rollback e s
         end) with
  | (x', r) => exists l, sent x' = sent x ++ l /\
      attempt_ok resent (tick x) (tick x') (length (sent x)) l r
  end.
Proof.
  intros Es3 Hk1 Hk2 Hq Hfit Hc Hc1 Hc3.
  set (l3 := [(S (tick x), SBegin); (k1, STimeouts q q)]) in *.
  assert (Hl3 : length (sent x3) = (length (sent x) + 2)%nat) by (rewrite Es3, length_app; done).
  assert (Hbudget : forall l kH, (kH, SHeartbeat) ∈ l3 ++ (pred (tick x3), SHeartbeat) :: l ->
            Forall (fun e => e.2 <> SHeartbeat) l ->
            exists k1 k2 q, (k1, STimeouts q q) ∈ l3 ++ (pred (tick x3), SHeartbeat) :: l /\
              (k1 < k2 < kH)%nat /\ 1 <= q /\ clock k2 + 3 * ms q <= deadline).
  { intros l kH Hin Hno. exists k1, k2, q. assert (kH = pred (tick x3)) as ->.
    { rewrite Forall_forall in Hno. unfold l3 in Hin. simpl in Hin.
      repeat (apply elem_of_cons in Hin as [?|Hin]; [by simplify_eq|]). by apply Hno in Hin. }
    split_and!; auto with lia. unfold l3. simpl. right. left. }
  assert (Htime3 : forall t, (tick x3 <= t)%nat ->
            Forall (fun e => clock e.1 < deadline /\ (tick x <= e.1 < t)%nat)
              (l3 ++ [(pred (tick x3), SHeartbeat)])).
  { intros t Ht. repeat constructor; simpl; auto with lia. }
  pose proof (fromHeartbeat_spec x3) as Hfrom.
  destruct (fromHeartbeat x3) as [x4 [rows'|e]].
  - destruct Hfrom as (Es4 & Hc4 & Hc5 & Ht4 & Ha & Ha').
    exists (l3 ++ [(pred (tick x3), SHeartbeat); (tick x3, SCommit)]).
    rewrite Es4, Es3, <- app_assoc. split; [done|]. rewrite Hl3 in Ha, Ha'. split; try done.
    + lia.
    + change [(pred (tick x3), SHeartbeat); (tick x3, SCommit)]
        with ([(pred (tick x3), SHeartbeat)] ++ [(tick x3, SCommit)]).
      rewrite app_assoc. apply Forall_app. split; [apply Htime3; lia|].
      repeat constructor; simpl; auto with lia.
    + intros rs [= <-]. eexists _, _, _, _, _, (S (tick x3)). split_and!; try done; try lia.
      by rewrite <- plus_n_Sm.
    + intros kH Hin. apply Hbudget; [done|]. by repeat constructor.
  - destruct Hfrom as (He & Ht4 & Hs4).
    assert (Hrest : exists l, sent x4 = sent x ++ l3 ++ (pred (tick x3), SHeartbeat) :: l /\
              Forall (fun e => clock e.1 < deadline /\ (tick x <= e.1 < tick x4)%nat) l /\
              Forall (fun e => e.2 <> SHeartbeat) l /\
              (length (filter (fun e : nat * statement => e.2 = SBegin) l) = 0)%nat).
    { destruct Hs4 as [Es4|(Es4 & ? & ?)]; rewrite Es4, Es3, <- app_assoc.
      - by exists [].
      - exists [(tick x3, SCommit)]. split_and!; try done; repeat constructor; simpl; auto with lia. }
    destruct Hrest as (l & Es4 & Htime & Hno & Hnone).
    apply (failed_attempt_ok _ _ _ (l3 ++ (pred (tick x3), SHeartbeat) :: l)).
    + done.
    + lia.
    + change ((pred (tick x3), SHeartbeat) :: l) with ([(pred (tick x3), SHeartbeat)] ++ l).
      rewrite app_assoc. apply Forall_app. split; [by apply Htime3|done].
    + by intros ->.
    + intros kH Hin. by apply Hbudget.
    + rewrite filter_app, length_app. simpl. rewrite filter_cons_False by done. lia.
Qed.

Lemma transactOnce_ok resent x :
  match transactOnce resent x with
  | (x', r) => exists l, sent x' = sent x ++ l /\
      attempt_ok resent (tick x) (tick x') (length (sent x)) l r
  end.
Proof.
  unfold transactOnce. unfold st_bind at 1, isEnded at 1.
  destruct (ended (tick x)).
  { apply (unbegun_ok _ _ _ []); rewrite ?app_nil_r; auto using expiry_clean. }
  unfold st_bind at 1 2, monotonicNow at 1. unfold throw_when at 1.
  set (x1 := x <| tick ::= S |>).
  destruct (deadline - _ <? _).
  { apply (unbegun_ok _ _ _ []); rewrite ?app_nil_r; simpl; auto using expiry_clean. }
  unfold st_ret at 1, st_bind at 1.
  destruct (send_spec resent SBegin x1) as [(x2 & -> & Es & Ht)|[Hc ->]].
  { apply (unbegun_ok _ _ _ []); rewrite ?app_nil_r; simpl in *; auto using expiry_clean with lia. }
  set (x2 := mkRoundState _ _). destruct (answer (length (sent x1))) as [rows|e].
  2: { apply (unbegun_ok _ _ _ [(S (tick x), SBegin)]); simpl; auto with lia. done. }
  assert (Ht2 : tick x2 = S (S (tick x)) /\ sent x2 = sent x ++ [(S (tick x), SBegin)]) by done.
  simpl in Hc. clearbody x2. destruct Ht2 as [Ht2 Es2].
  unfold st_catch, st_bind. pose proof (beforeHeartbeat_spec resent x2) as Hbefore.
  destruct (beforeHeartbeat resent x2) as [x3 [[]|e]].
  2: { destruct Hbefore as (l & Es3 & Ht3 & He & Hl).
       apply (failed_attempt_ok _ _ _ ((S (tick x), SBegin) :: l)).
       - by rewrite Es3, Es2, <- app_assoc.
       - lia.
       - constructor; [split; [done|simpl; lia]|]. destruct Hl as [->|(k & q & -> & ? & ?)]; [done|].
         repeat constructor; simpl; [done|lia|lia].
       - intros ->. split; [auto|]. destruct Hl as [->|(k & q & -> & _)]; by repeat constructor.
       - intros kH. destruct Hl as [->|(k & q & -> & _)]; set_solver.
       - destruct Hl as [->|(k & q & -> & _)]; simpl; lia. }
  destruct Hbefore as (k1 & k2 & q & Es3 & Hk1 & Hk2 & Hq & Hfit & Hc1 & Hc3).
  rewrite Es2, <- app_assoc in Es3. simpl in Es3.
  apply (heartbeat_ok resent x x3 k1 k2 q); auto with lia.
Qed.
End transaction.

(** ** [queryFencedWrite] *)
Section fenced_write.
Context {R : Type}.
Variable answers : nat -> res query_error R.

Definition has_code (code : string) (e : query_error) : bool := bool_decide (qe_code e = Some code).

(** The loop after [n] statements, with [fuel] resends left: how many
    statements were sent in the end, and the result. *)
Fixpoint fencedLoop (fuel n : nat) (deadlock : option query_error) : nat * res query_error R :=
  match answers n with
  | Ret r => (S n, Ret r)
  | Throw error =>
      match deadlock with
      | Some d => if has_code "25P02" error then (S n, Throw d)
                  else match fuel with
                       | S fuel => if has_code "40P01" error then fencedLoop fuel (S n) (Some error)
                                   else (S n, Throw error)
                       | O => (S n, Throw error)
                       end
      | None => match fuel with
                | S fuel => if has_code "40P01" error then fencedLoop fuel (S n) (Some error)
                            else (S n, Throw error)
                | O => (S n, Throw error)
                end
      end
  end.

Definition queryFencedWrite : nat * res query_error R :=
  fencedLoop (pred FENCED_WRITE_DEADLOCK_ATTEMPTS) 0 None.
End fenced_write.

(** ** The whole transaction *)
Section resending.
Context {Rows : Type}.
Variable clock : nat -> Z.
Variable ended : nat -> bool.
Variable answer : nat -> res query_error Rows.
Variable deadline : Z.
Local Abbreviation begins l := (length (filter (fun e : nat * statement => e.2 = SBegin) l)).

Record transaction_ok (resent : bool) (attempts t1 n0 : nat) (l : list (nat * statement))
    (r : res round_error Rows) : Prop := {
  tx_in_time : Forall (fun e => clock e.1 < deadline) l;
  tx_attempts : (begins l <= attempts)%nat;
  tx_budget : forall kH, (kH, SHeartbeat) ∈ l ->
    exists k1 k2 q, (k1, STimeouts q q) ∈ l /\ (k1 < k2 < kH)%nat /\ 1 <= q /\
                    clock k2 + 3 * ms q <= deadline;
  tx_rows : forall rows, r = Ret rows ->
    exists l0 k1 s1 k2 kH kC k3,
      l = l0 ++ [(k1, SBegin); (k2, s1); (kH, SHeartbeat); (kC, SCommit)] /\
      answer (n0 + length l0 + 2) = Ret rows /\ is_ret (answer (n0 + length l0 + 3)) = true /\
      (kC < k3 < t1)%nat /\ clock k3 < deadline;
  tx_clean : r = Throw RoundExpiredCleanly ->
    resent = false /\ Forall (fun e => e.2 <> SHeartbeat) l /\
    (l = [] \/ exists l' k k3, l = l' ++ [(k, SRollback)] /\
                 is_ret (answer (n0 + length l')) = true /\ (k < k3 < t1)%nat /\ clock k3 < deadline);
}.

Lemma attempt_transaction resent t0 t1 n0 l r :
  attempt_ok clock answer deadline resent t0 t1 n0 l r -> transaction_ok resent 1 t1 n0 l r.
Proof.
  intros [? Htime Hrows Hclean Hbudget Honce]. split; try done.
  - eapply Forall_impl; [exact Htime|]. naive_solver.
  - intros rows Hr. destruct (Hrows rows Hr) as (k1 & s1 & k2 & kH & kC & k3 & -> & ?).
    exists [], k1, s1, k2, kH, kC, k3. by rewrite Nat.add_0_r.
Qed.

(** An attempt that a deadlock aborted, and the attempts after it. *)
Lemma transaction_resent resent n e t1 n0 l1 l2 r t2 :
  transaction_ok resent 1 t1 n0 l1 (Throw e) ->
  transaction_ok true n t2 (n0 + length l1) l2 r ->
  transaction_ok resent (S n) t2 n0 (l1 ++ l2) r.
Proof.
  intros [Ht1 Hn1 Hb1 _ _] [Ht2 Hn2 Hb2 Hr2 Hc2]. split.
  - by apply Forall_app.
  - rewrite filter_app, length_app. lia.
  - intros kH [Hin|Hin]%elem_of_app; [destruct (Hb1 _ Hin) as (k1 & k2 & q & ? & ?)
                                     |destruct (Hb2 _ Hin) as (k1 & k2 & q & ? & ?)];
      exists k1, k2, q; (split; [apply elem_of_app; auto|done]).
  - intros rows Hr. destruct (Hr2 rows Hr) as (l0 & k1 & s1 & k2 & kH & kC & k3 & -> & Ha & Ha' & ?).
    exists (l1 ++ l0), k1, s1, k2, kH, kC, k3. rewrite <- app_assoc, length_app.
    rewrite !Nat.add_assoc in *. done.
  - intros Hr. by destruct (Hc2 Hr).
Qed.

Lemma resend_ok fuel : forall resent x,
  match resend clock ended answer deadline fuel resent x with
  | (x', r) => exists l, sent x' = sent x ++ l /\
      transaction_ok resent (S fuel) (tick x') (length (sent x)) l r
  end.
Proof.
  induction fuel as [|fuel IH]; intros resent x; simpl; unfold st_catch;
    pose proof (transactOnce_ok clock ended answer deadline resent x) as H;
    destruct (transactOnce _ _ _ _ _ _) as [x1 [rows|e]];
    destruct H as (l & Es & H%attempt_transaction).
  - by exists l.
  - by exists l.
  - exists l. split; [done|]. destruct H. by split; auto with lia.
  - case_bool_decide as Hcode.
    + specialize (IH true x1). destruct (resend _ _ _ _ _ _ _) as [x2 r2].
      destruct IH as (l2 & Es2 & H2). exists (l ++ l2). split; [by rewrite Es2, Es, app_assoc|].
      eapply transaction_resent; [exact H|]. by rewrite Es, length_app in H2.
    + exists l. split; [done|]. destruct H. by split; auto with lia.
Qed.

Lemma transact_ok :
  match transact clock ended answer deadline (mkRoundState 0 []) with
  | (x', r) => transaction_ok false FENCED_WRITE_DEADLOCK_ATTEMPTS (tick x') 0 (sent x') r
  end.
Proof.
  unfold transact, st_bind, isEnded. cbn [tick]. destruct (ended 0).
  { split; simpl; try done; [lia|]. by intros ? ?%elem_of_nil. }
  pose proof (resend_ok (pred FENCED_WRITE_DEADLOCK_ATTEMPTS) false (mkRoundState 0 [])) as H.
  destruct (resend _ _ _ _ _ _ _) as [x' r]. destruct H as (l & E & H). simpl in E. by rewrite E.
Qed.
End resending.

(** ** Properties *)

(** C33: A heartbeat transaction sends nothing at or after its deadline, starts
    at most three attempts, and reports a renewal only after its [COMMIT]
    returned before the deadline: the rows it returns are the answer of the
    heartbeat statement of the last attempt, whose [COMMIT] succeeded, and the
    clock still read less than the deadline afterwards. *)
Theorem renewal_within_deadline {Rows} clock ended (answer : nat -> res query_error Rows) deadline :
  let '(x, r) := transact clock ended answer deadline (mkRoundState 0 []) in
  Forall (fun e => clock e.1 < deadline) (sent x) /\
  (length (filter (fun e => e.2 = SBegin) (sent x)) <= 3)%nat /\
  forall rows, r = Ret rows ->
    exists l0 k1 s1 k2 kH kC k3,
      sent x = l0 ++ [(k1, SBegin); (k2, s1); (kH, SHeartbeat); (kC, SCommit)] /\
      answer (length l0 + 2)%nat = Ret rows /\ is_ret (answer (length l0 + 3)%nat) = true /\
      (kC < k3 < tick x)%nat /\ clock k3 < deadline.
Proof.
  pose proof (transact_ok clock ended answer deadline) as H.
  destruct (transact _ _ _ _ _) as [x r]. by destruct H.
Qed.

(** The server ends the transaction by the deadline.  Whenever a heartbeat
    statement leaves, the settings statement before it gave the statement and
    each idle gap a budget of [q] whole milliseconds, at least one, such that
    three budgets after a clock reading taken once the settings were in force
    still end by the deadline: the idle gap before the heartbeat, the heartbeat
    and the idle gap before [COMMIT]. *)
Theorem server_budgets_fit {Rows} clock ended (answer : nat -> res query_error Rows) deadline kH
    (Hsent : (kH, SHeartbeat) ∈ sent (transact clock ended answer deadline (mkRoundState 0 [])).1) :
  exists k1 k2 q,
    (k1, STimeouts q q) ∈ sent (transact clock ended answer deadline (mkRoundState 0 [])).1 /\
    (k1 < k2 < kH)%nat /\ 1 <= q /\ clock k2 + 3 * ms q <= deadline.
Proof.
  pose proof (transact_ok clock ended answer deadline) as H.
  destruct (transact _ _ _ _ _) as [x r]. by apply H.
Qed.

Definition steady_clock (k : nat) : Z := ms (Z.of_nat k).

Lemma server_budgets_fit_witness :
  let run := transact steady_clock (fun _ => false) (fun _ => Ret tt) (ms 1000)
               (mkRoundState 0 []) in
  exists k1 k2 q, (k1, STimeouts q q) ∈ sent run.1 /\ (k1 < k2 < 6)%nat /\ 1 <= q /\
    steady_clock k2 + 3 * ms q <= ms 1000.
Proof.
  apply (server_budgets_fit steady_clock (fun _ => false) (fun _ => Ret tt) (ms 1000) 6).
  vm_compute. right. right. left.
Defined.

(** A clean expiry is clean.  When the transaction reports that it expired
    cleanly, so that the connection is kept, it sent no heartbeat in any
    attempt, and either sent nothing or last sent a [ROLLBACK] that returned
    before the deadline. *)
Theorem clean_expiry_sent_no_heartbeat {Rows} clock ended (answer : nat -> res query_error Rows)
    deadline x
    (Hclean : transact clock ended answer deadline (mkRoundState 0 []) =
              (x, Throw RoundExpiredCleanly)) :
  Forall (fun e => e.2 <> SHeartbeat) (sent x) /\
  (sent x = [] \/
   exists l k k3, sent x = l ++ [(k, SRollback)] /\ is_ret (answer (length l)) = true /\
                  (k < k3 < tick x)%nat /\ clock k3 < deadline).
Proof.
  pose proof (transact_ok clock ended answer deadline) as H. rewrite Hclean in H.
  by destruct (tx_clean _ _ _ _ _ _ _ _ _ H eq_refl) as (_ & ? & ?).
Qed.

(** The settings statement takes more than its quarter. *)
Definition slow_settings_clock (k : nat) : Z := if (k <=? 3)%nat then 0 else ms 400.

Lemma clean_expiry_sent_no_heartbeat_witness :
  let x := (transact slow_settings_clock (fun _ => false) (fun _ => Ret tt) (ms 1000)
              (mkRoundState 0 [])).1 in
  Forall (fun e => e.2 <> SHeartbeat) (sent x) /\
  (sent x = [] \/
   exists l k k3, sent x = l ++ [(k, SRollback)] /\ is_ret (@Ret query_error _ tt) = true /\
                  (k < k3 < tick x)%nat /\ slow_settings_clock k3 < ms 1000).
Proof.
  apply (clean_expiry_sent_no_heartbeat slow_settings_clock (fun _ => false) (fun _ => Ret tt)
           (ms 1000)).
  vm_compute. reflexivity.
Defined.

(** C34: A fenced write is sent at most three times and again only after a
    deadlock.  Every answer before the last is a deadlock (40P01); a returned
    value is the last answer; a thrown error is the last answer, or the
    deadlock before it when the last answer only says that the deadlock doomed
    the caller's transaction (25P02). *)
Theorem fenced_write_resends_deadlocks_only {R} (answers : nat -> res query_error R) :
  let '(n, r) := queryFencedWrite answers in
  (1 <= n <= 3)%nat /\
  (forall i, (i < n - 1)%nat ->
     exists e, answers i = Throw e /\ qe_code e = Some "40P01") /\
  match r with
  | Ret v => answers (n - 1)%nat = Ret v
  | Throw e =>
      exists last, answers (n - 1)%nat = Throw last /\
        (e = last /\ (qe_code e = Some "40P01" -> n = 3%nat) /\
         (qe_code e = Some "25P02" -> n = 1%nat) \/
         qe_code last = Some "25P02" /\ (2 <= n)%nat /\ answers (n - 2)%nat = Throw e)
  end.
Proof.
  unfold queryFencedWrite. simpl. unfold has_code.
  destruct (answers 0%nat) as [v|e0] eqn:E0; [split_and!; [lia|lia|lia|done]|].
  assert (Hi0 : forall i, (i < 0)%nat -> exists e, answers i = Throw e /\ qe_code e = Some "40P01")
    by lia.
  case_bool_decide as C0.
  2: { split_and!; [lia|lia|lia|]. exists e0. naive_solver. }
  assert (Hi1 : forall i, (i < 1)%nat -> exists e, answers i = Throw e /\ qe_code e = Some "40P01").
  { intros [|i] Hi; [eauto|lia]. }
  destruct (answers 1%nat) as [v|e1] eqn:E1; [by split_and!; [lia|lia|..]|].
  case_bool_decide as D1; [split_and!; [lia|lia|done|exists e1; naive_solver lia]|].
  case_bool_decide as C1.
  2: { split_and!; [lia|lia|done|]. exists e1. naive_solver. }
  assert (Hi2 : forall i, (i < 2)%nat -> exists e, answers i = Throw e /\ qe_code e = Some "40P01").
  { intros [|[|i]] Hi; [eauto|eauto|lia]. }
  destruct (answers 2%nat) as [v|e2] eqn:E2; [by split_and!; [lia|lia|..]|].
  case_bool_decide as D2; (split_and!; [lia|lia|done|exists e2]); naive_solver lia.
Qed.
