(* ===== verification/ReservedConnection.v ===== *)
(** * The reserved heartbeat connection

    Model of the class [ReservedConnection] of
    [typescript/core/src/heartbeat-connection.ts]: rounds that wait for, lead
    or join a transaction, the connection they run on, its replacement after a
    loss, the readiness waits, and close and reopen.

    A connect is named by a number, which also names its promise and its
    client.  Each method is a function on the state; a callback of the event
    loop (a timer, a settled promise) is an event.  What [transact] does on the
    client between two events is the subject of [RenewalRound]; here it reaches
    its join any number of times and then ends with rows or an error.  A
    release that waits for a settled promise is taken at once. *)

From S2P Require Import Prelude Types Heartbeat RenewalRound.

Definition REPLACEMENT_RETRY_BASE_MS : Z := 100.

(** One lease batch of a round; the connection does not look inside. *)
Abbreviation batch := nat.

(** [HeartbeatPoolRow] *)
Record row : Type := mkRow {
  row_batch : Z;
  row_task_id : string;
  row_status : HB.HeartbeatBatchStatus;
}.

Inductive request_error : Set :=
| ReservationClosed | BuildFailed | RoundTimeout | TransactionFailed (clean : bool).

(** [RenewalRequest]: [settled] holds what the promise settled with. *)
Record RenewalRequest : Type := mkRequest {
  rq_batches : list batch;
  rq_deadline : Z;
  rq_result : option (res request_error (list row));
}.
#[export] Instance eta_RenewalRequest : Eta RenewalRequest := fun r =>
  mkRequest (rq_batches r) (rq_deadline r) (rq_result r).

(** [RenewalTransaction] *)
Record RenewalTransaction : Type := mkTransaction {
  tx_leader : nat;
  tx_members : list nat;
  tx_pending : option nat;       (* None: [acquire] rejected *)
  tx_lent : bool;
  tx_ended : bool;
}.
#[export] Instance eta_RenewalTransaction : Eta RenewalTransaction := fun t =>
  mkTransaction (tx_leader t) (tx_members t) (tx_pending t) (tx_lent t) (tx_ended t).

Inductive connect_state : Set := Connecting | Arrived | ConnectFailed.
#[export] Instance connect_state_eq_dec : EqDecision connect_state.
Proof. solve_decision. Defined.

Record Reserved : Type := mkReserved {
  client : option nat;
  connected : option nat;
  lost : bool;
  readyWaits : jsmap nat (option bool);     (* every [ready()] promise, pending while None *)
  retryTimer : option Z;
  retryAttempt : nat;
  waiting : list nat;
  transaction : option nat;
  closed : bool;
  (* the objects *)
  requests : gmap nat RenewalRequest;
  transactions : list RenewalTransaction;
  connects : list connect_state;
  closes : list (list nat);       (* close() calls that wait, with the rounds they wait for *)
  parked : list nat;              (* connects that a close() waits for *)
  released : list (nat * bool);   (* releases: the client, and whether it was destroyed *)
}.
#[export] Instance eta_Reserved : Eta Reserved := fun c =>
  mkReserved (client c) (connected c) (lost c) (readyWaits c) (retryTimer c) (retryAttempt c)
    (waiting c) (transaction c) (closed c) (requests c) (transactions c) (connects c) (closes c)
    (parked c) (released c).

Section reserved.
(** [retryCapMs]: readiness keeping, with the cap of the backoff. *)
Variable retryCapMs : option Z.
Implicit Types c : Reserved.

Definition newReserved : Reserved :=
  mkReserved None None true [] None 0 [] None false ∅ [] [] [] [] [].

(** ** Readiness *)

Definition usable c : bool :=
  negb (closed c) && bool_decide (client c <> None)
  && (bool_decide (connected c <> None) || negb (lost c)).

(** [finish] of each pending wait. *)
Definition finishWaits (value : bool) c : Reserved :=
  c <| readyWaits ::= map (fun e => (e.1, match e.2 with None => Some value | v => v end)) |>.

Definition becameReady c : Reserved :=
  let recovered := lost c in
  let c := c <| lost := false |> in
  if recovered && usable c then finishWaits true c else c.

(** ** The connect *)

Definition scheduleRetry (now : Z) c : Reserved :=
  match retryCapMs with
  | None => c
  | Some capMs =>
      if closed c || bool_decide (retryTimer c <> None) then c
      else
        let delayMs := Z.min capMs (REPLACEMENT_RETRY_BASE_MS * 2 ^ Z.of_nat (retryAttempt c)) in
        c <| retryAttempt := Nat.min (S (retryAttempt c)) 30 |>
          <| retryTimer := Some (now + ms delayMs) |>
  end.

(** [acquire]: the connect of the reservation, or None when it is closed. *)
Definition acquire c : Reserved * option nat :=
  if closed c then (c, None)
  else match client c with
       | Some id => (c, Some id)
       | None =>
           let id := length (connects c) in
           (c <| retryTimer := None |> <| connects ::= fun l => l ++ [Connecting] |>
              <| client := Some id |>, Some id)
       end.

Definition reserve c : Reserved := if closed c then c else (acquire c).1.

Definition releaseClient (id : nat) (destroyed : bool) c : Reserved :=
  c <| released ::= fun l => l ++ [(id, destroyed)] |>.

(** [discard]: only an arrived client is discarded. *)
Definition discard (pending : nat) (isLost : bool) c : Reserved :=
  if negb (bool_decide (client c = Some pending)) then c
  else
    let c := releaseClient pending true (c <| client := None |> <| connected := None |>) in
    if negb isLost then c
    else
      let c := c <| lost := true |> in
      match retryCapMs with Some _ => reserve c | None => c end.

(** ** Rounds *)

Definition request_of c (id : nat) : RenewalRequest :=
  default (mkRequest [] 0 None) (requests c !! id).
Definition isSettled c (id : nat) : bool := bool_decide (rq_result (request_of c id) <> None).

(** [request.resolve] and [request.reject]: the first result stays. *)
Definition settle (id : nat) (result : res request_error (list row)) c : Reserved :=
  if isSettled c id then c
  else c <| requests ::= alter (fun r => r <| rq_result := Some result |>) id |>.

(** The waiting rounds that are not settled, and the leader among them: the
    loop runs from the last to the first and prefers the earlier one of two
    equal deadlines. *)
Definition earlier c (best : option nat) (id : nat) : option nat :=
  match best with
  | None => Some id
  | Some b => if rq_deadline (request_of c id) <=? rq_deadline (request_of c b)
              then Some id else best
  end.
Definition chooseLeader c (ids : list nat) : option nat := foldl (earlier c) None (reverse ids).

(** [startNext], up to the first await of [transact]. *)
Definition startNext c : Reserved :=
  match transaction c with
  | Some _ => c
  | None =>
      let live := filter (fun id => isSettled c id = false) (waiting c) in
      let c := c <| waiting := live |> in
      match chooseLeader c live with
      | None => c
      | Some leader =>
          let c := c <| waiting ::= remove_first (fun id => bool_decide (id = leader)) |> in
          let '(c, pending) := acquire c in
          let t := length (transactions c) in
          c <| transactions ::= fun l => l ++ [mkTransaction leader [leader] pending false false] |>
            <| transaction := Some t |>
      end
  end.

(** [join] *)
Definition joins c (leader id : nat) : bool :=
  negb (isSettled c id)
  && (rq_deadline (request_of c leader) <=? rq_deadline (request_of c id)).
Definition join (t : nat) c : Reserved :=
  match transactions c !! t with
  | None => c
  | Some tx =>
      let joining := filter (fun id => joins c (tx_leader tx) id = true) (waiting c) in
      c <| waiting := filter (fun id => joins c (tx_leader tx) id = false) (waiting c) |>
        <| transactions ::= <[t := tx <| tx_members ::= fun m => m ++ joining |>]> |>
  end.

(** The rows of one member: the batches after the first [first] ones. *)
Definition memberRows (first count : Z) (rows : list row) : list row :=
  map (fun r => mkRow (row_batch r - first) (row_task_id r) (row_status r))
    (filter (fun r => first < row_batch r /\ row_batch r <= first + count) rows).

(** The loop over the members, with the running offset. *)
Fixpoint resolveMembers (offset : Z) (members : list nat) (rows : list row) c : Reserved :=
  match members with
  | [] => c
  | m :: members =>
      let count := Z.of_nat (length (rq_batches (request_of c m))) in
      resolveMembers (offset + count) members rows (settle m (Ret (memberRows offset count rows)) c)
  end.

Definition endTransaction (t : nat) (outcome : res request_error (list row)) c : Reserved :=
  match transactions c !! t with
  | None => c
  | Some tx =>
      if tx_ended tx then c
      else
        let c := c <| transactions ::= <[t := tx <| tx_ended := true |>]> |> in
        let c := if bool_decide (transaction c = Some t) then c <| transaction := None |> else c in
        let c :=
          match outcome with
          | Ret rows => resolveMembers 0 (tx_members tx) rows c
          | Throw error =>
              let c := match tx_pending tx, error with
                       | Some pending, TransactionFailed true => c
                       | Some pending, _ => if tx_lent tx then discard pending false c else c
                       | None, _ => c
                       end in
              reserve (foldl (fun c m => settle m (Throw error) c) c (tx_members tx))
          end in
        startNext c
  end.

(** [renew] and [request]; [build] is None when it throws. *)
Definition renew (now : Z) (id : nat) (timeoutMs : Z) (build : option (list batch)) c : Reserved :=
  let add r c := c <| requests ::= <[id := r]> |> in
  let deadline := now + ms timeoutMs in
  if closed c then add (mkRequest [] deadline (Some (Throw ReservationClosed))) c
  else match build with
       | None => add (mkRequest [] deadline (Some (Throw BuildFailed))) c
       | Some batches =>
           startNext ((add (mkRequest batches deadline None) c) <| waiting ::= fun l => l ++ [id] |>)
       end.

Definition timedOut (id : nat) c : Reserved :=
  if isSettled c id then c
  else
    let leads := match transaction c with
                 | Some t => match transactions c !! t with
                             | Some tx => bool_decide (tx_leader tx = id)
                             | None => false
                             end
                 | None => false
                 end in
    match transaction c, leads with
    | Some t, true => endTransaction t (Throw RoundTimeout) c
    | _, _ => settle id (Throw RoundTimeout)
                (c <| waiting ::= remove_first (fun x => bool_decide (x = id)) |>)
    end.

(** ** Settled connects *)

(** [adopt], then the continuation of a parked close. *)
Definition connectArrives (id : nat) c : Reserved :=
  let c := c <| connects ::= <[id := Arrived]> |> in
  let c := if bool_decide (client c = Some id) then
             let c := c <| connected := Some id |> <| retryAttempt := O |> in
             if closed c then c else becameReady c
           else c in
  if bool_decide (id ∈ parked c) && closed c && bool_decide (client c = Some id) then
    releaseClient id false (c <| client := None |> <| connected := None |> <| lost := true |>)
  else c.

Definition connectFails (now : Z) (id : nat) c : Reserved :=
  let c := c <| connects ::= <[id := ConnectFailed]> |> in
  if bool_decide (client c = Some id) then
    scheduleRetry now (c <| client := None |> <| connected := None |> <| lost := true |>)
  else c.

(** [transact] resumes with its client. *)
Definition transactResumes (t : nat) c : Reserved :=
  match transactions c !! t with
  | Some tx =>
      match tx_pending tx with
      | Some id =>
          if bool_decide (connects c !! id = Some Arrived) && negb (tx_ended tx)
          then c <| transactions ::= <[t := tx <| tx_lent := true |>]> |>
          else c
      | None => c
      end
  | None => c
  end.

(** ** [ready], [close] and [reopen] *)

Definition ready (wait : nat) (aborted : bool) c : Reserved :=
  if usable c then c <| readyWaits ::= jsset wait (Some true) |>
  else if closed c || aborted then c <| readyWaits ::= jsset wait (Some false) |>
  else
    let c := match client c with None => reserve c | Some _ => c end in
    c <| readyWaits ::= jsset wait None |>.

Definition finishWait (wait : nat) (value : bool) c : Reserved :=
  match jsget wait (readyWaits c) with
  | Some None => c <| readyWaits ::= jsset wait (Some value) |>
  | _ => c
  end.

Definition unsettledRounds c : list nat :=
  filter (fun id => isSettled c id = false) (map_to_list (requests c)).*1.

Definition close c : Reserved :=
  let c := finishWaits false (c <| closed := true |> <| retryTimer := None |>) in
  c <| closes ::= fun l => l ++ [unsettledRounds c] |>.

(** [close] once every round it waits for settled. *)
Definition closeResumes (i : nat) c : Reserved :=
  match closes c !! i with
  | None => c
  | Some rounds =>
      if negb (forallb (isSettled c) rounds) then c
      else
        let c := c <| closes ::= delete i |> in
        if negb (closed c) then c
        else match client c with
             | None => c
             | Some pending =>
                 if bool_decide (connected c <> None) then
                   releaseClient pending false
                     (c <| client := None |> <| connected := None |> <| lost := true |>)
                 else c <| parked ::= fun l => l ++ [pending] |>
             end
  end.

Definition reopen c : Reserved :=
  let c := c <| closed := false |> in
  if bool_decide (connected c <> None) then becameReady c else c.

Definition retryTimerFires c : Reserved :=
  match retryTimer c with
  | None => c
  | Some _ =>
      let c := c <| retryTimer := None |> in
      match client c with None => reserve c | Some _ => c end
  end.

(** ** Events *)
Inductive rc_event : Type :=
| Reserve
| Renew (id : nat) (timeoutMs : Z) (build : option (list batch))
| RequestTimerFires (id : nat)
| ConnectArrives (id : nat)
| ConnectFails (id : nat)
| TransactResumes (t : nat)
| TransactJoins (t : nat)
| TransactEnds (t : nat) (outcome : res request_error (list row))
| ClientError (id : nat)          (* an error event outside a round *)
| RetryTimerFires
| Ready (wait : nat) (aborted : bool)
| ReadyTimerFires (wait : nat)
| ReadyAborted (wait : nat)
| Close
| CloseResumes (i : nat)
| Reopen.

(** A promise settles once; [transact] ends with rows, and joins, only on a
    client it was lent; object names are fresh. *)
Definition rc_step c (te : Z * rc_event) : Reserved :=
  let now := te.1 in
  match te.2 with
  | Reserve => reserve c
  | Renew id timeoutMs build =>
      if bool_decide (requests c !! id = None) then renew now id timeoutMs build c else c
  | RequestTimerFires id => timedOut id c
  | ConnectArrives id =>
      if bool_decide (connects c !! id = Some Connecting) then connectArrives id c else c
  | ConnectFails id =>
      if bool_decide (connects c !! id = Some Connecting) then connectFails now id c else c
  | TransactResumes t => transactResumes t c
  | TransactJoins t =>
      match transactions c !! t with
      | Some tx => if tx_lent tx && negb (tx_ended tx) then join t c else c
      | None => c
      end
  | TransactEnds t outcome =>
      match transactions c !! t with
      | Some tx => if is_ret outcome && negb (tx_lent tx) then c else endTransaction t outcome c
      | None => c
      end
  | ClientError id =>
      if bool_decide (connects c !! id = Some Arrived) then discard id true c else c
  | RetryTimerFires => retryTimerFires c
  | Ready wait aborted => if jshas wait (readyWaits c) then c else ready wait aborted c
  | ReadyTimerFires wait => finishWait wait (usable c) c
  | ReadyAborted wait => finishWait wait false c
  | Close => close c
  | CloseResumes i => closeResumes i c
  | Reopen => reopen c
  end.

Definition rc_run : Reserved -> list (Z * rc_event) -> Reserved := run rc_step.
End reserved.

(** ** Settling rounds *)

(** Only requests change, and only by settling: [settles c c' ids] settles
    every request of [ids] and leaves the others alone. *)
Record settles_only (c c' : Reserved) (ids : list nat) : Prop := {
  so_requests : c' = c <| requests := requests c' |>;
  so_dom : forall id, requests c' !! id = None <-> requests c !! id = None;
  so_deadline : forall id, rq_deadline (request_of c' id) = rq_deadline (request_of c id);
  so_batches : forall id, rq_batches (request_of c' id) = rq_batches (request_of c id);
  so_settled : forall id, isSettled c id = true -> request_of c' id = request_of c id;
  so_other : forall id, id ∉ ids -> request_of c' id = request_of c id;
  so_done : forall id, id ∈ ids -> requests c !! id <> None -> isSettled c' id = true;
}.

Lemma isSettled_same c c' id : request_of c' id = request_of c id -> isSettled c' id = isSettled c id.
Proof. unfold isSettled. by intros ->. Qed.

Lemma settle_settles id result c : settles_only c (settle id result c) [id].
Proof.
  unfold settle. destruct (isSettled c id) eqn:E.
  { split; try done; [by destruct c|]. intros ? ->%list_elem_of_singleton. done. }
  assert (Hne : forall id', id' <> id ->
            request_of (c <| requests ::= alter (fun r => r <| rq_result := Some result |>) id |>) id'
            = request_of c id').
  { intros id' Hne. unfold request_of. simpl. by rewrite lookup_alter_ne. }
  split; try done.
  - intros id'. simpl. destruct (decide (id' = id)) as [->|Hid].
    + rewrite lookup_alter_eq. by destruct (requests c !! id).
    + by rewrite lookup_alter_ne.
  - intros id'. destruct (decide (id' = id)) as [->|Hid]; [|by rewrite Hne].
    unfold request_of. simpl. rewrite lookup_alter_eq. by destruct (requests c !! id).
  - intros id'. destruct (decide (id' = id)) as [->|Hid]; [|by rewrite Hne].
    unfold request_of. simpl. rewrite lookup_alter_eq. by destruct (requests c !! id).
  - intros id' Hs. apply Hne. intros ->. congruence.
  - intros id' Hid. apply Hne. set_solver.
  - intros id' ->%list_elem_of_singleton Hin. unfold isSettled, request_of. simpl.
    rewrite lookup_alter_eq. by destruct (requests c !! id).
Qed.

Lemma settles_refl c : settles_only c c [].
Proof. split; try done; [by destruct c|]. by intros ? ?%elem_of_nil. Qed.

Lemma settles_trans c1 c2 c3 ids1 ids2 :
  settles_only c1 c2 ids1 -> settles_only c2 c3 ids2 -> settles_only c1 c3 (ids1 ++ ids2).
Proof.
  intros [R1 D1 L1 B1 S1 O1 F1] [R2 D2 L2 B2 S2 O2 F2]. split.
  - rewrite R2, R1. done.
  - intros id. by rewrite D2.
  - intros id. by rewrite L2.
  - intros id. by rewrite B2.
  - intros id Hs. rewrite S2; [by apply S1|]. by rewrite (isSettled_same c1 c2) by auto.
  - intros id [? ?]%not_elem_of_app. rewrite O2 by done. by apply O1.
  - intros id [Hin|Hin]%elem_of_app Hdom.
    + specialize (F1 id Hin Hdom). by rewrite (isSettled_same c2 c3) by auto.
    + apply F2; [done|]. by rewrite D1.
Qed.

Lemma settles_fold result members : forall c,
  settles_only c (foldl (fun c m => settle m result c) c members) members.
Proof.
  induction members as [|m members IH]; intros c; simpl; [apply settles_refl|].
  apply (settles_trans _ (settle m result c) _ [m] members); [apply settle_settles|apply IH].
Qed.

Lemma settles_resolve members : forall rows offset c,
  settles_only c (resolveMembers offset members rows c) members.
Proof.
  induction members as [|m members IH]; intros rows offset c; simpl; [apply settles_refl|].
  eapply (settles_trans _ _ _ [m] members); [apply settle_settles|apply IH].
Qed.

(** ** Choosing the leader *)
Lemma earliest_spec c l :
  match foldl (earlier c) None l with
  | Some leader => leader ∈ l /\
      forall id, id ∈ l -> rq_deadline (request_of c leader) <= rq_deadline (request_of c id)
  | None => l = []
  end.
Proof.
  induction l as [|x l IH] using rev_ind; [done|].
  rewrite foldl_app. simpl. destruct (foldl _ _ l) as [b|]; simpl in *.
  - destruct IH as [Hb Hmin]. destruct (_ <=? _) eqn:E; bool_to_prop; (split; [set_solver|]);
      intros id [Hid| ->%list_elem_of_singleton]%elem_of_app; auto with lia.
    specialize (Hmin id Hid). lia.
  - subst. split; [set_solver|]. by intros id ->%list_elem_of_singleton.
Qed.

Lemma chooseLeader_spec c ids :
  match chooseLeader c ids with
  | Some leader => leader ∈ ids /\
      forall id, id ∈ ids -> rq_deadline (request_of c leader) <= rq_deadline (request_of c id)
  | None => ids = []
  end.
Proof.
  unfold chooseLeader. pose proof (earliest_spec c (reverse ids)) as H.
  destruct (foldl _ _ _).
  - destruct H as [H1 H2]. split; [by apply elem_of_reverse|].
    intros id Hid. by apply H2, elem_of_reverse.
  - by apply (f_equal reverse) in H; rewrite reverse_involutive in H.
Qed.

(** ** The invariant of the rounds *)

(** The fields that hold the rounds. *)
Definition same_rounds (c c' : Reserved) : Prop :=
  waiting c' = waiting c /\ requests c' = requests c /\ transaction c' = transaction c /\
  transactions c' = transactions c.

Section rounds.
Variable retryCapMs : option Z.
Implicit Types c : Reserved.

Lemma same_rounds_refl c : same_rounds c c.
Proof. done. Qed.
Lemma same_rounds_trans c1 c2 c3 : same_rounds c1 c2 -> same_rounds c2 c3 -> same_rounds c1 c3.
Proof. intros (? & ? & ? & ?) (? & ? & ? & ?). unfold same_rounds. split_and!; congruence. Qed.

Lemma acquire_rounds c : same_rounds c (acquire c).1.
Proof. unfold acquire. by repeat case_match. Qed.
Lemma reserve_rounds c : same_rounds c (reserve c).
Proof. unfold reserve. case_match; [done|apply acquire_rounds]. Qed.
Lemma discard_rounds pending isLost c : same_rounds c (discard retryCapMs pending isLost c).
Proof.
  unfold discard. repeat case_match; try done.
  eapply same_rounds_trans; [|apply reserve_rounds]. done.
Qed.
Lemma becameReady_rounds c : same_rounds c (becameReady c).
Proof. unfold becameReady, finishWaits. by case_match. Qed.
Lemma connectArrives_rounds id c : same_rounds c (connectArrives id c).
Proof.
  unfold connectArrives. set (c1 := if bool_decide (client _ = _) then _ else _).
  assert (same_rounds c c1).
  { unfold c1. repeat case_match; try done.
    eapply same_rounds_trans; [|apply becameReady_rounds]. done. }
  case_match; done.
Qed.
Lemma connectFails_rounds now id c : same_rounds c (connectFails retryCapMs now id c).
Proof. unfold connectFails, scheduleRetry. by repeat case_match. Qed.
Lemma ready_rounds wait ab c : same_rounds c (ready wait ab c).
Proof.
  unfold ready. repeat case_match; try done.
  eapply same_rounds_trans; [apply reserve_rounds|done].
Qed.
Lemma reopen_rounds c : same_rounds c (reopen c).
Proof.
  unfold reopen. case_match; [|done]. eapply same_rounds_trans; [|apply becameReady_rounds]. done.
Qed.
Lemma retryTimerFires_rounds c : same_rounds c (retryTimerFires c).
Proof.
  unfold retryTimerFires. repeat case_match; try done.
  eapply same_rounds_trans; [|apply reserve_rounds]. done.
Qed.

(** The transaction [tx] is in flight. *)
Record current_ok c (tx : RenewalTransaction) : Prop := {
  cur_open : tx_ended tx = false;
  cur_leader : tx_leader tx ∈ tx_members tx;
  cur_unsettled : isSettled c (tx_leader tx) = false;
  cur_nodup : NoDup (tx_members tx);
  cur_members : forall m, m ∈ tx_members tx ->
    requests c !! m <> None /\ (m ∉ waiting c) /\
    rq_deadline (request_of c (tx_leader tx)) <= rq_deadline (request_of c m);
}.

Record rounds_pre c : Prop := {
  rp_dom : forall id, id ∈ waiting c -> requests c !! id <> None;
  rp_nodup : NoDup (waiting c);
  rp_placed : forall id, requests c !! id <> None -> isSettled c id = false ->
    id ∈ waiting c \/
    exists t tx, transaction c = Some t /\ transactions c !! t = Some tx /\ id ∈ tx_members tx;
  rp_current : forall t, transaction c = Some t ->
    exists tx, transactions c !! t = Some tx /\ current_ok c tx;
  rp_only : forall t tx, transactions c !! t = Some tx -> tx_ended tx = false ->
    transaction c = Some t;
}.

Definition rounds_ok c : Prop := rounds_pre c /\ (transaction c = None -> waiting c = []).

Lemma current_same c c' tx :
  waiting c' = waiting c -> requests c' = requests c -> current_ok c tx -> current_ok c' tx.
Proof.
  intros Ew Er [? ? ? ? ?]. split; unfold isSettled, request_of in *; by rewrite ?Ew, ?Er.
Qed.

Lemma rounds_pre_same c c' : same_rounds c c' -> rounds_pre c -> rounds_pre c'.
Proof.
  intros (Ew & Er & Et & Ex) [Hd Hn Hp Hc Ho]. split.
  - by rewrite Ew, Er.
  - by rewrite Ew.
  - unfold isSettled, request_of in *. by rewrite Ew, Er, Et, Ex.
  - rewrite Et, Ex. intros t Ht. destruct (Hc t Ht) as (tx & ? & Hcur). exists tx.
    split; [done|]. by eapply current_same.
  - by rewrite Et, Ex.
Qed.

Lemma rounds_same c c' : same_rounds c c' -> rounds_ok c -> rounds_ok c'.
Proof.
  intros H [Hp Hw]. split; [by eapply rounds_pre_same|]. destruct H as (Ew & _ & Et & _).
  by rewrite Ew, Et.
Qed.

Lemma startNext_ok c : rounds_pre c -> rounds_ok (startNext c).
Proof.
  intros Hc. unfold startNext. destruct (transaction c) as [t|] eqn:Et; [split; congruence|].
  pose proof Hc as [Hd Hn Hp _ Ho].
  set (live := filter _ (waiting c)). set (c1 := c <| waiting := live |>).
  assert (Hlive : forall id, id ∈ live <-> isSettled c id = false /\ id ∈ waiting c).
  { intros id. unfold live. by rewrite list_elem_of_filter. }
  assert (Hnl : NoDup live) by (by apply NoDup_filter).
  pose proof (chooseLeader_spec c1 live) as Hlead.
  destruct (chooseLeader c1 live) as [leader|].
  2: { split; [|done]. subst c1. split; simpl.
       - rewrite Hlead. by intros ? ?%elem_of_nil.
       - done.
       - intros id Hid Hs. destruct (Hp id Hid Hs) as [Hin|(t & tx & ? & _)]; [|congruence].
         left. by apply Hlive.
       - intros t. by rewrite Et.
       - done. }
  destruct Hlead as [Hin Hmin].
  set (rest := remove_first (fun id => bool_decide (id = leader)) live).
  set (c2 := c1 <| waiting := rest |>).
  change (c1 <| waiting ::= remove_first (fun id => bool_decide (id = leader)) |>) with c2.
  pose proof (acquire_rounds c2) as (Ew & Er & Et' & Ex). destruct (acquire c2) as [c3 pending].
  simpl in *. set (tx := mkTransaction leader [leader] pending false false).
  assert (Hrest : forall id, id ∈ rest <-> id ∈ live /\ id <> leader).
  { intros id. by apply elem_of_remove_value. }
  split; [|done]. split; simpl; rewrite ?Ew, ?Er, ?Ex.
  - intros id [Hid _]%Hrest. apply Hlive in Hid as [_ Hid]. by apply Hd.
  - by apply remove_first_NoDup.
  - intros id Hid Hs. unfold isSettled, request_of in Hs. simpl in Hs. rewrite Er in Hs.
    destruct (decide (id = leader)) as [->|Hne].
    + right. eexists _, tx. split_and!; [done| |set_solver].
      rewrite lookup_app_r, Nat.sub_diag by lia. done.
    + left. apply Hrest. split; [|done]. apply Hlive. split; [done|].
      destruct (Hp id Hid Hs) as [?|(t & tx' & ? & _)]; [done|congruence].
  - intros t [= <-]. exists tx. split; [by rewrite lookup_app_r, Nat.sub_diag by lia|].
    apply Hlive in Hin as [Hset Hwait]. split; try done; simpl.
    + set_solver.
    + unfold isSettled, request_of in *. simpl. by rewrite Er.
    + apply NoDup_singleton.
    + intros m ->%list_elem_of_singleton. rewrite Er, Ew. split_and!; [by apply Hd| |done].
      rewrite Hrest. naive_solver.
  - intros t tx' Hl He. destruct (decide (t < length (transactions c))%nat).
    + rewrite lookup_app_l in Hl by done. specialize (Ho t tx' Hl He). congruence.
    + rewrite lookup_app_r in Hl by lia. apply list_lookup_singleton_Some in Hl as [? ?].
      f_equal. lia.
Qed.

(** The transaction is marked as ended and its members are settled. *)
Lemma ended_pre c t tx c2 :
  rounds_pre c -> transactions c !! t = Some tx -> tx_ended tx = false ->
  settles_only (c <| transactions ::= <[t := tx <| tx_ended := true |>]> |>
                  <| transaction := None |>) c2 (tx_members tx) ->
  rounds_pre c2.
Proof.
  intros [Hd Hn Hp Hc Ho] Htx He Hs. pose proof (Ho t tx Htx He) as Hcur.
  destruct (Hc t Hcur) as (tx' & Htx' & Hok). simplify_eq.
  set (c1 := c <| transactions ::= _ |> <| transaction := None |>) in Hs.
  assert (Ew : waiting c2 = waiting c) by (by rewrite (so_requests _ _ _ Hs)).
  assert (Et : transaction c2 = None) by (by rewrite (so_requests _ _ _ Hs)).
  assert (Ex : transactions c2 = <[t := tx <| tx_ended := true |>]> (transactions c))
    by (by rewrite (so_requests _ _ _ Hs)).
  split; rewrite ?Ew, ?Et, ?Ex; try done.
  - intros id Hid E. apply (so_dom _ _ _ Hs) in E. by apply (Hd id).
  - intros id Hid Hset.
    assert (Hid' : requests c !! id <> None) by (intros E; by apply Hid, (so_dom _ _ _ Hs)).
    destruct (decide (id ∈ tx_members tx)) as [Hm|Hm].
    { by rewrite (so_done _ _ _ Hs id Hm Hid') in Hset. }
    assert (isSettled c id = false) as Hset'.
    { rewrite <- Hset. symmetry. apply (isSettled_same c1 c2). by apply (so_other _ _ _ Hs). }
    destruct (Hp id Hid' Hset') as [?|(t' & tx' & ? & ? & ?)]; [by left|]. by simplify_eq.
  - intros t' tx' Hl Hopen. destruct (decide (t' = t)) as [->|Hne].
    + rewrite list_lookup_insert_eq in Hl by (by eapply lookup_lt_Some). by simplify_eq.
    + rewrite list_lookup_insert_ne in Hl by done. specialize (Ho t' tx' Hl Hopen). congruence.
Qed.

Lemma settles_same_rounds c c1 c2 ids :
  same_rounds c c1 -> settles_only c1 c2 ids ->
  exists c2', settles_only c c2' ids /\ same_rounds c2' c2.
Proof.
  intros (Ew & Er & Et & Ex) [R D L B S O F]. exists (c <| requests := requests c2 |>).
  unfold isSettled, request_of in *. rewrite Er in *. split.
  - split; try done.
  - rewrite R. unfold same_rounds. simpl. by rewrite Ew, Et, Ex.
Qed.

Lemma endTransaction_ok t outcome c :
  rounds_ok c -> rounds_ok (endTransaction retryCapMs t outcome c).
Proof.
  intros [Hpre Hidle]. unfold endTransaction. destruct (transactions c !! t) as [tx|] eqn:Htx; [|done].
  destruct (tx_ended tx) eqn:He; [done|]. apply startNext_ok. simpl.
  rewrite bool_decide_true by (by eapply rp_only).
  set (c1 := c <| transactions ::= _ |> <| transaction := None |>).
  destruct outcome as [rows|error].
  { eapply ended_pre; try done. apply settles_resolve. }
  eapply rounds_pre_same; [apply reserve_rounds|].
  set (cd := match tx_pending tx with Some _ => _ | None => _ end).
  assert (Hd : same_rounds c1 cd).
  { unfold cd. repeat case_match; try done; apply discard_rounds. }
  destruct (settles_same_rounds c1 cd _ _ Hd (settles_fold (Throw error) (tx_members tx) cd))
    as (c2 & Hs & Hsame).
  eapply rounds_pre_same; [exact Hsame|]. by eapply ended_pre.
Qed.

Lemma join_ok t tx c :
  rounds_ok c -> transactions c !! t = Some tx -> tx_ended tx = false -> rounds_ok (join t c).
Proof.
  intros [[Hd Hn Hp Hc Ho] Hidle] Htx He. unfold join. rewrite Htx.
  pose proof (Ho t tx Htx He) as Hcur. destruct (Hc t Hcur) as (tx' & Htx' & Hok). simplify_eq.
  set (J := fun id => joins c (tx_leader tx) id).
  set (joining := filter (fun id => J id = true) (waiting c)).
  set (staying := filter (fun id => J id = false) (waiting c)).
  assert (HJ : forall id, id ∈ joining <-> J id = true /\ id ∈ waiting c)
    by (intros id; unfold joining; by rewrite list_elem_of_filter).
  assert (HS : forall id, id ∈ staying <-> J id = false /\ id ∈ waiting c)
    by (intros id; unfold staying; by rewrite list_elem_of_filter).
  assert (Hlen : (t < length (transactions c))%nat) by (by eapply lookup_lt_Some).
  destruct Hok as [_ Hl Hu Hnd Hm].
  split; [|simpl; congruence]. split; simpl.
  - intros id [_ Hid]%HS. by apply Hd.
  - by apply NoDup_filter.
  - intros id Hid Hset. destruct (Hp id Hid Hset) as [Hw|(t' & tx' & ? & ? & ?)].
    + destruct (J id) eqn:EJ; [right|left; by apply HS].
      eexists t, _. split_and!; [done|by apply list_lookup_insert_eq|]. simpl.
      apply elem_of_app. right. by apply HJ.
    + simplify_eq. right. eexists _, _. split_and!; [done|by apply list_lookup_insert_eq|]. simpl.
      apply elem_of_app. by left.
  - intros t' Ht'. simplify_eq. eexists. split; [by apply list_lookup_insert_eq|].
    split; simpl; try done.
    + apply elem_of_app. by left.
    + apply NoDup_app. split_and!; [done| |by apply NoDup_filter].
      intros m Hin [_ Hw]%HJ. by destruct (Hm m Hin) as (_ & ? & _).
    + intros m [Hin|Hin]%elem_of_app.
      * destruct (Hm m Hin) as (? & ? & ?). split_and!; try done. intros [_ ?]%HS. done.
      * apply HJ in Hin as [EJ Hw]. split_and!; [by apply Hd| |].
        -- intros [? _]%HS. congruence.
        -- unfold J, joins in EJ. bool_to_prop. done.
  - intros t' tx' Hlk Hopen. destruct (decide (t' = t)) as [->|Hne]; [done|].
    rewrite list_lookup_insert_ne in Hlk by done. eauto.
Qed.

Lemma lent_ok t tx c :
  rounds_ok c -> transactions c !! t = Some tx ->
  rounds_ok (c <| transactions ::= <[t := tx <| tx_lent := true |>]> |>).
Proof.
  intros [[Hd Hn Hp Hc Ho] Hidle] Htx.
  assert (Hlen : (t < length (transactions c))%nat) by (by eapply lookup_lt_Some).
  assert (Hlook : forall t', exists b, (<[t := tx <| tx_lent := true |>]> (transactions c)) !! t' =
            (fun x => x <| tx_lent := (tx_lent x || b)%bool |>) <$> transactions c !! t').
  { intros t'. destruct (decide (t' = t)) as [->|Hne].
    - exists true. rewrite list_lookup_insert_eq, Htx by done. simpl. by rewrite orb_true_r.
    - exists false. rewrite list_lookup_insert_ne by done. destruct (transactions c !! t') as [x|]; simpl; [|done].
      rewrite orb_false_r. by destruct x. }
  split; [|done]. split; simpl; try done.
  - intros id Hid Hset. destruct (Hp id Hid Hset) as [?|(t' & tx' & ? & Hl & ?)]; [by left|right].
    destruct (Hlook t') as [b Hb]. rewrite Hl in Hb. eexists t', _. by split_and!.
  - intros t' Ht'. destruct (Hc t' Ht') as (tx' & Hl & [? ? ? ? ?]). destruct (Hlook t') as [b Hb].
    rewrite Hl in Hb. eexists. split; [exact Hb|]. by split.
  - intros t' tx' Hl Hopen. destruct (Hlook t') as [b Hb]. rewrite Hl in Hb.
    destruct (transactions c !! t') as [x|] eqn:Hx; [|done]. simplify_eq/=. by eapply Ho.
Qed.

(** A new request is settled or waits. *)
Lemma add_pre id r w c :
  rounds_pre c -> requests c !! id = None ->
  (rq_result r <> None /\ w = waiting c) \/ w = waiting c ++ [id] ->
  rounds_pre (c <| requests ::= <[id := r]> |> <| waiting := w |>).
Proof.
  intros [Hd Hn Hp Hc Ho] Hfresh Hw.
  set (c' := c <| requests ::= _ |> <| waiting := w |>).
  assert (Hreq : forall id', requests c !! id' <> None -> request_of c' id' = request_of c id').
  { intros id' Hid. unfold request_of. simpl. rewrite lookup_insert_ne; [done|]. congruence. }
  assert (Hin : forall id', requests c !! id' <> None -> id' ∈ w <-> id' ∈ waiting c).
  { intros id' Hid. destruct Hw as [[_ ->]| ->]; [done|]. rewrite elem_of_app, list_elem_of_singleton.
    split; [intros [?| ->]; [done|congruence]|auto]. }
  assert (Hfr : id ∉ waiting c) by (intros Hx; by destruct (Hd id Hx)).
  split; simpl.
  - intros id' Hid. destruct (decide (id' = id)) as [->|Hne]; [by rewrite lookup_insert_eq|].
    rewrite lookup_insert_ne by done. apply Hd. destruct Hw as [[_ ->]| ->]; [done|]. set_solver.
  - destruct Hw as [[_ ->]| ->]; [done|]. apply NoDup_app. split_and!; [done| |apply NoDup_singleton].
    set_solver.
  - intros id' Hid Hset. destruct (decide (id' = id)) as [->|Hne].
    + destruct Hw as [[Hr _]| ->]; [|left; set_solver].
      unfold isSettled, request_of in Hset. simpl in Hset. rewrite lookup_insert_eq in Hset.
      simpl in Hset. by bool_to_prop.
    + rewrite lookup_insert_ne in Hid by done. unfold isSettled in Hset. rewrite Hreq in Hset by done.
      destruct (Hp id' Hid Hset) as [?|?]; [left; by apply Hin|by right].
  - intros t Ht. destruct (Hc t Ht) as (tx & Htx & [? Hl ? ? Hm]). exists tx. split; [done|].
    assert (Hld : requests c !! tx_leader tx <> None) by (by apply Hm).
    split; try done.
    + unfold isSettled. by rewrite Hreq.
    + intros m Hmem. destruct (Hm m Hmem) as (? & ? & ?). rewrite !Hreq by done. simpl.
      split_and!; [|by rewrite Hin|done]. rewrite lookup_insert_ne; [done|]. congruence.
  - done.
Qed.

Lemma renew_ok now id timeoutMs build c :
  rounds_ok c -> requests c !! id = None -> rounds_ok (renew now id timeoutMs build c).
Proof.
  intros [Hpre Hidle] Hfresh. unfold renew.
  assert (Hdone : forall r, rq_result r <> None -> rounds_ok (c <| requests ::= <[id := r]> |>)).
  { intros r Hr. split; [|done]. apply (add_pre id r (waiting c)); auto. }
  destruct (closed c); [by apply Hdone|]. destruct build as [batches|]; [|by apply Hdone].
  apply startNext_ok. apply (add_pre id _ (waiting c ++ [id])); auto.
Qed.

(** A round that does not lead ends alone. *)
Lemma settle_alone_ok id result c :
  rounds_ok c -> isSettled c id = false ->
  (forall t tx, transaction c = Some t -> transactions c !! t = Some tx -> tx_leader tx <> id) ->
  rounds_ok (settle id result
               (c <| waiting ::= remove_first (fun x => bool_decide (x = id)) |>)).
Proof.
  intros [[Hd Hn Hp Hc Ho] Hidle] Hset Hlead.
  set (c1 := c <| waiting ::= _ |>). pose proof (settle_settles id result c1) as Hs.
  set (c2 := settle id result c1) in *.
  assert (Ew : waiting c2 = remove_first (fun x => bool_decide (x = id)) (waiting c))
    by (by rewrite (so_requests _ _ _ Hs)).
  assert (Et : transaction c2 = transaction c) by (by rewrite (so_requests _ _ _ Hs)).
  assert (Ex : transactions c2 = transactions c) by (by rewrite (so_requests _ _ _ Hs)).
  assert (Hsame : forall id', id' <> id -> isSettled c2 id' = isSettled c id').
  { intros id' Hne. apply (isSettled_same c1). apply (so_other _ _ _ Hs). set_solver. }
  assert (Hwait : forall x, x ∈ waiting c2 <-> x ∈ waiting c /\ x <> id).
  { intros x. rewrite Ew. by apply elem_of_remove_value. }
  split; [|rewrite Et, Ew; intros E; by rewrite Hidle].
  split; rewrite ?Et, ?Ex.
  - intros id' [Hw _]%Hwait E. apply (so_dom _ _ _ Hs) in E. by apply (Hd id').
  - rewrite Ew. by apply remove_first_NoDup.
  - intros id' Hid Hset'.
    assert (Hid' : requests c !! id' <> None) by (intros E; by apply Hid, (so_dom _ _ _ Hs)).
    destruct (decide (id' = id)) as [->|Hne].
    { rewrite (so_done _ _ _ Hs) in Hset'; [done|set_solver|done]. }
    rewrite Hsame in Hset' by done.
    destruct (Hp id' Hid' Hset') as [?|?]; [left; by apply Hwait|by right].
  - intros t Ht. destruct (Hc t Ht) as (tx & Htx & [? ? Hu ? Hm]). exists tx. split; [done|].
    split; try done.
    + rewrite Hsame; [done|]. by eapply Hlead.
    + intros m Hmem. destruct (Hm m Hmem) as (? & ? & ?). rewrite !(so_deadline _ _ _ Hs).
      split_and!; [by rewrite (so_dom _ _ _ Hs)| |done]. rewrite Hwait. naive_solver.
  - done.
Qed.

Lemma timedOut_ok id c : rounds_ok c -> rounds_ok (timedOut retryCapMs id c).
Proof.
  intros Hok. unfold timedOut. destruct (isSettled c id) eqn:Hset; [done|].
  destruct (transaction c) as [t|] eqn:Et.
  - destruct (transactions c !! t) as [tx|] eqn:Etx; [case_bool_decide as Hl|].
    + by apply endTransaction_ok.
    + apply settle_alone_ok; try done. intros t' tx' ? ?. by simplify_eq.
    + apply settle_alone_ok; try done. intros t' tx' ? ?. by simplify_eq.
  - apply settle_alone_ok; try done. intros t' tx' ?. congruence.
Qed.

Lemma rc_step_rounds c te : rounds_ok c -> rounds_ok (rc_step retryCapMs c te).
Proof.
  intros Hok. destruct te as [now ev]. unfold rc_step. simpl. destruct ev.
  - eapply rounds_same; [apply reserve_rounds|done].
  - case_bool_decide; [by apply renew_ok|done].
  - by apply timedOut_ok.
  - case_match; [eapply rounds_same; [apply connectArrives_rounds|done]|done].
  - case_match; [eapply rounds_same; [apply connectFails_rounds|done]|done].
  - unfold transactResumes. repeat case_match; try done. by apply lent_ok.
  - repeat case_match; try done. bool_to_prop. by eapply join_ok.
  - repeat case_match; try done. by apply endTransaction_ok.
  - case_match; [eapply rounds_same; [apply discard_rounds|done]|done].
  - eapply rounds_same; [apply retryTimerFires_rounds|done].
  - case_match; [done|eapply rounds_same; [apply ready_rounds|done]].
  - unfold finishWait. repeat case_match; try done; (eapply rounds_same; [|exact Hok]; done).
  - unfold finishWait. repeat case_match; try done; (eapply rounds_same; [|exact Hok]; done).
  - eapply rounds_same; [|exact Hok]. done.
  - unfold closeResumes. repeat case_match; try done; (eapply rounds_same; [|exact Hok]; done).
  - eapply rounds_same; [apply reopen_rounds|done].
Qed.

Lemma rc_run_rounds evs : rounds_ok (rc_run retryCapMs newReserved evs).
Proof.
  apply (run_invariant (rc_step retryCapMs) rounds_ok).
  - intros c te. apply rc_step_rounds.
  - split; [|done]. split; simpl; try done; [by intros ? ?%elem_of_nil|constructor].
Qed.
End rounds.

(** ** The invariant of the connection: one owner for every client *)
Section ownership.
Variable retryCapMs : option Z.
Implicit Types c : Reserved.

Definition arrived c (id : nat) : Prop := connects c !! id = Some Arrived.

Record owned c : Prop := {
  ow_client : forall id, client c = Some id ->
    (connects c !! id = Some Connecting \/ arrived c id) /\ id ∉ (released c).*1;
  ow_connecting : forall id, connects c !! id = Some Connecting -> client c = Some id;
  ow_arrived : forall id, arrived c id -> client c = Some id \/ id ∈ (released c).*1;
  ow_released : forall id, id ∈ (released c).*1 -> arrived c id;
  ow_once : NoDup (released c).*1;
  ow_connected : forall id, connected c = Some id <-> client c = Some id /\ arrived c id;
  ow_lent : forall t tx, transactions c !! t = Some tx -> tx_lent tx = true ->
    exists id, tx_pending tx = Some id /\ arrived c id;
}.

Definition same_connection c c' : Prop :=
  client c' = client c /\ connected c' = connected c /\ connects c' = connects c /\
  released c' = released c /\
  forall t tx', transactions c' !! t = Some tx' -> tx_lent tx' = true ->
    exists tx, transactions c !! t = Some tx /\ tx_lent tx = true /\ tx_pending tx' = tx_pending tx.

Lemma owned_same c c' : same_connection c c' -> owned c -> owned c'.
Proof.
  intros (E1 & E2 & E3 & E4 & Ht) [H1 H2 H3 H4 H5 H6 H7].
  split; unfold arrived in *; rewrite ?E1, ?E2, ?E3, ?E4; try done.
  intros t tx' Hl Hlent. destruct (Ht t tx' Hl Hlent) as (tx & Htx & Hle & ->). eauto.
Qed.

Lemma same_connection_of c c' :
  client c' = client c -> connected c' = connected c -> connects c' = connects c ->
  released c' = released c -> transactions c' = transactions c -> same_connection c c'.
Proof. intros ? ? ? ? E. split_and!; try done. rewrite E. eauto. Qed.

Lemma owned_acquire c : owned c -> owned (acquire c).1.
Proof.
  intros Ho. unfold acquire. destruct (closed c); [done|].
  destruct (client c) as [id|] eqn:Ec; [done|]. destruct Ho as [H1 H2 H3 H4 H5 H6 H7]. simpl.
  set (n := length (connects c)).
  assert (Hold : forall id st, connects c !! id = Some st -> (connects c ++ [Connecting]) !! id = Some st).
  { intros id st Hl. rewrite lookup_app_l; [done|]. by eapply lookup_lt_Some. }
  assert (Hnew : (connects c ++ [Connecting]) !! n = Some Connecting).
  { unfold n. by rewrite lookup_app_r, Nat.sub_diag by lia. }
  assert (Hinv : forall id st, (connects c ++ [Connecting]) !! id = Some st ->
            connects c !! id = Some st \/ id = n /\ st = Connecting).
  { intros id st Hl. destruct (decide (id < n)%nat); [left; by rewrite lookup_app_l in Hl|].
    unfold n in *. rewrite lookup_app_r in Hl by lia.
    apply list_lookup_singleton_Some in Hl as [? ?]. right. split; [lia|done]. }
  assert (Hnone : n ∉ (released c).*1).
  { intros Hin. apply H4 in Hin. unfold arrived in Hin. apply lookup_lt_Some in Hin. unfold n in *. lia. }
  split; simpl; unfold arrived in *; simpl.
  - intros id [= <-]. auto.
  - intros id Hl. destruct (Hinv id _ Hl) as [Hc|[-> _]]; [by rewrite (H2 id Hc) in Ec|done].
  - intros id Hl. destruct (Hinv id _ Hl) as [Hc|[_ ?]]; [|done].
    right. destruct (H3 id Hc); [congruence|done].
  - intros id Hin. by apply Hold, H4.
  - done.
  - intros id. rewrite H6. split; [intros [? ?]; congruence|]. intros [[= <-] Hl]. congruence.
  - intros t tx Hl Hlent. destruct (H7 t tx Hl Hlent) as (id & ? & ?). eauto.
Qed.

Lemma owned_reserve c : owned c -> owned (reserve c).
Proof. intros. unfold reserve. case_match; [done|by apply owned_acquire]. Qed.

(** The held client leaves: it is released once. *)
Lemma owned_release c c' id d :
  owned c -> client c = Some id -> arrived c id ->
  client c' = None -> connected c' = None -> connects c' = connects c ->
  released c' = released c ++ [(id, d)] -> transactions c' = transactions c -> owned c'.
Proof.
  intros [H1 H2 H3 H4 H5 H6 H7] Hc Ha E1 E2 E3 E4 E5. destruct (H1 id Hc) as [_ Hn].
  split; unfold arrived in *; rewrite ?E1, ?E2, ?E3, ?E4, ?fmap_app; simpl; try done.
  - intros id' Hl. exfalso. specialize (H2 id' Hl). congruence.
  - intros id' Hl. right. apply elem_of_app. rewrite list_elem_of_singleton.
    destruct (H3 id' Hl); [right; congruence|by left].
  - intros id' [Hin| ->%list_elem_of_singleton]%elem_of_app; auto.
  - apply NoDup_app. split_and!; [done| |apply NoDup_singleton]. set_solver.
  - intros id'. split; [done|]. by intros [? _].
  - rewrite E5. eauto.
Qed.

Lemma owned_discard pending isLost c :
  owned c -> arrived c pending -> owned (discard retryCapMs pending isLost c).
Proof.
  intros Ho Ha. unfold discard. case_bool_decide as Ec; simpl; [|done].
  assert (Hr : forall c', client c' = None -> connected c' = None -> connects c' = connects c ->
            released c' = released c ++ [(pending, true)] -> transactions c' = transactions c ->
            owned c') by (intros; by eapply owned_release).
  repeat case_match; try (by apply Hr). by apply owned_reserve, Hr.
Qed.

Lemma owned_arrives id c :
  owned c -> connects c !! id = Some Connecting -> owned (connectArrives id c).
Proof.
  intros Ho Hl. pose proof Ho as [H1 H2 H3 H4 H5 H6 H7]. pose proof (H2 id Hl) as Ec.
  assert (Hlen : (id < length (connects c))%nat) by (by eapply lookup_lt_Some).
  set (c1 := c <| connects ::= <[id := Arrived]> |> <| connected := Some id |>).
  assert (Hlk : forall id' st, <[id := Arrived]> (connects c) !! id' = Some st ->
            id' = id /\ st = Arrived \/ id' <> id /\ connects c !! id' = Some st).
  { intros id' st H. destruct (decide (id' = id)) as [->|Hne].
    - rewrite list_lookup_insert_eq in H by done. left. by simplify_eq.
    - rewrite list_lookup_insert_ne in H by done. by right. }
  assert (Ho1 : owned c1).
  { split; unfold arrived in *; simpl; try done.
    - intros id' Hc. assert (id' = id) as -> by congruence. split; [|by apply H1].
      right. by apply list_lookup_insert_eq.
    - intros id' [[_ ?]|[_ ?]]%Hlk; [done|]. auto.
    - intros id' [[-> _]|[_ ?]]%Hlk; auto.
    - intros id' Hin. destruct (decide (id' = id)) as [->|Hne]; [by apply list_lookup_insert_eq|].
      rewrite list_lookup_insert_ne by done. auto.
    - intros id'. split.
      + intros [= <-]. split; [done|]. by apply list_lookup_insert_eq.
      + intros [? _]. congruence.
    - intros t tx Ht Hlent. destruct (H7 t tx Ht Hlent) as (id' & ? & ?). exists id'. split; [done|].
      destruct (decide (id' = id)) as [->|Hne]; [by apply list_lookup_insert_eq|].
      by rewrite list_lookup_insert_ne. }
  unfold connectArrives. simpl. rewrite Ec, (bool_decide_true (Some id = Some id)) by done.
  set (c2 := if closed _ then _ else _).
  assert (Hc2 : same_connection c1 c2).
  { unfold c2, becameReady, finishWaits. repeat case_match; by apply same_connection_of. }
  assert (Ho2 : owned c2) by (by eapply owned_same).
  destruct Hc2 as (E1 & E2 & E3 & E4 & _). clearbody c2. case_match; [|done].
  eapply (owned_release c2 _ id false); try done.
  - by rewrite E1.
  - unfold arrived. rewrite E3. by apply list_lookup_insert_eq.
Qed.

Lemma owned_fails now id c :
  owned c -> connects c !! id = Some Connecting -> owned (connectFails retryCapMs now id c).
Proof.
  intros [H1 H2 H3 H4 H5 H6 H7] Hl. pose proof (H2 id Hl) as Ec.
  assert (Hlen : (id < length (connects c))%nat) by (by eapply lookup_lt_Some).
  set (c1 := c <| connects ::= <[id := ConnectFailed]> |> <| client := None |>
               <| connected := None |> <| lost := true |>).
  assert (Hlk : forall id' st, st <> ConnectFailed ->
            <[id := ConnectFailed]> (connects c) !! id' = Some st <->
            id' <> id /\ connects c !! id' = Some st).
  { intros id' st Hst. destruct (decide (id' = id)) as [->|Hne].
    - rewrite list_lookup_insert_eq by done. naive_solver.
    - rewrite list_lookup_insert_ne by done. naive_solver. }
  assert (Ho1 : owned c1).
  { split; unfold arrived in *; simpl; try done.
    - intros id' [? ?]%Hlk; [|done]. exfalso. specialize (H2 id'). naive_solver.
    - intros id' [? ?]%Hlk; [|done]. destruct (H3 id'); naive_solver.
    - intros id' Hin. apply Hlk; [done|]. split; [|auto]. intros ->. by destruct (H1 id Ec).
    - intros id'. split; [done|]. by intros [? _].
    - intros t tx Ht Hlent. destruct (H7 t tx Ht Hlent) as (id' & ? & ?). exists id'. split; [done|].
      apply Hlk; [done|]. split; [|done]. intros ->. congruence. }
  unfold connectFails. simpl. rewrite Ec, (bool_decide_true (Some id = Some id)) by done.
  eapply owned_same; [|exact Ho1]. unfold scheduleRetry. repeat case_match; by apply same_connection_of.
Qed.

Lemma owned_startNext c : owned c -> owned (startNext c).
Proof.
  intros Ho. unfold startNext. destruct (transaction c); [done|].
  set (c1 := c <| waiting := _ |>).
  assert (Ho1 : owned c1) by (apply (owned_same c); [by apply same_connection_of|done]).
  clearbody c1. destruct (chooseLeader _ _) as [leader|]; [|done].
  set (c2 := c1 <| waiting ::= _ |>).
  assert (Ho2 : owned c2) by (apply (owned_same c1); [by apply same_connection_of|done]).
  apply owned_acquire in Ho2. destruct (acquire c2) as [c3 pending]. simpl in Ho2.
  eapply owned_same; [|exact Ho2]. split_and!; try done. simpl. intros t tx Hl Hlent.
  destruct (decide (t < length (transactions c3))%nat).
  - rewrite lookup_app_l in Hl by done. eauto.
  - rewrite lookup_app_r in Hl by lia. apply list_lookup_singleton_Some in Hl as [_ <-]. done.
Qed.

Lemma settles_connection c c' ids : settles_only c c' ids -> same_connection c c'.
Proof. intros Hs. rewrite (so_requests _ _ _ Hs). by apply same_connection_of. Qed.

Lemma same_connection_insert t tx tx' c :
  transactions c !! t = Some tx -> tx_pending tx' = tx_pending tx ->
  (tx_lent tx' = true -> tx_lent tx = true) ->
  same_connection c (c <| transactions ::= <[t := tx']> |>).
Proof.
  intros Hl Hp Hlent. split_and!; try done. simpl. intros t' x Hx Hxl.
  destruct (decide (t' = t)) as [->|Hne].
  - rewrite list_lookup_insert_eq in Hx by (by eapply lookup_lt_Some). simplify_eq. eauto.
  - rewrite list_lookup_insert_ne in Hx by done. eauto.
Qed.

Lemma owned_endTransaction t outcome c :
  owned c -> owned (endTransaction retryCapMs t outcome c).
Proof.
  intros Ho. unfold endTransaction. destruct (transactions c !! t) as [tx|] eqn:Htx; [|done].
  destruct (tx_ended tx); [done|]. apply owned_startNext.
  set (c1 := if bool_decide _ then _ else _).
  assert (Ho1 : owned c1 /\ connects c1 = connects c).
  { assert (owned (c <| transactions ::= <[t := tx <| tx_ended := true |>]> |>)).
    { eapply owned_same; [|exact Ho]. by eapply same_connection_insert. }
    unfold c1. case_match; split; try done.
    eapply owned_same; [|eassumption]. by apply same_connection_of. }
  destruct Ho1 as [Ho1 Ec]. clearbody c1. destruct outcome as [rows|error].
  { eapply owned_same; [|exact Ho1]. eapply settles_connection, settles_resolve. }
  apply owned_reserve. eapply owned_same; [eapply settles_connection, settles_fold|].
  repeat case_match; try done; apply owned_discard; try done; unfold arrived; rewrite Ec;
    destruct (ow_lent _ Ho t tx) as (id & ? & ?); congruence.
Qed.

Lemma owned_settle id result c : owned c -> owned (settle id result c).
Proof. intros. eapply owned_same; [eapply settles_connection, settle_settles|done]. Qed.

Lemma rc_step_owned c te : owned c -> owned (rc_step retryCapMs c te).
Proof.
  intros Ho. destruct te as [now ev]. unfold rc_step. simpl.
  assert (Hs : forall c', client c' = client c -> connected c' = connected c ->
            connects c' = connects c -> released c' = released c ->
            transactions c' = transactions c -> owned c').
  { intros c' ? ? ? ? ?. apply (owned_same c); [by apply same_connection_of|done]. }
  destruct ev.
  - by apply owned_reserve.
  - case_match; [|done]. unfold renew. repeat case_match; try (by apply Hs).
    apply owned_startNext. by apply Hs.
  - unfold timedOut. repeat case_match; try done;
      first [by apply owned_endTransaction | apply owned_settle; by apply Hs].
  - case_bool_decide; [by apply owned_arrives|done].
  - case_bool_decide; [by apply owned_fails|done].
  - unfold transactResumes. repeat case_match; try done. bool_to_prop.
    destruct Ho as [O1 O2 O3 O4 O5 O6 O7]. split; try done. simpl. intros t' tx' Hl Hlent.
    destruct (decide (t' = t)) as [->|Hne]; [|rewrite list_lookup_insert_ne in Hl by done; eauto].
    rewrite list_lookup_insert_eq in Hl by (by eapply lookup_lt_Some). simplify_eq. simpl. eauto.
  - repeat case_match; try done. unfold join. repeat case_match; try done. simplify_eq.
    set (c1 := c <| waiting := _ |>). assert (owned c1) by (by apply Hs).
    apply (owned_same c1); [|done]. by eapply same_connection_insert.
  - repeat case_match; try done. by apply owned_endTransaction.
  - case_bool_decide; [by apply owned_discard|done].
  - unfold retryTimerFires. repeat case_match; try done; [by apply Hs|]. apply owned_reserve. by apply Hs.
  - unfold ready. repeat case_match; try done; try (by apply Hs).
    apply (owned_same (reserve c)); [by apply same_connection_of|]. by apply owned_reserve.
  - unfold finishWait. repeat case_match; try done; by apply Hs.
  - unfold finishWait. repeat case_match; try done; by apply Hs.
  - by apply Hs.
  - unfold closeResumes. repeat case_match; try done; try (by apply Hs). bool_to_prop.
    destruct (connected c) as [id|] eqn:Ec; [|done].
    apply (ow_connected _ Ho) in Ec as [Ec Ha].
    eapply (owned_release c _ id false); try done. simpl in *. by simplify_eq.
  - unfold reopen, becameReady, finishWaits. repeat case_match; by apply Hs.
Qed.

Lemma rc_run_owned evs : owned (rc_run retryCapMs newReserved evs).
Proof.
  apply (run_invariant (rc_step retryCapMs) owned).
  - intros c te. apply rc_step_owned.
  - split; simpl; try done; try (by intros ? ?%elem_of_nil); try constructor.
    + done.
    + by intros [? _].
Qed.
End ownership.

(** ** Returning the client on close *)
Section returning.
Variable retryCapMs : option Z.
Implicit Types c : Reserved.

Definition unsettled c (id : nat) : Prop := requests c !! id <> None /\ isSettled c id = false.

(** An earlier [close()] is still under way: it waits for its rounds, or it
    parked a connect that has not settled. *)
Definition closing c : bool :=
  bool_decide (closes c <> [])
  || existsb (fun p => bool_decide (connects c !! p = Some Connecting)) (parked c).

(** Every [close()] starts only when no earlier one is under way. *)
Fixpoint closes_apart c (evs : list (Z * rc_event)) : Prop :=
  match evs with
  | [] => True
  | te :: evs => (te.2 = Close -> closing c = false) /\ closes_apart (rc_step retryCapMs c te) evs
  end.

(** While the reservation is closed, every unsettled round belongs to the
    close that waits, and no unsettled round exists once it parked. *)
Record returns_ok c : Prop := {
  ret_waits : closed c = true -> forall id, unsettled c id ->
    exists rounds, rounds ∈ closes c /\ id ∈ rounds;
  ret_one : (length (closes c) <= 1)%nat;
  ret_parked : closed c = true -> forall p, p ∈ parked c -> connects c !! p = Some Connecting ->
    forall id, ~ unsettled c id;
  ret_current : forall t tx id, transaction c = Some t -> transactions c !! t = Some tx ->
    tx_pending tx = Some id -> (id, false) ∉ released c;
}.

Definition calm c c' : Prop :=
  closed c' = closed c /\ closes c' = closes c /\ parked c' = parked c /\
  (closed c = true -> connects c' = connects c) /\
  (forall id, unsettled c' id -> unsettled c id).

Lemma calm_refl c : calm c c.
Proof. done. Qed.
Lemma calm_trans c1 c2 c3 : calm c1 c2 -> calm c2 c3 -> calm c1 c3.
Proof.
  intros (A1 & A2 & A3 & A4 & A5) (B1 & B2 & B3 & B4 & B5).
  split_and!; try congruence; [|auto]. intros Hc. rewrite B4 by congruence. auto.
Qed.
Lemma calm_fields c c' :
  closed c' = closed c -> closes c' = closes c -> parked c' = parked c -> connects c' = connects c ->
  requests c' = requests c -> calm c c'.
Proof.
  intros ? ? ? ? E. split_and!; try done. intros id. unfold unsettled, isSettled, request_of.
  by rewrite E.
Qed.

Lemma calm_acquire c : calm c (acquire c).1.
Proof.
  unfold acquire. destruct (closed c) eqn:E; [done|]. case_match; [done|].
  split_and!; simpl; try done. congruence.
Qed.
Lemma calm_reserve c : calm c (reserve c).
Proof. unfold reserve. case_match; [done|apply calm_acquire]. Qed.
Lemma calm_discard pending isLost c : calm c (discard retryCapMs pending isLost c).
Proof.
  unfold discard. repeat case_match; try done; try by apply calm_fields.
  eapply calm_trans; [|apply calm_reserve]. by apply calm_fields.
Qed.
Lemma calm_settles c c' ids : settles_only c c' ids -> calm c c'.
Proof.
  intros Hs. pose proof (so_requests _ _ _ Hs) as E. split_and!; try by rewrite E.
  intros id [Hid Hset]. split; [by rewrite <- (so_dom _ _ _ Hs)|].
  destruct (isSettled c id) eqn:Es; [|done].
  by rewrite (isSettled_same c c'), Es in Hset by (by apply (so_settled _ _ _ Hs)).
Qed.
Lemma calm_startNext c : calm c (startNext c).
Proof.
  unfold startNext. destruct (transaction c); [done|].
  set (c1 := c <| waiting := _ |>). assert (H1 : calm c c1) by (by apply calm_fields).
  clearbody c1. destruct (chooseLeader _ _) as [leader|]; [|done].
  set (c2 := c1 <| waiting ::= _ |>). assert (H2 : calm c c2).
  { eapply calm_trans; [exact H1|]. by apply calm_fields. }
  pose proof (calm_acquire c2) as H3. destruct (acquire c2) as [c3 pending]. simpl in H3.
  eapply calm_trans; [exact H2|]. eapply calm_trans; [exact H3|]. by apply calm_fields.
Qed.

(** The transaction that [startNext] starts runs on the held client. *)
Lemma startNext_current c t tx id :
  transaction c = None -> transaction (startNext c) = Some t ->
  transactions (startNext c) !! t = Some tx -> tx_pending tx = Some id ->
  client (startNext c) = Some id.
Proof.
  intros Et. unfold startNext. rewrite Et. set (c1 := c <| waiting := _ |>).
  destruct (chooseLeader _ _) as [leader|]; [|simpl; congruence].
  set (c2 := c1 <| waiting ::= _ |>).
  assert (Hacq : forall c3 p, acquire c2 = (c3, Some p) -> client c3 = Some p).
  { intros c3 p. unfold acquire. repeat case_match; intros; simplify_eq; done. }
  destruct (acquire c2) as [c3 [p|]]; simpl; intros [= <-];
    rewrite lookup_app_r, Nat.sub_diag by lia; intros [= <-] [= <-]. by apply Hacq.
Qed.

Lemma endTransaction_calm t outcome c :
  rounds_ok c ->
  let c' := endTransaction retryCapMs t outcome c in
  calm c c' /\
  (c' = c \/ exists c1, transaction c1 = None /\ c' = startNext c1).
Proof.
  intros [Hr _]. unfold endTransaction.
  destruct (transactions c !! t) as [tx|] eqn:Htx; [|by split; [apply calm_refl|left]].
  destruct (tx_ended tx) eqn:He; [by split; [apply calm_refl|left]|]. cbn -[startNext].
  rewrite bool_decide_true by (by eapply rp_only).
  set (c1 := c <| transactions ::= _ |> <| transaction := None |>).
  set (c2 := match outcome with Ret _ => _ | Throw _ => _ end).
  assert (H2 : calm c c2 /\ transaction c2 = None).
  { assert (H1 : calm c c1) by (by apply calm_fields). unfold c2. destruct outcome as [rows|error].
    - split; [eapply calm_trans; [exact H1|]; eapply calm_settles, settles_resolve|].
      by rewrite (so_requests _ _ _ (settles_resolve _ _ _ _)).
    - set (cd := match tx_pending tx with Some _ => _ | None => _ end).
      assert (Hd : calm c1 cd /\ transaction cd = None).
      { unfold cd. repeat case_match; try done; (split; [apply calm_discard|]);
          by destruct (discard_rounds retryCapMs n false c1) as (_ & _ & -> & _). }
      destruct Hd as [Hd Ht]. split.
      + eapply calm_trans; [exact H1|]. eapply calm_trans; [exact Hd|].
        eapply calm_trans; [eapply calm_settles, settles_fold|apply calm_reserve].
      + destruct (reserve_rounds (foldl (fun c m => settle m (Throw error) c) cd (tx_members tx)))
          as (_ & _ & -> & _).
        by rewrite (so_requests _ _ _ (settles_fold _ _ _)). }
  destruct H2 as [H2 Ht2]. split; [|right; by exists c2].
  eapply calm_trans; [exact H2|apply calm_startNext].
Qed.

(** A calm step keeps the invariant if the current transaction runs on the
    client it had, or on the held one. *)
Lemma calm_returns c c' :
  calm c c' -> returns_ok c -> owned c' ->
  (forall t tx id, transaction c' = Some t -> transactions c' !! t = Some tx ->
     tx_pending tx = Some id ->
     client c' = Some id \/
     ((id, false) ∈ released c' -> (id, false) ∈ released c) /\
     exists tx0, transaction c = Some t /\ transactions c !! t = Some tx0 /\
                 tx_pending tx0 = Some id) ->
  returns_ok c'.
Proof.
  intros (E1 & E2 & E3 & E4 & E5) [K1 K2 K3 K4] Ho Hcur. split.
  - rewrite E1, E2. intros Hc id Hu. by apply K1, E5.
  - by rewrite E2.
  - rewrite E1, E3. intros Hc p Hp. rewrite E4 by done. intros Hl id Hu. by eapply K3, E5.
  - intros t tx id Ht Hl Hp. destruct (Hcur t tx id Ht Hl Hp) as [Hc|(Hrel & tx0 & ? & ? & ?)].
    + destruct (ow_client _ Ho id Hc) as [_ Hn]. contradict Hn. apply list_elem_of_fmap.
      by exists (id, false).
    + intros Hin. eapply K4; eauto.
Qed.

(** With no unsettled round there is no transaction. *)
Lemma idle_no_transaction c : rounds_ok c -> (forall id, ~ unsettled c id) -> transaction c = None.
Proof.
  intros [[Hd Hn Hp Hc Ho] _] Hno. destruct (transaction c) as [t|] eqn:Et; [|done].
  destruct (Hc t eq_refl) as (tx & _ & [_ Hl Hu _ Hm]). exfalso.
  apply (Hno (tx_leader tx)). split; [|done]. by apply Hm.
Qed.

(** A step that starts no transaction. *)
Lemma calm_same_returns c c' :
  calm c c' -> returns_ok c -> owned c' ->
  transaction c' = transaction c ->
  (forall t tx', transactions c' !! t = Some tx' ->
     exists tx, transactions c !! t = Some tx /\ tx_pending tx' = tx_pending tx) ->
  (forall id, (id, false) ∈ released c' -> (id, false) ∈ released c) -> returns_ok c'.
Proof.
  intros Hcalm Hk Ho Et Ex Er. eapply calm_returns; eauto. intros t tx id Ht Hl Hp. right.
  split; [auto|]. destruct (Ex t tx Hl) as (tx0 & ? & E). exists tx0.
  split_and!; [congruence|done|congruence].
Qed.

Lemma startNext_returns c :
  returns_ok c -> owned (startNext c) -> returns_ok (startNext c).
Proof.
  intros Hk Ho. destruct (transaction c) as [t|] eqn:Et.
  - assert (E : startNext c = c) by (unfold startNext; by rewrite Et). by rewrite E.
  - eapply calm_returns; [apply calm_startNext|done|done|]. intros t tx id Ht Hl Hp. left.
    by eapply startNext_current.
Qed.

Lemma released_reserve c : released (reserve c) = released c.
Proof. unfold reserve, acquire. by repeat case_match. Qed.
Lemma transactions_reserve c :
  transactions (reserve c) = transactions c /\ transaction (reserve c) = transaction c.
Proof. by destruct (reserve_rounds c) as (_ & _ & ? & ?). Qed.

Lemma discard_returns pending isLost c :
  returns_ok c -> owned (discard retryCapMs pending isLost c) ->
  returns_ok (discard retryCapMs pending isLost c).
Proof.
  intros Hk Ho. destruct (discard_rounds retryCapMs pending isLost c) as (_ & _ & Et & Ex).
  eapply calm_same_returns; [apply calm_discard|done|done|done|rewrite Ex; eauto|].
  intros id. unfold discard. repeat case_match; try done; rewrite ?released_reserve; simpl;
    intros [?|?%list_elem_of_singleton]%elem_of_app; by simplify_eq.
Qed.

Lemma endTransaction_returns t outcome c :
  rounds_ok c -> returns_ok c -> owned (endTransaction retryCapMs t outcome c) ->
  returns_ok (endTransaction retryCapMs t outcome c).
Proof.
  intros Hr Hk Ho. destruct (endTransaction_calm t outcome c Hr) as [Hcalm [E|(c1 & Et & E)]].
  { by rewrite E. }
  eapply calm_returns; [exact Hcalm|done|done|]. rewrite E. intros t' tx id Ht Hl Hp. left.
  by eapply startNext_current.
Qed.

(** The close that waits is the only one, and none of its rounds is left. *)
Lemma closeResumes_returns i c :
  rounds_ok c -> returns_ok c -> owned (closeResumes i c) -> returns_ok (closeResumes i c).
Proof.
  intros Hr Hk Ho. pose proof Hk as [K1 K2 K3 K4]. unfold closeResumes in *.
  destruct (closes c !! i) as [rounds|] eqn:Ei; [|done].
  assert (Ecl : closes c = [rounds]).
  { destruct (closes c) as [|r0 [|r1 l]]; [done| |simpl in K2; lia].
    destruct i as [|i]; by simplify_eq/=. }
  destruct (forallb (isSettled c) rounds) eqn:Eall; simpl in *; [|done].
  assert (Hnone : closed c = true -> forall id, ~ unsettled c id).
  { intros Hc id Hu. destruct (K1 Hc id Hu) as (rs & Hin & Hid).
    rewrite Ecl, list_elem_of_singleton in Hin. subst. destruct Hu as [_ Hu].
    rewrite forallb_forall in Eall. rewrite Eall in Hu; [done|]. by apply list_elem_of_In. }
  assert (Edel : delete i [rounds] = []) by (rewrite Ecl in Ei; by destruct i; simplify_eq/=).
  assert (Hdel : forall c', closed c' = closed c -> closes c' = [] -> requests c' = requests c ->
            transaction c' = transaction c -> (closed c = true \/ parked c' = parked c) ->
            connects c' = connects c -> transactions c' = transactions c ->
            (closed c = false -> released c' = released c) -> returns_ok c').
  { intros c' E1 E2 E3 E4 E5 E6 E7 E8.
    assert (Hu : forall id, unsettled c' id -> unsettled c id).
    { intros id. unfold unsettled, isSettled, request_of. by rewrite E3. }
    split.
    - rewrite E1. intros Hc id Hid. by destruct (Hnone Hc id (Hu id Hid)).
    - rewrite E2. simpl. lia.
    - rewrite E1. intros Hc p _ _ id Hid. by destruct (Hnone Hc id (Hu id Hid)).
    - rewrite E4, E7. intros t tx id Ht Hl Hp. destruct (closed c) eqn:Ec.
      + rewrite idle_no_transaction in Ht; [done|done|]. by apply Hnone.
      + rewrite E8 by done. by eapply K4. }
  repeat case_match; apply Hdel; simpl; rewrite ?Ecl; try done; try by right; try by left.
  all: bool_to_prop; auto; try congruence.
Qed.

Lemma arrives_returns id c :
  rounds_ok c -> returns_ok c -> connects c !! id = Some Connecting ->
  owned c -> owned (connectArrives id c) -> returns_ok (connectArrives id c).
Proof.
  intros Hr Hk Hl Ho0 Ho. pose proof Hk as [K1 K2 K3 K4].
  destruct (connectArrives_rounds id c) as (Ew & Er & Et & Ex).
  assert (Hu : forall x, unsettled (connectArrives id c) x -> unsettled c x).
  { intros x. unfold unsettled, isSettled, request_of. by rewrite Er. }
  assert (Hc : closed (connectArrives id c) = closed c /\ closes (connectArrives id c) = closes c /\
               parked (connectArrives id c) = parked c /\
               connects (connectArrives id c) = <[id := Arrived]> (connects c) /\
               (forall x, (x, false) ∈ released (connectArrives id c) ->
                  (x, false) ∈ released c \/ closed c = true /\ id ∈ parked c)).
  { unfold connectArrives, becameReady, finishWaits, releaseClient.
    repeat case_match; split_and!; try done; try (by intros; left); simpl; bool_to_prop; simpl in *;
      intros x [?|?]%elem_of_app; auto; congruence. }
  destruct Hc as (E1 & E2 & E3 & E4 & E5). split; rewrite ?E1, ?E2, ?E3, ?E4, ?Et, ?Ex; auto.
  - intros Hc p Hp Hpl x Hx. apply (K3 Hc p Hp) with x; [|auto].
    destruct (decide (p = id)) as [->|Hne]; [done|]. by rewrite list_lookup_insert_ne in Hpl by done.
  - intros t tx x Ht Htx Hp [Hin|[Hc Hpk]]%E5; [by eapply K4|].
    rewrite idle_no_transaction in Ht; [done|done|]. by eapply K3.
Qed.

(** A step that changes neither the transactions nor the releases. *)
Lemma plain_returns c c' :
  calm c c' -> returns_ok c -> owned c' -> transaction c' = transaction c ->
  transactions c' = transactions c -> released c' = released c -> returns_ok c'.
Proof.
  intros ? ? ? ? E1 E2. apply (calm_same_returns c); try done; [rewrite E1; eauto|by rewrite E2].
Qed.

(** A new request is settled when the reservation is closed. *)
Lemma add_returns id r w c :
  returns_ok c -> rq_result r <> None \/ closed c = false ->
  returns_ok (c <| requests ::= <[id := r]> |> <| waiting := w |>).
Proof.
  intros [K1 K2 K3 K4] Hrw.
  assert (Hu : closed c = true -> forall x,
            unsettled (c <| requests ::= <[id := r]> |> <| waiting := w |>) x -> unsettled c x).
  { intros Hc x [Hx Hset]. destruct Hrw as [Hrw|?]; [|congruence].
    unfold unsettled, isSettled, request_of in *. simpl in *.
    destruct (decide (x = id)) as [->|Hne].
    - rewrite lookup_insert_eq in Hset. simpl in Hset. by bool_to_prop.
    - by rewrite lookup_insert_ne in Hx, Hset by done. }
  split; try done; simpl.
  - intros Hc x Hx. by apply K1, Hu.
  - intros Hc p Hp Hpl x Hx. by apply (K3 Hc p Hp Hpl x), Hu.
Qed.

Lemma renew_returns now id timeoutMs build c :
  returns_ok c -> owned c -> returns_ok (renew now id timeoutMs build c).
Proof.
  intros Hk Ho. unfold renew. destruct (closed c) eqn:Hc.
  { apply (add_returns id _ (waiting c)); [done|by left]. }
  destruct build as [batches|]; [|apply (add_returns id _ (waiting c)); [done|by left]].
  apply startNext_returns.
  - apply (add_returns id _ (waiting c ++ [id])); [done|by right].
  - apply owned_startNext, (owned_same c); [by apply same_connection_of|done].
Qed.

Lemma timedOut_returns id c :
  rounds_ok c -> owned c -> returns_ok c -> returns_ok (timedOut retryCapMs id c).
Proof.
  intros Hr Ho Hk. unfold timedOut. destruct (isSettled c id); [done|].
  set (c1 := c <| waiting ::= _ |>).
  assert (Halone : returns_ok (settle id (Throw RoundTimeout) c1)).
  { pose proof (settle_settles id (Throw RoundTimeout) c1) as Hset.
    apply (plain_returns c); try done; try (by rewrite (so_requests _ _ _ Hset)).
    - apply (calm_trans _ c1); [by apply calm_fields|]. by eapply calm_settles.
    - apply owned_settle, (owned_same c); [by apply same_connection_of|done]. }
  repeat case_match; first [done | apply endTransaction_returns; try done; by apply owned_endTransaction].
Qed.

Lemma fails_returns now id c : returns_ok c -> returns_ok (connectFails retryCapMs now id c).
Proof.
  intros [K1 K2 K3 K4]. destruct (connectFails_rounds retryCapMs now id c) as (_ & Er & Et & Ex).
  assert (Hc : closed (connectFails retryCapMs now id c) = closed c /\
               closes (connectFails retryCapMs now id c) = closes c /\
               parked (connectFails retryCapMs now id c) = parked c /\
               connects (connectFails retryCapMs now id c) = <[id := ConnectFailed]> (connects c) /\
               released (connectFails retryCapMs now id c) = released c).
  { unfold connectFails, scheduleRetry. by repeat case_match. }
  destruct Hc as (E1 & E2 & E3 & E4 & E5).
  split; unfold unsettled, isSettled, request_of in *; rewrite ?E1, ?E2, ?E3, ?E4, ?E5, ?Er, ?Et, ?Ex;
    try done.
  intros Hc p Hp Hpl. apply (K3 Hc p Hp). destruct (decide (p = id)) as [->|Hne].
  - destruct (decide (id < length (connects c))%nat) as [Hlt|Hge].
    + by rewrite list_lookup_insert_eq in Hpl.
    + apply lookup_lt_Some in Hpl. rewrite length_insert in Hpl. lia.
  - by rewrite list_lookup_insert_ne in Hpl by done.
Qed.

(** A transaction changes but keeps its client. *)
Lemma insert_returns t tx tx' w c :
  returns_ok c -> transactions c !! t = Some tx -> tx_pending tx' = tx_pending tx ->
  returns_ok (c <| waiting := w |> <| transactions ::= <[t := tx']> |>).
Proof.
  intros [K1 K2 K3 K4] Hl Hp. split; try done. simpl. intros t' x id Ht Hx Hid.
  destruct (decide (t' = t)) as [->|Hne].
  - rewrite list_lookup_insert_eq in Hx by (by eapply lookup_lt_Some). simplify_eq.
    eapply K4; eauto. congruence.
  - rewrite list_lookup_insert_ne in Hx by done. by eapply K4.
Qed.

Lemma close_returns c : returns_ok c -> closing c = false -> returns_ok (close c).
Proof.
  intros [K1 K2 K3 K4] Happ. unfold closing in Happ. apply orb_false_iff in Happ as [Hcl Hpk].
  apply bool_decide_eq_false in Hcl. destruct (closes c) as [|] eqn:Ecl; [|by destruct Hcl].
  split; simpl; try done; rewrite ?Ecl; simpl; try lia.
  - intros _ id [Hid Hset]. eexists. split; [left|]. unfold unsettledRounds. simpl.
    apply list_elem_of_filter. split; [done|]. simpl in Hid.
    destruct (requests c !! id) as [r|] eqn:Eid; [|done].
    apply list_elem_of_fmap. exists (id, r). split; [done|]. by apply elem_of_map_to_list.
  - intros _ p Hp Hpl. exfalso. apply not_true_iff_false in Hpk. apply Hpk, existsb_exists.
    exists p. split; [by apply list_elem_of_In|]. by apply bool_decide_eq_true.
Qed.

Lemma rc_step_returns c te :
  rounds_ok c -> owned c -> returns_ok c -> (te.2 = Close -> closing c = false) ->
  returns_ok (rc_step retryCapMs c te).
Proof.
  intros Hr Ho Hk Happ. pose proof (rc_step_owned retryCapMs c te Ho) as Ho'.
  destruct te as [now ev]. unfold rc_step in *. simpl in *. destruct ev.
  - destruct (transactions_reserve c).
    apply (plain_returns c); auto using calm_reserve, released_reserve.
  - case_match; [by apply renew_returns|done].
  - by apply timedOut_returns.
  - case_bool_decide; [by apply arrives_returns|done].
  - case_match; [by apply fails_returns|done].
  - unfold transactResumes in *. repeat case_match; try done.
    by apply (insert_returns t r _ (waiting c)).
  - repeat case_match; try done. unfold join in *. repeat case_match; try done. simplify_eq.
    by eapply insert_returns.
  - repeat case_match; try done. by apply endTransaction_returns.
  - case_match; [by apply discard_returns|done].
  - unfold retryTimerFires in *. repeat case_match; try done.
    + apply (plain_returns c); try done; try by apply calm_fields.
    + set (c1 := c <| retryTimer := None |>) in *. destruct (transactions_reserve c1).
      apply (plain_returns c); try done; [|by rewrite released_reserve].
      apply (calm_trans _ c1); [by apply calm_fields|apply calm_reserve].
  - unfold ready in *.
    repeat case_match; try done;
      try solve [apply (plain_returns c); try done; by apply calm_fields].
    destruct (transactions_reserve c).
    apply (plain_returns c); try done; simpl; [|by rewrite released_reserve].
    apply (calm_trans _ (reserve c)); [apply calm_reserve|by apply calm_fields].
  - unfold finishWait in *.
    repeat case_match; try done; apply (plain_returns c); try done; try by apply calm_fields.
  - unfold finishWait in *.
    repeat case_match; try done; apply (plain_returns c); try done; try by apply calm_fields.
  - apply close_returns; auto.
  - by apply closeResumes_returns.
  - destruct Hk. unfold reopen, becameReady, finishWaits in *. repeat case_match; by split.
Qed.

Lemma rc_run_returns evs : forall c,
  rounds_ok c -> owned c -> returns_ok c -> closes_apart c evs ->
  let c' := rc_run retryCapMs c evs in rounds_ok c' /\ owned c' /\ returns_ok c'.
Proof.
  induction evs as [|te evs IH]; intros c Hr Ho Hk; simpl; [done|]. intros [Happ Hrest].
  apply IH; [by apply rc_step_rounds|by apply rc_step_owned|by apply rc_step_returns|done].
Qed.
End returning.

(** ** Splitting the rows of one statement *)

(** A member gets the rows of its own batches, renumbered. *)
Lemma memberRows_spec first count rows r' :
  r' ∈ memberRows first count rows <->
  exists r, r ∈ rows /\ first < row_batch r <= first + count /\
            r' = mkRow (row_batch r - first) (row_task_id r) (row_status r).
Proof.
  unfold memberRows. rewrite list_elem_of_fmap. split.
  - intros (r & -> & [Hb Hr]%list_elem_of_filter). eauto.
  - intros (r & Hr & Hb & ->). exists r. split; [done|]. by apply list_elem_of_filter.
Qed.

Lemma resolveMembers_result pre : forall offset m post rows c,
  NoDup (pre ++ m :: post) -> requests c !! m <> None -> isSettled c m = false ->
  let c' := resolveMembers offset (pre ++ m :: post) rows c in
  let before := Z.of_nat (length (concat (map (fun x => rq_batches (request_of c x)) pre))) in
  rq_result (request_of c' m) =
    Some (Ret (memberRows (offset + before) (Z.of_nat (length (rq_batches (request_of c m)))) rows)).
Proof.
  induction pre as [|p pre IH]; intros offset m post rows c Hnd Hm Hs; simpl.
  - rewrite Z.add_0_r. pose proof (settle_settles m (Ret (memberRows offset
      (Z.of_nat (length (rq_batches (request_of c m)))) rows)) c) as H1.
    set (c1 := settle m _ c) in *.
    apply NoDup_cons in Hnd as [Hn _].
    rewrite (so_other _ _ _ (settles_resolve _ _ _ _)) by done.
    unfold c1, settle. rewrite Hs. unfold request_of. simpl. rewrite lookup_alter_eq.
    by destruct (requests c !! m).
  - apply NoDup_cons in Hnd as [Hn Hnd]. rewrite elem_of_app, elem_of_cons in Hn.
    set (c1 := settle p _ c). pose proof (settle_settles p (Ret (memberRows offset
      (Z.of_nat (length (rq_batches (request_of c p)))) rows)) c) as H1. fold c1 in H1.
    assert (Hreq : request_of c1 m = request_of c m).
    { apply (so_other _ _ _ H1). rewrite list_elem_of_singleton. naive_solver. }
    rewrite (IH _ m post rows c1 Hnd).
    + do 3 f_equal; [|by rewrite Hreq]. rewrite length_app, Nat2Z.inj_add, Z.add_assoc.
      do 4 f_equal. apply map_ext. intros x. apply (so_batches _ _ _ H1).
    + by rewrite (so_dom _ _ _ H1).
    + by rewrite (isSettled_same c c1).
Qed.

(** Position [b] of the member's own batches is position [offset + b] of the
    statement. *)
Lemma flat_batch_lookup {A} (pre : list (list A)) (own : list A) post b :
  0 < b <= Z.of_nat (length own) ->
  concat (pre ++ own :: post) !! Z.to_nat (Z.of_nat (length (concat pre)) + b - 1) =
  own !! Z.to_nat (b - 1).
Proof.
  intros Hb. rewrite concat_app. simpl. rewrite lookup_app_r by lia.
  replace (Z.to_nat (Z.of_nat (length (concat pre)) + b - 1) - length (concat pre))%nat
    with (Z.to_nat (b - 1)) by lia.
  rewrite lookup_app_l; [done|]. lia.
Qed.

(** ** Every round ends *)
Section ends.
Variable retryCapMs : option Z.

Lemma endTransaction_members t tx outcome c m :
  rounds_ok c -> transactions c !! t = Some tx -> tx_ended tx = false -> m ∈ tx_members tx ->
  requests c !! m <> None -> ~ unsettled (endTransaction retryCapMs t outcome c) m.
Proof.
  intros [Hr _] Htx He Hm Hdom. unfold endTransaction. rewrite Htx, He. cbn -[startNext].
  rewrite bool_decide_true by (by eapply rp_only).
  set (c1 := c <| transactions ::= _ |> <| transaction := None |>).
  intros Hu. apply (calm_startNext _) in Hu. destruct outcome as [rows|error].
  - destruct Hu as [_ Hu]. by rewrite (so_done _ _ _ (settles_resolve _ _ _ _) m) in Hu.
  - apply (calm_reserve _) in Hu. destruct Hu as [_ Hu].
    rewrite (so_done _ _ _ (settles_fold _ _ _) m) in Hu; [done|done|].
    assert (Hreq : forall p, requests (discard retryCapMs p false c1) = requests c1)
      by (intros p; by destruct (discard_rounds retryCapMs p false c1) as (_ & ? & _)).
    repeat case_match; try done; by rewrite Hreq.
Qed.

Lemma timedOut_settles id c : rounds_ok c -> ~ unsettled (timedOut retryCapMs id c) id.
Proof.
  intros Hr. unfold timedOut. destruct (isSettled c id) eqn:Es; [intros [_ ?]; congruence|].
  set (c1 := c <| waiting ::= _ |>).
  assert (Halone : ~ unsettled (settle id (Throw RoundTimeout) c1) id).
  { pose proof (settle_settles id (Throw RoundTimeout) c1) as H. intros [Hd Hu].
    rewrite (so_done _ _ _ H) in Hu; [done|by apply list_elem_of_singleton|].
    by rewrite <- (so_dom _ _ _ H). }
  destruct (transaction c) as [t|] eqn:Et; [|done].
  destruct (rp_current _ (proj1 Hr) t Et) as (tx & Htx & [Hopen Hl _ _ Hm]). rewrite Htx.
  case_bool_decide as Hlead; [|done]. subst id.
  eapply endTransaction_members; try done. by apply Hm.
Qed.
End ends.

(** ** The gate after a loss, and keeping the reservation *)
Section gate.
Variable retryCapMs : option Z.
Implicit Types c : Reserved.

(** Readiness was lost and no client has arrived since. *)
Definition gone c : Prop := lost c = true /\ connected c = None.

Lemma gone_not_usable c : gone c -> usable c = false.
Proof.
  intros [Hl Hc]. unfold usable. rewrite Hl, Hc. by rewrite andb_false_r.
Qed.

Definition same_loss c c' : Prop := lost c' = lost c /\ connected c' = connected c.
Lemma gone_same c c' : same_loss c c' -> gone c -> gone c'.
Proof. intros [E1 E2]. unfold gone. by rewrite E1, E2. Qed.
Lemma reserve_loss c : same_loss c (reserve c).
Proof. unfold reserve, acquire. by repeat case_match. Qed.
Lemma startNext_loss c : same_loss c (startNext c).
Proof.
  unfold startNext. repeat case_match; try done.
  match goal with H : acquire ?x = _ |- _ => unfold acquire in H end.
  repeat case_match; simplify_eq; done.
Qed.
Lemma gone_discard p l c : gone c -> gone (discard retryCapMs p l c).
Proof.
  intros [Hl Hc]. unfold discard. repeat case_match; try done.
  eapply gone_same; [apply reserve_loss|]. done.
Qed.
Lemma gone_endTransaction t outcome c : gone c -> gone (endTransaction retryCapMs t outcome c).
Proof.
  intros Hg. unfold endTransaction. destruct (transactions c !! t) as [tx|]; [|done].
  destruct (tx_ended tx); [done|]. eapply gone_same; [apply startNext_loss|].
  set (c1 := if bool_decide _ then _ else _).
  assert (Hg1 : gone c1) by (unfold c1; by case_match). clearbody c1.
  destruct outcome as [rows|error].
  - rewrite (so_requests _ _ _ (settles_resolve _ _ _ _)). done.
  - eapply gone_same; [apply reserve_loss|]. rewrite (so_requests _ _ _ (settles_fold _ _ _)).
    set (cd := match tx_pending tx with Some _ => _ | None => _ end).
    assert (Hgd : gone cd) by (unfold cd; repeat case_match; try done; by apply gone_discard).
    exact Hgd.
Qed.

Lemma rc_step_gone c te :
  (forall id, te.2 <> ConnectArrives id) -> gone c -> gone (rc_step retryCapMs c te).
Proof.
  intros Hne Hg. destruct te as [now ev]. unfold rc_step. simpl in *.
  destruct ev; try (by destruct (Hne id)).
  - eapply gone_same; [apply reserve_loss|done].
  - unfold renew. repeat case_match; try done. eapply gone_same; [apply startNext_loss|done].
  - unfold timedOut. repeat case_match; try done; try (by apply gone_endTransaction);
      rewrite (so_requests _ _ _ (settle_settles _ _ _)); done.
  - unfold connectFails, scheduleRetry. by repeat case_match.
  - unfold transactResumes. by repeat case_match.
  - unfold join. by repeat case_match.
  - repeat case_match; try done. by apply gone_endTransaction.
  - case_match; [by apply gone_discard|done].
  - unfold retryTimerFires. repeat case_match; try done. eapply gone_same; [apply reserve_loss|]. exact Hg.
  - unfold ready. repeat case_match; try done. eapply gone_same; [apply (reserve_loss c)|]. exact Hg.
  - unfold finishWait. by repeat case_match.
  - unfold finishWait. by repeat case_match.
  - done.
  - unfold closeResumes. by repeat case_match.
  - destruct Hg as [Hl Hc]. unfold reopen. simpl. rewrite Hc, bool_decide_false; [done|]. by intros [].
Qed.

(** The reservation is held or a retry is armed. *)
Definition kept c : Prop := closed c = false /\ (client c <> None \/ retryTimer c <> None).

Lemma kept_reserve c : closed c = false -> kept (reserve c).
Proof.
  intros Hc. unfold reserve, acquire. rewrite !Hc. unfold kept. case_match; simpl; [|by auto].
  split; [done|]. left. congruence.
Qed.
Lemma kept_startNext c : kept c -> kept (startNext c).
Proof.
  intros [Hc Hk]. unfold startNext. repeat case_match; try done.
  match goal with H : acquire _ = _ |- _ => unfold acquire in H; simpl in H; rewrite Hc in H end.
  unfold kept. repeat case_match; simplify_eq/=; split; auto. left. congruence.
Qed.

Lemma kept_endTransaction t outcome c : kept c -> kept (endTransaction retryCapMs t outcome c).
Proof.
  intros Hk. unfold endTransaction. destruct (transactions c !! t) as [tx|]; [|done].
  destruct (tx_ended tx); [done|]. apply kept_startNext.
  set (c1 := if bool_decide _ then _ else _).
  assert (Hk1 : kept c1) by (unfold c1; by case_match). clearbody c1.
  destruct outcome as [rows|error].
  - rewrite (so_requests _ _ _ (settles_resolve _ _ _ _)). done.
  - apply kept_reserve. rewrite (so_requests _ _ _ (settles_fold _ _ _)). simpl.
    unfold discard. repeat case_match; simpl in *; try done; apply Hk1.
Qed.

Lemma rc_step_kept c te :
  retryCapMs <> None -> te.2 <> Close -> kept c -> kept (rc_step retryCapMs c te).
Proof.
  intros Hcap Hne Hk. pose proof Hk as [Hc Hor]. destruct te as [now ev]. unfold rc_step. simpl in *.
  destruct ev; try done.
  - by apply kept_reserve.
  - unfold renew. rewrite Hc. repeat case_match; try done. by apply kept_startNext.
  - unfold timedOut. repeat case_match; try done; try (by apply kept_endTransaction);
      rewrite (so_requests _ _ _ (settle_settles _ _ _)); done.
  - case_match; [|done]. unfold connectArrives. simpl. unfold kept, becameReady, finishWaits.
    repeat case_match; simpl in *; bool_to_prop; try congruence; auto.
  - case_match; [|done]. unfold connectFails, scheduleRetry. simpl. unfold kept.
    destruct retryCapMs as [cap|]; [|done]. rewrite Hc. simpl.
    repeat case_match; simpl; bool_to_prop; auto; split; auto.
  - unfold transactResumes. by repeat case_match.
  - unfold join. by repeat case_match.
  - repeat case_match; try done. by apply kept_endTransaction.
  - case_match; [|done]. unfold discard. destruct retryCapMs; [|done].
    case_match; [done|]. by apply kept_reserve.
  - unfold retryTimerFires. repeat case_match; try done; [|by apply kept_reserve].
    split; [done|]. left. simpl in *. congruence.
  - unfold ready. repeat case_match; try done. by apply (kept_reserve c).
  - unfold finishWait. by repeat case_match.
  - unfold finishWait. by repeat case_match.
  - unfold closeResumes. simpl. rewrite Hc. by repeat case_match.
  - unfold reopen, becameReady, finishWaits, kept. by repeat case_match.
Qed.
End gate.

(** ** Properties *)

(** C14: No heartbeat round is lost on the shared connection.  In every run,
    while a round is not settled exactly one transaction is in flight; the
    round is a member of it, and then the deadline that bounds the transaction
    is not later than its own, or it waits for it; and the round's own timer
    settles it in every case. *)
Theorem no_round_is_lost retryCapMs evs id :
  let c := rc_run retryCapMs newReserved evs in
  unsettled c id ->
  (exists t tx, transaction c = Some t /\ transactions c !! t = Some tx /\
     isSettled c (tx_leader tx) = false /\
     (forall t' tx', transactions c !! t' = Some tx' -> tx_ended tx' = false -> t' = t) /\
     (id ∈ waiting c \/
      id ∈ tx_members tx /\
      rq_deadline (request_of c (tx_leader tx)) <= rq_deadline (request_of c id))) /\
  ~ unsettled (timedOut retryCapMs id c) id.
Proof.
  intros c [Hid Hs]. pose proof (rc_run_rounds retryCapMs evs) as Hok. fold c in Hok.
  split; [|by apply timedOut_settles].
  destruct Hok as [[Hd Hn Hp Hc Ho] Hidle].
  assert (Ht : exists t, transaction c = Some t).
  { destruct (transaction c) as [t|] eqn:Et; [eauto|].
    destruct (Hp id Hid Hs) as [Hw|(t & tx & ? & _)]; [|congruence].
    rewrite Hidle in Hw by done. by apply elem_of_nil in Hw. }
  destruct Ht as [t Et]. destruct (Hc t Et) as (tx & Htx & [Hopen Hl Hu _ Hm]).
  exists t, tx. split_and!; try done.
  - intros t' tx' Hl' Ho'. specialize (Ho t' tx' Hl' Ho'). congruence.
  - destruct (Hp id Hid Hs) as [Hw|(t' & tx' & ? & ? & Hin)]; [by left|right].
    simplify_eq. split; [done|]. by apply Hm.
Qed.

Definition two_rounds : list (Z * rc_event) :=
  [(ms 1, Reserve); (ms 2, ConnectArrives 0);
   (ms 3, Renew 10 7500 (Some [1; 2]%nat)); (ms 4, Renew 11 8000 (Some [3]%nat));
   (ms 5, TransactResumes 0); (ms 6, TransactJoins 0)].

Lemma no_round_is_lost_witness :
  let c := rc_run (Some 10000) newReserved two_rounds in
  (exists t tx, transaction c = Some t /\ transactions c !! t = Some tx /\
     isSettled c (tx_leader tx) = false /\
     (forall t' tx', transactions c !! t' = Some tx' -> tx_ended tx' = false -> t' = t) /\
     (11%nat ∈ waiting c \/
      11%nat ∈ tx_members tx /\
      rq_deadline (request_of c (tx_leader tx)) <= rq_deadline (request_of c 11%nat))) /\
  ~ unsettled (timedOut (Some 10000) 11%nat c) 11%nat.
Proof.
  apply (no_round_is_lost (Some 10000) two_rounds 11%nat). vm_compute. by split.
Defined.

(** C32: Each round of a shared statement gets exactly its own rows.  When the
    statement of a transaction answers, an unsettled member resolves with the
    rows of its own batches and no others, numbered within them: row [b] of the
    member is the row of the statement for the batch that stands at position
    [b] of the member's own batches. *)
Theorem member_gets_its_rows pre m post rows c
    (Hnd : NoDup (pre ++ m :: post)) (Hm : requests c !! m <> None)
    (Hs : isSettled c m = false) :
  let batches x := rq_batches (request_of c x) in
  let offset := Z.of_nat (length (concat (map batches pre))) in
  exists mine,
    rq_result (request_of (resolveMembers 0 (pre ++ m :: post) rows c) m) = Some (Ret mine) /\
    (forall r', r' ∈ mine <->
       exists r, r ∈ rows /\ r' = mkRow (row_batch r - offset) (row_task_id r) (row_status r) /\
                 0 < row_batch r' <= Z.of_nat (length (batches m))) /\
    (forall r', r' ∈ mine ->
       concat (map batches (pre ++ m :: post)) !! Z.to_nat (offset + row_batch r' - 1) =
       batches m !! Z.to_nat (row_batch r' - 1)).
Proof.
  intros batches offset. eexists. split; [by apply resolveMembers_result|]. fold batches offset.
  rewrite Z.add_0_l.
  assert (Hmine : forall r', r' ∈ memberRows offset (Z.of_nat (length (batches m))) rows <->
            exists r, r ∈ rows /\ r' = mkRow (row_batch r - offset) (row_task_id r) (row_status r) /\
                      0 < row_batch r' <= Z.of_nat (length (batches m))).
  { intros r'. rewrite memberRows_spec.
    split; intros (r & Hr & H1 & H2); exists r; subst; simpl in *; split_and!; try done; lia. }
  split; [done|]. intros r' (r & _ & _ & Hb)%Hmine. rewrite map_app. simpl.
  unfold offset. by apply flat_batch_lookup.
Qed.

Lemma member_gets_its_rows_witness :
  let c := rc_run (Some 10000) newReserved two_rounds in
  let rows := [mkRow 1 "a" HB.accepted; mkRow 3 "b" HB.busy; mkRow 2 "c" HB.stale] in
  let batches x := rq_batches (request_of c x) in
  let offset := Z.of_nat (length (concat (map batches [10%nat]))) in
  exists mine,
    rq_result (request_of (resolveMembers 0 ([10%nat] ++ 11%nat :: []) rows c) 11%nat)
      = Some (Ret mine) /\
    (forall r', r' ∈ mine <->
       exists r, r ∈ rows /\ r' = mkRow (row_batch r - offset) (row_task_id r) (row_status r) /\
                 0 < row_batch r' <= Z.of_nat (length (batches 11%nat))) /\
    (forall r', r' ∈ mine ->
       concat (map batches ([10%nat] ++ 11%nat :: [])) !! Z.to_nat (offset + row_batch r' - 1) =
       batches 11%nat !! Z.to_nat (row_batch r' - 1)).
Proof.
  apply (member_gets_its_rows [10%nat] 11%nat []).
  - simpl. apply NoDup_cons_2; [|apply NoDup_singleton]. by intros ?%list_elem_of_singleton.
  - vm_compute. discriminate.
  - vm_compute. reflexivity.
Defined.

(** C30: Every client of the reservation has exactly one owner.  In every run
    at most one connect is pending, and it is the one the reservation holds; a
    client that arrived is held, or was released, exactly once and never both;
    so no connection leaks and none is released twice. *)
Theorem every_client_has_one_owner retryCapMs evs :
  let c := rc_run retryCapMs newReserved evs in
  NoDup (released c).*1 /\
  (forall id, connects c !! id = Some Connecting -> client c = Some id) /\
  (forall id, connects c !! id = Some Arrived ->
     (client c = Some id <-> id ∉ (released c).*1)) /\
  (forall id, id ∈ (released c).*1 -> connects c !! id = Some Arrived) /\
  (forall id, connected c = Some id <-> client c = Some id /\ connects c !! id = Some Arrived).
Proof.
  intros c. destruct (rc_run_owned retryCapMs evs) as [H1 H2 H3 H4 H5 H6 H7]. fold c in H1, H2, H3, H4, H5, H6.
  split_and!; try done. intros id Ha. split.
  - intros Hc. by apply H1.
  - intros Hn. by destruct (H3 id Ha).
Qed.

(** C31: A client is never returned to the pool while a transaction uses it, as
    long as no [close()] starts while an earlier one is still under way. *)
Theorem client_not_returned_in_use retryCapMs evs
    (Hapart : closes_apart retryCapMs newReserved evs) :
  let c := rc_run retryCapMs newReserved evs in
  forall t tx id, transaction c = Some t -> transactions c !! t = Some tx ->
    tx_pending tx = Some id -> (id, false) ∉ released c.
Proof.
  intros c. destruct (rc_run_returns retryCapMs evs newReserved) as (_ & _ & [_ _ _ H]); try done.
  - apply (rc_run_rounds retryCapMs []).
  - apply (rc_run_owned retryCapMs []).
  - split; simpl; try done. lia.
Qed.

Lemma client_not_returned_in_use_witness :
  (0%nat, false) ∉ released (rc_run (Some 10000) newReserved (two_rounds ++ [(ms 7, Close)])).
Proof.
  apply (client_not_returned_in_use (Some 10000) (two_rounds ++ [(ms 7, Close)])) with
    (t := 0%nat) (tx := mkTransaction 10 [10; 11]%nat (Some 0%nat) true false).
  all: vm_compute; repeat split; try discriminate; reflexivity.
Defined.

(** The pool is exhausted while a first worker opens and closes the
    reservation; a second worker reopens it, starts a round and closes. *)
Definition overlapping_closes : list (Z * rc_event) :=
  [(ms 1, Reserve); (ms 2, Close); (ms 2, CloseResumes 0);
   (ms 3, Reopen); (ms 4, Renew 10 7500 (Some [1]%nat)); (ms 5, Close);
   (ms 6, ConnectArrives 0); (ms 6, TransactResumes 0)].


(** A lost connection closes the claim gate until a replacement arrives.
    When the held client fails between rounds, [usable()] is false after every
    sequence of later events in which no connect succeeds, closes and reopens
    included. *)
Theorem gate_stays_closed_after_loss retryCapMs evs0 id now evs
    (Hheld : client (rc_run retryCapMs newReserved evs0) = Some id)
    (Harrived : connects (rc_run retryCapMs newReserved evs0) !! id = Some Arrived)
    (Hnone : Forall (fun te => forall id, te.2 <> ConnectArrives id) evs) :
  usable (rc_run retryCapMs newReserved (evs0 ++ (now, ClientError id) :: evs)) = false.
Proof.
  unfold rc_run in *. rewrite run_app. set (c := run _ _ evs0) in *. simpl.
  apply gone_not_usable. apply (run_invariant_on (rc_step retryCapMs) gone
    (fun te => forall id, te.2 <> ConnectArrives id)); [|done|].
  - intros s te Hte. by apply rc_step_gone.
  - unfold rc_step. simpl. rewrite (bool_decide_true (_ !! _ = _)) by done. unfold discard.
    rewrite (bool_decide_true (client c = _)) by done. simpl.
    destruct retryCapMs; [|done]. by eapply gone_same; [apply reserve_loss|].
Qed.

Lemma gate_stays_closed_after_loss_witness :
  usable (rc_run (Some 10000) newReserved
            ([(ms 1, Reserve); (ms 2, ConnectArrives 0)] ++
             (ms 3, ClientError 0) :: [(ms 4, ConnectFails 1); (ms 104, RetryTimerFires)])) = false.
Proof.
  apply (gate_stays_closed_after_loss (Some 10000)); [vm_compute; reflexivity..|].
  repeat constructor; simpl; discriminate.
Defined.

(** With readiness keeping the reservation is never abandoned.  From the
    first [reserve()] until a [close()], after every sequence of losses, failed
    connects, failed rounds and timers the connection is held or connecting, or
    a retry is armed. *)
Theorem reservation_is_kept capMs evs0 now evs
    (Hopen : closed (rc_run (Some capMs) newReserved evs0) = false)
    (Hnoclose : Forall (fun te => te.2 <> Close) evs) :
  let c := rc_run (Some capMs) newReserved (evs0 ++ (now, Reserve) :: evs) in
  client c <> None \/ retryTimer c <> None.
Proof.
  unfold rc_run. rewrite run_app. simpl.
  apply (run_invariant_on (rc_step (Some capMs)) kept (fun te => te.2 <> Close)); [|done|].
  - intros s te Hte. by apply rc_step_kept.
  - by apply kept_reserve.
Qed.

Lemma reservation_is_kept_witness :
  let c := rc_run (Some 10000) newReserved
             ([] ++ (ms 1, Reserve) :: [(ms 2, ConnectFails 0)]) in
  client c <> None \/ retryTimer c <> None.
Proof.
  apply (reservation_is_kept 10000 [] (ms 1)); [reflexivity|]. repeat constructor; discriminate.
Defined.
