(* ===== verification/Borrow.v ===== *)
(** * Borrowing one ordinary connection

    Model of [borrowAcquisition], [parkBorrow], [unpark] and
    [borrowConnectionWithin] of [typescript/core/src/heartbeat-connection.ts].

    Borrows and connects are objects named by numbers.  [Promise.race] keeps
    the first of its promises that settles; a borrow resumes in a later event,
    so other events can come between the settlement and the resumption. *)

From S2P Require Import Prelude Types.

Inductive stop_reason : Set := timeout | aborted_.

(** How the first race ended: the connect reached the borrow, failed, or the
    wait stopped. *)
Inductive arrival : Set := Delivered | ConnectError | WaitStopped (why : stop_reason).
(** How the second race ended. *)
Inductive outcome : Set := WorkDone | WorkFailed | WorkStopped (why : stop_reason).

Inductive phase : Set :=
| Waiting (raced : option arrival)
| Using (raced : option outcome)
| Finished.

Record borrow : Set := mkBorrow {
  br_acquisition : nat;
  br_received : bool;
  br_stopped : option stop_reason;
  br_phase : phase;
}.
#[export] Instance eta_borrow : Eta borrow := fun b =>
  mkBorrow (br_acquisition b) (br_received b) (br_stopped b) (br_phase b).

(** [BorrowAcquisition]; [aq_arrived] tells how it settled. *)
Record acquisition : Set := mkAcquisition {
  aq_waiter : option nat;
  aq_settled : bool;
  aq_arrived : bool;
}.
#[export] Instance eta_acquisition : Eta acquisition := fun a =>
  mkAcquisition (aq_waiter a) (aq_settled a) (aq_arrived a).

Record Pool : Type := mkPool {
  acquisitions : list acquisition;
  parkedBorrows : list nat;
  borrows : gmap nat borrow;
  returned : list (nat * bool);       (* releases: the connect, and whether it was destroyed *)
}.
#[export] Instance eta_Pool : Eta Pool := fun p =>
  mkPool (acquisitions p) (parkedBorrows p) (borrows p) (returned p).

Definition newPool : Pool := mkPool [] [] ∅ [].

Definition set_acquisition (a : nat) (f : acquisition -> acquisition) (p : Pool) : Pool :=
  p <| acquisitions ::= alter f a |>.
Definition set_borrow (b : nat) (f : borrow -> borrow) (p : Pool) : Pool :=
  p <| borrows ::= alter f b |>.
Definition release (a : nat) (destroyed : bool) (p : Pool) : Pool :=
  p <| returned ::= fun l => l ++ [(a, destroyed)] |>.
Definition unpark (a : nat) (p : Pool) : Pool :=
  p <| parkedBorrows ::= remove_first (fun x => bool_decide (x = a)) |>.

(** [borrowAcquisition]: the oldest parked connect, or a new one. *)
Definition borrowAcquisition (p : Pool) : Pool * nat :=
  match parkedBorrows p with
  | a :: rest => (p <| parkedBorrows := rest |>, a)
  | [] => (p <| acquisitions ::= fun l => l ++ [mkAcquisition None false false] |>,
           length (acquisitions p))
  end.

(** The start of [borrowConnectionWithin]. *)
Definition startBorrow (b : nat) (signalAborted : bool) (p : Pool) : Pool :=
  let '(p, a) := borrowAcquisition p in
  let p := set_acquisition a (fun x => x <| aq_waiter := Some b |>) p in
  p <| borrows ::= <[b := mkBorrow a false (if signalAborted then Some aborted_ else None)
                            (Waiting (if signalAborted then Some (WaitStopped aborted_)
                                      else None))]> |>.

Definition race_arrival (r : arrival) (x : borrow) : borrow :=
  match br_phase x with
  | Waiting None => x <| br_phase := Waiting (Some r) |>
  | _ => x
  end.

(** The connect settles: the borrow that waits gets it, or it goes back. *)
Definition connectSettles (a : nat) (ok : bool) (p : Pool) : Pool :=
  match acquisitions p !! a with
  | None => p
  | Some x =>
      if aq_settled x then p
      else
        let p := set_acquisition a (fun x => x <| aq_settled := true |> <| aq_arrived := ok |>
                                               <| aq_waiter := None |>) (unpark a p) in
        match aq_waiter x with
        | Some b =>
            set_borrow b (fun y => if ok then race_arrival Delivered (y <| br_received := true |>)
                                   else race_arrival ConnectError y) p
        | None => if ok then release a false p else p
        end
  end.

(** The [stopped] promise resolves, once. *)
Definition stops (b : nat) (why : stop_reason) (p : Pool) : Pool :=
  set_borrow b (fun y =>
    match br_stopped y with
    | Some _ => y
    | None =>
        let y := y <| br_stopped := Some why |> in
        match br_phase y with
        | Waiting None => y <| br_phase := Waiting (Some (WaitStopped why)) |>
        | Using None => y <| br_phase := Using (Some (WorkStopped why)) |>
        | _ => y
        end
    end) p.

(** The borrow resumes after the first race. *)
Definition resumes (b : nat) (p : Pool) : Pool :=
  match borrows p !! b with
  | Some y =>
      let a := br_acquisition y in
      match br_phase y with
      | Waiting (Some (WaitStopped _)) =>
          let p := if br_received y then release a false p
                   else match acquisitions p !! a with
                        | Some x =>
                            if bool_decide (aq_waiter x <> None) then
                              let p := set_acquisition a (fun x => x <| aq_waiter := None |>) p in
                              if aq_settled x then p else p <| parkedBorrows ::= fun l => l ++ [a] |>
                            else p
                        | None => p
                        end in
          set_borrow b (fun y => y <| br_phase := Finished |>) p
      | Waiting (Some Delivered) =>
          set_borrow b (fun y => y <| br_phase := Using (match br_stopped y with
                                                         | Some why => Some (WorkStopped why)
                                                         | None => None
                                                         end) |>) p
      | Waiting (Some ConnectError) => set_borrow b (fun y => y <| br_phase := Finished |>) p
      | _ => p
      end
  | None => p
  end.

(** The operation settles. *)
Definition workSettles (b : nat) (ok : bool) (p : Pool) : Pool :=
  set_borrow b (fun y => match br_phase y with
                         | Using None =>
                             y <| br_phase := Using (Some (if ok then WorkDone else WorkFailed)) |>
                         | _ => y
                         end) p.

(** The borrow resumes after the second race and releases its connection; an
    operation that failed or still runs destroys it. *)
Definition finishes (b : nat) (p : Pool) : Pool :=
  match borrows p !! b with
  | Some y =>
      match br_phase y with
      | Using (Some o) =>
          set_borrow b (fun y => y <| br_phase := Finished |>)
            (release (br_acquisition y) (match o with WorkDone => false | _ => true end) p)
      | _ => p
      end
  | None => p
  end.

Inductive borrow_event : Set :=
| StartBorrow (b : nat) (signalAborted : bool)
| ConnectSettles (a : nat) (ok : bool)
| Stops (b : nat) (why : stop_reason)
| Resumes (b : nat)
| WorkSettles (b : nat) (ok : bool)
| Finishes (b : nat).

Definition borrow_step (p : Pool) (e : borrow_event) : Pool :=
  match e with
  | StartBorrow b signalAborted =>
      if bool_decide (borrows p !! b = None) then startBorrow b signalAborted p else p
  | ConnectSettles a ok => connectSettles a ok p
  | Stops b why => stops b why p
  | Resumes b => resumes b p
  | WorkSettles b ok => workSettles b ok p
  | Finishes b => finishes b p
  end.

Definition borrow_run : Pool -> list borrow_event -> Pool := run borrow_step.

(** ** One owner for every connect

    [place] names the owner of a connect: the borrow that waits for it or uses
    it, the parking list, or nobody once it went back or failed. *)
Inductive place : Set :=
| PWaited (b : nat) | PParked | POwned (b : nat) | PReturned | PFailed.

Definition acquisition_ok (pl : place) (x : acquisition) : Prop :=
  match pl with
  | PWaited b => x = mkAcquisition (Some b) false false
  | PParked => x = mkAcquisition None false false
  | POwned _ | PReturned => x = mkAcquisition None true true
  | PFailed => x = mkAcquisition None true false
  end.

Definition borrow_ok (pl : nat -> place) (b : nat) (y : borrow) : Prop :=
  let at_ := pl (br_acquisition y) in
  match br_phase y, br_received y with
  | Finished, _ => True
  | Waiting (Some ConnectError), false => at_ = PFailed
  | Using _, true | Waiting (Some Delivered), true | Waiting (Some (WaitStopped _)), true =>
      at_ = POwned b
  | Waiting None, false => at_ = PWaited b
  | Waiting (Some (WaitStopped _)), false => at_ = PWaited b \/ at_ = PFailed
  | _, _ => False
  end.

(** A borrow that owns a connection is not finished. *)
Record consistent (p : Pool) (pl : nat -> place) : Prop := {
  co_acquisition : forall a x, acquisitions p !! a = Some x ->
    acquisition_ok (pl a) x /\
    match pl a with
    | PWaited b | POwned b =>
        exists y, borrows p !! b = Some y /\ br_acquisition y = a /\ br_phase y <> Finished
    | _ => True
    end;
  co_borrow : forall b y, borrows p !! b = Some y ->
    borrow_ok pl b y /\ (br_acquisition y < length (acquisitions p))%nat;
  co_parked : forall a, a ∈ parkedBorrows p <-> (a < length (acquisitions p))%nat /\ pl a = PParked;
  co_parked_once : NoDup (parkedBorrows p);
  co_returned : forall a, a ∈ (returned p).*1 <-> (a < length (acquisitions p))%nat /\ pl a = PReturned;
  co_returned_once : NoDup (returned p).*1;
}.

Definition replace (pl : nat -> place) (a : nat) (q : place) : nat -> place :=
  fun a' => if decide (a' = a) then q else pl a'.
Lemma replace_eq pl a q : replace pl a q a = q.
Proof. unfold replace. by rewrite decide_True. Qed.
Lemma replace_ne pl a a' q : a' <> a -> replace pl a q a' = pl a'.
Proof. intros. unfold replace. by rewrite decide_False. Qed.

(** The place of a connect that this borrow has does not matter to others. *)
Lemma borrow_ok_other pl a q b y :
  pl a <> PFailed -> pl a <> PWaited b -> pl a <> POwned b ->
  borrow_ok pl b y -> borrow_ok (replace pl a q) b y.
Proof.
  intros H1 H2 H3. unfold borrow_ok. destruct (decide (br_acquisition y = a)) as [->|Hne].
  - repeat case_match; try done; naive_solver.
  - by rewrite replace_ne.
Qed.

(** One connect changes its place and at most one borrow changes: the list of
    parked connects and the releases change only for that connect. *)
Lemma consistent_update p p' pl a x x' b y q :
  consistent p pl ->
  acquisitions p !! a = Some x -> pl a <> PFailed ->
  (forall b', b' <> b -> pl a <> PWaited b' /\ pl a <> POwned b') ->
  acquisitions p' = <[a := x']> (acquisitions p) -> acquisition_ok q x' ->
  borrows p' = <[b := y]> (borrows p) -> br_acquisition y = a ->
  borrow_ok (replace pl a q) b y ->
  (forall b', q = PWaited b' \/ q = POwned b' -> b' = b /\ br_phase y <> Finished) ->
  (forall a', a' <> a -> (a' < length (acquisitions p))%nat -> pl a' <> PWaited b /\ pl a' <> POwned b) ->
  NoDup (parkedBorrows p') -> NoDup (returned p').*1 ->
  (forall a', a' ∈ parkedBorrows p' <-> (a' <> a /\ a' ∈ parkedBorrows p) \/ a' = a /\ q = PParked) ->
  (forall a', a' ∈ (returned p').*1 <-> (a' <> a /\ a' ∈ (returned p).*1) \/ a' = a /\ q = PReturned) ->
  consistent p' (replace pl a q).
Proof.
  intros [H1 H2 H3 H4 H5 H6] Ha Hnf Hoth Ea Hq Eb Hy Hbok Hqb Hb1 Hn1 Hn2 Hp Hr.
  assert (Hlen : (a < length (acquisitions p))%nat) by (by eapply lookup_lt_Some).
  assert (El : length (acquisitions p') = length (acquisitions p)) by (by rewrite Ea, length_insert).
  split; try done.
  - intros a' x0 Hl. rewrite Ea in Hl. destruct (decide (a' = a)) as [->|Hne].
    + rewrite list_lookup_insert_eq in Hl by done. simplify_eq. rewrite replace_eq. split; [done|].
      destruct q; try done; (destruct (Hqb b0) as [-> ?]; [auto|]);
        exists y; by rewrite Eb, lookup_insert_eq.
    + rewrite list_lookup_insert_ne in Hl by done. rewrite replace_ne by done.
      destruct (H1 a' x0 Hl) as [? Hown]. split; [done|]. destruct (Hb1 a' Hne) as [? ?]; [by eapply lookup_lt_Some|].
      rewrite Eb. destruct (pl a'); try done; rewrite lookup_insert_ne by congruence; done.
  - intros b' y' Hl. rewrite Eb in Hl. rewrite El. destruct (decide (b' = b)) as [->|Hne].
    + rewrite lookup_insert_eq in Hl. simplify_eq. done.
    + rewrite lookup_insert_ne in Hl by done. destruct (H2 b' y' Hl). split; [|done].
      apply borrow_ok_other; try done; by apply Hoth.
  - intros a'. rewrite Hp, El, H3. destruct (decide (a' = a)) as [->|Hne].
    + rewrite replace_eq. naive_solver.
    + rewrite replace_ne by done. naive_solver.
  - intros a'. rewrite Hr, El, H5. destruct (decide (a' = a)) as [->|Hne].
    + rewrite replace_eq. naive_solver.
    + rewrite replace_ne by done. naive_solver.
Qed.

(** Only one borrow changes, and keeps its place. *)
Lemma consistent_borrow p pl b y y' :
  consistent p pl -> borrows p !! b = Some y -> br_acquisition y' = br_acquisition y ->
  borrow_ok pl b y' ->
  (br_phase y' = Finished -> pl (br_acquisition y) <> PWaited b /\ pl (br_acquisition y) <> POwned b) ->
  consistent (p <| borrows ::= <[b := y']> |>) pl.
Proof.
  intros [H1 H2 H3 H4 H5 H6] Hb Ea Hok Hfin. split; try done; simpl.
  - intros a x Hl. destruct (H1 a x Hl) as [? Hown]. split; [done|].
    assert (forall b', (pl a = PWaited b' \/ pl a = POwned b') ->
              (exists y0, borrows p !! b' = Some y0 /\ br_acquisition y0 = a /\ br_phase y0 <> Finished) ->
              exists y0, <[b := y']> (borrows p) !! b' = Some y0 /\ br_acquisition y0 = a /\
                         br_phase y0 <> Finished) as Hkeep.
    { intros b' Hpl (y0 & Hy0 & Hacq & Hph). destruct (decide (b' = b)) as [->|Hne].
      - simplify_eq. exists y'. rewrite lookup_insert_eq. split_and!; [done|done|].
        intros E. destruct (Hfin E). naive_solver.
      - exists y0. by rewrite lookup_insert_ne. }
    destruct (pl a) eqn:E; try done; apply Hkeep; auto.
  - intros b' y0 Hl. destruct (decide (b' = b)) as [->|Hne].
    + rewrite lookup_insert_eq in Hl. simplify_eq. rewrite Ea. split; [done|]. by eapply H2.
    + rewrite lookup_insert_ne in Hl by done. by apply H2.
Qed.

Lemma set_borrow_Some b f p y :
  borrows p !! b = Some y -> set_borrow b f p = p <| borrows ::= <[b := f y]> |>.
Proof.
  intros Hb. unfold set_borrow, upd. simpl. f_equal. apply map_eq. intros b'.
  destruct (decide (b' = b)) as [->|Hne].
  - by rewrite lookup_alter_eq, lookup_insert_eq, Hb.
  - by rewrite lookup_alter_ne, lookup_insert_ne.
Qed.

Lemma set_borrow_None b f p : borrows p !! b = None -> set_borrow b f p = p.
Proof.
  intros Hb. destruct p as [aq pk bs rt]. unfold set_borrow, upd. simpl in *. f_equal.
  apply map_eq. intros b'. destruct (decide (b' = b)) as [->|Hne].
  - by rewrite lookup_alter_eq, Hb.
  - by rewrite lookup_alter_ne.
Qed.

Lemma list_alter_Some {A} (f : A -> A) a (l : list A) x :
  l !! a = Some x -> alter f a l = <[a := f x]> l.
Proof.
  intros Ha. apply list_eq. intros i. destruct (decide (i = a)) as [->|Hne].
  - by rewrite list_lookup_alter_eq, Ha, list_lookup_insert_eq by (by eapply lookup_lt_Some).
  - by rewrite list_lookup_alter_ne, list_lookup_insert_ne.
Qed.

(** No other connect is at this borrow. *)
Lemma place_unique p pl a b y :
  consistent p pl -> borrows p !! b = Some y -> br_acquisition y = a ->
  forall a', a' <> a -> (a' < length (acquisitions p))%nat -> pl a' <> PWaited b /\ pl a' <> POwned b.
Proof.
  intros [H1 _ _ _ _ _] Hb Ha a' Hne Hlt. apply lookup_lt_is_Some in Hlt as [x Hx].
  destruct (H1 a' x Hx) as [_ Hown]. split; intros E; rewrite E in Hown;
    destruct Hown as (y' & ? & ? & _); simplify_eq.
Qed.

Lemma start_parked p pl b ab a rest :
  consistent p pl -> borrows p !! b = None -> parkedBorrows p = a :: rest ->
  exists pl', consistent (startBorrow b ab p) pl'.
Proof.
  intros Hc Hb Hp. pose proof Hc as [H1 H2 H3 H4 H5 H6].
  assert (Ha : a ∈ parkedBorrows p) by (rewrite Hp; left). apply H3 in Ha as [Hlt Hpl].
  apply lookup_lt_is_Some in Hlt as [x Hx]. destruct (H1 a x Hx) as [Hok _]. rewrite Hpl in Hok.
  simpl in Hok. subst x. exists (replace pl a (PWaited b)). rewrite Hp in H4.
  apply NoDup_cons in H4 as [Hn H4].
  unfold startBorrow, borrowAcquisition. rewrite Hp.
  set (y := mkBorrow a false _ _).
  eapply (consistent_update p _ pl a _ (mkAcquisition (Some b) false false) b y); simpl; try done.
  - congruence.
  - intros b' _. split; congruence.
  - by erewrite list_alter_Some by done.
  - unfold borrow_ok. simpl. rewrite replace_eq. destruct ab; auto.
  - intros b' [[= ->]|?]; [|done]. by split.
  - intros a' Hne Hlt. apply lookup_lt_is_Some in Hlt as [x' Hx'].
    destruct (H1 a' x' Hx') as [_ Hown].
    split; intros E; rewrite E in Hown; destruct Hown as (? & ? & _); congruence.
  - intros a'. rewrite Hp, elem_of_cons. split; [|naive_solver]. intros Hin. left.
    split; [by intros ->|by right].
  - intros a'. split; [|naive_solver]. intros Hin. left. split; [|done]. intros ->.
    apply H5 in Hin as [_ ?]. congruence.
Qed.

Lemma start_fresh p pl b ab :
  consistent p pl -> borrows p !! b = None -> exists pl', consistent (startBorrow b ab p) pl'.
Proof.
  intros Hc Hb. destruct (parkedBorrows p) as [|a rest] eqn:Hp; [|by eapply start_parked].
  set (n := length (acquisitions p)).
  set (p1 := p <| acquisitions ::= fun l => l ++ [mkAcquisition None false false] |>
               <| parkedBorrows := [n] |>).
  assert (E : startBorrow b ab p = startBorrow b ab p1).
  { unfold startBorrow, borrowAcquisition. rewrite Hp. simpl. unfold upd. simpl. by rewrite Hp. }
  rewrite E. apply (start_parked p1 (replace pl n PParked) b ab n []); [|done|done].
  destruct Hc as [H1 H2 H3 H4 H5 H6]. rewrite Hp in H3.
  assert (Hlt : forall a, (a < n)%nat -> replace pl n PParked a = pl a).
  { intros a Ha. apply replace_ne. lia. }
  assert (Elen : length (acquisitions p1) = S n) by (simpl; rewrite length_app; simpl; unfold n; lia).
  split; try done; rewrite ?Elen.
  - simpl. intros a x Hl. destruct (decide (a < n)%nat) as [Ha|Ha].
    + rewrite lookup_app_l in Hl by done. rewrite Hlt by done. by apply H1.
    + rewrite lookup_app_r in Hl by (unfold n in *; lia).
      apply list_lookup_singleton_Some in Hl as [Ha' <-].
      assert (a = n) as -> by (unfold n in *; lia). by rewrite replace_eq.
  - intros b' y Hy. destruct (H2 b' y Hy) as [Hok Hlen]. unfold borrow_ok. rewrite Hlt by done.
    split; [done|]. unfold n. lia.
  - simpl. intros a. rewrite list_elem_of_singleton. split.
    + intros ->. rewrite replace_eq. split; [lia|done].
    + intros [Ha Hpl]. destruct (decide (a = n)); [done|]. rewrite Hlt in Hpl by lia.
      assert (Hin : a ∈ []) by (apply H3; split; [unfold n in *; lia|done]). by apply elem_of_nil in Hin.
  - apply NoDup_singleton.
  - simpl. intros a. rewrite H5. destruct (decide (a < n)%nat) as [Ha|Ha].
    + rewrite Hlt by done. unfold n in *. split; intros [? ?]; (split; [lia|done]).
    + split; [unfold n in *; lia|]. intros [? E']. assert (a = n) as -> by lia.
      by rewrite replace_eq in E'.
Qed.

(** A parked connect settles: it goes back to the pool, or it failed. *)
Lemma settle_parked p pl a ok :
  consistent p pl -> acquisitions p !! a = Some (mkAcquisition None false false) ->
  exists pl', consistent (connectSettles a ok p) pl'.
Proof.
  intros Hc Hl. pose proof Hc as [H1 H2 H3 H4 H5 H6]. pose proof (H1 a _ Hl) as [Hok _].
  assert (Hpl : pl a = PParked) by (by destruct (pl a)).
  assert (Hlt : (a < length (acquisitions p))%nat) by (by eapply lookup_lt_Some).
  assert (Hnr : a ∉ (returned p).*1) by (intros [_ ?]%H5; congruence).
  set (q := if ok then PReturned else PFailed). exists (replace pl a q).
  unfold connectSettles. rewrite Hl. simpl.
  set (p' := if ok then _ else _).
  assert (Ep : acquisitions p' = <[a := mkAcquisition None true ok]> (acquisitions p) /\
               parkedBorrows p' = remove_first (fun x => bool_decide (x = a)) (parkedBorrows p) /\
               borrows p' = borrows p /\
               (returned p').*1 = (returned p).*1 ++ (if ok then [a] else [])).
  { unfold p'. destruct ok; simpl; rewrite ?fmap_app, ?app_nil_r; split_and!; try done;
      by erewrite list_alter_Some by done. }
  destruct Ep as (Ea & Epk & Eb & Er). clearbody p'.
  assert (El : length (acquisitions p') = length (acquisitions p)) by (by rewrite Ea, length_insert).
  split; rewrite ?El, ?Epk, ?Eb, ?Er.
  - intros a' x Hx. rewrite Ea in Hx. destruct (decide (a' = a)) as [->|Hne].
    + rewrite list_lookup_insert_eq in Hx by done. simplify_eq. rewrite replace_eq. unfold q.
      by destruct ok.
    + rewrite list_lookup_insert_ne in Hx by done. rewrite replace_ne by done. by apply H1.
  - intros b y Hy. destruct (H2 b y Hy). split; [|done]. apply borrow_ok_other; try done; congruence.
  - intros a'. rewrite elem_of_remove_value, H3 by done. destruct (decide (a' = a)) as [->|Hne].
    + rewrite replace_eq. unfold q. destruct ok; naive_solver.
    + rewrite replace_ne by done. naive_solver.
  - by apply remove_first_NoDup.
  - intros a'. rewrite elem_of_app, H5. destruct (decide (a' = a)) as [->|Hne].
    + rewrite replace_eq. unfold q. destruct ok; [|rewrite elem_of_nil; naive_solver congruence].
      rewrite list_elem_of_singleton. naive_solver.
    + rewrite replace_ne by done. destruct ok; [rewrite list_elem_of_singleton|rewrite elem_of_nil];
        naive_solver.
  - destruct ok; [|by rewrite app_nil_r]. apply NoDup_app. split_and!; [done| |apply NoDup_singleton].
    intros a' Hin ->%list_elem_of_singleton. done.
Qed.

(** A connect that a borrow waits for settles. *)
Lemma settle_waited p pl a b ok :
  consistent p pl -> acquisitions p !! a = Some (mkAcquisition (Some b) false false) ->
  exists pl', consistent (connectSettles a ok p) pl'.
Proof.
  intros Hc Hl. pose proof Hc as [H1 H2 H3 H4 H5 H6]. pose proof (H1 a _ Hl) as [Hok Hown].
  assert (Hpl : pl a = PWaited b) by (by destruct (pl a); simplify_eq/=).
  rewrite Hpl in Hown. destruct Hown as (y & Hy & Hacq & Hph).
  assert (Hnp : a ∉ parkedBorrows p) by (intros [_ ?]%H3; congruence).
  assert (Hnr : a ∉ (returned p).*1) by (intros [_ ?]%H5; congruence).
  destruct (H2 b y Hy) as [Hbok _].
  exists (replace pl a (if ok then POwned b else PFailed)).
  unfold connectSettles. rewrite Hl. simpl. erewrite set_borrow_Some by (simpl; done).
  assert (Hbok' : forall y', y' = (if ok then race_arrival Delivered (y <| br_received := true |>)
                                   else race_arrival ConnectError y) ->
            br_acquisition y' = a /\ br_phase y' <> Finished /\
            borrow_ok (replace pl a (if ok then POwned b else PFailed)) b y').
  { intros y' ->. destruct y as [ya yr ys yp]. simpl in *. subst ya.
    unfold borrow_ok in Hbok. simpl in Hbok. rewrite Hpl in Hbok.
    destruct yp as [[[| |]|]|[|]|], yr; try done; destruct ok; unfold borrow_ok, race_arrival; simpl;
      rewrite replace_eq; auto; by destruct Hbok. }
  set (y' := if ok then _ else _) in *. destruct (Hbok' y' eq_refl) as (Ha' & Hph' & Hbk).
  eapply (consistent_update p _ pl a _ (mkAcquisition None true ok) b y'); simpl; try done.
  - congruence.
  - intros b' Hne. rewrite Hpl. split; congruence.
  - by erewrite list_alter_Some by done.
  - by destruct ok.
  - intros b' Hq. split; [|done]. destruct ok; naive_solver.
  - by eapply place_unique.
  - by apply remove_first_NoDup.
  - intros a'. rewrite elem_of_remove_value by done. destruct ok; naive_solver.
  - intros a'. destruct ok; naive_solver.
Qed.

Lemma settles_consistent p pl a ok :
  consistent p pl -> exists pl', consistent (connectSettles a ok p) pl'.
Proof.
  intros Hc. destruct (acquisitions p !! a) as [x|] eqn:Hl.
  2: { exists pl. unfold connectSettles. by rewrite Hl. }
  destruct (aq_settled x) eqn:Es.
  { exists pl. unfold connectSettles. by rewrite Hl, Es. }
  pose proof (co_acquisition _ _ Hc a x Hl) as [Hok _].
  destruct (pl a); simpl in Hok; subst x; try done;
    [by eapply settle_waited|by eapply settle_parked].
Qed.

(** The borrow gives its connection back and ends. *)
Lemma release_consistent p pl b y d :
  consistent p pl -> borrows p !! b = Some y -> pl (br_acquisition y) = POwned b ->
  exists pl', consistent (set_borrow b (fun y => y <| br_phase := Finished |>)
                            (release (br_acquisition y) d p)) pl'.
Proof.
  intros Hc Hy Hpl. pose proof Hc as [H1 H2 H3 H4 H5 H6]. destruct (H2 b y Hy) as [_ Hlt].
  set (a := br_acquisition y) in *. pose proof Hlt as Hlt'. apply lookup_lt_is_Some in Hlt' as [x Hx].
  destruct (H1 a x Hx) as [Hok _]. rewrite Hpl in Hok. simpl in Hok.
  assert (Hnr : a ∉ (returned p).*1) by (intros [_ ?]%H5; congruence).
  exists (replace pl a PReturned). erewrite set_borrow_Some by (simpl; done).
  eapply (consistent_update p _ pl a x x b (y <| br_phase := Finished |>)); simpl; try done.
  - congruence.
  - intros b' Hne. rewrite Hpl. split; congruence.
  - by rewrite list_insert_id.
  - naive_solver.
  - by eapply place_unique.
  - rewrite fmap_app. apply NoDup_app. split_and!; [done| |apply NoDup_singleton].
    intros a' Hin ->%list_elem_of_singleton. done.
  - intros a'. split; [|naive_solver]. intros Hin. left. split; [|done]. intros ->.
    apply H3 in Hin as [_ ?]. congruence.
  - intros a'. rewrite fmap_app, elem_of_app. simpl. rewrite list_elem_of_singleton.
    split; [|naive_solver]. intros [Hin| ->]; [left|by right]. split; [|done]. by intros ->.
Qed.

Lemma resumes_consistent p pl b :
  consistent p pl -> exists pl', consistent (resumes b p) pl'.
Proof.
  intros Hc. unfold resumes. destruct (borrows p !! b) as [y|] eqn:Hy; [|by exists pl].
  pose proof Hc as [H1 H2 H3 H4 H5 H6]. destruct (H2 b y Hy) as [Hbok Hlt].
  destruct (br_phase y) as [[[| |why]|]|r|] eqn:Eph; try by exists pl.
  - exists pl. erewrite set_borrow_Some by done. eapply consistent_borrow; try done.
    unfold borrow_ok in *. simpl. rewrite Eph in Hbok. by destruct (br_received y).
  - exists pl. erewrite set_borrow_Some by done. eapply consistent_borrow; try done.
    unfold borrow_ok in Hbok. rewrite Eph in Hbok. destruct (br_received y); [done|].
    intros _. split; congruence.
  - unfold borrow_ok in Hbok. rewrite Eph in Hbok. destruct (br_received y) eqn:Er.
    { by apply (release_consistent p pl). }
    set (a := br_acquisition y) in *. pose proof Hlt as Hlt'.
    apply lookup_lt_is_Some in Hlt' as [x Hx]. destruct (H1 a x Hx) as [Hok Hown]. rewrite Hx.
    destruct Hbok as [Hpl|Hpl]; rewrite Hpl in Hok; simpl in Hok; subst x; simpl.
    2: { exists pl. erewrite set_borrow_Some by done.
         eapply consistent_borrow; try done. intros _. fold a. split; congruence. }
    exists (replace pl a PParked).
    erewrite set_borrow_Some by (simpl; done).
    assert (Hnp : a ∉ parkedBorrows p) by (intros [_ ?]%H3; congruence).
    eapply (consistent_update p _ pl a _ (mkAcquisition None false false) b
              (y <| br_phase := Finished |>)); simpl; try done.
    + congruence.
    + intros b' Hne. rewrite Hpl. split; congruence.
    + by erewrite list_alter_Some by done.
    + naive_solver.
    + by eapply place_unique.
    + apply NoDup_app. split_and!; [done| |apply NoDup_singleton].
      intros a' Hin ->%list_elem_of_singleton. done.
    + intros a'. rewrite elem_of_app, list_elem_of_singleton. split; [|naive_solver].
      intros [Hin| ->]; [left|by right]. split; [|done]. by intros ->.
    + intros a'. split; [|naive_solver]. intros Hin. left. split; [|done]. intros ->.
      apply H5 in Hin as [_ ?]. congruence.
Qed.

(** A borrow changes its race or its stop reason only. *)
Lemma set_borrow_consistent p pl b f :
  consistent p pl ->
  (forall y, br_acquisition (f y) = br_acquisition y /\
             (borrow_ok pl b y -> borrow_ok pl b (f y)) /\
             (br_phase (f y) = Finished -> br_phase y = Finished)) ->
  consistent (set_borrow b f p) pl.
Proof.
  intros Hc Hf. destruct (borrows p !! b) as [y|] eqn:Hy.
  2: { by rewrite set_borrow_None. }
  erewrite set_borrow_Some by done. destruct (Hf y) as (Ha & Hok & Hfin).
  pose proof (co_borrow _ _ Hc b y Hy) as [Hb Hlt].
  eapply consistent_borrow; try done; [by apply Hok|]. intros E. specialize (Hfin E).
  apply lookup_lt_is_Some in Hlt as [x Hx].
  destruct (co_acquisition _ _ Hc _ x Hx) as [_ Hown].
  split; intros Hpl; rewrite Hpl in Hown; destruct Hown as (y' & ? & _ & ?); congruence.
Qed.

Lemma borrow_step_consistent p pl e :
  consistent p pl -> exists pl', consistent (borrow_step p e) pl'.
Proof.
  intros Hc. destruct e as [b ab|a ok|b why|b|b ok|b]; simpl.
  - case_bool_decide; [by eapply start_fresh|by exists pl].
  - by eapply settles_consistent.
  - exists pl. apply set_borrow_consistent; [done|]. intros y. unfold borrow_ok.
    destruct (br_stopped y); [done|]. simpl.
    destruct (br_phase y) as [[[| |]|]|[|]|] eqn:E; simpl; rewrite ?E; try done.
    split_and!; [done| |done]. destruct (br_received y); naive_solver.
  - by eapply resumes_consistent.
  - exists pl. apply set_borrow_consistent; [done|]. intros y. unfold borrow_ok.
    destruct (br_phase y) as [[[| |]|]|[|]|] eqn:E; simpl; rewrite ?E; try done.
  - unfold finishes. destruct (borrows p !! b) as [y|] eqn:Hy; [|by exists pl].
    destruct (br_phase y) as [|[o|]|] eqn:Eph; try by exists pl.
    apply (release_consistent p pl); try done. pose proof (co_borrow _ _ Hc b y Hy) as [Hok _].
    unfold borrow_ok in Hok. rewrite Eph in Hok. by destruct (br_received y).
Qed.

Lemma borrow_run_consistent evs : exists pl, consistent (borrow_run newPool evs) pl.
Proof.
  apply (run_invariant borrow_step (fun p => exists pl, consistent p pl)).
  - intros p e [pl Hc]. by eapply borrow_step_consistent.
  - exists (fun _ => PFailed). split; simpl; try done; try constructor.
    + by intros ?%elem_of_nil.
    + intros [? _]. lia.
    + by intros ?%elem_of_nil.
    + intros [? _]. lia.
Qed.

(** ** Properties *)

(** The borrow holds the client of its connect: it was delivered to it and the
    borrow has not ended. *)
Definition owns (y : borrow) (a : nat) : Prop :=
  br_acquisition y = a /\ br_received y = true /\ br_phase y <> Finished.

(** Each connect of an ordinary borrow has exactly one owner.  In every run
    a connect that has not settled is waited for by one borrow or is parked for
    the next borrow, and a parked connect never settled; a client that arrived
    is held by exactly one borrow, or went back to the pool exactly once and no
    borrow holds it. *)
Theorem each_connect_has_one_owner evs a x
    (Hl : acquisitions (borrow_run newPool evs) !! a = Some x) :
  let p := borrow_run newPool evs in
  NoDup (returned p).*1 /\ NoDup (parkedBorrows p) /\
  (a ∈ parkedBorrows p <-> aq_settled x = false /\ aq_waiter x = None) /\
  (forall b, aq_waiter x = Some b ->
     aq_settled x = false /\ exists y, borrows p !! b = Some y /\ br_acquisition y = a) /\
  (aq_arrived x = true ->
     (a ∈ (returned p).*1 /\ forall b y, borrows p !! b = Some y -> ~ owns y a) \/
     ((a ∉ (returned p).*1) /\
      exists b, forall b', b' = b <-> exists y, borrows p !! b' = Some y /\ owns y a)) /\
  (a ∈ (returned p).*1 -> aq_arrived x = true).
Proof.
  intros p. destruct (borrow_run_consistent evs) as [pl Hc]. fold p in Hc, Hl.
  destruct Hc as [H1 H2 H3 H4 H5 H6]. destruct (H1 a x Hl) as [Hok Hown].
  assert (Hlt : (a < length (acquisitions p))%nat) by (by eapply lookup_lt_Some).
  assert (Howner : forall b y, borrows p !! b = Some y -> owns y a -> pl a = POwned b).
  { intros b y Hy (Ha & Hr & Hph). destruct (H2 b y Hy) as [Hb _]. unfold borrow_ok in Hb.
    rewrite Ha, Hr in Hb. by destruct (br_phase y) as [[[| |]|]|[|]|]. }
  split_and!; try done.
  - rewrite H3. destruct (pl a); simpl in Hok; subst x; naive_solver.
  - intros b Hw. destruct (pl a); simpl in Hok; subst x; simplify_eq/=. naive_solver.
  - intros Harr. rewrite H5. destruct (pl a) as [| |b| |] eqn:Epl; simpl in Hok; subst x; try done.
    + right. split; [naive_solver|]. exists b. intros b'. destruct Hown as (y & Hy & Ha & Hph).
      destruct (H2 b y Hy) as [Hb _]. unfold borrow_ok in Hb. rewrite Ha, Epl in Hb. split.
      * intros ->. exists y. split; [done|]. split_and!; try done.
        by destruct (br_phase y) as [[[| |]|]|[|]|], (br_received y); naive_solver.
      * intros (y' & Hy' & Ho). specialize (Howner _ _ Hy' Ho). congruence.
    + left. split; [done|]. intros b y Hy Ho. specialize (Howner _ _ Hy Ho). congruence.
  - intros [_ Hpl]%H5. rewrite Hpl in Hok. simpl in Hok. by subst x.
Qed.

(** A borrow times out, its connect is parked, the next borrow takes it. *)
Definition parked_reuse : list borrow_event :=
  [StartBorrow 0 false; Stops 0 timeout; Resumes 0; StartBorrow 1 false; ConnectSettles 0 true].

Lemma each_connect_has_one_owner_witness :
  let p := borrow_run newPool parked_reuse in
  let x := mkAcquisition None true true in
  NoDup (returned p).*1 /\ NoDup (parkedBorrows p) /\
  (0%nat ∈ parkedBorrows p <-> aq_settled x = false /\ aq_waiter x = None) /\
  (forall b, aq_waiter x = Some b ->
     aq_settled x = false /\ exists y, borrows p !! b = Some y /\ br_acquisition y = 0%nat) /\
  (aq_arrived x = true ->
     (0%nat ∈ (returned p).*1 /\ forall b y, borrows p !! b = Some y -> ~ owns y 0) \/
     ((0%nat ∉ (returned p).*1) /\
      exists b, forall b', b' = b <-> exists y, borrows p !! b' = Some y /\ owns y 0)) /\
  (0%nat ∈ (returned p).*1 -> aq_arrived x = true).
Proof. apply (each_connect_has_one_owner parked_reuse 0). vm_compute. reflexivity. Defined.

(** Repeated timeouts add no connect.  While a connect is parked, a new
    borrow on the pool takes the oldest parked one and opens none. *)
Theorem parked_connect_is_reused b signalAborted p a rest
    (Hparked : parkedBorrows p = a :: rest) :
  let p' := startBorrow b signalAborted p in
  length (acquisitions p') = length (acquisitions p) /\ parkedBorrows p' = rest /\
  exists y, borrows p' !! b = Some y /\ br_acquisition y = a.
Proof.
  unfold startBorrow, borrowAcquisition. rewrite Hparked. simpl. split_and!.
  - apply length_alter.
  - done.
  - rewrite lookup_insert_eq. eauto.
Qed.

Lemma parked_connect_is_reused_witness :
  let p := borrow_run newPool [StartBorrow 0 false; Stops 0 timeout; Resumes 0] in
  let p' := startBorrow 1 false p in
  length (acquisitions p') = length (acquisitions p) /\ parkedBorrows p' = [] /\
  exists y, borrows p' !! 1%nat = Some y /\ br_acquisition y = 0%nat.
Proof. apply (parked_connect_is_reused 1 false _ 0 []). vm_compute. reflexivity. Defined.
