(* ===== verification/ClaimGate.v ===== *)
(** * The heartbeat gate of claim statements, and sharing the reservation

    Model of [heartbeatReservationProblem], [admitClaim],
    [gatedClaimDatabase], [ownErrors] and [holdHeartbeatConnection] of
    [typescript/core/src/heartbeat-connection.ts], and of
    [statementPoolCapacity] of [typescript/core/src/connection-pool.ts].

    The gate is read between the borrow of a connection and the statement, so
    its value there is a parameter of one query. *)

From S2P Require Import Prelude Types RenewalRound ReservedConnection.

(** ** Which pools can lend the connection *)

Definition MINIMUM_RESERVING_CAPACITY : Z := 3.

(** [options.max] of a pool is undefined or a number. *)
Record ConnectionPool : Type := { pool_max : option num }.

Inductive ReservationProblem : Type := NoPool | NoMaximum | TooSmall (capacity : num).

Definition heartbeatReservationProblem (pool : option ConnectionPool) : option ReservationProblem :=
  match pool with
  | None => Some NoPool
  | Some p =>
      match pool_max p with
      | None => Some NoMaximum
      | Some capacity =>
          if num_lt_Z capacity MINIMUM_RESERVING_CAPACITY then Some (TooSmall capacity) else None
      end
  end.

Definition canReserveHeartbeatConnection (pool : option ConnectionPool) : bool :=
  match heartbeatReservationProblem pool with None => true | Some _ => false end.

(** [statementPoolCapacity]: unknown for a database that carries an attached
    pool. *)
Definition statementPoolCapacity (attached : bool) (database : option ConnectionPool) : option num :=
  if attached then None
  else match database with
       | Some {| pool_max := Some capacity |} =>
           if isSafeInteger capacity && num_gt_Z capacity 0 then Some capacity else None
       | _ => None
       end.

Definition STARTUP_BUDGET_FLOOR_MS : Z := 5000.
Definition heartbeatStartupBudgetMs (heartbeatMs : Z) : Z := Z.max heartbeatMs STARTUP_BUDGET_FLOOR_MS.

(** ** Admission of one statement *)

Inductive sql : Set :=
| claim_v1 | claim_many_v1 | complete_many_and_claim_v1 | queue_tier | other_sql (text : nat).
#[export] Instance sql_eq_dec : EqDecision sql.
Proof. solve_decision. Defined.

Inductive value : Type :=
| VNumber (n : Z)
| VArray (items : list string)
| VOther (text : string).

Definition FUSED_LIMIT_PARAMETER : nat := 5.
Definition FUSED_TASKS_PARAMETER : nat := 1.

Definition isClaimStatement (text : sql) : bool :=
  match text with other_sql _ => false | _ => true end.

(** [admitted[i] = v] on a JavaScript array: an index past the end extends it
    with holes, which are sent as undefined. *)
Definition js_set (i : nat) (v : value) (l : list value) : list value :=
  if decide (i < length l)%nat then <[i := v]> l
  else l ++ replicate (i - length l) (VOther "undefined") ++ [v].

Inductive gate_error : Type :=
| HeartbeatGateClosedError
| ConnectFailedError (e : error_id)
| StatementFailed (e : query_error).

Definition admitClaim (text : sql) (values : option (list value)) (gateOpen : bool)
    : res gate_error (option (list value)) :=
  if gateOpen then Ret values
  else if negb (bool_decide (text = complete_many_and_claim_v1)) then Throw HeartbeatGateClosedError
  else match values with
       | None => Throw HeartbeatGateClosedError
       | Some vs =>
           match vs !! FUSED_TASKS_PARAMETER with
           | Some (VArray (_ :: _)) => Ret (Some (js_set FUSED_LIMIT_PARAMETER (VNumber 0) vs))
           | _ => Throw HeartbeatGateClosedError
           end
       end.

(** ** A query through the gated view *)

Inductive effect : Type :=
| Borrowed
| Sent (text : sql) (values : option (list value))
| Released (destroyed : bool).

Section query.
Context {R : Type}.
(** The pool: None when the database has none, else how its connect settles. *)
Variable connect : option (res error_id unit).
Variable gateOpen : bool.
Variable answer : res query_error R.

Definition answered (r : res query_error R) : res gate_error R :=
  match r with Ret v => Ret v | Throw e => Throw (StatementFailed e) end.

Definition gatedQuery (text : sql) (values : option (list value)) : list effect * res gate_error R :=
  if negb (isClaimStatement text) then ([Sent text values], answered answer)
  else match connect with
  | None =>
      match admitClaim text values gateOpen with
      | Ret admitted => ([Sent text admitted], answered answer)
      | Throw e => ([], Throw e)
      end
  | Some (Throw e) => ([], Throw (ConnectFailedError e))
  | Some (Ret _) =>
      match admitClaim text values gateOpen with
      | Throw e => ([Borrowed; Released false], Throw e)
      | Ret admitted =>
          match answer with
          | Ret v => ([Borrowed; Sent text admitted; Released false], Ret v)
          | Throw e => ([Borrowed; Sent text admitted; Released true], Throw (StatementFailed e))
          end
      end
  end.
End query.

(** A statement that takes no lease: it is no claim, or a fused completion
    whose claim limit is zero. *)
Definition takes_no_lease (text : sql) (values : option (list value)) : Prop :=
  isClaimStatement text = false \/
  text = complete_many_and_claim_v1 /\
  exists vs, values = Some vs /\ vs !! FUSED_LIMIT_PARAMETER = Some (VNumber 0).

Lemma js_set_eq i v l : js_set i v l !! i = Some v.
Proof.
  unfold js_set. case_decide as Hi; [by apply list_lookup_insert_eq|].
  rewrite app_assoc, lookup_app_r by (rewrite length_app, length_replicate; lia).
  rewrite length_app, length_replicate. by replace (i - _)%nat with 0%nat by lia.
Qed.

Lemma js_set_ne i j v l x : j <> i -> l !! j = Some x -> js_set i v l !! j = Some x.
Proof.
  intros Hne Hj. unfold js_set. case_decide; [by rewrite list_lookup_insert_ne|].
  rewrite lookup_app_l; [done|]. by eapply lookup_lt_Some.
Qed.

Lemma admitClaim_closed text values admitted :
  admitClaim text values false = Ret admitted ->
  text = complete_many_and_claim_v1 /\
  exists vs task tasks, values = Some vs /\ vs !! FUSED_TASKS_PARAMETER = Some (VArray (task :: tasks)) /\
    admitted = Some (js_set FUSED_LIMIT_PARAMETER (VNumber 0) vs).
Proof.
  unfold admitClaim. case_bool_decide as Et; simpl; [|done]. subst.
  destruct values as [vs|]; [|done].
  destruct (vs !! FUSED_TASKS_PARAMETER) as [[| [|task tasks] |]|] eqn:E; try done.
  intros [= <-]. naive_solver.
Qed.

(** ** Sharing the reservation of a pool

    [sharedConnections] has one entry per pool; this is the entry of one pool.
    Reservations are named by their position. *)
Record Shared : Type := mkShared {
  sh_entry : option nat;
  sh_connections : list Reserved;
  sh_holders : list (jsmap nat Z);          (* the holders of each, with their interval *)
}.
#[export] Instance eta_Shared : Eta Shared := fun s =>
  mkShared (sh_entry s) (sh_connections s) (sh_holders s).

Definition newShared : Shared := mkShared None [] [].

(** [Math.min(...holders.values())]; without holders it is Infinity, and no
    retry is armed because the reservation is closed. *)
Definition retryCap (holders : jsmap nat Z) : option Z :=
  match holders with
  | [] => None
  | (_, h) :: rest => Some (foldl Z.min h (map snd rest))
  end.

Definition holdersOf (s : Shared) (i : nat) : jsmap nat Z := default [] (sh_holders s !! i).

(** [holdHeartbeatConnection], for a pool that can lend. *)
Definition hold (holder : nat) (heartbeatMs : Z) (s : Shared) : Shared * nat :=
  let '(s, i) := match sh_entry s with
                 | Some i => (s, i)
                 | None => let i := length (sh_connections s) in
                           (s <| sh_connections ::= fun l => l ++ [newReserved] |>
                              <| sh_holders ::= fun l => l ++ [[]] |>
                              <| sh_entry := Some i |>, i)
                 end in
  let holders := jsset holder heartbeatMs (holdersOf s i) in
  let s := s <| sh_holders ::= <[i := holders]> |> in
  (if bool_decide (length holders = 1%nat) then s <| sh_connections ::= alter reopen i |> else s, i).

(** [close] of a lease, up to its await: the last holder closes the
    reservation. *)
Definition leave (holder i : nat) (s : Shared) : Shared :=
  if jshas holder (holdersOf s i) then
    let holders := jsdelete holder (holdersOf s i) in
    let s := s <| sh_holders ::= <[i := holders]> |> in
    if bool_decide (holders = []) then s <| sh_connections ::= alter close i |> else s
  else s.

(** The rest of [close], and [drained]: the entry goes when nobody holds it. *)
Definition drain (i : nat) (s : Shared) : Shared :=
  if bool_decide (holdersOf s i = []) && bool_decide (sh_entry s = Some i)
  then s <| sh_entry := None |> else s.

Inductive shared_event : Type :=
| Hold (holder : nat) (heartbeatMs : Z)
| Leave (holder i : nat)
| Drain (i : nat)
| Inside (i : nat) (te : Z * rc_event).     (* an event of one reservation *)

(** A holder is one object: it holds once.  Only the holders open and close a
    reservation. *)
Definition shared_step (s : Shared) (e : shared_event) : Shared :=
  match e with
  | Hold holder heartbeatMs =>
      if existsb (jshas holder) (sh_holders s) then s else (hold holder heartbeatMs s).1
  | Leave holder i => leave holder i s
  | Drain i => drain i s
  | Inside i te =>
      match te.2 with
      | Close | Reopen => s
      | _ => s <| sh_connections ::= alter (fun c => rc_step (retryCap (holdersOf s i)) c te) i |>
      end
  end.

Definition shared_run : Shared -> list shared_event -> Shared := run shared_step.

(** ** A reservation is open exactly while somebody holds it *)

Record shared_ok (s : Shared) : Prop := {
  sk_length : length (sh_holders s) = length (sh_connections s);
  sk_open : forall i c, sh_connections s !! i = Some c -> (closed c = false <-> holdersOf s i <> []);
  sk_entry : forall i, holdersOf s i <> [] -> sh_entry s = Some i;
  sk_rounds : forall i c, sh_connections s !! i = Some c -> rounds_ok c;
  sk_bound : forall i, sh_entry s = Some i -> (i < length (sh_connections s))%nat;
}.

Definition opens_or_closes (e : rc_event) : bool := match e with Close | Reopen => true | _ => false end.

Lemma becameReady_closed c : closed (becameReady c) = closed c.
Proof. unfold becameReady. by case_match. Qed.
Lemma connectArrives_closed id c : closed (connectArrives id c) = closed c.
Proof.
  unfold connectArrives. set (c0 := c <| connects ::= _ |>).
  assert (H : closed (if bool_decide (client c0 = Some id)
                      then let c := c0 <| connected := Some id |> <| retryAttempt := O |> in
                           if closed c then c else becameReady c
                      else c0) = closed c).
  { destruct (bool_decide _); [|done]. cbv zeta. case_match; [done|].
    etrans; [apply becameReady_closed|done]. }
  revert H. set (c1 := if bool_decide (client c0 = _) then _ else _). by case_match.
Qed.

Lemma rc_step_closed cap c te :
  rounds_ok c -> opens_or_closes te.2 = false -> closed (rc_step cap c te) = closed c.
Proof.
  intros Hr. destruct te as [now []]; unfold rc_step; cbn [fst snd]; intros He; try done.
  - apply calm_reserve.
  - case_bool_decide; [|done]. unfold renew. repeat case_match; try done.
    rewrite (proj1 (calm_startNext _)). done.
  - unfold timedOut. repeat case_match; try done; try apply (endTransaction_calm _ _ _ _ Hr).
    all: by rewrite (so_requests _ _ _ (settle_settles _ _ _)).
  - case_bool_decide; [|done]. apply connectArrives_closed.
  - case_bool_decide; [|done]. unfold connectFails, scheduleRetry. repeat case_match; done.
  - unfold transactResumes. repeat case_match; done.
  - repeat case_match; try done. unfold join. by case_match.
  - repeat case_match; try done. apply (endTransaction_calm _ _ _ _ Hr).
  - case_match; [|done]. apply calm_discard.
  - unfold retryTimerFires. repeat case_match; try done.
    etrans; [apply calm_reserve|done].
  - case_match; [done|]. unfold ready. repeat case_match; try done.
    etrans; [apply (calm_reserve c)|done].
  - unfold finishWait. repeat case_match; done.
  - unfold finishWait. repeat case_match; done.
  - unfold closeResumes. repeat case_match; done.
Qed.

Lemma holdersOf_insert s i j h :
  length (sh_holders s) = length (sh_connections s) -> (i < length (sh_connections s))%nat ->
  holdersOf (s <| sh_holders ::= <[i := h]> |>) j = if decide (j = i) then h else holdersOf s j.
Proof.
  intros Hl Hi. unfold holdersOf. simpl. case_decide as E; [subst|by rewrite list_lookup_insert_ne].
  by rewrite list_lookup_insert_eq by lia.
Qed.

Lemma jsset_first k v (m : jsmap nat Z) : m = [] -> length (jsset k v m) = 1%nat.
Proof. by intros ->. Qed.

(** Replacing the holders and the reservation of one entry. *)
Lemma shared_change i h f s :
  shared_ok s -> (i < length (sh_connections s))%nat ->
  (h <> [] -> sh_entry s = Some i) ->
  (forall c, sh_connections s !! i = Some c -> rounds_ok c ->
     rounds_ok (f c) /\ (closed (f c) = false <-> h <> [])) ->
  shared_ok (s <| sh_holders ::= <[i := h]> |> <| sh_connections ::= alter f i |>).
Proof.
  intros [Hl Ho He Hr Hb] Hi Hh Hf.
  assert (Hof : forall j, holdersOf (s <| sh_holders ::= <[i := h]> |> <| sh_connections ::= alter f i |>) j
                = if decide (j = i) then h else holdersOf s j).
  { intros j. rewrite <- (holdersOf_insert s i j h) by done. done. }
  split.
  - simpl. by rewrite length_insert, length_alter.
  - intros j c. rewrite Hof. simpl. case_decide as E; [subst|].
    + rewrite list_lookup_alter_eq. intros (c0 & Hc0 & ->)%fmap_Some. eapply Hf; eauto.
    + rewrite list_lookup_alter_ne by done. apply Ho.
  - intros j. rewrite Hof. simpl. case_decide; [subst; auto|apply He].
  - intros j c. simpl. destruct (decide (j = i)) as [->|].
    + rewrite list_lookup_alter_eq. intros (c0 & Hc0 & ->)%fmap_Some. eapply Hf; eauto.
    + rewrite list_lookup_alter_ne by done. apply Hr.
  - intros j. simpl. rewrite length_alter. apply Hb.
Qed.

Lemma reopen_closed c : closed (reopen c) = false.
Proof. unfold reopen. case_match; [|done]. etrans; [apply becameReady_closed|done]. Qed.
Lemma reopen_rounds_ok c : rounds_ok c -> rounds_ok (reopen c).
Proof. apply rounds_same, reopen_rounds. Qed.
Lemma close_rounds_ok c : rounds_ok c -> rounds_ok (close c).
Proof. apply (rc_step_rounds None c (0, Close)). Qed.

(** A reservation that stays held. *)
Lemma shared_holders i h s :
  shared_ok s -> holdersOf s i <> [] -> h <> [] -> shared_ok (s <| sh_holders ::= <[i := h]> |>).
Proof.
  intros Hs Hne Hh. pose proof (sk_entry _ Hs _ Hne) as He. pose proof (sk_bound _ Hs _ He) as Hi.
  destruct Hs as [Hl Ho Hent Hr Hb]. split; simpl; try done.
  - by rewrite length_insert.
  - intros j c Hc. rewrite holdersOf_insert by done. case_decide; [subst|by apply Ho].
    split; [done|]. intros _. by apply (Ho _ _ Hc).
  - intros j. rewrite holdersOf_insert by done. case_decide; [by subst|apply Hent].
Qed.

(** A new reservation becomes the entry of the pool. *)
Lemma shared_new c h s :
  shared_ok s -> sh_entry s = None -> closed c = false -> rounds_ok c -> h <> [] ->
  shared_ok (mkShared (Some (length (sh_connections s))) (sh_connections s ++ [c])
               (sh_holders s ++ [h])).
Proof.
  intros [Hl Ho He Hr Hb] Hn Hc Hrc Hh.
  assert (Hnone : forall j, holdersOf s j = []).
  { intros j. destruct (holdersOf s j) eqn:E; [done|]. specialize (He j). rewrite E in He.
    by rewrite Hn in He; discriminate He. }
  assert (Hof : forall j, default [] ((sh_holders s ++ [h]) !! j) =
                          if decide (j = length (sh_connections s)) then h else []).
  { intros j. destruct (decide (j < length (sh_holders s))%nat).
    - rewrite lookup_app_l, decide_False by lia. apply (Hnone j).
    - rewrite lookup_app_r by lia. rewrite Hl. case_decide; [by subst; rewrite Nat.sub_diag|].
      by destruct (j - _)%nat as [|[]] eqn:Ej; [lia|..]. }
  split; unfold holdersOf; simpl.
  - rewrite !length_app. simpl. lia.
  - intros j c'. rewrite Hof. intros [[Hj Hc']|[-> <-]]%lookup_snoc_Some.
    + rewrite decide_False by lia. specialize (Ho _ _ Hc'). by rewrite Hnone in Ho.
    + by rewrite decide_True.
  - intros j. rewrite Hof. case_decide; [by subst|done].
  - intros j c' [[_ Hc']|[_ <-]]%lookup_snoc_Some; eauto.
  - intros j [= <-]. rewrite length_app. simpl. lia.
Qed.

Lemma hold_new holder heartbeatMs s :
  sh_entry s = None -> length (sh_holders s) = length (sh_connections s) ->
  (hold holder heartbeatMs s).1 =
    mkShared (Some (length (sh_connections s))) (sh_connections s ++ [reopen newReserved])
      (sh_holders s ++ [[(holder, heartbeatMs)]]).
Proof.
  destruct s as [entry conns holders]. simpl. intros -> Hl. unfold hold, holdersOf, jsset. simpl.
  rewrite (lookup_app_r holders), <- Hl, Nat.sub_diag by lia. simpl.
  unfold upd. simpl. f_equal; [by rewrite alter_app_r_alt, Hl, Nat.sub_diag by lia|].
  by rewrite insert_app_r_alt, Nat.sub_diag by lia.
Qed.

Lemma hold_ok holder heartbeatMs s : shared_ok s -> shared_ok (hold holder heartbeatMs s).1.
Proof.
  intros Hs. destruct (sh_entry s) as [i|] eqn:E.
  - pose proof (sk_bound _ Hs _ E) as Hi. unfold hold. rewrite E. simpl. set (h := jsset holder heartbeatMs (holdersOf s i)).
    assert (Hh : h <> []) by apply jsset_nonempty. case_bool_decide as Eh.
    + apply shared_change; try done. intros c Hc Hr. rewrite reopen_closed.
      by split; [apply reopen_rounds_ok|].
    + apply shared_holders; try done. intros Hnil. apply Eh. by apply jsset_first.
  - rewrite hold_new by (done || apply (sk_length _ Hs)).
    apply shared_new; try done. apply reopen_rounds_ok, (rc_run_rounds None []).
Qed.

Lemma leave_ok holder i s : shared_ok s -> shared_ok (leave holder i s).
Proof.
  intros Hs. unfold leave. case_match eqn:Eh; [|done]. simpl.
  assert (Hne : holdersOf s i <> []) by (intros E; by rewrite E in Eh).
  pose proof (sk_entry _ Hs _ Hne) as He. pose proof (sk_bound _ Hs _ He) as Hi.
  case_bool_decide as Ej.
  - apply shared_change; try done. intros c Hc Hr. split; [by apply close_rounds_ok|].
    by rewrite Ej.
  - by apply shared_holders.
Qed.

Lemma shared_step_ok s e : shared_ok s -> shared_ok (shared_step s e).
Proof.
  intros Hs. destruct e as [holder h|holder i|i|i te]; simpl.
  - case_match; [done|]. by apply hold_ok.
  - by apply leave_ok.
  - unfold drain. case_bool_decide as Eh; simpl; [|done]. case_bool_decide as Ee; [|done].
    destruct Hs as [Hl Ho He Hr Hb]. split; simpl; try done.
    intros j Hj. pose proof (He j Hj) as Hj'. rewrite Ee in Hj'. by simplify_eq.
  - destruct (opens_or_closes te.2) eqn:Eo; [by destruct te as [? []]|].
    assert (Hin : shared_ok (s <| sh_connections ::=
                    alter (fun c => rc_step (retryCap (holdersOf s i)) c te) i |>)).
    { destruct Hs as [Hl Ho He Hr Hb]. split; simpl; try done.
      - by rewrite length_alter.
      - intros j c. destruct (decide (j = i)) as [->|]; [|rewrite list_lookup_alter_ne by done; apply Ho].
        rewrite list_lookup_alter_eq. intros (c0 & Hc0 & ->)%fmap_Some.
        rewrite rc_step_closed; eauto.
      - intros j c. destruct (decide (j = i)) as [->|]; [|rewrite list_lookup_alter_ne by done; apply Hr].
        rewrite list_lookup_alter_eq. intros (c0 & Hc0 & ->)%fmap_Some. apply rc_step_rounds. eauto.
      - intros j. rewrite length_alter. apply Hb. }
    by destruct te as [? []].
Qed.

Lemma shared_run_ok evs : shared_ok (shared_run newShared evs).
Proof. apply (run_invariant shared_step); [intros; by apply shared_step_ok|]. split; simpl; done. Qed.

(** ** Theorems *)

(** While the gate is closed no statement sent through the gated view can
    take a lease, on every path of the view (with or without a pool, whatever
    the connect and the statement answer): a pure claim and a tier read are
    not sent, and a fused completion is sent with a claim limit of zero, all
    its other parameters unchanged, so it still settles its tasks. *)
Theorem closed_gate_takes_no_lease {R} connect (answer : res query_error R) text values sent vs :
  Sent sent vs ∈ (gatedQuery connect false answer text values).1 ->
  sent = text /\ takes_no_lease sent vs /\
  forall i, i <> FUSED_LIMIT_PARAMETER \/ isClaimStatement text = false ->
    forall v, default [] values !! i = Some v -> default [] vs !! i = Some v.
Proof.
  unfold gatedQuery. destruct (isClaimStatement text) eqn:Ec; cbn -[admitClaim].
  2:{ intros [= -> ->]%list_elem_of_singleton. by split_and!; [|left|]. }
  assert (H : forall admitted, admitClaim text values false = Ret admitted ->
    Sent sent vs = Sent text admitted ->
    sent = text /\ takes_no_lease sent vs /\
    forall i, i <> FUSED_LIMIT_PARAMETER \/ true = false ->
      forall v, default [] values !! i = Some v -> default [] vs !! i = Some v).
  { intros admitted (-> & l & task & tasks & -> & Ht & ->)%admitClaim_closed [= -> ->].
    split_and!; [done|right; split; [done|]; eexists; split; [done|apply js_set_eq]|].
    intros i [Hi|?] v Hv; [|done]. by apply js_set_ne. }
  destruct connect as [[]|]; cbn -[admitClaim]; [|by rewrite elem_of_nil|];
    destruct (admitClaim text values false) as [admitted|] eqn:Ea; cbn; try destruct answer;
    intros Hin; repeat (apply elem_of_cons in Hin as [Hin|Hin];
      [first [discriminate Hin | eapply H; [reflexivity|exact Hin]]|]); by apply elem_of_nil in Hin.
Qed.

Lemma closed_gate_takes_no_lease_witness :
  takes_no_lease complete_many_and_claim_v1
    (Some [VOther "queue"; VArray ["t"%string]; VOther "w"; VOther "r"; VOther "c"; VNumber 0]).
Proof.
  refine (proj1 (proj2 (closed_gate_takes_no_lease (Some (Ret tt)) (Ret tt)
    complete_many_and_claim_v1
    (Some [VOther "queue"; VArray ["t"%string]; VOther "w"; VOther "r"; VOther "c"; VNumber 4])
    _ _ _))).
  vm_compute. do 2 constructor.
Defined.

(** A claim through the gated view returns each client it borrows exactly
    once, after every statement it sent on it, and destroys it exactly when
    the statement failed; a statement that is no claim borrows nothing. *)
Theorem gated_query_returns_its_client {R} connect gateOpen (answer : res query_error R) text values :
  let '(effects, result) := gatedQuery connect gateOpen answer text values in
  (exists sent destroyed, effects = Borrowed :: sent ++ [Released destroyed] /\
     Forall (fun e => exists vs, e = Sent text vs) sent /\ (length sent <= 1)%nat /\
     isClaimStatement text = true /\
     (destroyed = true <-> exists e, result = Throw (StatementFailed e))) \/
  Forall (fun e => exists vs, e = Sent text vs) effects /\
    (connect = Some (Ret tt) -> isClaimStatement text = false).
Proof.
  unfold gatedQuery. destruct (isClaimStatement text) eqn:Ec; cbn -[admitClaim].
  2:{ right. split; [|done]. constructor; [eauto|constructor]. }
  destruct connect as [[[]|]|]; cbn -[admitClaim]; [|by right; split; [constructor|]|].
  - destruct (admitClaim text values gateOpen) as [admitted|e] eqn:Ea.
    + destruct answer; left;
        [exists [Sent text admitted], false|exists [Sent text admitted], true];
        (split_and!; [done|repeat constructor; eauto|simpl; lia|done|naive_solver]).
    + left. exists [], false. split_and!; [done|constructor|simpl; lia|done|].
      split; [done|]. intros [e' [= ->]]. revert Ea. unfold admitClaim. by repeat case_match.
  - destruct (admitClaim text values gateOpen); right; (split; [|done]); repeat constructor. eauto.
Qed.

(** The workers of one pool share one reservation: a reservation is open
    exactly while some worker holds it, and two held reservations are the
    same, however holds, closes, drains and the events inside the
    reservations interleave. *)
Theorem one_open_reservation_per_pool evs :
  let s := shared_run newShared evs in
  (forall i c, sh_connections s !! i = Some c -> (closed c = false <-> holdersOf s i <> [])) /\
  (forall i j, holdersOf s i <> [] -> holdersOf s j <> [] -> i = j).
Proof.
  intros s. pose proof (shared_run_ok evs) as Hs. fold s in Hs. split; [apply (sk_open _ Hs)|].
  intros i j Hi Hj. apply (sk_entry _ Hs) in Hi, Hj. congruence.
Qed.
