(* ===== verification/WorkerOptions.v ===== *)
(** * The options of a worker

    Model of the constructor of [Worker] in [typescript/core/src/worker.ts]:
    the defaults it derives, the order of its checks, and the settings every
    other part of the worker relies on; of [defaultDispatchCohorts],
    [requireTimerInterval] and [requireSafeInteger] there, and of
    [rejectRemovedWorkerOptions] of [worker-internal.ts].

    Options are JavaScript numbers, so a caller can pass a fraction, an
    infinity or NaN.  The quotients of the defaults are taken as exact
    rationals: on the values that pass the checks the double quotients have
    the same floor and ceiling. *)

From S2P Require Import Prelude Heartbeat ClaimGate.

(** ** Arithmetic of the defaults *)

Definition num_floor_div (n : num) (d : Z) : num :=
  match n with Fin q => num_of_Z (Qfloor (q / inject_Z d)) | _ => n end.
Definition num_ceil_div (n : num) (d : Z) : num :=
  match n with Fin q => num_of_Z (Qceiling (q / inject_Z d)) | _ => n end.

Definition num_leb (a b : num) : bool :=
  match a, b with
  | Fin p, Fin q => Qle_bool p q
  | Inf true, NaN | Inf false, NaN | NaN, _ | Fin _, NaN => false
  | Inf true, _ | _, Inf false => true
  | _, _ => false
  end.
Definition is_nan (n : num) : bool := match n with NaN => true | _ => false end.
Definition num_max (a b : num) : num :=
  if is_nan a || is_nan b then NaN else if num_leb a b then b else a.
Definition num_min (a b : num) : num :=
  if is_nan a || is_nan b then NaN else if num_leb a b then a else b.

Definition MAX_TIMER_DELAY_MS : Z := 2147483647.
Definition MAX_FIXED_RETRY_DELAY_MS : Z := 2147483647.
Definition DEFAULT_POLL_MS : Z := 250.

Definition defaultDispatchCohorts (concurrency : num) (spareConnections : option num) : num :=
  let cohorts := if num_lt_Z concurrency 8 then num_of_Z 1
                 else num_min 8 (num_max 2 (num_ceil_div concurrency 8)) in
  match spareConnections with
  | None => cohorts
  | Some spare => num_max 1 (num_min cohorts spare)
  end.

(** ** The checks *)

Inductive interval_name : Set :=
| HeartbeatMs | PollMs | MaintenanceIntervalMs | MaintenanceRoutinePollMs | RegistryIntervalMs.

Inductive option_error : Type :=
| RemovedSharedHeartbeats
| QueueAndQueues
| NoQueueName
| BadConcurrency
| BadCohorts
| BadLease
| BadInterval (name : interval_name)
| HeartbeatNotBelowLease
| BadCatchupLimit
| BadRetryDelay
| NoHeartbeatConnection (problem : ReservationProblem).

(** [requireSafeInteger] throws when the value is no safe integer, or below
    the minimum; [requireTimerInterval] also above the timer maximum. *)
Definition requireSafeInteger (value : num) (minimum : Z) (e : option_error) : res option_error unit :=
  throw_if (negb (isSafeInteger value) || num_lt_Z value minimum) e.
Definition requireTimerInterval (name : interval_name) (value : num) (minimum : Z)
    : res option_error unit :=
  throw_if (negb (isSafeInteger value) || num_lt_Z value minimum || num_gt_Z value MAX_TIMER_DELAY_MS)
    (BadInterval name).

(** ** The options and the worker *)

Inductive retry_option : Type := NoRetryDelay | FixedDelay (n : num) | DelayCallback.

(** A queue name that is no string is None. *)
Record WorkerOptions : Type := mkOptions {
  opt_sharedHeartbeats : bool;
  opt_queue : option (option string);
  opt_queues : option (list (option string));
  opt_concurrency : option num;
  opt_cohorts : option num;
  opt_leaseMs : option num;
  opt_heartbeatMs : option num;
  opt_pollMs : option num;
  opt_maintenanceIntervalMs : option num;
  opt_maintenanceRoutinePollMs : option num;
  opt_registryIntervalMs : option num;
  opt_scheduleNamespaces : option (list string);
  opt_scheduleCatchupLimit : option num;
  opt_retryDelayMs : retry_option;
}.
#[export] Instance eta_WorkerOptions : Eta WorkerOptions := fun o =>
  mkOptions (opt_sharedHeartbeats o) (opt_queue o) (opt_queues o) (opt_concurrency o)
    (opt_cohorts o) (opt_leaseMs o) (opt_heartbeatMs o) (opt_pollMs o)
    (opt_maintenanceIntervalMs o) (opt_maintenanceRoutinePollMs o) (opt_registryIntervalMs o)
    (opt_scheduleNamespaces o) (opt_scheduleCatchupLimit o) (opt_retryDelayMs o).

Definition noOptions : WorkerOptions :=
  mkOptions false None None None None None None None None None None None None NoRetryDelay.

(** A fixed retry delay goes to [fail_v1] as a PostgreSQL integer. *)
Definition requireRetryDelay (delay : retry_option) : res option_error unit :=
  match delay with
  | FixedDelay d =>
      requireSafeInteger d 0 BadRetryDelay ;;;
      throw_if (num_gt_Z d MAX_FIXED_RETRY_DELAY_MS) BadRetryDelay
  | _ => Ret tt
  end.
Definition requireReservation (problem : option ReservationProblem) : res option_error unit :=
  match problem with Some p => Throw (NoHeartbeatConnection p) | None => Ret tt end.

(** What the constructor reads of the queue. *)
Record QueueFacts : Type := {
  qf_defaultQueue : string;
  qf_supportsTaskNotifications : bool;
  qf_statementPoolCapacity : option num;
  qf_reservationProblem : option ReservationProblem;
}.

Record Settings : Type := mkSettings {
  queueNames : list (option string);
  concurrency : num;
  cohorts : num;
  set_leaseMs : num;
  set_heartbeatMs : num;
  heartbeatRoundMs : Z;
  startupBudgetMs : Z;
  pollMs : num;
  explicitPollMs : option num;
  maintenanceIntervalMs : num;
  maintenanceRoutinePollMs : num;
  registryIntervalMs : num;
  scheduleNamespaces : list string;
  scheduleCatchupLimit : num;
}.

(** [[...new Set(names)]]: the first occurrence of each name stays. *)
Fixpoint distinct {A} `{EqDecision A} (seen l : list A) : list A :=
  match l with
  | [] => []
  | x :: l => if decide (x ∈ seen) then distinct seen l else x :: distinct (x :: seen) l
  end.

Definition bad_name (name : option string) : bool :=
  match name with None => true | Some s => bool_decide (s = ""%string) end.

Definition configuredQueues (q : QueueFacts) (o : WorkerOptions) : list (option string) :=
  match opt_queues o with
  | Some names => names
  | None => [default (Some (qf_defaultQueue q)) (opt_queue o)]
  end.

(** The connections the pool has left for statements. *)
Definition spareConnections (q : QueueFacts) : option num :=
  (fun capacity => num_of_Z (num_to_Z capacity - (if qf_supportsTaskNotifications q then 1 else 0) - 1))
    <$> qf_statementPoolCapacity q.

Definition newWorker (q : QueueFacts) (o : WorkerOptions) : res option_error Settings :=
  throw_if (opt_sharedHeartbeats o) RemovedSharedHeartbeats ;;;
  throw_if (bool_decide (opt_queue o <> None) && bool_decide (opt_queues o <> None)) QueueAndQueues ;;;
  let names := distinct [] (configuredQueues q o) in
  throw_if (bool_decide (names = []) || existsb bad_name names) NoQueueName ;;;
  let concurrency := default (num_of_Z 1) (opt_concurrency o) in
  let cohorts := default (defaultDispatchCohorts concurrency (spareConnections q)) (opt_cohorts o) in
  let lease := default (num_of_Z 30000) (opt_leaseMs o) in
  let heartbeat := default (num_max 100 (num_floor_div lease 3)) (opt_heartbeatMs o) in
  let poll := default (num_of_Z DEFAULT_POLL_MS) (opt_pollMs o) in
  let maintenance := default (num_of_Z 1000) (opt_maintenanceIntervalMs o) in
  let routine := default (num_of_Z 60000) (opt_maintenanceRoutinePollMs o) in
  let registry := default (num_of_Z 5000) (opt_registryIntervalMs o) in
  let catchup := default (num_of_Z 100) (opt_scheduleCatchupLimit o) in
  throw_if (negb (isSafeInteger concurrency) || num_lt_Z concurrency 1 || num_gt_Z concurrency 100)
         BadConcurrency ;;;
  throw_if (negb (isSafeInteger cohorts) || num_lt_Z cohorts 1
               || num_gt_Z cohorts (num_to_Z concurrency)) BadCohorts ;;;
  requireSafeInteger lease 100 BadLease ;;;
  throw_if (num_gt_Z lease 86400000) BadLease ;;;
  requireTimerInterval HeartbeatMs heartbeat 1 ;;;
  throw_if (num_leb lease heartbeat) HeartbeatNotBelowLease ;;;
  requireTimerInterval PollMs poll 1 ;;;
  requireTimerInterval MaintenanceIntervalMs maintenance 100 ;;;
  requireTimerInterval MaintenanceRoutinePollMs routine 100 ;;;
  (if negb (num_leb registry 0 && num_leb 0 registry)
        then requireTimerInterval RegistryIntervalMs registry 100 else Ret tt) ;;;
  requireSafeInteger catchup 1 BadCatchupLimit ;;;
  throw_if (num_gt_Z catchup 10000) BadCatchupLimit ;;;
  requireRetryDelay (opt_retryDelayMs o) ;;;
  requireReservation (qf_reservationProblem q) ;;;
  Ret (mkSettings names concurrency cohorts lease heartbeat
         (heartbeatRoundBoundMs (num_to_Z heartbeat)) (heartbeatStartupBudgetMs (num_to_Z heartbeat))
         poll (opt_pollMs o) maintenance routine registry
         (distinct [] (default [] (opt_scheduleNamespaces o))) catchup).

(** ** Facts about the checks *)

Definition safe_between (n : num) (lo hi : Z) : Prop :=
  isSafeInteger n = true /\ lo <= num_to_Z n <= hi.

#[export] Instance safe_between_dec n lo hi : Decision (safe_between n lo hi).
Proof. unfold safe_between. apply _. Defined.

Lemma safe_between_iff n lo hi :
  negb (isSafeInteger n) || num_lt_Z n lo || num_gt_Z n hi = false <-> safe_between n lo hi.
Proof.
  unfold safe_between. destruct (isSafeInteger n) eqn:E; simpl; [|split; [done|by intros []]].
  rewrite num_lt_Z_safe, num_gt_Z_safe by done. lia.
Qed.

Lemma safe_between_two n lo hi :
  negb (isSafeInteger n) || num_lt_Z n lo = false -> num_gt_Z n hi = false -> safe_between n lo hi.
Proof. intros H1 H2. apply safe_between_iff. by rewrite H1, H2. Qed.

Lemma num_leb_safe a b :
  isSafeInteger a = true -> isSafeInteger b = true -> num_leb a b = (num_to_Z a <=? num_to_Z b).
Proof.
  intros (p & -> & Hp & _)%isSafeInteger_spec (q & -> & Hq & _)%isSafeInteger_spec. simpl in *.
  apply eq_true_iff_eq. rewrite Z.leb_le, Qle_bool_iff, Zle_Qle. by rewrite <- Hp, <- Hq.
Qed.

Lemma Qfloor_quotient q z d : 0 < d -> q == inject_Z z -> Qfloor (q / inject_Z d) = z / d.
Proof.
  intros Hd Hq. rewrite (Qfloor_comp _ (z # Z.to_pos d)); [simpl; f_equal; lia|].
  rewrite Hq. unfold Qeq, Qdiv, Qinv. destruct d; simpl; lia.
Qed.
Lemma Qceiling_quotient q z d : 0 < d -> q == inject_Z z -> Qceiling (q / inject_Z d) = - (- z / d).
Proof.
  intros Hd Hq. unfold Qceiling. f_equal.
  rewrite (Qfloor_comp _ ((- z) # Z.to_pos d)); [simpl; f_equal; lia|].
  rewrite Hq. unfold Qeq, Qdiv, Qinv. destruct d; simpl; lia.
Qed.

(** Integers stay integers under the arithmetic of the defaults. *)
Lemma num_floor_div_Z n d :
  0 < d -> isSafeInteger n = true -> num_floor_div n d = num_of_Z (num_to_Z n / d).
Proof.
  intros Hd (q & -> & Hq & _)%isSafeInteger_spec. unfold num_floor_div.
  by rewrite (Qfloor_quotient q (num_to_Z (Fin q))).
Qed.
Lemma num_ceil_div_Z n d :
  0 < d -> isSafeInteger n = true -> num_ceil_div n d = num_of_Z (- (- num_to_Z n / d)).
Proof.
  intros Hd (q & -> & Hq & _)%isSafeInteger_spec. unfold num_ceil_div.
  by rewrite (Qceiling_quotient q (num_to_Z (Fin q))).
Qed.
Lemma num_leb_Z a b : num_leb (num_of_Z a) (num_of_Z b) = (a <=? b).
Proof. simpl. apply eq_true_iff_eq. by rewrite Z.leb_le, Qle_bool_iff, <- Zle_Qle. Qed.
Lemma num_max_Z a b : num_max (num_of_Z a) (num_of_Z b) = num_of_Z (Z.max a b).
Proof. unfold num_max. rewrite num_leb_Z. simpl. case_match; f_equal; lia. Qed.
Lemma num_min_Z a b : num_min (num_of_Z a) (num_of_Z b) = num_of_Z (Z.min a b).
Proof. unfold num_min. rewrite num_leb_Z. simpl. case_match; f_equal; lia. Qed.

Lemma distinct_elem {A} `{EqDecision A} (x : A) : forall l seen,
  x ∈ distinct seen l <-> x ∈ l /\ x ∉ seen.
Proof.
  induction l as [|y l IH]; intros seen; simpl; [set_solver|]. case_decide as E.
  - rewrite IH, elem_of_cons. split; [naive_solver|]. intros [[->|?] ?]; done.
  - rewrite !elem_of_cons, IH, elem_of_cons. destruct (decide (x = y)); naive_solver.
Qed.
Lemma distinct_NoDup {A} `{EqDecision A} : forall (l seen : list A), NoDup (distinct seen l).
Proof.
  induction l as [|y l IH]; intros seen; simpl; [constructor|]. case_decide; [done|].
  constructor; [|done]. rewrite distinct_elem. set_solver.
Qed.

Lemma defaultCohorts_range k spare :
  1 <= k <= 100 -> (forall c, spare = Some c -> exists z, c = num_of_Z z) ->
  exists z, defaultDispatchCohorts (num_of_Z k) spare = num_of_Z z /\ 1 <= z <= k /\ z <= 8.
Proof.
  intros Hk Hspare. assert (Hs : isSafeInteger (num_of_Z k) = true).
  { apply isSafeInteger_Z. unfold MAX_SAFE_INTEGER. lia. }
  assert (exists z, (if num_lt_Z (num_of_Z k) 8 then num_of_Z 1
                     else num_min (num_of_Z 8) (num_max (num_of_Z 2) (num_ceil_div (num_of_Z k) 8)))
                    = num_of_Z z /\ 1 <= z <= k /\ z <= 8) as (z & Hz & Hr).
  { rewrite num_lt_Z_safe, num_ceil_div_Z, num_to_Z_of_Z, num_max_Z, num_min_Z by done.
    destruct (k <? 8) eqn:E; eexists; (split; [done|]); lia. }
  unfold defaultDispatchCohorts. rewrite Hz. destruct spare as [c|]; [|by exists z].
  destruct (Hspare c eq_refl) as [s ->]. rewrite num_min_Z, num_max_Z. eexists. split; [done|]. lia.
Qed.

(** ** Theorems *)

(** The settings a constructed worker has. *)
Record settings_ok (q : QueueFacts) (w : Settings) : Prop := {
  so_names : queueNames w <> [] /\ NoDup (queueNames w) /\
             forall name, name ∈ queueNames w -> exists s, name = Some s /\ s <> ""%string;
  so_concurrency : safe_between (concurrency w) 1 100;
  so_cohorts : safe_between (cohorts w) 1 (num_to_Z (concurrency w));
  so_lease : safe_between (set_leaseMs w) 100 86400000;
  so_heartbeat : safe_between (set_heartbeatMs w) 1 (num_to_Z (set_leaseMs w) - 1);
  so_round : 1 <= heartbeatRoundMs w <= num_to_Z (set_heartbeatMs w);
  so_budget : 5000 <= startupBudgetMs w <= MAX_TIMER_DELAY_MS;
  so_poll : safe_between (pollMs w) 1 MAX_TIMER_DELAY_MS;
  so_maintenance : safe_between (maintenanceIntervalMs w) 100 MAX_TIMER_DELAY_MS;
  so_routine : safe_between (maintenanceRoutinePollMs w) 100 MAX_TIMER_DELAY_MS;
  so_registry : num_leb (registryIntervalMs w) (num_of_Z 0) && num_leb (num_of_Z 0) (registryIntervalMs w) = true
                \/ safe_between (registryIntervalMs w) 100 MAX_TIMER_DELAY_MS;
  so_catchup : safe_between (scheduleCatchupLimit w) 1 10000;
  so_reservation : qf_reservationProblem q = None;
}.

Lemma heartbeatRound_range h : 1 <= h -> 1 <= heartbeatRoundBoundMs h <= h.
Proof. unfold heartbeatRoundBoundMs. intros Hh. assert (h * 3 / 4 <= h) by (apply Z.div_le_upper_bound; lia). lia. Qed.

(** The constructor inverted. *)
Lemma newWorker_inv q o w :
  newWorker q o = Ret w ->
  settings_ok q w /\
  set_leaseMs w = default (num_of_Z 30000) (opt_leaseMs o) /\
  set_heartbeatMs w = default (num_max 100 (num_floor_div (set_leaseMs w) 3)) (opt_heartbeatMs o) /\
  heartbeatRoundMs w = heartbeatRoundBoundMs (num_to_Z (set_heartbeatMs w)).
Proof.
  unfold newWorker, requireSafeInteger, requireTimerInterval.
  intros ([] & _ & H)%res_bind_Ret. apply res_bind_Ret in H as ([] & _ & H). cbv zeta in H.
  apply res_bind_Ret in H as ([] & Hn%throw_if_Ret & H).
  apply res_bind_Ret in H as ([] & Hc%throw_if_Ret%safe_between_iff & H).
  apply res_bind_Ret in H as ([] & Hk%throw_if_Ret%safe_between_iff & H).
  apply res_bind_Ret in H as ([] & Hl1%throw_if_Ret & H).
  apply res_bind_Ret in H as ([] & Hl2%throw_if_Ret & H).
  pose proof (safe_between_two _ _ _ Hl1 Hl2) as Hl. clear Hl1 Hl2.
  apply res_bind_Ret in H as ([] & Hh%throw_if_Ret%safe_between_iff & H).
  apply res_bind_Ret in H as ([] & Hhl%throw_if_Ret & H).
  rewrite num_leb_safe in Hhl by (apply Hl || apply Hh).
  apply res_bind_Ret in H as ([] & Hp%throw_if_Ret%safe_between_iff & H).
  apply res_bind_Ret in H as ([] & Hm%throw_if_Ret%safe_between_iff & H).
  apply res_bind_Ret in H as ([] & Hr%throw_if_Ret%safe_between_iff & H).
  apply res_bind_Ret in H as ([] & Hg & H).
  apply res_bind_Ret in H as ([] & Hu1%throw_if_Ret & H).
  apply res_bind_Ret in H as ([] & Hu2%throw_if_Ret & H).
  apply res_bind_Ret in H as ([] & _ & H). apply res_bind_Ret in H as ([] & Hq & H).
  injection H as <-. apply orb_false_elim in Hn as [Hn1%bool_decide_eq_false Hn2].
  destruct Hh as [Hh1 Hh2]. pose proof (heartbeatRound_range _ (proj1 Hh2)).
  split; [|done]. split; cbn -[safe_between distinct num_leb heartbeatRoundBoundMs]; try done.
  - split_and!; [done|apply distinct_NoDup|]. intros name Hin.
    destruct name as [name|]; [|exfalso]; [exists name; split; [done|]; intros ->|].
    all: revert Hn2; rewrite (proj2 (existsb_exists _ _)); [done|].
    all: eexists; split; [by apply list_elem_of_In|done].
  - split; [done|]. lia.
  - unfold heartbeatStartupBudgetMs, STARTUP_BUDGET_FLOOR_MS, MAX_TIMER_DELAY_MS in *. lia.
  - case_match eqn:E; [right|left]; [by apply throw_if_Ret, safe_between_iff in Hg|].
    by apply negb_false_iff in E.
  - by apply safe_between_two.
  - by destruct (qf_reservationProblem q).
Qed.


Definition sample_queue : QueueFacts :=
  {| qf_defaultQueue := "default"; qf_supportsTaskNotifications := true;
     qf_statementPoolCapacity := Some (num_of_Z 10); qf_reservationProblem := None |}.


(** The options of a caller who sets only the slots and the lease. *)
Definition slots_and_lease (k : Z) (lease : num) : WorkerOptions :=
  noOptions <| opt_concurrency := Some (num_of_Z k) |> <| opt_leaseMs := Some lease |>.

Record usable_queue (q : QueueFacts) : Prop := {
  uq_name : qf_defaultQueue q <> ""%string;
  uq_capacity : forall c, qf_statementPoolCapacity q = Some c -> exists z, c = num_of_Z z;
  uq_problem : qf_reservationProblem q = None;
}.

Lemma default_heartbeat lease :
  safe_between lease 100 86400000 ->
  num_max (num_of_Z 100) (num_floor_div lease 3) = num_of_Z (Z.max 100 (num_to_Z lease / 3)).
Proof. intros [Hs _]. by rewrite num_floor_div_Z, num_max_Z by done. Qed.

Lemma safe_between_Z z lo hi :
  lo <= z <= hi -> - MAX_SAFE_INTEGER <= lo -> hi <= MAX_SAFE_INTEGER -> safe_between (num_of_Z z) lo hi.
Proof.
  intros ? ? ?. unfold safe_between. rewrite num_to_Z_of_Z. split; [|lia].
  apply isSafeInteger_Z. lia.
Qed.

Lemma pass {A} c e (k : res option_error A) : c = false -> (throw_if c e ;;; k) = k.
Proof. by intros ->. Qed.

Lemma not_safe_between n lo hi :
  ~ safe_between n lo hi -> negb (isSafeInteger n) || num_lt_Z n lo = true \/ num_gt_Z n hi = true.
Proof.
  rewrite <- safe_between_iff. destruct (_ || num_lt_Z n lo); [by left|].
  destruct (num_gt_Z n hi); [by right|done].
Qed.

(** The constructor on those options is decided by the lease. *)
Lemma slots_and_lease_checks q k lease :
  usable_queue q -> 1 <= k <= 100 ->
  (exists w, newWorker q (slots_and_lease k lease) = Ret w) <->
  safe_between lease 100 86400000 /\ num_to_Z lease <> 100.
Proof.
  intros [Hname Hcap Hprob] Hk.
  destruct (defaultCohorts_range k (spareConnections q) Hk) as (z & Hz & Hz1 & _).
  { intros c. unfold spareConnections. destruct (qf_statementPoolCapacity q); simpl; [|done].
    intros [= <-]. eauto. }
  assert (Hin : forall v lo hi, lo <= v <= hi -> - MAX_SAFE_INTEGER <= lo -> hi <= MAX_SAFE_INTEGER ->
            negb (isSafeInteger (num_of_Z v)) || num_lt_Z (num_of_Z v) lo
            || num_gt_Z (num_of_Z v) hi = false).
  { intros. by apply safe_between_iff, safe_between_Z. }
  unfold newWorker, slots_and_lease, requireSafeInteger, requireTimerInterval, configuredQueues.
  cbn -[defaultDispatchCohorts isSafeInteger num_lt_Z num_gt_Z num_leb num_max num_floor_div
        num_of_Z Z.mul existsb throw_if heartbeatRoundBoundMs heartbeatStartupBudgetMs res_bind].
  unfold MAX_SAFE_INTEGER, MAX_TIMER_DELAY_MS in *.
  rewrite Hz, Hprob, num_to_Z_of_Z, !(pass false) by done.
  rewrite decide_False by (by intros ?%elem_of_nil).
  rewrite pass by (cbn [existsb bad_name]; by rewrite !bool_decide_false).
  rewrite !pass by (apply Hin; lia).
  destruct (decide (safe_between lease 100 86400000)) as [Hl|Hl].
  2:{ split; [|by intros []]. intros [w Hw]. exfalso.
      destruct (not_safe_between _ _ _ Hl) as [E|E].
      - by rewrite E in Hw.
      - destruct (negb (isSafeInteger lease) || _); [done|]. by rewrite E in Hw. }
  pose proof Hl as [Hs Hr]. rewrite default_heartbeat by done.
  pose proof (proj2 (safe_between_iff _ _ _) Hl) as Hb. apply orb_false_elim in Hb as [Hb1 Hb2].
  assert (num_to_Z lease / 3 < num_to_Z lease) by (apply Z.div_lt; lia).
  rewrite !pass by (done || (apply Hin; lia)).
  rewrite num_leb_safe, num_to_Z_of_Z 
    by (done || apply isSafeInteger_Z; unfold MAX_SAFE_INTEGER; lia).
  destruct (num_to_Z lease <=? _) eqn:E; simpl.
  - split; [by intros []|]. intros [_ Hne]. exfalso. lia.
  - split; [|eauto]. intros _. split; [done|]. lia.
Qed.

(** A caller who sets only the number of slots and the lease gets a worker
    exactly for the integer leases from 101 to 86400000 ms: the derived
    cohorts and the derived heartbeat interval are accepted for every such
    lease, every number of slots and every pool size; the shortest lease of
    the documented range, 100 ms, is refused, because the interval derived
    from it is 100 ms as well. *)
Theorem default_options_accepted q k lease (Hq : usable_queue q) (Hk : 1 <= k <= 100) :
  (exists w, newWorker q (slots_and_lease k lease) = Ret w) <-> safe_between lease 101 86400000.
Proof. rewrite slots_and_lease_checks by done. unfold safe_between. naive_solver lia. Qed.

Lemma sample_queue_usable : usable_queue sample_queue.
Proof. split; [done| |done]. intros c [= <-]. by exists 10. Qed.

Lemma default_options_accepted_witness :
  ~ (exists w, newWorker sample_queue (slots_and_lease 4 (num_of_Z 100)) = Ret w).
Proof.
  rewrite (default_options_accepted sample_queue 4 (num_of_Z 100) sample_queue_usable ltac:(lia)).
  intros [_ H]. vm_compute in H. by destruct H.
Defined.

(** The shortest lease of the documented range is refused for a reason the
    caller did not cause. *)
Lemma shortest_lease_refused :
  newWorker sample_queue (noOptions <| opt_leaseMs := Some (num_of_Z 100) |>)
  = Throw HeartbeatNotBelowLease.
Proof. vm_compute. reflexivity. Qed.

(** With the derived heartbeat interval, a round that times out leaves
    time for a whole further round before the lease ends (two intervals and
    one round bound fit into the lease) exactly for the leases of at least
    276 ms. *)
Theorem default_round_margin q k lease w (Hw : newWorker q (slots_and_lease k lease) = Ret w) :
  2 * num_to_Z (set_heartbeatMs w) + heartbeatRoundMs w < num_to_Z (set_leaseMs w)
  <-> 276 <= num_to_Z lease.
Proof.
  apply newWorker_inv in Hw as (Hok & Hl & Hh & Hr). pose proof (so_lease _ _ Hok) as Hs.
  cbn -[num_max num_floor_div] in Hl, Hh. rewrite default_heartbeat in Hh by done.
  rewrite Hr, Hh, num_to_Z_of_Z, Hl. rewrite Hl in Hs. destruct Hs as [_ Hs].
  unfold heartbeatRoundBoundMs. Z.to_euclidean_division_equations. lia.
Qed.

Lemma default_round_margin_witness : 2 * 10000 + 7500 < 30000 <-> 276 <= 30000.
Proof.
  exact (default_round_margin sample_queue 4 (num_of_Z 30000)
    (mkSettings [Some "default"%string] 4 1 30000 10000 7500 10000 250 None 1000 60000 5000 [] 100)
    eq_refl).
Defined.
