(* ===== verification/Claiming.v ===== *)
(** * Claiming tasks

    Model of [claimNextMany], [claimFromQueue], [readsFastTier],
    [trackFullTierClaim], [contextTier] and [runBatch] of
    [typescript/core/src/worker.ts].

    The environment is read in order: each reading of the clock or the gate
    and each statement takes the next position, and its value or answer is
    that of the position.  A claimed task is named by the object of its claim.
    The gate inside a statement ([ClaimGate]) shows as the error
    [GateClosed]. *)

From S2P Require Import Prelude.

Definition TIER_PROBE_INTERVAL_MS : Z := 30000.

Inductive claim_statement : Set :=
| SClaim (queue : string)
| SClaimFast (queue : string) (limit : Z)
| SClaimMany (queue : string) (limit : Z)
| STierRead (queue : string).

Inductive claim_error : Set :=
| FastTierUnsupported
| GateClosed
| ClaimFailed (e : nat).

(** A claim answers with tasks, a tier read with a flag. *)
Inductive claim_answer : Type :=
| Tasks (l : list nat)
| FastTier (b : bool)
| Failed (e : claim_error).

Record Claimer : Type := mkClaimer {
  cl_tick : nat;
  cl_log : list (nat * claim_statement);
  nextQueueIndex : nat;
  fullTierUntil : jsmap string Z;
  fastTierQueues : list string;
  fastTasks : list nat;
  claimSentAt : jsmap nat Z;
  tierReads : jsmap nat nat;                 (* a task and the read it shares *)
  tierAnswers : list (string * option bool); (* a read: its queue and its cached answer *)
}.
#[export] Instance eta_Claimer : Eta Claimer := fun s =>
  mkClaimer (cl_tick s) (cl_log s) (nextQueueIndex s) (fullTierUntil s) (fastTierQueues s)
    (fastTasks s) (claimSentAt s) (tierReads s) (tierAnswers s).

Record ClaimAttempt : Type := { claimed : list nat; attempt_error : option claim_error }.

(** The methods the queue has. *)
Record QueueMethods : Set := {
  has_claimMany : bool;
  has_claimFast : bool;
  has_tierRead : bool;
}.

Section claiming.
Variable clock : nat -> Z.
Variable gate : nat -> bool.
Variable answer : nat -> claim_statement -> claim_answer.
Variable methods : QueueMethods.
Variable queueNames : list string.
Local Abbreviation action := (stx Claimer claim_error).

Definition monotonicNow : action Z := fun s => (s <| cl_tick ::= S |>, Ret (clock (cl_tick s))).
Definition heartbeatGateOpen : action bool := fun s => (s <| cl_tick ::= S |>, Ret (gate (cl_tick s))).

(** A statement takes the next position. *)
Definition logged (st : claim_statement) (s : Claimer) : Claimer :=
  s <| cl_tick ::= S |> <| cl_log ::= fun l => l ++ [(cl_tick s, st)] |>.
Definition ask (st : claim_statement) : action claim_answer :=
  fun s => (logged st s,
            match answer (cl_tick s) st with Failed e => Throw e | a => Ret a end).
Definition askTasks (st : claim_statement) : action (list nat) :=
  a <-- ask st ;; st_ret (match a with Tasks l => l | _ => [] end).
Definition askTier (queue : string) : action bool :=
  a <-- ask (STierRead queue) ;; st_ret (match a with FastTier b => b | _ => false end).

(** ** The tier of a queue *)

Definition markFullTier (queue : string) (probedAt : Z) (s : Claimer) : Claimer :=
  s <| fullTierUntil ::= jsset queue (probedAt + ms TIER_PROBE_INTERVAL_MS) |>
    <| fastTierQueues ::= filter (fun q => q <> queue) |>.
Definition markFastTier (queue : string) (s : Claimer) : Claimer :=
  s <| fullTierUntil ::= jsdelete queue |>
    <| fastTierQueues ::= fun l => if decide (queue ∈ l) then l else l ++ [queue] |>.

Definition readsFastTier (queue : string) : action bool :=
  s <-- st_get ;;
  if bool_decide (queue ∈ fastTierQueues s) then st_ret true
  else if negb (has_tierRead methods) then st_ret true
  else askTier queue.

(** The tasks of one [claim_many_v1] result share one read. *)
Definition trackFullTierClaim (queue : string) (tasks : list nat) (s : Claimer) : Claimer :=
  if has_tierRead methods then
    s <| tierReads ::= fun m => foldl (fun m t => jsset t (length (tierAnswers s)) m) m tasks |>
      <| tierAnswers ::= fun l => l ++ [(queue, None)] |>
  else s.

(** One call of the shared read: a cached answer sends nothing, and a failed
    read caches nothing. *)
Definition tierRead (i : nat) : action bool :=
  s <-- st_get ;;
  match tierAnswers s !! i with
  | Some (_, Some fast) => st_ret fast
  | Some (queue, None) =>
      fast <-- askTier queue ;;
      st_modify (fun s => if (fast : bool) then markFastTier queue s else s) ;;-
      st_modify (fun s => s <| tierAnswers ::= <[i := (queue, Some fast)]> |>) ;;-
      st_ret fast
  | None => st_ret false
  end.

(** [contextTier]: known for a fast claim, else read on first use. *)
Inductive context_tier : Set := KnownTier (fast : bool) | ReadTier (i : nat).
Definition contextTier (s : Claimer) (task : nat) : context_tier :=
  if bool_decide (task ∈ fastTasks s) then KnownTier true
  else match jsget task (tierReads s) with Some i => ReadTier i | None => KnownTier false end.

(** ** One queue *)

Definition setSentAt (sentAt : Z) (tasks : list nat) (s : Claimer) : Claimer :=
  s <| claimSentAt ::= fun m => foldl (fun m t => jsset t sentAt m) m tasks |>.

(** The [if (fast)] block: the tasks of the fast claim, or None when the queue
    turned out to be full-tier, with the start of the lease window. *)
Definition claimFast (queue : string) (limit fastLimit probedAt sentAt : Z)
    : action (option (list nat) * Z) :=
  st_catch
    (tasks <-- askTasks (SClaimFast queue (Z.min limit fastLimit)) ;;
     st_modify (fun s => markFastTier queue s <| fastTasks ::= fun l => l ++ tasks |>) ;;-
     st_ret (Some tasks, sentAt))
    (fun error =>
       match error with
       | FastTierUnsupported =>
           st_modify (markFullTier queue probedAt) ;;-
           now <-- monotonicNow ;; st_ret (None, now)
       | _ => st_throw error
       end).

(** A probe of a queue of unknown tier reads it first. *)
Definition decideTier (queue : string) (probedAt : Z) : action bool :=
  reads <-- readsFastTier queue ;;
  if (reads : bool) then st_ret true
  else st_modify (markFullTier queue probedAt) ;;- st_ret false.

Definition claimFull (queue : string) (limit : Z) : action (list nat) :=
  tasks <-- askTasks (SClaimMany queue limit) ;;
  st_modify (fun s => if bool_decide (tasks = []) then s
                      else trackFullTierClaim queue tasks s) ;;-
  st_ret tasks.

(** The claim once the tier is decided.  The window of the tasks starts after
    the tier read. *)
Definition claimDecided (queue : string) (limit fastLimit probedAt : Z) (fast : bool)
    : action (list nat) :=
  sentAt <-- monotonicNow ;;
  r <-- (if fast then claimFast queue limit fastLimit probedAt sentAt else st_ret (None, sentAt)) ;;
  tasks <-- match r.1 with Some tasks => st_ret tasks | None => claimFull queue limit end ;;
  st_modify (setSentAt r.2 tasks) ;;- st_ret tasks.

Definition claimFromQueue (queue : string) (limit fastLimit : Z) : action (list nat) :=
  probedAt <-- monotonicNow ;;
  s <-- st_get ;;
  let fast := has_claimFast methods && (default 0 (jsget queue (fullTierUntil s)) <=? probedAt) in
  if fast && (fastLimit <=? 0) then st_ret []
  else
    fast <-- (if fast then decideTier queue probedAt else st_ret false) ;;
    claimDecided queue limit fastLimit probedAt fast.

(** ** All queues *)

(** The next queue in turn. *)
Definition nextQueue : action string :=
  s <-- st_get ;;
  st_modify (fun s => s <| nextQueueIndex := (S (nextQueueIndex s) mod length queueNames)%nat |>) ;;-
  st_ret (default ""%string (queueNames !! nextQueueIndex s)).

(** The loops build the list of tasks; an error ends them with the tasks
    claimed so far, so the list is part of their result. *)
Fixpoint claimEach (queues : nat) (limit fastLimit : Z) (tasks : list nat) (s : Claimer)
    : Claimer * ClaimAttempt :=
  match queues with
  | O => (s, {| claimed := tasks; attempt_error := None |})
  | S queues =>
      if negb (Z.of_nat (length tasks) <? limit) then (s, {| claimed := tasks; attempt_error := None |})
      else match heartbeatGateOpen s with
      | (s, Ret true) =>
          let n := Z.of_nat (length tasks) in
          match (queue <-- nextQueue ;; claimFromQueue queue (limit - n) (fastLimit - n)) s with
          | (s, Ret more) => claimEach queues limit fastLimit (tasks ++ more) s
          | (s, Throw e) => (s, {| claimed := tasks; attempt_error := Some e |})
          end
      | (s, _) => (s, {| claimed := tasks; attempt_error := None |})
      end
  end.

(** A queue without [claimMany] claims one task at a time; None when the fuel
    runs out. *)
Fixpoint claimSingly (fuel : nat) (limit : Z) (emptyQueues : nat) (tasks : list nat) (s : Claimer)
    : option (Claimer * ClaimAttempt) :=
  match fuel with
  | O => None
  | S fuel =>
      if negb (Z.of_nat (length tasks) <? limit) || negb (emptyQueues <? length queueNames)%nat
      then Some (s, {| claimed := tasks; attempt_error := None |})
      else match heartbeatGateOpen s with
      | (s, Ret true) =>
          match (queue <-- nextQueue ;; sentAt <-- monotonicNow ;;
                 claimed <-- askTasks (SClaim queue) ;;
                 st_modify (setSentAt sentAt (take 1 claimed)) ;;- st_ret (take 1 claimed)) s with
          | (s, Ret [task]) => claimSingly fuel limit 0 (tasks ++ [task]) s
          | (s, Ret _) => claimSingly fuel limit (S emptyQueues) tasks s
          | (s, Throw e) => Some (s, {| claimed := tasks; attempt_error := Some e |})
          end
      | (s, _) => Some (s, {| claimed := tasks; attempt_error := None |})
      end
  end.

(** Each turn claims a task or counts an empty queue. *)
Definition singly_fuel (limit : Z) : nat := (S (Z.to_nat limit) * S (length queueNames))%nat.

(** A gate that closed inside the statement is no error. *)
Definition hideGate (r : Claimer * ClaimAttempt) : Claimer * ClaimAttempt :=
  match attempt_error r.2 with
  | Some GateClosed => (r.1, {| claimed := claimed r.2; attempt_error := None |})
  | _ => r
  end.

Definition claimNextMany (limit fastLimit : Z) (s : Claimer) : option (Claimer * ClaimAttempt) :=
  hideGate <$> (if has_claimMany methods
                then Some (claimEach (length queueNames) limit fastLimit [] s)
                else claimSingly (singly_fuel limit) limit 0 [] s).

(** ** One pass of [runOnce] *)

Inductive batch_error : Type :=
| BeforeClaims (e : nat)             (* the previous run, the schema check or maintenance *)
| NotReady                           (* the reserved connection did not come *)
| ExecutionFailed (task e : nat)
| ClaimError (e : claim_error).

(** What [runBatch] meets outside the claims: the results of the steps before
    them, whether it stops or pauses at each of its three checks, the reserved
    connection, the free slots, the registered handlers, and how each
    execution settles. *)
Record BatchEnv : Type := {
  be_preparation : list (res nat unit);
  be_stops : nat -> bool;
  be_usable : option bool;           (* None: no reserved connection *)
  be_ready : bool;
  be_stopsAfterWait : bool;
  be_freeSlots : Z;
  be_handled : nat -> bool;
  be_settlement : nat -> res nat unit;
}.

Fixpoint firstFailure (env : BatchEnv) (tasks : list nat) : option batch_error :=
  match tasks with
  | [] => None
  | t :: tasks => match be_settlement env t with
                  | Throw e => Some (ExecutionFailed t e)
                  | Ret _ => firstFailure env tasks
                  end
  end.

Definition prepare (env : BatchEnv) : res batch_error unit :=
  res_iter (fun r => match r with Ret _ => Ret tt | Throw e => Throw (BeforeClaims e) end)
    (be_preparation env).

Definition awaitReady (env : BatchEnv) : res batch_error unit :=
  match be_usable env with
  | Some false => if be_ready env || be_stopsAfterWait env then Ret tt else Throw NotReady
  | _ => Ret tt
  end.

(** The executions it started and its result; None when the claims do not
    end. *)
Definition runBatch (env : BatchEnv) (includeMaintenance : bool) (s : Claimer)
    : option (Claimer * list nat * res batch_error bool) :=
  match (if includeMaintenance then prepare env else Ret tt) with
  | Throw e => Some (s, [], Throw e)
  | Ret _ =>
      if be_stops env 0 then Some (s, [], Ret false)
      else match awaitReady env with
      | Throw e => Some (s, [], Throw e)
      | Ret _ =>
          if be_stops env 1 then Some (s, [], Ret false)
          else if negb (be_stops env 2) && (0 <? be_freeSlots env) then
            '(s, attempt) ← claimNextMany (be_freeSlots env) (be_freeSlots env) s;
            Some (s, claimed attempt,
                  match firstFailure env (claimed attempt), attempt_error attempt with
                  | Some e, _ => Throw e
                  | None, Some e => Throw (ClaimError e)
                  | None, None => Ret (existsb (be_handled env) (claimed attempt))
                  end)
          else Some (s, [], Ret false)
      end
  end.

(** ** What a step of claiming did *)

(** The tasks a statement leased. *)
Definition granted_by (e : nat * claim_statement) : list nat :=
  match e.2, answer e.1 e.2 with
  | STierRead _, _ => []
  | SClaim _, Tasks l => take 1 l
  | _, Tasks l => l
  | _, _ => []
  end.
Definition granted (log : list (nat * claim_statement)) : list nat := flat_map granted_by log.

Lemma granted_app l1 l2 : granted (l1 ++ l2) = granted l1 ++ granted l2.
Proof. apply flat_map_app. Qed.

(** [z] is a reading of the clock before the statement that leased [t], with
    no other statement of [log] in between. *)
Definition window_start (from : nat) (log : list (nat * claim_statement)) (t : nat) (z : Z) : Prop :=
  exists i e, z = clock i /\ (from <= i < e.1)%nat /\ e ∈ log /\ t ∈ granted_by e /\
    forall e', e' ∈ log -> (i < e'.1)%nat -> (e.1 <= e'.1)%nat.

Record did (s s' : Claimer) (log : list (nat * claim_statement)) (tasks : list nat) : Prop := {
  did_log : cl_log s' = cl_log s ++ log;
  did_tick : (cl_tick s <= cl_tick s')%nat;
  did_ticks : forall e, e ∈ log -> (cl_tick s <= e.1 < cl_tick s')%nat;
  did_granted : granted log = tasks;
  did_other : forall t, t ∉ tasks -> jsget t (claimSentAt s') = jsget t (claimSentAt s);
  did_window : forall t, t ∈ tasks -> exists z, jsget t (claimSentAt s') = Some z /\
    window_start (cl_tick s) log t z;
}.

Lemma did_trans s1 s2 s3 l1 l2 t1 t2 :
  did s1 s2 l1 t1 -> did s2 s3 l2 t2 -> did s1 s3 (l1 ++ l2) (t1 ++ t2).
Proof.
  intros [A1 A2 A3 A4 A5 A6] [B1 B2 B3 B4 B5 B6]. split.
  - by rewrite B1, A1, app_assoc.
  - lia.
  - intros e [He|He]%elem_of_app; [apply A3 in He|apply B3 in He]; lia.
  - by rewrite granted_app, A4, B4.
  - intros t Ht. rewrite elem_of_app in Ht. rewrite B5, A5 by tauto. done.
  - intros t Ht. destruct (decide (t ∈ t2)) as [H2|H2].
    + destruct (B6 t H2) as (z & Hz & i & e & -> & Hi & He & Hg & Hn). exists (clock i).
      split; [done|]. exists i, e.
      split; [done|]. split; [lia|]. split; [set_solver|]. split; [done|].
      intros e' [He'|He']%elem_of_app Hlt; [|auto]. apply A3 in He'. lia.
    + apply elem_of_app in Ht as [Ht|?]; [|done].
      destruct (A6 t Ht) as (z & Hz & i & e & -> & Hi & He & Hg & Hn). exists (clock i).
      rewrite B5 by done. split; [done|]. exists i, e.
      split; [done|]. split; [lia|]. split; [set_solver|]. split; [done|].
      intros e' [He'|He']%elem_of_app Hlt; [auto|]. apply A3 in He. apply B3 in He'. lia.
Qed.

Lemma did_then s1 s2 s3 l t : did s1 s2 l t -> did s2 s3 [] [] -> did s1 s3 l t.
Proof. intros H1 H2. rewrite <- (app_nil_r l), <- (app_nil_r t). by eapply did_trans. Qed.

Lemma did_after s1 s2 s3 l1 l2 t : did s1 s2 l1 [] -> did s2 s3 l2 t -> did s1 s3 (l1 ++ l2) t.
Proof. intros H1 H2. rewrite <- (app_nil_l t). by eapply did_trans. Qed.

(** Steps that lease nothing. *)
Lemma did_quiet s s' log :
  cl_log s' = cl_log s ++ log -> (cl_tick s <= cl_tick s')%nat ->
  (forall e, e ∈ log -> (cl_tick s <= e.1 < cl_tick s')%nat) -> granted log = [] ->
  claimSentAt s' = claimSentAt s -> did s s' log [].
Proof. intros ? ? ? ? E. split; try done; intros t; [by rewrite E|by intros ?%elem_of_nil]. Qed.
Lemma did_refl s : did s s [] [].
Proof. apply did_quiet; try done. - by rewrite app_nil_r. - by intros ? ?%elem_of_nil. Qed.

Lemma sentAt_fold z tasks : forall (m : jsmap nat Z) t,
  jsget t (foldl (fun m t => jsset t z m) m tasks) = if decide (t ∈ tasks) then Some z else jsget t m.
Proof.
  induction tasks as [|x tasks IH]; intros m t; simpl; [done|].
  rewrite IH, jsget_set. destruct (decide (t ∈ tasks)).
  { by rewrite decide_True by set_solver. }
  destruct (decide (t = x)); [rewrite decide_True by set_solver|rewrite decide_False by set_solver];
    done.
Qed.

(** The part of [claimFromQueue] that decides the tier leases nothing. *)
Lemma readsFastTier_did queue s :
  exists s' r log, readsFastTier queue s = (s', r) /\ did s s' log [] /\
    (log = [] \/ log = [(cl_tick s, STierRead queue)]) /\
    (r = Ret true -> queue ∈ fastTierQueues s \/ has_tierRead methods = false \/
       exists k, log = [(k, STierRead queue)] /\ answer k (STierRead queue) = FastTier true).
Proof.
  unfold readsFastTier, st_bind, st_get.
  case_bool_decide as Eq; [by do 3 eexists; split_and!; [done|apply did_refl|by left|auto]|].
  destruct (has_tierRead methods) eqn:Er;
    [|by do 3 eexists; split_and!; [done|apply did_refl|by left|auto]].
  assert (Hd : did s (logged (STierRead queue) s) [(cl_tick s, STierRead queue)] []).
  { apply did_quiet; simpl; try done; [lia|]. intros e ->%list_elem_of_singleton. simpl. lia. }
  unfold askTier, ask, st_bind, st_ret. cbv iota beta. change (negb true) with false. cbv iota.
  destruct (answer (cl_tick s) (STierRead queue)) as [l|b|e] eqn:Ea; rewrite ?Ea;
    eexists (logged _ s), _, [(cl_tick s, STierRead queue)];
    (split_and!; [reflexivity|exact Hd|by right|]); intros [= H]. subst. eauto.
Qed.

(** A statement that leases tasks, with their windows starting at reading
    [i], after which no other statement was sent. *)
Lemma did_lease s0 s l0 st tasks i :
  did s0 s l0 [] -> granted_by (cl_tick s, st) = tasks -> (cl_tick s0 <= i < cl_tick s)%nat ->
  (forall e, e ∈ l0 -> (e.1 <= i)%nat) ->
  forall s', cl_tick s' = S (cl_tick s) -> cl_log s' = cl_log s ++ [(cl_tick s, st)] ->
  claimSentAt s' = foldl (fun m t => jsset t (clock i) m) (claimSentAt s) tasks ->
  did s0 s' (l0 ++ [(cl_tick s, st)]) tasks.
Proof.
  intros [D1 D2 D3 D4 D5 D6] Hg Hi Hl0 s' Et El Ec. split.
  - by rewrite El, D1, app_assoc.
  - lia.
  - intros e [He| ->%list_elem_of_singleton]%elem_of_app; [apply D3 in He|simpl]; lia.
  - rewrite granted_app, D4. unfold granted. simpl. by rewrite Hg, app_nil_r.
  - intros t Ht. rewrite Ec, sentAt_fold, decide_False by done. apply D5. by intros ?%elem_of_nil.
  - intros t Ht. exists (clock i). rewrite Ec, sentAt_fold, decide_True by done. split; [done|].
    exists i, (cl_tick s, st). split; [done|]. split; [simpl; lia|]. split; [set_solver|].
    split; [by rewrite Hg|].
    intros e' [He| ->%list_elem_of_singleton]%elem_of_app Hlt; [apply Hl0 in He; lia|done].
Qed.

(** What [askTasks] does, for a statement that is no tier read. *)
Lemma askTasks_cases st s :
  (forall q, st <> STierRead q) -> (forall q, st <> SClaim q) ->
  exists r, askTasks st s = (logged st s, r) /\
    granted_by (cl_tick s, st) = match r with Ret l => l | Throw _ => [] end.
Proof.
  intros Ht Hc. unfold askTasks, ask, st_bind, st_ret, granted_by. simpl.
  destruct (answer (cl_tick s) st) as [l|b|e] eqn:Ea; rewrite ?Ea; eexists; (split; [reflexivity|]);
    destruct st; simpl; try done; try (by destruct (Ht queue)); by destruct (Hc queue).
Qed.

Lemma logged_quiet st s :
  granted_by (cl_tick s, st) = [] -> did s (logged st s) [(cl_tick s, st)] [].
Proof.
  intros Hg. apply did_quiet; simpl; try done; [lia| |].
  - intros e ->%list_elem_of_singleton. simpl. lia.
  - unfold granted. simpl. by rewrite Hg.
Qed.

Lemma markFullTier_did queue probedAt s : did s (markFullTier queue probedAt s) [] [].
Proof. apply did_quiet; try done; simpl; [by rewrite app_nil_r|by intros ? ?%elem_of_nil]. Qed.
Lemma reading_did s : did s (s <| cl_tick ::= S |>) [] [].
Proof. apply did_quiet; try done; simpl; [by rewrite app_nil_r|lia|by intros ? ?%elem_of_nil]. Qed.

Definition tier_known (queue : string) (s : Claimer) (log : list (nat * claim_statement)) : Prop :=
  queue ∈ fastTierQueues s \/ has_tierRead methods = false \/
  exists k, (k, STierRead queue) ∈ log /\ answer k (STierRead queue) = FastTier true.

Definition no_fast_claim (log : list (nat * claim_statement)) : Prop :=
  forall k q limit, (k, SClaimFast q limit) ∉ log.

Lemma decideTier_did queue probedAt s :
  exists s' r log, decideTier queue probedAt s = (s', r) /\ did s s' log [] /\ no_fast_claim log /\
    (r = Ret true -> tier_known queue s log).
Proof.
  destruct (readsFastTier_did queue s) as (s1 & r & log & E & Hd & Hl & Hr).
  assert (Hno : no_fast_claim log).
  { intros k q l Hin. destruct Hl as [->| ->]; [by apply elem_of_nil in Hin|].
    by apply list_elem_of_singleton in Hin. }
  unfold decideTier, st_bind. rewrite E. destruct r as [[]|e].
  - exists s1, (Ret true), log. split_and!; try done. intros _.
    destruct (Hr eq_refl) as [?|[?|(k & -> & Hk)]]; [by left|by right; left|]. right; right.
    exists k. by split; [apply list_elem_of_singleton|].
  - exists (markFullTier queue probedAt s1), (Ret false), log. split_and!; try done.
    eapply did_then; [done|apply markFullTier_did].
  - exists s1, (Throw e), log. by split_and!.
Qed.

Lemma claimFast_did queue limit fastLimit probedAt sentAt s :
  exists s' r e, e = (cl_tick s, SClaimFast queue (Z.min limit fastLimit)) /\
    claimFast queue limit fastLimit probedAt sentAt s = (s', r) /\
    match r with
    | Ret (Some tasks, z) =>
        z = sentAt /\ granted_by e = tasks /\ cl_tick s' = S (cl_tick s) /\
        cl_log s' = cl_log s ++ [e] /\ claimSentAt s' = claimSentAt s
    | Ret (None, z) => did s s' [e] [] /\ exists i, cl_tick s' = S i /\ (cl_tick s < i)%nat /\ z = clock i
    | Throw _ => did s s' [e] []
    end.
Proof.
  set (st := SClaimFast queue (Z.min limit fastLimit)).
  destruct (askTasks_cases st s) as (r & Hr & Hg); [done..|].
  unfold claimFast, st_catch, st_bind. fold st. rewrite Hr. destruct r as [tasks|error].
  - do 3 eexists. split_and!; [done|reflexivity|done..].
  - assert (Hd : did s (logged st s) [(cl_tick s, st)] []) by (by apply logged_quiet).
    destruct error; (do 3 eexists; split_and!; [done|reflexivity|]); try done.
    split; [eapply did_then; [exact Hd|]; eapply did_then; [apply markFullTier_did|apply reading_did]|].
    eexists. split_and!; [reflexivity| |done]. simpl. lia.
Qed.

Lemma claimFull_did queue limit s :
  exists s' r e, e = (cl_tick s, SClaimMany queue limit) /\ claimFull queue limit s = (s', r) /\
    granted_by e = match r with Ret l => l | Throw _ => [] end /\
    cl_tick s' = S (cl_tick s) /\ cl_log s' = cl_log s ++ [e] /\ claimSentAt s' = claimSentAt s.
Proof.
  destruct (askTasks_cases (SClaimMany queue limit) s) as (r & Hr & Hg); [done..|].
  unfold claimFull, st_bind, st_modify. rewrite Hr. destruct r as [tasks|error].
  - do 3 eexists. split_and!; [done|reflexivity|done|..];
      unfold trackFullTierClaim; repeat case_match; done.
  - do 3 eexists. split_and!; [done|reflexivity|done..].
Qed.

(** The SQL functions lease at most as many tasks as they are asked for. *)
Definition answers_bounded : Prop :=
  forall k q limit,
    Z.of_nat (length (granted_by (k, SClaimMany q limit))) <= Z.max 0 limit /\
    Z.of_nat (length (granted_by (k, SClaimFast q limit))) <= Z.max 0 limit.

Definition fast_claims_ok (queue : string) (s : Claimer) (log : list (nat * claim_statement)) : Prop :=
  forall k q limit, (k, SClaimFast q limit) ∈ log ->
    q = queue /\ default 0 (jsget q (fullTierUntil s)) <= clock (cl_tick s) /\ tier_known queue s log.

Definition result_of {A} (r : res claim_error (list A)) : list A :=
  match r with Ret l => l | Throw _ => [] end.

(** The claim of a full-tier queue, with the windows starting at [i]. *)
Lemma claimFull_window queue limit i s0 s l0 :
  did s0 s l0 [] -> (cl_tick s0 <= i < cl_tick s)%nat -> (forall e, e ∈ l0 -> (e.1 <= i)%nat) ->
  exists s' r, 
    (tasks <-- claimFull queue limit ;;
     st_modify (setSentAt (clock i) tasks) ;;- st_ret tasks) s = (s', r) /\
    did s0 s' (l0 ++ [(cl_tick s, SClaimMany queue limit)]) (result_of r) /\
    granted_by (cl_tick s, SClaimMany queue limit) = result_of r.
Proof.
  intros H0 Hi Hl0.
  destruct (claimFull_did queue limit s) as (s1 & r & e & -> & E & Hg & Ht & Hl & Hc).
  unfold st_bind at 1. rewrite E. destruct r as [tasks|error]; do 2 eexists;
    (split_and!; [reflexivity| |done]).
  - eapply did_lease; try done. simpl. by rewrite Hc.
  - eapply (did_lease s0 s l0 _ [] i); done.
Qed.

Lemma claimDecided_did queue limit fastLimit probedAt fast s0 s l0 :
  did s0 s l0 [] ->
  exists s' r log, claimDecided queue limit fastLimit probedAt fast s = (s', r) /\
    did s0 s' (l0 ++ log) (result_of r) /\
    (forall k q l, (k, SClaimFast q l) ∈ log -> q = queue /\ fast = true) /\
    (answers_bounded -> Z.of_nat (length (result_of r)) <= Z.max 0 limit).
Proof.
  intros H0. set (s1 := s <| cl_tick ::= S |>).
  assert (H1 : did s0 s1 l0 []) by (eapply did_then; [exact H0|apply reading_did]).
  assert (Hl0 : forall e, e ∈ l0 -> (e.1 <= cl_tick s)%nat).
  { intros e He. apply (did_ticks _ _ _ _ H0) in He. lia. }
  pose proof (did_tick _ _ _ _ H0) as Ht0.
  assert (E0 : claimDecided queue limit fastLimit probedAt fast s =
    (r <-- (if fast then claimFast queue limit fastLimit probedAt (clock (cl_tick s))
            else st_ret (None, clock (cl_tick s))) ;;
     tasks <-- match r.1 with Some tasks => st_ret tasks | None => claimFull queue limit end ;;
     st_modify (setSentAt r.2 tasks) ;;- st_ret tasks) s1) by done.
  rewrite E0. destruct fast.
  2:{ destruct (claimFull_window queue limit (cl_tick s) s0 s1 l0) as (s' & r & E & Hd & Hg);
        [done|simpl; lia|done|].
      exists s', r, [(cl_tick s1, SClaimMany queue limit)]. split_and!; [exact E|done| |].
      - intros k q l Hin%list_elem_of_singleton. done.
      - intros Hb. rewrite <- Hg. apply Hb. }
  destruct (claimFast_did queue limit fastLimit probedAt (clock (cl_tick s)) s1)
    as (s2 & r & e & -> & E & Hr).
  unfold st_bind at 1. rewrite E. destruct r as [[[tasks|] z]|error].
  - destruct Hr as (-> & Hg & Ht & Hl & Hc).
    do 2 eexists. exists [(cl_tick s1, SClaimFast queue (Z.min limit fastLimit))].
    split_and!; [reflexivity|eapply did_lease; try done; [simpl; lia|simpl; by rewrite Hc]| |].
    + by intros k q l [= -> ->]%list_elem_of_singleton.
    + intros Hb. simpl. rewrite <- Hg. destruct (Hb (cl_tick s1) queue (Z.min limit fastLimit)). lia.
  - destruct Hr as (Hd & i & Ht2 & Hi & ->).
    destruct (claimFull_window queue limit i s0 s2
      (l0 ++ [(cl_tick s1, SClaimFast queue (Z.min limit fastLimit))])) as (s' & r & E' & Hd' & Hg).
    + by eapply did_after.
    + simpl in Hi. lia.
    + simpl in Hi. intros e [He| ->%list_elem_of_singleton]%elem_of_app; [apply Hl0 in He; lia|simpl; lia].
    + exists s', r. eexists. split_and!; [exact E'|by rewrite app_assoc| |].
      * intros k q l Hin%elem_of_app. rewrite !list_elem_of_singleton in Hin. naive_solver.
      * intros Hb. rewrite <- Hg. apply Hb.
  - exists s2, (Throw error). eexists. split_and!; [reflexivity| | |simpl; lia].
    + by eapply did_after.
    + by intros k q l [= -> ->]%list_elem_of_singleton.
Qed.

Lemma claimFromQueue_did queue limit fastLimit s :
  exists s' r log, claimFromQueue queue limit fastLimit s = (s', r) /\ did s s' log (result_of r) /\
    fast_claims_ok queue s log /\
    (answers_bounded -> Z.of_nat (length (result_of r)) <= Z.max 0 limit).
Proof.
  set (s1 := s <| cl_tick ::= S |>).
  assert (H1 : did s s1 [] []) by apply reading_did.
  set (fast := has_claimFast methods && (default 0 (jsget queue (fullTierUntil s)) <=? clock (cl_tick s))).
  assert (E0 : claimFromQueue queue limit fastLimit s =
    (if fast && (fastLimit <=? 0) then st_ret []
     else fast <-- (if fast then decideTier queue (clock (cl_tick s)) else st_ret false) ;;
          claimDecided queue limit fastLimit (clock (cl_tick s)) fast) s1) by done.
  rewrite E0. destruct (fast && (fastLimit <=? 0)).
  { exists s1, (Ret []), []. split_and!; [done..| |simpl; lia]. intros k q l ?%elem_of_nil. done. }
  assert (Hfast : fast = true -> default 0 (jsget queue (fullTierUntil s)) <= clock (cl_tick s)).
  { unfold fast. intros [_ ?]%andb_prop. lia. }
  destruct fast.
  - destruct (decideTier_did queue (clock (cl_tick s)) s1) as (s2 & r & l0 & E & Hd & Hno & Hk).
    unfold st_bind at 1. rewrite E.
    assert (H2 : did s s2 l0 []) by (rewrite <- (app_nil_l l0); by eapply did_after).
    destruct r as [b|error].
    + destruct (claimDecided_did queue limit fastLimit (clock (cl_tick s)) b s s2 l0 H2)
        as (s' & r & log & E' & Hd' & Hq & Hb).
      exists s', r, (l0 ++ log). split_and!; [done..| |done].
      intros k q l [Hin|Hin]%elem_of_app; [by apply Hno in Hin|].
      destruct (Hq _ _ _ Hin) as [-> ->]. split_and!; [done|auto|].
      destruct (Hk eq_refl) as [?|[?|(k' & ? & ?)]]; [by left|by right; left|]. right; right.
      exists k'. set_solver.
    + exists s2, (Throw error), l0. split_and!; [done..| |simpl; lia].
      intros k q l Hin. by apply Hno in Hin.
  - destruct (claimDecided_did queue limit fastLimit (clock (cl_tick s)) false s s1 [] H1)
      as (s' & r & log & E' & Hd' & Hq & Hb).
    exists s', r, log. split_and!; [done..| |done].
    intros k q l Hin. by destruct (Hq _ _ _ Hin).
Qed.

Lemma nextQueue_did s : exists s' q, nextQueue s = (s', Ret q) /\ did s s' [] [].
Proof.
  do 2 eexists. split; [reflexivity|].
  apply did_quiet; try done; simpl; [by rewrite app_nil_r|by intros ? ?%elem_of_nil].
Qed.

Definition within (limit : Z) (l : list nat) : Prop := Z.of_nat (length l) <= limit.

(** A pass ends with the tasks it started with and every task that its
    statements leased. *)
Definition pass_ok (limit : Z) (tasks : list nat) (s s' : Claimer) (a : ClaimAttempt) : Prop :=
  exists log more, did s s' log more /\ claimed a = tasks ++ more /\
    (answers_bounded -> within limit tasks -> within limit (claimed a)).

Lemma pass_stop limit tasks s s' a :
  did s s' [] [] -> claimed a = tasks -> pass_ok limit tasks s s' a.
Proof. intros H <-. exists [], []. by rewrite app_nil_r. Qed.

Lemma pass_more limit tasks more log s s1 s' a :
  did s s1 log more -> (answers_bounded -> within limit tasks -> within limit (tasks ++ more)) ->
  pass_ok limit (tasks ++ more) s1 s' a -> pass_ok limit tasks s s' a.
Proof.
  intros H Hw (log' & more' & H' & Hc & Hw'). exists (log ++ log'), (more ++ more').
  split_and!; [by eapply did_trans|by rewrite Hc, app_assoc|auto].
Qed.

Lemma claimEach_ok limit fastLimit : forall queues tasks s,
  let '(s', a) := claimEach queues limit fastLimit tasks s in pass_ok limit tasks s s' a.
Proof.
  induction queues as [|queues IH]; intros tasks s; simpl; [by apply pass_stop; [apply did_refl|]|].
  destruct (Z.of_nat (length tasks) <? limit) eqn:El; simpl; [|by apply pass_stop; [apply did_refl|]].
  destruct (gate (cl_tick s)); [|by apply pass_stop; [apply reading_did|]].
  set (s1 := s <| cl_tick ::= S |>). destruct (nextQueue_did s1) as (s2 & q & E & H2).
  unfold st_bind at 1. rewrite E.
  set (n := Z.of_nat (length tasks)).
  destruct (claimFromQueue_did q (limit - n) (fastLimit - n) s2) as (s3 & r & log & E3 & H3 & _ & Hb).
  rewrite E3.
  assert (H13 : did s s3 log (result_of r)).
  { rewrite <- (app_nil_l log). eapply did_after; [|exact H3].
    eapply did_then; [apply reading_did|exact H2]. }
  destruct r as [more|e].
  - specialize (IH (tasks ++ more) s3). destruct (claimEach _ _ _ _ _) as [s' a].
    eapply pass_more; [exact H13| |exact IH].
    intros Hbound Hw. unfold within in *. rewrite length_app. specialize (Hb Hbound).
    cbn [result_of] in *. apply Z.ltb_lt in El. subst n. lia.
  - exists log, []. split_and!; [done|by rewrite app_nil_r|done].
Qed.

(** One turn of the loop that claims singly. *)
Lemma claimOne_did s :
  exists s' r log,
    (queue <-- nextQueue ;; sentAt <-- monotonicNow ;;
     claimed <-- askTasks (SClaim queue) ;;
     st_modify (setSentAt sentAt (take 1 claimed)) ;;- st_ret (take 1 claimed)) s = (s', r) /\
    did s s' log (result_of r) /\ (length (result_of r) <= 1)%nat.
Proof.
  destruct (nextQueue_did s) as (s1 & q & E & H1). unfold st_bind at 1. rewrite E.
  set (s2 := s1 <| cl_tick ::= S |>).
  assert (H2 : did s s2 [] []) by (eapply did_then; [exact H1|apply reading_did]).
  pose proof (did_tick _ _ _ _ H1) as Ht.
  assert (E2 : (sentAt <-- monotonicNow ;; claimed <-- askTasks (SClaim q) ;;
                st_modify (setSentAt sentAt (take 1 claimed)) ;;- st_ret (take 1 claimed)) s1 =
               (claimed <-- askTasks (SClaim q) ;;
                st_modify (setSentAt (clock (cl_tick s1)) (take 1 claimed)) ;;-
                st_ret (take 1 claimed)) s2) by done.
  rewrite E2. unfold askTasks, ask, st_bind, st_ret, st_modify. cbn [fst snd].
  assert (Hg : granted_by (cl_tick s2, SClaim q) =
               match answer (cl_tick s2) (SClaim q) with Tasks l => take 1 l | _ => [] end) by done.
  assert (Hl : forall s' tasks, granted_by (cl_tick s2, SClaim q) = tasks ->
            cl_tick s' = S (cl_tick s2) -> cl_log s' = cl_log s2 ++ [(cl_tick s2, SClaim q)] ->
            claimSentAt s' = foldl (fun m t => jsset t (clock (cl_tick s1)) m) (claimSentAt s2) tasks ->
            did s s' [(cl_tick s2, SClaim q)] tasks).
  { intros s' tasks ? ? ? ?. apply (did_lease s s2 [] _ _ (cl_tick s1)); try done; [simpl; lia|].
    by intros ? ?%elem_of_nil. }
  destruct (answer (cl_tick s2) (SClaim q)) as [l|b|e] eqn:Ea; rewrite ?Ea in *;
    do 2 eexists; exists [(cl_tick s2, SClaim q)]; (split_and!; [reflexivity|by apply Hl|]).
  - cbn [result_of]. rewrite length_take. lia.
  - simpl. lia.
  - simpl. lia.
Qed.

(** The loop ends: each turn claims a task, or counts one more empty queue. *)
Lemma claimSingly_ok limit : forall fuel empty tasks s,
  (Z.to_nat (limit - Z.of_nat (length tasks)) * S (length queueNames) + (length queueNames - empty)
   < fuel)%nat ->
  exists s' a, claimSingly fuel limit empty tasks s = Some (s', a) /\ pass_ok limit tasks s s' a.
Proof.
  induction fuel as [|fuel IH]; intros empty tasks s Hf; [by apply Nat.nlt_0_r in Hf|].
  simpl. destruct (_ || _) eqn:Eg; [do 2 eexists; split; [done|]; by apply pass_stop; [apply did_refl|]|].
  apply orb_false_elim in Eg as [E1%negb_false_iff E2%negb_false_iff].
  apply Z.ltb_lt in E1. apply Nat.ltb_lt in E2.
  destruct (gate (cl_tick s)); [|do 2 eexists; split; [done|]; by apply pass_stop; [apply reading_did|]].
  set (s1 := s <| cl_tick ::= S |>).
  destruct (claimOne_did s1) as (s2 & r & log & E & Hd & Hone). rewrite E.
  assert (H2 : did s s2 log (result_of r)).
  { rewrite <- (app_nil_l log). eapply did_after; [apply reading_did|exact Hd]. }
  destruct r as [[|task [|]]|e]; cbn [result_of] in *.
  - destruct (IH (S empty) tasks s2) as (s' & a & -> & Hp).
    { set (p := (Z.to_nat _ * _)%nat) in *. clearbody p. lia. } do 2 eexists. split; [done|].
    eapply (pass_more _ _ []); [exact H2|by rewrite app_nil_r|by rewrite app_nil_r].
  - destruct (IH 0%nat (tasks ++ [task]) s2) as (s' & a & -> & Hp).
    { rewrite length_app. simpl. nia. }
    do 2 eexists. split; [done|]. eapply pass_more; [exact H2| |exact Hp].
    intros _ _. unfold within. rewrite length_app. simpl. lia.
  - simpl in Hone. lia.
  - do 2 eexists. split; [done|]. exists log, []. split_and!; [done|by rewrite app_nil_r|done].
Qed.

Lemma claimNextMany_ok limit fastLimit s :
  exists s' a, claimNextMany limit fastLimit s = Some (s', a) /\ pass_ok limit [] s s' a /\
    attempt_error a <> Some GateClosed.
Proof.
  unfold claimNextMany.
  assert (Hh : forall s' a, pass_ok limit [] s s' a ->
            exists s2 a2, hideGate (s', a) = (s2, a2) /\ pass_ok limit [] s s2 a2 /\
              attempt_error a2 <> Some GateClosed).
  { intros s' a Hp. unfold hideGate. simpl.
    destruct (attempt_error a) as [[]|] eqn:Ea; do 2 eexists;
      (split; [done|]; split; [done|simpl; congruence]). }
  destruct (has_claimMany methods).
  - pose proof (claimEach_ok limit fastLimit (length queueNames) [] s) as Hp.
    destruct (claimEach _ _ _ _ _) as [s' a]. destruct (Hh _ _ Hp) as (s2 & a2 & E & ?).
    exists s2, a2. simpl. by rewrite E.
  - destruct (claimSingly_ok limit (singly_fuel limit) 0 [] s) as (s' & a & -> & Hp).
    { unfold singly_fuel. simpl. rewrite Z.sub_0_r. lia. }
    destruct (Hh _ _ Hp) as (s2 & a2 & E & ?). exists s2, a2. simpl. by rewrite E.
Qed.
End claiming.

(** ** Theorems *)


(** A claim pass leases at most as many tasks as it was asked for, over
    all its queues together, provided that each statement of the SQL protocol
    does. *)
Theorem claim_pass_within_limit clock gate answer methods queueNames limit fastLimit s s' a
    (Hb : answers_bounded answer) (Hl : 0 <= limit)
    (Hc : claimNextMany clock gate answer methods queueNames limit fastLimit s = Some (s', a)) :
  Z.of_nat (length (claimed a)) <= limit.
Proof.
  destruct (claimNextMany_ok clock gate answer methods queueNames limit fastLimit s)
    as (s1 & a1 & E & (log & more & _ & _ & Hw) & _).
  rewrite Hc in E. simplify_eq. by apply Hw.
Qed.

(** C35: The local lease window of each claimed task starts at a clock reading
    taken before the statement that leased it, so it never outlasts the
    database's lease, and after every earlier statement of the pass, so a
    slow tier read or a refused fast claim does not shorten it. *)
Theorem claim_window_starts_at_claim clock gate answer methods queueNames limit fastLimit s s' a
    (Hc : claimNextMany clock gate answer methods queueNames limit fastLimit s = Some (s', a)) :
  exists log, cl_log s' = cl_log s ++ log /\
    forall t, t ∈ claimed a -> exists z, jsget t (claimSentAt s') = Some z /\
      window_start clock answer (cl_tick s) log t z.
Proof.
  destruct (claimNextMany_ok clock gate answer methods queueNames limit fastLimit s)
    as (s1 & a1 & E & (log & more & [] & Hm & _) & _).
  rewrite Hc in E. simplify_eq. exists log. split; [done|]. intros t. rewrite Hm. simpl. auto.
Qed.

(** A fast claim is sent only to a queue that is not marked full-tier, and
    only when the queue answered as fast-tier before, has no tier read, or
    answered the tier read of this probe as fast-tier. *)
Theorem fast_claims_go_to_fast_queues clock answer methods queue limit fastLimit s :
  exists s' r log,
    claimFromQueue clock answer methods queue limit fastLimit s = (s', r) /\
    cl_log s' = cl_log s ++ log /\
    forall k q l, (k, SClaimFast q l) ∈ log ->
      q = queue /\ default 0 (jsget q (fullTierUntil s)) <= clock (cl_tick s) /\
      tier_known answer methods queue s log.
Proof.
  destruct (claimFromQueue_did clock (fun _ => true) answer methods queue limit fastLimit s)
    as (s' & r & log & E & [] & Hf & _).
  by exists s', r, log.
Qed.

Lemma firstFailure_some env tasks t e :
  t ∈ tasks -> be_settlement env t = Throw e -> exists x, firstFailure env tasks = Some x.
Proof.
  induction tasks as [|u tasks IH]; simpl; [by intros ?%elem_of_nil|].
  intros [->|Hin]%elem_of_cons Ht; [rewrite Ht; eauto|]. destruct (be_settlement env u); eauto.
Qed.

(** A [runOnce] pass starts an execution for every task it leased, also
    when a later claim failed, and reports a failed execution or a failed
    claim: it returns normally only when neither happened. *)
Theorem run_once_runs_what_it_leased clock gate answer methods queueNames env m s :
  exists s' started (r : res batch_error bool) log,
    runBatch clock gate answer methods queueNames env m s = Some (s', started, r) /\
    cl_log s' = cl_log s ++ log /\ started = granted answer log /\
    (is_ret r = true -> forall t, t ∈ started -> be_settlement env t = Ret tt).
Proof.
  assert (Hno : forall x (r : res batch_error bool), x = Some (s, [], r) ->
    exists s' started (r : res batch_error bool) log, x = Some (s', started, r) /\
    cl_log s' = cl_log s ++ log /\ started = granted answer log /\
    (is_ret r = true -> forall t, t ∈ started -> be_settlement env t = Ret tt)).
  { intros x r ->. exists s, [], r, []. rewrite app_nil_r. split_and!; try done.
    by intros _ t ?%elem_of_nil. }
  unfold runBatch. destruct (if m then prepare env else Ret tt); [|by eapply Hno].
  destruct (be_stops env 0); [by eapply Hno|]. destruct (awaitReady env); [|by eapply Hno].
  destruct (be_stops env 1); [by eapply Hno|]. destruct (negb _ && _); [|by eapply Hno].
  destruct (claimNextMany_ok clock gate answer methods queueNames (be_freeSlots env)
              (be_freeSlots env) s) as (s' & at' & -> & (log & more & [] & Hc & _) & Hg).
  do 3 eexists. exists log. split_and!; [reflexivity|done|simpl in Hc; congruence|].
  intros Hr t Ht. destruct (be_settlement env t) as [[]|e] eqn:Es; [done|].
  destruct (firstFailure_some env (claimed at') t e Ht Es) as [x Hx]. by rewrite Hx in Hr.
Qed.

(** A worker on two queues: the first is full-tier, the second fast-tier. *)
Definition sample_methods : QueueMethods :=
  {| has_claimMany := true; has_claimFast := true; has_tierRead := true |}.
Definition sample_answer (k : nat) (st : claim_statement) : claim_answer :=
  match st with
  | STierRead q => FastTier (bool_decide (q = "b"%string))
  | SClaimMany _ limit => Tasks (take (Z.to_nat limit) [(10 * k)%nat; (10 * k + 1)%nat])
  | SClaimFast _ limit => Tasks (take (Z.to_nat limit) [(10 * k)%nat])
  | SClaim _ => Tasks [k]
  end.
Definition sample_clock (k : nat) : Z := ms (Z.of_nat k).
Definition sample_gate (k : nat) : bool := true.
Definition sample_claimer : Claimer := mkClaimer 0 [] 0 [] [] [] [] [] [].
Definition sample_pass : option (Claimer * ClaimAttempt) :=
  claimNextMany sample_clock sample_gate sample_answer sample_methods
    ["a"%string; "b"%string] 4 4 sample_claimer.
Definition sample_after : Claimer * ClaimAttempt :=
  default (sample_claimer, {| claimed := []; attempt_error := None |}) sample_pass.

Lemma sample_bounded : answers_bounded sample_answer.
Proof.
  intros k q limit. unfold granted_by. cbn -[take Nat.mul].
  rewrite !length_take. cbn [length]. lia.
Qed.

Lemma claim_pass_within_limit_witness : claimed sample_after.2 = [40; 41; 90]%nat /\ 3 <= 4.
Proof.
  split; [vm_compute; reflexivity|].
  exact (claim_pass_within_limit sample_clock sample_gate sample_answer sample_methods ["a"%string; "b"%string] 4 4
    sample_claimer sample_after.1 sample_after.2 sample_bounded ltac:(lia)
    ltac:(vm_compute; reflexivity)).
Defined.

Lemma claim_window_starts_at_claim_witness :
  exists log, cl_log sample_after.1 = [] ++ log /\
    forall t, t ∈ claimed sample_after.2 -> exists z, jsget t (claimSentAt sample_after.1) = Some z /\
      window_start sample_clock sample_answer 0 log t z.
Proof.
  exact (claim_window_starts_at_claim sample_clock sample_gate sample_answer sample_methods ["a"%string; "b"%string] 4 4
    sample_claimer sample_after.1 sample_after.2 ltac:(vm_compute; reflexivity)).
Defined.
