(* ===== verification/Dispatch.v ===== *)
(** * The dispatch loop

    Model of [dispatchLoop], [startExecution], [writeCompletion] (its
    reservation), [nextDispatchPollMs], [wakeDispatch], [pause], [resume] and
    [stop] of [typescript/core/src/worker.ts], and of [jitterDuration] of
    [notifications.ts].

    The loop is a step function on its state: what it does between two awaits
    is one step, and a settled promise, a fused completion or a call from
    outside is an event.  A claim that settles with no attempt stopped in its
    notification delay.  A task is named by its object, an error by a
    number. *)

From S2P Require Import Prelude WorkerOptions.
From Stdlib Require Import Lqa.

Definition DEFAULT_NOTIFICATION_FALLBACK_POLL_MS : Z := 5000.
Definition MAX_EMPTY_POLL_MS : Z := 5000.

Definition dispatchRefillBatch (concurrency : Z) : Z := - (- concurrency / 4).

(** [jitterDuration], with the random number in [0, 1). *)
Definition jitterDuration (random : Q) (durationMs : Z) : Z :=
  Z.max 1 (Qfloor (inject_Z durationMs * ((9 # 10) + random * (2 # 10)) + (1 # 2))).

Inductive settlement : Set :=
| ExecutionSettled (executionId : nat) (rejected : option nat)
| ClaimSettled (claimId : nat) (attempt : option (list nat * option nat)).

(** A claim in flight: what its closure holds. *)
Record claim_info : Set := mkClaimInfo {
  ci_limit : Z;
  ci_cohort : option nat;
  ci_cohortLimit : Z;
  ci_wakeVersion : nat;
}.

(** A fused completion that reserved slots. *)
Record reservation : Set := mkReservation {
  rv_limit : Z;
  rv_cohort : nat;
  rv_wakeVersion : nat;
}.

Record empty_wait : Set := mkEmptyWait {
  ew_deadline : Z;
  ew_wakeVersion : nat;
  ew_release : bool;
}.

Inductive phase : Set := Dispatching | DrainingClaims | DrainingExecutions | Ended.
#[export] Instance phase_eq_dec : EqDecision phase.
Proof. solve_decision. Defined.

Record Dispatch : Type := mkDispatch {
  (* the variables of the loop *)
  active : list nat;
  executionTasks : jsmap nat nat;
  executionCohorts : jsmap nat nat;
  handedOver : list nat;
  claims : jsmap nat claim_info;
  settled : list settlement;
  reserved : Z;
  cohortActive : list Z;
  cohortHandedOver : list Z;
  cohortReserved : list Z;
  cohortClaims : list Z;
  wholeClaims : Z;
  nextExecutionId : nat;
  nextClaimId : nat;
  firstFailure : option (nat * nat);
  claimError : option nat;
  emptyWait : option empty_wait;
  loop : phase;
  (* fields of the worker *)
  taskCohorts : jsmap nat nat;
  slotHandedOver : list nat;
  activeSlots : Z;
  consecutiveEmptyClaims : nat;
  listenedAtLastWait : bool;
  listening : bool;
  dispatchWakeVersion : nat;
  stopping : bool;
  paused : bool;
  gateOpen : bool;
  onlyFast : bool;              (* claimFast exists and no queue is marked full-tier *)
  tierKnown : bool;             (* every queue answered as fast-tier *)
  (* promises outside the loop *)
  running : list nat;           (* executions that have not ended *)
  reservations : jsmap nat reservation;
  reported : list nat;          (* the calls of [fail] *)
  created : list nat;           (* the task objects that claims returned *)
}.
#[export] Instance eta_Dispatch : Eta Dispatch := fun d =>
  mkDispatch (active d) (executionTasks d) (executionCohorts d) (handedOver d) (claims d) (settled d)
    (reserved d) (cohortActive d) (cohortHandedOver d) (cohortReserved d) (cohortClaims d)
    (wholeClaims d) (nextExecutionId d) (nextClaimId d) (firstFailure d) (claimError d)
    (emptyWait d) (loop d) (taskCohorts d) (slotHandedOver d) (activeSlots d)
    (consecutiveEmptyClaims d) (listenedAtLastWait d) (listening d) (dispatchWakeVersion d)
    (stopping d) (paused d) (gateOpen d) (onlyFast d) (tierKnown d) (running d) (reservations d)
    (reported d) (created d).

(** A JavaScript [Set] of numbers, in the order of insertion. *)
Definition set_add (x : nat) (l : list nat) : list nat := if decide (x ∈ l) then l else l ++ [x].
Definition set_delete (x : nat) (l : list nat) : list nat := filter (fun y => y <> x) l.

(** [counts[i] += by] *)
Definition bump (i : nat) (by_ : Z) (l : list Z) : list Z := alter (fun z => z + by_) i l.
Definition at_ (l : list Z) (i : nat) : Z := default 0 (l !! i).

Section dispatch.
(** The settings of the worker, and whether a task's type has a handler. *)
Variables (conc : Z) (cohorts : nat) (queues : nat) (explicitPoll : option Z).
Variable handled : nat -> bool.
Implicit Types d : Dispatch.

(** The first cohorts take the remainder of an uneven split. *)
Definition capacityOf (cohort : nat) : Z :=
  conc / Z.of_nat cohorts + (if Z.of_nat cohort <? conc mod Z.of_nat cohorts then 1 else 0).
Definition cohortCapacity : list Z := map capacityOf (seq 0 cohorts).
Definition refillBatch : Z := dispatchRefillBatch conc.

Definition newDispatch : Dispatch :=
  mkDispatch [] [] [] [] [] [] 0 (replicate cohorts 0) (replicate cohorts 0) (replicate cohorts 0)
    (replicate cohorts 0) 0 0 0 None None None Dispatching [] [] 0 0 false false 0 false false true
    false false [] [] [] [].

(** ** Slots *)

Definition cohortFree d (cohort : nat) : Z :=
  at_ cohortCapacity cohort - at_ (cohortActive d) cohort + at_ (cohortHandedOver d) cohort
  - at_ (cohortReserved d) cohort.

Definition roomiestCohort d : nat :=
  foldl (fun best cohort => if cohortFree d best <? cohortFree d cohort then cohort else best)
    0%nat (seq 1 (cohorts - 1)).

Definition freeSlots d : Z :=
  conc - Z.of_nat (length (active d)) + Z.of_nat (length (handedOver d)) - reserved d.

(** ** Waits *)

(** [nextDispatchPollMs] *)
Definition nextDispatchPollMs (random : Q) d : Dispatch * Z :=
  let d := if negb (listening d) && listenedAtLastWait d
           then d <| consecutiveEmptyClaims ::= Nat.min 1 |> else d in
  let d := d <| listenedAtLastWait := listening d |> in
  let baseMs := default (if listening d then DEFAULT_NOTIFICATION_FALLBACK_POLL_MS
                         else DEFAULT_POLL_MS) explicitPoll in
  let durationMs :=
    if listening d then Z.max 1 baseMs
    else Z.min MAX_EMPTY_POLL_MS
           (Z.max 1 baseMs * 2 ^ Z.of_nat (Nat.min (consecutiveEmptyClaims d - 1) 30)) in
  (d, Z.min MAX_TIMER_DELAY_MS (jitterDuration random durationMs)).

Definition waitFrom (now : Z) (random : Q) (wakeVersion : nat) (release : bool) d : Dispatch :=
  let '(d, delayMs) := nextDispatchPollMs random d in
  d <| emptyWait := Some (mkEmptyWait (now + ms delayMs) wakeVersion release) |>.

(** ** Executions *)

Definition fail (error : nat) d : Dispatch :=
  d <| reported ::= fun l => l ++ [error] |> <| stopping := true |>
    <| dispatchWakeVersion ::= S |>.

Definition launch (preferred : option nat) d (task : nat) : Dispatch :=
  let cohort := match preferred with
                | Some c => if 0 <? cohortFree d c then c else roomiestCohort d
                | None => roomiestCohort d
                end in
  let id := nextExecutionId d in
  d <| nextExecutionId ::= S |> <| executionTasks ::= jsset id task |>
    <| executionCohorts ::= jsset id cohort |> <| cohortActive ::= bump cohort 1 |>
    <| taskCohorts ::= jsset task cohort |> <| active ::= set_add id |>
    <| activeSlots ::= Z.add 1 |> <| running ::= fun l => l ++ [id] |>.

Definition taskOf d (id : nat) : option nat := jsget id (executionTasks d).

(** [observe]: the execution leaves its slot, then its error counts. *)
Definition forget (id : nat) d : Dispatch :=
  let task := taskOf d id in
  let cohort := default 0%nat (jsget id (executionCohorts d)) in
  let d := d <| active ::= set_delete id |> <| executionTasks ::= jsdelete id |>
             <| executionCohorts ::= jsdelete id |> <| cohortActive ::= bump cohort (-1) |> in
  match task with
  | Some t => if decide (t ∈ handedOver d)
              then d <| handedOver ::= set_delete t |> <| cohortHandedOver ::= bump cohort (-1) |>
              else d
  | None => d
  end.

Definition recordRejection (id : nat) (rejected : option nat) d : Dispatch :=
  match rejected with
  | None => d
  | Some reason =>
      let d := if bool_decide (firstFailure d = None) && bool_decide (claimError d = None)
               then fail reason d else d in
      match firstFailure d with
      | Some (first, _) => if (id <? first)%nat then d <| firstFailure := Some (id, reason) |> else d
      | None => d <| firstFailure := Some (id, reason) |>
      end
  end.

Definition observe (id : nat) (rejected : option nat) d : Dispatch :=
  recordRejection id rejected (forget id d).

(** ** Claims *)

Definition startClaim (limit : Z) (cohort : option nat) (cohortLimit : Z) d : Dispatch :=
  let id := nextClaimId d in
  let d := d <| nextClaimId ::= S |> <| reserved ::= Z.add limit |> in
  let d := match cohort with
           | None => d <| wholeClaims ::= Z.add 1 |>
           | Some c => d <| cohortClaims ::= bump c 1 |> <| cohortReserved ::= bump c cohortLimit |>
           end in
  d <| claims ::= jsset id (mkClaimInfo limit cohort cohortLimit (dispatchWakeVersion d)) |>.

Definition settleClaim (now : Z) (random : Q) (id : nat) (attempt : option (list nat * option nat)) d
    : Dispatch :=
  match jsget id (claims d) with
  | None => d
  | Some (mkClaimInfo limit cohort cohortLimit wakeVersion) =>
      let d := d <| claims ::= jsdelete id |> <| reserved ::= fun r => r - limit |> in
      let d := match cohort with
               | None => d <| wholeClaims ::= fun n => n - 1 |>
               | Some c => d <| cohortClaims ::= bump c (-1) |>
                             <| cohortReserved ::= bump c (- cohortLimit) |>
               end in
      match attempt with
      | None => d
      | Some (claimed, error) =>
          let d := foldl (launch cohort) d claimed in
          match error with
          | Some e =>
              let d := if bool_decide (firstFailure d = None) && bool_decide (claimError d = None)
                       then fail e d else d in
              match claimError d with Some _ => d | None => d <| claimError := Some e |> end
          | None =>
              if existsb handled claimed
              then d <| consecutiveEmptyClaims := O |> <| emptyWait := None |>
              else
                let d := d <| consecutiveEmptyClaims ::= S |> in
                match claimed, emptyWait d with
                | [], Some _ => d
                | [], None => waitFrom now random wakeVersion false d
                | _, Some (mkEmptyWait _ _ true) => d
                | _, _ => waitFrom now random wakeVersion true d
                end
          end
      end
  end.

(** ** Fused completions *)

Definition reserveCompletionClaim (task : nat) d : Dispatch :=
  if negb (bool_decide (loop d = Dispatching)) || stopping d || paused d
     || bool_decide (firstFailure d <> None) || bool_decide (claimError d <> None)
     || bool_decide (emptyWait d <> None) || negb (gateOpen d)
  then d
  else
    let cohort := default 0%nat (jsget task (taskCohorts d)) in
    let limit := Z.min (freeSlots d) (cohortFree d cohort) + 1 in
    if ((0 <? wholeClaims d) || (0 <? at_ (cohortClaims d) cohort)) && (limit <? refillBatch) then d
    else
      d <| reserved ::= Z.add limit |> <| cohortReserved ::= bump cohort limit |>
        <| handedOver ::= set_add task |> <| cohortHandedOver ::= bump cohort 1 |>
        <| reservations ::= jsset task (mkReservation limit cohort (dispatchWakeVersion d)) |>.

(** [settle] of a reservation: the claimed tasks, or None when the completion
    failed. *)
Definition settleCompletion (now : Z) (random : Q) (task : nat) (claimed : option (list nat)) d
    : Dispatch :=
  match jsget task (reservations d) with
  | None => d
  | Some (mkReservation limit cohort wakeVersion) =>
      let d := d <| reservations ::= jsdelete task |> <| reserved ::= fun r => r - limit |>
                 <| cohortReserved ::= bump cohort (- limit) |> in
      let d := match claimed with
               | Some (_ :: _) => d <| slotHandedOver ::= set_add task |> <| activeSlots ::= fun n => n - 1 |>
               | _ => if decide (task ∈ handedOver d)
                      then d <| handedOver ::= set_delete task |> <| cohortHandedOver ::= bump cohort (-1) |>
                      else d
               end in
      let d := foldl (launch (Some cohort)) d (default [] claimed) in
      match claimed with
      | None => d
      | Some tasks =>
          if existsb handled tasks then d <| consecutiveEmptyClaims := O |>
          else match tasks with
               | [] => if bool_decide (queues = 1%nat) then
                         let d := d <| consecutiveEmptyClaims ::= S |> in
                         match emptyWait d with
                         | Some _ => d
                         | None => waitFrom now random wakeVersion false d
                         end
                       else d
               | _ => d
               end
      end
  end.

(** ** The loop *)

(** The claims of one turn.  The first claim reserves every free slot, so the
    [while] loop of the source runs at most once. *)
Fixpoint fillSlots (fuel : nat) d : Dispatch :=
  match fuel with
  | O => d
  | S fuel =>
      if (0 <? freeSlots d) && (bool_decide (claims d = []) || (refillBatch <=? freeSlots d))
      then fillSlots fuel (startClaim (freeSlots d) None 0 d) else d
  end.

Definition startClaims d : Dispatch :=
  if negb ((1 <? cohorts)%nat && onlyFast d) then fillSlots 2 d
  else if bool_decide (claims d = []) && (0 <? freeSlots d) then
    let cohort := roomiestCohort d in
    let cohortLimit := Z.min (freeSlots d) (cohortFree d cohort) in
    startClaim (if tierKnown d then cohortLimit else freeSlots d) (Some cohort) cohortLimit d
  else d.

(** From the top of the loop to its next await. *)
Definition loopHead (now : Z) (random : Q) d : Dispatch :=
  if stopping d || bool_decide (firstFailure d <> None) || bool_decide (claimError d <> None)
  then d <| loop := DrainingClaims |>
  else if paused d then (nextDispatchPollMs random (d <| emptyWait := None |>)).1
  else if negb (gateOpen d) then (nextDispatchPollMs random d).1
  else match emptyWait d with
       | Some w =>
           if (ew_deadline w <=? now)
              || (negb (ew_release w) && negb (bool_decide (dispatchWakeVersion d = ew_wakeVersion w)))
           then startClaims (d <| emptyWait := None |>)
           else d
       | None => startClaims d
       end.

Definition handleSettlement (now : Z) (random : Q) (e : settlement) d : Dispatch :=
  match e with
  | ExecutionSettled id rejected => observe id rejected d
  | ClaimSettled id attempt => settleClaim now random id attempt d
  end.

(** The first claim settlement, and the rest. *)
Fixpoint takeClaim (l : list settlement) : option (nat * option (list nat * option nat) * list settlement) :=
  match l with
  | [] => None
  | ClaimSettled id attempt :: l => Some (id, attempt, l)
  | e :: l => '(c, rest) ← takeClaim l; Some (c, e :: rest)
  end.

(** One turn: the oldest settlement, if any, then the top of the loop; after
    the loop the claims and then the executions drain. *)
Definition loopTurn (now : Z) (random : Q) d : Dispatch :=
  match loop d with
  | Dispatching =>
      match settled d with
      | [] => loopHead now random d
      | e :: rest => loopHead now random (handleSettlement now random e (d <| settled := rest |>))
      end
  | DrainingClaims =>
      if bool_decide (claims d = []) then d <| loop := DrainingExecutions |>
      else match takeClaim (settled d) with
           | Some (id, attempt, rest) => settleClaim now random id attempt (d <| settled := rest |>)
           | None => d
           end
  | DrainingExecutions =>
      if bool_decide (active d = []) then d <| loop := Ended |>
      else match settled d with
           | ExecutionSettled id rejected :: rest => observe id rejected (d <| settled := rest |>)
           | _ :: rest => d <| settled := rest |>
           | [] => d
           end
  | Ended => d
  end.

(** What [dispatchLoop] throws. *)
Definition loopError d : option nat :=
  match firstFailure d with Some (_, reason) => Some reason | None => claimError d end.

(** ** Events *)
Inductive dispatch_event : Type :=
| Turn (random : Q)
| ClaimAnswers (id : nat) (attempt : option (list nat * option nat))
| ExecutionEnds (id : nat) (rejected : option nat)
| CompletionReserves (task : nat)
| CompletionSettles (random : Q) (task : nat) (claimed : option (list nat))
| Stop | Pause | Resume | Gate (open : bool) | WakeDispatch | Listening (b : bool)
| Tiers (fast known : bool).

Definition wake d : Dispatch := d <| dispatchWakeVersion ::= S |>.

Definition claim_answered d (id : nat) : bool :=
  existsb (fun e => match e with ClaimSettled id' _ => bool_decide (id' = id) | _ => false end) (settled d).

(** A claim answers once; an execution ends once, after its completion
    settled; its fused completion runs once, while it runs, and settles
    once. *)
Definition dispatch_step d (te : Z * dispatch_event) : Dispatch :=
  let now := te.1 in
  match te.2 with
  | Turn random => loopTurn now random d
  | ClaimAnswers id attempt =>
      if bool_decide (jsget id (claims d) <> None) && negb (claim_answered d id)
      then d <| settled ::= fun l => l ++ [ClaimSettled id attempt] |>
             <| created ::= fun l => l ++ default [] (fst <$> attempt) |>
      else d
  | ExecutionEnds id rejected =>
      match taskOf d id with
      | Some t =>
          if bool_decide (id ∈ running d) && bool_decide (jsget t (reservations d) = None) then
            let d := d <| running ::= set_delete id |>
                       <| settled ::= fun l => l ++ [ExecutionSettled id rejected] |> in
            if decide (t ∈ slotHandedOver d) then d <| slotHandedOver ::= set_delete t |>
            else d <| activeSlots ::= fun n => n - 1 |>
          else d
      | None => d
      end
  | CompletionReserves task =>
      if existsb (fun id => bool_decide (taskOf d id = Some task)) (running d)
         && negb (bool_decide (task ∈ handedOver d))
      then reserveCompletionClaim task d else d
  | CompletionSettles random task claimed =>
      if bool_decide (jsget task (reservations d) <> None)
      then settleCompletion now random task claimed (d <| created ::= fun l => l ++ default [] claimed |>)
      else d
  | Stop => wake (d <| stopping := true |>)
  | Pause => wake (d <| paused := true |>)
  | Resume => wake (d <| paused := false |>)
  | Gate open => d <| gateOpen := open |>
  | WakeDispatch => wake d
  | Listening b => d <| listening := b |>
  | Tiers fast known => d <| onlyFast := fast |> <| tierKnown := known |>
  end.

(** What the SQL protocol and the queue promise of an event: a claim returns
    at most as many tasks as it was asked for, each a new object. *)
Definition new_objects d (tasks : list nat) : Prop := NoDup tasks /\ forall t, t ∈ tasks -> t ∉ created d.
Definition event_ok d (e : dispatch_event) : Prop :=
  match e with
  | ClaimAnswers id (Some (tasks, _)) =>
      new_objects d tasks /\
      forall i, jsget id (claims d) = Some i -> Z.of_nat (length tasks) <= ci_limit i
  | CompletionSettles _ task (Some tasks) =>
      new_objects d tasks /\
      forall r, jsget task (reservations d) = Some r -> Z.of_nat (length tasks) <= rv_limit r
  | _ => True
  end.

(** A run whose events keep that promise. *)
Inductive dispatch_run : Dispatch -> list (Z * dispatch_event) -> Dispatch -> Prop :=
| run_nil d : dispatch_run d [] d
| run_cons d te evs d' :
    event_ok d te.2 -> dispatch_run (dispatch_step d te) evs d' -> dispatch_run d (te :: evs) d'.
End dispatch.

(** ** Sums over the cohorts *)

Definition sumZ (l : list Z) : Z := foldr Z.add 0 l.

Lemma length_bump i z l : length (bump i z l) = length l.
Proof. apply length_alter. Qed.
Lemma sum_bump z l : forall i, (i < length l)%nat -> sumZ (bump i z l) = sumZ l + z.
Proof.
  induction l as [|x l IH]; intros [|i] Hi; simpl in Hi; try lia.
  - simpl. lia.
  - change (x + sumZ (bump i z l) = x + sumZ l + z). rewrite IH by lia. lia.
Qed.
Lemma at_bump i j z l :
  (i < length l)%nat -> at_ (bump i z l) j = at_ l j + (if decide (j = i) then z else 0).
Proof.
  intros Hi. unfold at_, bump. case_decide as E; [subst|].
  - rewrite list_lookup_alter_eq. destruct (lookup_lt_is_Some_2 l i Hi) as [x ->]. done.
  - rewrite list_lookup_alter_ne by done. lia.
Qed.
Lemma sum_at l : sumZ l = sumZ (map (at_ l) (seq 0 (length l))).
Proof.
  induction l as [|x l IH]; [done|]. simpl. f_equal. rewrite IH, <- seq_shift, map_map. done.
Qed.
Lemma sum_map_le (f g : nat -> Z) l : (forall i, i ∈ l -> f i <= g i) -> sumZ (map f l) <= sumZ (map g l).
Proof.
  induction l as [|x l IH]; intros H; simpl; [lia|].
  assert (f x <= g x) by (apply H; set_solver).
  assert (sumZ (map f l) <= sumZ (map g l)) by (apply IH; set_solver). lia.
Qed.
Lemma sum_map_add (f g : nat -> Z) l :
  sumZ (map (fun i => f i + g i) l) = sumZ (map f l) + sumZ (map g l).
Proof. induction l as [|x l IH]; simpl; lia. Qed.
Lemma sum_map_opp (f : nat -> Z) l : sumZ (map (fun i => - f i) l) = - sumZ (map f l).
Proof. induction l as [|x l IH]; simpl; lia. Qed.

(** The capacities of the cohorts add up to the concurrency. *)
Lemma sum_capacity conc cohorts :
  0 <= conc -> (0 < cohorts)%nat -> sumZ (cohortCapacity conc cohorts) = conc.
Proof.
  intros Hc Hk. unfold cohortCapacity, capacityOf.
  assert (H : forall n, sumZ (map (fun c => conc / Z.of_nat cohorts
      + (if Z.of_nat c <? conc mod Z.of_nat cohorts then 1 else 0)) (seq 0 n))
    = Z.of_nat n * (conc / Z.of_nat cohorts) + Z.min (Z.of_nat n) (conc mod Z.of_nat cohorts)).
  { assert (0 <= conc mod Z.of_nat cohorts) by (apply Z.mod_pos_bound; lia).
    induction n as [|n IH]; [simpl; lia|].
    rewrite seq_S, map_app. unfold sumZ in *. rewrite foldr_app. simpl.
    assert (Hf : forall l z, foldr Z.add z l = foldr Z.add 0 l + z).
    { clear. induction l as [|x l IH]; intros z; simpl; [lia|]. rewrite IH. lia. }
    rewrite Hf, IH. case_match; lia. }
  rewrite H. pose proof (Z.mod_pos_bound conc (Z.of_nat cohorts)).
  pose proof (Z.div_mod conc (Z.of_nat cohorts)). lia.
Qed.

(** ** Sums over maps *)

Definition total {V} (f : V -> Z) (m : jsmap nat V) : Z := foldr (fun e acc => f e.2 + acc) 0 m.

Lemma total_app {V} (f : V -> Z) m1 m2 : total f (m1 ++ m2) = total f m1 + total f m2.
Proof. unfold total. induction m1 as [|e m1 IH]; simpl; lia. Qed.
Lemma total_set {V} (f : V -> Z) k v (m : jsmap nat V) :
  jsget k m = None -> total f (jsset k v m) = total f m + f v.
Proof. intros H. unfold jsset, jshas. rewrite H, total_app. simpl. lia. Qed.
Lemma jsdelete_None {V} k (m : jsmap nat V) : k ∉ m.*1 -> jsdelete k m = m.
Proof.
  unfold jsdelete. induction m as [|e m IH]; [done|]. simpl. intros [Hne Hn]%not_elem_of_cons.
  rewrite filter_cons_True by done. by rewrite IH.
Qed.
Lemma total_delete {V} (f : V -> Z) k v (m : jsmap nat V) :
  NoDup m.*1 -> jsget k m = Some v -> total f (jsdelete k m) = total f m - f v.
Proof.
  induction m as [|[k0 v0] m IH]; [done|]. simpl. intros [Hn Hd]%NoDup_cons. case_decide as E.
  - intros [= ->]. subst. unfold jsdelete. rewrite filter_cons_False by (simpl; tauto).
    fold (jsdelete k m). rewrite jsdelete_None by done. lia.
  - intros H. unfold jsdelete. rewrite filter_cons_True by done. fold (jsdelete k m). simpl.
    rewrite IH by done. lia.
Qed.
Lemma total_nonneg {V} (f : V -> Z) (m : jsmap nat V) :
  (forall k v, jsget k m = Some v -> 0 <= f v) -> NoDup m.*1 -> 0 <= total f m.
Proof.
  intros H Hd. assert (Ha : forall e, e ∈ m -> 0 <= f e.2).
  { intros [k v] Hin. eapply H. by apply jsget_NoDup. }
  clear H Hd. induction m as [|e m IH]; simpl; [lia|].
  assert (0 <= f e.2) by (apply Ha; set_solver). assert (0 <= total f m) by (apply IH; set_solver). lia.
Qed.

Lemma total_le {V} (f g : V -> Z) (m : jsmap nat V) :
  (forall k v, jsget k m = Some v -> f v <= g v) -> NoDup m.*1 -> total f m <= total g m.
Proof.
  intros H Hd. assert (Ha : forall e, e ∈ m -> f e.2 <= g e.2).
  { intros [k v] Hin. eapply H. by apply jsget_NoDup. }
  clear H Hd. induction m as [|e m IH]; simpl; [lia|].
  assert (f e.2 <= g e.2) by (apply Ha; set_solver).
  assert (total f m <= total g m) by (apply IH; set_solver). lia.
Qed.

Section invariants.
Variables (conc : Z) (cohorts : nat) (queues : nat) (explicitPoll : option Z).
Variable handled : nat -> bool.
Hypothesis Hconc : 1 <= conc.
Hypothesis Hcohorts : (0 < cohorts)%nat.
Implicit Types d : Dispatch.
Local Abbreviation free d := (freeSlots conc d).
Local Abbreviation cfree d c := (cohortFree conc cohorts d c).
Local Abbreviation room d := (roomiestCohort conc cohorts d).

(** ** Slots are never overbooked *)

Record slots_ok d : Prop := {
  sl_length : length (cohortActive d) = cohorts /\ length (cohortHandedOver d) = cohorts /\
              length (cohortReserved d) = cohorts;
  sl_claims : NoDup (claims d).*1;
  sl_claim_ids : forall k i, jsget k (claims d) = Some i -> (k < nextClaimId d)%nat;
  sl_claim : forall k i, jsget k (claims d) = Some i ->
    0 <= ci_cohortLimit i <= ci_limit i /\
    match ci_cohort i with Some c => (c < cohorts)%nat | None => ci_cohortLimit i = 0 end;
  sl_reservations : NoDup (reservations d).*1;
  sl_reservation : forall t r, jsget t (reservations d) = Some r ->
    1 <= rv_limit r /\ (rv_cohort r < cohorts)%nat;
  sl_reserved : reserved d = total ci_limit (claims d) + total rv_limit (reservations d);
  sl_cohortReserved :
    sumZ (cohortReserved d) = total ci_cohortLimit (claims d) + total rv_limit (reservations d);
  sl_active : sumZ (cohortActive d) = Z.of_nat (length (active d));
  sl_handed : sumZ (cohortHandedOver d) = Z.of_nat (length (handedOver d));
  sl_free : 0 <= free d;
  sl_cohort_free : forall c, (c < cohorts)%nat -> 0 <= cfree d c;
  sl_taskCohorts : forall t c, jsget t (taskCohorts d) = Some c -> (c < cohorts)%nat;
  sl_executionCohorts : forall id c, jsget id (executionCohorts d) = Some c -> (c < cohorts)%nat;
}.

Lemma roomiest_spec d :
  (room d < cohorts)%nat /\ forall c, (c < cohorts)%nat -> cfree d c <= cfree d (room d).
Proof.
  unfold roomiestCohort. set (f := fun best cohort => _).
  assert (H : forall n, (n <= cohorts - 1)%nat ->
    let b := foldl f 0%nat (seq 1 n) in
    (b <= n)%nat /\ forall c, (c <= n)%nat -> cfree d c <= cfree d b).
  { induction n as [|n IH]; intros Hn; cbv zeta.
    { simpl. split; [lia|]. intros c Hc. by replace c with 0%nat by lia. }
    destruct IH as [H1 H2]; [lia|]. rewrite seq_S, foldl_app. cbn [foldl Nat.add].
    set (b := foldl f 0%nat (seq 1 n)) in *. unfold f at 1 2.
    destruct (cfree d b <? cfree d (S n)) eqn:E.
    - apply Z.ltb_lt in E. split; [lia|]. intros c Hc.
      destruct (decide (c = S n)) as [->|]; [lia|]. specialize (H2 c). lia.
    - apply Z.ltb_ge in E. split; [lia|]. intros c Hc.
      destruct (decide (c = S n)) as [->|]; [lia|]. apply H2. lia. }
  destruct (H (cohorts - 1)%nat) as [H1 H2]; [lia|]. split; [lia|]. intros c Hc. apply H2. lia.
Qed.

Lemma sum_cohortFree d :
  slots_ok d ->
  sumZ (map (cohortFree conc cohorts d) (seq 0 cohorts)) =
  conc - Z.of_nat (length (active d)) + Z.of_nat (length (handedOver d)) - sumZ (cohortReserved d).
Proof.
  intros [(L1 & L2 & L3) _ _ _ _ _ _ _ Ha Hh _ _ _ _].
  pose proof (sum_capacity conc cohorts ltac:(lia) Hcohorts) as Hcap.
  assert (Lc : length (cohortCapacity conc cohorts) = cohorts).
  { unfold cohortCapacity. by rewrite length_map, length_seq. }
  rewrite <- Ha, <- Hh. rewrite <- Hcap at 2. rewrite !(sum_at (cohortCapacity conc cohorts)), Lc,
    (sum_at (cohortActive d)), (sum_at (cohortHandedOver d)), (sum_at (cohortReserved d)), L1, L2, L3.
  clear. unfold cohortFree. set (l := seq 0 cohorts). clearbody l. unfold sumZ.
  induction l as [|c l IH]; cbn [map foldr]; lia.
Qed.

(** A free slot of the worker is a free slot of the roomiest cohort. *)
Lemma roomiest_free d : slots_ok d -> 1 <= free d -> 1 <= cfree d (room d).
Proof.
  intros Hs Hf. destruct (roomiest_spec d) as [_ Hmax].
  destruct (decide (1 <= cfree d (room d))) as [|Hn]; [done|]. exfalso.
  pose proof (sum_cohortFree d Hs) as Hsum.
  assert (sumZ (map (cohortFree conc cohorts d) (seq 0 cohorts)) <= 0).
  { transitivity (sumZ (map (fun _ => 0) (seq 0 cohorts))).
    - apply sum_map_le. intros c Hc%list_elem_of_In%in_seq. specialize (Hmax c). lia.
    - clear. induction (seq 0 cohorts); simpl; lia. }
  assert (total ci_cohortLimit (claims d) <= total ci_limit (claims d)).
  { apply total_le; [|apply Hs]. intros k i Hk. destruct (sl_claim _ Hs k i Hk). lia. }
  pose proof (sl_reserved _ Hs). pose proof (sl_cohortReserved _ Hs). unfold freeSlots in Hf. lia.
Qed.

Definition slot_fields d :=
  (claims d, reservations d, reserved d, cohortReserved d, cohortActive d, cohortHandedOver d,
   active d, handedOver d, taskCohorts d, executionCohorts d, nextClaimId d).

Lemma slots_same d d' : slot_fields d' = slot_fields d -> slots_ok d -> slots_ok d'.
Proof.
  unfold slot_fields. intros [= E1 E2 E3 E4 E5 E6 E7 E8 E9 E10 E11] [].
  split; unfold freeSlots, cohortFree in *; rewrite ?E1, ?E2, ?E3, ?E4, ?E5, ?E6, ?E7, ?E8, ?E9, ?E10, ?E11;
    done.
Qed.

Lemma length_set_add x l : x ∉ l -> length (set_add x l) = S (length l).
Proof. intros H. unfold set_add. rewrite decide_False by done. rewrite length_app. simpl. lia. Qed.

Lemma set_delete_notin x l : x ∉ l -> set_delete x l = l.
Proof.
  unfold set_delete. induction l as [|y l IH]; [done|]. intros [Hne Hn]%not_elem_of_cons.
  rewrite filter_cons_True by done. by rewrite IH.
Qed.
Lemma length_set_delete x l : NoDup l -> x ∈ l -> S (length (set_delete x l)) = length l.
Proof.
  induction l as [|y l IH]; [by intros _ ?%elem_of_nil|]. intros [Hn Hd]%NoDup_cons Hin.
  destruct (decide (y = x)) as [->|Hne].
  - unfold set_delete. rewrite filter_cons_False by tauto. fold (set_delete x l).
    by rewrite set_delete_notin.
  - apply elem_of_cons in Hin as [?|Hin]; [done|]. unfold set_delete.
    rewrite filter_cons_True by done. simpl. fold (set_delete x l). by rewrite IH.
Qed.
Lemma elem_of_set_delete x y l : y ∈ set_delete x l <-> y ∈ l /\ y <> x.
Proof. unfold set_delete. rewrite list_elem_of_filter. tauto. Qed.
Lemma set_delete_NoDup x l : NoDup l -> NoDup (set_delete x l).
Proof. apply NoDup_filter. Qed.
Lemma elem_of_set_add x y l : y ∈ set_add x l <-> y ∈ l \/ y = x.
Proof. unfold set_add. case_decide; [naive_solver|]. rewrite elem_of_app, list_elem_of_singleton. tauto. Qed.
Lemma set_add_NoDup x l : NoDup l -> NoDup (set_add x l).
Proof.
  intros H. unfold set_add. case_decide; [done|]. apply NoDup_app. split_and!; [done| |apply NoDup_singleton].
  set_solver.
Qed.

Definition chosenCohort d (preferred : option nat) : nat :=
  match preferred with Some c => if 0 <? cfree d c then c else room d | None => room d end.

Lemma chosen_free d preferred :
  slots_ok d -> 1 <= free d -> (forall c, preferred = Some c -> (c < cohorts)%nat) ->
  (chosenCohort d preferred < cohorts)%nat /\ 1 <= cfree d (chosenCohort d preferred).
Proof.
  intros Hs Hf Hp. pose proof (roomiest_free d Hs Hf). pose proof (roomiest_spec d) as [? _].
  unfold chosenCohort. destruct preferred as [c|]; [|done]. case_match eqn:E; [|done].
  specialize (Hp c eq_refl). lia.
Qed.

Lemma launch_slots preferred task d :
  slots_ok d -> 1 <= free d -> (forall c, preferred = Some c -> (c < cohorts)%nat) ->
  nextExecutionId d ∉ active d ->
  slots_ok (launch conc cohorts preferred d task) /\
  free (launch conc cohorts preferred d task) = free d - 1.
Proof.
  intros Hs Hf Hp Hid. destruct (chosen_free d preferred Hs Hf Hp) as [Hc Hcf].
  unfold launch. fold (chosenCohort d preferred). set (c := chosenCohort d preferred) in *.
  destruct Hs as [(L1 & L2 & L3) H2 H3 H4 H5 H6 H7 H8 H9 H10 H11 H12 H13 H14].
  assert (Hfree : free (launch conc cohorts preferred d task) = free d - 1).
  { unfold freeSlots, launch. simpl. rewrite length_set_add by done. lia. }
  split; [|exact Hfree]. split; simpl; try done.
  - by rewrite length_bump.
  - rewrite sum_bump, length_set_add by (done || lia). lia.
  - unfold launch in Hfree. unfold c, chosenCohort. rewrite Hfree. lia.
  - intros c' Hc'. unfold cohortFree. simpl. rewrite at_bump by lia.
    specialize (H12 c' Hc'). unfold cohortFree in *. case_decide; subst; lia.
  - intros t c'. rewrite jsget_set. case_decide; [by intros [= <-]|apply H13].
  - intros t c'. rewrite jsget_set. case_decide; [by intros [= <-]|apply H14].
Qed.

(** ** Executions and tasks *)

Definition settledIds (l : list settlement) : list nat :=
  omap (fun e => match e with ExecutionSettled id _ => Some id | _ => None end) l.
Definition tasksOf (attempt : option (list nat * option nat)) : list nat := default [] (fst <$> attempt).
Definition pendingTasks (l : list settlement) : list nat :=
  flat_map (fun e => match e with ClaimSettled _ attempt => tasksOf attempt | _ => [] end) l.

Record runs_ok d : Prop := {
  ro_keys : (executionTasks d).*1 = active d;
  ro_active : NoDup (active d);
  ro_ids : forall id, id ∈ active d -> (id < nextExecutionId d)%nat;
  ro_running : NoDup (running d);
  ro_running_active : forall id, id ∈ running d -> id ∈ active d;
  ro_settled_once : NoDup (settledIds (settled d));
  ro_settled : forall id, id ∈ settledIds (settled d) <-> id ∈ active d /\ id ∉ running d;
  ro_tasks : NoDup ((executionTasks d).*2 ++ pendingTasks (settled d));
  ro_created : forall t, t ∈ (executionTasks d).*2 ++ pendingTasks (settled d) -> t ∈ created d;
  ro_answers : forall k a, ClaimSettled k a ∈ settled d ->
    (k < nextClaimId d)%nat /\
    forall i, jsget k (claims d) = Some i -> Z.of_nat (length (tasksOf a)) <= ci_limit i;
}.

(** ** Slots handed over by fused completions *)
Definition runs_task d (t : nat) : Prop := exists id, id ∈ running d /\ taskOf d id = Some t.

Record handover_ok d : Prop := {
  ho_nodup : NoDup (handedOver d);
  ho_slot_nodup : NoDup (slotHandedOver d);
  ho_slot : forall t, t ∈ slotHandedOver d ->
    t ∈ handedOver d /\ jsget t (reservations d) = None /\ runs_task d t;
  ho_reservation : forall t r, jsget t (reservations d) = Some r -> t ∈ handedOver d /\ runs_task d t;
  ho_cover : forall t, t ∈ handedOver d ->
    jsget t (reservations d) <> None \/ t ∈ slotHandedOver d \/
    exists id, id ∈ active d /\ id ∉ running d /\ taskOf d id = Some t;
  ho_count : activeSlots d = Z.of_nat (length (running d)) - Z.of_nat (length (slotHandedOver d));
}.

Record dispatch_ok d : Prop := {
  dk_slots : slots_ok d;
  dk_runs : runs_ok d;
  dk_handover : handover_ok d;
}.

(** The fields the invariant reads. *)
Definition kept_fields d :=
  (slot_fields d, executionTasks d, nextExecutionId d, running d, settled d, created d,
   slotHandedOver d, activeSlots d).

Lemma ok_same d d' : kept_fields d' = kept_fields d -> dispatch_ok d -> dispatch_ok d'.
Proof.
  intros E [Hs Hr Hh]. unfold kept_fields in E.
  assert (Es : slot_fields d' = slot_fields d) by congruence.
  unfold slot_fields in E.
  injection E as E1 E2 ? ? ? ? E7 E8 ? ? E11 E12 E13 E14 E15 E16 E17 E18.
  split; [by eapply slots_same|destruct Hr|destruct Hh; unfold runs_task, taskOf in *];
    (split; unfold runs_task, taskOf;
     rewrite ?E1, ?E2, ?E7, ?E8, ?E11, ?E12, ?E13, ?E14, ?E15, ?E16, ?E17, ?E18; done).
Qed.

Lemma nextId_fresh d : runs_ok d -> nextExecutionId d ∉ active d.
Proof. intros Hr Hin. apply (ro_ids _ Hr) in Hin. lia. Qed.

Lemma taskOf_launch preferred d task id :
  taskOf (launch conc cohorts preferred d task) id =
  if decide (id = nextExecutionId d) then Some task else taskOf d id.
Proof. unfold taskOf, launch. simpl. by rewrite jsget_set. Qed.

Lemma launch_runs preferred task d :
  runs_ok d -> task ∉ (executionTasks d).*2 ++ pendingTasks (settled d) -> task ∈ created d ->
  runs_ok (launch conc cohorts preferred d task).
Proof.
  intros Hr Hn Hc. pose proof (nextId_fresh d Hr) as Hid. destruct Hr as [H1 H2 H3 H4 H5 H6 H7 H8 H9 H10].
  assert (Hk : jsget (nextExecutionId d) (executionTasks d) = None) by (apply jsget_None; by rewrite H1).
  assert (Hset : jsset (nextExecutionId d) task (executionTasks d) =
                 executionTasks d ++ [(nextExecutionId d, task)]).
  { unfold jsset, jshas. by rewrite Hk. }
  assert (Hadd : set_add (nextExecutionId d) (active d) = active d ++ [nextExecutionId d]).
  { unfold set_add. by rewrite decide_False. }
  split; unfold launch; simpl; rewrite ?Hset, ?Hadd, ?fmap_app; simpl; rewrite ?H1; try done.
  - rewrite <- Hadd. by apply set_add_NoDup.
  - intros id [Hin%H3| ->%list_elem_of_singleton]%elem_of_app; lia.
  - apply NoDup_app. split_and!; [done| |apply NoDup_singleton]. intros id Hin ->%list_elem_of_singleton.
    by apply Hid, H5.
  - intros id. rewrite !elem_of_app. naive_solver.
  - intros id. rewrite H7, !elem_of_app, list_elem_of_singleton. split; [|naive_solver].
    intros [Ha Hr]. split; [by left|]. intros [?| ->]; done.
  - rewrite <- app_assoc. simpl. rewrite <- Permutation_middle. by constructor.
  - intros t. rewrite !elem_of_app, list_elem_of_singleton. intros [[?| ->]|?]; [|done|];
      apply H9, elem_of_app; auto.
Qed.

Lemma launch_handover preferred task d :
  runs_ok d -> handover_ok d -> handover_ok (launch conc cohorts preferred d task).
Proof.
  intros Hr [H1 H2 H3 H4 H5 H6]. pose proof (nextId_fresh d Hr) as Hid.
  set (d' := launch conc cohorts preferred d task).
  assert (Hold : forall id t, id ∈ active d -> taskOf d id = Some t -> taskOf d' id = Some t).
  { intros id t Hin Ht. unfold d'. rewrite taskOf_launch. case_decide; [by subst|done]. }
  assert (Hrun : forall t, runs_task d t -> runs_task d' t).
  { intros t (id & Hin & Ht). exists id. split; [simpl; set_solver|].
    apply Hold; [|done]. by apply (ro_running_active _ Hr). }
  split; try done.
  - intros t Ht. destruct (H3 t Ht) as (? & ? & ?). auto.
  - intros t r Ht. destruct (H4 t r Ht). auto.
  - intros t Ht. destruct (H5 t Ht) as [?|[?|(id & Ha & Hn & Ht')]]; [by left|by right; left|].
    right; right. exists id. split_and!; [simpl; apply elem_of_set_add; by left| |by apply Hold].
    simpl. rewrite elem_of_app, list_elem_of_singleton. intros [?| ->]; done.
  - simpl. rewrite H6, length_app. simpl. lia.
Qed.

Lemma launch_ok preferred task d :
  dispatch_ok d -> 1 <= free d -> (forall c, preferred = Some c -> (c < cohorts)%nat) ->
  task ∉ (executionTasks d).*2 ++ pendingTasks (settled d) -> task ∈ created d ->
  dispatch_ok (launch conc cohorts preferred d task) /\
  free (launch conc cohorts preferred d task) = free d - 1.
Proof.
  intros [Hs Hr Hh] Hf Hp Hn Hc. pose proof (nextId_fresh d Hr) as Hid.
  destruct (launch_slots preferred task d Hs Hf Hp Hid) as [Hs' Hf']. split; [|done]. split; [done| |].
  - by apply launch_runs.
  - by apply launch_handover.
Qed.

Lemma launch_values preferred task d t :
  runs_ok d ->
  t ∈ (executionTasks (launch conc cohorts preferred d task)).*2 <-> t ∈ (executionTasks d).*2 \/ t = task.
Proof.
  intros Hr. pose proof (nextId_fresh d Hr) as Hid. unfold launch. simpl. unfold jsset, jshas.
  rewrite (proj2 (jsget_None _ _)) by (by rewrite (ro_keys _ Hr)).
  rewrite fmap_app, elem_of_app. simpl. by rewrite list_elem_of_singleton.
Qed.

Lemma launches_ok preferred tasks : forall d,
  dispatch_ok d -> Z.of_nat (length tasks) <= free d ->
  (forall c, preferred = Some c -> (c < cohorts)%nat) -> NoDup tasks ->
  (forall t, t ∈ tasks -> t ∉ (executionTasks d).*2 ++ pendingTasks (settled d) /\ t ∈ created d) ->
  dispatch_ok (foldl (launch conc cohorts preferred) d tasks) /\
  claims (foldl (launch conc cohorts preferred) d tasks) = claims d.
Proof.
  induction tasks as [|t tasks IH]; intros d Hd Hl Hp Hn Ht; [done|]. simpl in *.
  apply NoDup_cons in Hn as [Hn1 Hn2]. destruct (Ht t) as [Ht1 Ht2]; [set_solver|].
  destruct (launch_ok preferred t d Hd) as [Hd' Hf']; try done; [lia|].
  destruct (IH (launch conc cohorts preferred d t) Hd') as [H1 H2]; try done; [lia|].
  intros t' Hin. destruct (Ht t') as [Ht1' Ht2']; [set_solver|]. split; [|done].
  rewrite elem_of_app, launch_values by apply Hd. rewrite elem_of_app in Ht1'.
  assert (t' <> t) by (by intros ->). simpl. tauto.
Qed.

(** ** Claims *)

Lemma startClaim_ok limit cohort cohortLimit d :
  dispatch_ok d -> 0 <= limit <= free d -> 0 <= cohortLimit <= limit ->
  match cohort with Some c => (c < cohorts)%nat /\ cohortLimit <= cfree d c | None => cohortLimit = 0 end ->
  dispatch_ok (startClaim limit cohort cohortLimit d).
Proof.
  intros [Hs Hr Hh] Hl Hcl Hc.
  assert (Hfresh : jsget (nextClaimId d) (claims d) = None).
  { destruct (jsget (nextClaimId d) (claims d)) eqn:E; [|done]. apply (sl_claim_ids _ Hs) in E. lia. }
  assert (Hget : forall k i info, jsget k (jsset (nextClaimId d) info (claims d)) = Some i ->
            k = nextClaimId d /\ i = info \/ jsget k (claims d) = Some i).
  { intros k i info. rewrite jsget_set. case_decide; naive_solver. }
  split.
  - destruct Hs as [(L1 & L2 & L3) H2 H3 H4 H5 H6 H7 H8 H9 H10 H11 H12 H13 H14].
    unfold startClaim, freeSlots, cohortFree in *.
    destruct cohort as [c|]; split; simpl; try done;
      rewrite ?length_bump, ?total_set, ?sum_bump by (done || lia); simpl; try lia; try done.
    all: try (by apply jsset_NoDup).
    all: try (intros k i [[-> ->]|Hk%H3]%Hget; lia).
    all: try (intros k i [[-> ->]|Hk%H4]%Hget; [simpl; naive_solver lia|done]).
    all: unfold freeSlots, cohortFree; simpl; try lia.
    intros c' Hc'. rewrite at_bump by lia. specialize (H12 c' Hc'). case_decide; subst; lia.
  - destruct Hr as [H1 H2 H3 H4 H5 H6 H7 H8 H9 H10]. unfold startClaim.
    destruct cohort; split; simpl; try done; intros k a Hin; destruct (H10 k a Hin) as [Hk Ha];
      (split; [lia|]); intros i [[-> ->]|Hg]%Hget; try lia; auto.
  - destruct Hh. unfold startClaim. by destruct cohort; split.
Qed.

(** A settled claim leaves; its slots are free again. *)
Definition dropClaim (id : nat) (i : claim_info) d : Dispatch :=
  let d := d <| claims ::= jsdelete id |> <| reserved ::= fun r => r - ci_limit i |> in
  match ci_cohort i with
  | None => d <| wholeClaims ::= fun n => n - 1 |>
  | Some c => d <| cohortClaims ::= bump c (-1) |> <| cohortReserved ::= bump c (- ci_cohortLimit i) |>
  end.

Lemma dropClaim_ok id i d :
  dispatch_ok d -> jsget id (claims d) = Some i ->
  dispatch_ok (dropClaim id i d) /\ ci_limit i <= free (dropClaim id i d).
Proof.
  intros [Hs Hr Hh] Hi. destruct (sl_claim _ Hs _ _ Hi) as [Hcl Hc].
  assert (Hget : forall k j, jsget k (jsdelete id (claims d)) = Some j -> jsget k (claims d) = Some j).
  { intros k j. rewrite jsget_delete. by case_decide. }
  split; [split|].
  - destruct Hs as [(L1 & L2 & L3) H2 H3 H4 H5 H6 H7 H8 H9 H10 H11 H12 H13 H14].
    unfold dropClaim, freeSlots, cohortFree in *.
    destruct (ci_cohort i) as [c|] eqn:Ec; split; simpl; try done;
      rewrite ?length_bump, ?(total_delete _ id i), ?sum_bump by (done || lia); simpl; try lia; try done.
    all: try (by apply jsdelete_NoDup).
    all: try (intros k j Hk%Hget; eauto).
    all: unfold freeSlots, cohortFree; simpl; try lia.
    intros c' Hc'. rewrite at_bump by lia. specialize (H12 c' Hc'). case_decide; subst; lia.
  - destruct Hr as [H1 H2 H3 H4 H5 H6 H7 H8 H9 H10]. unfold dropClaim.
    destruct (ci_cohort i); split; simpl; try done; intros k a Hin; destruct (H10 k a Hin) as [Hk Ha];
      (split; [done|]); intros j Hg%Hget; auto.
  - destruct Hh. unfold dropClaim. by destruct (ci_cohort i); split.
  - pose proof (sl_free _ Hs) as Hf. unfold dropClaim, freeSlots in *. destruct (ci_cohort i); simpl; lia.
Qed.

(** Removing a claim's settlement before its tasks start. *)
Lemma pop_ok d rest id attempt :
  dispatch_ok d -> ClaimSettled id attempt ∈ settled d ->
  settledIds rest = settledIds (settled d) ->
  pendingTasks (settled d) ≡ₚ tasksOf attempt ++ pendingTasks rest ->
  (forall e, e ∈ rest -> e ∈ settled d) ->
  dispatch_ok (d <| settled := rest |>) /\ NoDup (tasksOf attempt) /\
  (forall t, t ∈ tasksOf attempt -> t ∉ (executionTasks d).*2 ++ pendingTasks rest /\ t ∈ created d) /\
  (forall i, jsget id (claims d) = Some i -> Z.of_nat (length (tasksOf attempt)) <= ci_limit i).
Proof.
  intros [Hs [H1 H2 H3 H4 H5 H6 H7 H8 H9 H10] Hh] Hin Hids Hperm Hsub. rewrite Hperm in H8.
  assert (H8' : NoDup (tasksOf attempt ++ (executionTasks d).*2 ++ pendingTasks rest)).
  { eapply NoDup_Permutation_proper; [|exact H8]. by rewrite Permutation_app_swap_app. }
  apply NoDup_app in H8' as (Ha & Hb & Hc).
  split_and!; [split; [by apply (slots_same d)| |by destruct Hh]|done| |apply (H10 _ _ Hin)].
  - split; simpl; rewrite ?Hids; try done.
    + intros t Ht. apply H9. rewrite Hperm. rewrite !elem_of_app in *. tauto.
    + intros k a Hk. by apply H10, Hsub.
  - intros t Ht. split; [by apply Hb|]. apply H9. rewrite Hperm, !elem_of_app. auto.
Qed.

Lemma nextPoll_kept random d : kept_fields (nextDispatchPollMs explicitPoll random d).1 = kept_fields d.
Proof. unfold nextDispatchPollMs. by repeat case_match. Qed.
Lemma waitFrom_kept now random v release d :
  kept_fields (waitFrom explicitPoll now random v release d) = kept_fields d.
Proof.
  unfold waitFrom. pose proof (nextPoll_kept random d) as H.
  by destruct (nextDispatchPollMs explicitPoll random d).
Qed.

(** What follows the launches of a settled claim changes no slot. *)
Definition afterClaim (now : Z) (random : Q) (wakeVersion : nat) (claimed : list nat)
    (error : option nat) d : Dispatch :=
  match error with
  | Some e =>
      let d := if bool_decide (firstFailure d = None) && bool_decide (claimError d = None)
               then fail e d else d in
      match claimError d with Some _ => d | None => d <| claimError := Some e |> end
  | None =>
      if existsb handled claimed
      then d <| consecutiveEmptyClaims := O |> <| emptyWait := None |>
      else
        let d := d <| consecutiveEmptyClaims ::= S |> in
        match claimed, emptyWait d with
        | [], Some _ => d
        | [], None => waitFrom explicitPoll now random wakeVersion false d
        | _, Some (mkEmptyWait _ _ true) => d
        | _, _ => waitFrom explicitPoll now random wakeVersion true d
        end
  end.
Lemma afterClaim_kept now random v claimed error d :
  kept_fields (afterClaim now random v claimed error d) = kept_fields d.
Proof.
  unfold afterClaim. repeat case_match; try done; by rewrite waitFrom_kept.
Qed.

Lemma settleClaim_eq now random id attempt d :
  settleClaim conc cohorts explicitPoll handled now random id attempt d =
  match jsget id (claims d) with
  | None => d
  | Some i =>
      match attempt with
      | None => dropClaim id i d
      | Some (claimed, error) =>
          afterClaim now random (ci_wakeVersion i) claimed error
            (foldl (launch conc cohorts (ci_cohort i)) (dropClaim id i d) claimed)
      end
  end.
Proof.
  unfold settleClaim. destruct (jsget id (claims d)) as [[limit [c|] cl v]|]; [..|done];
    by destruct attempt as [[]|].
Qed.

Lemma settleClaim_ok now random id attempt d rest :
  dispatch_ok d -> ClaimSettled id attempt ∈ settled d ->
  settledIds rest = settledIds (settled d) ->
  pendingTasks (settled d) ≡ₚ tasksOf attempt ++ pendingTasks rest ->
  (forall e, e ∈ rest -> e ∈ settled d) ->
  dispatch_ok (settleClaim conc cohorts explicitPoll handled now random id attempt (d <| settled := rest |>)).
Proof.
  intros Hd Hin Hids Hperm Hsub.
  destruct (pop_ok d rest id attempt Hd Hin Hids Hperm Hsub) as (Hp & Hn & Ht & Hl).
  rewrite settleClaim_eq. cbn [claims].
  change (claims (d <| settled := rest |>)) with (claims d).
  destruct (jsget id (claims d)) as [i|] eqn:Ei; [|done].
  destruct (dropClaim_ok id i (d <| settled := rest |>) Hp Ei) as [Hdrop Hfree].
  destruct attempt as [[claimed error]|]; [|done].
  eapply ok_same; [apply afterClaim_kept|].
  apply launches_ok; [done| | |done|].
  - specialize (Hl i eq_refl). unfold tasksOf in Hl. simpl in Hl. lia.
  - intros c Hc. destruct (sl_claim _ (dk_slots _ Hd) _ _ Ei) as [_ Hx]. by rewrite Hc in Hx.
  - intros t Hin'. specialize (Ht t Hin'). unfold dropClaim. by destruct (ci_cohort i).
Qed.

(** ** Settled executions *)

Lemma jsdelete_keys {V} k (m : jsmap nat V) : (jsdelete k m).*1 = set_delete k m.*1.
Proof.
  unfold jsdelete, set_delete. induction m as [|e m IH]; [done|]. rewrite fmap_cons.
  destruct (decide (e.1 = k)).
  - by rewrite !filter_cons_False by tauto.
  - rewrite !filter_cons_True by done. by rewrite fmap_cons, IH.
Qed.

Lemma values_injective (m : jsmap nat nat) k1 k2 v :
  NoDup m.*2 -> jsget k1 m = Some v -> jsget k2 m = Some v -> k1 = k2.
Proof.
  intros Hd H1%jsget_in H2%jsget_in. apply list_elem_of_lookup in H1 as [i Hi], H2 as [j Hj].
  assert (i = j) as <-; [|congruence].
  eapply NoDup_lookup; [exact Hd| |]; by rewrite list_lookup_fmap, ?Hi, ?Hj.
Qed.

Lemma taskOf_injective d id1 id2 t :
  runs_ok d -> taskOf d id1 = Some t -> taskOf d id2 = Some t -> id1 = id2.
Proof.
  intros Hr. apply values_injective. pose proof (ro_tasks _ Hr) as H. by apply NoDup_app in H as [].
Qed.

Lemma taskOf_active d id : runs_ok d -> id ∈ active d <-> exists t, taskOf d id = Some t.
Proof.
  intros Hr. rewrite <- (ro_keys _ Hr). unfold taskOf. destruct (jsget id (executionTasks d)) eqn:E.
  - split; [eauto|]. intros _. apply jsget_in in E. apply list_elem_of_fmap. by exists (id, n).
  - apply jsget_None in E. split; [done|]. by intros [].
Qed.

Lemma recordRejection_kept id rejected d : kept_fields (recordRejection id rejected d) = kept_fields d.
Proof. unfold recordRejection. by repeat case_match. Qed.

Lemma forget_slots id d :
  slots_ok d -> runs_ok d -> handover_ok d -> id ∈ active d -> slots_ok (forget id d).
Proof.
  intros [(L1 & L2 & L3) H2 H3 H4 H5 H6 H7 H8 H9 H10 H11 H12 H13 H14] Hr Hh Hid.
  set (c := default 0%nat (jsget id (executionCohorts d))).
  assert (Hc : (c < cohorts)%nat).
  { unfold c. destruct (jsget id (executionCohorts d)) eqn:E; simpl; [eauto|done]. }
  pose proof (length_set_delete id (active d) (ro_active _ Hr) Hid) as Hla.
  unfold forget. fold c. destruct (taskOf d id) as [t|] eqn:Et; [simpl; case_decide as Eh|].
  1: pose proof (length_set_delete t (handedOver d) (ho_nodup _ Hh) Eh) as Hlh.
  all: unfold freeSlots, cohortFree in *.
  all: split; simpl; try done;
    rewrite ?length_bump, ?sum_bump by (done || lia); simpl; try lia; try done.
  all: try (intros x y; rewrite jsget_delete; case_decide; [done|eauto]).
  all: unfold freeSlots, cohortFree; simpl; try lia.
  all: intros c' Hc'; rewrite !at_bump by lia; specialize (H12 c' Hc'); case_decide; subst; lia.
Qed.

Lemma forget_fields id d :
  active (forget id d) = set_delete id (active d) /\
  executionTasks (forget id d) = jsdelete id (executionTasks d) /\
  nextExecutionId (forget id d) = nextExecutionId d /\ running (forget id d) = running d /\
  settled (forget id d) = settled d /\ created (forget id d) = created d /\
  claims (forget id d) = claims d /\ nextClaimId (forget id d) = nextClaimId d /\
  reservations (forget id d) = reservations d /\ slotHandedOver (forget id d) = slotHandedOver d /\
  activeSlots (forget id d) = activeSlots d.
Proof. unfold forget. repeat case_match; done. Qed.

Lemma forget_handedOver id t d :
  taskOf d id = Some t -> handedOver (forget id d) = set_delete t (handedOver d).
Proof.
  intros Ht. unfold forget. rewrite Ht. simpl. case_decide; [done|]. simpl. by rewrite set_delete_notin.
Qed.

Lemma forget_runs id rej rest d :
  runs_ok d -> settled d = ExecutionSettled id rej :: rest ->
  runs_ok (forget id (d <| settled := rest |>)).
Proof.
  intros [H1 H2 H3 H4 H5 H6 H7 H8 H9 H10] E. rewrite E in *.
  simpl in H6. apply NoDup_cons in H6 as [Hn H6]. cbn [pendingTasks flat_map app] in H8, H9.
  fold (pendingTasks rest) in H8, H9.
  destruct (proj1 (H7 id)) as [Hid Hnr]; [simpl; set_solver|].
  destruct (forget_fields id (d <| settled := rest |>)) as (F1 & F2 & F3 & F4 & F5 & F6 & F7 & F8 & _).
  assert (Hsub : sublist (jsdelete id (executionTasks d)).*2 (executionTasks d).*2).
  { apply fmap_sublist, sublist_filter. }
  split; rewrite ?F1, ?F2, ?F3, ?F4, ?F5, ?F6, ?F7, ?F8; simpl; try done.
  - by rewrite jsdelete_keys, H1.
  - by apply set_delete_NoDup.
  - intros x [Hx _]%elem_of_set_delete. auto.
  - intros x Hx. apply elem_of_set_delete. split; [auto|]. by intros ->.
  - intros x. rewrite elem_of_set_delete. specialize (H7 x). simpl in H7.
    rewrite elem_of_cons in H7. split.
    + intros Hx. assert (x <> id) by (by intros ->). tauto.
    + intros [[Hx Hne] Hr]. destruct (proj2 H7); [done|done|done].
  - eapply sublist_NoDup; [exact H8|]. by apply sublist_app.
  - intros t [Ht|Ht]%elem_of_app; apply H9, elem_of_app; [left|by right].
    apply list_elem_of_fmap in Ht as (e & -> & [_ He]%list_elem_of_filter).
    apply list_elem_of_fmap. eauto.
  - intros k a Hin. apply H10. set_solver.
Qed.

Lemma forget_handover id rej rest d :
  runs_ok d -> handover_ok d -> settled d = ExecutionSettled id rej :: rest ->
  handover_ok (forget id (d <| settled := rest |>)).
Proof.
  intros Hr Hh E. destruct (proj1 (ro_settled _ Hr id)) as [Hid Hnr]; [rewrite E; simpl; set_solver|].
  destruct (proj1 (taskOf_active d id Hr) Hid) as [t Ht].
  destruct (forget_fields id (d <| settled := rest |>)) as (F1 & F2 & F3 & F4 & F5 & F6 & F7 & F8 & F9 & F10 & F11).
  set (d' := forget id (d <| settled := rest |>)) in *. simpl in F1, F2, F4, F9, F10, F11.
  assert (F12 : handedOver d' = set_delete t (handedOver d)) by (etrans; [by apply (forget_handedOver id t (d <| settled := rest |>))|done]).
  assert (Hlost : forall t', runs_task d t' -> t' <> t).
  { intros t' (x & Hx & Hx') ->. by rewrite (taskOf_injective d x id t Hr Hx' Ht) in Hx. }
  assert (Hrun : forall t', runs_task d t' -> runs_task d' t').
  { intros t' (x & Hx & Hx'). exists x. rewrite F4. split; [done|]. unfold taskOf. rewrite F2, jsget_delete.
    rewrite decide_False; [done|]. by intros ->. }
  destruct Hh as [H1 H2 H3 H4 H5 H6].
  split; rewrite ?F1, ?F2, ?F4, ?F9, ?F10, ?F11, ?F12; try done.
  - by apply set_delete_NoDup.
  - intros x Hx. destruct (H3 x Hx) as (? & ? & ?). rewrite elem_of_set_delete. auto.
  - intros x r Hx. destruct (H4 x r Hx) as (? & ?). rewrite elem_of_set_delete. auto.
  - intros x [Hx Hne]%elem_of_set_delete. destruct (H5 x Hx) as [?|[?|(y & Hy & Hny & Hty)]]; [by left|by right; left|].
    right; right. exists y. rewrite elem_of_set_delete. unfold taskOf. rewrite F2, jsget_delete.
    assert (y <> id). { intros ->. by rewrite Ht in Hty; injection Hty as ->. }
    by rewrite decide_False.
Qed.

Lemma observe_ok id rej rest d :
  dispatch_ok d -> settled d = ExecutionSettled id rej :: rest ->
  dispatch_ok (observe id rej (d <| settled := rest |>)).
Proof.
  intros [Hs Hr Hh] E. eapply ok_same; [apply recordRejection_kept|]. split.
  - destruct (proj1 (ro_settled _ Hr id)) as [Hid _]; [rewrite E; simpl; set_solver|].
    (* the slots do not depend on the settlements *)
    apply (slots_same (forget id d)); [|by apply forget_slots].
    unfold forget. simpl. unfold taskOf. simpl. by repeat case_match.
  - by eapply forget_runs.
  - by eapply forget_handover.
Qed.

(** ** Fused completions *)

Lemma reserveCompletionClaim_ok task d :
  dispatch_ok d -> runs_task d task -> task ∉ handedOver d ->
  dispatch_ok (reserveCompletionClaim conc cohorts task d).
Proof.
  intros Hd Htask Hn. unfold reserveCompletionClaim.
  match goal with |- dispatch_ok (if ?b then _ else _) => destruct b end; [done|]. cbv zeta.
  set (c := default 0%nat (jsget task (taskCohorts d))).
  set (limit := Z.min (free d) (cfree d c) + 1).
  match goal with |- dispatch_ok (if ?b then _ else _) => destruct b end; [done|].
  destruct Hd as [Hs Hr Hh].
  assert (Hres : jsget task (reservations d) = None).
  { destruct (jsget task (reservations d)) eqn:Et; [|done].
    by destruct (ho_reservation _ Hh _ _ Et). }
  assert (Hc : (c < cohorts)%nat).
  { unfold c. destruct (jsget task (taskCohorts d)) eqn:Et; simpl; [|done].
    by eapply (sl_taskCohorts _ Hs). }
  pose proof (sl_free _ Hs) as Hf. pose proof (sl_cohort_free _ Hs c Hc) as Hcf.
  pose proof (length_set_add task (handedOver d) Hn) as Hlen.
  assert (Hlim : 1 <= limit /\ limit <= free d + 1 /\ limit <= cfree d c + 1) by lia. clearbody limit.
  split.
  - destruct Hs as [(L1 & L2 & L3) H2 H3 H4 H5 H6 H7 H8 H9 H10 H11 H12 H13 H14].
    unfold freeSlots, cohortFree in *.
    split; simpl; try done; rewrite ?length_bump, ?total_set, ?sum_bump by (done || lia); simpl; try lia; try done.
    + by apply jsset_NoDup.
    + intros t r. rewrite jsget_set. destruct (decide (t = task)); [|apply H6].
      intros [= <-]. simpl. lia.
    + unfold freeSlots. simpl. lia.
    + intros c' Hc'. unfold cohortFree. simpl. rewrite !at_bump by lia. specialize (H12 c' Hc').
      destruct (decide (c' = c)) as [->|]; lia.
  - by destruct Hr; split.
  - destruct Hh as [H1 H2 H3 H4 H5 H6]. split; simpl; try done.
    + by apply set_add_NoDup.
    + intros t Ht. destruct (H3 t Ht) as (Ha & Hb & Hc'). rewrite elem_of_set_add, jsget_set.
      split_and!; [by left| |done]. rewrite decide_False; [done|]. by intros ->.
    + intros t r. rewrite jsget_set, elem_of_set_add. case_decide as Eq; [intros _; subst; auto|].
      intros Ht. destruct (H4 t r Ht). auto.
    + intros t. rewrite elem_of_set_add, jsget_set. case_decide; [by left|]. intros [Ht| ->]; [|done].
      exact (H5 t Ht).
Qed.

(** A reservation settles: the slot goes to a claimed task, or comes back. *)
Definition endReservation (task : nat) (r : reservation) (handsOver : bool) d : Dispatch :=
  let d := d <| reservations ::= jsdelete task |> <| reserved ::= fun x => x - rv_limit r |>
             <| cohortReserved ::= bump (rv_cohort r) (- rv_limit r) |> in
  if handsOver then d <| slotHandedOver ::= set_add task |> <| activeSlots ::= fun n => n - 1 |>
  else if decide (task ∈ handedOver d)
       then d <| handedOver ::= set_delete task |> <| cohortHandedOver ::= bump (rv_cohort r) (-1) |>
       else d.

Lemma endReservation_slots task r h d :
  slots_ok d -> handover_ok d -> jsget task (reservations d) = Some r ->
  slots_ok (endReservation task r h d) /\
  (h = true -> rv_limit r <= free (endReservation task r h d)).
Proof.
  intros Hs Hh Hr. destruct (sl_reservation _ Hs _ _ Hr) as [Hl Hc].
  destruct (ho_reservation _ Hh _ _ Hr) as [Hin _].
  pose proof (length_set_delete task (handedOver d) (ho_nodup _ Hh) Hin) as Hlen.
  assert (Hget : forall t x, jsget t (jsdelete task (reservations d)) = Some x ->
            jsget t (reservations d) = Some x).
  { intros t x. rewrite jsget_delete. by case_decide. }
  destruct Hs as [(L1 & L2 & L3) H2 H3 H4 H5 H6 H7 H8 H9 H10 H11 H12 H13 H14].
  unfold endReservation. cbn [handedOver]. destruct h; [|simpl; rewrite decide_True by done].
  all: unfold freeSlots, cohortFree in *; split; [|try done; intros _; simpl; lia].
  all: split; simpl; try done;
    rewrite ?length_bump, ?(total_delete _ task r), ?sum_bump by (done || lia); simpl; try lia; try done.
  all: try (by apply jsdelete_NoDup).
  all: try (intros t x Ht%Hget; eauto).
  all: unfold freeSlots, cohortFree; simpl; try lia.
  all: intros c' Hc'; rewrite !at_bump by lia; specialize (H12 c' Hc'); case_decide; subst; lia.
Qed.

Lemma endReservation_handover task r h d :
  handover_ok d -> jsget task (reservations d) = Some r -> handover_ok (endReservation task r h d).
Proof.
  intros [H1 H2 H3 H4 H5 H6] Hr. destruct (H4 _ _ Hr) as [Hin Hrun].
  assert (Hns : task ∉ slotHandedOver d). { intros Hx. destruct (H3 _ Hx) as (_ & Hx' & _). congruence. }
  unfold endReservation. destruct h; [|simpl; rewrite decide_True by done].
  - split; simpl; try done.
    + by apply set_add_NoDup.
    + intros t. rewrite elem_of_set_add, jsget_delete. intros [Ht| ->]; [|by rewrite decide_True].
      destruct (H3 t Ht) as (? & ? & ?). split_and!; try done. by case_decide.
    + intros t x. rewrite jsget_delete. case_decide; [done|]. apply H4.
    + intros t Ht. rewrite jsget_delete, elem_of_set_add. case_decide; [by right; left; right|].
      destruct (H5 t Ht) as [?|[?|?]]; tauto.
    + rewrite length_set_add by done. lia.
  - split; simpl; try done.
    + by apply set_delete_NoDup.
    + intros t Ht. destruct (H3 t Ht) as (? & ? & ?). rewrite elem_of_set_delete, jsget_delete.
      split_and!; try done; [by intros ->|by case_decide].
    + intros t x. rewrite jsget_delete, elem_of_set_delete. case_decide; [done|]. intros Ht.
      destruct (H4 t x Ht). done.
    + intros t [Ht Hne]%elem_of_set_delete. rewrite jsget_delete, decide_False by done. auto.
Qed.

Definition afterCompletion (now : Z) (random : Q) (wakeVersion : nat) (claimed : option (list nat)) d
    : Dispatch :=
  match claimed with
  | None => d
  | Some tasks =>
      if existsb handled tasks then d <| consecutiveEmptyClaims := O |>
      else match tasks with
           | [] => if bool_decide (queues = 1%nat) then
                     let d := d <| consecutiveEmptyClaims ::= S |> in
                     match emptyWait d with
                     | Some _ => d
                     | None => waitFrom explicitPoll now random wakeVersion false d
                     end
                   else d
           | _ => d
           end
  end.
Lemma afterCompletion_kept now random v claimed d :
  kept_fields (afterCompletion now random v claimed d) = kept_fields d.
Proof. unfold afterCompletion. repeat case_match; try done; by rewrite waitFrom_kept. Qed.

Definition claims_some (claimed : option (list nat)) : bool :=
  match claimed with Some (_ :: _) => true | _ => false end.

Lemma settleCompletion_eq now random task claimed d :
  settleCompletion conc cohorts queues explicitPoll handled now random task claimed d =
  match jsget task (reservations d) with
  | None => d
  | Some r =>
      afterCompletion now random (rv_wakeVersion r) claimed
        (foldl (launch conc cohorts (Some (rv_cohort r)))
           (endReservation task r (claims_some claimed) d) (default [] claimed))
  end.
Proof.
  unfold settleCompletion. destruct (jsget task (reservations d)) as [[limit c v]|]; [|done].
  by destruct claimed as [[|]|].
Qed.

(** New task objects. *)
Lemma create_ok tasks d : dispatch_ok d -> dispatch_ok (d <| created ::= fun l => l ++ tasks |>).
Proof.
  intros [Hs Hr Hh]. split; [by apply (slots_same d)| |by destruct Hh].
  destruct Hr. split; simpl; try done. intros t Ht. apply elem_of_app. auto.
Qed.

Lemma settleCompletion_ok now random task claimed d :
  dispatch_ok d -> event_ok d (CompletionSettles random task claimed) ->
  dispatch_ok (settleCompletion conc cohorts queues explicitPoll handled now random task claimed
                 (d <| created ::= fun l => l ++ default [] claimed |>)).
Proof.
  intros Hd He. pose proof (create_ok (default [] claimed) d Hd) as Hd1.
  set (d1 := d <| created ::= fun l => l ++ default [] claimed |>) in *.
  rewrite settleCompletion_eq. destruct (jsget task (reservations d1)) as [r|] eqn:Er; [|done].
  eapply ok_same; [apply afterCompletion_kept|]. destruct Hd1 as [Hs Hr Hh].
  destruct (endReservation_slots task r (claims_some claimed) d1 Hs Hh Er) as [Hs2 Hf2].
  assert (Hd2 : dispatch_ok (endReservation task r (claims_some claimed) d1)).
  { split; [done| |by apply endReservation_handover].
    unfold endReservation. destruct (claims_some claimed); [|simpl; case_decide]; by destruct Hr; split. }
  destruct claimed as [tasks|]; [|done]. destruct He as [[Hnd Hnew] Hlim].
  apply launches_ok; [done| | |done|].
  - specialize (Hlim r Er). simpl in *. destruct tasks as [|t tasks].
    + simpl. apply (sl_free _ Hs2).
    + specialize (Hf2 eq_refl). simpl in *. lia.
  - intros c [= <-]. by destruct (sl_reservation _ Hs _ _ Er).
  - intros t Ht. simpl in Ht. assert (Hc : t ∈ created d1) by (simpl; set_solver).
    assert (Hn : t ∉ (executionTasks d).*2 ++ pendingTasks (settled d)).
    { intros Hin. apply (Hnew t Ht). by apply (ro_created _ (dk_runs _ Hd)). }
    unfold endReservation. destruct (claims_some (Some tasks)); [|simpl; case_decide]; by split.
Qed.

Lemma executionEnds_ok id rejected t d :
  dispatch_ok d -> taskOf d id = Some t -> id ∈ running d -> jsget t (reservations d) = None ->
  dispatch_ok
    (let d := d <| running ::= set_delete id |>
                <| settled ::= fun l => l ++ [ExecutionSettled id rejected] |> in
     if decide (t ∈ slotHandedOver d) then d <| slotHandedOver ::= set_delete t |>
     else d <| activeSlots ::= fun n => n - 1 |>).
Proof.
  intros [Hs Hr Hh] Ht Hid Hres. cbv zeta.
  set (d1 := d <| running ::= set_delete id |> <| settled ::= fun l => l ++ [ExecutionSettled id rejected] |>).
  assert (Hids : forall l, settledIds (l ++ [ExecutionSettled id rejected]) = settledIds l ++ [id]).
  { intros l. unfold settledIds. by rewrite omap_app. }
  assert (Hpend : forall l, pendingTasks (l ++ [ExecutionSettled id rejected]) = pendingTasks l).
  { intros l. unfold pendingTasks. rewrite flat_map_app. simpl. by rewrite app_nil_r. }
  assert (Hr1 : runs_ok d1).
  { destruct Hr as [H1 H2 H3 H4 H5 H6 H7 H8 H9 H10]. split; simpl; rewrite ?Hids, ?Hpend; try done.
    - by apply set_delete_NoDup.
    - intros x [Hx _]%elem_of_set_delete. auto.
    - apply NoDup_app. split_and!; [done| |apply NoDup_singleton].
      intros x Hx ->%list_elem_of_singleton. apply H7 in Hx. naive_solver.
    - intros x. rewrite elem_of_app, H7, elem_of_set_delete, list_elem_of_singleton.
      destruct (decide (x = id)) as [->|]; [|naive_solver]. split; [|by auto].
      intros _. split; [auto|tauto].
    - intros k a [Hin|?%list_elem_of_singleton]%elem_of_app; [by apply H10|done]. }
  assert (Hrun : forall t', t' <> t -> runs_task d t' -> runs_task d1 t').
  { intros t' Hne (x & Hx & Hx'). exists x. split; [|done]. simpl. apply elem_of_set_delete.
    split; [done|]. intros ->. congruence. }
  pose proof (length_set_delete id (running d) (ro_running _ Hr) Hid) as Hlen.
  destruct Hh as [H1 H2 H3 H4 H5 H6].
  assert (Hcover : forall t', t' ∈ handedOver d -> jsget t' (reservations d) <> None \/
            (t' <> t /\ t' ∈ slotHandedOver d) \/
            exists x, x ∈ active d /\ x ∉ set_delete id (running d) /\ taskOf d x = Some t').
  { intros t' Hin. destruct (H5 t' Hin) as [?|[Hsl|(x & Hx & Hnx & Hxt)]]; [by left| |].
    - destruct (decide (t' = t)) as [->|]; [|by right; left]. right; right. exists id.
      split_and!; [by apply (ro_running_active _ Hr)| |done]. rewrite elem_of_set_delete. tauto.
    - right; right. exists x. rewrite elem_of_set_delete. tauto. }
  simpl. case_decide as Esl.
  - split; [by apply (slots_same d)|by destruct Hr1; split|]. split; simpl; try done.
    + by apply set_delete_NoDup.
    + intros t' [Ht' Hne]%elem_of_set_delete. destruct (H3 t' Ht') as (? & ? & ?). split_and!; auto.
      by apply Hrun.
    + intros t' r Ht'. destruct (H4 t' r Ht') as [? Hx]. split; [done|]. apply Hrun; [|done].
      intros ->. congruence.
    + intros t' Hin. rewrite elem_of_set_delete. destruct (Hcover t' Hin) as [?|[[? ?]|?]]; tauto.
    + pose proof (length_set_delete t (slotHandedOver d) H2 Esl). lia.
  - split; [by apply (slots_same d)|by destruct Hr1; split|]. split; simpl; try done.
    + intros t' Ht'. destruct (H3 t' Ht') as (? & ? & ?). split_and!; auto. apply Hrun; [|done].
      by intros ->.
    + intros t' r Ht'. destruct (H4 t' r Ht') as [? Hx]. split; [done|]. apply Hrun; [|done].
      intros ->. congruence.
    + intros t' Hin. destruct (Hcover t' Hin) as [?|[[? ?]|?]]; tauto.
    + lia.
Qed.

(** ** The loop keeps the invariant *)

Lemma fillSlots_ok fuel : forall d, dispatch_ok d -> dispatch_ok (fillSlots conc fuel d).
Proof.
  induction fuel as [|fuel IH]; intros d Hd; simpl; [done|]. case_match eqn:E; [|done].
  apply IH, startClaim_ok; try done; [|lia]. pose proof (sl_free _ (dk_slots _ Hd)). lia.
Qed.

Lemma startClaims_ok d : dispatch_ok d -> dispatch_ok (startClaims conc cohorts d).
Proof.
  intros Hd. unfold startClaims. case_match; [by apply fillSlots_ok|]. case_match eqn:E; [|done].
  apply andb_prop in E as [_ E%Z.ltb_lt]. destruct (roomiest_spec d) as [Hc _].
  pose proof (sl_cohort_free _ (dk_slots _ Hd) _ Hc). cbv zeta.
  apply startClaim_ok; try done; [case_match; lia|case_match; lia|]. split; [done|lia].
Qed.

Lemma loopHead_ok now random d : dispatch_ok d -> dispatch_ok (loopHead conc cohorts explicitPoll now random d).
Proof.
  intros Hd. unfold loopHead. repeat case_match.
  - by apply (ok_same d).
  - eapply ok_same; [apply nextPoll_kept|]. by apply (ok_same d).
  - by eapply ok_same; [apply nextPoll_kept|].
  - apply startClaims_ok. by apply (ok_same d).
  - done.
  - by apply startClaims_ok.
Qed.

Lemma takeClaim_spec l id attempt rest :
  takeClaim l = Some (id, attempt, rest) ->
  ClaimSettled id attempt ∈ l /\ settledIds rest = settledIds l /\
  pendingTasks l ≡ₚ tasksOf attempt ++ pendingTasks rest /\ (forall e, e ∈ rest -> e ∈ l).
Proof.
  revert rest. induction l as [|[x r|x a] l IH]; intros rest; simpl; [done| |].
  - destruct (takeClaim l) as [[[id' a'] rest']|]; simpl; [|done]. intros [= -> -> <-].
    destruct (IH rest' eq_refl) as (H1 & H2 & H3 & H4). split_and!.
    + set_solver.
    + simpl. by rewrite H2.
    + done.
    + intros e [->|He]%elem_of_cons; set_solver.
  - intros [= -> -> ->]. split_and!; [set_solver|done|done|set_solver].
Qed.

Lemma loopTurn_ok now random d :
  dispatch_ok d -> dispatch_ok (loopTurn conc cohorts explicitPoll handled now random d).
Proof.
  intros Hd. unfold loopTurn. destruct (loop d); [| | |done].
  - destruct (settled d) as [|[id r|id a] rest] eqn:E; apply loopHead_ok; [done| |]; simpl.
    + by eapply observe_ok.
    + apply settleClaim_ok; rewrite ?E; try done; set_solver.
  - case_bool_decide; [by apply (ok_same d)|].
    destruct (takeClaim (settled d)) as [[[id a] rest]|] eqn:E; [|done].
    destruct (takeClaim_spec _ _ _ _ E) as (? & ? & ? & ?). by apply settleClaim_ok.
  - case_bool_decide; [by apply (ok_same d)|].
    destruct (settled d) as [|[id r|id a] rest] eqn:E; [done|by eapply observe_ok|].
    eapply (pop_ok d rest id a); rewrite ?E; try done; set_solver.
Qed.

Lemma claimAnswers_ok id attempt d i :
  dispatch_ok d -> jsget id (claims d) = Some i -> event_ok d (ClaimAnswers id attempt) ->
  dispatch_ok (d <| settled ::= fun l => l ++ [ClaimSettled id attempt] |>
                 <| created ::= fun l => l ++ tasksOf attempt |>).
Proof.
  intros [Hs Hr Hh] Hi He. split; [by apply (slots_same d)| |by destruct Hh].
  assert (Hids : settledIds (settled d ++ [ClaimSettled id attempt]) = settledIds (settled d)).
  { unfold settledIds. rewrite omap_app. simpl. by rewrite app_nil_r. }
  assert (Hpend : pendingTasks (settled d ++ [ClaimSettled id attempt]) = pendingTasks (settled d) ++ tasksOf attempt).
  { unfold pendingTasks. rewrite flat_map_app. simpl. by rewrite app_nil_r. }
  assert (Hnew : new_objects d (tasksOf attempt) /\ Z.of_nat (length (tasksOf attempt)) <= ci_limit i).
  { destruct attempt as [[tasks e]|]; [destruct He as [? He]; by split; [|apply He]|].
    destruct (sl_claim _ Hs _ _ Hi) as [? _]. split; [|simpl; lia].
    split; [constructor|]. intros t ?%elem_of_nil. done. }
  destruct Hnew as [[Hnd Hnew] Hlen]. destruct Hr as [H1 H2 H3 H4 H5 H6 H7 H8 H9 H10].
  split; simpl; rewrite ?Hids, ?Hpend; try done.
  - rewrite app_assoc. apply NoDup_app. split_and!; [done| |done]. intros t Ht Ht'. by eapply Hnew, H9.
  - intros t. rewrite !elem_of_app. intros [?|[?|?]]; [left; apply H9, elem_of_app; auto..|by right].
  - intros k a [Hin|[= -> ->]%list_elem_of_singleton]%elem_of_app; [by apply H10|].
    split; [by eapply (sl_claim_ids _ Hs)|]. intros j Hj. by rewrite Hi in Hj; injection Hj as <-.
Qed.

Lemma dispatch_step_ok d te :
  dispatch_ok d -> event_ok d te.2 ->
  dispatch_ok (dispatch_step conc cohorts queues explicitPoll handled d te).
Proof.
  intros Hd He. unfold dispatch_step. destruct te as [now []]; cbn [fst snd] in *;
    try (by apply (ok_same d)).
  - by apply loopTurn_ok.
  - case_bool_decide as E; simpl; [|done]. case_match; [|done].
    destruct (jsget id (claims d)) as [i|] eqn:Ei; [|done]. by eapply claimAnswers_ok.
  - destruct (taskOf d id) as [t|] eqn:Et; [|done]. case_bool_decide as E; simpl; [|done].
    case_bool_decide as E'; [|done]. by apply executionEnds_ok.
  - case_match eqn:E; [|done]. apply andb_prop in E as [E1 E2%negb_true_iff%bool_decide_eq_false].
    apply reserveCompletionClaim_ok; [done| |done].
    apply existsb_exists in E1 as (id & Hin & Hid%bool_decide_eq_true).
    exists id. by split; [apply list_elem_of_In|].
  - case_bool_decide; [|done]. by eapply settleCompletion_ok.
Qed.

Lemma newDispatch_ok : dispatch_ok (newDispatch cohorts).
Proof.
  assert (Hrep : forall c, at_ (replicate cohorts 0) c = 0).
  { intros c. unfold at_. destruct (replicate cohorts 0 !! c) eqn:E; [|done].
    by apply lookup_replicate in E as [-> _]. }
  assert (Hsum : sumZ (replicate cohorts 0) = 0).
  { clear. induction cohorts; simpl; [done|]. unfold sumZ in *. simpl. lia. }
  split; split; simpl; rewrite ?length_replicate, ?Hsum; try done; try apply NoDup_nil_2;
    try (intros; set_solver).
  - unfold freeSlots. simpl. lia.
  - intros c Hc. unfold cohortFree. simpl. rewrite !Hrep. unfold at_, cohortCapacity.
    rewrite list_lookup_fmap, lookup_seq_lt by done. simpl. unfold capacityOf.
    assert (0 <= conc / Z.of_nat cohorts) by (apply Z.div_pos; lia). case_match; lia.
Qed.

Lemma dispatch_run_ok d evs d' :
  dispatch_run conc cohorts queues explicitPoll handled d evs d' -> dispatch_ok d -> dispatch_ok d'.
Proof. induction 1; [done|]. intros Hd. by apply IHdispatch_run, dispatch_step_ok. Qed.

(** ** Counting *)

Lemma total_length {V} (f : V -> Z) (m : jsmap nat V) :
  (forall k v, jsget k m = Some v -> 1 <= f v) -> NoDup m.*1 -> Z.of_nat (length m) <= total f m.
Proof.
  intros H Hd. assert (Ha : forall e, e ∈ m -> 1 <= f e.2).
  { intros [k v] Hin. eapply H. by apply jsget_NoDup. }
  clear H Hd. induction m as [|e m IH]; simpl; [lia|].
  assert (1 <= f e.2) by (apply Ha; set_solver).
  assert (Z.of_nat (length m) <= total f m) by (apply IH; set_solver). lia.
Qed.

Lemma length_omap {A B} (f : A -> option B) l : (length (omap f l) <= length l)%nat.
Proof. induction l as [|x l IH]; csimpl; [lia|]. case_match; csimpl; lia. Qed.

Lemma incl_length (l k : list nat) : NoDup l -> (forall x, x ∈ l -> x ∈ k) -> (length l <= length k)%nat.
Proof. intros Hn Hi. apply submseteq_length. by apply NoDup_submseteq. Qed.

Lemma active_split d :
  runs_ok d -> length (active d) = (length (running d) + length (settledIds (settled d)))%nat.
Proof.
  intros Hr. rewrite <- length_app. apply Nat.le_antisymm; apply incl_length.
  - apply Hr.
  - intros x Hx. rewrite elem_of_app, (ro_settled _ Hr). destruct (decide (x ∈ running d)); auto.
  - apply NoDup_app. split_and!; [apply Hr| |apply Hr]. intros x Hx Hx'.
    by apply (ro_settled _ Hr) in Hx' as [].
  - intros x [Hx|Hx]%elem_of_app; [by apply (ro_running_active _ Hr)|].
    by apply (ro_settled _ Hr) in Hx as [].
Qed.

(** The slots in use never exceed the concurrency. *)
Lemma slots_bounded d : dispatch_ok d -> 0 <= activeSlots d <= conc.
Proof.
  intros [Hs Hr Hh]. rewrite (ho_count _ Hh). split.
  - assert (length (slotHandedOver d) <= length (omap (taskOf d) (running d)))%nat.
    { apply incl_length; [apply Hh|]. intros t Ht. destruct (ho_slot _ Hh t Ht) as (_ & _ & id & Hin & Hid).
      apply list_elem_of_omap. eauto. }
    pose proof (length_omap (taskOf d) (running d)). lia.
  - assert (Hcover : (length (handedOver d) <= length ((reservations d).*1 ++ slotHandedOver d
              ++ omap (taskOf d) (settledIds (settled d))))%nat).
    { apply incl_length; [apply Hh|]. intros t Ht. rewrite !elem_of_app.
      destruct (ho_cover _ Hh t Ht) as [Hres|[?|(id & Ha & Hn & Hid)]]; [left|by right; left|right; right].
      - destruct (decide (t ∈ (reservations d).*1)) as [|Hno]; [done|].
        by apply jsget_None in Hno.
      - apply list_elem_of_omap. exists id. split; [|done]. by apply (ro_settled _ Hr). }
    rewrite !length_app, length_fmap in Hcover.
    pose proof (length_omap (taskOf d) (settledIds (settled d))).
    pose proof (active_split d Hr). pose proof (sl_free _ Hs) as Hf. unfold freeSlots in Hf.
    rewrite (sl_reserved _ Hs) in Hf.
    assert (0 <= total ci_limit (claims d)).
    { apply total_nonneg; [|apply Hs]. intros k i Hk. destruct (sl_claim _ Hs _ _ Hk). lia. }
    assert (Z.of_nat (length (reservations d)) <= total rv_limit (reservations d)).
    { apply total_length; [|apply Hs]. intros k i Hk. by destruct (sl_reservation _ Hs _ _ Hk). }
    lia.
Qed.

(** ** A free slot has a claim on its way *)

Lemma startClaim_claims limit cohort cl d : claims (startClaim limit cohort cl d) <> [].
Proof.
  unfold startClaim. destruct cohort; simpl; apply jsset_nonempty.
Qed.

Lemma fillSlots_claims fuel : forall d, claims d <> [] -> claims (fillSlots conc fuel d) <> [].
Proof.
  induction fuel as [|fuel IH]; intros d Hd; simpl; [done|]. case_match; [|done].
  apply IH, startClaim_claims.
Qed.

Lemma startClaims_busy d :
  let d' := startClaims conc cohorts d in 0 < free d' -> claims d' <> [].
Proof.
  cbv zeta. unfold startClaims. case_match.
  - cbn [fillSlots]. case_match eqn:E; [intros _|].
    { apply (fillSlots_claims 1), startClaim_claims. }
    intros Hf. apply andb_false_iff in E as [E|E]; [lia|].
    apply orb_false_elim in E as [E%bool_decide_eq_false _]. done.
  - case_match eqn:E; [intros _; apply startClaim_claims|].
    intros Hf. apply andb_false_iff in E as [E%bool_decide_eq_false|E]; [done|]. lia.
Qed.

(** Without executions nothing else holds a slot. *)
Lemma idle_state d :
  dispatch_ok d -> active d = [] ->
  running d = [] /\ reservations d = [] /\ handedOver d = [] /\ activeSlots d = 0.
Proof using Type.
  intros [Hs Hr Hh] Ha.
  assert (Hnone : forall x, x ∉ running d).
  { intros x Hx%(ro_running_active _ Hr). rewrite Ha in Hx. by apply elem_of_nil in Hx. }
  assert (Hrun : running d = []) by (destruct (running d) as [|x l]; [done|]; destruct (Hnone x); apply list_elem_of_here).
  assert (Hslot : slotHandedOver d = []).
  { destruct (slotHandedOver d) as [|t l] eqn:E; [done|].
    destruct (ho_slot _ Hh t) as (_ & _ & id & Hid & _); [rewrite E; apply list_elem_of_here|]. by destruct (Hnone id). }
  assert (Hres : reservations d = []).
  { destruct (reservations d) as [|[t r] l] eqn:E; [done|].
    destruct (ho_reservation _ Hh t r) as [_ (id & Hid & _)]; [rewrite E; simpl; by rewrite decide_True|].
    by destruct (Hnone id). }
  split_and!; try done.
  - destruct (handedOver d) as [|t l] eqn:E; [done|].
    destruct (ho_cover _ Hh t) as [H|[H|(id & H & _)]]; [rewrite E; apply list_elem_of_here|..].
    + by rewrite Hres in H.
    + rewrite Hslot in H. by apply elem_of_nil in H.
    + rewrite Ha in H. by apply elem_of_nil in H.
  - by rewrite (ho_count _ Hh), Hrun, Hslot.
Qed.

(** With no claim in flight the slots are taken, so some execution runs. *)
Lemma busy_without_claims d : dispatch_ok d -> claims d = [] -> free d <= 0 -> active d <> [].
Proof.
  intros Hd Hc Hf Ha. destruct (idle_state d Hd Ha) as (_ & Hres & Hho & _).
  unfold freeSlots in Hf. rewrite (sl_reserved _ (dk_slots _ Hd)), Hc, Hres, Hho, Ha in Hf. simpl in Hf. lia.
Qed.

(** ** Every leased task starts *)

Definition claimIds (l : list settlement) : list nat :=
  omap (fun e => match e with ClaimSettled id _ => Some id | _ => None end) l.

Definition started d (t : nat) : Prop := jsget t (taskCohorts d) <> None.

Record leases_ok d : Prop := {
  le_once : NoDup (claimIds (settled d));
  le_claims : forall k, k ∈ claimIds (settled d) -> jsget k (claims d) <> None;
  le_created : forall t, t ∈ created d -> started d t \/ t ∈ pendingTasks (settled d);
  le_drained : loop d = DrainingExecutions \/ loop d = Ended -> claims d = [];
  le_ended : loop d = Ended -> active d = [];
}.

Definition lease_fields d := (settled d, claims d, created d, taskCohorts d, loop d, active d).
Lemma leases_same d d' : lease_fields d' = lease_fields d -> leases_ok d -> leases_ok d'.
Proof.
  unfold lease_fields. intros [= E1 E2 E3 E4 E5 E6] []. split; unfold started in *;
    rewrite ?E1, ?E2, ?E3, ?E4, ?E5, ?E6; done.
Qed.

Lemma nextPoll_leases random d : lease_fields (nextDispatchPollMs explicitPoll random d).1 = lease_fields d.
Proof. unfold nextDispatchPollMs. by repeat case_match. Qed.
Lemma waitFrom_leases now random v release d :
  lease_fields (waitFrom explicitPoll now random v release d) = lease_fields d.
Proof.
  unfold waitFrom. pose proof (nextPoll_leases random d) as H.
  by destruct (nextDispatchPollMs explicitPoll random d).
Qed.
Lemma afterClaim_leases now random v claimed error d :
  lease_fields (afterClaim now random v claimed error d) = lease_fields d.
Proof. unfold afterClaim. repeat case_match; try done; by rewrite waitFrom_leases. Qed.
Lemma afterCompletion_leases now random v claimed d :
  lease_fields (afterCompletion now random v claimed d) = lease_fields d.
Proof. unfold afterCompletion. repeat case_match; try done; by rewrite waitFrom_leases. Qed.
Lemma recordRejection_leases id rejected d : lease_fields (recordRejection id rejected d) = lease_fields d.
Proof. unfold recordRejection. by repeat case_match. Qed.

(** Launching starts the tasks and nothing else that matters here. *)
Lemma launches_leases preferred tasks : forall d,
  let d' := foldl (launch conc cohorts preferred) d tasks in
  settled d' = settled d /\ claims d' = claims d /\ created d' = created d /\ loop d' = loop d /\
  (tasks = [] -> active d' = active d) /\
  forall t, started d t \/ t ∈ tasks -> started d' t.
Proof.
  induction tasks as [|x tasks IH]; intros d; simpl.
  { split_and!; try done. intros t [?|?%elem_of_nil]; done. }
  destruct (IH (launch conc cohorts preferred d x)) as (H1 & H2 & H3 & H4 & _ & H6). simpl in *.
  split_and!; try done. intros t Ht. apply H6. rewrite elem_of_cons in Ht. unfold started in *. simpl.
  rewrite jsget_set. case_decide; [by left|]. naive_solver.
Qed.

Lemma claimIds_app l k : claimIds (l ++ k) = claimIds l ++ claimIds k.
Proof. apply omap_app. Qed.

(** A settled claim, taken out of the settlements. *)
Lemma settleClaim_leases now random id attempt d rest :
  leases_ok d -> claimIds (settled d) ≡ₚ id :: claimIds rest ->
  pendingTasks (settled d) ≡ₚ tasksOf attempt ++ pendingTasks rest ->
  leases_ok (settleClaim conc cohorts explicitPoll handled now random id attempt (d <| settled := rest |>)).
Proof.
  intros [H1 H2 H3 H4 H5] Hids Hperm. rewrite Hids in H1. apply NoDup_cons in H1 as [Hn H1].
  assert (Hid : jsget id (claims d) <> None) by (apply H2; rewrite Hids; set_solver).
  rewrite settleClaim_eq. change (claims (d <| settled := rest |>)) with (claims d).
  destruct (jsget id (claims d)) as [i|] eqn:Ei; [|done].
  assert (Hphase : ~ (loop d = DrainingExecutions \/ loop d = Ended)).
  { intros Hp. rewrite (H4 Hp) in Ei. done. }
  assert (Hrest : forall k, k ∈ claimIds rest -> jsget k (jsdelete id (claims d)) <> None).
  { intros k Hk. rewrite jsget_delete, decide_False; [apply H2; rewrite Hids; set_solver|].
    by intros ->. }
  set (d1 := dropClaim id i (d <| settled := rest |>)).
  assert (F : settled d1 = rest /\ claims d1 = jsdelete id (claims d) /\ created d1 = created d /\
              taskCohorts d1 = taskCohorts d /\ loop d1 = loop d).
  { unfold d1, dropClaim. by destruct (ci_cohort i). }
  destruct F as (F1 & F2 & F3 & F4 & F5).
  assert (Hgoal : forall d2, settled d2 = rest -> claims d2 = jsdelete id (claims d) ->
            created d2 = created d -> loop d2 = loop d ->
            (forall t, started d t \/ t ∈ tasksOf attempt -> started d2 t) -> leases_ok d2).
  { intros d2 G1 G2 G3 G4 G5. split; rewrite ?G1, ?G2, ?G3, ?G4; try done;
      try (intros ?; exfalso; by auto).
    intros t Ht. destruct (H3 t Ht) as [?|Hp]; [left; auto|]. rewrite Hperm in Hp.
    apply elem_of_app in Hp as [?|?]; [left; auto|by right]. }
  destruct attempt as [[claimed error]|].
  - eapply leases_same; [apply afterClaim_leases|].
    destruct (launches_leases (ci_cohort i) claimed d1) as (G1 & G2 & G3 & G4 & _ & G6).
    apply Hgoal; try congruence. intros t Ht. apply G6. unfold started in *. by rewrite F4.
  - apply Hgoal; try done. intros t [Ht|?%elem_of_nil]; [|done]. unfold started in *. by rewrite F4.
Qed.

Lemma takeClaim_ids l id attempt rest :
  takeClaim l = Some (id, attempt, rest) -> claimIds l ≡ₚ id :: claimIds rest.
Proof.
  revert rest. induction l as [|[x r|x a] l IH]; intros rest; simpl; [done| |].
  - destruct (takeClaim l) as [[[id' a'] rest']|]; simpl; [|done]. intros [= -> -> <-].
    exact (IH rest' eq_refl).
  - by intros [= -> -> ->].
Qed.

Lemma observe_leases id rej rest d :
  leases_ok d -> settled d = ExecutionSettled id rej :: rest ->
  leases_ok (observe id rej (d <| settled := rest |>)).
Proof.
  intros [H1 H2 H3 H4 H5] E. eapply leases_same; [apply recordRejection_leases|].
  rewrite E in *. unfold forget. 
  assert (Ha : loop d = Ended -> set_delete id (active d) = []) by (intros He; by rewrite (H5 He)).
  repeat case_match; by split.
Qed.

Lemma startClaim_leases limit cohort cl d :
  loop d = Dispatching -> leases_ok d -> leases_ok (startClaim limit cohort cl d).
Proof.
  intros Hl [H1 H2 H3 H4 H5]. unfold startClaim. destruct cohort; split; simpl; try done;
    try (rewrite Hl; naive_solver); intros k Hk; rewrite jsget_set; case_decide; by auto.
Qed.

Lemma startClaims_leases d :
  loop d = Dispatching -> leases_ok d -> leases_ok (startClaims conc cohorts d).
Proof.
  intros Hl Hd. unfold startClaims. case_match.
  - cbn [fillSlots]. repeat case_match; try done; by repeat apply startClaim_leases.
  - case_match; [|done]. by apply startClaim_leases.
Qed.

Lemma loopHead_leases now random d :
  loop d = Dispatching -> leases_ok d -> leases_ok (loopHead conc cohorts explicitPoll now random d).
Proof.
  intros Hl Hd. unfold loopHead. repeat case_match.
  - destruct Hd. split; simpl; try done; naive_solver.
  - eapply leases_same; [apply nextPoll_leases|]. by apply (leases_same d).
  - by eapply leases_same; [apply nextPoll_leases|].
  - apply startClaims_leases; [done|]. by apply (leases_same d).
  - done.
  - by apply startClaims_leases.
Qed.

Lemma settleClaim_loop now random id attempt d :
  loop (settleClaim conc cohorts explicitPoll handled now random id attempt d) = loop d.
Proof.
  rewrite settleClaim_eq. destruct (jsget id (claims d)) as [i|]; [|done].
  assert (Hd : loop (dropClaim id i d) = loop d) by (unfold dropClaim; by destruct (ci_cohort i)).
  destruct attempt as [[claimed error]|]; [|done].
  pose proof (afterClaim_leases now random (ci_wakeVersion i) claimed error
    (foldl (launch conc cohorts (ci_cohort i)) (dropClaim id i d) claimed)) as H.
  unfold lease_fields in H. injection H as _ _ _ _ H _. rewrite H.
  destruct (launches_leases (ci_cohort i) claimed (dropClaim id i d)) as (_ & _ & _ & -> & _). done.
Qed.
Lemma observe_loop id rej d : loop (observe id rej d) = loop d.
Proof.
  pose proof (recordRejection_leases id rej (forget id d)) as H. unfold lease_fields in H.
  injection H as _ _ _ _ H _. unfold observe. rewrite H. unfold forget. by repeat case_match.
Qed.

Lemma loopTurn_leases now random d :
  leases_ok d -> leases_ok (loopTurn conc cohorts explicitPoll handled now random d).
Proof.
  intros Hd. unfold loopTurn. destruct (loop d) eqn:El; [| | |done].
  - destruct (settled d) as [|[id r|id a] rest] eqn:E; apply loopHead_leases; simpl; try done.
    + by rewrite observe_loop.
    + by eapply observe_leases.
    + by rewrite settleClaim_loop.
    + by apply settleClaim_leases; rewrite ?E.
  - case_bool_decide as Ec; [destruct Hd; split; simpl; try done; naive_solver|].
    destruct (takeClaim (settled d)) as [[[id a] rest]|] eqn:E; [|done].
    destruct (takeClaim_spec _ _ _ _ E) as (? & ? & ? & ?).
    apply settleClaim_leases; [done|by eapply takeClaim_ids|done].
  - case_bool_decide as Ec; [destruct Hd; split; simpl; try done; naive_solver|].
    destruct (settled d) as [|[id r|id a] rest] eqn:E; [done|by eapply observe_leases|].
    exfalso. apply (le_claims _ Hd id); [rewrite E; simpl; set_solver|].
    rewrite (le_drained _ Hd) by auto. done.
Qed.

Lemma settleCompletion_leases now random task claimed r d :
  dispatch_ok d -> leases_ok d -> jsget task (reservations d) = Some r ->
  leases_ok (settleCompletion conc cohorts queues explicitPoll handled now random task claimed
               (d <| created ::= fun l => l ++ default [] claimed |>)).
Proof.
  intros Hd [H1 H2 H3 H4 H5] Er.
  assert (Hne : loop d <> Ended).
  { intros He. destruct (ho_reservation _ (dk_handover _ Hd) _ _ Er) as [_ (id & Hid & _)].
    apply (ro_running_active _ (dk_runs _ Hd)) in Hid. rewrite (H5 He) in Hid.
    by apply elem_of_nil in Hid. }
  rewrite settleCompletion_eq.
  change (reservations (d <| created ::= fun l => l ++ default [] claimed |>)) with (reservations d).
  rewrite Er. eapply leases_same; [apply afterCompletion_leases|].
  set (d1 := endReservation task r (claims_some claimed) (d <| created ::= fun l => l ++ default [] claimed |>)).
  assert (F : settled d1 = settled d /\ claims d1 = claims d /\ created d1 = created d ++ default [] claimed /\
              taskCohorts d1 = taskCohorts d /\ loop d1 = loop d).
  { unfold d1, endReservation. destruct (claims_some claimed); [done|]. simpl. by case_decide. }
  destruct F as (F1 & F2 & F3 & F4 & F5).
  destruct (launches_leases (Some (rv_cohort r)) (default [] claimed) d1) as (G1 & G2 & G3 & G4 & _ & G6).
  split; rewrite ?G1, ?G2, ?G3, ?G4, ?F1, ?F2, ?F3, ?F5; try done.
  intros t [Ht|Ht]%elem_of_app; [|left; auto]. destruct (H3 t Ht) as [?|?]; [left|by right].
  apply G6. left. unfold started. by rewrite F4.
Qed.

Lemma executionEnds_leases d d' id r :
  (settled d', claims d', created d', taskCohorts d', loop d', active d')
    = (settled d ++ [ExecutionSettled id r], claims d, created d, taskCohorts d, loop d, active d) ->
  leases_ok d -> leases_ok d'.
Proof.
  intros [= E1 E2 E3 E4 E5 E6] []. unfold started in *.
  assert (Hc : claimIds (settled d') = claimIds (settled d)).
  { rewrite E1, claimIds_app. simpl. by rewrite app_nil_r. }
  assert (Hp : pendingTasks (settled d') = pendingTasks (settled d)).
  { rewrite E1. unfold pendingTasks. rewrite flat_map_app. simpl. by rewrite app_nil_r. }
  split; unfold started; rewrite ?Hc, ?Hp, ?E2, ?E3, ?E4, ?E5, ?E6; done.
Qed.

Lemma dispatch_step_leases d te :
  dispatch_ok d -> leases_ok d ->
  leases_ok (dispatch_step conc cohorts queues explicitPoll handled d te).
Proof.
  intros Hd Hl. unfold dispatch_step. destruct te as [now []]; cbn [fst snd];
    try (by apply (leases_same d)).
  - by apply loopTurn_leases.
  - case_bool_decide as E; simpl; [|done]. case_match eqn:En; [|done].
    apply negb_true_iff in En. destruct Hl as [H1 H2 H3 H4 H5].
    assert (Hn : id ∉ claimIds (settled d)).
    { intros Hin. apply list_elem_of_omap in Hin as ([|x a] & Hx & [= ->]).
      unfold claim_answered in En. revert En. rewrite (proj2 (existsb_exists _ _)); [done|].
      eexists. split; [by apply list_elem_of_In|]. by apply bool_decide_eq_true. }
    split; simpl; try done; rewrite ?claimIds_app.
    + apply NoDup_app. split_and!; [done| |apply NoDup_singleton].
      by intros x Hx ->%list_elem_of_singleton.
    + intros k [Hk|Hk%list_elem_of_singleton]%elem_of_app; [auto|by subst].
    + intros t. unfold pendingTasks. rewrite flat_map_app, !elem_of_app. simpl. rewrite app_nil_r.
      intros [Ht|Ht]; [|by right; right]. destruct (H3 t Ht); [by left|by right; left].
  - repeat case_match; try done; by apply (executionEnds_leases d _ id rejected).
  - case_match; [|done]. unfold reserveCompletionClaim. repeat case_match; by apply (leases_same d).
  - case_bool_decide as E; [|done]. destruct (jsget task (reservations d)) eqn:Er; [|done].
    by eapply settleCompletion_leases.
Qed.

Lemma newDispatch_leases : leases_ok (newDispatch cohorts).
Proof. split; simpl; try done; [apply NoDup_nil_2|..]; intros; set_solver. Qed.

Lemma dispatch_run_leases d evs d' :
  dispatch_run conc cohorts queues explicitPoll handled d evs d' ->
  dispatch_ok d -> leases_ok d -> leases_ok d'.
Proof.
  induction 1; [done|]. intros Hd Hl. apply IHdispatch_run.
  - by apply dispatch_step_ok.
  - by apply dispatch_step_leases.
Qed.
End invariants.

(** ** Theorems *)

(** C3: Slots are never overbooked, with overlapping claims, cohorts and fused
    completions that claim into the slot they free: the slots in use never
    exceed the concurrency, no claim or completion ever reserves a slot that
    is not free, and no cohort exceeds its share. *)
Theorem slots_never_overbooked conc cohorts queues explicitPoll handled evs d
    (Hconc : 1 <= conc) (Hcohorts : (0 < cohorts)%nat)
    (Hrun : dispatch_run conc cohorts queues explicitPoll handled (newDispatch cohorts) evs d) :
  0 <= activeSlots d <= conc /\ 0 <= freeSlots conc d /\
  forall c, (c < cohorts)%nat -> 0 <= cohortFree conc cohorts d c.
Proof.
  assert (Hd : dispatch_ok conc cohorts d) by (eapply dispatch_run_ok; eauto using newDispatch_ok).
  split_and!; try (by apply (slots_bounded conc cohorts)); [apply Hd|apply Hd].
Qed.

(** C11: When the loop ends, by a stop or by an error, it has started every
    task that any of its claims leased, and waited for all of them: no claim,
    no execution and no reservation is left, and every slot is free. *)
Theorem dispatch_ends_clean conc cohorts queues explicitPoll handled evs d
    (Hconc : 1 <= conc) (Hcohorts : (0 < cohorts)%nat)
    (Hrun : dispatch_run conc cohorts queues explicitPoll handled (newDispatch cohorts) evs d)
    (Hend : loop d = Ended) :
  (forall t, t ∈ created d -> started d t) /\ claims d = [] /\ active d = [] /\ running d = [] /\
  reservations d = [] /\ freeSlots conc d = conc /\ activeSlots d = 0.
Proof.
  assert (Hd : dispatch_ok conc cohorts d) by (eapply dispatch_run_ok; eauto using newDispatch_ok).
  assert (Hl : leases_ok d).
  { eapply dispatch_run_leases; eauto using newDispatch_ok, newDispatch_leases. }
  pose proof (le_drained _ Hl (or_intror Hend)) as Hc. pose proof (le_ended _ Hl Hend) as Ha.
  destruct (idle_state conc cohorts d Hd Ha) as (Hrun' & Hres & Hho & Hslots).
  split_and!; try done.
  - intros t Ht. destruct (le_created _ Hl t Ht) as [?|Hp]; [done|]. exfalso.
    unfold pendingTasks in Hp. apply list_elem_of_In, in_flat_map in Hp as ([|k a] & Hin & Hk); [done|].
    apply (le_claims _ Hl k); [|by rewrite Hc]. apply list_elem_of_omap.
    exists (ClaimSettled k a). by split; [apply list_elem_of_In|].
  - unfold freeSlots. rewrite Ha, Hho, (sl_reserved _ _ _ (dk_slots _ _ _ Hd)), Hc, Hres. simpl. lia.
Qed.

Lemma loopTurn_head conc cohorts explicitPoll handled now random d :
  loop d = Dispatching ->
  exists d0, loopTurn conc cohorts explicitPoll handled now random d =
             loopHead conc cohorts explicitPoll now random d0.
Proof. intros E. unfold loopTurn. rewrite E. destruct (settled d); eauto. Qed.

Lemma nextPoll_flags explicitPoll random d :
  paused (nextDispatchPollMs explicitPoll random d).1 = paused d /\
  gateOpen (nextDispatchPollMs explicitPoll random d).1 = gateOpen d.
Proof. unfold nextDispatchPollMs. by repeat case_match. Qed.

(** The loop never idles on a free slot: when a turn of the loop leaves it
    dispatching, not paused, with the gate open and outside an empty wait, a
    free slot has a claim in flight, and the settlement the loop then waits
    for is on its way: a claim or an execution is in flight. *)
Theorem free_slot_has_claim conc cohorts queues explicitPoll handled evs d now random
    (Hconc : 1 <= conc) (Hcohorts : (0 < cohorts)%nat)
    (Hrun : dispatch_run conc cohorts queues explicitPoll handled (newDispatch cohorts) evs d)
    (Hloop : loop d = Dispatching)
    (d' := loopTurn conc cohorts explicitPoll handled now random d)
    (Hloop' : loop d' = Dispatching) (Hpause : paused d' = false) (Hgate : gateOpen d' = true)
    (Hwait : emptyWait d' = None) :
  (0 < freeSlots conc d' -> claims d' <> []) /\ (claims d' <> [] \/ active d' <> []).
Proof.
  assert (Hd : dispatch_ok conc cohorts d') by
    (apply loopTurn_ok; try done; eapply dispatch_run_ok; eauto using newDispatch_ok).
  assert (Hbusy : 0 < freeSlots conc d' -> claims d' <> []).
  { clear Hd. destruct (loopTurn_head conc cohorts explicitPoll handled now random d Hloop) as [d0 E].
    subst d'. rewrite E in *. revert Hloop' Hpause Hgate Hwait. unfold loopHead.
    destruct (_ || _); [done|]. destruct (paused d0) eqn:Ep.
    { rewrite (proj1 (nextPoll_flags explicitPoll random _)). simpl. congruence. }
    destruct (gateOpen d0) eqn:Eg; cbn [negb].
    2:{ rewrite (proj2 (nextPoll_flags explicitPoll random _)). congruence. }
    destruct (emptyWait d0) as [w|] eqn:Ew; [|by intros _ _ _ _; apply startClaims_busy].
    case_match; [by intros _ _ _ _; apply startClaims_busy|]. congruence. }
  split; [done|]. destruct (decide (claims d' = [])) as [Hc|]; [right|by left].
  apply (busy_without_claims conc cohorts); try done.
  destruct (Z.leb_spec (freeSlots conc d') 0); [done|]. by destruct (Hbusy ltac:(lia)).
Qed.

Lemma jitter_bounds random d :
  (0 <= random < 1)%Q -> 1 <= d ->
  1 <= jitterDuration random d /\ 10 * jitterDuration random d < 11 * d + 10.
Proof.
  intros Hr Hd. unfold jitterDuration. set (x := (_ + (1 # 2))%Q). split; [lia|].
  assert (Hd' : (1 <= inject_Z d)%Q) by (change 1%Q with (inject_Z 1); by rewrite <- Zle_Qle).
  assert (Hf : (inject_Z (10 * Qfloor x) < inject_Z (11 * d + 5))%Q).
  { rewrite inject_Z_plus, !inject_Z_mult. pose proof (Qfloor_le x) as Hx.
    change (inject_Z 10) with 10%Q. change (inject_Z 11) with 11%Q. change (inject_Z 5) with 5%Q.
    unfold x in Hx at 2. assert (random * inject_Z d < inject_Z d)%Q by nra. lra. }
  rewrite <- Zlt_Qlt in Hf. lia.
Qed.

(** Every wait of the loop is between one millisecond and the timer
    maximum, so no timer fires early or at once; without a live listener it
    is at most 5.5 s whatever the number of empty claims, and it restarts the
    backoff when the listener was lost. *)
Theorem poll_delay_bounded explicitPoll random d
    (Hr : (0 <= random < 1)%Q) (Hp : forall p, explicitPoll = Some p -> 1 <= p <= MAX_TIMER_DELAY_MS) :
  let '(d', delay) := nextDispatchPollMs explicitPoll random d in
  1 <= delay <= MAX_TIMER_DELAY_MS /\ (listening d = false -> delay <= 5500) /\
  (listening d = false -> listenedAtLastWait d = true -> (consecutiveEmptyClaims d' <= 1)%nat).
Proof.
  unfold nextDispatchPollMs. set (d1 := if negb (listening d) && _ then _ else d).
  assert (Hl : listening d1 = listening d) by (unfold d1; by case_match).
  cbn -[jitterDuration Z.pow d1]. rewrite Hl.
  set (base := default _ explicitPoll).
  assert (Hb : 1 <= base <= MAX_TIMER_DELAY_MS).
  { unfold base, DEFAULT_NOTIFICATION_FALLBACK_POLL_MS, DEFAULT_POLL_MS, MAX_TIMER_DELAY_MS in *.
    destruct explicitPoll as [p|]; simpl; [by apply Hp|]. case_match; lia. }
  set (duration := if listening d then _ else _).
  assert (Hdur : 1 <= duration /\ (listening d = false -> duration <= 5000)).
  { unfold duration, MAX_EMPTY_POLL_MS. destruct (listening d); [split; [lia|done]|].
    assert (1 <= 2 ^ Z.of_nat (Nat.min (consecutiveEmptyClaims d1 - 1) 30)).
    { apply (Z.pow_le_mono_r 2 0); lia. }
    split; [|lia]. apply Z.min_glb; [lia|]. nia. }
  destruct Hdur as [Hd1 Hd2]. destruct (jitter_bounds random duration Hr Hd1) as [J1 J2].
  unfold MAX_TIMER_DELAY_MS in *. split_and!; [lia|lia|intros Hx; specialize (Hd2 Hx); lia|].
  intros Hx Hy. unfold d1. rewrite Hx, Hy. apply Nat.le_min_l.
Qed.

(** Four slots in two cohorts on one fast-tier queue.  A claim returns two
    tasks; the first completes, claims a third into its slot, and ends; then
    the worker stops and drains. *)
Definition sample_events : list (Z * dispatch_event) :=
  [(0, Tiers true true); (0, Turn 0); (1, ClaimAnswers 0 (Some ([70; 71]%nat, None))); (1, Turn 0);
   (2, CompletionReserves 70); (3, CompletionSettles 0 70 (Some [72%nat]));
   (4, ExecutionEnds 0 None); (4, Turn 0)].
Definition drain_events : list (Z * dispatch_event) :=
  [(5, Stop); (5, Turn 0); (6, ClaimAnswers 1 (Some ([], None))); (6, Turn 0); (6, Turn 0);
   (7, ExecutionEnds 1 None); (8, ExecutionEnds 2 None); (8, Turn 0); (8, Turn 0); (8, Turn 0)].
Definition all_handled : nat -> bool := fun _ => true.
Definition sample_step : Dispatch -> Z * dispatch_event -> Dispatch :=
  dispatch_step 4 2 1 None all_handled.
Definition sample_state : Dispatch := run sample_step (newDispatch 2) sample_events.
Definition drained_state : Dispatch := run sample_step sample_state drain_events.

(** [event_ok] and runs on concrete events, decided. *)
Definition new_objectsb d (tasks : list nat) : bool :=
  bool_decide (NoDup tasks) && forallb (fun t => bool_decide (t ∉ created d)) tasks.
Definition event_okb d (e : dispatch_event) : bool :=
  match e with
  | ClaimAnswers id (Some (tasks, _)) =>
      new_objectsb d tasks &&
      match jsget id (claims d) with Some i => Z.of_nat (length tasks) <=? ci_limit i | None => true end
  | CompletionSettles _ task (Some tasks) =>
      new_objectsb d tasks &&
      match jsget task (reservations d) with
      | Some r => Z.of_nat (length tasks) <=? rv_limit r | None => true
      end
  | _ => true
  end.
Fixpoint run_okb (step : Dispatch -> Z * dispatch_event -> Dispatch) d (evs : list (Z * dispatch_event))
    : bool :=
  match evs with [] => true | te :: evs => event_okb d te.2 && run_okb step (step d te) evs end.

Lemma event_okb_ok d e : event_okb d e = true -> event_ok d e.
Proof.
  assert (Hn : forall tasks, new_objectsb d tasks = true -> new_objects d tasks).
  { intros tasks [H1%bool_decide_eq_true H2]%andb_prop. split; [done|]. intros t Ht.
    apply (bool_decide_eq_true (t ∉ created d)). rewrite forallb_forall in H2.
    by apply H2, list_elem_of_In. }
  destruct e as [|id [[tasks err]|]| | |rnd task [tasks|]| | | | | | |]; simpl; try done.
  - intros [H1 H2]%andb_prop. split; [auto|]. intros i Hi. rewrite Hi in H2. lia.
  - intros [H1 H2]%andb_prop. split; [auto|]. intros i Hi. rewrite Hi in H2. lia.
Qed.

Lemma run_okb_run conc cohorts queues explicitPoll handled evs : forall d,
  run_okb (dispatch_step conc cohorts queues explicitPoll handled) d evs = true ->
  dispatch_run conc cohorts queues explicitPoll handled d evs
    (run (dispatch_step conc cohorts queues explicitPoll handled) d evs).
Proof.
  induction evs as [|te evs IH]; intros d; simpl; [constructor|]. intros [H1 H2]%andb_prop.
  constructor; [by apply event_okb_ok|auto].
Qed.

Lemma sample_run : dispatch_run 4 2 1 None all_handled (newDispatch 2) sample_events sample_state.
Proof. apply run_okb_run. vm_cast_no_check (eq_refl true). Qed.
Lemma drained_run :
  dispatch_run 4 2 1 None all_handled (newDispatch 2) (sample_events ++ drain_events) drained_state.
Proof.
  assert (E : drained_state = run (dispatch_step 4 2 1 None all_handled) (newDispatch 2)
    (sample_events ++ drain_events)) by (vm_compute; reflexivity).
  rewrite E. apply run_okb_run. vm_cast_no_check (eq_refl true).
Qed.
Lemma sample_turns :
  loop sample_state = Dispatching /\
  (let d' := loopTurn 4 2 None all_handled 5 0 sample_state in
   loop d' = Dispatching /\ paused d' = false /\ gateOpen d' = true /\ emptyWait d' = None).
Proof. vm_compute. auto. Qed.
Lemma drained_ends : loop drained_state = Ended /\ 72%nat ∈ created drained_state.
Proof. vm_compute. split; [done|]. do 3 constructor. Qed.

Lemma slots_never_overbooked_witness :
  0 <= activeSlots sample_state <= 4 /\ 0 <= freeSlots 4 sample_state /\
  forall c, (c < 2)%nat -> 0 <= cohortFree 4 2 sample_state c.
Proof.
  exact (slots_never_overbooked 4 2 1 None all_handled sample_events sample_state ltac:(lia)
    ltac:(lia) sample_run).
Defined.

Lemma dispatch_ends_clean_witness :
  started drained_state 72 /\ freeSlots 4 drained_state = 4 /\ activeSlots drained_state = 0.
Proof.
  destruct (dispatch_ends_clean 4 2 1 None all_handled (sample_events ++ drain_events)
    drained_state ltac:(lia) ltac:(lia) drained_run (proj1 drained_ends))
    as (H1 & _ & _ & _ & _ & H6 & H7).
  split_and!; [exact (H1 72%nat (proj2 drained_ends))|exact H6|exact H7].
Defined.

Lemma free_slot_has_claim_witness :
  claims (loopTurn 4 2 None all_handled 5 0 sample_state) <> [] \/
  active (loopTurn 4 2 None all_handled 5 0 sample_state) <> [].
Proof.
  destruct sample_turns as (H1 & H2 & H3 & H4 & H5).
  exact (proj2 (free_slot_has_claim 4 2 1 None all_handled sample_events sample_state 5 0
    ltac:(lia) ltac:(lia) sample_run H1 H2 H3 H4 H5)).
Defined.

Lemma poll_delay_bounded_witness :
  1 <= (nextDispatchPollMs (Some 700) (1 # 2) sample_state).2 <= MAX_TIMER_DELAY_MS.
Proof.
  exact (proj1 (poll_delay_bounded (Some 700) (1 # 2) sample_state
    (conj (Qlt_le_weak 0 (1 # 2) eq_refl) eq_refl)
    (fun p H => match H in _ = o return match o with Some q => 1 <= q <= MAX_TIMER_DELAY_MS | None => True end
                with eq_refl => conj (Zle_bool_imp_le 1 700 eq_refl)
                                     (Zle_bool_imp_le 700 MAX_TIMER_DELAY_MS eq_refl) end))).
Defined.
