(* ===== verification/HandlerContext.v ===== *)
(** * The durable operations of a handler

    [createDurableHandlerContext] of [typescript/core/src/handler-context.ts]:
    the checkpoints, waits and children that one activation of a handler asks
    for, over the model of its attempt.  Calls with one name share one
    execution while it is in flight; a settled execution leaves the map of
    executions in flight in a step of its own, so a call between the two joins
    it too.  The operation of a checkpoint, the answers of PostgreSQL and the
    events of the attempt are events of the machine, in any order.

    Progress, task groups and the guard of fast-tier queues are left out, as is
    the cache of waits that only [getWait] reads. *)

From S2P Require Import Prelude Types TaskAttempt.

Section activation.
Context {V R : Type} `{!EqDecision R} (leaseMs : Z).

(** ** Checkpoints *)
Record TaskCheckpoint : Type := { cp_value : V; cp_fingerprint : option string }.
Inductive context_error : Type :=
| CheckpointInputConflict (name stored requested : string)
| LeaseRefused (reason : AbortReason)
| SuspendedFor (reason : AbortReason)
| OperationFailed | StatementFailed | InFlightConflict.

(** [listCheckpoints]: asked once in an activation. *)
Inductive checkpoint_load : Type := Unasked | Asked | Loaded (m : jsmap string TaskCheckpoint) | LoadFailed.
Inductive checkpoint_phase : Type := AwaitingLoad | Operating | Saving | Settled (r : res context_error V).
Record CheckpointRun : Type := { ck_name : string; ck_fingerprint : option string; ck_phase : checkpoint_phase }.

(** ** Waits, signals, human waits and children *)
Inductive durable_kind : Set := WaitKind | SignalKind | HumanKind | ChildKind | ChildSetKind.
#[local] Instance durable_kind_eq : EqDecision durable_kind.
Proof. solve_decision. Defined.
Inductive durable_answer : Type := Waiting | Ready (v : V).
Inductive durable_phase : Type := Sent | Finished (r : res context_error (option V)).
Record DurableRun : Type := { du_kind : durable_kind; du_name : string; du_request : R; du_phase : durable_phase }.

(** What a call of the handler awaits. *)
Inductive awaited : Type := Joins (run : nat) | Rejected (e : context_error).
Record CheckpointCall : Type := { call_name : string; call_fingerprint : option string; call_first : bool; call_awaits : awaited }.

Record Activation : Type := {
  attempt : TaskAttempt;
  checkpointsLoad : checkpoint_load;
  checkpointRuns : list CheckpointRun;
  inFlightCheckpoints : jsmap string nat;
  checkpointCalls : list CheckpointCall;
  operations : list (Z * string);        (* the operations that started *)
  saved : list string;                   (* the checkpoints that were saved *)
  durableRuns : list DurableRun;
  inFlightDurable : jsmap (durable_kind * string) nat;
  durableCalls : list (durable_kind * string * R * awaited);
  durableStatements : list (Z * (durable_kind * string));
  registeredWaits : nat;                 (* the answers that ask for a suspension *)
}.
#[local] Instance eta_activation : Eta Activation := fun s => {|
  attempt := attempt s; checkpointsLoad := checkpointsLoad s; checkpointRuns := checkpointRuns s;
  inFlightCheckpoints := inFlightCheckpoints s; checkpointCalls := checkpointCalls s; operations := operations s;
  saved := saved s; durableRuns := durableRuns s; inFlightDurable := inFlightDurable s;
  durableCalls := durableCalls s; durableStatements := durableStatements s; registeredWaits := registeredWaits s |}.
#[local] Instance eta_checkpoint_run : Eta CheckpointRun := fun r => {|
  ck_name := ck_name r; ck_fingerprint := ck_fingerprint r; ck_phase := ck_phase r |}.
#[local] Instance eta_durable_run : Eta DurableRun := fun d => {|
  du_kind := du_kind d; du_name := du_name d; du_request := du_request d; du_phase := du_phase d |}.

Definition newActivation (a : TaskAttempt) : Activation := {|
  attempt := a; checkpointsLoad := Unasked; checkpointRuns := []; inFlightCheckpoints := []; checkpointCalls := [];
  operations := []; saved := []; durableRuns := []; inFlightDurable := []; durableCalls := [];
  durableStatements := []; registeredWaits := 0 |}.

(** [checkInput]: inputs are compared only when both sides carry a fingerprint. *)
Definition checkInput (name : string) (stored requested : option string) : res context_error unit :=
  match stored, requested with
  | Some a, Some b => if bool_decide (a = b) then Ret tt else Throw (CheckpointInputConflict name a b)
  | _, _ => Ret tt
  end.

Definition setRun (r : nat) (p : checkpoint_phase) (s : Activation) : Activation :=
  s <| checkpointRuns ::= alter (fun x => x <| ck_phase := p |>) r |>.

(** A call of [checkpoint]. *)
Definition callCheckpoint (name : string) (fingerprint : option string) (s : Activation) : Activation :=
  let called first a := cons {| call_name := name; call_fingerprint := fingerprint; call_first := first; call_awaits := a |} in
  match jsget name (inFlightCheckpoints s) with
  | Some r =>
      let pending := match checkpointRuns s !! r with Some x => ck_fingerprint x | None => None end in
      match checkInput name pending fingerprint with
      | Throw e => s <| checkpointCalls ::= called false (Rejected e) |>
      | Ret _ => s <| checkpointCalls ::= called false (Joins r) |>
      end
  | None =>
      let r := length (checkpointRuns s) in
      s <| checkpointsLoad := match checkpointsLoad s with Unasked => Asked | l => l end |>
        <| checkpointRuns ::= fun l => l ++ [{| ck_name := name; ck_fingerprint := fingerprint; ck_phase := AwaitingLoad |}] |>
        <| inFlightCheckpoints ::= jsset name r |>
        <| checkpointCalls ::= called true (Joins r) |>
  end.

(** The execution after [await loadCheckpoints()]. *)
Definition checkpointResumes (now : Z) (r : nat) (s : Activation) : Activation :=
  match checkpointRuns s !! r, checkpointsLoad s with
  | Some {| ck_name := name; ck_fingerprint := fingerprint; ck_phase := AwaitingLoad |}, Loaded m =>
      match jsget name m with
      | Some existing =>
          setRun r (Settled (checkInput name (cp_fingerprint existing) fingerprint ;;; Ret (cp_value existing))) s
      | None =>
          let '(a, refused) := requireLease now (attempt s) in
          let s := s <| attempt := a |> in
          match refused with
          | Some reason => setRun r (Settled (Throw (LeaseRefused reason))) s
          | None => setRun r Operating (s <| operations ::= cons (now, name) |>)
          end
      end
  | Some {| ck_phase := AwaitingLoad |}, LoadFailed => setRun r (Settled (Throw StatementFailed)) s
  | _, _ => s
  end.
Definition operationEnds (r : nat) (ok : bool) (s : Activation) : Activation :=
  match checkpointRuns s !! r with
  | Some {| ck_phase := Operating |} => setRun r (if ok then Saving else Settled (Throw OperationFailed)) s
  | _ => s
  end.
(** [saveCheckpoint] answers, with the value that PostgreSQL stored. *)
Definition saveAnswers (r : nat) (answer : option TaskCheckpoint) (s : Activation) : Activation :=
  match checkpointRuns s !! r, checkpointsLoad s with
  | Some {| ck_name := name; ck_phase := Saving |}, Loaded m =>
      match answer with
      | Some c =>
          setRun r (Settled (Ret (cp_value c))) (s <| checkpointsLoad := Loaded (jsset name c m) |> <| saved ::= cons name |>)
      | None => setRun r (Settled (Throw StatementFailed)) s
      end
  | _, _ => s
  end.
(** The [finally] of the call that started the execution. *)
Definition checkpointCleanup (r : nat) (s : Activation) : Activation :=
  match checkpointRuns s !! r with
  | Some {| ck_name := name; ck_phase := Settled _ |} =>
      if bool_decide (jsget name (inFlightCheckpoints s) = Some r)
      then s <| inFlightCheckpoints ::= jsdelete name |> else s
  | _ => s
  end.

(** The kinds that compare the request of a call with the one in flight. *)
Definition comparesRequest (k : durable_kind) : bool :=
  match k with HumanKind | ChildKind | ChildSetKind => true | WaitKind | SignalKind => false end.
(** A call of [sleep], [waitForSignal], [waitForHuman], [runChild] or of a child
    set, which has one name. *)
Definition callDurable (now : Z) (k : durable_kind) (name : string) (request : R) (s : Activation) : Activation :=
  match jsget (k, name) (inFlightDurable s) with
  | Some d =>
      let differs := match durableRuns s !! d with Some x => negb (bool_decide (du_request x = request)) | None => false end in
      let a := if comparesRequest k && differs then Rejected InFlightConflict else Joins d in
      s <| durableCalls ::= cons (k, name, request, a) |>
  | None =>
      let '(a, refused) := requireLease now (attempt s) in
      let d := length (durableRuns s) in
      let p := match refused with Some reason => Finished (Throw (LeaseRefused reason)) | None => Sent end in
      s <| attempt := a |>
        <| durableRuns ::= fun l => l ++ [{| du_kind := k; du_name := name; du_request := request; du_phase := p |}] |>
        <| inFlightDurable ::= jsset (k, name) d |>
        <| durableCalls ::= cons (k, name, request, Joins d) |>
        <| durableStatements ::= match refused with Some _ => id | None => cons (now, (k, name)) end |>
  end.
Definition setDurable (d : nat) (p : durable_phase) (s : Activation) : Activation :=
  s <| durableRuns ::= alter (fun x => x <| du_phase := p |>) d |>.
Definition isChild (k : durable_kind) : bool := match k with ChildKind | ChildSetKind => true | _ => false end.
Definition durableAnswers (d : nat) (answer : option durable_answer) (s : Activation) : Activation :=
  match durableRuns s !! d with
  | Some {| du_kind := k; du_phase := Sent |} =>
      match answer with
      | None => setDurable d (Finished (Throw StatementFailed)) s
      | Some (Ready v) => setDurable d (Finished (Ret (Some v))) s
      | Some Waiting =>
          let s := s <| registeredWaits ::= S |> in
          match k with
          | WaitKind =>
              let '(a, thrown) := suspendForScheduledWait (attempt s) in
              setDurable d (Finished (match thrown with Some reason => Throw (SuspendedFor reason) | None => Ret None end))
                (s <| attempt := a |>)
          | _ =>
              let '(a, reason) := suspend (isChild k) (attempt s) in
              setDurable d (Finished (Throw (SuspendedFor reason))) (s <| attempt := a |>)
          end
      end
  | _ => s
  end.
Definition durableCleanup (d : nat) (s : Activation) : Activation :=
  match durableRuns s !! d with
  | Some {| du_kind := k; du_name := name; du_phase := Finished _ |} =>
      if bool_decide (jsget (k, name) (inFlightDurable s) = Some d)
      then s <| inFlightDurable ::= jsdelete (k, name) |> else s
  | _ => s
  end.

(** ** The machine *)
Inductive context_event : Type :=
| AttemptEvent (e : event)
| CallCheckpoint (name : string) (fingerprint : option string)
| CheckpointsAnswer (answer : option (jsmap string TaskCheckpoint))
| CheckpointResumes (r : nat) | OperationEnds (r : nat) (ok : bool)
| SaveAnswers (r : nat) (answer : option TaskCheckpoint) | CheckpointCleanup (r : nat)
| CallDurable (k : durable_kind) (name : string) (request : R)
| DurableAnswers (d : nat) (answer : option durable_answer) | DurableCleanup (d : nat).
Definition context_step (s : Activation) (te : Z * context_event) : Activation :=
  let '(now, e) := te in
  match e with
  | AttemptEvent e => s <| attempt := attempt_step leaseMs (attempt s) (now, e) |>
  | CallCheckpoint name fingerprint => callCheckpoint name fingerprint s
  | CheckpointsAnswer answer =>
      match checkpointsLoad s with
      | Asked => s <| checkpointsLoad := match answer with Some m => Loaded m | None => LoadFailed end |>
      | _ => s
      end
  | CheckpointResumes r => checkpointResumes now r s
  | OperationEnds r ok => operationEnds r ok s
  | SaveAnswers r answer => saveAnswers r answer s
  | CheckpointCleanup r => checkpointCleanup r s
  | CallDurable k name request => callDurable now k name request s
  | DurableAnswers d answer => durableAnswers d answer s
  | DurableCleanup d => durableCleanup d s
  end.

(** ** The invariant of the checkpoints *)
Definition unsettled (p : checkpoint_phase) : bool := match p with Settled _ => false | _ => true end.
Definition active (p : checkpoint_phase) : bool := match p with Operating | Saving => true | _ => false end.
Record checkpoints_ok (s : Activation) : Prop := {
  ck_inFlight : forall name r, jsget name (inFlightCheckpoints s) = Some r ->
    exists x, checkpointRuns s !! r = Some x /\ ck_name x = name;
  ck_unsettled : forall r x, checkpointRuns s !! r = Some x -> unsettled (ck_phase x) = true ->
    jsget (ck_name x) (inFlightCheckpoints s) = Some r;
  ck_active : forall r x, checkpointRuns s !! r = Some x -> active (ck_phase x) = true ->
    exists m, checkpointsLoad s = Loaded m /\ jsget (ck_name x) m = None;
  ck_done : forall r x v, checkpointRuns s !! r = Some x -> ck_phase x = Settled (Ret v) ->
    exists m c, checkpointsLoad s = Loaded m /\ jsget (ck_name x) m = Some c /\ cp_value c = v /\
      (ck_name x ∈ saved s \/ checkInput (ck_name x) (cp_fingerprint c) (ck_fingerprint x) = Ret tt);
  ck_saved : NoDup (saved s) /\
    forall name, name ∈ saved s -> exists m, checkpointsLoad s = Loaded m /\ is_Some (jsget name m);
  ck_calls : forall c r, c ∈ checkpointCalls s -> call_awaits c = Joins r ->
    exists x, checkpointRuns s !! r = Some x /\ ck_name x = call_name c /\
      (call_first c = true -> ck_fingerprint x = call_fingerprint c);
}.
Lemma new_checkpoints_ok a : checkpoints_ok (newActivation a).
Proof.
  constructor; simpl; try done.
  - split; [constructor|by intros ? ?%elem_of_nil].
  - by intros ? ? ?%elem_of_nil.
Qed.
(** The checkpoints do not depend on the attempt, nor on the other operations. *)
Lemma other_checkpoints_ok s s' :
  checkpoints_ok s -> checkpointsLoad s' = checkpointsLoad s -> checkpointRuns s' = checkpointRuns s ->
  inFlightCheckpoints s' = inFlightCheckpoints s -> checkpointCalls s' = checkpointCalls s -> saved s' = saved s ->
  checkpoints_ok s'.
Proof. intros [H1 H2 H3 H4 H5 H6] E1 E2 E3 E4 E5. constructor; rewrite ?E1, ?E2, ?E3, ?E4, ?E5; done. Qed.

(** One run changes its phase, with the rest as it is. *)
Lemma set_phase_ok s s' r x p :
  checkpoints_ok s -> checkpointRuns s !! r = Some x -> unsettled (ck_phase x) = true ->
  checkpointsLoad s' = checkpointsLoad s -> inFlightCheckpoints s' = inFlightCheckpoints s ->
  checkpointCalls s' = checkpointCalls s -> saved s' = saved s ->
  checkpointRuns s' = alter (fun x => x <| ck_phase := p |>) r (checkpointRuns s) ->
  (active p = true -> exists m, checkpointsLoad s = Loaded m /\ jsget (ck_name x) m = None) ->
  (forall v, p = Settled (Ret v) -> exists m c, checkpointsLoad s = Loaded m /\ jsget (ck_name x) m = Some c /\ cp_value c = v /\
     (ck_name x ∈ saved s \/ checkInput (ck_name x) (cp_fingerprint c) (ck_fingerprint x) = Ret tt)) ->
  checkpoints_ok s'.
Proof.
  intros [H1 H2 H3 H4 H5 H6] Hx Hu E1 E2 E3 E4 E5 Ha Hd.
  assert (Hname : forall j y, checkpointRuns s !! j = Some y ->
    exists y', checkpointRuns s' !! j = Some y' /\ ck_name y' = ck_name y /\ ck_fingerprint y' = ck_fingerprint y).
  { intros j y Hy. rewrite E5. destruct (decide (j = r)) as [->|Hne].
    - rewrite list_lookup_alter_eq, Hy. by eexists.
    - rewrite list_lookup_alter_ne by done. by exists y. }
  constructor; rewrite ?E1, ?E2, ?E3, ?E4; try done.
  - intros name j Hj. destruct (H1 name j Hj) as (y & Hy & <-). destruct (Hname j y Hy) as (y' & ? & ? & _). by exists y'.
  - intros j y. rewrite E5. intros (z & Hz & ->)%lookup_alter_inv. case_decide; [subst; simpl|by apply (H2 j z)].
    intros _. rewrite Hx in Hz. simplify_eq. by apply H2.
  - intros j y. rewrite E5. intros (z & Hz & ->)%lookup_alter_inv. case_decide; [subst; simpl|by apply (H3 j z)].
    rewrite Hx in Hz. simplify_eq. done.
  - intros j y v. rewrite E5. intros (z & Hz & ->)%lookup_alter_inv. case_decide; [subst; simpl|by apply (H4 j z)].
    rewrite Hx in Hz. simplify_eq. apply Hd.
  - intros c j Hc Hj. destruct (H6 c j Hc Hj) as (y & Hy & <- & Hf). destruct (Hname j y Hy) as (y' & ? & ? & Ef).
    exists y'. by rewrite Ef.
Qed.

Lemma called_ok s c :
  checkpoints_ok s ->
  (forall r, call_awaits c = Joins r -> exists x, checkpointRuns s !! r = Some x /\ ck_name x = call_name c /\
     (call_first c = true -> ck_fingerprint x = call_fingerprint c)) ->
  checkpoints_ok (s <| checkpointCalls ::= cons c |>).
Proof.
  intros [H1 H2 H3 H4 H5 H6] Hc. constructor; try done. simpl. intros c' r [->|Hin]%elem_of_cons; [apply Hc|by apply H6].
Qed.
Lemma call_ok name fingerprint s : checkpoints_ok s -> checkpoints_ok (callCheckpoint name fingerprint s).
Proof.
  intros H. unfold callCheckpoint. destruct (jsget name (inFlightCheckpoints s)) as [r|] eqn:E.
  - destruct (ck_inFlight s H name r E) as (x & Hx & Hn). rewrite Hx.
    destruct (checkInput name (ck_fingerprint x) fingerprint); apply called_ok; try done.
    intros r' [= <-]. by exists x.
  - set (x := {| ck_name := name; ck_fingerprint := fingerprint; ck_phase := AwaitingLoad |}).
    set (load := match checkpointsLoad s with Unasked => Asked | l => l end).
    assert (Hload : forall m, checkpointsLoad s = Loaded m -> load = Loaded m) by (by intros m Hm; unfold load; rewrite Hm).
    assert (Hnew : forall j y, (checkpointRuns s ++ [x]) !! j = Some y ->
      checkpointRuns s !! j = Some y \/ j = length (checkpointRuns s) /\ y = x).
    { intros j y. rewrite lookup_app. destruct (checkpointRuns s !! j) eqn:Ej; [intros [= <-]; by left|].
      apply lookup_ge_None in Ej. intros Hy. right. apply list_lookup_singleton_Some in Hy as [? <-]. split; [lia|done]. }
    assert (Hold : forall j y, checkpointRuns s !! j = Some y -> (checkpointRuns s ++ [x]) !! j = Some y).
    { intros j y Hy. by apply lookup_app_l_Some. }
    apply (called_ok (s <| checkpointsLoad := load |> <| checkpointRuns ::= fun l => l ++ [x] |>
      <| inFlightCheckpoints ::= jsset name (length (checkpointRuns s)) |>)).
    2: { intros r [= <-]. exists x. split; [|done]. simpl. by rewrite lookup_app_r, Nat.sub_diag by lia. }
    destruct H as [H1 H2 H3 H4 [H5a H5b] H6]. constructor; simpl.
    + intros n r. rewrite jsget_set. case_decide as Hn.
      * intros [= <-]. exists x. split; [by rewrite lookup_app_r, Nat.sub_diag by lia|by subst].
      * intros Hr. destruct (H1 n r Hr) as (y & Hy & ?). exists y. auto.
    + intros j y [Hy|[-> ->]]%Hnew Hu; rewrite jsget_set; [|by rewrite decide_True].
      pose proof (H2 j y Hy Hu) as Hj. rewrite decide_False; [done|]. intros Hn. rewrite Hn in Hj. congruence.
    + intros j y [Hy|[-> ->]]%Hnew Hu; [|done]. destruct (H3 j y Hy Hu) as (m & Hm & ?). exists m. auto.
    + intros j y v [Hy|[-> ->]]%Hnew Hu; [|done]. destruct (H4 j y v Hy Hu) as (m & c & Hm & ?). exists m, c. auto.
    + split; [done|]. intros n Hn. destruct (H5b n Hn) as (m & Hm & ?). exists m. auto.
    + intros c r Hc Hr. destruct (H6 c r Hc Hr) as (y & Hy & ?). exists y. auto.
Qed.
Lemma loaded_ok s load :
  checkpoints_ok s -> checkpointsLoad s = Asked -> checkpoints_ok (s <| checkpointsLoad := load |>).
Proof.
  intros [H1 H2 H3 H4 [H5a H5b] H6] E. rewrite E in *. constructor; simpl; try done.
  - intros r x Hx Ha. by destruct (H3 r x Hx Ha) as (m & ? & _).
  - intros r x v Hx Ha. by destruct (H4 r x v Hx Ha) as (m & c & ? & _).
  - split; [done|]. intros n Hn. by destruct (H5b n Hn) as (m & ? & _).
Qed.
Lemma resumes_ok now r s : checkpoints_ok s -> checkpoints_ok (checkpointResumes now r s).
Proof.
  intros H. unfold checkpointResumes. destruct (checkpointRuns s !! r) as [[name fp p]|] eqn:Hx; [|done].
  destruct p; try done. destruct (checkpointsLoad s) as [| |m|] eqn:El; try done.
  - destruct (jsget name m) as [c|] eqn:Ec.
    + eapply (set_phase_ok s _ r); try done. intros v Hv. exists m, c. injection Hv as Hv. simpl.
      destruct (checkInput name (cp_fingerprint c) fp) as [[]|] eqn:Ei; simpl in Hv; simplify_eq. auto.
    + destruct (requireLease now (attempt s)) as [a [reason|]].
      * by eapply (set_phase_ok s _ r).
      * eapply (set_phase_ok s _ r); try done. intros _. by exists m.
  - by eapply (set_phase_ok s _ r).
Qed.
Lemma operation_ok r ok s : checkpoints_ok s -> checkpoints_ok (operationEnds r ok s).
Proof.
  intros H. unfold operationEnds. destruct (checkpointRuns s !! r) as [[name fp p]|] eqn:Hx; [|done].
  destruct p; try done. pose proof (ck_active s H r _ Hx eq_refl) as Ha. destruct ok; by eapply (set_phase_ok s _ r).
Qed.
Lemma save_ok r answer s : checkpoints_ok s -> checkpoints_ok (saveAnswers r answer s).
Proof.
  intros H. unfold saveAnswers. destruct (checkpointRuns s !! r) as [[name fp p]|] eqn:Hx; [|done].
  destruct p; try done. destruct (ck_active s H r _ Hx eq_refl) as (m & El & Hnone). simpl in Hnone. rewrite El.
  destruct answer as [c|]; [|by eapply (set_phase_ok s _ r)].
  assert (Hget : forall n, jsget n (jsset name c m) = if decide (n = name) then Some c else jsget n m) by (intros; apply jsget_set).
  assert (Hother : forall j y, checkpointRuns s !! j = Some y -> unsettled (ck_phase y) = true -> j <> r -> ck_name y <> name).
  { intros j y Hy Hu Hne Hn. pose proof (ck_unsettled s H j y Hy Hu) as Hj. rewrite Hn in Hj.
    pose proof (ck_unsettled s H r _ Hx eq_refl) as Hr. simpl in Hr. congruence. }
  assert (Hname : forall j y, checkpointRuns s !! j = Some y -> exists y',
    checkpointRuns (saveAnswers r (Some c) s) !! j = Some y' /\ ck_name y' = ck_name y /\ ck_fingerprint y' = ck_fingerprint y).
  { intros j y Hy. unfold saveAnswers. rewrite Hx, El. simpl. destruct (decide (j = r)) as [->|Hne].
    - rewrite list_lookup_alter_eq, Hy. by eexists.
    - rewrite list_lookup_alter_ne by done. by exists y. }
  unfold saveAnswers in Hname. rewrite Hx, El in Hname. destruct H as [H1 H2 H3 H4 [H5a H5b] H6].
  constructor; simpl in *.
  - intros n j Hj. destruct (H1 n j Hj) as (y & Hy & <-). destruct (Hname j y Hy) as (y' & ? & ? & _). by exists y'.
  - intros j y (z & Hz & ->)%lookup_alter_inv. case_decide; [done|]. by apply (H2 j z).
  - intros j y (z & Hz & ->)%lookup_alter_inv. case_decide; [done|]. intros Ha.
    destruct (H3 j z Hz Ha) as (m' & E & Hm'). rewrite El in E. injection E as <-. exists (jsset name c m). split; [done|].
    rewrite Hget, decide_False; [done|]. apply (Hother j); [done| |done]. by destruct (ck_phase z).
  - intros j y v (z & Hz & ->)%lookup_alter_inv Hp. exists (jsset name c m).
    case_decide as Hj; simpl in *.
    + subst j. rewrite Hx in Hz. injection Hz as <-. exists c. simpl. rewrite Hget, decide_True by done.
      injection Hp as ->. split_and!; [done..|]. left. apply list_elem_of_here.
    + destruct (H4 j z v Hz Hp) as (m' & c' & E & Hc' & Hv & Hi). rewrite El in E. injection E as <-.
      exists c'. rewrite Hget, decide_False; [|intros Hn; rewrite Hn in Hc'; congruence].
      split_and!; [done..|]. destruct Hi; [left; apply elem_of_cons|]; by right.
  - split.
    + constructor; [|done]. intros Hin. destruct (H5b name Hin) as (m' & E & [c' Hc']). rewrite El in E. injection E as <-. congruence.
    + intros n [->|Hn]%elem_of_cons; exists (jsset name c m); (split; [done|]); rewrite Hget.
      * rewrite decide_True by done. by eexists.
      * destruct (H5b n Hn) as (m' & E & ?). rewrite El in E. injection E as <-. by case_decide; [eexists|].
  - intros c' j Hc Hj. destruct (H6 c' j Hc Hj) as (y & Hy & <- & Hf). destruct (Hname j y Hy) as (y' & ? & ? & Ef).
    exists y'. by rewrite Ef.
Qed.
Lemma cleanup_ok r s : checkpoints_ok s -> checkpoints_ok (checkpointCleanup r s).
Proof.
  intros H. unfold checkpointCleanup. destruct (checkpointRuns s !! r) as [[name fp p]|] eqn:Hx; [|done].
  destruct p as [| | |res]; try done. case_bool_decide as Hr; [|done]. destruct H as [H1 H2 H3 H4 H5 H6].
  constructor; simpl; try done.
  - intros n j. rewrite jsget_delete. case_decide; [done|]. apply H1.
  - intros j y Hy Hu. rewrite jsget_delete. pose proof (H2 j y Hy Hu) as Hj.
    rewrite decide_False; [done|]. intros Hn. rewrite Hn, Hr in Hj. injection Hj as <-.
    rewrite Hx in Hy. by injection Hy as <-.
Qed.
Lemma call_durable_ok now k name request s : checkpoints_ok s -> checkpoints_ok (callDurable now k name request s).
Proof.
  intros H. unfold callDurable. destruct (jsget _ _); [by eapply other_checkpoints_ok|].
  destruct (requireLease now (attempt s)). by eapply other_checkpoints_ok.
Qed.
Lemma answer_durable_ok d answer s : checkpoints_ok s -> checkpoints_ok (durableAnswers d answer s).
Proof.
  intros H. unfold durableAnswers. destruct (durableRuns s !! d) as [[k n rq p]|]; [|done]. destruct p; [|done].
  destruct answer as [[|v]|]; [|by eapply other_checkpoints_ok..]. cbn zeta.
  destruct k; try destruct (suspendForScheduledWait _); try destruct (suspend _ _); by eapply other_checkpoints_ok.
Qed.
Lemma cleanup_durable_ok d s : checkpoints_ok s -> checkpoints_ok (durableCleanup d s).
Proof.
  intros H. unfold durableCleanup. destruct (durableRuns s !! d) as [[k n rq p]|]; [|done]. destruct p; [done|].
  case_bool_decide; [by eapply other_checkpoints_ok|done].
Qed.
Lemma step_checkpoints_ok s te : checkpoints_ok s -> checkpoints_ok (context_step s te).
Proof.
  intros H. destruct te as [now e]. destruct e; simpl.
  - by eapply other_checkpoints_ok.
  - by apply call_ok.
  - destruct (checkpointsLoad s) eqn:E; try done. by apply loaded_ok.
  - by apply resumes_ok.
  - by apply operation_ok.
  - by apply save_ok.
  - by apply cleanup_ok.
  - by apply call_durable_ok.
  - by apply answer_durable_ok.
  - by apply cleanup_durable_ok.
Qed.
Lemma run_checkpoints_ok a evs : checkpoints_ok (run context_step (newActivation a) evs).
Proof. apply (run_invariant context_step checkpoints_ok); [apply step_checkpoints_ok|apply new_checkpoints_ok]. Qed.

(** What a call of [checkpoint] returned. *)
Definition call_result (s : Activation) (c : CheckpointCall) : option (res context_error V) :=
  match call_awaits c with
  | Rejected e => Some (Throw e)
  | Joins r => match checkpointRuns s !! r with Some {| ck_phase := Settled x |} => Some x | _ => None end
  end.

(** C9: All calls of a checkpoint agree: in one activation, whatever the order of
    calls, failures and answers, any two calls with one name that return a value
    return the same value, the one in the cache; each name is saved at most once;
    and no two executions of one name are unsettled at once, so its operations
    never overlap. A value that was stored before the activation goes to a call
    that started its execution only if their inputs do not differ. *)
Theorem checkpoint_calls_agree a evs :
  let s := run context_step (newActivation a) evs in
  (forall c c' v v', c ∈ checkpointCalls s -> c' ∈ checkpointCalls s -> call_name c = call_name c' ->
    call_result s c = Some (Ret v) -> call_result s c' = Some (Ret v') -> v = v') /\
  NoDup (saved s) /\
  (forall r r' x x', checkpointRuns s !! r = Some x -> checkpointRuns s !! r' = Some x' -> ck_name x = ck_name x' ->
    unsettled (ck_phase x) = true -> unsettled (ck_phase x') = true -> r = r') /\
  (forall c v, c ∈ checkpointCalls s -> call_first c = true -> call_result s c = Some (Ret v) -> call_name c ∉ saved s ->
    exists m k, checkpointsLoad s = Loaded m /\ jsget (call_name c) m = Some k /\
      checkInput (call_name c) (cp_fingerprint k) (call_fingerprint c) = Ret tt).
Proof.
  intros s. assert (H := run_checkpoints_ok a evs). fold s in H. split_and!; [|apply (ck_saved s H)| |].
  - assert (Hv : forall c v, c ∈ checkpointCalls s -> call_result s c = Some (Ret v) ->
      exists m k, checkpointsLoad s = Loaded m /\ jsget (call_name c) m = Some k /\ cp_value k = v).
    { intros c v Hc. unfold call_result. destruct (call_awaits c) as [r|e] eqn:Ea; [|done].
      destruct (ck_calls s H c r Hc Ea) as (x & Hx & <- & _). rewrite Hx. destruct x as [n fp [| | |y]]; try done.
      intros [= ->]. destruct (ck_done s H r _ v Hx eq_refl) as (m & k & ? & ? & ? & _). by exists m, k. }
    intros c c' v v' Hc Hc' Hn Hr Hr'. destruct (Hv c v Hc Hr) as (m & k & E & Hk & <-).
    destruct (Hv c' v' Hc' Hr') as (m' & k' & E' & Hk' & <-). rewrite Hn in Hk. congruence.
  - intros r r' x x' Hx Hx' Hn Hu Hu'. pose proof (ck_unsettled s H r x Hx Hu) as H1.
    pose proof (ck_unsettled s H r' x' Hx' Hu') as H2. rewrite Hn in H1. congruence.
  - intros c v Hc Hf. unfold call_result. destruct (call_awaits c) as [r|e] eqn:Ea; [|done].
    destruct (ck_calls s H c r Hc Ea) as (x & Hx & <- & Hfp). rewrite Hx. rewrite <- (Hfp Hf).
    destruct x as [n fp [| | |y]]; try done. intros [= ->] Hn.
    destruct (ck_done s H r _ v Hx eq_refl) as (m & k & ? & ? & _ & [?|?]); [done|]. by exists m, k.
Qed.

(** ** Durable operations *)
Definition in_flight (p : durable_phase) : bool := match p with Sent => true | Finished _ => false end.
Record durable_ok (s : Activation) : Prop := {
  du_inFlight : forall k n d, jsget (k, n) (inFlightDurable s) = Some d ->
    exists x, durableRuns s !! d = Some x /\ du_kind x = k /\ du_name x = n;
  du_unsettled : forall d x, durableRuns s !! d = Some x -> in_flight (du_phase x) = true ->
    jsget (du_kind x, du_name x) (inFlightDurable s) = Some d;
  du_calls : forall k n q d, (k, n, q, Joins d) ∈ durableCalls s ->
    exists x, durableRuns s !! d = Some x /\ du_kind x = k /\ du_name x = n /\
      (comparesRequest k = true -> du_request x = q);
  du_decided : (0 < registeredWaits s)%nat -> accepted (attempt s) <> None;
}.
Lemma new_durable_ok a : durable_ok (newActivation a).
Proof. constructor; simpl; try done; [by intros ? ? ? ? ?%elem_of_nil|lia]. Qed.
(** A run that finishes keeps its kind, its name and its request. *)
Lemma finish_ok s s' d x r :
  durable_ok s -> durableRuns s !! d = Some x ->
  durableRuns s' = alter (fun x => x <| du_phase := Finished r |>) d (durableRuns s) ->
  inFlightDurable s' = inFlightDurable s -> durableCalls s' = durableCalls s ->
  ((0 < registeredWaits s')%nat -> accepted (attempt s') <> None) -> durable_ok s'.
Proof.
  intros [H1 H2 H3 H4] Hx E1 E2 E3 Hw.
  assert (Hsame : forall j y, durableRuns s !! j = Some y -> exists y', durableRuns s' !! j = Some y' /\
    du_kind y' = du_kind y /\ du_name y' = du_name y /\ du_request y' = du_request y).
  { intros j y Hy. rewrite E1. destruct (decide (j = d)) as [->|Hne].
    - rewrite list_lookup_alter_eq, Hy. by eexists.
    - rewrite list_lookup_alter_ne by done. by exists y. }
  constructor; rewrite ?E2, ?E3; try done.
  - intros k n j Hj. destruct (H1 k n j Hj) as (y & Hy & <- & <-). destruct (Hsame j y Hy) as (y' & ? & ? & ? & ?). by exists y'.
  - intros j y. rewrite E1. intros (z & Hz & ->)%lookup_alter_inv. case_decide; [done|]. by apply H2.
  - intros k n q j Hj. destruct (H3 k n q j Hj) as (y & Hy & <- & <- & Hq).
    destruct (Hsame j y Hy) as (y' & ? & ? & ? & Er). exists y'. rewrite Er. done.
Qed.
Lemma attempt_durable_ok s s' :
  durable_ok s -> durableRuns s' = durableRuns s -> inFlightDurable s' = inFlightDurable s ->
  durableCalls s' = durableCalls s -> registeredWaits s' = registeredWaits s ->
  attempt_le (attempt s) (attempt s') -> durable_ok s'.
Proof.
  intros [H1 H2 H3 H4] E1 E2 E3 E4 Hle. constructor; rewrite ?E1, ?E2, ?E3, ?E4; try done.
  intros Hw. destruct (accepted (attempt s)) as [o|] eqn:Eo; [|by destruct (H4 Hw)].
  by rewrite (le_accepted _ _ Hle o Eo).
Qed.
Lemma requireLease_le now (a : TaskAttempt) : attempt_le a (requireLease now a).1.
Proof. apply (attempt_step_le leaseMs a (now, RequireLease)). Qed.
Lemma submit_decides o a : accepted (submit o a).2 <> None.
Proof. unfold submit. by destruct (accepted a) eqn:E; simpl; rewrite ?E. Qed.
Lemma abort_accepted reason a : accepted (abort reason a) = accepted a.
Proof. unfold abort. by case_match. Qed.
Lemma suspend_decides child a : accepted (suspend child a).1 <> None.
Proof.
  unfold suspend. set (o := if child then _ else _ : AO.AttemptOutcome). pose proof (submit_decides o a) as H.
  destruct (submit o a) as [[] a']; simpl in *; by rewrite ?abort_accepted.
Qed.
Lemma suspend_wait_decides a : accepted (suspendForScheduledWait a).1 <> None.
Proof.
  unfold suspendForScheduledWait. pose proof (submit_decides AO.suspended_for_wait a) as H.
  destruct (submit _ a) as [[] a']; simpl in *; by rewrite ?abort_accepted.
Qed.
Lemma call_durable_runs now k name request s : durable_ok s -> durable_ok (callDurable now k name request s).
Proof.
  intros H. unfold callDurable. destruct (jsget (k, name) (inFlightDurable s)) as [d|] eqn:E.
  - destruct (du_inFlight s H k name d E) as (x & Hx & Hk & Hn). rewrite Hx. destruct H as [H1 H2 H3 H4].
    constructor; simpl; try done. intros k' n' q d' [Heq|Hin]%elem_of_cons; [|by apply H3].
    destruct (comparesRequest k) eqn:Ec, (bool_decide (du_request x = request)) eqn:Eq; cbn in Heq; try discriminate Heq;
      injection Heq as -> -> -> ->; exists x; split_and!; try done; try congruence. by apply bool_decide_eq_true in Eq.
  - pose proof (requireLease_le now (attempt s)) as Hle. destruct (requireLease now (attempt s)) as [a refused]. simpl in Hle.
    set (x := {| du_kind := k; du_name := name; du_request := request;
      du_phase := match refused with Some reason => Finished (Throw (LeaseRefused reason)) | None => Sent end |}).
    assert (Hlast : (durableRuns s ++ [x]) !! length (durableRuns s) = Some x) by by rewrite lookup_app_r, Nat.sub_diag by lia.
    assert (Hold : forall j y, durableRuns s !! j = Some y -> (durableRuns s ++ [x]) !! j = Some y) by (intros; by apply lookup_app_l_Some).
    destruct H as [H1 H2 H3 H4]. constructor; simpl.
    + intros k' n' d. rewrite jsget_set. case_decide; [intros [= <-]; simplify_eq; by exists x|].
      intros Hd. destruct (H1 k' n' d Hd) as (y & Hy & ? & ?). exists y. auto.
    + intros d y. rewrite lookup_app. destruct (durableRuns s !! d) as [z|] eqn:Ed.
      * intros [= <-] Hu. rewrite jsget_set. pose proof (H2 d z Ed Hu) as Hd. rewrite decide_False; [done|].
        intros Hn. rewrite Hn in Hd. congruence.
      * apply lookup_ge_None in Ed. intros [Hd <-]%list_lookup_singleton_Some Hu. rewrite jsget_set, decide_True by done. f_equal. lia.
    + intros k' n' q d [Heq|Hin]%elem_of_cons; [simplify_eq; by exists x|].
      destruct (H3 k' n' q d Hin) as (y & Hy & ?). exists y. auto.
    + intros Hw. destruct (accepted (attempt s)) as [o|] eqn:Eo; [|by destruct (H4 Hw)]. by rewrite (le_accepted _ _ Hle o Eo).
Qed.
Lemma answer_durable_runs d answer s : durable_ok s -> durable_ok (durableAnswers d answer s).
Proof.
  intros H. unfold durableAnswers. destruct (durableRuns s !! d) as [[k n rq p]|] eqn:Ed; [|done]. destruct p; [|done].
  destruct answer as [[|v]|]; [|by eapply finish_ok; [done..|apply (du_decided s H)]..]. cbn zeta.
  pose proof (suspend_wait_decides (attempt s)). pose proof (suspend_decides (isChild k) (attempt s)).
  change (attempt (s <| registeredWaits ::= S |>)) with (attempt s).
  destruct (suspendForScheduledWait (attempt s)) as [a1 r1], (suspend (isChild k) (attempt s)) as [a2 r2].
  destruct k; by eapply (finish_ok s).
Qed.
Lemma cleanup_durable_runs d s : durable_ok s -> durable_ok (durableCleanup d s).
Proof.
  intros H. unfold durableCleanup. destruct (durableRuns s !! d) as [[k n rq p]|] eqn:Ed; [|done]. destruct p as [|r]; [done|].
  case_bool_decide as Hd; [|done]. destruct H as [H1 H2 H3 H4]. constructor; simpl; try done.
  - intros k' n' j. rewrite jsget_delete. case_decide; [done|]. apply H1.
  - intros j y Hy Hu. rewrite jsget_delete. pose proof (H2 j y Hy Hu) as Hj. rewrite decide_False; [done|].
    intros Hn. rewrite Hn, Hd in Hj. injection Hj as <-. rewrite Ed in Hy. by injection Hy as <-.
Qed.
Lemma step_durable_ok s te : durable_ok s -> durable_ok (context_step s te).
Proof.
  intros H. destruct te as [now e]. destruct e; simpl.
  - eapply attempt_durable_ok; [done..|]. apply attempt_step_le.
  - unfold callCheckpoint. repeat case_match; by eapply attempt_durable_ok.
  - case_match; [done| |done|done]. by eapply attempt_durable_ok.
  - unfold checkpointResumes. pose proof (requireLease_le now (attempt s)).
    destruct (requireLease now (attempt s)) as [a [reason|]]; repeat case_match; simplify_eq; try done; by eapply attempt_durable_ok.
  - unfold operationEnds. repeat case_match; try done; by eapply attempt_durable_ok.
  - unfold saveAnswers. repeat case_match; try done; by eapply attempt_durable_ok.
  - unfold checkpointCleanup. repeat case_match; try done; by eapply attempt_durable_ok.
  - by apply call_durable_runs.
  - by apply answer_durable_runs.
  - by apply cleanup_durable_runs.
Qed.
Lemma run_durable_ok a evs : durable_ok (run context_step (newActivation a) evs).
Proof. apply (run_invariant context_step durable_ok); [apply step_durable_ok|apply new_durable_ok]. Qed.

(** Durable calls share one statement: at most one statement of a kind and a
    name is in flight; a call that joins one has the same request where requests
    are compared; and once PostgreSQL registered a wait or a child for the
    attempt, the outcome of the attempt is decided, so no completion follows. *)
Theorem durable_calls_share a evs :
  let s := run context_step (newActivation a) evs in
  (forall d d' x x', durableRuns s !! d = Some x -> durableRuns s !! d' = Some x' -> du_kind x = du_kind x' ->
    du_name x = du_name x' -> in_flight (du_phase x) = true -> in_flight (du_phase x') = true -> d = d') /\
  (forall k n q d, (k, n, q, Joins d) ∈ durableCalls s -> comparesRequest k = true ->
    exists x, durableRuns s !! d = Some x /\ du_request x = q) /\
  ((0 < registeredWaits s)%nat -> accepted (attempt s) <> None).
Proof.
  intros s. assert (H := run_durable_ok a evs). fold s in H. split_and!; [| |apply (du_decided s H)].
  - intros d d' x x' Hx Hx' Hk Hn Hu Hu'. pose proof (du_unsettled s H d x Hx Hu) as H1.
    pose proof (du_unsettled s H d' x' Hx' Hu') as H2. rewrite Hk, Hn in H1. congruence.
  - intros k n q d Hc Hk. destruct (du_calls s H k n q d Hc) as (x & ? & _ & _ & ?). exists x. auto.
Qed.

Ltac no_change := let H := fresh in intros [H|H]; exfalso; apply H; reflexivity.
(** C17: Durable work starts only under the lease: an operation of a checkpoint,
    and a statement for a wait, a signal, a human wait or a child, starts at a
    time when the attempt is not aborted and its lease window is not spent. *)
Theorem durable_work_needs_lease s now e :
  let s' := context_step s (now, e) in
  operations s' <> operations s \/ durableStatements s' <> durableStatements s ->
  aborted (attempt s) = None /\ windowSpent now (attempt s) = false.
Proof.
  destruct e; simpl; intros Hd; try (exfalso; destruct Hd as [Hd|Hd]; by destruct Hd).
  - exfalso. revert Hd. unfold callCheckpoint. repeat case_match; simpl; no_change.
  - exfalso. revert Hd. repeat case_match; simpl; no_change.
  - revert Hd. unfold checkpointResumes. destruct (checkpointRuns s !! r) as [[n fp []]|], (checkpointsLoad s);
      try (simpl; no_change).
    destruct (jsget n m); [simpl; no_change|]. destruct (requireLease now (attempt s)) as [a [reason|]] eqn:E; simpl; [no_change|].
    apply requireLease_inv in E. naive_solver.
  - exfalso. revert Hd. unfold operationEnds. repeat case_match; simpl; no_change.
  - exfalso. revert Hd. unfold saveAnswers. repeat case_match; simpl; no_change.
  - exfalso. revert Hd. unfold checkpointCleanup. repeat case_match; simpl; no_change.
  - revert Hd. unfold callDurable. destruct (jsget _ _); [simpl; no_change|].
    destruct (requireLease now (attempt s)) as [a [reason|]] eqn:E; simpl; [no_change|].
    apply requireLease_inv in E. naive_solver.
  - exfalso. revert Hd. unfold durableAnswers. destruct (durableRuns s !! d) as [[k n rq []]|]; [|no_change..].
    destruct answer as [[|v]|]; simpl; [|no_change..].
    destruct k; try destruct (suspendForScheduledWait _); try destruct (suspend _ _); simpl; no_change.
  - exfalso. revert Hd. unfold durableCleanup. repeat case_match; simpl; no_change.
Qed.

End activation.

(** ** The input of a call that joins *)
Definition stored_checkpoint : @TaskCheckpoint Z := {| cp_value := 7; cp_fingerprint := Some "a"%string |}.
Definition joining_events : list (Z * @context_event Z Z) :=
  map (pair 0) [CallCheckpoint "x" None; CallCheckpoint "x" (Some "b"%string);
    CheckpointsAnswer (Some [("x"%string, stored_checkpoint)]); CheckpointResumes 0].

(** ** A wait of a new activation *)
Definition sample_activation : @Activation Z Z := newActivation (newTaskAttempt 30000 sampleTask (ms 1) 0).
Definition sample_wait : @context_event Z Z := CallDurable WaitKind "nap" 0.
Lemma sample_wait_sent :
  operations (context_step 30000 sample_activation (ms 5, sample_wait)) <> operations sample_activation \/
  durableStatements (context_step 30000 sample_activation (ms 5, sample_wait)) <> durableStatements sample_activation.
Proof. right. vm_compute. discriminate. Qed.
Lemma durable_work_needs_lease_witness :
  aborted (attempt sample_activation) = None /\ windowSpent (ms 5) (attempt sample_activation) = false.
Proof. exact (durable_work_needs_lease 30000 sample_activation (ms 5) sample_wait sample_wait_sent). Defined.
