(* ===== verification/Canonical.v ===== *)
(** * Canonical JSON text and checkpoint fingerprints

    [typescript/core/src/checkpoint-fingerprint.ts] and the comparison helpers
    of [handler-replay.ts]: [JSON.stringify] on JSON values, the reader
    [canonicalText] that rewrites its output with sorted keys, and the input
    fingerprint of a checkpoint.  Text is a list of UTF-16 code units.  The
    reader keeps the text from its index on; its fuel is the length of the
    text, which [readValue_stringify] shows to be enough. *)

From Stdlib Require Import ZifyBool ZifyN DecimalN DecimalPos.
From stdpp Require Import sorting.
From S2P Require Import Prelude.

(** ** Code units *)
Abbreviation ustring := (list N).

Definition units (s : string) : ustring := map Ascii.N_of_ascii (String.list_ascii_of_string s).

Definition is_high (u : N) : bool := ((0xD800 <=? u) && (u <=? 0xDBFF))%N.
Definition is_low (u : N) : bool := ((0xDC00 <=? u) && (u <=? 0xDFFF))%N.
Definition is_surrogate (u : N) : bool := ((0xD800 <=? u) && (u <=? 0xDFFF))%N.

(** The code points of a text: a pair, or one unit. *)
Inductive point : Set := Pair (high low : N) | One (u : N).
Fixpoint points (s : ustring) : list point :=
  match s with
  | u :: (v :: s'') as s' => if is_high u && is_low v then Pair u v :: points s'' else One u :: points s'
  | [u] => [One u]
  | [] => []
  end.
Definition point_units (p : point) : ustring :=
  match p with Pair u v => [u; v] | One u => [u] end.

(** [LONE_SURROGATE.test]: with the u flag a pair does not match. *)
Definition lone_surrogate (s : ustring) : bool :=
  existsb (fun p => match p with One u => is_surrogate u | Pair _ _ => false end) (points s).

(** ** JSON.stringify *)
Definition hexDigit (d : N) : N := (if d <? 10 then 48 + d else 87 + d)%N.
Definition hex4 (u : N) : ustring :=
  [hexDigit (u / 4096); hexDigit ((u / 256) mod 16); hexDigit ((u / 16) mod 16); hexDigit (u mod 16)]%N.

Definition QUOTE : N := 34.
Definition BACKSLASH : N := 92.
Definition escape_unit (u : N) : ustring :=
  (if u =? 34 then [92; 34] else if u =? 92 then [92; 92]
   else if u =? 8 then [92; 98] else if u =? 12 then [92; 102] else if u =? 10 then [92; 110]
   else if u =? 13 then [92; 114] else if u =? 9 then [92; 116]
   else if (u <? 32) || is_surrogate u then 92 :: 117 :: hex4 u else [u])%N.
Definition escape_point (p : point) : ustring :=
  match p with Pair u v => [u; v] | One u => escape_unit u end.
Definition quote_body (s : ustring) : ustring := flat_map escape_point (points s).
Definition quote (s : ustring) : ustring := QUOTE :: quote_body s ++ [QUOTE].

(** What the code uses of JavaScript numbers: the text that [JSON.stringify]
    writes for a finite number, [Number(token)], [String(value)] and the tests
    of the callers.  The laws are those of the number grammar: the text of a
    finite number starts with a digit or a minus sign, holds no delimiter, and
    reads back as a finite number with that text, never as -0. *)
Class JsNumber (num : Type) := {
  number_text : num -> ustring;
  number_read : ustring -> num;
  number_string : num -> ustring;
  number_finite : num -> bool;
  number_above : num -> bool;
  number_negative_zero : num -> bool;
  number_text_head n : number_finite n = true ->
    exists u t, number_text n = u :: t /\ (u = 45 \/ 48 <= u <= 57)%N;
  number_text_units n : number_finite n = true ->
    Forall (fun u => u <> 44 /\ u <> 93 /\ u <> 125)%N (number_text n);
  number_text_read n : number_finite n = true ->
    let n' := number_read (number_text n) in
    number_text n' = number_text n /\ number_finite n' = true /\ number_negative_zero n' = false;
}.

(** [JSON.stringify] of a number: a number that is not finite is null. *)
Definition number_json {num} `{JsNumber num} (n : num) : ustring :=
  if number_finite n then number_text n else units "null".

#[local] Unset Elimination Schemes.
(** A JSON value, its numbers of type [num] and its members in order. *)
Inductive json (num : Type) : Type :=
| JNull
| JBool (b : bool)
| JNum (n : num)
| JStr (s : ustring)
| JArr (items : list (json num))
| JObj (members : list (ustring * json num)).
#[local] Set Elimination Schemes.
Arguments JNull {num}.
Arguments JBool {num} b.
Arguments JNum {num} n.
Arguments JStr {num} s.
Arguments JArr {num} items.
Arguments JObj {num} members.

Section json_induction.
Context {num : Type} (P : json num -> Prop).
Context (HNull : P JNull) (HBool : forall b, P (JBool b)) (HNum : forall n, P (JNum n))
  (HStr : forall s, P (JStr s)) (HArr : forall l, Forall P l -> P (JArr l))
  (HObj : forall l, Forall (fun m => P m.2) l -> P (JObj l)).
Fixpoint json_induction (v : json num) : P v :=
  match v with
  | JNull => HNull | JBool b => HBool b | JNum n => HNum n | JStr s => HStr s
  | JArr l => HArr l ((fix go l : Forall P l := match l with
                        | [] => Forall_nil_2 _ | x :: l => Forall_cons_2 _ _ _ (json_induction x) (go l) end) l)
  | JObj l => HObj l ((fix go l : Forall (fun m => P m.2) l := match l with
                        | [] => Forall_nil_2 _ | x :: l => Forall_cons_2 _ _ _ (json_induction x.2) (go l) end) l)
  end.
End json_induction.

(** [items.join(",")] *)
Fixpoint join (l : list ustring) : ustring :=
  match l with [] => [] | [x] => x | x :: l => x ++ 44%N :: join l end.
Definition bracket (l : list ustring) : ustring := 91%N :: join l ++ [93%N].
Definition brace (l : list ustring) : ustring := 123%N :: join l ++ [125%N].
Definition member_text (m : ustring * ustring) : ustring := quote m.1 ++ 58%N :: m.2.

Section stringify.
Context {num : Type} `{JsNumber num}.
Fixpoint stringify (v : json num) : ustring :=
  match v with
  | JNull => units "null"
  | JBool b => units (if b then "true" else "false")
  | JNum n => number_json n
  | JStr s => quote s
  | JArr items => bracket (map stringify items)
  | JObj members => brace (map (fun m => member_text (m.1, stringify m.2)) members)
  end.
End stringify.

(** ** canonicalText *)

(** [ESCAPED]; a missing key reads as undefined. *)
Definition ESCAPED (u : N) : option N :=
  (if u =? 34 then Some 34 else if u =? 92 then Some 92 else if u =? 47 then Some 47
   else if u =? 98 then Some 8 else if u =? 102 then Some 12 else if u =? 110 then Some 10
   else if u =? 114 then Some 13 else if u =? 116 then Some 9 else None)%N.

Definition hexValue (u : N) : option N :=
  (if (48 <=? u) && (u <=? 57) then Some (u - 48)
   else if (97 <=? u) && (u <=? 102) then Some (u - 87)
   else if (65 <=? u) && (u <=? 70) then Some (u - 55) else None)%N.
(** [String.fromCharCode(Number.parseInt(digits, 16))]: the digits before the
    first other character; no digit gives NaN, which is unit 0. *)
Fixpoint parseHex (acc : N) (digits : ustring) : N :=
  match digits with
  | [] => acc
  | u :: digits => match hexValue u with Some d => parseHex (16 * acc + d) digits | None => acc end
  end.

(** The loop of [readString] after the opening quote: the decoded text and
    the text after the closing quote.  [None] when the text ends before it,
    where the loop of the source does not end. *)
Fixpoint readChars (fuel : nat) (rest decoded : ustring) : option (ustring * ustring) :=
  match fuel, rest with
  | S fuel, u :: rest' =>
      if (u =? QUOTE)%N then Some (decoded, rest')
      else if (u =? BACKSLASH)%N then
        match rest' with
        | e :: after =>
            if (e =? 117)%N then readChars fuel (drop 4 after) (decoded ++ [parseHex 0 (take 4 after)])
            else readChars fuel after
                   (decoded ++ match ESCAPED e with Some v => [v] | None => units "undefined" end)
        | [] => None
        end
      else readChars fuel rest' (decoded ++ [u])
  | _, _ => None
  end.

Definition delimiter (u : N) : bool := ((u =? 44) || (u =? 93) || (u =? 125))%N.
(** The token up to the next delimiter. *)
Fixpoint readToken (rest : ustring) : ustring * ustring :=
  match rest with
  | [] => ([], [])
  | u :: rest' => if delimiter u then ([], rest) else let (t, r) := readToken rest' in (u :: t, r)
  end.

(** The reader over what it builds: [R] is the result of a value, and the four
    builders are the expressions that [readValue] returns.  [None] is out of
    fuel or a text that ends inside a string. *)
Section reader.
Context {R E : Type} (checkString : ustring -> res E ustring).
Context (onArray : list R -> R) (onObject : list (ustring * R) -> R) (onString onToken : ustring -> R).

Definition reads (A : Type) : Type := option (res E (A * ustring)).
Definition read_bind {A B} (m : reads A) (k : A -> ustring -> reads B) : reads B :=
  match m with
  | Some (Ret (a, rest)) => k a rest
  | Some (Throw e) => Some (Throw e)
  | None => None
  end.

Definition readString (rest : ustring) : reads ustring :=
  match readChars (length rest) (tail rest) [] with
  | Some (decoded, rest) => Some (s <- checkString decoded ;; Ret (s, rest))
  | None => None
  end.

Fixpoint readValue (fuel : nat) (rest : ustring) : reads R :=
  match fuel with
  | O => None
  | S fuel =>
      let c := default 0%N (head rest) in
      if (c =? 91)%N then
        if (default 0 (head (tail rest)) =? 93)%N then Some (Ret (onArray [], drop 2 rest))
        else read_bind (readItems fuel (tail rest)) (fun items rest => Some (Ret (onArray items, rest)))
      else if (c =? 123)%N then
        if (default 0 (head (tail rest)) =? 125)%N then Some (Ret (onObject [], drop 2 rest))
        else read_bind (readMembers fuel (tail rest)) (fun members rest => Some (Ret (onObject members, rest)))
      else if (c =? QUOTE)%N then
        read_bind (readString rest) (fun s rest => Some (Ret (onString s, rest)))
      else let (token, rest) := readToken rest in Some (Ret (onToken token, rest))
  end
with readItems (fuel : nat) (rest : ustring) : reads (list R) :=
  match fuel with
  | O => None
  | S fuel =>
      read_bind (readValue fuel rest) (fun item rest =>
        if (default 0 (head rest) =? 44)%N then
          read_bind (readItems fuel (tail rest)) (fun items rest => Some (Ret (item :: items, rest)))
        else Some (Ret ([item], tail rest)))
  end
with readMembers (fuel : nat) (rest : ustring) : reads (list (ustring * R)) :=
  match fuel with
  | O => None
  | S fuel =>
      read_bind (readString rest) (fun key rest =>
        read_bind (readValue fuel (tail rest)) (fun value rest =>
          if (default 0 (head rest) =? 44)%N then
            read_bind (readMembers fuel (tail rest)) (fun members rest =>
              Some (Ret ((key, value) :: members, rest)))
          else Some (Ret ([(key, value)], tail rest))))
  end.
End reader.

(** ** Reading back what JSON.stringify wrote *)
Definition point_ok (p : point) : Prop :=
  match p with Pair u v => is_high u = true /\ is_low v = true | One _ => True end.

Lemma points_units s : flat_map point_units (points s) = s.
Proof.
  induction s as [s IH] using (induction_ltof1 _ (@length N)). unfold ltof in IH.
  destruct s as [|u [|v s]]; [done|done|]. simpl. destruct (is_high u && is_low v); simpl.
  - f_equal. f_equal. apply IH. simpl. lia.
  - f_equal. apply (IH (v :: s)). simpl. lia.
Qed.

Lemma points_ok s : Forall point_ok (points s).
Proof.
  induction s as [s IH] using (induction_ltof1 _ (@length N)). unfold ltof in IH.
  destruct s as [|u [|v s]]; [constructor|by repeat constructor|]. simpl.
  destruct (is_high u && is_low v) eqn:E.
  - apply andb_prop in E. constructor; [done|]. apply IH. simpl. lia.
  - constructor; [done|]. apply (IH (v :: s)). simpl. lia.
Qed.

Lemma hexValue_digit d : (d < 16)%N -> hexValue (hexDigit d) = Some d.
Proof. intros Hd. unfold hexValue, hexDigit. repeat case_match; try f_equal; lia. Qed.

Lemma parseHex_hex4 u : (u < 65536)%N -> parseHex 0 (hex4 u) = u.
Proof.
  intros Hu. unfold hex4. simpl parseHex.
  rewrite !hexValue_digit by
    (solve [apply N.mod_lt; lia | apply N.Div0.div_lt_upper_bound; lia]).
  pose proof (N.Div0.div_mod u 16). pose proof (N.Div0.div_mod (u / 16) 16).
  pose proof (N.Div0.div_mod (u / 256) 16).
  replace (u / 256)%N with (u / 16 / 16)%N in * by (by rewrite N.Div0.div_div).
  replace (u / 4096)%N with (u / 16 / 16 / 16)%N by (by rewrite !N.Div0.div_div). lia.
Qed.

Lemma readChars_escape fuel u tl decoded :
  readChars (S fuel) (escape_unit u ++ tl) decoded = readChars fuel tl (decoded ++ [u]).
Proof.
  unfold escape_unit.
  repeat match goal with |- context [if (u =? ?k)%N then _ else _] =>
    destruct (N.eqb_spec u k) as [->|?]; [done|] end.
  destruct ((u <? 32)%N || is_surrogate u) eqn:E.
  - trans (readChars fuel tl (decoded ++ [parseHex 0 (hex4 u)])); [done|].
    rewrite parseHex_hex4; [done|]. unfold is_surrogate in E. lia.
  - simpl. unfold QUOTE, BACKSLASH. by rewrite (proj2 (N.eqb_neq u 34)), (proj2 (N.eqb_neq u 92)).
Qed.

Lemma readChars_points ps : Forall point_ok ps -> forall fuel tl decoded,
  (length (flat_map escape_point ps) < fuel)%nat ->
  readChars fuel (flat_map escape_point ps ++ QUOTE :: tl) decoded =
    Some (decoded ++ flat_map point_units ps, tl).
Proof.
  induction 1 as [|p ps Hp _ IH]; intros fuel tl decoded Hf; simpl in *.
  - destruct fuel; [lia|]. simpl. by rewrite app_nil_r.
  - rewrite length_app in Hf. rewrite <- app_assoc. destruct p as [u v|u]; simpl in *.
    + destruct Hp as [Hu Hv]. unfold is_high, is_low in Hu, Hv. destruct fuel as [|[|fuel]]; [lia|lia|].
      simpl. unfold QUOTE, BACKSLASH.
      rewrite (proj2 (N.eqb_neq u 34)), (proj2 (N.eqb_neq u 92)), (proj2 (N.eqb_neq v 34)),
        (proj2 (N.eqb_neq v 92)) by lia.
      rewrite IH by lia. by rewrite <- !app_assoc.
    + assert (Hl : (1 <= length (escape_unit u))%nat) by (unfold escape_unit; repeat case_match; simpl; lia).
      destruct fuel as [|fuel]; [lia|]. rewrite readChars_escape, IH by lia. by rewrite <- app_assoc.
Qed.

Lemma readChars_quote fuel s tl :
  (length (quote_body s) < fuel)%nat ->
  readChars fuel (quote_body s ++ QUOTE :: tl) [] = Some (s, tl).
Proof.
  intros Hf. unfold quote_body in *. rewrite readChars_points; [|apply points_ok|done].
  by rewrite points_units.
Qed.

Lemma readString_quote {E} (check : ustring -> res E ustring) s tl :
  readString check (quote s ++ tl) = Some (s' <- check s ;; Ret (s', tl)).
Proof.
  unfold readString, quote. rewrite <- app_comm_cons, <- app_assoc. cbn [tail app].
  rewrite readChars_quote; [done|]. simpl. rewrite length_app. simpl. lia.
Qed.

(** What can follow a value: a delimiter, or the end. *)
Definition follow (rest : ustring) : Prop := rest = [] \/ exists u t, rest = u :: t /\ delimiter u = true.

Lemma readToken_app t rest :
  Forall (fun u => delimiter u = false) t -> follow rest -> readToken (t ++ rest) = (t, rest).
Proof.
  intros Ht Hr. induction Ht as [|u t Hu _ IH]; simpl.
  - destruct Hr as [->|(u & t & -> & Hu)]; simpl; [done|]. by rewrite Hu.
  - by rewrite Hu, IH.
Qed.

Section reader_spec.
Context {num : Type} `{JsNumber num}.
Context {R E : Type} (checkString : ustring -> res E ustring).
Context (onArray : list R -> R) (onObject : list (ustring * R) -> R) (onString onToken : ustring -> R).
#[local] Abbreviation read_value := (readValue checkString onArray onObject onString onToken).
#[local] Abbreviation read_items := (readItems checkString onArray onObject onString onToken).
#[local] Abbreviation read_members := (readMembers checkString onArray onObject onString onToken).

(** The reader as a fold over the value, without a text. *)
Fixpoint rebuild (v : json num) : res E R :=
  match v with
  | JNull => Ret (onToken (units "null"))
  | JBool b => Ret (onToken (units (if b then "true" else "false")))
  | JNum n => Ret (onToken (number_json n))
  | JStr s => s <- checkString s ;; Ret (onString s)
  | JArr items => items <- res_map rebuild items ;; Ret (onArray items)
  | JObj members =>
      members <- res_map (fun m => k <- checkString m.1 ;; r <- rebuild m.2 ;; Ret (k, r)) members ;;
      Ret (onObject members)
  end.
Definition rebuild_member (m : ustring * json num) : res E (ustring * R) :=
  k <- checkString m.1 ;; r <- rebuild m.2 ;; Ret (k, r).
Definition stringify_member (m : ustring * json num) : ustring := member_text (m.1, stringify m.2).

(** Reading [text] gives the value [m] and consumes exactly [text]. *)
Definition reads_as (v : json num) : Prop := forall fuel rest,
  (length (stringify v) <= fuel)%nat -> follow rest ->
  read_value fuel (stringify v ++ rest) = Some (r <- rebuild v ;; Ret (r, rest)).

Lemma number_json_token n :
  (exists u t, number_json n = u :: t /\ (u = 45 \/ 48 <= u <= 57 \/ u = 110)%N) /\
  Forall (fun u => delimiter u = false) (number_json n).
Proof.
  unfold number_json. destruct (number_finite n) eqn:Ef.
  - split. { destruct (number_text_head n Ef) as (u & t & ? & Hu). exists u, t. split; [done|]. lia. }
    eapply Forall_impl; [by apply number_text_units|]. intros w (? & ? & ?). unfold delimiter. lia.
  - split; [exists 110%N, (units "ull"); split; [done|by right; right]|]. by repeat constructor.
Qed.

Lemma stringify_head (v : json num) : exists u t, stringify v = u :: t /\ u <> 93%N /\ u <> 125%N.
Proof.
  destruct v as [|[]|n|s|l|l]; try (by eexists _, _; split_and!; [reflexivity| |]).
  simpl. destruct (number_json_token n) as [(u & t & E' & Hu) _]. exists u, t. split; [done|]. lia.
Qed.

Lemma read_token_value t rest fuel :
  (forall u t', t = u :: t' -> u <> 91 /\ u <> 123 /\ u <> QUOTE)%N -> t <> [] ->
  Forall (fun u => delimiter u = false) t -> follow rest ->
  read_value (S fuel) (t ++ rest) = Some (Ret (onToken t, rest)).
Proof.
  intros Hh Hne Ht Hr. pose proof (readToken_app t rest Ht Hr) as Htok.
  destruct t as [|u t]; [done|]. destruct (Hh u t eq_refl) as (H1 & H2 & H3).
  apply N.eqb_neq in H1, H2, H3.
  trans (let (token, rest') := readToken ((u :: t) ++ rest) in
         Some (Ret (onToken token, rest') : res E (R * ustring))); [|by rewrite Htok].
  cbn -[readToken]. by rewrite H1, H2, H3.
Qed.

Lemma follow_cons u t : delimiter u = true -> follow (u :: t).
Proof. intros Hu. right. by exists u, t. Qed.

Lemma reads_items l : Forall reads_as l -> l <> [] -> forall fuel rest,
  (length (join (map stringify l)) < fuel)%nat ->
  read_items fuel (join (map stringify l) ++ 93%N :: rest) =
    Some (items <- res_map rebuild l ;; Ret (items, rest)).
Proof.
  induction 1 as [|x l Hx Hl IH]; [done|]. intros _ fuel rest Hf.
  destruct fuel as [|fuel]; [lia|]. destruct l as [|y l].
  - cbn [join map] in *. cbn [readItems]. rewrite Hx by (first [lia | by apply follow_cons]).
    simpl. by destruct (rebuild x).
  - cbn [join map] in *. rewrite length_app in Hf. cbn [length] in Hf.
    rewrite <- app_assoc, <- app_comm_cons. cbn [readItems].
    rewrite Hx by (first [lia | by apply follow_cons]). cbn [res_map]. destruct (rebuild x); [|done].
    cbn -[join res_map]. rewrite IH by (first [done | simpl in *; lia]).
    cbn [res_map]. destruct (rebuild y), (res_map rebuild l); done.
Qed.

Lemma reads_members l : Forall (fun m => reads_as m.2) l -> l <> [] -> forall fuel rest,
  (length (join (map stringify_member l)) < fuel)%nat ->
  read_members fuel (join (map stringify_member l) ++ 125%N :: rest) =
    Some (members <- res_map rebuild_member l ;; Ret (members, rest)).
Proof.
  induction 1 as [|[k x] l Hx Hl IH]; [done|]. intros _ fuel rest Hf.
  destruct fuel as [|fuel]; [lia|]. simpl in Hx.
  assert (Hone : forall fuel rest, (length (stringify x) <= fuel)%nat -> follow rest ->
    read_value fuel (tail (58%N :: stringify x ++ rest)) = Some (r <- rebuild x ;; Ret (r, rest))) by done.
  destruct l as [|y l].
  - cbn [join map] in *. unfold stringify_member, member_text in *. simpl fst in *. simpl snd in *.
    rewrite length_app in Hf. cbn [length] in Hf. cbn [readMembers].
    rewrite <- app_assoc, <- app_comm_cons, readString_quote. unfold rebuild_member. cbn [res_map fst snd].
    destruct (checkString k); [|done]. cbn [read_bind res_bind].
    rewrite Hone by (first [lia | by apply follow_cons]). by destruct (rebuild x).
  - cbn [join map] in *. rewrite !length_app in Hf. cbn [length] in Hf.
    unfold stringify_member at 1, member_text at 1. unfold stringify_member at 1, member_text at 1 in Hf.
    simpl fst in *. simpl snd in *. rewrite length_app in Hf. cbn [length] in Hf.
    rewrite <- !app_assoc, <- !app_comm_cons. cbn [readMembers].
    rewrite readString_quote. cbn [res_map]. unfold rebuild_member at 1. simpl fst. simpl snd.
    destruct (checkString k); [|done]. cbn [read_bind res_bind].
    rewrite Hone by (first [lia | by apply follow_cons]).
    destruct (rebuild x); [|done]. cbn -[join res_map].
    rewrite IH by (first [done | simpl in *; lia]). 
    cbn [res_map]. destruct (rebuild_member y), (res_map rebuild_member l); done.
Qed.

Lemma join_head (l : list ustring) x (P : N -> Prop) :
  (exists u t, x = u :: t /\ P u) -> exists u t, join (x :: l) = u :: t /\ P u.
Proof. intros (u & t & -> & Hu). destruct l; [by exists u, t|]. by exists u, (t ++ 44%N :: join (l :: l0)). Qed.

Lemma read_value_array fuel u t : u <> 93%N ->
  read_value (S fuel) (91%N :: u :: t) =
    read_bind (read_items fuel (u :: t)) (fun items rest => Some (Ret (onArray items, rest))).
Proof. intros Hu%N.eqb_neq. simpl. by rewrite Hu. Qed.

Lemma read_value_object fuel u t : u <> 125%N ->
  read_value (S fuel) (123%N :: u :: t) =
    read_bind (read_members fuel (u :: t)) (fun members rest => Some (Ret (onObject members, rest))).
Proof. intros Hu%N.eqb_neq. simpl. by rewrite Hu. Qed.

Lemma reads_array l : Forall reads_as l -> reads_as (JArr l).
Proof.
  intros Hl fuel rest Hf Hr. destruct fuel as [|fuel]; [simpl in Hf; lia|].
  destruct l as [|x l]; [done|]. cbn -[bracket] in Hf. unfold bracket in Hf. cbn [length] in Hf.
  rewrite length_app in Hf. cbn [length] in Hf.
  destruct (join_head (map stringify l) (stringify x) (fun u => u <> 93%N)) as (u & t & Eh & Hu).
  { destruct (stringify_head x) as (u & t & ? & ? & _). by exists u, t. }
  pose proof (reads_items (x :: l) Hl ltac:(done) fuel rest ltac:(cbn [map]; lia)) as Hi.
  cbn [map] in Hi. cbn [stringify map rebuild]. unfold bracket.
  rewrite <- app_comm_cons, <- app_assoc. rewrite Eh in *. rewrite <- app_comm_cons in *.
  rewrite read_value_array by done. cbn [app]. rewrite Hi. by destruct (res_map rebuild (x :: l)).
Qed.

Lemma reads_object l : Forall (fun m => reads_as m.2) l -> reads_as (JObj l).
Proof.
  intros Hl fuel rest Hf Hr. destruct fuel as [|fuel]; [simpl in Hf; lia|].
  destruct l as [|x l]; [done|].
  change (stringify (JObj (x :: l))) with (brace (map stringify_member (x :: l))) in *.
  unfold brace in Hf. cbn [length] in Hf. rewrite length_app in Hf. cbn [length] in Hf.
  destruct (join_head (map stringify_member l) (stringify_member x) (fun u => u <> 125%N))
    as (u & t & Eh & Hu). { by eexists _, _. }
  pose proof (reads_members (x :: l) Hl ltac:(done) fuel rest ltac:(cbn [map] in *; lia)) as Hi.
  cbn [map] in Hi. cbn [map]. unfold brace.
  rewrite <- app_comm_cons, <- app_assoc. rewrite Eh in *. rewrite <- app_comm_cons in *. cbn [rebuild].
  change (res_map _ (x :: l)) with (res_map rebuild_member (x :: l)).
  rewrite read_value_object by done. cbn [app]. rewrite Hi. by destruct (res_map rebuild_member (x :: l)).
Qed.

(** Reading the text of a value is the fold over the value, and consumes
    exactly that text. *)
Lemma readValue_stringify v : reads_as v.
Proof.
  induction v as [|b|n|s|l IH|l IH] using json_induction.
  - intros fuel rest Hf Hr. destruct fuel; [simpl in Hf; lia|].
    apply read_token_value; [by intros ?? [= <- _]|done| |done]. by repeat constructor.
  - intros fuel rest Hf Hr. destruct fuel; [destruct b; simpl in Hf; lia|].
    apply read_token_value; [by destruct b; intros ?? [= <- _]|by destruct b| |done].
    by destruct b; repeat constructor.
  - intros fuel rest Hf Hr. destruct (number_json_token n) as [(u & t & E' & Hu) Ht].
    destruct fuel; [simpl in Hf; rewrite E' in Hf; simpl in Hf; lia|].
    apply read_token_value; [|simpl; by rewrite E'|done|done].
    intros u' t' [= Et]%(eq_trans (eq_sym E')). unfold QUOTE. lia.
  - intros fuel rest Hf Hr. destruct fuel; [simpl in Hf; lia|].
    trans (read_bind (readString checkString (quote s ++ rest))
      (fun s rest => Some (Ret (onString s, rest) : res E (R * ustring)))); [done|].
    rewrite readString_quote. simpl. by destruct (checkString s).
  - by apply reads_array.
  - by apply reads_object.
Qed.
End reader_spec.

(** ** Sorted members *)

(** [left < right] on strings: the first code unit that differs decides. *)
Fixpoint units_lt (a b : ustring) : bool :=
  match a, b with
  | _, [] => false
  | [], _ :: _ => true
  | x :: a, y :: b => ((x <? y) || ((x =? y) && units_lt a b))%N
  end.

Section sorting.
Context {V : Type}.
Implicit Types l : list (ustring * V).

Fixpoint insert_member (m : ustring * V) l : list (ustring * V) :=
  match l with
  | [] => [m]
  | x :: l => if units_lt m.1 x.1 then m :: x :: l else x :: insert_member m l
  end.
(** [members.sort]: the keys of an object are distinct, so the order is the
    only sorted one. *)
Definition sort_members l : list (ustring * V) := foldr insert_member [] l.

Definition before (m m' : ustring * V) : Prop := units_lt m.1 m'.1 = true.

Lemma units_lt_irrefl a : units_lt a a = false.
Proof. induction a as [|x a IH]; simpl; [done|]. rewrite IH. lia. Qed.

Lemma units_lt_trans a : forall b c, units_lt a b = true -> units_lt b c = true -> units_lt a c = true.
Proof.
  induction a as [|x a IH]; intros [|y b] [|z c]; simpl; try done.
  intros Hab Hbc. destruct (units_lt a b) eqn:E1, (units_lt b c) eqn:E2; try lia.
  rewrite (IH b c) by done. lia.
Qed.

Lemma units_lt_total a : forall b, a <> b -> units_lt a b = false -> units_lt b a = true.
Proof.
  induction a as [|x a IH]; intros [|y b]; simpl; try done.
  intros Hne Hlt. destruct (N.eqb_spec x y) as [->|Hxy]; [|lia].
  rewrite (IH b); [lia| |lia]. intros ->. done.
Qed.

Lemma insert_member_perm m l : insert_member m l ≡ₚ m :: l.
Proof.
  induction l as [|x l IH]; simpl; [done|]. destruct (units_lt m.1 x.1); [done|].
  rewrite IH. apply Permutation_swap.
Qed.

Lemma sort_members_perm l : sort_members l ≡ₚ l.
Proof. induction l as [|m l IH]; simpl; [done|]. by rewrite insert_member_perm, IH. Qed.

Lemma insert_member_sorted m l :
  m.1 ∉ l.*1 -> StronglySorted before l -> StronglySorted before (insert_member m l).
Proof.
  intros Hm Hl. induction Hl as [|x l Hl IH Hx]; simpl; [by repeat constructor|].
  rewrite fmap_cons, not_elem_of_cons in Hm. destruct Hm as [Hm1 Hm2].
  destruct (units_lt m.1 x.1) eqn:E.
  - constructor; [by constructor|]. constructor; [done|].
    eapply Forall_impl; [exact Hx|]. intros y Hy. by eapply units_lt_trans.
  - constructor; [by apply IH|]. rewrite insert_member_perm. constructor; [|done].
    by apply units_lt_total.
Qed.

Lemma sort_members_sorted l : NoDup l.*1 -> StronglySorted before (sort_members l).
Proof.
  induction l as [|m l IH]; simpl; [constructor|]. intros [Hm Hl]%NoDup_cons.
  apply insert_member_sorted; [|auto]. by rewrite sort_members_perm.
Qed.

(** Any two orders of the same members sort to one list. *)
Lemma sort_members_proper l l' : NoDup l.*1 -> l ≡ₚ l' -> sort_members l = sort_members l'.
Proof.
  intros Hn Hp. apply (StronglySorted_unique_strong before).
  - intros x y _ _ Hxy Hyx. exfalso. unfold before in *.
    pose proof (units_lt_trans _ _ _ Hxy Hyx) as Hxx. by rewrite units_lt_irrefl in Hxx.
  - by apply sort_members_sorted.
  - apply sort_members_sorted. by rewrite <- Hp.
  - by rewrite !sort_members_perm.
Qed.
End sorting.

Lemma sort_members_map {V W} (f : V -> W) (l : list (ustring * V)) :
  sort_members (map (prod_map id f) l) = map (prod_map id f) (sort_members l).
Proof.
  assert (Hi : forall m l, insert_member (prod_map id f m) (map (prod_map id f) l) =
                           map (prod_map id f) (insert_member m l)).
  { intros m. induction l0 as [|x l0 IH]; simpl; [done|].
    destruct (units_lt (id m.1) (id x.1)) eqn:E; unfold id in *; rewrite E; simpl; by rewrite ?IH. }
  induction l as [|m l IH]; simpl; [done|]. by rewrite IH, Hi.
Qed.

(** ** canonicalText, fingerprints and comparison *)
Section canonical.
Context {num : Type} `{JsNumber num}.

Definition is_literal (token : ustring) : bool :=
  bool_decide (token = units "true") || bool_decide (token = units "false") ||
  bool_decide (token = units "null").

Section text.
Context {E : Type} (checkString : ustring -> res E ustring) (writeNumber : num -> ustring).
Definition write_token (token : ustring) : ustring :=
  if is_literal token then token else writeNumber (number_read token).
Definition write_object (members : list (ustring * ustring)) : ustring :=
  brace (map member_text (sort_members members)).
Definition canonicalText (text : ustring) : option (res E ustring) :=
  match readValue checkString bracket write_object quote write_token (length text) text with
  | Some (Ret (out, _)) => Some (Ret out)
  | Some (Throw e) => Some (Throw e)
  | None => None
  end.
End text.

Inductive fingerprint_error : Set := NotFinite | AboveSafeInteger | NotSerializable | LoneSurrogate.

Definition wellFormed (text : ustring) : res fingerprint_error ustring :=
  if lone_surrogate text then Throw LoneSurrogate else Ret text.

(** The replacer of [JSON.stringify] sees every number, in document order. *)
Definition checkNumber (n : num) : res fingerprint_error unit :=
  throw_if (negb (number_finite n)) NotFinite ;;;
  throw_if (number_above n) AboveSafeInteger.
Fixpoint checkNumbers (v : json num) : res fingerprint_error unit :=
  match v with
  | JNum n => checkNumber n
  | JArr items => _ <- res_map checkNumbers items ;; Ret tt
  | JObj members => _ <- res_map (fun m => checkNumbers m.2) members ;; Ret tt
  | _ => Ret tt
  end.

(** [None] is an input that [JSON.stringify] leaves out, such as undefined. *)
Definition canonicalJson (input : option (json num)) : option (res fingerprint_error ustring) :=
  match input with
  | None => Some (Throw NotSerializable)
  | Some v => match checkNumbers v with
              | Throw e => Some (Throw e)
              | Ret _ => canonicalText wellFormed number_json (stringify v)
              end
  end.

Definition checkpointInputFingerprint {digest : Type} (sha256 : ustring -> digest)
    (input : option (json num)) : option (res fingerprint_error digest) :=
  match canonicalJson input with
  | Some (Ret text) => Some (Ret (sha256 text))
  | Some (Throw e) => Some (Throw e)
  | None => None
  end.

(** [handler-replay.ts]: the text that two replayed values are compared by. *)
Definition replayedNumber (n : num) : ustring :=
  if number_negative_zero n then units "-0"
  else if number_finite n then number_json n else number_string n.
Definition toJson (v : option (json num)) : option (res fingerprint_error ustring) :=
  match v with
  | None => Some (Throw NotSerializable)
  | Some v => canonicalText (fun s => Ret s) replayedNumber (stringify v)
  end.
Definition sameJson (left right : json num) : option bool :=
  match toJson (Some left), toJson (Some right) with
  | Some (Ret a), Some (Ret b) => Some (bool_decide (a = b))
  | _, _ => None
  end.

(** ** The canonical value *)
Fixpoint sortJson (v : json num) : json num :=
  match v with
  | JArr items => JArr (map sortJson items)
  | JObj members => JObj (sort_members (map (fun m => (m.1, sortJson m.2)) members))
  | v => v
  end.
Definition canon (v : json num) : ustring := stringify (sortJson v).

Definition strings_of (v : json num) : list ustring :=
  (fix go v := match v with
    | JStr s => [s]
    | JArr items => flat_map go items
    | JObj members => flat_map (fun m => m.1 :: go m.2) members
    | _ => []
    end) v.
Definition numbers_of (v : json num) : list num :=
  (fix go v := match v with
    | JNum n => [n]
    | JArr items => flat_map go items
    | JObj members => flat_map (fun m => go m.2) members
    | _ => []
    end) v.

(** A JSON value: the keys of each object are distinct, as in a JavaScript
    object, and its numbers are finite. *)
Fixpoint json_ok (v : json num) : bool :=
  match v with
  | JNum n => number_finite n
  | JArr items => forallb json_ok items
  | JObj members => bool_decide (NoDup (map fst members)) && forallb (fun m => json_ok m.2) members
  | _ => true
  end.

#[local] Unset Elimination Schemes.
(** Equal as JSON: equal up to the order of the members of each object. *)
Inductive json_equiv : json num -> json num -> Prop :=
| equiv_null : json_equiv JNull JNull
| equiv_bool b : json_equiv (JBool b) (JBool b)
| equiv_num n m : number_json n = number_json m -> json_equiv (JNum n) (JNum m)
| equiv_str s : json_equiv (JStr s) (JStr s)
| equiv_arr l l' : Forall2 json_equiv l l' -> json_equiv (JArr l) (JArr l')
| equiv_obj l l' l'' : l ≡ₚ l' ->
    Forall2 (fun m m' => m.1 = m'.1 /\ json_equiv m.2 m'.2) l' l'' -> json_equiv (JObj l) (JObj l'').
#[local] Set Elimination Schemes.

Lemma canon_object l :
  canon (JObj l) = write_object (map (fun m => (m.1, canon m.2)) l).
Proof.
  unfold canon at 1, write_object. cbn [sortJson stringify]. f_equal.
  trans (map member_text (map (prod_map id stringify)
    (sort_members (map (fun m => (m.1, sortJson m.2)) l)))); [by rewrite map_map|].
  by rewrite <- sort_members_map, map_map.
Qed.

Lemma number_token_plain n : number_finite n = true -> is_literal (number_text n) = false.
Proof.
  intros Hn. destruct (number_text_head n Hn) as (u & t & Et & Hu). unfold is_literal.
  rewrite Et. rewrite !bool_decide_eq_false_2; [done| | |]; intros [= Hc _]; vm_compute in Hc; lia.
Qed.

Section rebuild_text.
Context {E : Type} (check : ustring -> res E ustring) (write : num -> ustring).
Context (bad : ustring -> bool) (e : E).
Context (Hcheck : forall s, check s = if bad s then Throw e else Ret s).
Context (Hwrite : forall n, number_finite n = true -> write (number_read (number_text n)) = number_text n).

Lemma write_token_number n : write_token write (number_json n) = number_json n.
Proof using Hwrite.
  unfold number_json. destruct (number_finite n) eqn:Ef; [|done].
  unfold write_token. rewrite number_token_plain by done. auto.
Qed.

Lemma rebuild_text v :
  rebuild check bracket write_object quote (write_token write) v =
    if existsb bad (strings_of v) then Throw e else Ret (canon v).
Proof using Hcheck Hwrite.
  induction v as [|b|n|s|l IH|l IH] using json_induction; cbn [rebuild].
  - done.
  - by destruct b.
  - by rewrite write_token_number.
  - rewrite Hcheck. simpl. by destruct (bad s).
  - rewrite (res_map_test _ canon (fun x => existsb bad (strings_of x)) e) by done.
    change (strings_of (JArr l)) with (flat_map strings_of l). rewrite existsb_flat_map.
    destruct (existsb _ l); [done|]. unfold canon at 2. simpl. by rewrite map_map.
  - rewrite (res_map_test _ (fun m => (m.1, canon m.2))
      (fun m => existsb bad (m.1 :: strings_of m.2)) e).
    + change (strings_of (JObj l)) with (flat_map (fun m => m.1 :: strings_of m.2) l).
      rewrite existsb_flat_map. rewrite canon_object.
      by destruct (existsb (fun m => existsb bad (m.1 :: strings_of m.2)) l).
    + eapply Forall_impl; [exact IH|]. intros [k x] Hx. simpl in *. rewrite Hcheck, Hx.
      destruct (bad k); simpl; [done|]. by destruct (existsb bad (strings_of x)).
Qed.

Lemma canonicalText_stringify v :
  canonicalText check write (stringify v) =
    Some (if existsb bad (strings_of v) then Throw e else Ret (canon v)).
Proof using Hcheck Hwrite.
  unfold canonicalText. rewrite <- (app_nil_r (stringify v)) at 2.
  rewrite readValue_stringify; [|done|by left]. rewrite rebuild_text.
  by destruct (existsb bad (strings_of v)).
Qed.
End rebuild_text.

(** ** Equal texts are equal values *)
Definition read_token (t : ustring) : json num :=
  if bool_decide (t = units "null") then JNull
  else if bool_decide (t = units "true") then JBool true
  else if bool_decide (t = units "false") then JBool false
  else JNum (number_read t).
Fixpoint readback (v : json num) : json num :=
  match v with
  | JNum n => read_token (number_json n)
  | JArr items => JArr (map readback items)
  | JObj members => JObj (map (fun m => (m.1, readback m.2)) members)
  | v => v
  end.

Lemma rebuild_value v :
  rebuild (fun s => Ret s : res fingerprint_error ustring) JArr JObj JStr read_token v = Ret (readback v).
Proof.
  induction v as [|b|n|s|l IH|l IH] using json_induction; cbn [rebuild readback]; try done.
  - by destruct b.
  - by rewrite (res_map_Ret _ readback).
  - rewrite (res_map_Ret _ (fun m => (m.1, readback m.2))); [done|].
    eapply Forall_impl; [exact IH|]. intros m Hm. simpl in *. by rewrite Hm.
Qed.

(** The text of a value determines the value, up to how a number reads. *)
Lemma stringify_readback v w : stringify v = stringify w -> readback v = readback w.
Proof.
  assert (Hr : forall x, readValue (fun s => Ret s : res fingerprint_error ustring) JArr JObj JStr read_token
    (length (stringify x)) (stringify x) = Some (Ret (readback x, []))).
  { intros x. rewrite <- (app_nil_r (stringify x)) at 2.
    rewrite readValue_stringify; [|done|by left]. by rewrite rebuild_value. }
  intros Ht. pose proof (Hr v) as Hv. rewrite Ht, Hr in Hv. by injection Hv.
Qed.

Definition norm (v : json num) : json num := readback (sortJson v).

Lemma norm_object l : norm (JObj l) = JObj (sort_members (map (fun m => (m.1, norm m.2)) l)).
Proof.
  unfold norm. cbn [sortJson readback]. f_equal.
  trans (map (prod_map id readback) (sort_members (map (fun m => (m.1, sortJson m.2)) l))); [done|].
  by rewrite <- sort_members_map, map_map.
Qed.

Lemma norm_array l : norm (JArr l) = JArr (map norm l).
Proof. unfold norm. cbn [sortJson readback]. by rewrite map_map. Qed.

Lemma norm_number n : number_finite n = true -> norm (JNum n) = JNum (number_read (number_text n)).
Proof.
  intros Hn. pose proof (number_token_plain n Hn) as Hp. unfold norm, is_literal in *.
  cbn [sortJson readback]. unfold number_json, read_token. rewrite Hn.
  by repeat case_bool_decide.
Qed.

Lemma json_ok_object l : json_ok (JObj l) = true -> NoDup l.*1 /\ Forall (fun m => json_ok m.2 = true) l.
Proof.
  cbn [json_ok]. intros [H1%bool_decide_eq_true H2]%andb_prop. split; [done|].
  by apply forallb_Forall.
Qed.

Lemma norm_members_equiv (l l' : list (ustring * json num)) :
  Forall (fun m => forall w, json_ok m.2 = true -> json_ok w = true -> norm m.2 = norm w -> json_equiv m.2 w) l ->
  Forall (fun m => json_ok m.2 = true) l -> Forall (fun m => json_ok m.2 = true) l' ->
  map (fun m => (m.1, norm m.2)) l = map (fun m => (m.1, norm m.2)) l' ->
  Forall2 (fun m m' => m.1 = m'.1 /\ json_equiv m.2 m'.2) l l'.
Proof.
  intros H1 H2 H3. revert l' H3. induction l as [|m l IH]; intros [|m' l'] H3; simpl; try done.
  apply Forall_cons in H1 as [Hm H1], H2 as [Ho H2], H3 as [Ho' H3]. intros [= Hk Hn Ht].
  constructor; [by auto|]. by apply IH.
Qed.

Lemma norm_equiv v : forall w, json_ok v = true -> json_ok w = true -> norm v = norm w -> json_equiv v w.
Proof.
  induction v as [|b|n|s|l IH|l IH] using json_induction; intros w Hv Hw Hn;
    (destruct w as [|b'|m|s'|l'|l'];
     rewrite ?norm_object, ?norm_array, ?(norm_number n) in Hn by done;
     rewrite ?(norm_number m) in Hn by done; try done).
  - constructor.
  - injection Hn as ->. constructor.
  - constructor. injection Hn as Hn. cbn [json_ok] in *. unfold number_json. rewrite Hv, Hw.
    destruct (number_text_read n Hv) as [<- _], (number_text_read m Hw) as [<- _]. by rewrite Hn.
  - injection Hn as ->. constructor.
  - constructor. injection Hn as Hn. cbn [json_ok] in *.
    assert (Hl : Forall (fun x => json_ok x = true) l) by (by apply forallb_Forall).
    assert (Hl' : Forall (fun x => json_ok x = true) l') by (by apply forallb_Forall).
    clear Hv Hw. revert l' Hl' Hn. induction l as [|x l IHl]; intros [|y l'] Hl' Hn; try done.
    apply Forall_cons in IH as [Hx IH], Hl as [Hox Hl], Hl' as [Hoy Hl']. injection Hn as Hxy Hn.
    constructor; auto.
  - apply json_ok_object in Hv as [_ Hv], Hw as [_ Hw]. injection Hn as Hn.
    assert (Hp : map (fun m => (m.1, norm m.2)) l' ≡ₚ map (fun m => (m.1, norm m.2)) l).
    { by rewrite <- (sort_members_perm (map _ l')), <- Hn, sort_members_perm. }
    apply Permutation_map_inv in Hp as (l1 & Hl1 & Hp).
    apply (equiv_obj _ l1); [done|].
    rewrite Hp in IH, Hv. by apply norm_members_equiv.
Qed.

Lemma equiv_canon v : forall w, json_ok v = true -> json_equiv v w -> canon v = canon w.
Proof.
  induction v as [|b|n|s|l IH|l IH] using json_induction; intros w Hv He;
    inversion He as [| |? m Hnm| |? l' Hl|? l' l'' Hp Hl]; subst; try done.
  - unfold canon. simpl. f_equal. rewrite !map_map. change (map canon l = map canon l').
    cbn [json_ok] in Hv. assert (Hok : Forall (fun x => json_ok x = true) l).
    { by apply forallb_Forall. }
    clear He Hv. induction Hl as [|x y l l' Hxy Hl IHl]; [done|].
    apply Forall_cons in IH as [Hx IH], Hok as [Hox Hok]. simpl. f_equal; auto.
  - apply json_ok_object in Hv as [Hn Hok]. rewrite !canon_object. unfold write_object. do 2 f_equal.
    rewrite Hp in IH, Hok. trans (sort_members (map (fun m => (m.1, canon m.2)) l')).
    + apply sort_members_proper; [|by rewrite Hp]. by rewrite <- list_fmap_compose.
    + f_equal. clear He Hp Hn. induction Hl as [|m m' l' l'' [Hk Hm] Hl IHl]; [done|].
      apply Forall_cons in IH as [Hx IH], Hok as [Hox Hok]. simpl. rewrite Hk, (Hx m'.2), IHl by done. done.
Qed.
End canonical.

Lemma number_json_reads {num} `{JsNumber num} (n : num) :
  number_finite n = true -> number_json (number_read (number_text n)) = number_text n.
Proof. intros (Ht & Hf & _)%number_text_read. unfold number_json. by rewrite Hf. Qed.


Lemma toJson_canon {num} `{JsNumber num} (v : json num) : toJson (Some v) = Some (Ret (canon v)).
Proof.
  unfold toJson. rewrite (canonicalText_stringify _ _ (fun _ => false) NotSerializable); [|done|].
  - by replace (existsb (fun _ => false) (strings_of v)) with false by (by induction (strings_of v)).
  - intros n Hn. destruct (number_text_read n Hn) as (Ht & Hf & Hz).
    unfold replayedNumber, number_json. by rewrite Hz, Hf.
Qed.

Lemma canon_equiv {num} `{JsNumber num} (v w : json num) :
  json_ok v = true -> json_ok w = true -> canon v = canon w <-> json_equiv v w.
Proof.
  intros Hv Hw. split; [|by apply equiv_canon]. intros Hc. apply norm_equiv; [done|done|].
  by apply stringify_readback.
Qed.

(** The replay compares two JSON values by their canonical texts, and the
    comparison is exact: it answers for every two values, and answers yes
    exactly when they are equal up to the order of the keys of each object. *)
Theorem same_json_decides {num} `{JsNumber num} (v w : json num)
    (Hv : json_ok v = true) (Hw : json_ok w = true) :
  exists b, sameJson v w = Some b /\ (b = true <-> json_equiv v w).
Proof.
  unfold sameJson. rewrite !toJson_canon. eexists. split; [done|].
  by rewrite bool_decide_eq_true, canon_equiv.
Qed.

(** ** Fingerprints *)
Definition number_ok {num} `{JsNumber num} (n : num) : bool := number_finite n && negb (number_above n).
Definition fingerprintable {num} `{JsNumber num} (v : json num) : bool :=
  forallb number_ok (numbers_of v) && forallb (fun s => negb (lone_surrogate s)) (strings_of v).

Lemma checkNumbers_spec {num} `{JsNumber num} (v : json num) :
  is_ret (checkNumbers v) = forallb number_ok (numbers_of v).
Proof.
  assert (Hm : forall {A} (f : A -> res fingerprint_error unit) (g : A -> list num) l,
    Forall (fun x => is_ret (f x) = forallb number_ok (g x)) l ->
    is_ret (_ <- res_map f l ;; Ret tt) = forallb number_ok (flat_map g l)).
  { intros A f g l. induction 1 as [|x l Hx _ IH]; simpl; [done|]. rewrite forallb_app, <- Hx, <- IH.
    destruct (f x); simpl; [|done]. by destruct (res_map f l). }
  induction v as [|b|n|s|l IH|l IH] using json_induction; try done.
  - simpl. unfold checkNumber, number_ok. destruct (number_finite n), (number_above n); done.
  - by apply (Hm _ checkNumbers numbers_of).
  - by apply (Hm _ (fun m => checkNumbers m.2) (fun m => numbers_of m.2)).
Qed.

Lemma canonicalJson_spec {num} `{JsNumber num} (v : json num) :
  exists r, canonicalJson (Some v) = Some r /\ is_ret r = fingerprintable v /\
    (forall t, r = Ret t -> t = canon v).
Proof.
  unfold canonicalJson, fingerprintable. rewrite <- checkNumbers_spec.
  destruct (checkNumbers v) as [[]|e]; [|by eexists].
  rewrite (canonicalText_stringify wellFormed number_json lone_surrogate LoneSurrogate)
    by (done || apply number_json_reads).
  eexists. split; [done|]. rewrite forallb_negb.
  destruct (existsb lone_surrogate (strings_of v)); split; try done. by intros t [= <-].
Qed.

(** Two accepted inputs have one canonical text exactly when they are equal
    up to the order of the keys of each object, so the fingerprint of an input
    does not depend on that order. *)
Theorem fingerprint_ignores_key_order {num digest} `{JsNumber num} (sha256 : ustring -> digest)
    (v w : json num) (Hv : json_ok v = true) (Hw : json_ok w = true)
    (Hfv : fingerprintable v = true) (Hfw : fingerprintable w = true) :
  (json_equiv v w <-> canonicalJson (Some v) = canonicalJson (Some w)) /\
  (json_equiv v w ->
   checkpointInputFingerprint sha256 (Some v) = Some (Ret (sha256 (canon v))) /\
   checkpointInputFingerprint sha256 (Some w) = Some (Ret (sha256 (canon v)))).
Proof.
  assert (Hc : forall x : json num, fingerprintable x = true -> canonicalJson (Some x) = Some (Ret (canon x))).
  { intros x Hx. destruct (canonicalJson_spec x) as ([t|e] & -> & Hr & Ht); rewrite Hx in Hr; [|done].
    by rewrite (Ht t eq_refl). }
  rewrite <- canon_equiv by done. unfold checkpointInputFingerprint. rewrite !Hc by done. split.
  - split; [by intros ->|]. by intros [= ?].
  - intros ->. done.
Qed.

(** ** Integers as JavaScript numbers

    The integers of magnitude below 10^21, which JavaScript prints in decimal,
    satisfy the laws. *)
Fixpoint uint_text (d : Decimal.uint) : ustring :=
  match d with
  | Decimal.Nil => []
  | Decimal.D0 d => 48%N :: uint_text d | Decimal.D1 d => 49%N :: uint_text d
  | Decimal.D2 d => 50%N :: uint_text d | Decimal.D3 d => 51%N :: uint_text d
  | Decimal.D4 d => 52%N :: uint_text d | Decimal.D5 d => 53%N :: uint_text d
  | Decimal.D6 d => 54%N :: uint_text d | Decimal.D7 d => 55%N :: uint_text d
  | Decimal.D8 d => 56%N :: uint_text d | Decimal.D9 d => 57%N :: uint_text d
  end.
Definition digit_of (u : N) (d : Decimal.uint) : Decimal.uint :=
  (if u =? 48 then Decimal.D0 d else if u =? 49 then Decimal.D1 d else if u =? 50 then Decimal.D2 d
   else if u =? 51 then Decimal.D3 d else if u =? 52 then Decimal.D4 d else if u =? 53 then Decimal.D5 d
   else if u =? 54 then Decimal.D6 d else if u =? 55 then Decimal.D7 d else if u =? 56 then Decimal.D8 d
   else Decimal.D9 d)%N.
Definition text_uint (t : ustring) : Decimal.uint := foldr digit_of Decimal.Nil t.

Lemma text_uint_text d : text_uint (uint_text d) = d.
Proof. induction d as [|d IH|d IH|d IH|d IH|d IH|d IH|d IH|d IH|d IH|d IH]; simpl; by rewrite ?IH. Qed.

Lemma uint_text_units d : Forall (fun u => 48 <= u <= 57)%N (uint_text d).
Proof. induction d; simpl; constructor; done || lia. Qed.

Definition integer_text (z : Z) : ustring :=
  (if z <? 0 then [45%N] else []) ++ uint_text (N.to_uint (Z.abs_N z)).
Definition integer_read (t : ustring) : Z :=
  match t with
  | u :: t' => if (u =? 45)%N then - Z.of_N (N.of_uint (text_uint t')) else Z.of_N (N.of_uint (text_uint t))
  | [] => 0
  end.

Lemma uint_text_head n : exists u t, uint_text (N.to_uint n) = u :: t /\ (48 <= u <= 57)%N.
Proof.
  pose proof (uint_text_units (N.to_uint n)) as Hu.
  destruct (uint_text (N.to_uint n)) as [|u t] eqn:Et.
  - exfalso. assert (Hnil : N.to_uint n = Decimal.Nil) by (by rewrite <- (text_uint_text (N.to_uint n)), Et).
    destruct n as [|p]; [done|]. by apply (DecimalPos.Unsigned.to_uint_nonnil p).
  - exists u, t. split; [done|]. by apply Forall_cons in Hu as [? _].
Qed.

Lemma integer_read_text z : integer_read (integer_text z) = z.
Proof.
  unfold integer_text. destruct (Z.ltb_spec z 0).
  - simpl. rewrite text_uint_text, DecimalN.Unsigned.of_to. lia.
  - cbn [app]. pose proof (text_uint_text (N.to_uint (Z.abs_N z))) as Ht.
    destruct (uint_text_head (Z.abs_N z)) as (u & t & Et & Hu). rewrite Et in *. cbn [integer_read].
    rewrite (proj2 (N.eqb_neq u 45)), Ht, DecimalN.Unsigned.of_to by lia. lia.
Qed.

#[export] Program Instance integer_number : JsNumber Z := {|
  number_text := integer_text; number_read := integer_read; number_string := integer_text;
  number_finite _ := true; number_above z := MAX_SAFE_INTEGER <? Z.abs z;
  number_negative_zero _ := false |}.
Next Obligation.
  intros z _. unfold integer_text. destruct (uint_text_head (Z.abs_N z)) as (u & t & Et & Hu).
  destruct (z <? 0); simpl; [by eexists _, _; split; [|left]|]. exists u, t. split; [done|by right].
Qed.
Next Obligation.
  intros z _. unfold integer_text. apply Forall_app. split; [by destruct (z <? 0); repeat constructor|].
  eapply Forall_impl; [apply uint_text_units|]. simpl. lia.
Qed.
Next Obligation. intros z _. simpl. by rewrite integer_read_text. Qed.

(** An object with an escaped key and nested numbers, in two key orders. *)
Definition sample_json : json Z :=
  JObj [(units "b", JArr [JNum 12; JNum (-7)]); (10%N :: units "a", JObj [(units "z", JNull); (units "y", JBool true)])].
Definition sample_json' : json Z :=
  JObj [(10%N :: units "a", JObj [(units "y", JBool true); (units "z", JNull)]); (units "b", JArr [JNum 12; JNum (-7)])].


Lemma same_json_decides_witness :
  exists b, sameJson sample_json sample_json' = Some b /\ (b = true <-> json_equiv sample_json sample_json').
Proof. exact (same_json_decides sample_json sample_json' eq_refl eq_refl). Defined.

Lemma fingerprint_ignores_key_order_witness :
  json_equiv sample_json sample_json' <-> canonicalJson (Some sample_json) = canonicalJson (Some sample_json').
Proof.
  exact (proj1 (fingerprint_ignores_key_order (fun t => t) sample_json sample_json' eq_refl eq_refl
    eq_refl eq_refl)).
Defined.

Lemma sample_texts :
  canonicalJson (Some sample_json) = canonicalJson (Some sample_json') /\
  sameJson sample_json sample_json' = Some true /\ sameJson sample_json (JArr []) = Some false.
Proof. vm_compute. done. Qed.
