(* ===== verification/ErrorChain.v ===== *)
(** * Reading a PostgreSQL error through its wrappers

    [typescript/core/src/errors.ts]: the bounded breadth-first walk over the
    errors that an ORM wraps around a driver error, and the two readers built
    on it.  Error objects are numbered entries of a heap, so an error can wrap
    itself.  [JSON.parse] is a parameter. *)

From S2P Require Import Prelude.

Definition MAX_ERROR_WRAPPERS : nat := 16.

(** A property value: an object of the heap, a string, undefined, or any other
    value. *)
Inductive jsval : Type := VObject (o : nat) | VString (s : string) | VUndefined | VOther.
#[export] Instance jsval_eq_dec : EqDecision jsval.
Proof. solve_decision. Defined.

(** The properties that the walk reads; [None] is a key that is not in the
    object. *)
Record ErrorObject : Type := {
  eo_cause : option jsval;
  eo_driverError : option jsval;
  eo_meta : option jsval;
  eo_driverAdapterError : option jsval;
  eo_code : option jsval;
  eo_originalCode : option jsval;
  eo_detail : option jsval;
}.

Section walk.
Context (heap : nat -> ErrorObject).

(** [WRAPPER_KEYS], in order, as far as the keys are present. *)
Definition wrapped (o : nat) : list jsval :=
  omap id [eo_cause (heap o); eo_driverError (heap o); eo_meta (heap o); eo_driverAdapterError (heap o)].

(** The objects in the order the generator yields them; [None] is out of
    fuel. *)
Fixpoint walk (fuel : nat) (pending : list jsval) (seen : list nat) (visited : nat)
    : option (list nat) :=
  match pending with
  | [] => Some []
  | current :: pending =>
      if (visited <? MAX_ERROR_WRAPPERS)%nat then
        match fuel with
        | O => None
        | S fuel =>
            match current with
            | VObject o =>
                if bool_decide (o ∈ seen) then walk fuel pending seen visited
                else rest ← walk fuel (pending ++ wrapped o) (o :: seen) (S visited); Some (o :: rest)
            | _ => walk fuel pending seen visited
            end
        end
      else Some []
  end.

(** Each visit takes one entry and adds at most four. *)
Definition walk_fuel : nat := 1 + 5 * MAX_ERROR_WRAPPERS.
Definition wrappedErrors (error : jsval) : list nat :=
  default [] (walk walk_fuel [error] [] 0).

(** [SQLSTATE_PATTERN] and [/^P\d{4}$/] *)
Definition is_digit (c : Ascii.ascii) : bool := let n := Ascii.nat_of_ascii c in ((48 <=? n) && (n <=? 57))%nat.
Definition is_upper (c : Ascii.ascii) : bool := let n := Ascii.nat_of_ascii c in ((65 <=? n) && (n <=? 90))%nat.
Definition SQLSTATE_PATTERN (s : string) : bool :=
  let l := String.list_ascii_of_string s in
  (length l =? 5)%nat && forallb (fun c => is_digit c || is_upper c) l.
Definition prisma_pattern (s : string) : bool :=
  match String.list_ascii_of_string s with
  | c :: l => (Ascii.nat_of_ascii c =? 80)%nat && (length l =? 4)%nat && forallb is_digit l
  | [] => false
  end.

Definition code_of (o : nat) : option string :=
  match (match eo_code (heap o) with Some v => Some v | None => eo_originalCode (heap o) end) with
  | Some (VString s) => if SQLSTATE_PATTERN s then Some s else None
  | _ => None
  end.
Definition has_meta (o : nat) : bool :=
  match eo_meta (heap o) with Some VUndefined | None => false | Some _ => true end.

Fixpoint readCode (prismaCode : option string) (wrappers : list nat) : option string :=
  match wrappers with
  | [] => prismaCode
  | o :: wrappers =>
      match code_of o with
      | None => readCode prismaCode wrappers
      | Some code =>
          if prisma_pattern code && has_meta o
          then readCode (match prismaCode with Some p => Some p | None => Some code end) wrappers
          else Some code
      end
  end.
Definition databaseErrorCode (error : jsval) : option string := readCode None (wrappedErrors error).

Definition detail_of (o : nat) : option string :=
  match eo_detail (heap o) with Some (VString s) => Some s | _ => None end.
Definition databaseErrorDetails (error : jsval) : list string := omap detail_of (wrappedErrors error).

(** [FastTierUnsupportedError]: the queue, the feature and the ordinal. *)
Record FastTierUnsupported : Type := { ft_queue : string; ft_feature : string; ft_ordinal : option Z }.

(** [JSON.parse] of a detail, as far as the reader looks at it: the string
    fields queue and feature and the number field ordinal; a text that does
    not parse is [None]. *)
Context (parseDetail : string -> option (option string * option string * option Z)).

Fixpoint readDetails (details : list string) : FastTierUnsupported :=
  match details with
  | [] => {| ft_queue := "unknown"; ft_feature := "unknown"; ft_ordinal := None |}
  | d :: details =>
      match parseDetail d with
      | Some (Some queue, Some feature, ordinal) =>
          {| ft_queue := queue; ft_feature := feature; ft_ordinal := ordinal |}
      | _ => readDetails details
      end
  end.
Definition fastTierRejection (error : jsval) : option FastTierUnsupported :=
  if bool_decide (databaseErrorCode error = Some "P1007"%string)
  then Some (readDetails (databaseErrorDetails error)) else None.

(** ** The walk *)
Lemma wrapped_length o : (length (wrapped o) <= 4)%nat.
Proof. unfold wrapped. by repeat (destruct (_ (heap o)); simpl); lia. Qed.

(** An object that the walk can reach over wrapper keys. *)
Inductive wraps (error : jsval) : jsval -> Prop :=
| wraps_self : wraps error error
| wraps_key o v : wraps error (VObject o) -> v ∈ wrapped o -> wraps error v.

(** What the walk visits from [pending]. *)
Record walk_ok (error : jsval) (seen : list nat) (visited : nat) (l : list nat) : Prop := {
  wo_nodup : NoDup l;
  wo_fresh : forall o, o ∈ l -> o ∉ seen;
  wo_bound : (length l + visited <= MAX_ERROR_WRAPPERS)%nat;
  wo_reach : forall o, o ∈ l -> wraps error (VObject o);
}.

Lemma walk_spec error fuel : forall pending seen visited,
  (length pending + 5 * (MAX_ERROR_WRAPPERS - visited) <= fuel)%nat ->
  (visited <= MAX_ERROR_WRAPPERS)%nat -> Forall (wraps error) pending ->
  exists l, walk fuel pending seen visited = Some l /\ walk_ok error seen visited l.
Proof.
  assert (Hnil : forall seen visited, (visited <= MAX_ERROR_WRAPPERS)%nat -> walk_ok error seen visited []).
  { intros. split; [constructor|set_solver|simpl; lia|set_solver]. }
  induction fuel as [|fuel IH]; intros [|v pending] seen visited Hf Hv Hp; simpl in *;
    try (by eexists; split; [done|auto]); destruct (Nat.ltb_spec visited MAX_ERROR_WRAPPERS);
    try (by eexists; split; [done|auto]); [lia|].
  apply Forall_cons in Hp as [Hr Hp].
  destruct v as [o|s| |]; try (apply IH; [lia|done|done]).
  case_bool_decide as Hs; [apply IH; [lia|done|done]|].
  destruct (IH (pending ++ wrapped o) (o :: seen) (S visited)) as (l & -> & Hl).
  { rewrite length_app. pose proof (wrapped_length o). lia. }
  { lia. }
  { apply Forall_app. split; [done|]. apply Forall_forall. intros v Hv'. by eapply wraps_key. }
  exists (o :: l). split; [done|]. destruct Hl as [H1 H2 H3 H4]. split.
  - apply NoDup_cons. split; [|done]. intros Ho%H2. set_solver.
  - intros o' [->|Ho']%elem_of_cons; [done|]. apply H2 in Ho'. set_solver.
  - simpl. lia.
  - intros o' [->|Ho']%elem_of_cons; auto.
Qed.

Lemma walk_head fuel o l : walk (S fuel) [VObject o] [] 0 = Some l -> head l = Some o.
Proof.
  simpl. by destruct (walk fuel _ _ _); intros; simplify_eq/=.
Qed.

(** The walk over a wrapped error ends for every chain, cyclic ones too: it
    visits at most sixteen objects, each once, all of them wrapped in the
    error, and the error itself first. *)
Theorem error_walk_terminates (error : jsval) :
  walk walk_fuel [error] [] 0 = Some (wrappedErrors error) /\
  NoDup (wrappedErrors error) /\ (length (wrappedErrors error) <= MAX_ERROR_WRAPPERS)%nat /\
  (forall o, o ∈ wrappedErrors error -> wraps error (VObject o)) /\
  (forall o, error = VObject o -> head (wrappedErrors error) = Some o).
Proof.
  destruct (walk_spec error walk_fuel [error] [] 0) as (l & Hl & Hok).
  { unfold walk_fuel. cbn [length]. lia. } { lia. } { constructor; [constructor|constructor]. }
  unfold wrappedErrors. rewrite Hl. destruct Hok as [H1 H2 H3 H4]. simpl. split_and!; try done; [lia|].
  intros o ->. change walk_fuel with (S (5 * MAX_ERROR_WRAPPERS)) in Hl. by eapply walk_head.
Qed.

(** ** The code that the readers report *)
Definition plain_code (o : nat) : option string :=
  code ← code_of o; if prisma_pattern code && has_meta o then None else Some code.

(** The reader returns the nearest SQLSTATE that is not a Prisma code with
    metadata, wherever it is in the chain, and otherwise the nearest Prisma
    code. *)
Theorem plain_code_wins (error : jsval) :
  databaseErrorCode error =
    match head (omap plain_code (wrappedErrors error)) with
    | Some code => Some code
    | None => head (omap code_of (wrappedErrors error))
    end.
Proof.
  unfold databaseErrorCode.
  assert (H : forall l p, readCode p l = match head (omap plain_code l) with
    | Some code => Some code
    | None => match p with Some p => Some p | None => head (omap code_of l) end end).
  { induction l as [|o l IH]; intros p; csimpl; [by destruct p|]. unfold plain_code at 1.
    destruct (code_of o) as [code|]; simpl; [|by rewrite IH].
    destruct (prisma_pattern code && has_meta o); simpl; [|done]. rewrite IH. by destruct p. }
  apply H.
Qed.
End walk.

(** An error that wraps itself, behind a Prisma error with metadata. *)
Definition empty_error : ErrorObject :=
  {| eo_cause := None; eo_driverError := None; eo_meta := None; eo_driverAdapterError := None;
     eo_code := None; eo_originalCode := None; eo_detail := None |}.
Definition sample_heap (o : nat) : ErrorObject :=
  match o with
  | 0%nat => {| eo_cause := Some (VObject 0); eo_driverError := None; eo_meta := Some (VObject 1);
                eo_driverAdapterError := None; eo_code := Some (VString "P2010"); eo_originalCode := None;
                eo_detail := None |}
  | 1%nat => {| eo_cause := Some (VObject 0); eo_driverError := None; eo_meta := None;
                eo_driverAdapterError := None; eo_code := None; eo_originalCode := Some (VString "P1007");
                eo_detail := Some (VString "d") |}
  | _ => empty_error
  end.
Lemma sample_rejection :
  fastTierRejection sample_heap (fun _ => Some (Some "q"%string, Some "signals"%string, None)) (VObject 0) =
    Some {| ft_queue := "q"; ft_feature := "signals"; ft_ordinal := None |}.
Proof. vm_compute. done. Qed.
