(* ===== verification/Completions.v ===== *)
(** * Fused completions and lease statements of the queue

    [typescript/core/src/queue/claim-lease-fence.ts]: the completions that
    workers fuse into [complete_many_and_claim_v1], the batched heartbeat
    statement, the error envelope and the recovery counters.  A call of
    [completeAndClaim] is numbered; a flushed chunk is one numbered statement,
    whose answer is an event.  PostgreSQL is the parameter of that event. *)

From Stdlib Require Import ZifyBool ZifyN.
From S2P Require Import Prelude Types RenewalRound Canonical.

Definition COMPLETION_BATCH_LIMIT : Z := 100.

(** ** Rows *)

(** A timestamp column; [None] is a value that is no date. *)
Abbreviation row_timestamp := (option Z).

Record ClaimRow : Type := {
  row_task_id : string;
  row_task_type : string;
  row_priority : Z;
  row_attempt : Z;
  row_redact_error_details : bool;
  row_deadline_at : option row_timestamp;
  row_attempt_timeout_at : option row_timestamp;
  row_lease_expires_at : row_timestamp;
}.
Record CompletionClaimRow : Type := { row_accepted : option (list string); row_claim : option ClaimRow }.

Inductive fused_error : Type :=
| StatementFailed (e : query_error)
| FastTierUnsupported
| MissingRow
| InvalidTimestamp.

Definition rowTimestamp (value : row_timestamp) : res fused_error Z :=
  match value with Some t => Ret t | None => Throw InvalidTimestamp end.
Definition nullableRowTimestamp (value : option row_timestamp) : res fused_error (option Z) :=
  match value with None => Ret None | Some v => t <- rowTimestamp v ;; Ret (Some t) end.

Definition claimedTask (queueName : string) (row : ClaimRow) : res fused_error ClaimedTask :=
  deadline <- nullableRowTimestamp (row_deadline_at row) ;;
  timeout <- nullableRowTimestamp (row_attempt_timeout_at row) ;;
  lease <- rowTimestamp (row_lease_expires_at row) ;;
  Ret {| task_id := row_task_id row; task_queue := queueName; task_type := row_task_type row;
         task_priority := row_priority row; task_attempt := row_attempt row;
         redactErrorDetails := row_redact_error_details row; deadlineAt := deadline;
         attemptTimeoutAt := timeout; leaseExpiresAt := lease |}.

Definition expectOneRow {A} (rows : list A) : res fused_error A :=
  match rows with row :: _ => Ret row | [] => Throw MissingRow end.

(** ** Calls, batches and statements *)
Record CompletionClaim : Type := {
  claim_queue : string;
  claim_limit : Q;
  claim_leaseMs : option Z;
  claim_cohort : option Z;
}.

Record PendingCompletion : Type := {
  pc_call : nat;
  pc_task : string;
  pc_fence : Z;
  pc_result : string;
  pc_limit : Z;
}.

(** What the statement of a batch names: the worker, the queue and the lease. *)
Record target : Type := { tg_worker : string; tg_queue : string; tg_leaseMs : Z }.
#[export] Instance target_eq_dec : EqDecision target.
Proof. solve_decision. Defined.

Record PendingCompletionBatch : Type := { pb_target : target; pb_entries : list PendingCompletion }.
#[export] Instance eta_batch : Eta PendingCompletionBatch := fun b =>
  {| pb_target := pb_target b; pb_entries := pb_entries b |}.

(** How the promise of a call settles: whether its completion was accepted and
    the tasks claimed for it, or the error. *)
Abbreviation settlement := (res fused_error (bool * list ClaimedTask)).

Record Fuser : Type := {
  pendingCompletions : jsmap ustring PendingCompletionBatch;
  inFlight : jsmap nat PendingCompletionBatch;
  nextCall : nat;
  nextStatement : nat;
  settled : list (nat * settlement);
}.
#[export] Instance eta_fuser : Eta Fuser := fun s =>
  {| pendingCompletions := pendingCompletions s; inFlight := inFlight s; nextCall := nextCall s;
     nextStatement := nextStatement s; settled := settled s |}.

Definition newFuser : Fuser :=
  {| pendingCompletions := []; inFlight := []; nextCall := 0; nextStatement := 0; settled := [] |}.

(** [Math.max(0, Math.min(COMPLETION_BATCH_LIMIT, Math.floor(claim.limit)))] *)
Definition claimLimit (limit : Q) : Z := Z.max 0 (Z.min COMPLETION_BATCH_LIMIT (Qfloor limit)).

(** [JSON.stringify([workerId, claim.queue, leaseMs, claim.cohort ?? null])] *)
Definition batchKey (t : target) (cohort : option Z) : ustring :=
  stringify (JArr [JStr (units (tg_worker t)); JStr (units (tg_queue t)); JNum (tg_leaseMs t);
                   match cohort with Some c => JNum c | None => JNull end]).

Definition claimTarget (workerId : string) (claim : CompletionClaim) : target :=
  {| tg_worker := workerId; tg_queue := claim_queue claim; tg_leaseMs := default 30000 (claim_leaseMs claim) |}.

Definition completeAndClaim (task : string) (fence : Z) (workerId result : string) (claim : CompletionClaim)
    (s : Fuser) : Fuser :=
  let t := claimTarget workerId claim in
  let key := batchKey t (claim_cohort claim) in
  let batch := default {| pb_target := t; pb_entries := [] |} (jsget key (pendingCompletions s)) in
  let entry := {| pc_call := nextCall s; pc_task := task; pc_fence := fence; pc_result := result;
                  pc_limit := claimLimit (claim_limit claim) |} in
  s <| pendingCompletions ::= jsset key (batch <| pb_entries ::= fun l => l ++ [entry] |>) |>
    <| nextCall ::= S |>.

(** The chunk loop of [flushCompletions]. *)
Fixpoint chunksFrom (chunk : list PendingCompletion) (chunkLimit : Z) (entries : list PendingCompletion)
    : list (list PendingCompletion) :=
  match entries with
  | [] => [chunk]
  | entry :: entries =>
      if (Z.of_nat (length chunk) =? COMPLETION_BATCH_LIMIT) ||
         (COMPLETION_BATCH_LIMIT <? chunkLimit + pc_limit entry)
      then chunk :: chunksFrom [entry] (pc_limit entry) entries
      else chunksFrom (chunk ++ [entry]) (chunkLimit + pc_limit entry) entries
  end.
Definition chunksOf (entries : list PendingCompletion) : list (list PendingCompletion) :=
  chunksFrom [] 0 entries.

Definition startStatement (t : target) (s : Fuser) (chunk : list PendingCompletion) : Fuser :=
  s <| inFlight ::= fun m => m ++ [(nextStatement s, {| pb_target := t; pb_entries := chunk |})] |>
    <| nextStatement ::= S |>.

(** The [setImmediate] callback of a batch. *)
Definition flushCompletions (key : ustring) (s : Fuser) : Fuser :=
  match jsget key (pendingCompletions s) with
  | None => s
  | Some batch =>
      foldl (startStatement (pb_target batch)) (s <| pendingCompletions ::= jsdelete key |>)
        (chunksOf (pb_entries batch))
  end.

(** The limit parameter of the statement of a chunk. *)
Definition chunkLimit (entries : list PendingCompletion) : Z :=
  foldl (fun total entry => total + pc_limit entry) 0 entries.

Definition completeManyAndClaim (queueName : string)
    (answers : nat -> res query_error (list CompletionClaimRow))
    : res fused_error (list string * list ClaimedTask) :=
  match (queryFencedWrite answers).2 with
  | Throw e => Throw (if has_code "P1007" e then FastTierUnsupported else StatementFailed e)
  | Ret rows =>
      first <- expectOneRow rows ;;
      claimed <- res_map (claimedTask queueName) (omap row_claim rows) ;;
      Ret (default [] (row_accepted first), claimed)
  end.

(** The loop that hands the outcome of a statement to its entries. *)
Fixpoint distribute (accepted : list string) (claimed : list ClaimedTask) (next : nat)
    (entries : list PendingCompletion) : list (nat * settlement) :=
  match entries with
  | [] => []
  | entry :: entries =>
      let mine := take (Z.to_nat (pc_limit entry)) (drop next claimed) in
      (pc_call entry, Ret (bool_decide (pc_task entry ∈ accepted), mine)) ::
      distribute accepted claimed (next + length mine) entries
  end.

Definition chunkOutcome (batch : PendingCompletionBatch)
    (answers : nat -> res query_error (list CompletionClaimRow)) : list (nat * settlement) :=
  match completeManyAndClaim (tg_queue (pb_target batch)) answers with
  | Throw e => map (fun entry => (pc_call entry, Throw e)) (pb_entries batch)
  | Ret (accepted, claimed) => distribute accepted claimed 0 (pb_entries batch)
  end.

Definition flushCompletionChunk (id : nat) (answers : nat -> res query_error (list CompletionClaimRow))
    (s : Fuser) : Fuser :=
  match jsget id (inFlight s) with
  | None => s
  | Some batch => s <| inFlight ::= jsdelete id |> <| settled ::= fun l => l ++ chunkOutcome batch answers |>
  end.

Inductive fuse_event : Type :=
| Call (task : string) (fence : Z) (workerId result : string) (claim : CompletionClaim)
| Immediate (key : ustring)
| Answer (id : nat) (answers : nat -> res query_error (list CompletionClaimRow)).

Definition fuse_step (s : Fuser) (e : fuse_event) : Fuser :=
  match e with
  | Call task fence workerId result claim => completeAndClaim task fence workerId result claim s
  | Immediate key => flushCompletions key s
  | Answer id answers => flushCompletionChunk id answers s
  end.

(** ** Chunks *)
Lemma chunkLimit_cons entry l : chunkLimit (entry :: l) = pc_limit entry + chunkLimit l.
Proof.
  unfold chunkLimit. simpl. assert (H : forall l a b, foldl (fun t e => t + pc_limit e) (a + b) l =
    a + foldl (fun t e => t + pc_limit e) b l).
  { induction l0 as [|x l0 IH]; intros a b; simpl; [done|]. by rewrite <- Z.add_assoc, IH. }
  rewrite Z.add_comm. apply H.
Qed.

Lemma chunkLimit_snoc l entry : chunkLimit (l ++ [entry]) = chunkLimit l + pc_limit entry.
Proof. unfold chunkLimit. by rewrite foldl_app. Qed.

Definition limit_ok (entry : PendingCompletion) : Prop := 0 <= pc_limit entry <= COMPLETION_BATCH_LIMIT.

Lemma claimLimit_ok limit : 0 <= claimLimit limit <= COMPLETION_BATCH_LIMIT.
Proof. unfold claimLimit, COMPLETION_BATCH_LIMIT. lia. Qed.

Lemma chunksFrom_concat entries : forall chunk lim, concat (chunksFrom chunk lim entries) = chunk ++ entries.
Proof.
  induction entries as [|e entries IH]; intros chunk lim; simpl; [done|].
  destruct (_ || _); simpl; rewrite IH; [done|]. by rewrite <- app_assoc.
Qed.

(** A chunk that one statement accepts. *)
Definition chunk_ok (chunk : list PendingCompletion) : Prop :=
  chunk <> [] /\ Z.of_nat (length chunk) <= COMPLETION_BATCH_LIMIT /\
  0 <= chunkLimit chunk <= COMPLETION_BATCH_LIMIT.

Lemma chunksFrom_ok entries : Forall limit_ok entries -> forall chunk,
  (chunk = [] /\ entries <> []) \/ chunk_ok chunk ->
  Forall chunk_ok (chunksFrom chunk (chunkLimit chunk) entries).
Proof.
  unfold limit_ok. induction 1 as [|e entries He _ IH]; intros chunk Hc; simpl.
  { destruct Hc as [[_ ?]|Hc]; [done|]. constructor; [done|constructor]. }
  assert (Hone : chunk_ok [e]).
  { unfold chunk_ok. rewrite (chunkLimit_cons e []). unfold chunkLimit. simpl.
    unfold COMPLETION_BATCH_LIMIT in *. split; [done|lia]. }
  destruct ((Z.of_nat (length chunk) =? COMPLETION_BATCH_LIMIT) || _) eqn:E.
  - destruct Hc as [[-> _]|Hc]; [unfold chunkLimit, COMPLETION_BATCH_LIMIT in *; simpl in E; lia|].
    constructor; [done|].
    assert (El : pc_limit e = chunkLimit [e]) by (by rewrite chunkLimit_cons, Z.add_0_r).
    rewrite El. apply IH. by right.
  - rewrite <- chunkLimit_snoc. apply IH. right. unfold chunk_ok. rewrite chunkLimit_snoc, length_app.
    cbn [length]. split; [by destruct chunk|].
    assert (Hb : Z.of_nat (length chunk) <= COMPLETION_BATCH_LIMIT /\ 0 <= chunkLimit chunk).
    { destruct Hc as [[-> _]|(_ & ? & ?)]; [unfold chunkLimit, COMPLETION_BATCH_LIMIT; simpl; lia|lia]. }
    unfold COMPLETION_BATCH_LIMIT in *. lia.
Qed.

(** ** Distribution *)
Definition claims_of (r : settlement) : list ClaimedTask := match r with Ret (_, l) => l | Throw _ => [] end.
Definition claims_in (l : list (nat * settlement)) : list ClaimedTask := flat_map (fun o => claims_of o.2) l.

Lemma distribute_calls accepted claimed next entries :
  (distribute accepted claimed next entries).*1 = map pc_call entries.
Proof. revert next. induction entries as [|e l IH]; intros next; simpl; [done|]. by rewrite IH. Qed.

Lemma take_drop_short {A} (a b : nat) (l : list A) :
  take b (drop (length (take a l)) l) = take b (drop a l).
Proof.
  rewrite length_take. destruct (Nat.le_ge_cases a (length l)); [by rewrite Nat.min_l|].
  rewrite Nat.min_r by done. by rewrite !drop_ge.
Qed.

Lemma distribute_claims accepted claimed entries : Forall limit_ok entries -> forall next,
  claims_in (distribute accepted claimed next entries) =
    take (Z.to_nat (chunkLimit entries)) (drop next claimed).
Proof.
  induction 1 as [|e l He Hl IH]; intros next; [done|]. simpl. rewrite chunkLimit_cons.
  assert (0 <= chunkLimit l).
  { clear -Hl. induction Hl as [|x l [? ?] _ IH]; [done|]. rewrite chunkLimit_cons. lia. }
  unfold limit_ok in He. rewrite IH, Z2Nat.inj_add, <- take_take_drop by lia. f_equal.
  by rewrite <- drop_drop, take_drop_short.
Qed.

Lemma distribute_within accepted claimed entries : forall next o,
  o ∈ distribute accepted claimed next entries ->
  exists entry, entry ∈ entries /\ o.1 = pc_call entry /\
    (length (claims_of o.2) <= Z.to_nat (pc_limit entry))%nat.
Proof.
  induction entries as [|e l IH]; intros next o; simpl; [set_solver|].
  intros [->|Ho]%elem_of_cons.
  - exists e. split; [by left|]. split; [done|]. simpl. rewrite length_take. lia.
  - destruct (IH _ _ Ho) as (e' & ? & ? & ?). exists e'. split; [by right|done].
Qed.

(** ** The invariant *)
Lemma Forall_jsdelete {K V} `{EqDecision K} (P : K * V -> Prop) k (m : jsmap K V) :
  Forall P m -> Forall P (jsdelete k m).
Proof.
  rewrite !Forall_forall. intros H x Hx. unfold jsdelete in Hx. apply list_elem_of_filter in Hx as [_ Hx]. auto.
Qed.
Lemma Forall_perm {A} (P : A -> Prop) l l' : l' ≡ₚ l -> Forall P l -> Forall P l'.
Proof. by intros ->. Qed.

Definition entries_in {K} (m : jsmap K PendingCompletionBatch) : list PendingCompletion :=
  flat_map (fun kb => pb_entries kb.2) m.
Definition entriesOf (s : Fuser) : list PendingCompletion :=
  entries_in (pendingCompletions s) ++ entries_in (inFlight s).

#[export] Instance entries_in_proper {K} : Proper ((≡ₚ) ==> (≡ₚ)) (@entries_in K).
Proof. intros l l' Hl. unfold entries_in. by rewrite Hl. Qed.

Lemma entries_in_app {K} (m m' : jsmap K PendingCompletionBatch) :
  entries_in (m ++ m') = entries_in m ++ entries_in m'.
Proof. apply flat_map_app. Qed.

(** [t] is the target of the batch with key [key]. *)
Definition keyed (kb : ustring * PendingCompletionBatch) : Prop :=
  (exists cohort, kb.1 = batchKey (pb_target kb.2) cohort) /\ pb_entries kb.2 <> [].

Record fuse_ok (s : Fuser) : Prop := {
  fo_calls : map pc_call (entriesOf s) ++ (settled s).*1 ≡ₚ seq 0 (nextCall s);
  fo_limits : Forall limit_ok (entriesOf s);
  fo_keys : NoDup (pendingCompletions s).*1;
  fo_keyed : Forall keyed (pendingCompletions s);
  fo_ids : NoDup (inFlight s).*1 /\ Forall (fun i => (i < nextStatement s)%nat) (inFlight s).*1;
  fo_chunks : Forall (fun b => chunk_ok (pb_entries b.2)) (inFlight s);
}.

Lemma newFuser_ok : fuse_ok newFuser.
Proof. split; simpl; try constructor; constructor. Qed.

(** The batch of [key] after one more entry, as the entries it holds. *)
Lemma entries_in_set {K} `{EqDecision K} (k : K) (b : PendingCompletionBatch) entry m :
  NoDup m.*1 -> pb_entries b = [] ->
  entries_in (jsset k ((default b (jsget k m)) <| pb_entries ::= fun l => l ++ [entry] |>) m) ≡ₚ
    entry :: entries_in m.
Proof.
  intros Hm Hb. rewrite jsset_perm by done. destruct (jsget k m) as [b'|] eqn:E; simpl.
  - rewrite (jsdelete_perm k b' m) at 2 by done. simpl.
    rewrite <- app_assoc. symmetry. apply Permutation_middle.
  - rewrite Hb. simpl. by rewrite jsdelete_absent by (by apply jsget_None).
Qed.

Lemma completeAndClaim_ok task fence workerId result claim s :
  fuse_ok s -> fuse_ok (completeAndClaim task fence workerId result claim s).
Proof.
  intros [H1 H2 H3 H4 H5 H6]. unfold completeAndClaim. set (t := claimTarget workerId claim).
  set (key := batchKey _ _). set (entry := {| pc_call := _ |}).
  set (b := {| pb_target := t; pb_entries := [] |}).
  pose proof (entries_in_set key b entry (pendingCompletions s) H3 eq_refl) as He.
  unfold entriesOf in *. split; try done.
  - etrans; [apply Permutation_app_tail, Permutation_map, Permutation_app_tail, He|].
    cbn [map app nextCall]. rewrite H1. change (nextCall (_ <| nextCall ::= S |>)) with (S (nextCall s)).
    rewrite seq_S. apply Permutation_cons_append.
  - unfold entriesOf. eapply Forall_perm; [apply Permutation_app_tail, He|].
    constructor; [apply claimLimit_ok|done].
  - by apply jsset_NoDup.
  - eapply Forall_perm; [by apply jsset_perm|]. constructor.
    + split; [|by intros [_ ?]%app_eq_nil].
      destruct (jsget key (pendingCompletions s)) as [b'|] eqn:E; [|by exists (claim_cohort claim)].
      apply jsget_in in E. rewrite Forall_forall in H4. apply H4 in E as [E _]. exact E.
    + by apply Forall_jsdelete.
Qed.

Lemma startStatements t chunks : forall s,
  let s' := foldl (startStatement t) s chunks in
  pendingCompletions s' = pendingCompletions s /\ nextCall s' = nextCall s /\ settled s' = settled s /\
  nextStatement s' = (nextStatement s + length chunks)%nat /\
  inFlight s' = inFlight s ++ zip (seq (nextStatement s) (length chunks))
                                  (map (fun c => {| pb_target := t; pb_entries := c |}) chunks).
Proof.
  induction chunks as [|c chunks IH]; intros s; [simpl; by rewrite Nat.add_0_r, app_nil_r|].
  cbn [foldl]. destruct (IH (startStatement t s c)) as (-> & -> & -> & -> & ->).
  cbn -[zip seq]. split_and!; try done; try lia. by rewrite <- app_assoc.
Qed.

Lemma entries_in_zip t (ids : list nat) chunks : length ids = length chunks ->
  entries_in (zip ids (map (fun c => {| pb_target := t; pb_entries := c |}) chunks)) = concat chunks.
Proof.
  revert ids. induction chunks as [|c chunks IH]; intros [|i ids] Hl; try done.
  cbn. f_equal. apply IH. by injection Hl.
Qed.

Lemma flushCompletions_entries key s : fuse_ok s ->
  entriesOf (flushCompletions key s) ≡ₚ entriesOf s /\ nextCall (flushCompletions key s) = nextCall s /\
  settled (flushCompletions key s) = settled s.
Proof.
  intros Hs. unfold flushCompletions. destruct (jsget key (pendingCompletions s)) as [b|] eqn:E; [|done].
  destruct (startStatements (pb_target b) (chunksOf (pb_entries b))
    (s <| pendingCompletions ::= jsdelete key |>)) as (H1 & H2 & H3 & _ & H5).
  split_and!; try done. unfold entriesOf. rewrite H1, H5, entries_in_app, entries_in_zip
    by (by rewrite length_seq).
  unfold chunksOf. rewrite chunksFrom_concat. cbn -[jsdelete].
  rewrite (jsdelete_perm key b (pendingCompletions s)) at 2; [|apply Hs|done]. cbn -[jsdelete].
  rewrite <- app_assoc. rewrite (Permutation_app_comm (pb_entries b)). by rewrite <- app_assoc.
Qed.

Lemma flushCompletions_ok key s : fuse_ok s -> fuse_ok (flushCompletions key s).
Proof.
  intros Hs. destruct (flushCompletions_entries key s Hs) as (He & Hc & Hd).
  pose proof Hs as [H1 H2 H3 H4 [H5 H5'] H6].
  assert (Hb : fuse_ok (flushCompletions key s) <->
    NoDup (pendingCompletions (flushCompletions key s)).*1 /\
    Forall keyed (pendingCompletions (flushCompletions key s)) /\
    NoDup (inFlight (flushCompletions key s)).*1 /\
    Forall (fun i => (i < nextStatement (flushCompletions key s))%nat) (inFlight (flushCompletions key s)).*1 /\
    Forall (fun b => chunk_ok (pb_entries b.2)) (inFlight (flushCompletions key s))).
  { split; [intros []; naive_solver|]. intros (?&?&?&?&?). split; try done.
    - by rewrite He, Hc, Hd.
    - by rewrite He. }
  apply Hb. clear Hb He Hc Hd. unfold flushCompletions.
  destruct (jsget key (pendingCompletions s)) as [b|] eqn:E; [|done].
  destruct (startStatements (pb_target b) (chunksOf (pb_entries b))
    (s <| pendingCompletions ::= jsdelete key |>)) as (E1 & _ & _ & E4 & E5).
  rewrite E1, E4, E5. rewrite !fmap_app, !fst_zip by (by rewrite length_seq, length_map).
  cbn -[jsdelete chunksOf zip seq].
  assert (Hbok : Forall limit_ok (pb_entries b) /\ pb_entries b <> []).
  { apply jsget_in in E. rewrite Forall_forall in H4. split; [|by apply (H4 (key, b))].
    apply Forall_app in H2 as [H2 _]. rewrite Forall_forall in *. intros x Hx. apply H2.
    apply list_elem_of_In, in_flat_map. exists (key, b). split; by apply list_elem_of_In. }
  split_and!; [by apply jsdelete_NoDup|by apply Forall_jsdelete| | |].
  - apply NoDup_app. split_and!; [done| |apply NoDup_seq]. intros i Hi Hs'%elem_of_seq.
    rewrite Forall_forall in H5'. apply H5' in Hi. lia.
  - apply Forall_app. split; apply Forall_forall; intros i Hi.
    + rewrite Forall_forall in H5'. apply H5' in Hi. lia.
    + apply elem_of_seq in Hi. lia.
  - apply Forall_app. split; [done|]. apply Forall_forall. intros [i b'] Hi%elem_of_zip_r.
    apply list_elem_of_fmap in Hi as (c & -> & Hc). simpl.
    pose proof (chunksFrom_ok (pb_entries b) (proj1 Hbok) [] (or_introl (conj eq_refl (proj2 Hbok)))) as Hok.
    rewrite Forall_forall in Hok. by apply Hok.
Qed.

(** ** Settling a statement *)
Lemma chunkOutcome_calls b answers : (chunkOutcome b answers).*1 = map pc_call (pb_entries b).
Proof.
  unfold chunkOutcome. destruct (completeManyAndClaim _ _) as [[acc cl]|e]; [apply distribute_calls|].
  induction (pb_entries b) as [|x l IH]; simpl; [done|]. f_equal. exact IH.
Qed.

Lemma flushCompletionChunk_ok id answers s : fuse_ok s -> fuse_ok (flushCompletionChunk id answers s).
Proof.
  intros [H1 H2 H3 H4 [H5 H5'] H6]. unfold flushCompletionChunk.
  destruct (jsget id (inFlight s)) as [b|] eqn:E; [|done].
  assert (He : entriesOf s ≡ₚ entries_in (pendingCompletions s) ++ entries_in (jsdelete id (inFlight s)) ++ pb_entries b).
  { unfold entriesOf. rewrite (jsdelete_perm id b (inFlight s)) at 1 by done. cbn -[jsdelete].
    by rewrite (Permutation_app_comm (pb_entries b)). }
  rewrite He in H1, H2. set (s' := _ <| settled ::= _ |>).
  assert (Ep : pendingCompletions s' = pendingCompletions s) by done.
  assert (Ei : inFlight s' = jsdelete id (inFlight s)) by done.
  assert (Es : settled s' = settled s ++ chunkOutcome b answers) by done.
  assert (En : nextStatement s' = nextStatement s /\ nextCall s' = nextCall s) by done. clearbody s'.
  destruct En as [En En']. split; unfold entriesOf; rewrite ?Ep, ?Ei, ?Es, ?En, ?En'; try done.
  - rewrite <- H1, (fmap_app fst), chunkOutcome_calls, !map_app, <- !app_assoc. do 2 f_equiv.
    apply Permutation_app_comm.
  - rewrite app_assoc in H2. by apply Forall_app in H2 as [? _].
  - split; [by apply jsdelete_NoDup|]. apply Forall_forall. rewrite Forall_forall in H5'. intros i Hi.
    apply H5'. apply list_elem_of_fmap in Hi as (x & -> & Hx). unfold jsdelete in Hx.
    apply list_elem_of_filter in Hx as [_ Hx]. by apply list_elem_of_fmap_2.
  - by apply Forall_jsdelete.
Qed.

Lemma fuse_step_ok s e : fuse_ok s -> fuse_ok (fuse_step s e).
Proof.
  destruct e; [apply completeAndClaim_ok|apply flushCompletions_ok|apply flushCompletionChunk_ok].
Qed.

Lemma fuse_run_ok evs : fuse_ok (run fuse_step newFuser evs).
Proof. apply run_invariant; [intros; by apply fuse_step_ok|apply newFuser_ok]. Qed.

(** ** Keys name their target *)
Lemma units_inj a b : units a = units b -> a = b.
Proof.
  unfold units. intros H. rewrite <- (String.string_of_list_ascii_of_string a),
    <- (String.string_of_list_ascii_of_string b). f_equal.
  assert (Hi : Inj eq eq Ascii.N_of_ascii).
  { intros x y Hxy. by rewrite <- (Ascii.ascii_N_embedding x), <- (Ascii.ascii_N_embedding y), Hxy. }
  by apply (list_fmap_eq_inj Ascii.N_of_ascii) in H.
Qed.

Lemma readback_integer (z : Z) : readback (JNum z) = JNum z.
Proof. etrans; [by apply (norm_number (num:=Z) z)|]. simpl. by rewrite integer_read_text. Qed.

Lemma batchKey_inj t cohort t' cohort' :
  batchKey t cohort = batchKey t' cohort' -> t = t' /\ cohort = cohort'.
Proof.
  intros H%stringify_readback. cbn [readback map] in H. injection H as Hw Hq Hl Hc.
  change (readback (JNum (tg_leaseMs t)) = readback (JNum (tg_leaseMs t'))) in Hl.
  rewrite !readback_integer in Hl. injection Hl as Hl. split.
  - destruct t, t'; simpl in *. by apply units_inj in Hw, Hq; subst.
  - destruct cohort as [c|], cohort' as [c'|]; try done.
    + change (readback (JNum c) = readback (JNum c')) in Hc. rewrite !readback_integer in Hc. congruence.
    + by change (readback (JNum c) = JNull) in Hc; rewrite readback_integer in Hc.
    + by change (JNull = readback (JNum c')) in Hc; rewrite readback_integer in Hc.
Qed.

(** A completion joins a batch of its own worker, queue and lease: the text
    key of a batch determines them, so the statement that carries a completion
    never names the target of another call. *)
Theorem completion_joins_its_target evs task fence workerId result claim :
  let s := run fuse_step newFuser (evs ++ [Call task fence workerId result claim]) in
  exists batch entry,
    jsget (batchKey (claimTarget workerId claim) (claim_cohort claim)) (pendingCompletions s) = Some batch /\
    pb_target batch = claimTarget workerId claim /\ last (pb_entries batch) = Some entry /\
    pc_task entry = task /\ pc_fence entry = fence /\ pc_result entry = result.
Proof.
  intros s. subst s. rewrite run_snoc. pose proof (fuse_run_ok evs) as [_ _ _ Hk _ _].
  set (s := run fuse_step newFuser evs) in *. cbn [fuse_step]. unfold completeAndClaim.
  cbn -[jsset batchKey jsget]. rewrite jsget_set, decide_True by done.
  eexists _, _. split; [done|]. split; [|split; [apply last_snoc|done]].
  destruct (jsget _ (pendingCompletions s)) as [b|] eqn:E; [|done].
  apply jsget_in in E. rewrite Forall_forall in Hk. apply Hk in E as [[cohort Hc] _].
  by apply batchKey_inj in Hc as [-> _].
Qed.

(** ** What the callers see

    Outstanding calls with their limits, and the settlements so far.  A step is
    labelled with the tasks that PostgreSQL leased in it. *)
Record Calls : Type := { waiting : gmap nat Z; finished : list (nat * settlement) }.

Inductive calls_step : Calls -> list ClaimedTask -> Calls -> Prop :=
| calls_stay c : calls_step c [] c
| calls_ask c n limit : waiting c !! n = None -> n ∉ (finished c).*1 -> 0 <= limit ->
    calls_step c [] {| waiting := <[n := limit]> (waiting c); finished := finished c |}
| calls_settle c outcome leased : NoDup outcome.*1 -> claims_in outcome = leased ->
    (forall n r, (n, r) ∈ outcome -> exists limit,
       waiting c !! n = Some limit /\ Z.of_nat (length (claims_of r)) <= limit) ->
    calls_step c leased
      {| waiting := filter (fun kv => kv.1 ∉ outcome.*1) (waiting c); finished := finished c ++ outcome |}.

Definition limits_of (l : list PendingCompletion) : gmap nat Z :=
  list_to_map (map (fun entry => (pc_call entry, pc_limit entry)) l).
Definition callsOf (s : Fuser) : Calls := {| waiting := limits_of (entriesOf s); finished := settled s |}.

(** The tasks that an event of the fuser leases. *)
Definition leased_by (s : Fuser) (e : fuse_event) : list ClaimedTask :=
  match e with
  | Answer id answers =>
      match jsget id (inFlight s) with
      | Some b => match completeManyAndClaim (tg_queue (pb_target b)) answers with
                  | Ret (_, claimed) => claimed | Throw _ => [] end
      | None => []
      end
  | _ => []
  end.

(** PostgreSQL claims at most the limit of the statement. *)
Definition answer_ok (s : Fuser) (e : fuse_event) : Prop :=
  match e with
  | Answer id _ => forall b, jsget id (inFlight s) = Some b ->
      Z.of_nat (length (leased_by s e)) <= chunkLimit (pb_entries b)
  | _ => True
  end.

Lemma limits_keys l : (map (fun entry => (pc_call entry, pc_limit entry)) l).*1 = map pc_call l.
Proof. induction l as [|x l IH]; simpl; [done|]. f_equal. exact IH. Qed.

Lemma limits_perm l l' : NoDup (map pc_call l) -> l ≡ₚ l' -> limits_of l = limits_of l'.
Proof.
  intros Hn Hp. unfold limits_of. apply list_to_map_proper; [by rewrite limits_keys|]. by apply Permutation_map.
Qed.

Lemma limits_lookup l entry : NoDup (map pc_call l) -> entry ∈ l ->
  limits_of l !! pc_call entry = Some (pc_limit entry).
Proof.
  intros Hn He. apply elem_of_list_to_map; [by rewrite limits_keys|].
  apply list_elem_of_fmap. by exists entry.
Qed.

Lemma limits_none l n : n ∉ map pc_call l -> limits_of l !! n = None.
Proof. intros Hn. apply not_elem_of_list_to_map. by rewrite limits_keys. Qed.

Lemma limits_settled l1 l2 (calls : list nat) : NoDup (map pc_call (l1 ++ l2)) -> calls = map pc_call l2 ->
  limits_of l1 = filter (fun kv : nat * Z => kv.1 ∉ calls) (limits_of (l1 ++ l2)).
Proof.
  intros Hn ->. rewrite map_app in Hn. apply NoDup_app in Hn as (_ & Hd & _).
  apply map_eq. intros n. rewrite map_lookup_filter. unfold limits_of at 2.
  rewrite map_app, list_to_map_app. fold (limits_of l1) (limits_of l2).
  destruct (decide (n ∈ map pc_call l2)) as [Hin|Hout].
  - rewrite (limits_none l1) by (intros Hl; by apply (Hd n)).
    destruct ((limits_of l1 ∪ limits_of l2) !! n); simpl; [|done].
    case_guard; simpl in *; [done|]. done.
  - rewrite lookup_union_l by (by apply limits_none). destruct (limits_of l1 !! n); simpl; [|done].
    by rewrite option_guard_True.
Qed.

Lemma calls_nodup s : fuse_ok s ->
  NoDup (map pc_call (entriesOf s)) /\ (forall n, n ∈ map pc_call (entriesOf s) -> n ∉ (settled s).*1) /\
  nextCall s ∉ map pc_call (entriesOf s) /\ nextCall s ∉ (settled s).*1.
Proof.
  intros [H1 _ _ _ _ _]. assert (Hn : NoDup (map pc_call (entriesOf s) ++ (settled s).*1)).
  { rewrite H1. apply NoDup_seq. }
  apply NoDup_app in Hn as (Hn & Hd & _).
  assert (Hx : nextCall s ∉ map pc_call (entriesOf s) ++ (settled s).*1).
  { rewrite H1. intros ?%elem_of_seq. lia. }
  rewrite elem_of_app in Hx. naive_solver.
Qed.

Lemma refine_call task fence workerId result claim s : fuse_ok s ->
  calls_step (callsOf s) [] (callsOf (completeAndClaim task fence workerId result claim s)).
Proof.
  intros Hs. destruct (calls_nodup s Hs) as (Hn & Hd & Hx & Hy).
  pose proof (completeAndClaim_ok task fence workerId result claim s Hs) as Hs'.
  destruct (calls_nodup _ Hs') as (Hn' & _ & _ & _).
  set (entry := {| pc_call := nextCall s; pc_task := task; pc_fence := fence; pc_result := result;
                   pc_limit := claimLimit (claim_limit claim) |}).
  assert (Hp : entriesOf (completeAndClaim task fence workerId result claim s) ≡ₚ entry :: entriesOf s).
  { exact (Permutation_app_tail (entries_in (inFlight s))
      (entries_in_set (batchKey (claimTarget workerId claim) (claim_cohort claim))
         {| pb_target := claimTarget workerId claim; pb_entries := [] |} entry (pendingCompletions s)
         (fo_keys s Hs) eq_refl)). }
  unfold callsOf. rewrite (limits_perm _ _ Hn' Hp).
  change (limits_of (entry :: entriesOf s)) with (<[pc_call entry := pc_limit entry]> (limits_of (entriesOf s))).
  change (settled (completeAndClaim task fence workerId result claim s)) with (settled s).
  apply (calls_ask (callsOf s)); simpl; [by apply limits_none|done|apply claimLimit_ok].
Qed.

Lemma refine_answer id answers s : fuse_ok s -> answer_ok s (Answer id answers) ->
  calls_step (callsOf s) (leased_by s (Answer id answers)) (callsOf (flushCompletionChunk id answers s)).
Proof.
  intros Hs Ha. destruct (calls_nodup s Hs) as (Hn & _ & _ & _). unfold answer_ok, flushCompletionChunk, leased_by in *.
  destruct (jsget id (inFlight s)) as [b|] eqn:E; [|constructor]. specialize (Ha b eq_refl).
  set (rest := entries_in (pendingCompletions s) ++ entries_in (jsdelete id (inFlight s))).
  assert (He : entriesOf s ≡ₚ rest ++ pb_entries b).
  { unfold rest. rewrite <- app_assoc. apply Permutation_app_head.
    rewrite (jsdelete_perm id b (inFlight s)) at 1; [|apply Hs|done]. cbn -[jsdelete].
    apply Permutation_app_comm. }
  assert (Hl : Forall limit_ok (pb_entries b)).
  { pose proof (fo_limits s Hs) as Hl. rewrite He in Hl. by apply Forall_app in Hl as [_ ?]. }
  pose proof Hn as Hnb. rewrite He, map_app in Hnb. apply NoDup_app in Hnb as (_ & _ & Hnb).
  unfold callsOf at 2. change (settled (_ <| settled ::= _ |>)) with (settled s ++ chunkOutcome b answers).
  change (entriesOf (_ <| settled ::= _ |>)) with rest.
  rewrite (limits_settled rest (pb_entries b) (chunkOutcome b answers).*1);
    [|by rewrite <- He|apply chunkOutcome_calls].
  rewrite <- (limits_perm (entriesOf s) _ Hn He). apply (calls_settle (callsOf s)).
  - by rewrite chunkOutcome_calls.
  - unfold chunkOutcome. destruct (completeManyAndClaim _ answers) as [[acc cl]|e].
    + rewrite distribute_claims, drop_0 by done. apply take_ge. lia.
    + clear. induction (pb_entries b) as [|x l IH]; [done|]. exact IH.
  - intros n r Ho. assert (Hr : exists entry, entry ∈ pb_entries b /\ n = pc_call entry /\
      (length (claims_of r) <= Z.to_nat (pc_limit entry))%nat).
    { unfold chunkOutcome in Ho. destruct (completeManyAndClaim _ answers) as [[acc cl]|e].
      - destruct (distribute_within _ _ _ _ _ Ho) as (x & ? & ? & ?). by exists x.
      - apply list_elem_of_fmap in Ho as (x & [= -> ->] & Hx). exists x. split_and!; [done|done|simpl; lia]. }
    destruct Hr as (x & Hx & -> & Hlen). exists (pc_limit x). split.
    + apply limits_lookup; [done|]. rewrite He. set_solver.
    + rewrite Forall_forall in Hl. apply Hl in Hx. unfold limit_ok in Hx. lia.
Qed.


(** C21: No completion is lost and none settles twice: the calls that wait and
    the calls that settled are together the calls made, each once.  Every
    statement in flight completes and claims at most a hundred tasks. *)
Theorem completions_settle_once evs (s := run fuse_step newFuser evs) :
  map pc_call (entriesOf s) ++ (settled s).*1 ≡ₚ seq 0 (nextCall s) /\
  Forall (fun b => chunk_ok (pb_entries b.2)) (inFlight s).
Proof. split; apply (fuse_run_ok evs). Qed.

(** Two completions of one worker share a statement that claims one task. *)
Definition sample_claim (limit : Q) : CompletionClaim :=
  {| claim_queue := "q"; claim_limit := limit; claim_leaseMs := None; claim_cohort := Some 0 |}.
Definition sample_calls : list fuse_event :=
  [Call "t1" 5 "w" "{}" (sample_claim 1); Call "t2" 6 "w" "{}" (sample_claim (5 # 2));
   Immediate (batchKey (claimTarget "w" (sample_claim 1)) (Some 0))].
Definition sample_row : ClaimRow :=
  {| row_task_id := "t3"; row_task_type := "email"; row_priority := 0; row_attempt := 1;
     row_redact_error_details := false; row_deadline_at := None; row_attempt_timeout_at := None;
     row_lease_expires_at := Some 30000 |}.
Definition sample_answer : fuse_event :=
  Answer 0 (fun _ => Ret [{| row_accepted := Some ["t1"; "t2"]%string; row_claim := Some sample_row |};
                          {| row_accepted := None; row_claim := Some sample_row |}]).
Definition sample_fuser : Fuser := run fuse_step newFuser sample_calls.

Lemma sample_answer_ok : answer_ok sample_fuser sample_answer.
Proof.
  intros b Hb. assert (Hl : length (leased_by sample_fuser sample_answer) = 2%nat) by (vm_compute; done).
  rewrite Hl. assert (Hc : option_map (fun b => chunkLimit (pb_entries b)) (jsget 0%nat (inFlight sample_fuser)) = Some 3)
    by (vm_compute; done).
  rewrite Hb in Hc. injection Hc as ->. done.
Qed.

