(* ===== verification/LeaseStatements.v ===== *)
(** * Statements that a lease authorises

    The parts of [typescript/core/src/queue/claim-lease-fence.ts] beside the
    fused completions: the batched heartbeat, the owned lifecycle statements,
    the error envelope of a failure and the counters of a recovery.  The
    answers of PostgreSQL are parameters, one per statement and resend. *)

From Stdlib Require Import ZifyBool ZifyN.
From S2P Require Import Prelude Types RenewalRound Canonical Completions.

(** ** Text that jsonb stores *)

(** U+FFFD, written for a unit that jsonb refuses. *)
Definition REPLACEMENT : N := 0xFFFD.

Definition refused (u : N) : bool := (u =? 0)%N || is_surrogate u.

(** One turn of the loop for a unit outside a pair: [output] is undefined until
    the first refused unit, and then starts as the text before it. *)
Definition storeUnit (before : ustring) (u : N) (output : option ustring) : option ustring :=
  let output := if refused u then Some (default before output) else output in
  match output with Some o => Some (o ++ [if refused u then REPLACEMENT else u]) | None => None end.

(** The loop at the units [rest]; [before] is the text up to the index. *)
Fixpoint storableLoop (before rest : ustring) (output : option ustring) : option ustring :=
  match rest with
  | [] => output
  | u :: (v :: rest'') as rest' =>
      if is_high u && is_low v
      then storableLoop (before ++ [u; v]) rest'' (o ← output; Some (o ++ [u; v]))
      else storableLoop (before ++ [u]) rest' (storeUnit before u output)
  | [u] => storeUnit before u output
  end.
Definition storableText (text : ustring) : ustring := default text (storableLoop [] text None).

(** The same text by code points. *)
Definition store_point (p : point) : point :=
  match p with Pair u v => Pair u v | One u => One (if refused u then REPLACEMENT else u) end.
Definition storable_spec (text : ustring) : ustring := flat_map point_units (map store_point (points text)).

(** ** The error envelope *)
Definition REDACTED_ERROR_MESSAGE : ustring := units "Task handler failed; details redacted".
Definition REDACTED_ERROR_NAME : ustring := units "RedactedTaskError".
Definition NON_ERROR_NAME : ustring := units "NonErrorThrown".

(** A thrown value as the envelope reads it: an Error with the name of the
    durable replay conflict in its cause chain, or [String(value)]. *)
Inductive thrown_value : Type :=
| AnError (name message : ustring) (stack : option ustring) (conflict : option ustring)
| NotAnError (text : ustring).

(** The stack field is absent, null or a text. *)
Record envelope : Type := {
  en_name : ustring;
  en_message : ustring;
  en_stack : option (option ustring);
}.

Definition errorEnvelope (error : thrown_value) (redactDetails : bool) : envelope :=
  if redactDetails then {| en_name := REDACTED_ERROR_NAME; en_message := REDACTED_ERROR_MESSAGE; en_stack := None |}
  else match error with
       | AnError name message stack conflict =>
           {| en_name := storableText (default name conflict); en_message := storableText message;
              en_stack := Some (option_map storableText stack) |}
       | NotAnError text =>
           {| en_name := NON_ERROR_NAME; en_message := storableText text; en_stack := Some None |}
       end.

(** [Error] or [String(error)] for telemetry. *)
Inductive telemetry_error : Type := TelemetryError (name message : ustring) | TelemetryText (text : ustring).
Definition errorForTelemetry (error : thrown_value) (redactDetails : bool) : telemetry_error :=
  if redactDetails then TelemetryError REDACTED_ERROR_NAME REDACTED_ERROR_MESSAGE
  else match error with
       | AnError name message _ _ => TelemetryError name message
       | NotAnError text => TelemetryText text
       end.

(** ** Batched heartbeats *)
Definition HEARTBEAT_STATEMENT_LEASE_LIMIT : nat := 100.

Record HeartbeatLeasePayload : Type := { hl_taskId : string; hl_fenceToken : Z; hl_leaseMs : Z }.

(** A claimed task as the statements name it: its id and fence token. *)
Record owned_task : Type := { ot_id : string; ot_fence : Z }.

Fixpoint slicesFrom (fuel start : nat) (leases : list HeartbeatLeasePayload)
    : list (list HeartbeatLeasePayload) :=
  match fuel with
  | O => []
  | S fuel =>
      if (start <? length leases)%nat
      then take HEARTBEAT_STATEMENT_LEASE_LIMIT (drop start leases)
             :: slicesFrom fuel (start + HEARTBEAT_STATEMENT_LEASE_LIMIT) leases
      else []
  end.
Definition heartbeatLeaseBatches (tasks : list owned_task) (leaseMs : Z) : list (list HeartbeatLeasePayload) :=
  let leases := map (fun t => {| hl_taskId := ot_id t; hl_fenceToken := ot_fence t; hl_leaseMs := leaseMs |}) tasks in
  slicesFrom (length leases) 0 leases.

(** What [reportHeartbeatStatuses] records for each task. *)
Definition reportHeartbeatStatuses (tasks : list owned_task)
    (statuses : jsmap string HB.HeartbeatBatchStatus) : list (string * HB.HeartbeatBatchStatus) :=
  map (fun t => (ot_id t, default HB.stale (jsget (ot_id t) statuses))) tasks.

Section heartbeat_many.
(** The answers to statement [i], one per resend. *)
Context (answers : nat -> nat -> res query_error (list (string * HB.HeartbeatBatchStatus))).

(** The batches from statement [i] on: the batches that were sent, and the
    statuses or the error. *)
Fixpoint sendBatches (i : nat) (batches : list (list HeartbeatLeasePayload))
    (statuses : jsmap string HB.HeartbeatBatchStatus)
    : list (list HeartbeatLeasePayload) * res query_error (jsmap string HB.HeartbeatBatchStatus) :=
  match batches with
  | [] => ([], Ret statuses)
  | batch :: batches =>
      match (queryFencedWrite (answers i)).2 with
      | Throw e => ([batch], Throw e)
      | Ret rows =>
          let (sent, r) := sendBatches (S i) batches (foldl (fun m row => jsset row.1 row.2 m) statuses rows) in
          (batch :: sent, r)
      end
  end.
Definition heartbeatMany (tasks : list owned_task) (leaseMs : Z) :=
  sendBatches 0 (heartbeatLeaseBatches tasks leaseMs) [].
End heartbeat_many.

(** ** Owned lifecycle statements *)

(** A parameter of a statement. *)
Inductive sql_value : Type := VText (s : string) | VInt (z : Z) | VJson (e : envelope) | VNull.

(** [FencedLease.from(task, workerId).sqlParameters] *)
Definition fencedLease (task : owned_task) (workerId : string) : list sql_value :=
  [VText (ot_id task); VText workerId; VInt (ot_fence task)].

Inductive owned_statement : Type :=
| HeartbeatV1 (leaseMs : Z) | HeartbeatV2 (leaseMs : Z) | ExpireOwned | ReleaseOwned | AcknowledgeCancel
| CompleteV1 (serializedResult : string)
| FailV1 (error : thrown_value) (redact : bool) (retryDelayMs : option Z).

Definition owned_parameters (st : owned_statement) (task : owned_task) (workerId : string) : list sql_value :=
  fencedLease task workerId ++
  match st with
  | HeartbeatV1 leaseMs | HeartbeatV2 leaseMs => [VInt leaseMs]
  | ExpireOwned | ReleaseOwned | AcknowledgeCancel => []
  | CompleteV1 serializedResult => [VText serializedResult]
  | FailV1 error redact retryDelayMs =>
      [VJson (errorEnvelope error redact); match retryDelayMs with Some d => VInt d | None => VNull end]
  end.

(** [queryFencedWrite] followed by [expectOneRow]: each of the operations
    returns a field of the one row. *)
Definition ownedWrite {row} (answers : nat -> res query_error (list row)) : res fused_error row :=
  match (queryFencedWrite answers).2 with
  | Throw e => Throw (StatementFailed e)
  | Ret rows => expectOneRow rows
  end.

(** The operations: the statement with its parameters, and what the caller gets
    from the one row. *)
Section owned_operations.
Context (task : owned_task) (workerId : string).
Definition sends (st : owned_statement) : owned_statement * list sql_value :=
  (st, owned_parameters st task workerId).

Definition heartbeatOneLease (st : owned_statement)
    (answers : nat -> res query_error (list HB.HeartbeatBatchStatus)) :=
  (sends st, ownedWrite answers).
Definition heartbeatStatus (leaseMs : Z) := heartbeatOneLease (HeartbeatV1 leaseMs).
Definition tryHeartbeat (leaseMs : Z) := heartbeatOneLease (HeartbeatV2 leaseMs).
Definition heartbeat (leaseMs : Z) (answers : nat -> res query_error (list HB.HeartbeatBatchStatus))
    : res fused_error bool :=
  status <- (heartbeatStatus leaseMs answers).2 ;; Ret (bool_decide (status = HB.accepted)).

(** The row of [expire_owned_telemetry_v1] has the state of the retry when the
    expiry started one; the second component is the retry counter. *)
Definition expireOwned (answers : nat -> res query_error (list (EO.ExpireOwnedStatus * option FS.FailureStatus))) :=
  (sends ExpireOwned,
   row <- ownedWrite answers ;; Ret (row.1, match row.2 with Some _ => 1%nat | None => 0%nat end)).
Definition releaseOwned (answers : nat -> res query_error (list RO.ReleaseOwnedStatus)) :=
  (sends ReleaseOwned, ownedWrite answers).
Definition acknowledgeCancel (answers : nat -> res query_error (list bool)) :=
  (sends AcknowledgeCancel, ownedWrite answers).

(** [validateResult] runs before the statement and can throw. *)
Definition complete (validated : res error_id string) (answers : nat -> res query_error (list bool))
    : option (owned_statement * list sql_value) * res (error_id + fused_error) bool :=
  match validated with
  | Throw e => (None, Throw (inl e))
  | Ret serializedResult =>
      (Some (sends (CompleteV1 serializedResult)),
       match ownedWrite answers with Ret accepted => Ret accepted | Throw e => Throw (inr e) end)
  end.

(** The retry counter moves when the failure schedules another attempt. *)
Definition fail (error : thrown_value) (redact : bool) (retryDelayMs : option Z)
    (answers : nat -> res query_error (list FS.FailureStatus)) :=
  (sends (FailV1 error redact retryDelayMs),
   state <- ownedWrite answers ;;
   Ret (state, bool_decide (state = FS.ready) || bool_decide (state = FS.scheduled))).
End owned_operations.

(** ** Recovery counters *)

(** One call of [telemetryMetrics.retried.add]. *)
Record retried_add : Type := { ra_count : Z; ra_queue : ustring; ra_type : ustring }.

(** The loop over [retry_dimensions]: the key is the queue, a NUL and the
    type. *)
Definition retryKey (queue type : ustring) : ustring := queue ++ 0%N :: type.
Definition countRetry (m : jsmap ustring retried_add) (d : ustring * ustring) : jsmap ustring retried_add :=
  let key := retryKey d.1 d.2 in
  match jsget key m with
  | None => jsset key {| ra_count := 1; ra_queue := d.1; ra_type := d.2 |} m
  | Some r => jsset key {| ra_count := ra_count r + 1; ra_queue := ra_queue r; ra_type := ra_type r |} m
  end.
Definition sum_adds (l : list retried_add) : Z := foldr (fun a t => ra_count a + t) 0 l.
Definition recordRecoveryTelemetry (retried : Z) (dimensions : list (ustring * ustring)) : list retried_add :=
  let adds := (foldl countRetry [] dimensions).*2 in
  let attributed := sum_adds adds in
  adds ++ if attributed <? retried
          then [{| ra_count := retried - attributed; ra_queue := units "unknown"; ra_type := units "unknown" |}]
          else [].

(** ** Storable text *)
Lemma default_storeUnit before u output :
  default (before ++ [u]) (storeUnit before u output) =
    default before output ++ [if refused u then REPLACEMENT else u].
Proof. unfold storeUnit. by destruct (refused u), output. Qed.

Lemma storableLoop_two before u v rest output :
  storableLoop before (u :: v :: rest) output =
    if is_high u && is_low v
    then storableLoop (before ++ [u; v]) rest (o ← output; Some (o ++ [u; v]))
    else storableLoop (before ++ [u]) (v :: rest) (storeUnit before u output).
Proof. done. Qed.

Lemma points_two u v rest :
  points (u :: v :: rest) = if is_high u && is_low v then Pair u v :: points rest else One u :: points (v :: rest).
Proof. done. Qed.

Lemma storableLoop_spec rest : forall before output,
  default (before ++ rest) (storableLoop before rest output) = default before output ++ storable_spec rest.
Proof.
  induction rest as [rest IH] using (induction_ltof1 _ (@length N)). unfold ltof in IH. intros before output.
  destruct rest as [|u [|v rest]].
  - by rewrite !app_nil_r.
  - apply default_storeUnit.
  - unfold storable_spec. rewrite storableLoop_two, points_two. destruct (is_high u && is_low v).
    + change (u :: v :: rest) with ([u; v] ++ rest). rewrite app_assoc, (IH rest) by (simpl; lia).
      destruct output; simpl; by rewrite <- app_assoc.
    + change (u :: v :: rest) with ([u] ++ v :: rest). rewrite app_assoc, (IH (v :: rest)) by (simpl; lia).
      rewrite default_storeUnit, <- app_assoc. done.
Qed.

Lemma storableText_spec text : storableText text = storable_spec text.
Proof. apply (storableLoop_spec text [] None). Qed.

Definition storable_point (p : point) : Prop :=
  match p with Pair u v => is_high u = true /\ is_low v = true | One u => refused u = false end.

Lemma points_app_point p l : storable_point p -> points (point_units p ++ l) = p :: points l.
Proof.
  destruct p as [u v|u]; simpl; [by intros [-> ->]|]. intros Hu. destruct l as [|v l]; [done|].
  destruct (is_high u) eqn:E; [|done]. unfold refused, is_surrogate, is_high in *. lia.
Qed.

Lemma points_flat ps : Forall storable_point ps -> points (flat_map point_units ps) = ps.
Proof. induction 1 as [|p ps Hp _ IH]; simpl; [done|]. by rewrite points_app_point, IH. Qed.

Lemma store_points_ok text : Forall storable_point (map store_point (points text)).
Proof.
  apply Forall_fmap. eapply Forall_impl; [apply points_ok|]. intros [u v|u]; [done|]. intros _. simpl.
  by destruct (refused u) eqn:E.
Qed.

(** A text that jsonb stores: no NUL, no surrogate outside a pair. *)
Definition storable (text : ustring) : Prop := Forall storable_point (points text).

Lemma storableText_storable text : storable (storableText text).
Proof.
  rewrite storableText_spec. unfold storable, storable_spec. rewrite points_flat; apply store_points_ok.
Qed.

Lemma storableText_unchanged text : storable text -> storableText text = text.
Proof.
  intros Hs. rewrite storableText_spec. unfold storable_spec. rewrite <- (points_units text) at 2. f_equal.
  induction Hs as [|p ps Hp _ IH]; simpl; [done|]. rewrite IH.
  destruct p as [u v|u]; [done|]. simpl in *. by rewrite Hp.
Qed.

(** The stored text of an error is the text with each NUL and each
    surrogate outside a pair replaced by U+FFFD, and everything else kept; the
    result is always storable, and storable text does not change. *)
Theorem storable_text_exact text :
  storableText text = flat_map point_units (map store_point (points text)) /\
  storable (storableText text) /\ length (storableText text) = length text /\
  (storable text -> storableText text = text).
Proof.
  split_and!; [apply storableText_spec|apply storableText_storable| |apply storableText_unchanged].
  rewrite storableText_spec. unfold storable_spec. rewrite <- (points_units text) at 2.
  induction (points text) as [|[u v|u] ps IH]; simpl; by rewrite ?IH.
Qed.

(** C37: A redacted failure carries nothing of the error: its envelope and its
    telemetry are the same for every error.  An envelope that is not redacted
    is storable in every field, and names the durable replay conflict that the
    error wraps. *)
Theorem envelope_redacts_and_stores error error' :
  errorEnvelope error true = errorEnvelope error' true /\
  errorForTelemetry error true = errorForTelemetry error' true /\
  (let e := errorEnvelope error false in
   storable (en_name e) /\ storable (en_message e) /\
   (forall stack, en_stack e = Some (Some stack) -> storable stack) /\
   forall name message stack conflict, error = AnError name message stack (Some conflict) ->
     storable conflict -> en_name e = conflict).
Proof.
  split_and!; try done. destruct error as [name message stack conflict|text]; simpl;
    split_and!; try (by auto using storableText_storable); try (by intros).
  - intros st. destruct stack; simpl; [|done]. intros [= <-]. apply storableText_storable.
  - intros ???? [= -> -> -> ->]. apply storableText_unchanged.
  - unfold storable. vm_compute. repeat constructor.
Qed.

(** ** Batched heartbeats *)
Lemma slicesFrom_spec leases fuel : forall start, (length leases - start <= fuel)%nat ->
  concat (slicesFrom fuel start leases) = drop start leases /\
  Forall (fun b => b <> [] /\ (length b <= HEARTBEAT_STATEMENT_LEASE_LIMIT)%nat) (slicesFrom fuel start leases).
Proof.
  induction fuel as [|fuel IH]; intros start Hf; simpl; [by rewrite drop_ge by lia|].
  destruct (Nat.ltb_spec start (length leases)); [|by rewrite drop_ge by lia].
  destruct (IH (start + HEARTBEAT_STATEMENT_LEASE_LIMIT)%nat) as [IH1 IH2];
    [unfold HEARTBEAT_STATEMENT_LEASE_LIMIT; lia|].
  split; [simpl; by rewrite IH1, <- drop_drop, take_drop|].
  constructor; [|done]. split; [|rewrite length_take; lia].
  intros Hn%(f_equal length). rewrite length_take, length_drop in Hn.
  unfold HEARTBEAT_STATEMENT_LEASE_LIMIT in Hn. simpl length in Hn. lia.
Qed.

Lemma sendBatches_spec answers batches : forall i statuses,
  match sendBatches answers i batches statuses with
  | (sent, Ret _) => sent = batches
  | (sent, Throw e) => sent `prefix_of` batches /\ sent <> [] /\
      (queryFencedWrite (answers (i + length sent - 1)%nat)).2 = Throw e
  end.
Proof.
  induction batches as [|b l IH]; intros i statuses; simpl; [done|].
  destruct ((queryFencedWrite (answers i)).2) as [rows|e] eqn:E; simpl.
  - specialize (IH (S i) (foldl (fun m row => jsset row.1 row.2 m) statuses rows)).
    destruct (sendBatches _ _ _ _) as [sent [m|e]]; [by subst|].
    destruct IH as (Hp & Hne & He). split_and!; [by apply prefix_cons|done|].
    destruct sent as [|x sent]; [done|]. simpl in *. by rewrite <- He; do 3 f_equal; lia.
  - split_and!; [apply prefix_cons, prefix_nil|done|]. by replace (i + 1 - 1)%nat with i by lia.
Qed.

(** A heartbeat round sends every lease once, in the order of the tasks and
    at most a hundred in a statement, and returns statuses only after every
    statement succeeded.  When a statement fails, the call fails with the
    error of that statement, the last one sent. *)
Theorem heartbeat_round_sends_each_lease_once answers tasks leaseMs :
  let batches := heartbeatLeaseBatches tasks leaseMs in
  concat batches =
    map (fun t => {| hl_taskId := ot_id t; hl_fenceToken := ot_fence t; hl_leaseMs := leaseMs |}) tasks /\
  Forall (fun b => b <> [] /\ (length b <= HEARTBEAT_STATEMENT_LEASE_LIMIT)%nat) batches /\
  match heartbeatMany answers tasks leaseMs with
  | (sent, Ret _) => sent = batches
  | (sent, Throw e) => sent `prefix_of` batches /\ sent <> [] /\
      (queryFencedWrite (answers (length sent - 1)%nat)).2 = Throw e
  end.
Proof.
  intros batches. unfold batches, heartbeatLeaseBatches. set (leases := map _ tasks).
  destruct (slicesFrom_spec leases (length leases) 0) as [H1 H2]; [lia|].
  split_and!; [by rewrite H1|done|]. apply (sendBatches_spec answers _ 0 []).
Qed.

(** ** Recovery counters *)
Lemma sum_adds_perm l l' : l ≡ₚ l' -> sum_adds l = sum_adds l'.
Proof. induction 1; simpl; lia. Qed.

Lemma countRetry_sum m d : NoDup m.*1 ->
  NoDup (countRetry m d).*1 /\ sum_adds (countRetry m d).*2 = sum_adds m.*2 + 1.
Proof.
  intros Hm. unfold countRetry. destruct (jsget (retryKey d.1 d.2) m) as [r|] eqn:E;
    (split; [by apply jsset_NoDup|]);
    rewrite (sum_adds_perm _ _ (fmap_Permutation snd _ _ (jsset_perm _ _ m Hm))); simpl.
  - rewrite (sum_adds_perm _ _ (fmap_Permutation snd _ _ (jsdelete_perm _ r m Hm E))). simpl. lia.
  - rewrite jsdelete_absent by (by apply jsget_None). apply Z.add_comm.
Qed.

(** The counters of a recovery account for every retried task: they add up
    to the number that PostgreSQL reports, the tasks without a dimension under
    unknown names. *)
Theorem recovery_counts_every_retry retried dimensions
    (Hr : Z.of_nat (length dimensions) <= retried) :
  sum_adds (recordRecoveryTelemetry retried dimensions) = retried.
Proof.
  assert (H : forall l m, NoDup m.*1 ->
    sum_adds (foldl countRetry m l).*2 = sum_adds m.*2 + Z.of_nat (length l)).
  { induction l as [|d l IH]; intros m Hm; simpl; [lia|].
    destruct (countRetry_sum m d Hm) as [Hn Hs]. rewrite IH, Hs by done. lia. }
  unfold recordRecoveryTelemetry. rewrite H by constructor. cbn [sum_adds foldr fmap list_fmap].
  set (adds := (foldl countRetry [] dimensions).*2).
  assert (Happ : forall l l', sum_adds (l ++ l') = sum_adds l + sum_adds l').
  { intros l l'. unfold sum_adds. induction l as [|x l IH]; simpl; lia. }
  rewrite Happ. unfold adds. rewrite H by constructor. unfold sum_adds. simpl. case_match; simpl; lia.
Qed.

Lemma recovery_counts_every_retry_witness :
  sum_adds (recordRecoveryTelemetry 3 [(units "a", units "x"); (units "a", units "x")]) = 3.
Proof. apply (recovery_counts_every_retry 3 [(units "a", units "x"); (units "a", units "x")]). simpl. lia. Defined.

(** ** Fences *)

(** Every statement on an owned task names the lease by its three values,
    the task, the worker and the fence token, in the places that PostgreSQL
    checks, and a failure that is redacted carries no part of the error in any
    parameter. *)
Theorem owned_statements_carry_the_fence st task workerId :
  take 3 (owned_parameters st task workerId) = [VText (ot_id task); VText workerId; VInt (ot_fence task)] /\
  (forall task', owned_parameters st task workerId = owned_parameters st task' workerId -> task = task') /\
  forall error error' delay,
    owned_parameters (FailV1 error true delay) task workerId =
    owned_parameters (FailV1 error' true delay) task workerId.
Proof.
  split; [done|]. split; [|done]. intros [i f] H%(f_equal (take 3)). destruct task as [i' f'].
  by injection H as -> ->.
Qed.
