(* ===== verification/Replay.v ===== *)
(** * Replaying a handler against stored durable state

    [typescript/core/src/handler-replay.ts]: the [Replay] class, its handler
    context and [replayHandler].  Every context call is one step of the replay
    state; a checkpoint whose operation runs has a second step when the
    operation ends and a third when its promise settles, so calls of one
    handler can overlap.  A handler is any sequence of calls, whatever it does
    with the results and errors it gets.  [isDeepStrictEqual] of Node is a
    parameter. *)

From S2P Require Import Prelude Canonical.

Inductive DurableKind : Set := KCheckpoint | KWait | KSignal | KHumanWait | KChild.
#[export] Instance kind_eq_dec : EqDecision DurableKind.
Proof. solve_decision. Defined.

Record DurableName : Set := { dn_kind : DurableKind; dn_name : string }.
#[export] Instance name_eq_dec : EqDecision DurableName.
Proof. solve_decision. Defined.

Definition KINDS : list DurableKind := [KCheckpoint; KWait; KSignal; KHumanWait; KChild].

Inductive wait_mode : Set := Relative | Absolute.
#[export] Instance wait_mode_eq_dec : EqDecision wait_mode.
Proof. solve_decision. Defined.
Inductive ChildJoinMode : Set := Settled | AllSuccess.
#[export] Instance join_mode_eq_dec : EqDecision ChildJoinMode.
Proof. solve_decision. Defined.

(** ** Stored durable state

    The values are JSON with numbers of type [num]; the fields keyed by name
    are in the order of [Object.keys]. *)
Section state.
Context {num : Type}.
Abbreviation value := (json num).

Record StoredCheckpoint : Type := { sc_value : value; sc_fingerprint : option ustring }.
Record StoredWait : Type := { sw_mode : wait_mode; sw_wakeAt : Z; sw_pending : bool }.
(** A delivered payload, or a wait that has no delivery yet. *)
Inductive StoredSignal : Type := Delivered (payload : value) | SignalPending.
Record StoredHumanWait : Type := { sh_context : value; sh_result : option value }.

(** An outcome as JSON, whether its status is succeeded, and its result. *)
Record ChildOutcome : Type := { co_json : value; co_succeeded : bool; co_result : value }.
Record StoredChild : Type := {
  sch_type : string;
  sch_payload : value;
  sch_options : option value;
  sch_set : option ChildJoinMode;
  sch_outcome : option ChildOutcome;
}.

Record DurableState : Type := {
  checkpoints : jsmap string StoredCheckpoint;
  waits : jsmap string StoredWait;
  signals : jsmap string StoredSignal;
  humanWaits : jsmap string StoredHumanWait;
  children : jsmap string StoredChild;
}.

(** [Object.keys(this.state[STATE_FIELDS[kind]] ?? {})] *)
Definition keys_of (st : DurableState) (k : DurableKind) : list string :=
  match k with
  | KCheckpoint => (checkpoints st).*1
  | KWait => (waits st).*1
  | KSignal => (signals st).*1
  | KHumanWait => (humanWaits st).*1
  | KChild => (children st).*1
  end.
Definition storedNames (st : DurableState) : list DurableName :=
  flat_map (fun k => map (fun n => {| dn_kind := k; dn_name := n |}) (keys_of st k)) KINDS.
Definition isStored (st : DurableState) (k : DurableKind) (name : string) : bool :=
  bool_decide (name ∈ keys_of st k).

(** ** The replay *)
Record ChildTaskRequest : Type := {
  cr_name : string;
  cr_type : string;
  cr_payload : value;
  cr_options : option value;
}.

Inductive reason : Set := NewBeforeStored | Conflict.
Record Problem : Set := { pr_reason : reason; pr_at : DurableName }.

Inductive replay_throw : Type :=
| ReplayProblem (p : Problem)
| ReplaySuspension (at_ : DurableName)
| ReplayTypeError
| HandlerThrew (e : nat).

(** An execution of [checkpoint]: its operation runs, or it has a result. *)
Inductive execution : Type := Running | Finished (r : res replay_throw value).

Record Replay : Type := {
  seen : list DurableName;
  replayed : list DurableName;
  added : list DurableName;
  newCheckpoints : jsmap string (value * option ustring);
  childRequests : jsmap string (string * value * value);
  childSetRequest : option (list ChildTaskRequest * ChildJoinMode);
  humanContexts : jsmap string ustring;
  progress : option (value * Z);
  problem : option Problem;
  suspendedAt : option DurableName;
  (** [inFlightCheckpoints]: the execution of a name and its fingerprint. *)
  inFlightCheckpoints : jsmap string (nat * option ustring);
  executions : list (string * option ustring * execution);
}.
#[export] Instance eta_replay : Eta Replay := fun r =>
  {| seen := seen r; replayed := replayed r; added := added r; newCheckpoints := newCheckpoints r;
     childRequests := childRequests r; childSetRequest := childSetRequest r;
     humanContexts := humanContexts r; progress := progress r; problem := problem r;
     suspendedAt := suspendedAt r; inFlightCheckpoints := inFlightCheckpoints r; executions := executions r |}.

Definition newReplay : Replay :=
  {| seen := []; replayed := []; added := []; newCheckpoints := []; childRequests := [];
     childSetRequest := None; humanContexts := []; progress := None; problem := None;
     suspendedAt := None; inFlightCheckpoints := []; executions := [] |}.
End state.
Arguments DurableState : clear implicits.
Arguments Replay : clear implicits.
Arguments ChildTaskRequest : clear implicits.

Section replay.
Context {num : Type} `{JsNumber num}.
(** [isDeepStrictEqual] at the two types it is called with. *)
Context (deepEqualCall : string * json num * json num -> string * json num * json num -> bool).
Context (deepEqualSet : list (ChildTaskRequest num) * ChildJoinMode ->
                        list (ChildTaskRequest num) * ChildJoinMode -> bool).
Context (state : DurableState num) (allowNew : list string).
Abbreviation value := (json num).
Abbreviation act A := (stx (Replay num) replay_throw A).

Definition unused (r : Replay num) : list DurableName := filter (fun n => n ∉ seen r) (storedNames state).

Definition throwProblem : act unit := fun r =>
  match problem r with Some p => (r, Throw (ReplayProblem p)) | None => (r, Ret tt) end.

(** [fail]: the first problem is kept, and thrown every time. *)
Definition fail {A} (why : reason) (at_ : DurableName) : act A := fun r =>
  let p := default {| pr_reason := why; pr_at := at_ |} (problem r) in
  (r <| problem := Some p |>, Throw (ReplayProblem p)).

Definition suspend {A} (at_ : DurableName) : act A := fun r =>
  (r <| suspendedAt := Some (default at_ (suspendedAt r)) |>, Throw (ReplaySuspension at_)).

Definition stop : act unit :=
  throwProblem ;;-
  fun r => match suspendedAt r with Some at_ => (r, Throw (ReplaySuspension at_)) | None => (r, Ret tt) end.

(** The part of [ask] for a name that was not seen before. *)
Definition askFirst (k : DurableKind) (name : string) : act bool := fun r =>
  let at_ := {| dn_kind := k; dn_name := name |} in
  let r := r <| seen ::= fun l => l ++ [at_] |> in
  if isStored state k name then (r <| replayed ::= fun l => l ++ [at_] |>, Ret true)
  else
    let r := r <| added ::= fun l => l ++ [at_] |> in
    if bool_decide (name ∈ allowNew) then (r, Ret false)
    else match unused r with
         | [] => (r, Ret false)
         | _ :: _ => fail NewBeforeStored at_ r
         end.
Definition ask (k : DurableKind) (name : string) : act bool :=
  stop ;;-
  fun r => if bool_decide ({| dn_kind := k; dn_name := name |} ∈ seen r)
           then (r, Ret (isStored state k name)) else askFirst k name r.

Definition read (k : DurableKind) (name : string) : act unit :=
  stop ;;-
  fun r => let at_ := {| dn_kind := k; dn_name := name |} in
           if negb (isStored state k name) || bool_decide (at_ ∈ seen r) then (r, Ret tt)
           else (r <| seen ::= fun l => l ++ [at_] |> <| replayed ::= fun l => l ++ [at_] |>, Ret tt).

(** Inputs are compared only when both sides carry a fingerprint. *)
Definition checkInput (name : string) (stored requested : option ustring) : act unit :=
  match stored, requested with
  | Some a, Some b => if bool_decide (a = b) then st_ret tt
                      else fail Conflict {| dn_kind := KCheckpoint; dn_name := name |}
  | _, _ => st_ret tt
  end.

(** [getCheckpoint]: the value and fingerprint, or null. *)
Definition getCheckpoint (name : string) : act (option (value * option ustring)) :=
  read KCheckpoint name ;;-
  fun r => (r, Ret match jsget name (checkpoints state) with
                   | Some c => Some (sc_value c, sc_fingerprint c)
                   | None => jsget name (newCheckpoints r)
                   end).
Definition getWait (name : string) : act (option StoredWait) :=
  read KWait name ;;- st_ret (jsget name (waits state)).
Definition setProgress (v : value) : act Z :=
  stop ;;- fun r => let revision := default 0 (option_map snd (progress r)) + 1 in
                    (r <| progress := Some (v, revision) |>, Ret revision).

(** ** checkpoint *)

(** The synchronous part of an execution: a value, or [None] when its operation
    has to run. *)
Definition startExecution (name : string) (fingerprint : option ustring) : act (option value) :=
  isSaved <-- ask KCheckpoint name ;;
  match jsget name (checkpoints state), isSaved with
  | Some c, true => checkInput name (sc_fingerprint c) fingerprint ;;- st_ret (Some (sc_value c))
  | _, _ =>
      r <-- st_get ;;
      match jsget name (newCheckpoints r) with
      | Some (v, f) => checkInput name f fingerprint ;;- st_ret (Some v)
      | None => st_ret None
      end
  end.

(** The call: it joins the execution in flight, or starts one and registers
    it.  Returns the number of the execution. *)
Definition checkpointCall (name : string) (fingerprint : option ustring) : act nat := fun r =>
  match jsget name (inFlightCheckpoints r) with
  | Some (id, pendingFingerprint) =>
      (throwProblem ;;- checkInput name pendingFingerprint fingerprint ;;- st_ret id) r
  | None =>
      let (r, result) := startExecution name fingerprint r in
      let id := length (executions r) in
      let e := match result with
               | Ret (Some v) => Finished (Ret v) | Ret None => Running | Throw e => Finished (Throw e)
               end in
      (r <| executions ::= fun l => l ++ [(name, fingerprint, e)] |>
         <| inFlightCheckpoints ::= jsset name (id, fingerprint) |>, Ret id)
  end.

(** The operation of execution [id] ends with [result]. *)
Definition operationEnds (id : nat) (result : res replay_throw value) (r : Replay num) : Replay num :=
  match executions r !! id with
  | Some (name, fingerprint, Running) =>
      let (r, result) :=
        (v <-- st_lift result ;;
         stop ;;-
         st_modify (fun r => r <| newCheckpoints ::= jsset name (v, fingerprint) |>) ;;-
         st_ret v) r in
      r <| executions ::= <[id := (name, fingerprint, Finished result)]> |>
  | _ => r
  end.

(** The finally block after [await execution]. *)
Definition checkpointSettles (id : nat) (r : Replay num) : Replay num :=
  match executions r !! id with
  | Some (name, _, Finished _) =>
      match jsget name (inFlightCheckpoints r) with
      | Some (id', _) => if (id' =? id)%nat then r <| inFlightCheckpoints ::= jsdelete name |> else r
      | None => r
      end
  | _ => r
  end.

(** ** Waits

    [ask] answers whether the state holds the name, which is then read from
    the state. *)
Definition timer (name : string) (mode : wait_mode) (wakeAt : option Z) : act unit :=
  let at_ := {| dn_kind := KWait; dn_name := name |} in
  _ <-- ask KWait name ;;
  match jsget name (waits state) with
  | None => suspend at_
  | Some w =>
      if negb (bool_decide (sw_mode w = mode)) then fail Conflict at_
      else if match wakeAt with Some t => negb (sw_wakeAt w =? t) | None => false end then fail Conflict at_
      else if sw_pending w then suspend at_ else st_ret tt
  end.
Definition sleep (name : string) : act unit := timer name Relative None.
Definition sleepUntil (name : string) (wakeAt : Z) : act unit := timer name Absolute (Some wakeAt).

Definition waitForSignal (name : string) : act value :=
  let at_ := {| dn_kind := KSignal; dn_name := name |} in
  _ <-- ask KSignal name ;;
  match jsget name (signals state) with
  | Some (Delivered payload) => st_ret payload
  | _ => suspend at_
  end.

(** The texts of two values that the replay compares. *)
Definition same (a b : value) : bool := match sameJson a b with Some b => b | None => false end.

Definition waitForHuman (name : string) (context : value) : act value :=
  let at_ := {| dn_kind := KHumanWait; dn_name := name |} in
  throwProblem ;;-
  r <-- st_get ;;
  match jsget name (humanContexts r) with
  | None => st_modify (fun r => r <| humanContexts ::= jsset name (stringify context) |>)
  | Some first => if bool_decide (first = stringify context) then st_ret tt else fail Conflict at_
  end ;;-
  _ <-- ask KHumanWait name ;;
  match jsget name (humanWaits state) with
  | None => suspend at_
  | Some w =>
      if negb (same (sh_context w) context) then fail Conflict at_
      else match sh_result w with None => suspend at_ | Some v => st_ret v end
  end.

(** ** Children *)
Definition childRequestJson (type : string) (payload : value) (options : option value) : value :=
  JObj [(units "type", JStr (units type)); (units "payload", payload);
        (units "options", default (JObj []) options)].

Definition checkChildRequest (request : ChildTaskRequest num) (set_ : option ChildJoinMode) : act unit :=
  let at_ := {| dn_kind := KChild; dn_name := cr_name request |} in
  match jsget (cr_name request) (children state) with
  | None => st_ret tt
  | Some c =>
      if negb (same (childRequestJson (cr_type request) (cr_payload request) (cr_options request))
                    (childRequestJson (sch_type c) (sch_payload c) (sch_options c)))
      then fail Conflict at_
      else if negb (bool_decide (sch_set c = set_)) then fail Conflict at_ else st_ret tt
  end.

(** One child of [runChild]: its stored outcome, or [None] when it suspends. *)
Definition child (request : ChildTaskRequest num) : act (option ChildOutcome) :=
  let name := cr_name request in
  let at_ := {| dn_kind := KChild; dn_name := name |} in
  let call := (cr_type request, cr_payload request, default (JObj []) (cr_options request)) in
  throwProblem ;;-
  r <-- st_get ;;
  match jsget name (childRequests r) with
  | None => st_modify (fun r => r <| childRequests ::= jsset name call |>)
  | Some first => if deepEqualCall first call then st_ret tt else fail Conflict at_
  end ;;-
  checkChildRequest request None ;;-
  r <-- st_get ;;
  match list_find (fun n => n <> name) ((children state).*1 ++ (childRequests r).*1) with
  | Some _ => fail Conflict at_
  | None => st_ret tt
  end ;;-
  _ <-- ask KChild name ;;
  st_ret (c ← jsget name (children state); sch_outcome c).
Definition runChild (request : ChildTaskRequest num) : act value :=
  outcome <-- child request ;;
  match outcome with
  | None => suspend {| dn_kind := KChild; dn_name := cr_name request |}
  | Some o => if co_succeeded o then st_ret (co_result o) else st_throw ReplayTypeError
  end.

Fixpoint st_each {A} (f : A -> act unit) (l : list A) : act unit :=
  match l with [] => st_ret tt | x :: l => f x ;;- st_each f l end.

(** [children.map((request) => this.ask("child", request.name) ? ... )] *)
Fixpoint askChildren (l : list (ChildTaskRequest num)) : act (list (string * option ChildOutcome)) :=
  match l with
  | [] => st_ret []
  | q :: l =>
      _ <-- ask KChild (cr_name q) ;;
      rest <-- askChildren l ;;
      st_ret ((cr_name q, c ← jsget (cr_name q) (children state); sch_outcome c) :: rest)
  end.

Definition childSet (requests : list (ChildTaskRequest num)) (mode : ChildJoinMode)
    : act (list (string * value)) :=
  throwProblem ;;-
  let names := map cr_name requests in
  if negb (bool_decide (NoDup names)) then st_throw ReplayTypeError else
  r <-- st_get ;;
  match childSetRequest r with
  | None => st_modify (fun r => r <| childSetRequest := Some (requests, mode) |>)
  | Some first => if deepEqualSet first (requests, mode) then st_ret tt
                  else fail Conflict {| dn_kind := KChild; dn_name := default "child set"%string (head names) |}
  end ;;-
  match (children state).*1 with
  | [] => st_ret tt
  | _ :: _ =>
      match list_find (fun n => n ∉ (children state).*1) names, list_find (fun n => n ∉ names) (children state).*1 with
      | Some (_, missing), _ | None, Some (_, missing) => fail Conflict {| dn_kind := KChild; dn_name := missing |}
      | None, None => st_ret tt
      end
  end ;;-
  st_each (fun q => checkChildRequest q (Some mode)) requests ;;-
  outcomes <-- askChildren requests ;;
  match list_find (fun o => o.2 = None) outcomes with
  | Some (_, (name, _)) => suspend {| dn_kind := KChild; dn_name := name |}
  | None =>
      let settled := omap (fun o => option_map (pair o.1) o.2) outcomes in
      match mode with
      | Settled => st_ret (map (fun o => (o.1, co_json o.2)) settled)
      | AllSuccess =>
          if forallb (fun o => co_succeeded o.2) settled
          then st_ret (map (fun o => (o.1, co_result o.2)) settled)
          else st_throw ReplayTypeError
      end
  end.

(** ** A handler under replay *)
Inductive replay_event : Type :=
| GetCheckpoint (name : string)
| GetWait (name : string)
| SetProgress (v : value)
| Checkpoint (name : string) (fingerprint : option ustring)
| OperationEnds (id : nat) (result : res replay_throw value)
| CheckpointSettles (id : nat)
| Sleep (name : string)
| SleepUntil (name : string) (wakeAt : Z)
| WaitForSignal (name : string)
| WaitForHuman (name : string) (context : value)
| RunChild (request : ChildTaskRequest num)
| RunChildren (requests : list (ChildTaskRequest num)) (mode : ChildJoinMode).

Definition replay_step (r : Replay num) (e : replay_event) : Replay num :=
  match e with
  | GetCheckpoint name => (getCheckpoint name r).1
  | GetWait name => (getWait name r).1
  | SetProgress v => (setProgress v r).1
  | Checkpoint name fingerprint => (checkpointCall name fingerprint r).1
  | OperationEnds id result => operationEnds id result r
  | CheckpointSettles id => checkpointSettles id r
  | Sleep name => (sleep name r).1
  | SleepUntil name wakeAt => (sleepUntil name wakeAt r).1
  | WaitForSignal name => (waitForSignal name r).1
  | WaitForHuman name context => (waitForHuman name context r).1
  | RunChild request => (runChild request r).1
  | RunChildren requests mode => (childSet requests mode r).1
  end.

(** [HandlerReplayNames] *)
Record Names : Type := { nm_replayed : list DurableName; nm_new : list DurableName; nm_unused : list DurableName }.
Definition names (r : Replay num) : Names :=
  {| nm_replayed := replayed r; nm_new := added r; nm_unused := unused r |}.

Inductive replay_outcome : Type := Completed (result : value) | Suspended (at_ : DurableName).
Inductive report_error : Type := HandlerReplayError (p : Problem) (n : Names) | HandlerError (e : replay_throw).

(** The end of [replayHandler]: [finished] is what the handler returned or
    threw after the calls that led to [r]. *)
Definition replayReport (finished : res replay_throw value) (r : Replay num)
    : res report_error (Names * replay_outcome) :=
  match problem r with
  | Some p => Throw (HandlerReplayError p (names r))
  | None =>
      match suspendedAt r, finished with
      | Some at_, _ => Ret (names r, Suspended at_)
      | None, Throw e => Throw (HandlerError e)
      | None, Ret v => Ret (names r, Completed v)
      end
  end.
Definition replayHandler (calls : list replay_event) (finished : res replay_throw value) :=
  replayReport finished (run replay_step newReplay calls).

(** ** What every call keeps *)
Record replay_ok (r : Replay num) : Prop := {
  ro_seen : NoDup (seen r);
  ro_split : replayed r ++ added r ≡ₚ seen r;
  ro_replayed : forall n, n ∈ replayed r -> n ∈ storedNames state;
  ro_added : forall n, n ∈ added r -> n ∉ storedNames state;
  ro_order : problem r = None -> (exists n, n ∈ added r /\ dn_name n ∉ allowNew) -> unused r = [];
}.

(** The invariant, and that a problem or a suspension is never replaced. *)
Record advances (r r' : Replay num) : Prop := {
  ad_ok : replay_ok r -> replay_ok r';
  ad_problem : forall p, problem r = Some p -> problem r' = Some p;
  ad_suspended : forall a, suspendedAt r = Some a -> suspendedAt r' = Some a;
}.
#[local] Instance advances_preorder : PreOrder advances.
Proof. split; [by intros r; split|]. intros x y z [] []. split; eauto. Qed.

Definition advancing {A} (m : act A) : Prop := forall r, advances r (m r).1.

(** Calls that change none of the fields the invariant reads. *)
Lemma advances_same r r' :
  seen r' = seen r -> replayed r' = replayed r -> added r' = added r -> problem r' = problem r ->
  suspendedAt r' = suspendedAt r -> advances r r'.
Proof.
  intros E1 E2 E3 E4 E5. split; rewrite ?E4, ?E5; [|done|done]. intros [H1 H2 H3 H4 H5].
  split; unfold unused in *; rewrite ?E1, ?E2, ?E3, ?E4; done.
Qed.

Lemma advancing_bind {A B} (m : act A) (k : A -> act B) : advancing m -> (forall a, advancing (k a)) -> advancing (st_bind m k).
Proof.
  intros Hm Hk r. unfold st_bind. specialize (Hm r). destruct (m r) as [r' [a|e]]; simpl in *; [|done].
  etrans; [done|apply Hk].
Qed.
Lemma advancing_ret {A} (a : A) : advancing (st_ret a).
Proof. done. Qed.
Lemma advancing_throw {A} e : advancing (st_throw e : act A).
Proof. done. Qed.
Lemma advancing_get : advancing st_get.
Proof. done. Qed.
Lemma advancing_lift {A} (x : res replay_throw A) : advancing (st_lift x).
Proof. done. Qed.
Lemma advancing_throwProblem : advancing throwProblem.
Proof. intros r. unfold throwProblem. by destruct (problem r). Qed.

Lemma advancing_fail {A} why at_ : advancing (fail why at_ : act A).
Proof.
  intros r. split; [|by simpl; intros p ->|done]. intros [H1 H2 H3 H4 H5]. by split.
Qed.
Lemma advancing_suspend {A} at_ : advancing (suspend at_ : act A).
Proof.
  intros r. split; [|done|by simpl; intros a ->]. intros [H1 H2 H3 H4 H5]. by split.
Qed.
Lemma advancing_stop : advancing stop.
Proof.
  apply advancing_bind; [apply advancing_throwProblem|]. intros [] r. by destruct (suspendedAt r).
Qed.

Lemma isStored_spec k name : isStored state k name = true <-> {| dn_kind := k; dn_name := name |} ∈ storedNames state.
Proof.
  unfold isStored. rewrite bool_decide_eq_true.
  rewrite (list_elem_of_In (storedNames state)). unfold storedNames. rewrite in_flat_map. split.
  - intros Hn. exists k. split; [by destruct k; simpl; tauto|]. by apply list_elem_of_In, list_elem_of_fmap_2.
  - intros (k' & _ & Hin). apply list_elem_of_In, list_elem_of_fmap in Hin as (n & [= -> ->] & Hn). done.
Qed.

Lemma unused_shrinks r at_ : unused r = [] -> unused (r <| seen ::= fun l => l ++ [at_] |>) = [].
Proof.
  unfold unused. simpl. intros Hu. apply elem_of_nil_inv. intros n [Hn Hs]%list_elem_of_filter.
  assert (Hin : n ∈ filter (fun n => n ∉ seen r) (storedNames state)) by (apply list_elem_of_filter; set_solver).
  rewrite Hu in Hin. set_solver.
Qed.

(** A name that is seen for the first time. *)
Lemma first_seen r at_ (stored : bool) :
  replay_ok r -> at_ ∉ seen r -> (stored = true <-> at_ ∈ storedNames state) ->
  let r' := if stored then r <| seen ::= fun l => l ++ [at_] |> <| replayed ::= fun l => l ++ [at_] |>
            else r <| seen ::= fun l => l ++ [at_] |> <| added ::= fun l => l ++ [at_] |> in
  problem r' = problem r ->
  (stored = false -> dn_name at_ ∉ allowNew -> problem r = None -> unused r' = []) -> replay_ok r'.
Proof.
  intros [H1 H2 H3 H4 H5] Hs Hst r' _ Hnew. destruct stored; split; subst r'; cbn -[storedNames] in *.
  - apply NoDup_app. split_and!; [done|set_solver|apply NoDup_singleton].
  - rewrite <- H2, <- app_assoc, (Permutation_app_comm [at_]), app_assoc. done.
  - intros n. rewrite elem_of_app, list_elem_of_singleton. intros [?| ->]; [auto|by apply Hst].
  - done.
  - intros Hp Hx. by apply (unused_shrinks r at_), H5.
  - apply NoDup_app. split_and!; [done|set_solver|apply NoDup_singleton].
  - by rewrite app_assoc, H2.
  - done.
  - intros n. rewrite elem_of_app, list_elem_of_singleton. intros [?| ->]; [auto|]. intros Hn%Hst. done.
  - intros Hp (n & Hn & Ha). apply elem_of_app in Hn as [Hn|Hn%list_elem_of_singleton].
    + apply (unused_shrinks r at_), H5; [done|]. by exists n.
    + subst n. by apply Hnew.
Qed.

Lemma askFirst_advances k name r :
  {| dn_kind := k; dn_name := name |} ∉ seen r -> advances r (askFirst k name r).1.
Proof.
  intros Hs. set (at_ := {| dn_kind := k; dn_name := name |}) in *. unfold askFirst. fold at_.
  pose proof (isStored_spec k name) as Hst. fold at_ in Hst.
  destruct (isStored state k name).
  - split; [|done|done]. intros Hr. by apply (first_seen r at_ true).
  - set (r' := r <| seen ::= _ |> <| added ::= _ |>).
    assert (Hr' : (bool_decide (name ∈ allowNew) = true \/ unused r' = []) -> advances r r').
    { intros Hu. split; [|done|done]. intros Hr. apply (first_seen r at_ false); [done|done|done|done|].
      intros _ Ha _. destruct Hu as [Hu%bool_decide_eq_true|Hu]; [done|exact Hu]. }
    case_bool_decide; [by apply Hr'; left|]. destruct (unused r') eqn:Eu; [by apply Hr'; right|].
    split; [|by simpl; intros p ->|done]. intros Hr.
    destruct Hr as [H1 H2 H3 H4 H5]. split; cbn -[storedNames]; try done.
    + apply NoDup_app. split_and!; [done|set_solver|apply NoDup_singleton].
    + by rewrite app_assoc, H2.
    + intros n. rewrite elem_of_app, list_elem_of_singleton. intros [?| ->]; [auto|]. by intros Hn%Hst.
Qed.

Lemma advancing_ask k name : advancing (ask k name).
Proof.
  apply advancing_bind; [apply advancing_stop|]. intros [] r. case_bool_decide; [done|]. by apply askFirst_advances.
Qed.

Lemma advancing_read k name : advancing (read k name).
Proof.
  apply advancing_bind; [apply advancing_stop|]. intros [] r. pose proof (isStored_spec k name) as Hst.
  destruct (isStored state k name); [|done]. simpl. case_bool_decide; [done|].
  split; [|done|done]. intros Hr. by apply (first_seen r _ true).
Qed.

Create HintDb replay.
#[local] Hint Resolve advancing_ret advancing_throw advancing_get advancing_lift advancing_throwProblem advancing_fail advancing_suspend
  advancing_stop advancing_ask advancing_read : replay.

(** Opens a call into its primitive steps. *)
Ltac keep :=
  repeat first
    [ progress (intros)
    | progress auto with replay
    | apply advancing_bind
    | case_match ].

Lemma advancing_checkInput name a b : advancing (checkInput name a b).
Proof. unfold checkInput. keep. Qed.
#[local] Hint Resolve advancing_checkInput : replay.

Lemma advancing_modify (f : Replay num -> Replay num) : (forall r, advances r (f r)) -> advancing (st_modify f).
Proof. intros Hf r. apply Hf. Qed.

Lemma advancing_timer name mode wakeAt : advancing (timer name mode wakeAt).
Proof. unfold timer. keep. Qed.

Lemma advancing_waitForSignal name : advancing (waitForSignal name).
Proof. unfold waitForSignal. keep. Qed.

Lemma advancing_waitForHuman name context : advancing (waitForHuman name context).
Proof. unfold waitForHuman. keep. apply advancing_modify. intros. by apply advances_same. Qed.

Lemma advancing_checkChildRequest q set_ : advancing (checkChildRequest q set_).
Proof. unfold checkChildRequest. keep. Qed.
#[local] Hint Resolve advancing_checkChildRequest : replay.

Lemma advancing_runChild q : advancing (runChild q).
Proof.
  unfold runChild, child. keep. apply advancing_modify. intros. by apply advances_same.
Qed.

Lemma advancing_each {A} (f : A -> act unit) l : (forall x, advancing (f x)) -> advancing (st_each f l).
Proof. intros Hf. induction l as [|x l IH]; simpl; keep. Qed.

Lemma advancing_askChildren l : advancing (askChildren l).
Proof. induction l as [|q l IH]; simpl; keep. Qed.
#[local] Hint Resolve advancing_askChildren advancing_each : replay.

Lemma advancing_childSet l mode : advancing (childSet l mode).
Proof.
  unfold childSet. keep. apply advancing_modify. intros. by apply advances_same.
Qed.

Lemma advancing_startExecution name fingerprint : advancing (startExecution name fingerprint).
Proof. unfold startExecution. keep. Qed.

Lemma advancing_checkpointCall name fingerprint : advancing (checkpointCall name fingerprint).
Proof.
  intros r. unfold checkpointCall. destruct (jsget name (inFlightCheckpoints r)) as [[id f]|].
  - revert r. change (advancing (throwProblem ;;- checkInput name f fingerprint ;;- st_ret id)). keep.
  - pose proof (advancing_startExecution name fingerprint r) as Hs.
    destruct (startExecution name fingerprint r) as [r' x]. simpl in *. etrans; [exact Hs|].
    by apply advances_same.
Qed.

Lemma operationEnds_advances id result r : advances r (operationEnds id result r).
Proof.
  unfold operationEnds. destruct (executions r !! id) as [[[name f] [|x]]|]; try done.
  assert (Hk : advancing (v <-- st_lift result ;; stop ;;-
    st_modify (fun r => r <| newCheckpoints ::= jsset name (v, f) |>) ;;- st_ret v)).
  { keep. apply advancing_modify. intros. by apply advances_same. }
  specialize (Hk r). destruct (st_bind _ _ r) as [r' x]. simpl in *. etrans; [exact Hk|]. by apply advances_same.
Qed.

Lemma checkpointSettles_advances id r : advances r (checkpointSettles id r).
Proof. unfold checkpointSettles. repeat case_match; try done. by apply advances_same. Qed.

Lemma replay_step_advances r e : advances r (replay_step r e).
Proof.
  destruct e; cbn [replay_step].
  - revert r. change (advancing (getCheckpoint name)). unfold getCheckpoint. keep.
  - revert r. change (advancing (getWait name)). unfold getWait. keep.
  - revert r. change (advancing (setProgress v)). unfold setProgress. keep. intros r. by apply advances_same.
  - apply advancing_checkpointCall.
  - apply operationEnds_advances.
  - apply checkpointSettles_advances.
  - apply advancing_timer.
  - apply advancing_timer.
  - apply advancing_waitForSignal.
  - apply advancing_waitForHuman.
  - apply advancing_runChild.
  - apply advancing_childSet.
Qed.

Lemma replay_run_advances calls r : advances r (run replay_step r calls).
Proof.
  revert r. induction calls as [|e calls IH]; intros r; simpl; [done|].
  etrans; [apply replay_step_advances|apply IH].
Qed.

Lemma newReplay_ok : replay_ok newReplay.
Proof. split; simpl; try constructor; set_solver. Qed.

Lemma replay_run_ok calls : replay_ok (run replay_step newReplay calls).
Proof. apply (ad_ok _ _ (replay_run_advances calls newReplay)), newReplay_ok. Qed.

Lemma names_account r : NoDup (storedNames state) -> replay_ok r ->
  replayed r ++ unused r ≡ₚ storedNames state.
Proof.
  intros Hst [H1 H2 H3 H4 _]. pose proof H1 as Hnd. rewrite <- H2 in Hnd.
  apply NoDup_app in Hnd as (Hr & Hd & _). apply NoDup_Permutation.
  - apply NoDup_app. split_and!; [done| |by apply NoDup_filter].
    intros n Hn [Hs _]%list_elem_of_filter. apply Hs. rewrite <- H2. set_solver.
  - done.
  - intros n. rewrite elem_of_app. unfold unused. rewrite list_elem_of_filter. split; [naive_solver|].
    intros Hn. destruct (decide (n ∈ seen r)) as [Hs|Hs]; [left|by right].
    rewrite <- H2, elem_of_app in Hs. destruct Hs as [?|Ha]; [done|]. by apply H4 in Ha.
Qed.


(** The first problem of a replay is its result: after a call failed,
    nothing that the handler does later, returns or throws, and no error that
    it catches, changes the problem that the replay reports. *)
Theorem first_problem_is_reported calls calls' finished p
    (Hp : problem (run replay_step newReplay calls) = Some p) :
  exists n, replayHandler (calls ++ calls') finished = Throw (HandlerReplayError p n).
Proof.
  unfold replayHandler, replayReport. rewrite run_app.
  rewrite (ad_problem _ _ (replay_run_advances calls' _) p Hp). by eexists.
Qed.

(** ** Handlers that make one call after the other *)
Inductive request : Type :=
| QCheckpoint (name : string) (fingerprint : option ustring)
| QSleep (name : string)
| QSleepUntil (name : string) (wakeAt : Z)
| QSignal (name : string)
| QHuman (name : string) (context : value)
| QChild (q : ChildTaskRequest num).
Inductive program : Type := Return (v : value) | Do (q : request) (k : value -> program).

(** A checkpoint call awaited to its end; [op] is what its operation returns. *)
Definition awaitCheckpoint (name : string) (fingerprint : option ustring) (op : value) : act value := fun r =>
  match checkpointCall name fingerprint r with
  | (r, Throw e) => (r, Throw e)
  | (r, Ret id) =>
      let r := operationEnds id (Ret op) r in
      (checkpointSettles id r,
       match executions r !! id with Some (_, _, Finished x) => x | _ => Throw (HandlerThrew 0) end)
  end.

Definition perform (ops : string -> value) (q : request) : act value :=
  match q with
  | QCheckpoint name fingerprint => awaitCheckpoint name fingerprint (ops name)
  | QSleep name => sleep name ;;- st_ret JNull
  | QSleepUntil name wakeAt => sleepUntil name wakeAt ;;- st_ret JNull
  | QSignal name => waitForSignal name
  | QHuman name context => waitForHuman name context
  | QChild q => runChild q
  end.
Fixpoint exec (ops : string -> value) (p : program) : act value :=
  match p with Return v => st_ret v | Do q k => v <-- perform ops q ;; exec ops (k v) end.
End replay.

(** ** One awaited checkpoint *)
Section awaited.
Context {num : Type} `{JsNumber num}.
Context (state : DurableState num) (allowNew : list string).
Context (name : string) (fingerprint : option ustring) (op : json num).

(** Everything that a later call reads, beside the executions. *)
Definition core (r : Replay num) :=
  (seen r, replayed r, added r, newCheckpoints r, childRequests r, humanContexts r, problem r, suspendedAt r).

Lemma await_finished r r0 v : inFlightCheckpoints r = [] -> inFlightCheckpoints r0 = [] ->
  startExecution state allowNew name fingerprint r = (r0, Ret (Some v)) ->
  exists r1, awaitCheckpoint state allowNew name fingerprint op r = (r1, Ret v) /\ core r1 = core r0 /\
    inFlightCheckpoints r1 = [].
Proof.
  intros Hf Hf0 E. unfold awaitCheckpoint, checkpointCall. rewrite Hf, E. cbn [jsget].
  set (r1 := r0 <| executions ::= _ |> <| inFlightCheckpoints ::= _ |>).
  assert (El : executions r1 !! length (executions r0) = Some (name, fingerprint, Finished (Ret v))).
  { subst r1. simpl. by rewrite lookup_app_r, Nat.sub_diag by lia. }
  assert (Ef : inFlightCheckpoints r1 = [(name, (length (executions r0), fingerprint))]).
  { subst r1. simpl. by rewrite Hf0. }
  assert (Ec : core r1 = core r0) by done. clearbody r1.
  unfold operationEnds, checkpointSettles. rewrite El. cbn beta iota. rewrite El, Ef. cbn [jsget].
  rewrite decide_True by done. rewrite Nat.eqb_refl. eexists. split; [done|]. split; [done|].
  simpl. rewrite Ef. unfold jsdelete. by rewrite filter_cons_False by naive_solver.
Qed.

Lemma await_running r r0 : inFlightCheckpoints r = [] -> inFlightCheckpoints r0 = [] ->
  problem r0 = None -> suspendedAt r0 = None ->
  startExecution state allowNew name fingerprint r = (r0, Ret None) ->
  exists r1, awaitCheckpoint state allowNew name fingerprint op r = (r1, Ret op) /\
    core r1 = core (r0 <| newCheckpoints ::= jsset name (op, fingerprint) |>) /\ inFlightCheckpoints r1 = [].
Proof.
  intros Hf Hf0 Hp Hs E. unfold awaitCheckpoint, checkpointCall. rewrite Hf, E. cbn [jsget].
  set (r1 := r0 <| executions ::= _ |> <| inFlightCheckpoints ::= _ |>).
  assert (El : executions r1 !! length (executions r0) = Some (name, fingerprint, Running)).
  { subst r1. simpl. by rewrite lookup_app_r, Nat.sub_diag by lia. }
  assert (Hlt : (length (executions r0) < length (executions r1))%nat).
  { subst r1. simpl. rewrite length_app. simpl. lia. }
  assert (Ef : inFlightCheckpoints r1 = [(name, (length (executions r0), fingerprint))]).
  { subst r1. simpl. by rewrite Hf0. }
  assert (Ec : core (r1 <| newCheckpoints ::= jsset name (op, fingerprint) |>) =
               core (r0 <| newCheckpoints ::= jsset name (op, fingerprint) |>)) by done.
  assert (Hp1 : problem r1 = None) by done. assert (Hs1 : suspendedAt r1 = None) by done. clearbody r1.
  unfold operationEnds. rewrite El. unfold st_bind, st_lift, stop, throwProblem, st_bind. rewrite Hp1, Hs1.
  cbn beta iota. cbn [st_modify st_ret].
  set (r2 := _ <| executions ::= _ |>).
  assert (El2 : executions r2 !! length (executions r0) = Some (name, fingerprint, Finished (Ret op))).
  { subst r2. simpl. by apply list_lookup_insert_eq. }
  assert (Ef2 : inFlightCheckpoints r2 = inFlightCheckpoints r1) by done.
  assert (Ec2 : core r2 = core (r0 <| newCheckpoints ::= jsset name (op, fingerprint) |>)) by done.
  clearbody r2. unfold checkpointSettles. rewrite El2, Ef2, Ef. cbn [jsget]. rewrite decide_True by done.
  rewrite Nat.eqb_refl. eexists. split; [done|]. split; [done|].
  simpl. rewrite Ef2, Ef. unfold jsdelete. by rewrite filter_cons_False by naive_solver.
Qed.

Lemma await_throws r r0 e : inFlightCheckpoints r = [] ->
  startExecution state allowNew name fingerprint r = (r0, Throw e) ->
  exists r1, awaitCheckpoint state allowNew name fingerprint op r = (r1, Throw e).
Proof.
  intros Hf E. unfold awaitCheckpoint, checkpointCall. rewrite Hf, E. cbn [jsget].
  set (r1 := r0 <| executions ::= _ |> <| inFlightCheckpoints ::= _ |>).
  assert (El : executions r1 !! length (executions r0) = Some (name, fingerprint, Finished (Throw e))).
  { subst r1. simpl. by rewrite lookup_app_r, Nat.sub_diag by lia. }
  clearbody r1. unfold operationEnds. rewrite El. cbn beta iota. rewrite El. by eexists.
Qed.
End awaited.

(** ** Calls that save no checkpoint *)
Section reading.
Context {num : Type} `{JsNumber num}.
Context (deepEqualCall : string * json num * json num -> string * json num * json num -> bool).
Context (state : DurableState num) (allowNew : list string).
Abbreviation act A := (stx (Replay num) replay_throw A).

Definition reading {A} (m : act A) : Prop := forall r,
  newCheckpoints (m r).1 = newCheckpoints r /\ inFlightCheckpoints (m r).1 = inFlightCheckpoints r.

Lemma reading_bind {A B} (m : act A) (k : A -> act B) : reading m -> (forall a, reading (k a)) -> reading (st_bind m k).
Proof.
  intros Hm Hk r. unfold st_bind. specialize (Hm r). destruct (m r) as [r' [a|e]]; simpl in *; [|done].
  destruct (Hk a r') as [E1 E2]. by rewrite E1, E2.
Qed.
Lemma reading_ret {A} (a : A) : reading (st_ret a).
Proof. done. Qed.
Lemma reading_throw {A} e : reading (st_throw e : act A).
Proof. done. Qed.
Lemma reading_get : reading st_get.
Proof. done. Qed.
Lemma reading_modify f : (forall r, newCheckpoints (f r) = newCheckpoints r /\
  inFlightCheckpoints (f r) = inFlightCheckpoints r) -> reading (st_modify f).
Proof. intros Hf r. apply Hf. Qed.
Lemma reading_throwProblem : reading throwProblem.
Proof. intros r. unfold throwProblem. by destruct (problem r). Qed.
Lemma reading_fail {A} why at_ : reading (fail why at_ : act A).
Proof. done. Qed.
Lemma reading_suspend {A} at_ : reading (suspend at_ : act A).
Proof. done. Qed.
Lemma reading_ask k name : reading (ask state allowNew k name).
Proof.
  apply reading_bind; [apply reading_bind; [apply reading_throwProblem|]|].
  - intros _ r. by destruct (suspendedAt r).
  - intros _ r. case_bool_decide; [done|]. unfold askFirst. repeat case_match; done.
Qed.

Create HintDb reading.
#[local] Hint Resolve reading_ret reading_throw reading_get reading_throwProblem reading_fail reading_suspend reading_ask : reading.
#[local] Hint Extern 2 (reading (st_modify _)) => apply reading_modify; intros ?; split; reflexivity : reading.
Ltac quieten := repeat first [progress (intros) | progress auto with reading | apply reading_bind | case_match].

Lemma reading_perform ops q : (forall name f, q <> QCheckpoint name f) -> reading (perform deepEqualCall state allowNew ops q).
Proof.
  intros Hq. destruct q as [name f|name|name wakeAt|name|name context|q]; cbn [perform].
  - by destruct (Hq name f).
  - unfold sleep, timer. quieten.
  - unfold sleepUntil, timer. quieten.
  - unfold waitForSignal. quieten.
  - unfold waitForHuman. quieten.
  - unfold runChild, child, checkChildRequest. quieten.
Qed.
End reading.

(** ** Replaying what a run recorded *)
Section recorded.
Context {num : Type} `{JsNumber num}.
Context (deepEqualCall : string * json num * json num -> string * json num * json num -> bool).
Context (state : DurableState num) (allowNew allowNew' : list string).
Context (final : jsmap string (json num * option ustring)).

(** The stored state after a run that saved the checkpoints [final]. *)
Definition recorded : DurableState num :=
  {| checkpoints := checkpoints state ++
       map (fun e => (e.1, {| sc_value := e.2.1; sc_fingerprint := e.2.2 |})) final;
     waits := waits state; signals := signals state; humanWaits := humanWaits state;
     children := children state |}.

Lemma recorded_checkpoint name :
  jsget name (checkpoints recorded) =
    match jsget name (checkpoints state) with
    | Some c => Some c
    | None => option_map (fun x => {| sc_value := x.1; sc_fingerprint := x.2 |}) (jsget name final)
    end.
Proof.
  unfold recorded. simpl. rewrite jsget_app. destruct (jsget name (checkpoints state)); [done|].
  induction final as [|[k [v f]] l IH]; simpl; [done|]. case_decide; [done|]. exact IH.
Qed.

Lemma stored_get {V} name (m : jsmap string V) : name ∈ m.*1 <-> jsget name m <> None.
Proof. pose proof (jsget_None name m). destruct (decide (name ∈ m.*1)); naive_solver. Qed.

(** The states of the recording run [r] and of the replay [r']. *)
Record sim (r r' : Replay num) : Prop := {
  sm_problem : problem r = None /\ problem r' = None;
  sm_suspended : suspendedAt r = None /\ suspendedAt r' = None;
  sm_seen : seen r' = seen r;
  sm_new : newCheckpoints r' = [] /\ added r' = [];
  sm_saved : forall n x, jsget n (newCheckpoints r) = Some x -> jsget n final = Some x;
  sm_requests : childRequests r' = childRequests r /\ humanContexts r' = humanContexts r;
  sm_flight : inFlightCheckpoints r = [] /\ inFlightCheckpoints r' = [];
}.

(** The fields of the recording run that only a checkpoint changes. *)
Definition run_fields (r : Replay num) :=
  (newCheckpoints r, childRequests r, humanContexts r, inFlightCheckpoints r).

Lemma ask_Ret k name r r1 b : ask state allowNew k name r = (r1, Ret b) ->
  b = isStored state k name /\ problem r1 = None /\ suspendedAt r1 = None /\ run_fields r1 = run_fields r /\
  executions r1 = executions r /\
  seen r1 = (let at_ := {| dn_kind := k; dn_name := name |} in
             if bool_decide (at_ ∈ seen r) then seen r else seen r ++ [at_]).
Proof.
  unfold ask, stop, throwProblem, st_bind. destruct (problem r) eqn:Ep; [done|].
  destruct (suspendedAt r) eqn:Es; [done|]. case_bool_decide; [by intros [= <- <-]|].
  unfold askFirst. destruct (isStored state k name); [by intros [= <- <-]|].
  case_bool_decide; [by intros [= <- <-]|]. destruct (unused _ _); [by intros [= <- <-]|done].
Qed.

Lemma ask_stored k name (r : Replay num) : problem r = None -> suspendedAt r = None ->
  isStored recorded k name = true ->
  exists r1, ask recorded allowNew' k name r = (r1, Ret true) /\ problem r1 = None /\ suspendedAt r1 = None /\
    run_fields r1 = run_fields r /\ added r1 = added r /\ executions r1 = executions r /\
    seen r1 = (let at_ := {| dn_kind := k; dn_name := name |} in
               if bool_decide (at_ ∈ seen r) then seen r else seen r ++ [at_]).
Proof.
  intros Ep Es Hst. unfold ask, stop, throwProblem, st_bind. rewrite Ep, Es. simpl.
  case_bool_decide as Hs; [rewrite Hst; by exists r|]. unfold askFirst. rewrite Hst. by eexists.
Qed.

Lemma ask_sim k name r r' r1 b : sim r r' -> isStored recorded k name = true ->
  ask state allowNew k name r = (r1, Ret b) ->
  exists r1', ask recorded allowNew' k name r' = (r1', Ret true) /\ sim r1 r1'.
Proof.
  intros [[P1 P2] [S1 S2] Hs [N1 N2] Hsv [R1 R2] [F1 F2]] Hst Ha.
  destruct (ask_Ret _ _ _ _ _ Ha) as (_ & Pr & Sr & Hf & _ & Hseen).
  destruct (ask_stored k name r' P2 S2 Hst) as (r1' & -> & Pr' & Sr' & Hf' & Had & _ & Hseen').
  unfold run_fields in Hf, Hf'. injection Hf as Hf1 Hf2 Hf3 Hf4. injection Hf' as Hf1' Hf2' Hf3' Hf4'.
  exists r1'. split; [done|]. split; try (split; congruence).
  - rewrite Hseen, Hseen', Hs. done.
  - intros n x. rewrite Hf1. apply Hsv.
Qed.

(** [m'] on the recorded state answers like [m] whenever [m] returns. *)
Definition simulates {A} (m m' : stx (Replay num) replay_throw A) : Prop := forall r r' r1 a,
  sim r r' -> m r = (r1, Ret a) -> exists r1', m' r' = (r1', Ret a) /\ sim r1 r1'.
Definition never {A} (m : stx (Replay num) replay_throw A) : Prop := forall r r1 a, m r <> (r1, Ret a).

Lemma simulates_never {A} (m m' : stx (Replay num) replay_throw A) : never m -> simulates m m'.
Proof. intros Hn r r' r1 a _ E. by apply Hn in E. Qed.
Lemma simulates_ret {A} (a : A) : simulates (st_ret a) (st_ret a).
Proof. intros r r' r1 x Hs [= <- <-]. by exists r'. Qed.
Lemma simulates_bind {A B} (m m' : stx (Replay num) replay_throw A) (k k' : A -> stx (Replay num) replay_throw B) :
  simulates m m' -> (forall a, simulates (k a) (k' a)) -> simulates (st_bind m k) (st_bind m' k').
Proof.
  intros Hm Hk r r' r1 b Hs. unfold st_bind. destruct (m r) as [r2 [a|e]] eqn:E; [|done].
  destruct (Hm _ _ _ _ Hs E) as (r2' & -> & Hs2). apply Hk. exact Hs2.
Qed.
Lemma never_bind {A B} (m : stx (Replay num) replay_throw A) (k : A -> stx (Replay num) replay_throw B) :
  never m \/ (forall a, never (k a)) -> never (st_bind m k).
Proof.
  intros Hn r r1 b. unfold st_bind. destruct (m r) as [r2 [a|e]] eqn:E; [|done].
  destruct Hn as [Hn|Hn]; [by apply Hn in E|apply Hn].
Qed.
Lemma never_fail {A} why at_ : never (fail why at_ : stx (Replay num) replay_throw A).
Proof. by intros r r1 a. Qed.
Lemma never_suspend {A} at_ : never (suspend at_ : stx (Replay num) replay_throw A).
Proof. by intros r r1 a. Qed.
Lemma never_throw {A} e : never (st_throw e : stx (Replay num) replay_throw A).
Proof. by intros r r1 a. Qed.

Lemma simulates_throwProblem : simulates throwProblem throwProblem.
Proof.
  intros r r' r1 [] Hs. unfold throwProblem. destruct (problem r); [done|]. intros [= <-].
  rewrite (proj2 (sm_problem _ _ Hs)). by exists r'.
Qed.

(** A name of another kind than checkpoint is stored in both states or in
    none. *)
Lemma recorded_stored k name : k <> KCheckpoint -> isStored recorded k name = isStored state k name.
Proof. by destruct k. Qed.

Lemma simulates_ask k name : isStored recorded k name = true ->
  simulates (_ <-- ask state allowNew k name ;; st_ret tt) (_ <-- ask recorded allowNew' k name ;; st_ret tt).
Proof.
  intros Hst r r' r1 [] Hs. unfold st_bind. destruct (ask state allowNew k name r) as [r2 [b|e]] eqn:E; [|done].
  intros [= <-]. destruct (ask_sim k name r r' r2 b Hs Hst E) as (r2' & -> & Hs2). by exists r2'.
Qed.

Create HintDb simulation.
#[local] Hint Resolve simulates_ret simulates_throwProblem simulates_never never_fail never_suspend never_throw
  : simulation.

Lemma simulates_asked {A} k name (m m' : stx (Replay num) replay_throw A) :
  k <> KCheckpoint -> (isStored state k name = false -> never m) -> simulates m m' ->
  simulates (_ <-- ask state allowNew k name ;; m) (_ <-- ask recorded allowNew' k name ;; m').
Proof.
  intros Hk Hn Hm. destruct (isStored state k name) eqn:Est.
  - rewrite <- (recorded_stored k name Hk) in Est. pose proof (simulates_ask k name Est) as Ha.
    intros r r' r1 a Hs. specialize (Ha r r'). unfold st_bind in *.
    destruct (ask state allowNew k name r) as [r2 [b|e]]; [|done]. intros E.
    destruct (Ha r2 tt Hs eq_refl) as (r2' & E' & Hs2).
    destruct (ask recorded allowNew' k name r') as [r3 [b'|e']]; [|done]. injection E' as ->.
    by apply (Hm r2 r2').
  - apply simulates_never, never_bind. right. intros _. auto.
Qed.

Lemma stored_false k name : isStored state k name = false -> name ∉ keys_of state k.
Proof. unfold isStored. by intros ?%bool_decide_eq_false. Qed.

Lemma simulates_timer name mode wakeAt :
  simulates (timer state allowNew name mode wakeAt) (timer recorded allowNew' name mode wakeAt).
Proof.
  unfold timer. apply simulates_asked; [done| |].
  - intros Hn%stored_false%jsget_None. rewrite Hn. auto with simulation.
  - change (waits recorded) with (waits state). destruct (jsget name (waits state)); [|auto with simulation].
    repeat case_match; auto with simulation.
Qed.

Lemma simulates_signal name : simulates (waitForSignal state allowNew name) (waitForSignal recorded allowNew' name).
Proof.
  unfold waitForSignal. apply simulates_asked; [done| |].
  - intros Hn%stored_false%jsget_None. rewrite Hn. auto with simulation.
  - change (signals recorded) with (signals state).
    destruct (jsget name (signals state)) as [[|]|]; auto with simulation.
Qed.

Lemma simulates_get {B} (k k' : Replay num -> stx (Replay num) replay_throw B) :
  (forall r r', sim r r' -> simulates (k r) (k' r')) ->
  simulates (r <-- st_get ;; k r) (r <-- st_get ;; k' r).
Proof. intros Hk r r' r1 b Hs. unfold st_bind. cbn [st_get]. by apply Hk. Qed.

Lemma simulates_modify (f : Replay num -> Replay num) :
  (forall r r', sim r r' -> sim (f r) (f r')) -> simulates (st_modify f) (st_modify f).
Proof. intros Hf r r' r1 [] Hs [= <-]. exists (f r'). split; [done|auto]. Qed.

Lemma simulates_human name context :
  simulates (waitForHuman state allowNew name context) (waitForHuman recorded allowNew' name context).
Proof.
  unfold waitForHuman. apply simulates_bind; [apply simulates_throwProblem|]. intros _.
  apply simulates_get. intros r r' Hs. rewrite (proj2 (sm_requests _ _ Hs)). apply simulates_bind.
  - destruct (jsget name (humanContexts r)) as [first|]; [case_match; auto with simulation|].
    apply simulates_modify. intros x x' [? ? ? ? ? [? E] ?]. split; try done. simpl. by rewrite E.
  - intros _. apply simulates_asked; [done| |].
    + intros Hn%stored_false%jsget_None. rewrite Hn. auto with simulation.
    + change (humanWaits recorded) with (humanWaits state).
      destruct (jsget name (humanWaits state)); [|auto with simulation]. repeat case_match; auto with simulation.
Qed.

(** Every value that [m] returns satisfies [P]. *)
Definition returns {A} (P : A -> Prop) (m : stx (Replay num) replay_throw A) : Prop :=
  forall r r1 a, m r = (r1, Ret a) -> P a.
Lemma returns_bind {A B} (P : B -> Prop) (m : stx (Replay num) replay_throw A) (k : A -> stx (Replay num) replay_throw B) :
  (forall a, returns P (k a)) -> returns P (st_bind m k).
Proof. intros Hk r r1 b. unfold st_bind. destruct (m r) as [r2 [a|e]]; [apply Hk|done]. Qed.

Lemma child_absent q : jsget (cr_name q) (children state) = None ->
  returns (fun o => o = None) (child deepEqualCall state allowNew q).
Proof.
  intros Hn. unfold child. rewrite Hn. do 7 (apply returns_bind; intros ?). by intros ? ? ? [= _ <-].
Qed.

Lemma simulates_child q :
  simulates (runChild deepEqualCall state allowNew q) (runChild deepEqualCall recorded allowNew' q).
Proof.
  unfold runChild. set (c := fun o : option ChildOutcome => match o with None => _ | Some o => _ end).
  destruct (decide (cr_name q ∈ (children state).*1)) as [Hin|Hout]; cycle 1.
  { apply simulates_never. intros r r1 v. unfold st_bind.
    destruct (child deepEqualCall state allowNew q r) as [r2 [o|e]] eqn:E; [|done].
    apply jsget_None in Hout. by rewrite (child_absent q Hout r r2 o E). }
  apply simulates_bind; [|intros o; unfold c; repeat case_match; auto with simulation].
  unfold child. change (children recorded) with (children state).
  apply simulates_bind; [apply simulates_throwProblem|]. intros _.
  apply simulates_get. intros r r' Hs. rewrite (proj1 (sm_requests _ _ Hs)). apply simulates_bind.
  { destruct (jsget (cr_name q) (childRequests r)); [case_match; auto with simulation|].
    apply simulates_modify. intros x x' [? ? ? ? ? [E ?] ?]. split; try done. simpl. by rewrite E. }
  intros _. apply simulates_bind.
  { unfold checkChildRequest. change (children recorded) with (children state).
    repeat case_match; auto with simulation. }
  intros _. apply simulates_get. intros x x' Hx. rewrite (proj1 (sm_requests _ _ Hx)). apply simulates_bind.
  { case_match; auto with simulation. }
  intros _. apply simulates_asked; [done| |auto with simulation].
  intros Hn%stored_false. done.
Qed.

(** ** Checkpoints under simulation *)
Definition compatible (a b : option ustring) : bool :=
  match a, b with Some a, Some b => bool_decide (a = b) | _, _ => true end.

Lemma checkInput_eq name a b (r : Replay num) :
  checkInput name a b r =
    if compatible a b then (r, Ret tt) else fail Conflict {| dn_kind := KCheckpoint; dn_name := name |} r.
Proof. unfold checkInput, compatible. destruct a, b; try done. by case_bool_decide. Qed.

Lemma isStored_get st (name : string) :
  isStored (num:=num) st KCheckpoint name = match jsget name (checkpoints st) with Some _ => true | None => false end.
Proof.
  unfold isStored. simpl. destruct (jsget name (checkpoints st)) eqn:E.
  - apply bool_decide_eq_true. apply stored_get. by rewrite E.
  - apply bool_decide_eq_false. by apply jsget_None.
Qed.

Lemma start_Ret name f r r0 x : startExecution state allowNew name f r = (r0, Ret x) ->
  ask state allowNew KCheckpoint name r = (r0, Ret (isStored state KCheckpoint name)) /\
  match jsget name (checkpoints state), jsget name (newCheckpoints r) with
  | Some c, _ => compatible (sc_fingerprint c) f = true /\ x = Some (sc_value c)
  | None, Some (v, f') => compatible f' f = true /\ x = Some v
  | None, None => x = None
  end.
Proof.
  unfold startExecution, st_bind. destruct (ask state allowNew KCheckpoint name r) as [r2 [b|e]] eqn:E; [|done].
  destruct (ask_Ret _ _ _ _ _ E) as (-> & _ & _ & Hf & _). injection Hf as Hf _ _ _.
  rewrite isStored_get. destruct (jsget name (checkpoints state)) as [c|].
  - rewrite checkInput_eq. destruct (compatible _ _); [|done]. by intros [= <- <-].
  - cbn [st_get]. rewrite Hf. destruct (jsget name (newCheckpoints r)) as [[v f']|]; [|by intros [= <- <-]].
    rewrite checkInput_eq. destruct (compatible _ _); [|done]. by intros [= <- <-].
Qed.

Lemma start_recorded name f r r' r0 c : sim r r' ->
  ask state allowNew KCheckpoint name r = (r0, Ret (isStored state KCheckpoint name)) ->
  jsget name (checkpoints recorded) = Some c -> compatible (sc_fingerprint c) f = true ->
  exists r0', startExecution recorded allowNew' name f r' = (r0', Ret (Some (sc_value c))) /\ sim r0 r0'.
Proof.
  intros Hs Ha Hc Hf. assert (Hst : isStored recorded KCheckpoint name = true) by (by rewrite isStored_get, Hc).
  destruct (ask_sim KCheckpoint name r r' r0 _ Hs Hst Ha) as (r0' & Ha' & Hs0). exists r0'. split; [|done].
  unfold startExecution, st_bind. rewrite Ha', Hc, checkInput_eq, Hf. done.
Qed.

(** Simulated states with the same cores are simulated, for the checkpoints
    saved so far. *)
Lemma sim_core r r' r1 r1' nc : sim r r' ->
  core r1 = core (r <| newCheckpoints := nc |>) -> core r1' = core r' ->
  inFlightCheckpoints r1 = [] -> inFlightCheckpoints r1' = [] ->
  (forall n x, jsget n nc = Some x -> jsget n final = Some x) -> sim r1 r1'.
Proof.
  intros [[P1 P2] [S1 S2] Hse [N1 N2] Hsv [R1 R2] _] E E' F1 F2 Hnc. unfold core in *. simpl in *.
  repeat (apply pair_equal_spec in E as [E ?]). repeat (apply pair_equal_spec in E' as [E' ?]).
  split; try (split; congruence); try congruence. intros n x. replace (newCheckpoints r1) with nc by congruence.
  apply Hnc.
Qed.

Lemma core_new (r : Replay num) : core r = core (r <| newCheckpoints := newCheckpoints r |>).
Proof. done. Qed.

Lemma simulates_checkpoint name f op op' r r' r1 v : sim r r' ->
  awaitCheckpoint state allowNew name f op r = (r1, Ret v) ->
  (forall n x, jsget n (newCheckpoints r1) = Some x -> jsget n final = Some x) ->
  exists r1', awaitCheckpoint recorded allowNew' name f op' r' = (r1', Ret v) /\ sim r1 r1'.
Proof.
  intros Hs Ha Hfin. pose proof (sm_flight _ _ Hs) as [F F'].
  destruct (startExecution state allowNew name f r) as [r0 [x|e]] eqn:E; cycle 1.
  { destruct (await_throws state allowNew name f op r r0 e F E) as [r2 E2]. rewrite E2 in Ha. done. }
  destruct (start_Ret name f r r0 x E) as [Hask Hx].
  destruct (ask_Ret _ _ _ _ _ Hask) as (_ & Pr & Sr & Hf & _ & _). injection Hf as Hn _ _ Hfl. rewrite F in Hfl.
  assert (Hgo : forall c nc, jsget name (checkpoints recorded) = Some c -> compatible (sc_fingerprint c) f = true ->
    v = sc_value c -> core r1 = core (r0 <| newCheckpoints := nc |>) -> inFlightCheckpoints r1 = [] ->
    newCheckpoints r1 = nc ->
    exists r1', awaitCheckpoint recorded allowNew' name f op' r' = (r1', Ret v) /\ sim r1 r1').
  { intros c nc Hc Hcf -> Ec Fc Enc. destruct (start_recorded name f r r' r0 c Hs Hask Hc Hcf) as (r0' & E' & Hs0).
    destruct (await_finished recorded allowNew' name f op' r' r0' (sc_value c) F'
      (proj2 (sm_flight _ _ Hs0)) E') as (r1' & -> & Ec' & Fc').
    exists r1'. split; [done|]. apply (sim_core r0 r0' r1 r1' nc); try done. by rewrite <- Enc. }
  destruct (jsget name (checkpoints state)) as [c|] eqn:Ec.
  - destruct Hx as [Hcf ->].
    destruct (await_finished state allowNew name f op r r0 (sc_value c) F Hfl E) as (r2 & E2 & Hcore & Fl).
    rewrite E2 in Ha. injection Ha as -> <-.
    apply (Hgo c (newCheckpoints r0)); try done; [by rewrite recorded_checkpoint, Ec|by inversion Hcore].
  - destruct (jsget name (newCheckpoints r)) as [[w f']|] eqn:En.
    + destruct Hx as [Hcf ->].
      destruct (await_finished state allowNew name f op r r0 w F Hfl E) as (r2 & E2 & Hcore & Fl).
      rewrite E2 in Ha. injection Ha as -> ->.
      apply (Hgo {| sc_value := v; sc_fingerprint := f' |} (newCheckpoints r0)); try done; [|by inversion Hcore].
      by rewrite recorded_checkpoint, Ec, (sm_saved _ _ Hs name (v, f') En).
    + subst x. destruct (await_running state allowNew name f op r r0 F Hfl Pr Sr E) as (r2 & E2 & Hcore & Fl).
      rewrite E2 in Ha. injection Ha as -> ->.
      assert (Hnc : newCheckpoints r1 = jsset name (v, f) (newCheckpoints r0)) by (by inversion Hcore).
      apply (Hgo {| sc_value := v; sc_fingerprint := f |} (jsset name (v, f) (newCheckpoints r0))); try done.
      * rewrite recorded_checkpoint, Ec, (Hfin name (v, f)); [done|].
        rewrite Hnc, jsget_set. by rewrite decide_True.
      * simpl. destruct f; [by apply bool_decide_eq_true|done].
Qed.

Lemma simulates_perform ops ops' q r r' r1 v : sim r r' ->
  perform deepEqualCall state allowNew ops q r = (r1, Ret v) ->
  (forall n x, jsget n (newCheckpoints r1) = Some x -> jsget n final = Some x) ->
  exists r1', perform deepEqualCall recorded allowNew' ops' q r' = (r1', Ret v) /\ sim r1 r1'.
Proof.
  intros Hs Hp Hfin. destruct q as [name f|name|name wakeAt|name|name context|q]; cbn [perform] in *.
  - by eapply simulates_checkpoint.
  - eapply simulates_bind; [apply simulates_timer|intros; apply simulates_ret|done|done].
  - eapply simulates_bind; [apply simulates_timer|intros; apply simulates_ret|done|done].
  - by eapply simulates_signal.
  - by eapply simulates_human.
  - by eapply simulates_child.
Qed.

Lemma perform_grows ops q r r1 v : inFlightCheckpoints r = [] ->
  perform deepEqualCall state allowNew ops q r = (r1, Ret v) ->
  inFlightCheckpoints r1 = [] /\
  forall n x, jsget n (newCheckpoints r) = Some x -> jsget n (newCheckpoints r1) = Some x.
Proof.
  intros F Hp. assert (Hc : (exists name f, q = QCheckpoint name f) \/ forall name f, q <> QCheckpoint name f)
    by (destruct q; eauto).
  destruct Hc as [(name & f & ->)|Hq]; cycle 1.
  { destruct (reading_perform deepEqualCall state allowNew ops q) with (r := r) as [E1 E2]; [naive_solver|].
    rewrite Hp in E1, E2. simpl in *. by rewrite E1, E2. }
  cbn [perform] in Hp. destruct (startExecution state allowNew name f r) as [r0 [x|e]] eqn:E; cycle 1.
  { destruct (await_throws state allowNew name f (ops name) r r0 e F E) as [r2 E2]. by rewrite E2 in Hp. }
  destruct (start_Ret name f r r0 x E) as [Hask Hx].
  destruct (ask_Ret _ _ _ _ _ Hask) as (_ & Pr & Sr & Hf & _ & _). injection Hf as Hn _ _ Hfl. rewrite F in Hfl.
  destruct x as [w|].
  - destruct (await_finished state allowNew name f (ops name) r r0 w F Hfl E) as (r2 & E2 & Hcore & Fl).
    rewrite E2 in Hp. injection Hp as -> ->. split; [done|].
    assert (Enc : newCheckpoints r1 = newCheckpoints r) by (rewrite <- Hn; by inversion Hcore). by rewrite Enc.
  - destruct (await_running state allowNew name f (ops name) r r0 F Hfl Pr Sr E) as (r2 & E2 & Hcore & Fl).
    rewrite E2 in Hp. injection Hp as -> _. split; [done|].
    assert (Enc : newCheckpoints r1 = jsset name (ops name, f) (newCheckpoints r))
      by (rewrite <- Hn; by inversion Hcore).
    intros n y Hy. rewrite Enc, jsget_set. case_decide; [|done]. subst n.
    destruct (jsget name (checkpoints state)); [by destruct Hx as [_ ?]|].
    rewrite Hy in Hx. destruct y. by destruct Hx as [_ ?].
Qed.

Lemma exec_grows ops p : forall r r1 v, inFlightCheckpoints r = [] ->
  exec deepEqualCall state allowNew ops p r = (r1, Ret v) ->
  forall n x, jsget n (newCheckpoints r) = Some x -> jsget n (newCheckpoints r1) = Some x.
Proof.
  induction p as [v0|q k IH]; intros r r1 v F; cbn [exec]; [by intros [= <- <-]|].
  unfold st_bind. destruct (perform _ _ _ _ _ r) as [r2 [a|e]] eqn:E; [|done]. intros Hx n x Hn.
  destruct (perform_grows _ _ _ _ _ F E) as [F2 G]. eapply IH; [exact F2|exact Hx|auto].
Qed.

Lemma simulates_exec ops ops' p : forall r r' r1 v, sim r r' -> newCheckpoints r1 = final ->
  exec deepEqualCall state allowNew ops p r = (r1, Ret v) ->
  exists r1', exec deepEqualCall recorded allowNew' ops' p r' = (r1', Ret v) /\ sim r1 r1'.
Proof.
  induction p as [v0|q k IH]; intros r r' r1 v Hs Hfin; cbn [exec].
  { intros [= <- <-]. by exists r'. }
  unfold st_bind. destruct (perform _ _ _ _ _ r) as [r2 [a|e]] eqn:E; [|done]. intros Hx.
  destruct (perform_grows _ _ _ _ _ (proj1 (sm_flight _ _ Hs)) E) as [F2 _].
  destruct (simulates_perform ops ops' q r r' r2 a Hs E) as (r2' & -> & Hs2).
  { intros n x Hn. rewrite <- Hfin. by eapply exec_grows. }
  by eapply IH.
Qed.
End recorded.


(** A handler that saves two checkpoints and reads a delivered signal. *)
Definition sample_state : DurableState Z :=
  {| checkpoints := [("a"%string, {| sc_value := JNum 1; sc_fingerprint := None |})]; waits := [];
     signals := [("go"%string, Delivered (JBool true))]; humanWaits := []; children := [] |}.
Definition sample_program : program (num:=Z) :=
  Do (QCheckpoint "a" None) (fun a => Do (QSignal "go") (fun b =>
  Do (QCheckpoint "c" (Some (units "f"))) (fun c => Return (JArr [a; b; c])))).
Definition same_call (a b : string * json Z * json Z) : bool :=
  bool_decide (a.1.1 = b.1.1) && bool_decide (canon a.1.2 = canon b.1.2) && bool_decide (canon a.2 = canon b.2).
Definition sample_recording : Replay Z * res replay_throw (json Z) :=
  exec same_call sample_state [] (fun _ => JStr (units "v")) sample_program newReplay.

Lemma sample_recording_returns :
  exec same_call sample_state [] (fun _ => JStr (units "v")) sample_program newReplay = (sample_recording.1, Ret (JArr [JNum 1; JBool true; JStr (units "v")])).
Proof. vm_compute. done. Qed.


Definition same_requests (a b : list (ChildTaskRequest Z) * ChildJoinMode) : bool := bool_decide (length a.1 = length b.1).
Definition sample_handler : list (replay_event (num:=Z)) :=
  [Checkpoint "a" None; CheckpointSettles 0; WaitForSignal "go"; Checkpoint "new" None; OperationEnds 1 (Ret (JNum 5))].
Definition sample_replay : Replay Z :=
  run (replay_step same_call same_requests sample_state []) newReplay sample_handler.

Lemma sample_keys : NoDup (storedNames sample_state).
Proof. apply (bool_decide_unpack _). vm_compute. done. Qed.
Lemma sample_report :
  replayHandler same_call same_requests sample_state [] sample_handler (Ret (JNum 5)) =
    Ret (names sample_state sample_replay, Completed (JNum 5)).
Proof. vm_compute. done. Qed.


(** A new name before the stored ones is a problem, and stays the result. *)
Definition early_new : Problem :=
  {| pr_reason := NewBeforeStored; pr_at := {| dn_kind := KCheckpoint; dn_name := "new" |} |}.
Lemma first_problem_is_reported_witness :
  exists n, replayHandler same_call same_requests sample_state []
    ([Checkpoint "new" None] ++ sample_handler) (Ret JNull) = Throw (HandlerReplayError early_new n).
Proof.
  exact (first_problem_is_reported same_call same_requests sample_state [] [Checkpoint "new" None]
    sample_handler (Ret JNull) early_new ltac:(vm_compute; reflexivity)).
Defined.
