(* ===== verification/BatchHandler.v ===== *)
(** * Batch handlers

    [handleBatch] of [typescript/core/src/worker.ts]: the adapter that collects
    the tasks of one type into batches per queue, the linger timer, the
    dispatch of a batch with its recorded evidence, and the settlement of the
    members.  A member is named by its arrival order.  Aborts of its signal,
    timers, evidence and the handler are events. *)

From Stdlib Require Import Sorted ZifyBool.
From S2P Require Import Prelude WorkerOptions.

(** ** Options *)
Inductive batch_option_error : Set := BadMaxSize | MaxSizeAboveConcurrency | BadLingerMs.
Definition checkBatchOptions (concurrency : Z) (maxSize lingerMs : num) : res batch_option_error unit :=
  throw_if (negb (isSafeInteger maxSize) || num_lt_Z maxSize 1 || num_gt_Z maxSize 100) BadMaxSize ;;;
  throw_if (num_gt_Z maxSize concurrency) MaxSizeAboveConcurrency ;;;
  throw_if (negb (isSafeInteger lingerMs) || num_lt_Z lingerMs 0 || num_gt_Z lingerMs 60000) BadLingerMs.

(** A registered batch handler has between one and 100 tasks in a batch, no more
    than the worker runs at once, and lingers at most a minute. *)
Lemma checkBatchOptions_ok concurrency maxSize lingerMs :
  checkBatchOptions concurrency maxSize lingerMs = Ret tt ->
  1 <= num_to_Z maxSize <= Z.min 100 concurrency /\ 0 <= num_to_Z lingerMs <= 60000.
Proof.
  unfold checkBatchOptions, throw_if.
  destruct (isSafeInteger maxSize) eqn:E1; [|done]. rewrite num_lt_Z_safe, !num_gt_Z_safe by done.
  destruct (isSafeInteger lingerMs) eqn:E2; [rewrite num_lt_Z_safe, num_gt_Z_safe by done|]; simpl;
    repeat (case_match; simpl; try done); lia.
Qed.

(** ** State *)
Record PendingItem : Type := {
  arrivalOrder : nat;
  arrivedAt : Z;
  priority : Z;
  member_queue : string;
}.
#[export] Instance item_eq_dec : EqDecision PendingItem.
Proof. solve_decision. Defined.

(** The waiting members of a queue and when its linger timer fires. *)
Record PendingQueue : Type := { items : list PendingItem; lingerTimer : option Z }.
#[export] Instance eta_pending : Eta PendingQueue := fun q =>
  {| items := items q; lingerTimer := lingerTimer q |}.

(** Why a member of a batch rejects: the handler reported an error for it, or
    the whole batch failed. *)
Inductive batch_failure : Type :=
| Reported (error : nat)
| HandlerThrew (error : nat)
| NotAnArray (size : nat)
| WrongCount (returned size : nat)
| InvalidOutcome (index : nat).

(** Where a dispatched batch is: its dispatch evidence waits or is written, its
    handler runs, its failure evidence is written, or it has settled. *)
Inductive batch_phase : Type :=
| RecordingDispatch | HandlerRuns | RecordingFailure (error : batch_failure) | BatchSettled.
Record Batch : Type := { members : list PendingItem; phase : batch_phase }.
#[export] Instance eta_batch : Eta Batch := fun b => {| members := members b; phase := phase b |}.

(** How the promise of a member settled: with a result, with an error of its
    batch, or with the reason its signal aborted with while it waited. *)
Inductive member_result : Type := Resolved (result : nat) | Rejected (error : batch_failure) | Withdrawn (reason : nat).

(** An entry of the handler's outcomes: succeeded or failed, each with its
    property when the object has it, or anything else. *)
Inductive batch_outcome : Type := Succeeded (result : option nat) | Failed (error : option nat) | OtherValue.

Record Batcher : Type := {
  pendingQueues : jsmap string PendingQueue;
  nextArrival : nat;
  batches : list Batch;
  settlements : list (nat * member_result);
  refusals : list nat;
}.
#[export] Instance eta_batcher : Eta Batcher := fun b =>
  {| pendingQueues := pendingQueues b; nextArrival := nextArrival b; batches := batches b;
     settlements := settlements b; refusals := refusals b |}.
Definition newBatcher : Batcher :=
  {| pendingQueues := []; nextArrival := 0; batches := []; settlements := []; refusals := [] |}.

Section batcher.
Context (maxSize : nat) (lingerMs : Z).

(** The candidate comes after the member in the batch. *)
Definition comes_after (member candidate : PendingItem) : bool :=
  (priority candidate <? priority member) ||
  ((priority candidate =? priority member) && (arrivalOrder member <? arrivalOrder candidate)%nat).
Definition orderBatch (l : list PendingItem) : list PendingItem :=
  foldl (fun batch member => insert_before (comes_after member) member batch) [] l.

Definition dispatch (queueName : string) (s : Batcher) : Batcher :=
  match jsget queueName (pendingQueues s) with
  | None => s
  | Some pending =>
      match items pending with
      | [] => s
      | _ :: _ =>
          s <| pendingQueues ::= jsset queueName {| items := drop maxSize (items pending); lingerTimer := None |} |>
            <| batches ::= fun l => l ++ [{| members := orderBatch (take maxSize (items pending));
                                             phase := RecordingDispatch |}] |>
      end
  end.

Definition remove (member : PendingItem) (s : Batcher) : Batcher :=
  match jsget (member_queue member) (pendingQueues s) with
  | None => s
  | Some pending =>
      if bool_decide (member ∈ items pending) then
        let left := remove_first (fun m => bool_decide (m = member)) (items pending) in
        s <| pendingQueues ::= jsset (member_queue member)
               {| items := left;
                  lingerTimer := match left with [] => None | _ :: _ => lingerTimer pending end |} |>
      else s
  end.

(** The adapter: a task of the queue arrives at [now]; [aborted] is the reason
    of its signal when that is aborted already. *)
Definition adapter (queueName : string) (prio : Z) (aborted : option nat) (now : Z) (s : Batcher) : Batcher :=
  let order := nextArrival s in
  match aborted with
  | Some reason => s <| refusals ::= fun l => l ++ [reason] |>
  | None =>
      let pending := default {| items := []; lingerTimer := None |} (jsget queueName (pendingQueues s)) in
      let member := {| arrivalOrder := order; arrivedAt := now; priority := prio; member_queue := queueName |} in
      let pending := pending <| items ::= fun l => l ++ [member] |> in
      let s := s <| nextArrival ::= S |> in
      if (maxSize <=? length (items pending))%nat || (lingerMs =? 0)
      then dispatch queueName (s <| pendingQueues ::= jsset queueName pending |>)
      else
        let pending := match lingerTimer pending with
                       | None => pending <| lingerTimer := Some (now + ms lingerMs) |>
                       | Some _ => pending
                       end in
        s <| pendingQueues ::= jsset queueName pending |>
  end.

(** The member waits: its abort listener is attached. *)
Definition waits (member : PendingItem) (s : Batcher) : bool :=
  match jsget (member_queue member) (pendingQueues s) with
  | Some pending => bool_decide (member ∈ items pending) | None => false
  end.
Definition onAbort (member : PendingItem) (reason : nat) (s : Batcher) : Batcher :=
  if waits member s
  then (remove member s) <| settlements ::= fun l => l ++ [(arrivalOrder member, Withdrawn reason)] |> else s.

Definition setPhase (i : nat) (p : batch_phase) (s : Batcher) : Batcher :=
  s <| batches ::= alter (fun b => b <| phase := p |>) i |>.

(** What a well-formed outcome settles its member with. *)
Definition outcomeResult (o : batch_outcome) : option member_result :=
  match o with
  | Succeeded (Some result) => Some (Resolved result)
  | Failed (Some error) => Some (Rejected (Reported error))
  | _ => None
  end.
Fixpoint findInvalid (index : nat) (l : list batch_outcome) : option nat :=
  match l with
  | [] => None
  | o :: l => match outcomeResult o with None => Some index | Some _ => findInvalid (S index) l end
  end.
(** What the handler returned, [None] when it is no array. *)
Definition checkOutcomes (size : nat) (outcomes : option (list batch_outcome)) : res batch_failure (list member_result) :=
  match outcomes with
  | None => Throw (NotAnArray size)
  | Some l =>
      if negb (length l =? size)%nat then Throw (WrongCount (length l) size)
      else match findInvalid 0 l with
           | Some index => Throw (InvalidOutcome index)
           | None => Ret (omap outcomeResult l)
           end
  end.

Definition handlerEnds (i : nat) (returned : res nat (option (list batch_outcome))) (s : Batcher) : Batcher :=
  match batches s !! i with
  | Some b =>
      match phase b with
      | HandlerRuns =>
          match match returned with
                | Throw error => Throw (HandlerThrew error)
                | Ret outcomes => checkOutcomes (length (members b)) outcomes
                end with
          | Throw error => setPhase i (RecordingFailure error) s
          | Ret results =>
              (setPhase i BatchSettled s) <| settlements ::= fun l => l ++ zip (map arrivalOrder (members b)) results |>
          end
      | _ => s
      end
  | None => s
  end.

(** Dispatch evidence is written one batch after the other; the evidence of
    other batch handlers of the worker only delays it. *)
Definition recording (b : Batch) : bool := match phase b with RecordingDispatch => true | _ => false end.
Definition evidenceEnds (i : nat) (s : Batcher) : Batcher :=
  match batches s !! i with
  | Some b => if recording b && negb (existsb recording (take i (batches s))) then setPhase i HandlerRuns s else s
  | None => s
  end.
Definition failureRecorded (i : nat) (s : Batcher) : Batcher :=
  match batches s !! i with
  | Some b =>
      match phase b with
      | RecordingFailure error =>
          (setPhase i BatchSettled s)
            <| settlements ::= fun l => l ++ map (fun m => (arrivalOrder m, Rejected error)) (members b) |>
      | _ => s
      end
  | None => s
  end.

Inductive batch_event : Type :=
| Arrive (queueName : string) (prio : Z) (aborted : option nat)
| Abort (member : PendingItem) (reason : nat)
| LingerFires (queueName : string)
| EvidenceEnds (i : nat)
| HandlerEnds (i : nat) (returned : res nat (option (list batch_outcome)))
| FailureRecorded (i : nat).

(** The linger timer of the queue is armed and due. *)
Definition lingerDue (queueName : string) (now : Z) (s : Batcher) : bool :=
  match jsget queueName (pendingQueues s) with
  | Some {| lingerTimer := Some due |} => due <=? now
  | _ => false
  end.

Definition batch_step (s : Batcher) (te : Z * batch_event) : Batcher :=
  match te.2 with
  | Arrive queueName prio aborted => adapter queueName prio aborted te.1 s
  | Abort member reason => onAbort member reason s
  | LingerFires queueName => if lingerDue queueName te.1 s then dispatch queueName s else s
  | EvidenceEnds i => evidenceEnds i s
  | HandlerEnds i returned => handlerEnds i returned s
  | FailureRecorded i => failureRecorded i s
  end.

(** ** Where the members are *)
Definition waitingIn (m : jsmap string PendingQueue) : list PendingItem := flat_map (fun e => items e.2) m.
Definition waiting (s : Batcher) : list PendingItem := waitingIn (pendingQueues s).
Definition openMembers (b : Batch) : list PendingItem :=
  match phase b with BatchSettled => [] | _ => members b end.
Definition emptyQueue : PendingQueue := {| items := []; lingerTimer := None |}.

Lemma waitingIn_split k m :
  NoDup m.*1 -> waitingIn m ≡ₚ items (default emptyQueue (jsget k m)) ++ waitingIn (jsdelete k m).
Proof.
  intros Hn. destruct (jsget k m) as [v|] eqn:E; simpl.
  - apply (Permutation_flat_map (fun e => items e.2) (jsdelete_perm _ _ _ Hn E)).
  - apply jsget_None in E. by rewrite jsdelete_absent.
Qed.
Lemma waitingIn_set k v m : NoDup m.*1 -> waitingIn (jsset k v m) ≡ₚ items v ++ waitingIn (jsdelete k m).
Proof. intros Hn. apply (Permutation_flat_map (fun e => items e.2) (jsset_perm k v _ Hn)). Qed.

Lemma orderBatch_perm l : orderBatch l ≡ₚ l.
Proof.
  unfold orderBatch. change l with ([] ++ l) at 2. generalize (@nil PendingItem).
  induction l as [|m l IH]; intros acc; simpl; [by rewrite app_nil_r|].
  rewrite IH, insert_before_perm. solve_Permutation.
Qed.

Lemma swap_parts {A} (w x x' r y y' : list A) : x' ++ y' ≡ₚ x ++ y -> (w ++ x' ++ r) ++ y' ≡ₚ (w ++ x ++ r) ++ y.
Proof.
  intros H. transitivity ((w ++ r) ++ x' ++ y'); [solve_Permutation|]. rewrite H. solve_Permutation.
Qed.

(** The queue [q] with the arriving member and the linger timer [t]. *)
Definition waitingOn (q : string) (s : Batcher) : PendingQueue := default emptyQueue (jsget q (pendingQueues s)).
Definition arriving (q : string) (prio now : Z) (s : Batcher) : PendingItem :=
  {| arrivalOrder := nextArrival s; arrivedAt := now; priority := prio; member_queue := q |}.
Definition pushed (q : string) (prio now : Z) (t : option Z) (s : Batcher) : Batcher :=
  s <| nextArrival ::= S |>
    <| pendingQueues ::= jsset q {| items := items (waitingOn q s) ++ [arriving q prio now s]; lingerTimer := t |} |>.

Lemma adapter_pushes q prio now s :
  adapter q prio None now s =
  if (maxSize <=? S (length (items (waitingOn q s))))%nat || (lingerMs =? 0)
  then dispatch q (pushed q prio now (lingerTimer (waitingOn q s)) s)
  else pushed q prio now (Some (default (now + ms lingerMs) (lingerTimer (waitingOn q s)))) s.
Proof.
  unfold adapter. fold emptyQueue. fold (waitingOn q s). simpl. rewrite length_app, Nat.add_comm. simpl.
  case_match; [done|]. unfold pushed. destruct (lingerTimer (waitingOn q s)) eqn:E; simpl; [rewrite <- E|]; reflexivity.
Qed.

(** An accounting of the members: the waiting ones, [f] of each batch, and the
    arrival orders [g] of the settlements. *)
Section accounting.
Context (f : Batch -> list PendingItem) (g : list (nat * member_result) -> list nat).

Definition accounted (s : Batcher) : list nat :=
  map arrivalOrder (waiting s ++ flat_map f (batches s)) ++ g (settlements s).
Definition accounts (s : Batcher) : Prop :=
  NoDup (pendingQueues s).*1 /\ accounted s ≡ₚ seq 0 (nextArrival s).

Lemma dispatch_accounts q s :
  (forall l, f {| members := l; phase := RecordingDispatch |} = l) -> accounts s -> accounts (dispatch q s).
Proof.
  intros Hf [Hn Hp]. unfold dispatch. destruct (jsget q (pendingQueues s)) as [p|] eqn:E; [|done].
  destruct (items p) as [|m l] eqn:El; [done|]. split; simpl; [by apply jsset_NoDup|].
  rewrite <- Hp. unfold accounted, waiting. simpl.
  rewrite (waitingIn_set _ _ _ Hn), (waitingIn_split q _ Hn), E. simpl.
  rewrite flat_map_app. simpl. rewrite Hf, orderBatch_perm, El, app_nil_r.
  f_equiv. apply Permutation_map. rewrite <- (take_drop maxSize (m :: l)) at 3. solve_Permutation.
Qed.

Lemma pushed_accounts q prio now t s : accounts s -> accounts (pushed q prio now t s).
Proof.
  intros [Hn Hp]. split; [by apply jsset_NoDup|]. unfold accounted, waiting. cbn -[seq]. rewrite seq_S, <- Hp.
  unfold accounted, waiting. rewrite (waitingIn_set _ _ _ Hn), (waitingIn_split q _ Hn). simpl.
  rewrite !map_app. simpl. solve_Permutation.
Qed.
Lemma adapter_accounts q prio aborted now s :
  (forall l, f {| members := l; phase := RecordingDispatch |} = l) ->
  accounts s -> accounts (adapter q prio aborted now s).
Proof.
  intros Hf Hs. destruct aborted as [reason|]; [done|]. rewrite adapter_pushes.
  case_match; [apply dispatch_accounts; [done|]|]; by apply pushed_accounts.
Qed.

Lemma abort_accounts m reason s :
  (forall l, g (l ++ [(arrivalOrder m, Withdrawn reason)]) ≡ₚ g l ++ [arrivalOrder m]) ->
  accounts s -> accounts (onAbort m reason s).
Proof.
  intros Hg [Hn Hp]. unfold onAbort, waits, remove.
  destruct (jsget (member_queue m) (pendingQueues s)) as [p|] eqn:E; [|done].
  case_bool_decide as Hin; [|done]. split; simpl; [by apply jsset_NoDup|].
  rewrite <- Hp. unfold accounted, waiting. simpl.
  rewrite Hg, (waitingIn_set _ _ _ Hn), (waitingIn_split (member_queue m) _ Hn), E. simpl.
  rewrite (remove_value_perm _ _ Hin) at 2. rewrite !map_app. simpl. solve_Permutation.
Qed.

Lemma phase_accounts i b p s s' :
  batches s !! i = Some b -> pendingQueues s' = pendingQueues s -> nextArrival s' = nextArrival s ->
  batches s' = batches (setPhase i p s) ->
  map arrivalOrder (f (b <| phase := p |>)) ++ g (settlements s') ≡ₚ map arrivalOrder (f b) ++ g (settlements s) ->
  accounts s -> accounts s'.
Proof.
  intros Hi Hq Hn Hb Hg [Hd Hp]. split; [by rewrite Hq|]. rewrite Hn, <- Hp. unfold accounted, waiting.
  rewrite Hq, Hb. simpl.
  destruct (flat_map_alter f (fun b => b <| phase := p |>) i _ _ Hi) as (rest & -> & ->).
  rewrite !map_app. by apply swap_parts.
Qed.
End accounting.

Lemma findInvalid_None l : forall k, findInvalid k l = None -> length (omap outcomeResult l) = length l.
Proof.
  induction l as [|o l IH]; intros k; simpl; [done|]. destruct (outcomeResult o); [|done].
  simpl. intros H. f_equal. eauto.
Qed.
Lemma checkOutcomes_length n o l : checkOutcomes n o = Ret l -> length l = n.
Proof.
  unfold checkOutcomes. destruct o as [o|]; [|done]. destruct (Nat.eqb_spec (length o) n); simpl; [|done].
  destruct (findInvalid 0 o) eqn:E; [done|]. intros [= <-]. rewrite (findInvalid_None _ _ E). done.
Qed.
Lemma zip_orders (b : list PendingItem) (l : list member_result) :
  length l = length b -> (zip (map arrivalOrder b) l).*1 = map arrivalOrder b.
Proof. intros H. apply fst_zip. rewrite length_map. lia. Qed.

(** The members that settled as withdrawn. *)
Definition withdrawn (l : list (nat * member_result)) : list nat :=
  omap (fun e => match e.2 with Withdrawn _ => Some e.1 | _ => None end) l.
Lemma withdrawn_results (os : list nat) (l : list batch_outcome) : withdrawn (zip os (omap outcomeResult l)) = [].
Proof.
  revert os. induction l as [|o l IH]; intros os; simpl; [by destruct os|].
  destruct (outcomeResult o) as [r|] eqn:E; [|apply IH]. destruct os as [|x os]; [done|].
  unfold withdrawn. simpl. rewrite IH. destruct o as [[]|[]|]; naive_solver.
Qed.

Lemma step_settles s te :
  accounts openMembers (fmap fst) s -> accounts openMembers (fmap fst) (batch_step s te).
Proof.
  intros Hs. unfold batch_step. destruct te as [now [q prio ab|m reason|q|i|i ret|i]]; simpl.
  - by apply adapter_accounts.
  - apply abort_accounts; [|done]. intros l. by rewrite fmap_app.
  - case_match; [by apply dispatch_accounts|done].
  - unfold evidenceEnds. destruct (batches s !! i) as [b|] eqn:Hb; [|done]. case_match eqn:Hr; [|done].
    eapply phase_accounts; try done. unfold openMembers. simpl. unfold recording in Hr. by destruct (phase b).
  - unfold handlerEnds. destruct (batches s !! i) as [b|] eqn:Hb; [|done].
    destruct (phase b) eqn:Hph; try done. case_match eqn:Hr; (eapply phase_accounts; try done); simpl;
      unfold openMembers; simpl; rewrite Hph; [|done].
    assert (length a = length (members b)) as Hl by (destruct ret; [by eapply checkOutcomes_length | done]).
    rewrite (fmap_app fst), zip_orders by done. apply Permutation_app_comm.
  - unfold failureRecorded. destruct (batches s !! i) as [b|] eqn:Hb; [|done].
    destruct (phase b) eqn:Hph; try done. eapply phase_accounts; try done. simpl.
    unfold openMembers; simpl; rewrite Hph. rewrite (fmap_app fst).
    replace ((map _ (members b)).*1) with (map arrivalOrder (members b)); [apply Permutation_app_comm|].
    induction (members b); simpl; by f_equal.
Qed.

Lemma withdrawn_app l l' : withdrawn (l ++ l') = withdrawn l ++ withdrawn l'.
Proof. apply omap_app. Qed.
Lemma withdrawn_rejected e (b : list PendingItem) :
  withdrawn (map (fun m => (arrivalOrder m, Rejected e)) b) = [].
Proof. induction b as [|m b IH]; [done|]. apply IH. Qed.

Lemma step_dispatches s te :
  accounts members withdrawn s -> accounts members withdrawn (batch_step s te).
Proof.
  intros Hs. unfold batch_step. destruct te as [now [q prio ab|m reason|q|i|i ret|i]]; simpl.
  - by apply adapter_accounts.
  - apply abort_accounts; [|done]. intros l. by rewrite withdrawn_app.
  - case_match; [by apply dispatch_accounts|done].
  - unfold evidenceEnds. destruct (batches s !! i) as [b|] eqn:Hb; [|done]. case_match; [|done].
    by eapply phase_accounts.
  - unfold handlerEnds. destruct (batches s !! i) as [b|] eqn:Hb; [|done].
    destruct (phase b); try done. case_match eqn:Hr; (eapply phase_accounts; try done); simpl.
    destruct ret as [[o|]|]; try done. unfold checkOutcomes in Hr. repeat case_match; simplify_eq.
    by rewrite withdrawn_app, withdrawn_results, app_nil_r.
  - unfold failureRecorded. destruct (batches s !! i) as [b|] eqn:Hb; [|done].
    destruct (phase b); try done. eapply phase_accounts; try done. simpl.
    by rewrite withdrawn_app, withdrawn_rejected, app_nil_r.
Qed.

(** ** The shape of a batch *)
Definition precedes (a b : PendingItem) : Prop :=
  priority b < priority a \/ (priority a = priority b /\ (arrivalOrder a < arrivalOrder b)%nat).
Definition wellFormedBatch (l : list PendingItem) : Prop :=
  l <> [] /\ (length l <= maxSize)%nat /\ StronglySorted precedes l /\
  exists q, Forall (fun m => member_queue m = q) l.

Lemma insert_sorted m l :
  Forall (fun c => arrivalOrder c <> arrivalOrder m) l -> StronglySorted precedes l ->
  StronglySorted precedes (insert_before (comes_after m) m l).
Proof.
  intros Hne Hs. induction Hs as [|c l Hs IH Hc]; simpl; [repeat constructor|].
  apply Forall_cons in Hne as [Hc' Hne]. destruct (comes_after m c) eqn:E.
  - assert (precedes m c) by (unfold comes_after in E; unfold precedes; lia).
    constructor; [by constructor|]. constructor; [done|]. eapply Forall_impl; [exact Hc|].
    unfold precedes in *. intros; simpl in *; lia.
  - constructor; [by apply IH|]. rewrite insert_before_perm. constructor; [|done].
    unfold comes_after in E; unfold precedes; lia.
Qed.
Lemma orderBatch_sorted l : NoDup (map arrivalOrder l) -> StronglySorted precedes (orderBatch l).
Proof.
  induction l as [|m l IH] using rev_ind; intros Hn; [constructor|].
  unfold orderBatch. rewrite foldl_app. simpl. fold (orderBatch l). rewrite map_app in Hn.
  apply NoDup_app in Hn as (Hl & Hd & _). apply insert_sorted; [|by apply IH].
  rewrite orderBatch_perm. apply Forall_forall. intros c Hc E. apply (Hd (arrivalOrder c)).
  - by apply (list_elem_of_fmap_2 arrivalOrder).
  - rewrite E. apply list_elem_of_here.
Qed.

(** ** The waiting queues
    A queue's waiting members are its own, fewer than a batch; its timer is
    armed exactly while members wait, and fires before any of them has waited
    longer than [lingerMs].  [now] bounds the arrivals. *)
Definition wellFormedQueue (now : Z) (q : string) (p : PendingQueue) : Prop :=
  Forall (fun m => member_queue m = q) (items p) /\
  (length (items p) < maxSize)%nat /\
  match lingerTimer p with
  | None => items p = []
  | Some due => items p <> [] /\ due <= now + ms lingerMs /\ Forall (fun m => due <= arrivedAt m + ms lingerMs) (items p)
  end.
Definition wellFormed (now : Z) (s : Batcher) : Prop :=
  accounts members withdrawn s /\
  (forall q p, jsget q (pendingQueues s) = Some p -> wellFormedQueue now q p) /\
  Forall (fun b => wellFormedBatch (members b)) (batches s).

(** The whole of [wellFormed] but for the queue [q]. *)
Definition wellFormedBut (now : Z) (q : string) (s : Batcher) : Prop :=
  accounts members withdrawn s /\
  (forall q' p, q' <> q -> jsget q' (pendingQueues s) = Some p -> wellFormedQueue now q' p) /\
  Forall (fun b => wellFormedBatch (members b)) (batches s).

Lemma wellFormed_but now q s : wellFormed now s -> wellFormedBut now q s.
Proof. intros (Ha & Hq & Hb). split_and!; eauto. Qed.
Lemma wellFormed_set now q s p :
  wellFormedBut now q s -> jsget q (pendingQueues s) = Some p -> wellFormedQueue now q p -> wellFormed now s.
Proof.
  intros (Ha & Hq & Hb) Hg Hp. split_and!; [done| |done]. intros q' p' Hg'.
  destruct (decide (q' = q)) as [->|]; [by simplify_eq|eauto].
Qed.
Lemma queue_orders_NoDup q p s :
  accounts members withdrawn s -> jsget q (pendingQueues s) = Some p -> NoDup (map arrivalOrder (items p)).
Proof.
  intros [Hn Hp] Hg. assert (NoDup (accounted members withdrawn s)) as Hd by (rewrite Hp; apply NoDup_seq).
  unfold accounted, waiting in Hd. rewrite (waitingIn_split q _ Hn), Hg, !map_app in Hd. simpl in Hd.
  by repeat apply NoDup_app in Hd as [Hd _].
Qed.

Hypothesis maxSize_pos : (1 <= maxSize)%nat.

Lemma dispatch_wellFormed now q p s :
  jsget q (pendingQueues s) = Some p -> items p <> [] -> Forall (fun m => member_queue m = q) (items p) ->
  (length (items p) <= maxSize)%nat -> wellFormedBut now q s -> wellFormed now (dispatch q s).
Proof.
  intros Hg Hne Hall Hlen (Ha & Hq & Hb). pose proof (queue_orders_NoDup _ _ _ Ha Hg) as Hd.
  assert (Ha' := dispatch_accounts members withdrawn q s (fun _ => eq_refl) Ha).
  split_and!; [done| |]; unfold dispatch; rewrite Hg; destruct (items p) as [|m l] eqn:Ei; [done| |done|]; simpl.
  - intros q' p'. rewrite jsget_set. case_decide as E; [|intros ?; eapply Hq; [congruence|done]].
    intros [= <-]. subst. unfold wellFormedQueue. cbn [items lingerTimer]. rewrite drop_ge by done.
    split_and!; [constructor | simpl; lia | done].
  - apply Forall_app. split; [done|]. apply Forall_singleton. simpl. rewrite take_ge by done.
    split_and!; [| by rewrite orderBatch_perm | by apply orderBatch_sorted |].
    + intros E. pose proof (orderBatch_perm (m :: l)) as Hp. rewrite E in Hp. by apply Permutation_nil_cons in Hp.
    + exists q. by rewrite orderBatch_perm.
Qed.

Lemma wellFormed_later now now' s : now <= now' -> wellFormed now s -> wellFormed now' s.
Proof.
  intros Hle (Ha & Hq & Hb). split_and!; [done| |done]. intros q p Hg. destruct (Hq q p Hg) as (H1 & H2 & H3).
  split_and!; [done..|]. destruct (lingerTimer p); [|done]. naive_solver lia.
Qed.

Lemma waitingOn_wellFormed now q s : wellFormed now s -> wellFormedQueue now q (waitingOn q s).
Proof.
  intros (_ & Hq & _). unfold waitingOn. destruct (jsget q (pendingQueues s)) as [p|] eqn:E; [by apply Hq|].
  split_and!; simpl; [constructor|lia|done].
Qed.
Lemma pushed_but now q prio t s : wellFormed now s -> wellFormedBut now q (pushed q prio now t s).
Proof.
  intros (Ha & Hq & Hb). split_and!; [by apply pushed_accounts| |done]. intros q' p Hne. simpl.
  rewrite jsget_set. case_decide; [congruence|]. apply Hq.
Qed.
Lemma adapter_wellFormed now q prio aborted s :
  wellFormed now s -> wellFormed now (adapter q prio aborted now s).
Proof.
  intros Hs. destruct aborted as [r|]; [done|]. rewrite adapter_pushes.
  destruct (waitingOn_wellFormed now q s Hs) as (Hown & Hlen & Htimer).
  assert (Hget : forall t, jsget q (pendingQueues (pushed q prio now t s)) =
    Some {| items := items (waitingOn q s) ++ [arriving q prio now s]; lingerTimer := t |}).
  { intros t. simpl. rewrite jsget_set. by rewrite decide_True. }
  assert (Hall : Forall (fun m => member_queue m = q) (items (waitingOn q s) ++ [arriving q prio now s])).
  { apply Forall_app. split; [done|]. by apply Forall_singleton. }
  destruct (_ || _) eqn:E.
  - eapply dispatch_wellFormed; [apply Hget| | exact Hall | | by apply pushed_but]; simpl.
    + by intros []%app_nil.
    + rewrite length_app. simpl. lia.
  - eapply wellFormed_set; [by apply pushed_but | apply Hget |]. split_and!; simpl; [done| |].
    + rewrite length_app. simpl. lia.
    + destruct (lingerTimer (waitingOn q s)) as [due|]; simpl.
      * destruct Htimer as (? & ? & ?). split_and!; [by intros []%app_nil|done|].
        apply Forall_app. split; [done|]. by apply Forall_singleton.
      * rewrite Htimer. split_and!; [done|lia|]. by apply Forall_singleton.
Qed.
Lemma onAbort_wellFormed now m reason s : wellFormed now s -> wellFormed now (onAbort m reason s).
Proof.
  intros Hs. assert (Ha : accounts members withdrawn (onAbort m reason s)).
  { apply abort_accounts; [|apply Hs]. intros l. by rewrite withdrawn_app. }
  unfold onAbort, waits, remove in *. destruct (jsget (member_queue m) (pendingQueues s)) as [p|] eqn:E; [|done].
  case_bool_decide as Hin; [|done]. destruct Hs as (_ & Hq & Hb). split_and!; [done| |done].
  intros q' p'. simpl. rewrite jsget_set. case_decide; [|apply Hq]. intros [= <-]. subst.
  destruct (Hq _ _ E) as (Hown & Hlen & Htimer).
  assert (Hsub := remove_first_sublist (fun y => bool_decide (y = m)) (items p)).
  set (l := remove_first _ (items p)) in *. split_and!; simpl.
  - by eapply sublist_Forall.
  - apply sublist_length in Hsub. lia.
  - destruct l as [|x l]; [done|]. destruct (lingerTimer p) as [due|].
    + destruct Htimer as (? & ? & ?). split_and!; [done..|]. by eapply sublist_Forall.
    + rewrite Htimer in Hsub. by apply sublist_nil_r in Hsub.
Qed.

Lemma setPhase_wellFormed i p s :
  Forall (fun b => wellFormedBatch (members b)) (batches s) ->
  Forall (fun b => wellFormedBatch (members b)) (batches (setPhase i p s)).
Proof. intros H. simpl. by apply Forall_alter. Qed.

Lemma step_wellFormed now s te :
  now <= te.1 -> wellFormed now s -> wellFormed te.1 (batch_step s te).
Proof.
  intros Hle Hs%(wellFormed_later _ _ _ Hle). assert (Ha := step_dispatches s te (proj1 Hs)).
  unfold batch_step in *. destruct te as [t [q prio ab|m reason|q|i|i ret|i]]; simpl in *.
  - by apply adapter_wellFormed.
  - by apply onAbort_wellFormed.
  - unfold lingerDue in *. destruct (jsget q (pendingQueues s)) as [[l [due|]]|] eqn:E; try done.
    case_match; [|done]. destruct (proj1 (proj2 Hs) _ _ E) as (? & ? & ? & _).
    eapply dispatch_wellFormed; [exact E|done|done|simpl in *; lia|by apply wellFormed_but].
  - split; [done|]. unfold evidenceEnds in *. destruct Hs as (_ & Hq & Hb).
    repeat case_match; split; try done; by apply setPhase_wellFormed.
  - split; [done|]. unfold handlerEnds in *. destruct Hs as (_ & Hq & Hb).
    repeat case_match; split; try done; by apply setPhase_wellFormed.
  - split; [done|]. unfold failureRecorded in *. destruct Hs as (_ & Hq & Hb).
    repeat case_match; split; try done; by apply setPhase_wellFormed.
Qed.

Lemma run_wellFormed evs now s :
  in_order now evs -> wellFormed now s -> wellFormed (final_time now evs) (run batch_step s evs).
Proof. apply run_timed_invariant. intros t s' e. apply step_wellFormed. Qed.
Lemma newBatcher_wellFormed now : wellFormed now newBatcher.
Proof. split_and!; [split; [constructor|done]|done|constructor]. Qed.
End batcher.


(** A task whose signal aborted while it waited never reaches the batch
    callback: the waiting tasks, the members of all batches and the withdrawn
    tasks are disjoint and together are all that arrived. *)
Theorem withdrawn_members_never_dispatched maxSize lingerMs evs :
  let s := run (batch_step maxSize lingerMs) newBatcher evs in
  map arrivalOrder (waiting s ++ flat_map members (batches s)) ++ withdrawn (settlements s) ≡ₚ seq 0 (nextArrival s).
Proof.
  simpl. apply (run_invariant _ (accounts members withdrawn)).
  - intros s te. apply step_dispatches.
  - split; [constructor|done].
Qed.

(** C25: With a clock that does not go back, every batch holds between one and
    [maxSize] tasks of one queue, by falling priority and then by arrival; a
    queue keeps fewer than [maxSize] tasks waiting, and its linger timer is
    armed exactly while some wait and is due before any of them has waited
    longer than [lingerMs]. *)
Theorem batches_are_well_formed maxSize lingerMs now evs :
  (1 <= maxSize)%nat -> in_order now evs ->
  let s := run (batch_step maxSize lingerMs) newBatcher evs in
  Forall (fun b => wellFormedBatch maxSize (members b)) (batches s) /\
  forall q p, jsget q (pendingQueues s) = Some p ->
    (length (items p) < maxSize)%nat /\
    match lingerTimer p with
    | None => items p = []
    | Some due => items p <> [] /\ Forall (fun m => member_queue m = q /\ due <= arrivedAt m + ms lingerMs) (items p)
    end.
Proof.
  intros Hm Ho. destruct (run_wellFormed maxSize lingerMs Hm evs now newBatcher Ho) as (_ & Hq & Hb);
    [by apply newBatcher_wellFormed|].
  split; [exact Hb|]. intros q p Hg. destruct (Hq q p Hg) as (Hown & Hlen & Ht). split; [done|].
  destruct (lingerTimer p); [|done]. destruct Ht as (? & _ & ?). split; [done|]. by apply Forall_and.
Qed.

(** Three tasks on one queue with batches of two: the second arrival fills the
    batch, its handler reports one success and one failure, and the third task
    waits on a timer. *)
Definition sample_batch_events : list (Z * batch_event) :=
  [(0, Arrive "q" 1 None); (5, Arrive "q" 7 None); (6, EvidenceEnds 0);
   (7, HandlerEnds 0 (Ret (Some [Succeeded (Some 3%nat); Failed (Some 4%nat)]))); (9, Arrive "q" 1 None)].

Lemma batches_are_well_formed_witness :
  let s := run (batch_step 2 50) newBatcher sample_batch_events in
  Forall (fun b => wellFormedBatch 2 (members b)) (batches s) /\
  settlements s = [(1%nat, Resolved 3); (0%nat, Rejected (Reported 4))].
Proof.
  split; [|reflexivity].
  apply (batches_are_well_formed 2 50 0 sample_batch_events); [lia | repeat split; simpl; lia].
Defined.
