(* ===== verification/RunLoop.v ===== *)
(** * The run of a worker

    [runLoop], [stop], [writeRegistration], [deregister], [settlePreviousRun],
    [registrationLoop] and [maintenanceLoop] of
    [typescript/core/src/worker.ts], as a state machine of one worker over its
    runs, with the row of the worker in PostgreSQL's registry; then the
    schedule of a maintenance pass and the reports of failed callbacks.

    Registration writes and deregistrations commit and answer as separate
    events.  A registration that answers an error did not commit.  A refresh
    that [stop] chains to another starts when that one settles.  [runOnce] has
    no registration of its own run and is modelled in [Claiming]. *)

From S2P Require Import Prelude.

(** ** Statements and promises *)

(** A registration write: sent, committed by PostgreSQL, or settled. *)
Inductive write_state : Set := WSent | WCommitted | WSettled.
Record Write : Set := { w_instance : nat; w_state : write_state }.
#[export] Instance eta_write : Eta Write := fun w => {| w_instance := w_instance w; w_state := w_state w |}.
#[export] Instance write_state_eq : EqDecision write_state.
Proof. solve_decision. Defined.

(** A refresh that [stop] asked for: behind another one, or started. *)
Inductive stop_refresh : Set := Chained (previous : nat) | Started (write : option nat).

(** A call of [deregister]: it waits for the startup registration and for the
    refreshes, then for the refresh of [stop], then its statement is sent, is
    committed, or it has ended. *)
Inductive dereg_stage : Set :=
| DWaiting (startup : option nat) | DStopRefresh (refresh : option nat) | DSent | DDeleted | DDone.
Record Dereg : Set := { d_instance : nat; d_stage : dereg_stage }.
#[export] Instance eta_dereg : Eta Dereg := fun d => {| d_instance := d_instance d; d_stage := d_stage d |}.

Inductive loop_state : Set := LoopOff | LoopWriting (w : nat) | LoopPass | LoopWaiting.
#[export] Instance loop_state_eq : EqDecision loop_state.
Proof. solve_decision. Defined.

(** Where [runLoop] is; [Closing k] waits for the release of the heartbeat
    channel or for the close of a subscription, the work [k]. *)
Inductive run_phase : Set :=
| Idle | Settling | Starting | FirstWrite (w : option nat) | Subscribing | Dispatching | Unwinding
| Closing (k : nat) | Deregistering (d : nat).

(** A promise in [stopWork]. *)
Inductive work : Set :=
| WorkWrite (w : option nat) | WorkRefresh (j : nat) | WorkLoops | WorkOther (k : nat) | WorkDereg (d : nat).

Record WorkerRun : Type := {
  phase : run_phase;
  stopVersion : nat;
  stopping : bool;
  signalAborted : bool;
  running : bool;
  draining : bool;
  locallyPaused : bool;
  remotelyPaused : bool;
  activeSlots : Z;
  ended : bool;
  firstError : option nat;
  failures : list nat;
  outcomes : list (list nat);
  instanceId : nat;
  registered : bool;
  lastRegistryRefreshAt : option Z;
  writes : list Write;
  pendingStartup : option nat;
  stopRefreshes : list stop_refresh;
  pendingStop : option nat;
  deregs : list Dereg;
  others : list (option (option nat));
  subscriptions : nat;
  maintenance : loop_state;
  registration : loop_state;
  loopsStarted : bool;
  stopWork : list work;
  previousRun : list work;
  row : option nat;
  deleteFailed : bool;
}.
#[export] Instance eta_run : Eta WorkerRun := fun s =>
  {| phase := phase s; stopVersion := stopVersion s; stopping := stopping s; signalAborted := signalAborted s;
     running := running s; draining := draining s; locallyPaused := locallyPaused s;
     remotelyPaused := remotelyPaused s; activeSlots := activeSlots s; ended := ended s;
     firstError := firstError s; failures := failures s; outcomes := outcomes s; instanceId := instanceId s;
     registered := registered s; lastRegistryRefreshAt := lastRegistryRefreshAt s; writes := writes s;
     pendingStartup := pendingStartup s; stopRefreshes := stopRefreshes s; pendingStop := pendingStop s;
     deregs := deregs s; others := others s; subscriptions := subscriptions s; maintenance := maintenance s;
     registration := registration s; loopsStarted := loopsStarted s; stopWork := stopWork s;
     previousRun := previousRun s; row := row s; deleteFailed := deleteFailed s |}.

Definition newRun : WorkerRun :=
  {| phase := Idle; stopVersion := 0; stopping := false; signalAborted := false; running := false;
     draining := false; locallyPaused := false; remotelyPaused := false; activeSlots := 0; ended := false;
     firstError := None; failures := []; outcomes := []; instanceId := 0; registered := false;
     lastRegistryRefreshAt := None; writes := []; pendingStartup := None; stopRefreshes := [];
     pendingStop := None; deregs := []; others := []; subscriptions := 0; maintenance := LoopOff;
     registration := LoopOff; loopsStarted := false; stopWork := []; previousRun := []; row := None;
     deleteFailed := false |}.

(** ** Settled promises *)
Definition writeSettled (s : WorkerRun) (w : option nat) : bool :=
  match w with
  | None => true
  | Some w => match writes s !! w with Some {| w_state := WSettled |} | None => true | _ => false end
  end.
Definition refreshSettled (s : WorkerRun) (j : nat) : bool :=
  match stopRefreshes s !! j with
  | Some (Started w) => writeSettled s w | Some (Chained _) => false | None => true
  end.
Definition deregDone (d : Dereg) : bool := match d_stage d with DDone => true | _ => false end.
Definition loopsOff (s : WorkerRun) : bool :=
  bool_decide (maintenance s = LoopOff) && bool_decide (registration s = LoopOff).
Definition workSettled (s : WorkerRun) (x : work) : bool :=
  match x with
  | WorkWrite w => writeSettled s w
  | WorkRefresh j => refreshSettled s j
  | WorkLoops => loopsOff s
  | WorkOther k => match others s !! k with Some None => false | _ => true end
  | WorkDereg d => match deregs s !! d with Some d => deregDone d | None => true end
  end.

(** [pendingRegistrationRefreshes] is empty. *)
Definition noPendingWrites (s : WorkerRun) : bool :=
  forallb (fun w => bool_decide (w_state w = WSettled)) (writes s).

Section worker.
Context (registryIntervalMs : Z) (hasChannel : bool).

Definition shouldStop (s : WorkerRun) : bool := stopping s || signalAborted s.
Definition loopShouldStop (s : WorkerRun) : bool := ended s || shouldStop s.

(** ** Registration *)

(** [refreshRegistration] and the part of [writeRegistration] before the await:
    the write that was sent, if any. *)
Definition refreshRegistration (force : bool) (now : Z) (s : WorkerRun) : WorkerRun * option nat :=
  if registryIntervalMs =? 0 then (s, None)
  else if negb force && match lastRegistryRefreshAt s with
                        | Some last => now - last <? ms registryIntervalMs | None => false end
  then (s, None)
  else (s <| lastRegistryRefreshAt := Some now |>
          <| writes ::= fun l => l ++ [{| w_instance := instanceId s; w_state := WSent |}] |>,
        Some (length (writes s))).

Definition setWrite (w : nat) (st : write_state) (s : WorkerRun) : WorkerRun :=
  s <| writes ::= alter (fun x => x <| w_state := st |>) w |>.

(** The refreshes behind a settled one start. *)
Definition startRefresh (now : Z) (s : WorkerRun) (j : nat) : WorkerRun :=
  match stopRefreshes s !! j with
  | Some (Chained previous) =>
      if refreshSettled s previous then
        let '(s, w) := refreshRegistration true now s in
        s <| stopRefreshes ::= <[j := Started w]> |>
      else s
  | _ => s
  end.
Definition startRefreshes (now : Z) (s : WorkerRun) : WorkerRun :=
  foldl (startRefresh now) s (seq 0 (length (stopRefreshes s))).

(** [register_worker_v1] commits: the row names the instance. *)
Definition commitWrite (w : nat) (s : WorkerRun) : WorkerRun :=
  match writes s !! w with
  | Some {| w_instance := i; w_state := WSent |} => (setWrite w WCommitted s) <| row := Some i |>
  | _ => s
  end.
(** The rest of [writeRegistration]. *)
Definition writeAnswers (now : Z) (w : nat) (paused : bool) (s : WorkerRun) : WorkerRun :=
  match writes s !! w with
  | Some {| w_state := WCommitted |} =>
      startRefreshes now ((setWrite w WSettled s) <| registered := true |> <| remotelyPaused := paused |>)
  | _ => s
  end.
Definition writeFails (now : Z) (w : nat) (s : WorkerRun) : WorkerRun :=
  match writes s !! w with
  | Some {| w_state := WSent |} => startRefreshes now (setWrite w WSettled s)
  | _ => s
  end.

(** ** [stop], [pause] and [resume] *)
Definition stop (now : Z) (s : WorkerRun) : WorkerRun :=
  let s := s <| stopVersion ::= S |> <| stopping := true |> in
  let s := s <| draining := running s || (0 <? activeSlots s) |> in
  if draining s && registered s then
    let j := length (stopRefreshes s) in
    let '(s, r) := match pendingStop s with
                   | Some p => if refreshSettled s p
                               then let '(s, w) := refreshRegistration true now s in (s, Started w)
                               else (s, Chained p)
                   | None => let '(s, w) := refreshRegistration true now s in (s, Started w)
                   end in
    s <| stopRefreshes ::= fun l => l ++ [r] |> <| pendingStop := Some j |>
  else s.
Definition pause (s : WorkerRun) : WorkerRun := s <| locallyPaused := true |>.
Definition resume (s : WorkerRun) : WorkerRun := s <| locallyPaused := false |>.
Definition isPaused (s : WorkerRun) : bool := locallyPaused s || remotelyPaused s.

(** ** [deregister] *)
Definition setDereg (d : nat) (st : dereg_stage) (s : WorkerRun) : WorkerRun :=
  s <| deregs ::= alter (fun x => x <| d_stage := st |>) d |>.

Definition deregister (s : WorkerRun) : WorkerRun * nat :=
  (s <| pendingStartup := None |>
     <| deregs ::= fun l => l ++ [{| d_instance := instanceId s; d_stage := DWaiting (pendingStartup s) |}] |>,
   length (deregs s)).

(** An await of [deregister] ends. *)
Definition deregResumes (d : nat) (s : WorkerRun) : WorkerRun :=
  match deregs s !! d with
  | Some {| d_stage := DWaiting startup |} =>
      if writeSettled s startup && noPendingWrites s then
        if registered s then setDereg d (DStopRefresh (pendingStop s)) s else setDereg d DDone s
      else s
  | Some {| d_stage := DStopRefresh j |} =>
      if match j with Some j => refreshSettled s j | None => true end then
        setDereg d DSent (s <| pendingStop := None |> <| registered := false |>)
      else s
  | Some {| d_stage := DDeleted |} => setDereg d DDone s
  | _ => s
  end.
(** [deregister_worker_v2] commits: the row goes if it names the instance. *)
Definition deregCommits (d : nat) (s : WorkerRun) : WorkerRun :=
  match deregs s !! d with
  | Some {| d_instance := i; d_stage := DSent |} =>
      (setDereg d DDeleted s) <| row ::= fun r => if bool_decide (r = Some i) then None else r |>
  | _ => s
  end.
(** The statement fails, which [deregister] ignores. *)
Definition deregFails (d : nat) (s : WorkerRun) : WorkerRun :=
  match deregs s !! d with
  | Some {| d_stage := DSent |} => (setDereg d DDone s) <| deleteFailed := true |>
  | _ => s
  end.

(** ** The stop path of [runLoop] *)
Definition newOther (s : WorkerRun) : WorkerRun :=
  s <| others ::= fun l => l ++ [None] |> <| phase := Closing (length (others s)) |>
    <| stopWork ::= fun l => l ++ [WorkOther (length (others s))] |>.

Definition beginStop (failure : option nat) (s : WorkerRun) : WorkerRun :=
  let s := s <| failures := match failure with Some e => [e] | None => [] end |>
             <| ended := true |> <| running := false |> in
  let s := s <| draining := 0 <? activeSlots s |> in
  let s := s <| stopWork ::= fun l => l ++ (if loopsStarted s then [WorkLoops] else [])
                                        ++ (match pendingStop s with Some j => [WorkRefresh j] | None => [] end) |> in
  newOther s.

(** The wait for the current work ends, by the work or by the unwind deadline;
    then the next subscription closes, or [deregister] is called. *)
Definition closingProceeds (timedOut : bool) (s : WorkerRun) : WorkerRun :=
  match phase s with
  | Closing k =>
      let settled := match others s !! k with Some (Some r) => Some r | _ => None end in
      if timedOut || bool_decide (settled <> None) then
        let s := s <| failures ::= fun l => l ++ match settled with Some (Some e) => [e] | _ => [] end |> in
        match subscriptions s with
        | S n => newOther (s <| subscriptions := n |>)
        | O =>
            let '(s, d) := deregister s in
            s <| phase := Deregistering d |> <| stopWork ::= fun l => l ++ [WorkDereg d] |>
        end
      else s
  | _ => s
  end.
Definition runEnds (timedOut : bool) (s : WorkerRun) : WorkerRun :=
  match phase s with
  | Deregistering d =>
      if timedOut || workSettled s (WorkDereg d) then
        s <| phase := Idle |> <| previousRun ::= fun l => l ++ stopWork s |> <| stopWork := [] |>
          <| outcomes ::= fun l => l ++ [failures s] |>
      else s
  | _ => s
  end.

(** ** The start of [runLoop] *)
Definition beginRun (requestedStopVersion : nat) (aborted : bool) (s : WorkerRun) : WorkerRun :=
  match phase s with
  | Idle =>
      let s := s <| stopping := negb (stopVersion s =? requestedStopVersion)%nat |> <| signalAborted := aborted |>
                 <| draining := false |> <| running := true |> <| firstError := None |> <| subscriptions := 0%nat |>
                 <| loopsStarted := false |> in
      if shouldStop s then beginStop None s else s <| phase := Settling |>
  | _ => s
  end.

Inductive settle_outcome : Set := PreviousSettled | BudgetSpent (refusal : nat) | StoppedWhileSettling.
Definition settlePreviousRun (o : settle_outcome) (s : WorkerRun) : WorkerRun :=
  match phase s, o with
  | Settling, PreviousSettled =>
      if forallb (workSettled s) (previousRun s) then
        let s := s <| previousRun := [] |> in
        if shouldStop s then beginStop None s
        else s <| instanceId ::= S |> <| phase := Starting |>
      else s
  | Settling, BudgetSpent refusal => beginStop (Some refusal) s
  | Settling, StoppedWhileSettling => if shouldStop s then beginStop None s else s
  | _, _ => s
  end.

(** The readiness check of the channel, or the schema check without one. *)
Definition readinessEnds (failure : option nat) (now : Z) (s : WorkerRun) : WorkerRun :=
  match phase s with
  | Starting =>
      if negb hasChannel && bool_decide (failure <> None) then beginStop failure s
      else if shouldStop s then beginStop None s
      else if bool_decide (failure <> None) then beginStop failure s
      else
        let '(s, w) := refreshRegistration true now s in
        s <| pendingStartup := w |> <| stopWork ::= fun l => l ++ [WorkWrite w] |> <| phase := FirstWrite w |>
  | _ => s
  end.
Definition firstWriteEnds (s : WorkerRun) : WorkerRun :=
  match phase s with
  | FirstWrite w =>
      if shouldStop s then beginStop None s
      else if writeSettled s w then s <| phase := Subscribing |> else s
  | _ => s
  end.

(** ** The loops *)
Definition fail (e : nat) (s : WorkerRun) : WorkerRun :=
  if ended s then s
  else
    let s := s <| firstError ::= fun f => match f with None => Some e | Some _ => f end |> <| stopping := true |> in
    s <| draining := running s || (0 <? activeSlots s) |>.

(** [runMaintenance] up to its first await. *)
Definition runMaintenance (now : Z) (s : WorkerRun) : WorkerRun :=
  let '(s, w) := refreshRegistration false now s in
  s <| maintenance := match w with Some w => LoopWriting w | None => LoopPass end |>.
(** The head of [registrationLoop]. *)
Definition registrationHead (now : Z) (s : WorkerRun) : WorkerRun :=
  if (registryIntervalMs =? 0) || loopShouldStop s then s <| registration := LoopOff |>
  else
    let '(s, w) := refreshRegistration false now s in
    s <| registration := match w with Some w => LoopWriting w | None => LoopWaiting end |>.

Definition subscribingEnds (failure : option nat) (now : Z) (s : WorkerRun) : WorkerRun :=
  match phase s, failure with
  | Subscribing, Some e => beginStop (Some e) s
  | Subscribing, None =>
      registrationHead now (runMaintenance now
        (s <| phase := Dispatching |> <| ended := false |> <| loopsStarted := true |>))
  | _, _ => s
  end.

Definition maintenanceResumes (passError : option nat) (now : Z) (s : WorkerRun) : WorkerRun :=
  match maintenance s with
  | LoopOff => s
  | LoopWriting w => if writeSettled s (Some w) then s <| maintenance := LoopPass |> else s
  | LoopPass =>
      match passError with
      | Some e => fail e (s <| maintenance := LoopOff |>)
      | None => s <| maintenance := if loopShouldStop s then LoopOff else LoopWaiting |>
      end
  | LoopWaiting => if loopShouldStop s then s <| maintenance := LoopOff |> else runMaintenance now s
  end.
Definition registrationResumes (now : Z) (s : WorkerRun) : WorkerRun :=
  match registration s with
  | LoopWriting w =>
      if writeSettled s (Some w)
      then s <| registration := if loopShouldStop s then LoopOff else LoopWaiting |> else s
  | LoopWaiting => registrationHead now s
  | _ => s
  end.

(** The dispatch loop: it changes the active slots, can fail, and ends when no
    handler runs. *)
Definition dispatchRuns (slots : Z) (s : WorkerRun) : WorkerRun :=
  match phase s with Dispatching => s <| activeSlots := Z.max 0 slots |> | _ => s end.
Definition dispatchFails (e : nat) (s : WorkerRun) : WorkerRun :=
  match phase s with Dispatching => fail e s | _ => s end.
Definition dispatchEnds (s : WorkerRun) : WorkerRun :=
  match phase s with
  | Dispatching => if activeSlots s =? 0 then s <| phase := Unwinding |> else s
  | _ => s
  end.
Definition unwindEnds (timedOut : bool) (s : WorkerRun) : WorkerRun :=
  match phase s with
  | Unwinding => if timedOut || loopsOff s then beginStop (firstError s) s else s
  | _ => s
  end.

(** ** Events *)
Inductive run_event : Type :=
| Run (requestedStopVersion : nat) (aborted : bool)
| Stop | Pause | Resume | SignalAborts
| SettleEnds (o : settle_outcome)
| ReadinessEnds (failure : option nat)
| FirstWriteEnds
| Subscribed
| SubscribingEnds (failure : option nat)
| DispatchRuns (slots : Z) | DispatchFails (e : nat) | DispatchEnds
| MaintenanceResumes (passError : option nat) | RegistrationResumes
| UnwindEnds (timedOut : bool)
| OtherSettles (k : nat) (error : option nat)
| ClosingProceeds (timedOut : bool)
| RunEnds (timedOut : bool)
| CommitWrite (w : nat) | WriteAnswers (w : nat) (paused : bool) | WriteFails (w : nat)
| DeregResumes (d : nat) | DeregCommits (d : nat) | DeregFails (d : nat).

Definition run_step (s : WorkerRun) (te : Z * run_event) : WorkerRun :=
  let now := te.1 in
  match te.2 with
  | Run v aborted => beginRun v aborted s
  | Stop => stop now s
  | Pause => pause s
  | Resume => resume s
  | SignalAborts => match phase s with Idle => s | _ => s <| signalAborted := true |> end
  | SettleEnds o => settlePreviousRun o s
  | ReadinessEnds failure => readinessEnds failure now s
  | FirstWriteEnds => firstWriteEnds s
  | Subscribed => match phase s with Subscribing => s <| subscriptions ::= S |> | _ => s end
  | SubscribingEnds failure => subscribingEnds failure now s
  | DispatchRuns slots => dispatchRuns slots s
  | DispatchFails e => dispatchFails e s
  | DispatchEnds => dispatchEnds s
  | MaintenanceResumes passError => maintenanceResumes passError now s
  | RegistrationResumes => registrationResumes now s
  | UnwindEnds timedOut => unwindEnds timedOut s
  | OtherSettles k error => s <| others ::= alter (fun o => match o with None => Some error | _ => o end) k |>
  | ClosingProceeds timedOut => closingProceeds timedOut s
  | RunEnds timedOut => runEnds timedOut s
  | CommitWrite w => commitWrite w s
  | WriteAnswers w paused => writeAnswers now w paused s
  | WriteFails w => writeFails now w s
  | DeregResumes d => deregResumes d s
  | DeregCommits d => deregCommits d s
  | DeregFails d => deregFails d s
  end.

(** ** The invariant *)

(** The worker is between [run] and the call of [deregister]. *)
Definition active (p : run_phase) : bool := match p with Idle | Deregistering _ => false | _ => true end.
(** [running] is set. *)
Definition live (p : run_phase) : bool := match p with Idle | Closing _ | Deregistering _ => false | _ => true end.
Definition looping (p : run_phase) : bool := match p with Dispatching | Unwinding => true | _ => false end.

Definition dereg_in (P : dereg_stage -> Prop) (s : WorkerRun) : Prop :=
  exists d x, deregs s !! d = Some x /\ P (d_stage x).
Definition write_in (st : write_state) (s : WorkerRun) : Prop :=
  exists w x, writes s !! w = Some x /\ w_state x = st.

(** A [deregister] that still waits for every write is there, or will be: the
    run goes on, and a run that settles the previous one was stopped. *)
Definition covered (s : WorkerRun) : Prop :=
  (active (phase s) = true /\ (phase s = Settling -> stopping s = true)) \/
  dereg_in (fun st => exists startup, st = DWaiting startup) s.

Record run_inv (s : WorkerRun) : Prop := {
  i_cover : forall w x, writes s !! w = Some x -> w_state x <> WSettled -> w_instance x = instanceId s /\ covered s;
  i_registered : registered s = true -> covered s \/ dereg_in (fun st => exists j, st = DStopRefresh j) s;
  i_row : deleteFailed s = false -> forall i, row s = Some i ->
    i = instanceId s /\ (write_in WCommitted s \/ registered s = true \/ dereg_in (eq DSent) s);
  i_dereg : forall d x, deregs s !! d = Some x -> d_stage x <> DDone ->
    d_instance x = instanceId s /\ WorkDereg d ∈ previousRun s ++ stopWork s;
  i_running : running s = live (phase s);
  i_slots : activeSlots s <> 0 -> phase s = Dispatching;
  i_ended : ended s = false -> looping (phase s) = true \/ loopsOff s = true;
  i_loops : loopsOff s = false ->
    (looping (phase s) = true /\ loopsStarted s = true) \/ WorkLoops ∈ previousRun s ++ stopWork s;
  i_stopWork : phase s = Idle \/ phase s = Settling -> stopWork s = [];
  i_alone : phase s = Starting ->
    registered s = false /\ noPendingWrites s = true /\ forallb deregDone (deregs s) = true /\ loopsOff s = true;
}.

Lemma noPendingWrites_spec s :
  noPendingWrites s = true <-> forall w x, writes s !! w = Some x -> w_state x = WSettled.
Proof.
  unfold noPendingWrites. rewrite forallb_lookup. split; intros H w x Hx; specialize (H w x Hx);
    by apply bool_decide_eq_true in H || apply bool_decide_eq_true.
Qed.

(** Sending a registration write. *)
Definition sent (now : Z) (s : WorkerRun) : WorkerRun :=
  s <| lastRegistryRefreshAt := Some now |>
    <| writes ::= fun l => l ++ [{| w_instance := instanceId s; w_state := WSent |}] |>.
Lemma refresh_cases force now s :
  refreshRegistration force now s = (s, None) \/
  refreshRegistration force now s = (sent now s, Some (length (writes s))).
Proof. unfold refreshRegistration. repeat case_match; auto. Qed.

Lemma sent_inv now s : run_inv s -> covered s -> phase s <> Starting -> run_inv (sent now s).
Proof.
  intros [] Hc Hp. constructor; try done; simpl.
  - intros w x [Hx|[_ Hx]]%lookup_app_Some; [eauto|].
    apply list_lookup_singleton_Some in Hx as [_ <-]. done.
  - intros Hd i Hr. destruct (i_row0 Hd i Hr) as [-> [(w & x & Hx & Hst)|?]]; split; auto.
    left. exists w, x. split; [by apply lookup_app_l_Some|done].
Qed.
Lemma refresh_inv force now s :
  run_inv s -> covered s -> phase s <> Starting -> run_inv (refreshRegistration force now s).1.
Proof. intros. destruct (refresh_cases force now s) as [-> | ->]; [done | by apply sent_inv]. Qed.

Lemma unsettled_covered s w x :
  run_inv s -> writes s !! w = Some x -> w_state x <> WSettled -> covered s /\ phase s <> Starting.
Proof.
  intros Hs Hx Hst. split; [by eapply (i_cover s Hs)|]. intros Hp.
  destruct (i_alone s Hs Hp) as (_ & Hn & _). rewrite noPendingWrites_spec in Hn. eauto.
Qed.

(** A write changes to [st]: from committed to settled, which registers the
    worker, or from sent to settled. *)
Lemma settle_inv w x s (reg : bool) :
  run_inv s -> writes s !! w = Some x -> w_state x <> WSettled -> (w_state x = WCommitted -> reg = true) ->
  run_inv ((setWrite w WSettled s) <| registered := registered s || reg |>).
Proof.
  intros Hs Hx Hst Hreg. destruct (unsettled_covered _ _ _ Hs Hx Hst) as [Hc Hp]. destruct Hs.
  constructor; try done; simpl.
  - intros w' x' (y & Hy & ->)%lookup_alter_inv. case_decide; [done|]. eauto.
  - auto.
  - intros Hd i Hr. destruct (i_row0 Hd i Hr) as [-> [(w' & x' & Hx' & Hst')|[->|?]]]; split; auto.
    destruct (decide (w = w')) as [->|].
    + simplify_eq. right; left. rewrite Hreg by done. apply orb_true_r.
    + left. exists w', x'. split; [by apply lookup_alter_other|done].
Qed.

Lemma startRefresh_inv now j s :
  run_inv s -> covered s -> phase s <> Starting ->
  run_inv (startRefresh now s j) /\ covered (startRefresh now s j) /\ phase (startRefresh now s j) <> Starting.
Proof.
  intros Hs Hc Hp. unfold startRefresh. repeat case_match; try done.
  pose proof (refresh_inv true now s Hs Hc Hp) as Hi.
  destruct (refresh_cases true now s) as [E|E]; rewrite E in *; simplify_eq; simpl in Hi;
    (split; [by destruct Hi; constructor | done]).
Qed.
Lemma startRefreshes_inv now s :
  run_inv s -> covered s -> phase s <> Starting -> run_inv (startRefreshes now s).
Proof.
  unfold startRefreshes. generalize (seq 0 (length (stopRefreshes s))). intros l. revert s.
  induction l as [|j l IH]; intros s Hs Hc Hp; simpl; [done|].
  destruct (startRefresh_inv now j s Hs Hc Hp) as (? & ? & ?). auto.
Qed.

Lemma writeAnswers_inv now w paused s : run_inv s -> run_inv (writeAnswers now w paused s).
Proof.
  intros Hs. unfold writeAnswers. destruct (writes s !! w) as [[i []]|] eqn:E; try done.
  destruct (unsettled_covered _ _ _ Hs E) as [Hc Hp]; [done|].
  apply startRefreshes_inv; [|done|done].
  destruct (settle_inv _ _ _ true Hs E); [done|done|]. constructor; try done; simpl in *;
    by rewrite orb_true_r in *.
Qed.
Lemma writeFails_inv now w s : run_inv s -> run_inv (writeFails now w s).
Proof.
  intros Hs. unfold writeFails. destruct (writes s !! w) as [[i []]|] eqn:E; try done.
  destruct (unsettled_covered _ _ _ Hs E) as [Hc Hp]; [done|].
  apply startRefreshes_inv; [|done|done].
  destruct (settle_inv _ _ _ false Hs E); [done|done|]. constructor; try done; simpl in *;
    by rewrite orb_false_r in *.
Qed.
Lemma commitWrite_inv w s : run_inv s -> run_inv (commitWrite w s).
Proof.
  intros Hs. unfold commitWrite. destruct (writes s !! w) as [[i []]|] eqn:E; try done.
  destruct (i_cover s Hs w _ E) as [Hi Hc]; [done|].
  assert (Hp := proj2 (unsettled_covered _ _ _ Hs E ltac:(done))). simpl in Hi. subst i. destruct Hs.
  constructor; try done; simpl.
  - intros w' x' (y & Hy & ->)%lookup_alter_inv. case_decide; [|eauto]. subst. simplify_eq. done.
  - intros _ i [= <-]. split; [done|]. left. exists w. eexists. split; [simpl; by rewrite list_lookup_alter_eq, E | done].
Qed.

(** ** [deregister] keeps the invariant *)
Lemma dereg_in_set (P : dereg_stage -> Prop) d x st s :
  deregs s !! d = Some x -> ~ P (d_stage x) -> dereg_in P s -> dereg_in P (setDereg d st s).
Proof.
  intros Hx HP (d' & x' & Hx' & HP'). destruct (decide (d = d')) as [->|]; [by simplify_eq|].
  exists d', x'. split; [by apply lookup_alter_other|done].
Qed.
Lemma dereg_in_new (P : dereg_stage -> Prop) d x st s :
  deregs s !! d = Some x -> P st -> dereg_in P (setDereg d st s).
Proof.
  intros Hx HP. exists d. eexists. split; [simpl; by rewrite list_lookup_alter_eq, Hx | done].
Qed.
Lemma not_done_not_alone s d x :
  run_inv s -> deregs s !! d = Some x -> d_stage x <> DDone -> phase s <> Starting.
Proof.
  intros Hs Hx Hst Hp. destruct (i_alone s Hs Hp) as (_ & _ & Hd & _). rewrite forallb_lookup in Hd.
  specialize (Hd d x Hx). unfold deregDone in Hd. by destruct (d_stage x).
Qed.
Lemma covered_set d x st s :
  deregs s !! d = Some x -> (forall startup, d_stage x <> DWaiting startup) -> covered s ->
  covered (setDereg d st s).
Proof. intros Hx Hst [?|?]; [by left|]. right. eapply dereg_in_set; [done|naive_solver|done]. Qed.
Lemma setDereg_dereg d x st s :
  run_inv s -> deregs s !! d = Some x -> d_stage x <> DDone ->
  forall d' x', deregs (setDereg d st s) !! d' = Some x' -> d_stage x' <> DDone ->
    d_instance x' = instanceId s /\ WorkDereg d' ∈ previousRun s ++ stopWork s.
Proof.
  intros Hs Hx Hst d' x' (y & Hy & ->)%lookup_alter_inv Hst'. case_decide; subst; simplify_eq; simpl;
    by apply (i_dereg s Hs).
Qed.
(** The invariant depends on some fields only. *)
Ltac same_fields H := destruct H; constructor; assumption.

Lemma setDereg_inv d x st reg r failed s :
  run_inv s -> deregs s !! d = Some x -> d_stage x <> DDone ->
  ((exists w y, writes s !! w = Some y /\ w_state y <> WSettled) -> covered (setDereg d st s)) ->
  (reg = true -> covered (setDereg d st s) \/ dereg_in (fun st => exists j, st = DStopRefresh j) (setDereg d st s)) ->
  (failed = false -> forall i, r = Some i ->
    i = instanceId s /\ (write_in WCommitted s \/ reg = true \/ dereg_in (eq DSent) (setDereg d st s))) ->
  run_inv ((setDereg d st s) <| registered := reg |> <| row := r |> <| deleteFailed := failed |>).
Proof.
  intros Hs Hx Hst Hc Hreg Hrow. assert (Hn := not_done_not_alone s d x Hs Hx Hst).
  assert (Hd := setDereg_dereg d x st s Hs Hx Hst). destruct Hs.
  constructor; try assumption; [|by intros ?%Hn].
  intros w y Hy Hy'. destruct (i_cover0 w y Hy Hy') as [? _]. split; [assumption|]. apply Hc. eauto.
Qed.

(** The promise that one stage leaves the others alone, for the three stages
    that the invariant asks for. *)
Lemma row_reason_set d x st s :
  deregs s !! d = Some x -> d_stage x <> DSent ->
  (write_in WCommitted s \/ registered s = true \/ dereg_in (eq DSent) s) ->
  write_in WCommitted s \/ registered s = true \/ dereg_in (eq DSent) (setDereg d st s).
Proof. intros Hx Hst [?|[?|?]]; auto. right; right. eapply dereg_in_set; [exact Hx|congruence|assumption]. Qed.

Lemma deregResumes_inv d s : run_inv s -> run_inv (deregResumes d s).
Proof.
  intros Hs. unfold deregResumes. destruct (deregs s !! d) as [[inst st]|] eqn:E; [|exact Hs].
  destruct st as [startup|j| | |]; try exact Hs.
  - destruct (writeSettled s startup && noPendingWrites s) eqn:Hw; [|exact Hs].
    apply andb_prop in Hw as [_ Hw]. rewrite noPendingWrites_spec in Hw.
    assert (Hgo : forall st, (registered s = true -> exists j, st = DStopRefresh j) -> run_inv (setDereg d st s)).
    { intros st Hst. unshelve epose proof (setDereg_inv d _ st (registered s) (row s) (deleteFailed s) s Hs E _ _ _ _) as Hi.
      - done.
      - intros (w & y & Hy & Hy'). by rewrite (Hw w y Hy) in Hy'.
      - intros Hr. right. eapply dereg_in_new; eauto.
      - intros Hd i Hi. destruct (i_row s Hs Hd i Hi) as [-> Hr]. split; [done|]. by eapply row_reason_set.
      - same_fields Hi. }
    destruct (registered s); apply Hgo; [eauto|done].
  - case_match; [|exact Hs]. unshelve epose proof (setDereg_inv d _ DSent false (row s) (deleteFailed s) s Hs E _ _ _ _) as Hi.
    + done.
    + intros (w & y & Hy & Hy'). eapply covered_set; [exact E|done|]. by eapply (i_cover s Hs).
    + done.
    + intros Hd i Hi. destruct (i_row s Hs Hd i Hi) as [-> _]. split; [done|]. right; right. by eapply dereg_in_new.
    + same_fields Hi.
  - unshelve epose proof (setDereg_inv d _ DDone (registered s) (row s) (deleteFailed s) s Hs E _ _ _ _) as Hi.
    + done.
    + intros (w & y & Hy & Hy'). eapply covered_set; [exact E|done|]. by eapply (i_cover s Hs).
    + intros [?|?]%(i_registered s Hs); [left; by eapply covered_set|].
      right. eapply dereg_in_set; [exact E|by intros []|done].
    + intros Hd i Hi. destruct (i_row s Hs Hd i Hi) as [-> Hr]. split; [done|]. by eapply row_reason_set.
    + same_fields Hi.
Qed.

Lemma deregCommits_inv d s : run_inv s -> run_inv (deregCommits d s).
Proof.
  intros Hs. unfold deregCommits. destruct (deregs s !! d) as [[inst st]|] eqn:E; [|exact Hs].
  destruct st; try exact Hs. destruct (i_dereg s Hs _ _ E) as [Hinst _]; [done|]. simpl in Hinst. subst inst.
  set (r := if bool_decide (row s = Some (instanceId s)) then None else row s).
  unshelve epose proof (setDereg_inv d _ DDeleted (registered s) r (deleteFailed s) s Hs E _ _ _ _) as Hi.
  - done.
  - intros (w & y & Hy & Hy'). eapply covered_set; [exact E|done|]. by eapply (i_cover s Hs).
  - intros [?|?]%(i_registered s Hs); [left; by eapply covered_set|].
    right. eapply dereg_in_set; [exact E|by intros []|done].
  - intros Hd i Hi. subst r. case_bool_decide as Hr; [done|].
    destruct (i_row s Hs Hd i Hi) as [-> _]. congruence.
  - same_fields Hi.
Qed.
Lemma deregFails_inv d s : run_inv s -> run_inv (deregFails d s).
Proof.
  intros Hs. unfold deregFails. destruct (deregs s !! d) as [[inst st]|] eqn:E; [|exact Hs].
  destruct st; try exact Hs.
  unshelve epose proof (setDereg_inv d _ DDone (registered s) (row s) true s Hs E _ _ _ _) as Hi.
  - done.
  - intros (w & y & Hy & Hy'). eapply covered_set; [exact E|done|]. by eapply (i_cover s Hs).
  - intros [?|?]%(i_registered s Hs); [left; by eapply covered_set|].
    right. eapply dereg_in_set; [exact E|by intros []|done].
  - done.
  - same_fields Hi.
Qed.

(** ** The phases keep the invariant *)

(** What the stop path starts from. *)
Record stop_pre (s : WorkerRun) : Prop := {
  p_instance : forall w x, writes s !! w = Some x -> w_state x <> WSettled -> w_instance x = instanceId s;
  p_row : deleteFailed s = false -> forall i, row s = Some i ->
    i = instanceId s /\ (write_in WCommitted s \/ registered s = true \/ dereg_in (eq DSent) s);
  p_dereg : forall d x, deregs s !! d = Some x -> d_stage x <> DDone ->
    d_instance x = instanceId s /\ WorkDereg d ∈ previousRun s ++ stopWork s;
  p_slots : activeSlots s = 0;
  p_loops : loopsOff s = false -> loopsStarted s = true \/ WorkLoops ∈ previousRun s ++ stopWork s;
}.
Lemma inv_stop_pre s : run_inv s -> phase s <> Dispatching -> stop_pre s.
Proof.
  intros [] Hp. constructor; [..|naive_solver]; try assumption; [intros; by eapply i_cover0|].
  destruct (decide (activeSlots s = 0)); [assumption|]. by destruct Hp; apply i_slots0.
Qed.

Lemma newOther_inv s :
  stop_pre s -> running s = false -> ended s = true \/ loopsOff s = true ->
  (loopsOff s = false -> WorkLoops ∈ previousRun s ++ stopWork s) -> run_inv (newOther s).
Proof.
  intros [] Hr He Hl. assert (Hin : forall x, x ∈ previousRun s ++ stopWork s ->
    x ∈ previousRun s ++ stopWork s ++ [WorkOther (length (others s))]) by set_solver.
  constructor; simpl; try done.
  - intros w x Hx Hst. split; [by eapply p_instance0|]. left. done.
  - intros _. left. left. done.
  - intros d x Hx Hst. destruct (p_dereg0 d x Hx Hst). auto.
  - intros Ho. right. by destruct He; [congruence|].
  - intros Ho. right. apply Hin, Hl, Ho.
  - by intros [?|?].
Qed.
Lemma beginStop_inv failure s : stop_pre s -> run_inv (beginStop failure s).
Proof.
  intros []. unfold beginStop. apply newOther_inv; [|done|by left|].
  - constructor; simpl; try assumption.
    + intros d x Hx Hst. destruct (p_dereg0 d x Hx Hst). set_solver.
    + intros Ho. destruct (p_loops0 Ho); [by left|]. set_solver.
  - simpl. intros Ho. destruct (p_loops0 Ho) as [-> | ?]; set_solver.
Qed.

Lemma dereg_in_app P x s l : deregs s = l -> dereg_in P s ->
  exists d y, (l ++ [x]) !! d = Some y /\ P (d_stage y).
Proof. intros <- (d & y & Hy & HP). exists d, y. split; [by apply lookup_app_l_Some|done]. Qed.

Lemma deregister_inv s :
  stop_pre s -> running s = false -> ended s = true \/ loopsOff s = true ->
  (loopsOff s = false -> WorkLoops ∈ previousRun s ++ stopWork s) ->
  run_inv ((deregister s).1 <| phase := Deregistering (length (deregs s)) |>
             <| stopWork ::= fun l => l ++ [WorkDereg (length (deregs s))] |>).
Proof.
  intros [] Hr He Hl. set (s' := _ <| stopWork ::= _ |>).
  assert (Hc : covered s').
  { right. exists (length (deregs s)). eexists.
    split; [simpl; rewrite lookup_app_r by lia; by rewrite Nat.sub_diag|]. by exists (pendingStartup s). }
  constructor; try done; simpl.
  - intros w x Hx Hst. split; [by eapply p_instance0|exact Hc].
  - intros _. by left.
  - intros Hd i Hi. destruct (p_row0 Hd i Hi) as [-> [?|[?|Hin]]]; split; auto.
    right; right. by eapply dereg_in_app.
  - intros d x [Hx|[Hd Hx]]%lookup_app_Some Hst.
    + destruct (p_dereg0 d x Hx Hst). set_solver.
    + apply list_lookup_singleton_Some in Hx as [Hd' <-]. split; [done|].
      replace d with (length (deregs s)) by lia. set_solver.
  - intros Ho. right. by destruct He; [congruence|].
  - intros Ho. right. specialize (Hl Ho). set_solver.
  - by intros [?|?].
Qed.

Lemma closingProceeds_inv timedOut s : run_inv s -> run_inv (closingProceeds timedOut s).
Proof.
  intros Hs. unfold closingProceeds. destruct (phase s) eqn:Hp; try exact Hs. case_match; [|exact Hs].
  assert (Hl : loopsOff s = false -> WorkLoops ∈ previousRun s ++ stopWork s).
  { intros Ho. destruct (i_loops s Hs Ho) as [[Hf _]|?]; [|done]. by rewrite Hp in Hf. }
  assert (Hr := i_running s Hs). rewrite Hp in Hr. simpl in Hr.
  assert (He : ended s = true \/ loopsOff s = true).
  { destruct (ended s) eqn:He; [by left|]. destruct (i_ended s Hs He) as [Hf|]; [by rewrite Hp in Hf|by right]. }
  assert (Hpre : stop_pre s) by (apply inv_stop_pre; congruence).
  set (s1 := s <| failures ::= _ |>).
  destruct (subscriptions s1) as [|n].
  - apply (deregister_inv s1); try done. destruct Hpre; constructor; assumption.
  - apply newOther_inv; try done. destruct Hpre; constructor; assumption.
Qed.

Lemma runEnds_inv timedOut s : run_inv s -> run_inv (runEnds timedOut s).
Proof.
  intros Hs. unfold runEnds. destruct (phase s) eqn:Hp; try exact Hs. case_match; [|exact Hs].
  assert (Hr := i_running s Hs). rewrite Hp in Hr. destruct (inv_stop_pre s Hs); [congruence|]. destruct Hs.
  constructor; simpl; try rewrite app_nil_r; try done.
  - intros w x Hx Hst. destruct (i_cover0 w x Hx Hst) as [? [[Hf _]|?]]; [by rewrite Hp in Hf|]. split; [done|by right].
  - intros [[[Hf _]|?]|?]%i_registered0; [by rewrite Hp in Hf|left; by right|by right].
  - intros He. destruct (i_ended0 He) as [Hf|?]; [by rewrite Hp in Hf|by right].
  - intros Ho. destruct (i_loops0 Ho) as [[Hf _]|?]; [by rewrite Hp in Hf|by right].
Qed.

Lemma beginRun_inv v aborted s : run_inv s -> run_inv (beginRun v aborted s).
Proof.
  intros Hs. unfold beginRun. destruct (phase s) eqn:Hp; try exact Hs.
  assert (Hl : loopsOff s = false -> WorkLoops ∈ previousRun s ++ stopWork s).
  { intros Ho. destruct (i_loops s Hs Ho) as [[Hf _]|?]; [|done]. by rewrite Hp in Hf. }
  assert (Hpre : stop_pre s) by (apply inv_stop_pre; congruence).
  case_match.
  - apply beginStop_inv. destruct Hpre; constructor; try assumption. simpl. auto.
  - destruct Hs. constructor; simpl; try done.
    + intros w x Hx Hst. destruct (i_cover0 w x Hx Hst) as [? [[Hf _]|?]]; [by rewrite Hp in Hf|].
      split; [done|by right].
    + intros [[[Hf _]|?]|?]%i_registered0; [by rewrite Hp in Hf|left; by right|by right].
    + intros Ha. rewrite (p_slots s Hpre) in Ha. done.
    + intros He. destruct (i_ended0 He) as [Hf|?]; [by rewrite Hp in Hf|by right].
    + intros Ho. right. auto.
    + auto.
Qed.

(** When the previous run has settled, nothing of it is left. *)
Lemma previous_settled s :
  run_inv s -> phase s = Settling -> forallb (workSettled s) (previousRun s) = true ->
  forallb deregDone (deregs s) = true /\ loopsOff s = true.
Proof.
  intros Hs Hp Hall. assert (Hin : forall x, x ∈ previousRun s ++ stopWork s -> workSettled s x = true).
  { intros x. rewrite (i_stopWork s Hs) by auto. rewrite app_nil_r. intros Hx%list_elem_of_lookup_1.
    destruct Hx as [i Hi]. rewrite forallb_lookup in Hall. eauto. }
  split.
  - apply forallb_lookup. intros d x Hx. destruct (deregDone x) eqn:Hd; [done|].
    destruct (i_dereg s Hs d x Hx) as [_ Hw]; [by intros E; unfold deregDone in Hd; rewrite E in Hd|].
    apply Hin in Hw. simpl in Hw. rewrite Hx in Hw. congruence.
  - destruct (loopsOff s) eqn:Ho; [done|]. destruct (i_loops s Hs Ho) as [[Hf _]|Hw]; [by rewrite Hp in Hf|].
    apply Hin in Hw. simpl in Hw. congruence.
Qed.
Lemma all_done_none P s : forallb deregDone (deregs s) = true -> ~ P DDone -> ~ dereg_in P s.
Proof.
  intros Hall HP (d & x & Hx & Hx'). rewrite forallb_lookup in Hall. specialize (Hall d x Hx).
  unfold deregDone in Hall. by destruct (d_stage x).
Qed.
Lemma uncovered s :
  phase s = Settling -> stopping s = false -> forallb deregDone (deregs s) = true -> ~ covered s.
Proof.
  intros Hp Hst Hd [[_ Hc]|Hc]; [rewrite Hc in Hst by done; done|]. revert Hc. apply all_done_none; [done|by intros []].
Qed.

Lemma nothing_left s :
  run_inv s -> ~ covered s -> forallb deregDone (deregs s) = true ->
  noPendingWrites s = true /\ registered s = false /\ (deleteFailed s = false -> row s = None).
Proof.
  intros Hs Hunc Hd.
  assert (Hw : noPendingWrites s = true).
  { apply noPendingWrites_spec. intros w x Hx. destruct (decide (w_state x = WSettled)) as [|Hst]; [done|].
    destruct Hunc. by eapply (i_cover s Hs). }
  assert (Hreg : registered s = false).
  { destruct (registered s) eqn:Hr; [|done]. destruct (i_registered s Hs Hr) as [?|Hj]; [done|].
    exfalso. eapply all_done_none; [exact Hd| |exact Hj]. by intros []. }
  split_and!; [done..|]. intros Hf. destruct (row s) as [i|] eqn:Hr; [|done].
  destruct (i_row s Hs Hf i Hr) as [_ [(w & x & Hx & Hst)|[?|Hj]]]; [|congruence|].
  - rewrite noPendingWrites_spec in Hw. by rewrite (Hw w x Hx) in Hst.
  - exfalso. eapply all_done_none; [exact Hd| |exact Hj]. done.
Qed.

Lemma settlePreviousRun_inv o s : run_inv s -> run_inv (settlePreviousRun o s).
Proof.
  intros Hs. unfold settlePreviousRun. destruct (phase s) eqn:Hp; try exact Hs.
  assert (Hpre : stop_pre s) by (apply inv_stop_pre; congruence).
  destruct o; [|by apply beginStop_inv|case_match; [by apply beginStop_inv|exact Hs]].
  case_match eqn:Hall; [|exact Hs]. destruct (previous_settled s Hs Hp Hall) as [Hd Hl].
  assert (Hdone : forall d x, deregs s !! d = Some x -> d_stage x <> DDone -> False).
  { intros d x Hx Hst. rewrite forallb_lookup in Hd. specialize (Hd d x Hx). unfold deregDone in Hd.
    by destruct (d_stage x). }
  case_match eqn:Hstop.
  - apply beginStop_inv. destruct Hpre; constructor; simpl; try assumption.
    + intros d x Hx Hst. by destruct (Hdone d x Hx Hst).
    + intros Ho. change (loopsOff s = false) in Ho. congruence.
  - apply orb_false_elim in Hstop as [Hstop _]. simpl in Hstop.
    destruct (nothing_left s Hs (uncovered s Hp Hstop Hd) Hd) as (Hw & Hreg & Hrow).
    assert (Hr := i_running s Hs). rewrite Hp in Hr. simpl in Hr.
    constructor; simpl; try done.
    + intros w x Hx Hst. rewrite noPendingWrites_spec in Hw. by rewrite (Hw w x Hx) in Hst.
    + congruence.
    + intros Hf i Hi. rewrite (Hrow Hf) in Hi. done.
    + intros d x Hx Hst. by destruct (Hdone d x Hx Hst).
    + intros Ha. by rewrite (p_slots s Hpre) in Ha.
    + auto.
    + intros Ho. change (loopsOff s = false) in Ho. congruence.
    + by intros [?|?].
Qed.

Lemma readinessEnds_inv failure now s : run_inv s -> run_inv (readinessEnds failure now s).
Proof.
  intros Hs. unfold readinessEnds. destruct (phase s) eqn:Hp; try exact Hs.
  assert (Hpre : stop_pre s) by (apply inv_stop_pre; congruence).
  do 3 (case_match; [by apply beginStop_inv|]).
  assert (Hgo : forall w, run_inv (s <| pendingStartup := w |> <| stopWork ::= fun l => l ++ [WorkWrite w] |>
                                     <| phase := FirstWrite w |>)).
  { intros w. destruct Hs. constructor; simpl; try rewrite Hp in *; try done.
    - intros w' x Hx Hst. destruct (i_cover0 w' x Hx Hst). split; [done|by left].
    - intros Hr. left. by left.
    - intros d x Hx Hst. destruct (i_dereg0 d x Hx Hst). set_solver.
    - by intros ?%i_slots0.
    - intros Ho. destruct (i_loops0 Ho) as [[? _]|?]; [done|]. set_solver.
    - by intros [?|?]. }
  destruct (refresh_cases true now s) as [E|E]; rewrite E; [apply Hgo|].
  apply (sent_inv now _ (Hgo _)); [by left|done].
Qed.
Lemma firstWriteEnds_inv s : run_inv s -> run_inv (firstWriteEnds s).
Proof.
  intros Hs. unfold firstWriteEnds. destruct (phase s) eqn:Hp; try exact Hs.
  assert (Hpre : stop_pre s) by (apply inv_stop_pre; congruence).
  case_match; [by apply beginStop_inv|]. case_match; [|exact Hs].
  destruct Hs. constructor; simpl; try rewrite Hp in *; try done.
  - intros w' x Hx Hst. destruct (i_cover0 w' x Hx Hst). split; [done|by left].
  - intros Hr. left. by left.
  - by intros ?%i_slots0.
  - by intros [?|?].
Qed.

(** ** The loops keep the invariant *)
Definition loops_may (s : WorkerRun) : Prop :=
  loopsOff s = false \/ (looping (phase s) = true /\ loopsStarted s = true).

Lemma looping_covered s : looping (phase s) = true -> covered s /\ phase s <> Starting.
Proof. intros H. split; [left|]; by destruct (phase s). Qed.
Lemma loops_may_looping s : run_inv s -> loops_may s -> ended s = false -> looping (phase s) = true.
Proof. intros Hs [Ho|[? _]] He; [|done]. destruct (i_ended s Hs He); congruence. Qed.

Lemma set_maintenance_inv x s : run_inv s -> x = LoopOff \/ loops_may s -> run_inv (s <| maintenance := x |>).
Proof.
  intros Hs Hx. assert (Ho : loopsOff (s <| maintenance := x |>) = false -> loops_may s).
  { destruct Hx as [-> |?]; [|done]. intros Ho. left. unfold loopsOff in *. simpl in Ho. rewrite Ho. apply andb_false_r. }
  destruct Hs. constructor; try assumption.
  - intros He. destruct (loopsOff (s <| maintenance := x |>)) eqn:E; [by right|left].
    destruct (Ho eq_refl) as [E'|[? _]]; [|done]. destruct (i_ended0 He); [done|congruence].
  - intros E. destruct (Ho E) as [E'|?]; [by apply i_loops0|by left].
  - intros Hp. destruct (i_alone0 Hp) as (?&?&?&E). split_and!; try done. change (phase s = Starting) in Hp.
    destruct (loopsOff (s <| maintenance := x |>)) eqn:E1; [done|].
    destruct (Ho eq_refl) as [|[Hf _]]; [congruence|by rewrite Hp in Hf].
Qed.
Lemma set_registration_inv x s : run_inv s -> x = LoopOff \/ loops_may s -> run_inv (s <| registration := x |>).
Proof.
  intros Hs Hx. assert (Ho : loopsOff (s <| registration := x |>) = false -> loops_may s).
  { destruct Hx as [-> |?]; [|done]. intros Ho. left. unfold loopsOff in *. simpl in Ho. rewrite andb_true_r in Ho.
    by rewrite Ho. }
  destruct Hs. constructor; try assumption.
  - intros He. destruct (loopsOff (s <| registration := x |>)) eqn:E; [by right|left].
    destruct (Ho eq_refl) as [E'|[? _]]; [|done]. destruct (i_ended0 He); [done|congruence].
  - intros E. destruct (Ho E) as [E'|?]; [by apply i_loops0|by left].
  - intros Hp. destruct (i_alone0 Hp) as (?&?&?&E). split_and!; try done. change (phase s = Starting) in Hp.
    destruct (loopsOff (s <| registration := x |>)) eqn:E1; [done|].
    destruct (Ho eq_refl) as [|[Hf _]]; [congruence|by rewrite Hp in Hf].
Qed.

Lemma runMaintenance_inv now s : run_inv s -> looping (phase s) = true -> loops_may s -> run_inv (runMaintenance now s).
Proof.
  intros Hs Hl Hm. destruct (looping_covered s Hl) as [Hc Hp]. unfold runMaintenance.
  destruct (refresh_cases false now s) as [E|E]; rewrite E; apply set_maintenance_inv; auto.
  by apply sent_inv.
Qed.
Lemma registrationHead_inv now s : run_inv s -> loops_may s -> run_inv (registrationHead now s).
Proof.
  intros Hs Hm. unfold registrationHead. case_match eqn:E; [apply set_registration_inv; auto|].
  apply orb_false_elim in E as [_ E]. apply orb_false_elim in E as [He _].
  destruct (looping_covered s (loops_may_looping s Hs Hm He)) as [Hc Hp].
  destruct (refresh_cases false now s) as [E'|E']; rewrite E'; apply set_registration_inv; auto.
  by apply sent_inv.
Qed.

Lemma fail_inv e s : run_inv s -> run_inv (fail e s).
Proof.
  intros Hs. unfold fail. case_match; [exact Hs|]. destruct Hs. constructor; try assumption.
  - intros w x Hx Hst. destruct (i_cover0 w x Hx Hst) as [? [[? _]|?]]; (split; [done|]); [by left|by right].
  - intros [[[? _]|?]|?]%i_registered0; [left; by left|left; by right|by right].
Qed.
Lemma subscribingEnds_inv failure now s : run_inv s -> run_inv (subscribingEnds failure now s).
Proof.
  intros Hs. unfold subscribingEnds. destruct (phase s) eqn:Hp; try exact Hs.
  destruct failure as [e|]; [apply beginStop_inv, inv_stop_pre; congruence|].
  assert (Hgo : run_inv (s <| phase := Dispatching |> <| ended := false |> <| loopsStarted := true |>)).
  { destruct Hs. constructor; simpl; try rewrite Hp in *; try done.
    - intros w' x Hx Hst. destruct (i_cover0 w' x Hx Hst). split; [done|by left].
    - intros Hr. left. by left.
    - intros _. by left.
    - intros _. by left.
    - by intros [?|?]. }
  apply registrationHead_inv.
  - apply runMaintenance_inv; [done|done|by right].
  - right. unfold runMaintenance. destruct (refresh_cases false now (s <| phase := Dispatching |>
      <| ended := false |> <| loopsStarted := true |>)) as [E|E]; by rewrite E.
Qed.
Lemma maintenanceResumes_inv passError now s : run_inv s -> run_inv (maintenanceResumes passError now s).
Proof.
  intros Hs. unfold maintenanceResumes.
  assert (Hm : maintenance s <> LoopOff -> loops_may s).
  { intros Hm. left. unfold loopsOff. by rewrite bool_decide_eq_false_2. }
  destruct (maintenance s) eqn:E; [exact Hs|..].
  - case_match; [|exact Hs]. by apply set_maintenance_inv; auto.
  - destruct passError; [apply fail_inv|]; apply set_maintenance_inv; auto.
  - case_match eqn:Hst; [apply set_maintenance_inv; auto|].
    apply orb_false_elim in Hst as [He _].
    apply runMaintenance_inv; auto. apply loops_may_looping; auto.
Qed.
Lemma registrationResumes_inv now s : run_inv s -> run_inv (registrationResumes now s).
Proof.
  intros Hs. unfold registrationResumes.
  assert (Hm : registration s <> LoopOff -> loops_may s).
  { intros Hm. left. unfold loopsOff. rewrite (bool_decide_eq_false_2 (registration s = _)) by done. apply andb_false_r. }
  destruct (registration s) eqn:E; try exact Hs.
  - case_match; [|exact Hs]. apply set_registration_inv; auto.
  - apply registrationHead_inv; auto.
Qed.

Lemma stop_inv now s : run_inv s -> run_inv (stop now s).
Proof.
  intros Hs. unfold stop. set (s1 := s <| stopVersion ::= S |> <| stopping := true |>).
  set (s2 := s1 <| draining := _ |>).
  assert (Hs2 : run_inv s2).
  { destruct Hs. constructor; try assumption.
    - intros w x Hx Hst. destruct (i_cover0 w x Hx Hst) as [? [[? _]|?]]; (split; [done|]); [by left|by right].
    - intros [[[? _]|?]|?]%i_registered0; [left; by left|left; by right|by right]. }
  case_match eqn:Hd; [|exact Hs2]. apply andb_prop in Hd as [Hd Hr].
  assert (Hp : active (phase s2) = true).
  { simpl in Hd. rewrite (i_running s Hs) in Hd. change (phase s2) with (phase s).
    apply orb_prop in Hd as [Hd|Hd]; [by destruct (phase s)|]. rewrite (i_slots s Hs) by lia. done. }
  assert (Hc : covered s2) by (left; split; done).
  assert (Hst : phase s2 <> Starting).
  { intros E. destruct (i_alone s2 Hs2 E) as [Hf _]. congruence. }
  assert (Hgo := refresh_inv true now s2 Hs2 Hc Hst).
  destruct (pendingStop s2) as [p|]; [destruct (refreshSettled s2 p)|];
    [destruct (refreshRegistration true now s2) as [s3 w]; same_fields Hgo | same_fields Hs2
    | destruct (refreshRegistration true now s2) as [s3 w]; same_fields Hgo].
Qed.

Lemma dispatch_inv s te :
  run_inv s ->
  match te.2 with DispatchRuns _ | DispatchFails _ | DispatchEnds | UnwindEnds _ => True | _ => False end ->
  run_inv (run_step s te).
Proof.
  intros Hs. destruct te as [now []]; try done; intros _; unfold run_step; simpl.
  - unfold dispatchRuns. destruct (phase s) eqn:Hp; try exact Hs. destruct Hs. constructor; try assumption. done.
  - unfold dispatchFails. destruct (phase s) eqn:Hp; try exact Hs. by apply fail_inv.
  - unfold dispatchEnds. destruct (phase s) eqn:Hp; try exact Hs. case_match; [|exact Hs].
    destruct Hs. constructor; simpl; try rewrite Hp in *; try done.
    + intros w' x Hx Hst. destruct (i_cover0 w' x Hx Hst). split; [done|by left].
    + intros Hr. left. by left.
    + intros ?. lia.
    + by intros [?|?].
  - unfold unwindEnds. destruct (phase s) eqn:Hp; try exact Hs. case_match; [|exact Hs].
    apply beginStop_inv, inv_stop_pre; congruence.
Qed.

Lemma run_step_inv s te : run_inv s -> run_inv (run_step s te).
Proof.
  intros Hs. assert (Hd := dispatch_inv s te Hs).
  destruct te as [now []]; try (by apply Hd); clear Hd; unfold run_step; simpl;
    auto using beginRun_inv, stop_inv, settlePreviousRun_inv, readinessEnds_inv, firstWriteEnds_inv,
      subscribingEnds_inv, maintenanceResumes_inv, registrationResumes_inv, closingProceeds_inv, runEnds_inv,
      commitWrite_inv, writeAnswers_inv, writeFails_inv, deregResumes_inv, deregCommits_inv, deregFails_inv;
    try case_match; try exact Hs; same_fields Hs.
Qed.
Lemma newRun_inv : run_inv newRun.
Proof. constructor; try done; simpl; auto. Qed.
Lemma runs_inv evs : run_inv (run run_step newRun evs).
Proof. apply run_invariant; [apply run_step_inv | apply newRun_inv]. Qed.
End worker.

(** ** Maintenance passes *)
Record Maintenance : Set := {
  lastTickAt : option Z;
  lastMaintenanceRoutinePollAt : option Z;
  ticks : list Z;                      (* the ticks that succeeded, the latest first *)
  routines : list Z;
  drifts : list Z;
}.
#[export] Instance eta_maintenance : Eta Maintenance := fun m =>
  {| lastTickAt := lastTickAt m; lastMaintenanceRoutinePollAt := lastMaintenanceRoutinePollAt m;
     ticks := ticks m; routines := routines m; drifts := drifts m |}.
Definition newMaintenance : Maintenance :=
  {| lastTickAt := None; lastMaintenanceRoutinePollAt := None; ticks := []; routines := []; drifts := [] |}.

(** What PostgreSQL answers to the three statements of a pass. *)
Record pass_answers : Set := {
  tick : res nat unit;
  fireDueSchedules : res nat unit;
  runRoutines : res nat unit;
}.

Section maintenance.
Context (maintenanceIntervalMs maintenanceRoutinePollMs : Z) (hasSchedules : bool).

Definition due (now interval : Z) (last : option Z) : bool :=
  match last with None => true | Some last => ms interval <=? now - last end.
Definition recordMaintenanceDrift (now : Z) (last : option Z) (cadence : Z) : stx Maintenance nat unit :=
  st_modify (fun m => match last with
                      | None => m
                      | Some last => m <| drifts ::= cons (Z.max 0 (now - last - ms cadence)) |>
                      end).
(** The tick and the schedules that are due; [last] is the tick before. *)
Definition tickPhase (now : Z) (last : option Z) (a : pass_answers) : stx Maintenance nat unit :=
  if due now maintenanceIntervalMs last then
    recordMaintenanceDrift now last maintenanceIntervalMs ;;-
    st_lift (tick a) ;;-
    st_modify (fun m => m <| lastTickAt := Some now |> <| ticks ::= cons now |>) ;;-
    (if hasSchedules then st_lift (fireDueSchedules a) else st_ret tt)
  else st_ret tt.
Definition routinePhase (now : Z) (last : option Z) (a : pass_answers) : stx Maintenance nat unit :=
  if due now maintenanceRoutinePollMs last then
    recordMaintenanceDrift now last maintenanceRoutinePollMs ;;-
    st_lift (runRoutines a) ;;-
    st_modify (fun m => m <| lastMaintenanceRoutinePollAt := Some now |> <| routines ::= cons now |>)
  else st_ret tt.
Definition runMaintenancePass (now : Z) (a : pass_answers) : stx Maintenance nat unit :=
  m <-- st_get ;;
  tickPhase now (lastTickAt m) a ;;-
  m <-- st_get ;;
  routinePhase now (lastMaintenanceRoutinePollAt m) a.

Definition pass_step (m : Maintenance) (te : Z * pass_answers) : Maintenance := (runMaintenancePass te.1 te.2 m).1.
End maintenance.

(** Times, the latest first, at least [gap] apart. *)
Fixpoint spaced (gap : Z) (l : list Z) : Prop :=
  match l with
  | later :: (earlier :: _) as rest => gap <= later - earlier /\ spaced gap rest
  | _ => True
  end.
Lemma spaced_cons gap t l : spaced gap l -> (forall t', head l = Some t' -> gap <= t - t') -> spaced gap (t :: l).
Proof. destruct l as [|t' l]; simpl; auto. Qed.

(** ** Failed reporters *)
Record ReporterFailure : Set := { reportedAt : Z; suppressed : nat }.
Definition REPORTER_FAILURE_REPORT_INTERVAL_MS : Z := 60000.

(** One reporter: its state, and its reports with the failures each counts. *)
Record Reporter : Set := { state : option ReporterFailure; reports : list (Z * nat) }.
Definition reporterFailed (now : Z) (r : Reporter) : Reporter :=
  match state r with
  | Some f =>
      if now - reportedAt f <? ms REPORTER_FAILURE_REPORT_INTERVAL_MS
      then {| state := Some {| reportedAt := reportedAt f; suppressed := S (suppressed f) |}; reports := reports r |}
      else {| state := Some {| reportedAt := now; suppressed := 0 |}; reports := (now, suppressed f) :: reports r |}
  | None => {| state := Some {| reportedAt := now; suppressed := 0 |}; reports := (now, 0%nat) :: reports r |}
  end.

(** ** Theorems *)


(** C28: A new run takes its instance id alone: when it checks its readiness, no
    registration write, no deregistration and no loop of an ended run is
    unfinished, so none of them can change the new run. *)
Theorem new_run_starts_alone registryIntervalMs hasChannel evs :
  let s := run (run_step registryIntervalMs hasChannel) newRun evs in
  phase s = Starting ->
  registered s = false /\ noPendingWrites s = true /\ forallb deregDone (deregs s) = true /\
  maintenance s = LoopOff /\ registration s = LoopOff.
Proof.
  intros s Hp. assert (Hs : run_inv s) by apply runs_inv.
  destruct (i_alone s Hs Hp) as (? & ? & ? & [Hm%bool_decide_eq_true Hr%bool_decide_eq_true]%andb_prop).
  done.
Qed.

(** A run that registers, dispatches and is stopped twice while it drains; its
    refreshes, its unwind and its deregistration follow. *)
Definition stopped_run : list (Z * run_event) :=
  map (pair 0) [Run 0 false; SettleEnds PreviousSettled; ReadinessEnds None; CommitWrite 0; WriteAnswers 0 false;
    FirstWriteEnds; Subscribed; SubscribingEnds None; DispatchRuns 3; Stop; Stop; DispatchRuns 0; DispatchEnds;
    MaintenanceResumes None; CommitWrite 1; WriteAnswers 1 false; CommitWrite 2; WriteAnswers 2 false;
    RegistrationResumes; UnwindEnds false; OtherSettles 0 None; ClosingProceeds false; ClosingProceeds true;
    DeregResumes 0; DeregResumes 0; DeregCommits 0; OtherSettles 1 None; DeregResumes 0; RunEnds false].

Lemma stopped_run_rows :
  row (run (run_step 5000 true) newRun (take 23 stopped_run)) = Some 1%nat /\
  length (writes (run (run_step 5000 true) newRun stopped_run)) = 3%nat.
Proof. split; vm_compute; reflexivity. Qed.
Lemma stopped_run_idle : phase (run (run_step 5000 true) newRun stopped_run) = Idle.
Proof. vm_compute. reflexivity. Qed.
Lemma stopped_run_settled :
  forallb (workSettled (run (run_step 5000 true) newRun stopped_run))
    (previousRun (run (run_step 5000 true) newRun stopped_run)) = true.
Proof. vm_compute. reflexivity. Qed.

(** The same worker runs again. *)
Definition second_run : list (Z * run_event) := stopped_run ++ [(1, Run 2 false); (1, SettleEnds PreviousSettled)].
Lemma second_run_starts : phase (run (run_step 5000 true) newRun second_run) = Starting.
Proof. vm_compute. reflexivity. Qed.
Lemma new_run_starts_alone_witness :
  registered (run (run_step 5000 true) newRun second_run) = false /\
  noPendingWrites (run (run_step 5000 true) newRun second_run) = true /\
  forallb deregDone (deregs (run (run_step 5000 true) newRun second_run)) = true /\
  maintenance (run (run_step 5000 true) newRun second_run) = LoopOff /\
  registration (run (run_step 5000 true) newRun second_run) = LoopOff.
Proof. exact (new_run_starts_alone 5000 true second_run second_run_starts). Defined.

(** The history of the passes agrees with their last times. *)
Definition maintenance_ok (interval routineInterval : Z) (m : Maintenance) : Prop :=
  spaced (ms interval) (ticks m) /\ spaced (ms routineInterval) (routines m) /\
  lastTickAt m = head (ticks m) /\ lastMaintenanceRoutinePollAt m = head (routines m) /\
  Forall (fun d => 0 <= d) (drifts m).

Lemma due_spaced now gap (l : list Z) : due now gap (head l) = true -> spaced (ms gap) l -> spaced (ms gap) (now :: l).
Proof. intros Hd Hs. apply spaced_cons; [done|]. intros t Ht. rewrite Ht in Hd. simpl in Hd. lia. Qed.
Lemma drift_ok interval routineInterval now last cadence m :
  maintenance_ok interval routineInterval m ->
  maintenance_ok interval routineInterval (recordMaintenanceDrift now last cadence m).1.
Proof.
  intros (? & ? & ? & ? & ?). destruct last as [t|]; split_and!; simpl; try done. constructor; [lia|done].
Qed.
Lemma drift_times now last cadence m :
  ticks (recordMaintenanceDrift now last cadence m).1 = ticks m /\
  routines (recordMaintenanceDrift now last cadence m).1 = routines m.
Proof. by destruct last. Qed.

Lemma tickPhase_ok interval routineInterval hasSchedules now a m :
  maintenance_ok interval routineInterval m ->
  maintenance_ok interval routineInterval (tickPhase interval hasSchedules now (lastTickAt m) a m).1.
Proof.
  intros Hm. unfold tickPhase. destruct (due now interval (lastTickAt m)) eqn:Hd; [|done].
  pose proof (drift_ok interval routineInterval now (lastTickAt m) interval m Hm) as Hm'.
  destruct (drift_times now (lastTickAt m) interval m) as [Ht _].
  assert (Hlast := proj1 (proj2 (proj2 Hm))). revert Hm' Ht.
  unfold st_bind at 1. destruct (recordMaintenanceDrift _ _ _ m) as [m1 [[]|e]]; simpl; [|done].
  intros Hm1 Ht. assert (Hold := Hm1). destruct Hm1 as (Hs & Hr & _ & Hlr & Hdr).
  assert (Hnew : maintenance_ok interval routineInterval (m1 <| lastTickAt := Some now |> <| ticks ::= cons now |>)).
  { split_and!; try done. apply (due_spaced now interval (ticks m1)); [|done]. by rewrite Ht, <- Hlast. }
  unfold st_bind, st_lift. destruct (tick a); simpl; [|done].
  destruct hasSchedules; simpl; [destruct (fireDueSchedules a)|]; done.
Qed.
Lemma routinePhase_ok interval routineInterval now a m :
  maintenance_ok interval routineInterval m ->
  maintenance_ok interval routineInterval
    (routinePhase routineInterval now (lastMaintenanceRoutinePollAt m) a m).1.
Proof.
  intros Hm. unfold routinePhase. destruct (due now routineInterval _) eqn:Hd; [|done].
  pose proof (drift_ok interval routineInterval now (lastMaintenanceRoutinePollAt m) routineInterval m Hm) as Hm'.
  destruct (drift_times now (lastMaintenanceRoutinePollAt m) routineInterval m) as [_ Ht].
  assert (Hlast := proj1 (proj2 (proj2 (proj2 Hm)))). revert Hm' Ht.
  unfold st_bind at 1. destruct (recordMaintenanceDrift _ _ _ m) as [m1 [[]|e]]; simpl; [|done].
  intros Hm1 Ht. unfold st_bind, st_lift. destruct (runRoutines a); simpl; [|done].
  destruct Hm1 as (Hs & Hr & Hlt & _ & Hdr).
  split_and!; try done. apply (due_spaced now routineInterval (routines m1)); [|done]. by rewrite Ht, <- Hlast.
Qed.

(** Two ticks that succeeded are at least the maintenance interval apart,
    and two routine polls at least their interval; a pass whose statement
    failed stays due, and no recorded drift is negative.  This holds for every
    sequence of passes and answers. *)
Theorem maintenance_is_spaced interval routineInterval hasSchedules passes :
  maintenance_ok interval routineInterval
    (run (pass_step interval routineInterval hasSchedules) newMaintenance passes).
Proof.
  apply run_invariant; [|by split_and!; constructor]. intros m [now a] Hm.
  pose proof (tickPhase_ok interval routineInterval hasSchedules now a m Hm) as Hm'.
  unfold pass_step, runMaintenancePass, st_bind, st_get. simpl.
  destruct (tickPhase interval hasSchedules now (lastTickAt m) a m) as [m1 [u|e]]; [|done].
  by apply routinePhase_ok.
Qed.

(** ** Reports of failed callbacks *)
Definition newReporter : Reporter := {| state := None; reports := [] |}.
(** The failures that the reports count, each with itself. *)
Definition reported (r : Reporter) : nat := foldr (fun e n => S (e.2 + n))%nat 0%nat (reports r).
Definition unreported (r : Reporter) : nat := match state r with Some f => suppressed f | None => 0 end.

Definition reporter_ok (n : nat) (r : Reporter) : Prop :=
  n = (reported r + unreported r)%nat /\ spaced (ms REPORTER_FAILURE_REPORT_INTERVAL_MS) (reports r).*1 /\
  reportedAt <$> state r = head (reports r).*1.
Lemma reporterFailed_ok n now r : reporter_ok n r -> reporter_ok (S n) (reporterFailed now r).
Proof.
  intros (Hn & Hs & Hh). unfold reporterFailed. destruct (state r) as [f|] eqn:E.
  - unfold reporter_ok, reported, unreported in *. rewrite E in *. simpl in Hh. case_match; simpl.
    + split_and!; [lia|done|done].
    + split_and!; [lia| |done]. apply spaced_cons; [done|]. intros t Ht. change (head (reports r).*1 = Some t) in Ht.
      rewrite <- Hh in Ht. injection Ht as <-. lia.
  - unfold reporter_ok, reported, unreported in *. rewrite E in *. simpl in *.
    split_and!; [lia| |done]. apply spaced_cons; [done|]. intros t Ht. change (head (reports r).*1 = Some t) in Ht.
    by rewrite <- Hh in Ht.
Qed.

(** However often a reporter callback fails, its failures are reported at
    most once per minute, and the reports account for all of them: each names
    how many it suppressed, and the rest is the count that the next report
    will name. *)
Theorem reporter_failures_accounted (times : list Z) :
  let r := foldl (fun r now => reporterFailed now r) newReporter times in
  length times = (reported r + unreported r)%nat /\
  spaced (ms REPORTER_FAILURE_REPORT_INTERVAL_MS) (reports r).*1.
Proof.
  cut (reporter_ok (length times) (foldl (fun r now => reporterFailed now r) newReporter times)).
  { by intros (? & ? & _). }
  induction times as [|t times IH] using rev_ind; [by split_and!|].
  rewrite foldl_app, length_app, Nat.add_comm. by apply reporterFailed_ok.
Qed.
