(* ===== verification/JsonbText.v ===== *)
(** * The size and the strings of a serialized value

    The value checks of [typescript/core/src/queue/enqueue-contracts.ts]:
    [jsonbTextBytes], which measures the text that PostgreSQL writes for a
    jsonb value from its JSON text, with [numericTextBytes];
    [serializeJsonWithinLimit], which measures exactly only when it must; and
    [hasUnstorableEscape], which finds the strings that jsonb refuses.  Text is
    a list of UTF-16 code units as in [Canonical]; a number is its JSON token,
    because [JSON.rawJSON] keeps tokens.  The loops keep the text from their
    index on, with the length of the text as fuel. *)

From Stdlib Require Import ZifyBool ZifyN.
From S2P Require Import Prelude Canonical LeaseStatements.

(** ** Number tokens *)
Definition is_digit (u : N) : bool := ((48 <=? u) && (u <=? 57))%N.

(** A number of the JSON grammar: sign, digits, fraction, and exponent with the
    case of its letter, its sign and its digits. *)
Record number_token : Set := {
  negative : bool;
  integerDigits : ustring;
  fractionDigits : option ustring;
  exponentPart : option (bool * option bool * ustring);
}.
Definition exponent_text (e : bool * option bool * ustring) : ustring :=
  let '(upper, sign, digits) := e in
  (if upper then 69%N else 101%N)
    :: match sign with Some true => [45%N] | Some false => [43%N] | None => [] end ++ digits.
Definition token_text (t : number_token) : ustring :=
  (if negative t then [45%N] else []) ++ integerDigits t
    ++ match fractionDigits t with Some f => 46%N :: f | None => [] end
    ++ match exponentPart t with Some e => exponent_text e | None => [] end.

Fixpoint digits_value (acc : Z) (l : ustring) : Z :=
  match l with [] => acc | u :: l => digits_value (10 * acc + (Z.of_N u - 48)) l end.
Definition exponent_value (t : number_token) : Z :=
  match exponentPart t with
  | Some (_, sign, digits) =>
      match sign with Some true => - digits_value 0 digits | _ => digits_value 0 digits end
  | None => 0
  end.

Definition all_digits (l : ustring) : Prop := l <> [] /\ Forall (fun u => is_digit u = true) l.
(** The grammar, with an exponent that a JavaScript integer holds. *)
Definition token_ok (t : number_token) : Prop :=
  all_digits (integerDigits t) /\ (integerDigits t = [48%N] \/ head (integerDigits t) <> Some 48%N) /\
  match fractionDigits t with Some f => all_digits f | None => True end /\
  match exponentPart t with Some (_, _, digits) => all_digits digits | None => True end /\
  Z.abs (exponent_value t) <= MAX_SAFE_INTEGER.

(** *** numericTextBytes *)
Fixpoint spanDigits (l : ustring) : ustring * ustring :=
  match l with
  | u :: l' => if is_digit u then let (d, r) := spanDigits l' in (u :: d, r) else ([], l)
  | [] => ([], [])
  end.
Definition isExponentLetter (u : N) : bool := ((u =? 101) || (u =? 69))%N.

(** The pattern of a number: a sign, digits, a point with digits, and an exponent,
    whose text is its sign and its digits. *)
Definition exponentSign (l : ustring) : bool * ustring :=
  match l with
  | u :: l' => if (u =? 45)%N then (true, l') else if (u =? 43)%N then (false, l') else (false, l)
  | [] => (false, [])
  end.
Definition exponentGroup (l : ustring) : option (option (bool * ustring)) :=
  match l with
  | [] => Some None
  | u :: l =>
      if isExponentLetter u then
        let '(minus, l) := exponentSign l in
        match spanDigits l with
        | ((_ :: _) as digits, []) => Some (Some (minus, digits))
        | _ => None
        end
      else None
  end.
Definition signGroup (l : ustring) : bool * ustring :=
  match l with u :: l' => if (u =? 45)%N then (true, l') else (false, l) | [] => (false, []) end.
Definition fractionGroup (l : ustring) : ustring * ustring :=
  match l with
  | u :: l' => if (u =? 46)%N then match spanDigits l' with ([], _) => ([], l) | (f, r) => (f, r) end else ([], l)
  | [] => ([], [])
  end.
Definition numberPattern (l : ustring) : option (bool * ustring * ustring * option (bool * ustring)) :=
  let '(sign, l) := signGroup l in
  match spanDigits l with
  | ([], _) => None
  | (int, l) =>
      let '(frac, l) := fractionGroup l in
      match exponentGroup l with Some e => Some (sign, int, frac, e) | None => None end
  end.

(** The pattern [NEGATIVE_ZERO]: minus zero, then nothing or a point and zeros. *)
Definition negativeZero (token : ustring) : bool :=
  match token with
  | minus :: zero :: rest =>
      (minus =? 45)%N && (zero =? 48)%N &&
      match rest with [] => true | point :: zeros => (point =? 46)%N && forallb (N.eqb 48) zeros end
  | _ => false
  end.
(** The length of the leading zeros. *)
Fixpoint leadingZeroCount (l : ustring) : nat :=
  match l with u :: l => if (u =? 48)%N then S (leadingZeroCount l) else 0 | [] => 0 end.

Definition numericTextBytes (token : ustring) : Z :=
  let length l := Z.of_nat (length l) in
  if negb (existsb isExponentLetter token) then
    if negativeZero token then length token - 1 else length token
  else
    match numberPattern token with
    | None => length token
    | Some (sign, int, frac, e) =>
        let exponent := match e with
                        | Some (minus, digits) => (if (minus : bool) then -1 else 1) * digits_value 0 digits
                        | None => 0 end in
        if negb (Z.abs exponent <=? MAX_SAFE_INTEGER) then length token
        else
          let digits := int ++ frac in
          let point := length int + exponent in
          let integerLength :=
            if 0 <? point then
              let available := Z.min point (length digits) in
              let leadingZeros := Z.of_nat (leadingZeroCount (take (Z.to_nat available) digits)) in
              if leadingZeros <? available then point - leadingZeros else 1
            else 1 in
          let scale := Z.max 0 (length frac - exponent) in
          let negative := sign && existsb (fun u => is_digit u && negb (u =? 48)%N) digits in
          (if (negative : bool) then 1 else 0) + integerLength + (if 0 <? scale then 1 + scale else 0)
    end.

(** The text that [numeric_out] writes: plain decimal notation, the integer part
    without leading zeros, all digits after the point, no sign on zero. *)
Fixpoint stripZeros (l : ustring) : ustring :=
  match l with u :: l' => if (u =? 48)%N then stripZeros l' else l | [] => [] end.
Definition token_digits (t : number_token) : ustring := integerDigits t ++ default [] (fractionDigits t).
Definition numeric_out (t : number_token) : ustring :=
  let digits := token_digits t in
  let point := Z.of_nat (length (integerDigits t)) + exponent_value t in
  let whole := if 0 <? point
               then take (Z.to_nat point) digits ++ replicate (Z.to_nat point - length digits) 48%N else [] in
  let fraction := if 0 <? point then drop (Z.to_nat point) digits
                  else replicate (Z.to_nat (- point)) 48%N ++ digits in
  (if negative t && existsb (fun u => negb (u =? 48)%N) digits then [45%N] else [])
    ++ match stripZeros whole with [] => [48%N] | w => w end
    ++ match fraction with [] => [] | f => 46%N :: f end.

(** *** The measure of a token is exact *)
Lemma spanDigits_app d rest :
  Forall (fun u => is_digit u = true) d -> (forall u l, rest = u :: l -> is_digit u = false) ->
  spanDigits (d ++ rest) = (d, rest).
Proof.
  intros Hd Hr. induction Hd as [|u d Hu _ IH]; simpl.
  - destruct rest as [|u l]; [done|]. simpl. by rewrite (Hr u l).
  - by rewrite Hu, IH.
Qed.
Lemma digit_not d k : Forall (fun u => is_digit u = true) d -> is_digit k = false -> forall u, u ∈ d -> u <> k.
Proof. intros Hd Hk u Hu ->. rewrite Forall_forall in Hd. rewrite Hd in Hk by done. done. Qed.
Lemma no_exponent_letter d : Forall (fun u => is_digit u = true) d -> existsb isExponentLetter d = false.
Proof.
  induction 1 as [|u d Hu _ IH]; [done|]. simpl. rewrite IH. unfold is_digit, isExponentLetter in *. lia.
Qed.

Definition exponent_group (t : number_token) : option (bool * ustring) :=
  match exponentPart t with
  | Some (_, sign, digits) => Some (match sign with Some true => true | _ => false end, digits)
  | None => None
  end.
Lemma exponentGroup_text t :
  match exponentPart t with Some (_, _, digits) => all_digits digits | None => True end ->
  exponentGroup (match exponentPart t with Some e => exponent_text e | None => [] end) = Some (exponent_group t).
Proof.
  unfold exponent_group. destruct (exponentPart t) as [[[up sg] d]|]; [|done]. intros [Hne Hd].
  assert (Hs : spanDigits d = (d, [])) by (rewrite <- (app_nil_r d) at 1; by apply spanDigits_app).
  destruct d as [|u d]; [done|]. unfold exponent_text, exponentGroup.
  assert (Hu : is_digit u = true) by by inversion Hd. unfold is_digit in Hu.
  assert (Hsign : exponentSign (match sg with Some true => [45%N] | Some false => [43%N] | None => [] end ++ u :: d)
    = (match sg with Some true => true | _ => false end, u :: d)).
  { destruct sg as [[]|]; [done..|]. simpl. by rewrite (proj2 (N.eqb_neq u 45)), (proj2 (N.eqb_neq u 43)) by lia. }
  replace (isExponentLetter (if up then 69%N else 101%N)) with true by by destruct up.
  by rewrite Hsign, Hs.
Qed.
Lemma after_integer t u l :
  token_ok t ->
  match fractionDigits t with Some f => 46%N :: f | None => [] end
    ++ match exponentPart t with Some e => exponent_text e | None => [] end = u :: l -> is_digit u = false.
Proof.
  intros _. destruct (fractionDigits t) as [f|]; simpl; [intros [= <- _]; done|].
  destruct (exponentPart t) as [[[[] sg] d]|]; simpl; [intros [= <- _]..|]; done.
Qed.
Lemma fractionGroup_text t :
  token_ok t ->
  let tail := match exponentPart t with Some e => exponent_text e | None => [] end in
  fractionGroup (match fractionDigits t with Some f => 46%N :: f | None => [] end ++ tail) =
    (default [] (fractionDigits t), tail).
Proof.
  intros (_ & _ & Hf & _ & _). simpl.
  assert (Ht : forall u l, match exponentPart t with Some e => exponent_text e | None => [] end = u :: l ->
    is_digit u = false /\ u <> 46%N).
  { destruct (exponentPart t) as [[[[] sg] d]|]; simpl; [intros u l [= <- _]..|]; done. }
  destruct (fractionDigits t) as [f|]; simpl.
  - destruct Hf as [Hne Hf]. rewrite spanDigits_app; [|done|intros u l E; by destruct (Ht u l E)].
    by destruct f.
  - destruct (match exponentPart t with Some e => exponent_text e | None => [] end) as [|u l] eqn:E; [done|].
    simpl. destruct (Ht u l eq_refl) as [_ Hu]. by rewrite (proj2 (N.eqb_neq u 46)).
Qed.
Lemma numberPattern_token t :
  token_ok t ->
  numberPattern (token_text t) =
    Some (negative t, integerDigits t, default [] (fractionDigits t), exponent_group t).
Proof.
  intros Hok. assert (Hok' := Hok). destruct Hok' as ([Hne Hi] & _ & _ & He & _).
  unfold numberPattern, token_text.
  assert (Hsign : forall tl, signGroup ((if negative t then [45%N] else []) ++ integerDigits t ++ tl) =
                  (negative t, integerDigits t ++ tl)).
  { intros tl. destruct (negative t); [done|]. destruct (integerDigits t) as [|u d]; [done|]. simpl.
    apply Forall_cons in Hi as [Hu _]. unfold is_digit in Hu. by rewrite (proj2 (N.eqb_neq u 45)) by lia. }
  rewrite Hsign, spanDigits_app; [|done|intros u l; by apply after_integer].
  rewrite fractionGroup_text, exponentGroup_text by done. by destruct (integerDigits t).
Qed.

Lemma leadingZeroCount_le l : (leadingZeroCount l <= length l)%nat.
Proof. induction l as [|u l IH]; simpl; [lia|]. case_match; lia. Qed.
Lemma stripZeros_length l : length (stripZeros l) = (length l - leadingZeroCount l)%nat.
Proof. induction l as [|u l IH]; simpl; [done|]. case_match; [done|simpl; lia]. Qed.
Lemma leadingZeroCount_app l k :
  leadingZeroCount (l ++ k) =
    if (leadingZeroCount l <? length l)%nat then leadingZeroCount l else (length l + leadingZeroCount k)%nat.
Proof.
  induction l as [|u l IH]; simpl; [done|]. destruct (u =? 48)%N; [|done]. rewrite IH.
  pose proof (leadingZeroCount_le l). repeat case_match; lia.
Qed.
Lemma leadingZeroCount_replicate n : leadingZeroCount (replicate n 48%N) = n.
Proof. induction n; simpl; congruence. Qed.

(** The integer part of the text. *)
Lemma whole_length (point : Z) (digits : ustring) :
  0 < point ->
  let available := Z.min point (Z.of_nat (length digits)) in
  let zeros := Z.of_nat (leadingZeroCount (take (Z.to_nat available) digits)) in
  Z.of_nat (length (match stripZeros (take (Z.to_nat point) digits
                                        ++ replicate (Z.to_nat point - length digits) 48%N) with
                    | [] => [48%N] | w => w end)) =
    if zeros <? available then point - zeros else 1.
Proof.
  intros Hp. simpl. set (l := take (Z.to_nat point) digits).
  replace (take (Z.to_nat (Z.min point (Z.of_nat (length digits)))) digits) with l.
  2: { subst l. destruct (decide (Z.to_nat point <= length digits)%nat).
       - f_equal. lia.
       - rewrite !take_ge by lia. done. }
  assert (Hl : Z.of_nat (length l) = Z.min point (Z.of_nat (length digits))) by (subst l; rewrite length_take; lia).
  set (pad := replicate _ 48%N). assert (Hpad : Z.of_nat (length pad) = point - Z.of_nat (length l)).
  { subst pad. rewrite length_replicate. lia. }
  pose proof (leadingZeroCount_le l). pose proof (stripZeros_length (l ++ pad)) as Hs.
  rewrite leadingZeroCount_app, length_app in Hs.
  assert (Hz : leadingZeroCount pad = length pad) by (subst pad; by rewrite leadingZeroCount_replicate, length_replicate).
  rewrite <- Hl. destruct (Nat.ltb_spec (leadingZeroCount l) (length l)).
  - rewrite (proj2 (Z.ltb_lt _ _)) by lia. destruct (stripZeros (l ++ pad)); simpl in *; lia.
  - rewrite (proj2 (Z.ltb_ge _ _)) by lia. destruct (stripZeros (l ++ pad)); simpl in *; lia.
Qed.
Lemma fraction_length (point : Z) (digits : ustring) :
  Z.of_nat (length (if 0 <? point then drop (Z.to_nat point) digits
                    else replicate (Z.to_nat (- point)) 48%N ++ digits)) =
    Z.max 0 (Z.of_nat (length digits) - point).
Proof.
  destruct (Z.ltb_spec 0 point); [rewrite length_drop; lia|]. rewrite length_app, length_replicate. lia.
Qed.
Lemma fraction_text_length (f : ustring) :
  Z.of_nat (length (match f with [] => [] | f => 46%N :: f end)) =
    if 0 <? Z.of_nat (length f) then 1 + Z.of_nat (length f) else 0.
Proof. destruct f; [done|]. rewrite (proj2 (Z.ltb_lt _ _)) by (simpl; lia). simpl. lia. Qed.

(** The parts of the written number. *)
Lemma numeric_out_length t :
  let digits := token_digits t in
  let point := Z.of_nat (length (integerDigits t)) + exponent_value t in
  let scale := Z.max 0 (Z.of_nat (length digits) - point) in
  let available := Z.min point (Z.of_nat (length digits)) in
  let zeros := Z.of_nat (leadingZeroCount (take (Z.to_nat available) digits)) in
  Z.of_nat (length (numeric_out t)) =
    (if negative t && existsb (fun u => negb (u =? 48)%N) digits then 1 else 0) +
    (if 0 <? point then if zeros <? available then point - zeros else 1 else 1) +
    (if 0 <? scale then 1 + scale else 0).
Proof.
  simpl. unfold numeric_out. rewrite !length_app, !Nat2Z.inj_add, fraction_text_length, fraction_length.
  set (point := _ + exponent_value t). set (digits := token_digits t).
  assert (Hw : Z.of_nat (length (match stripZeros (if 0 <? point then take (Z.to_nat point) digits
      ++ replicate (Z.to_nat point - length digits) 48%N else []) with [] => [48%N] | w => w end)) =
    if 0 <? point then
      if Z.of_nat (leadingZeroCount (take (Z.to_nat (Z.min point (Z.of_nat (length digits)))) digits)) <?
           Z.min point (Z.of_nat (length digits))
      then point - Z.of_nat (leadingZeroCount (take (Z.to_nat (Z.min point (Z.of_nat (length digits)))) digits))
      else 1
    else 1).
  { destruct (Z.ltb_spec 0 point) as [Hp|]; [|done]. by apply whole_length. }
  rewrite Hw. destruct (negative t && _); simpl; lia.
Qed.

Lemma token_digits_ok t : token_ok t -> Forall (fun u => is_digit u = true) (token_digits t).
Proof.
  intros ([_ Hi] & _ & Hf & _). unfold token_digits. apply Forall_app. split; [done|].
  destruct (fractionDigits t); [apply Hf|constructor].
Qed.
Lemma exponent_letter_iff t :
  token_ok t -> existsb isExponentLetter (token_text t) = match exponentPart t with Some _ => true | None => false end.
Proof.
  intros ([_ Hi] & _ & Hf & _). unfold token_text. rewrite !existsb_app, (no_exponent_letter _ Hi).
  replace (existsb isExponentLetter (if negative t then [45%N] else [])) with false by by destruct (negative t).
  replace (existsb isExponentLetter (match fractionDigits t with Some f => 46%N :: f | None => [] end)) with false.
  2: { destruct (fractionDigits t) as [f|]; [|done]. simpl. by rewrite no_exponent_letter by apply Hf. }
  destruct (exponentPart t) as [[[[] sg] d]|]; done.
Qed.
Lemma digit_test l :
  Forall (fun u => is_digit u = true) l ->
  existsb (fun u => is_digit u && negb (u =? 48)%N) l = existsb (fun u => negb (u =? 48)%N) l.
Proof. induction 1 as [|u l Hu _ IH]; [done|]. simpl. by rewrite Hu, IH. Qed.
Lemma all_zero l : forallb (N.eqb 48) l = negb (existsb (fun u => negb (u =? 48)%N) l).
Proof. induction l as [|u l IH]; [done|]. cbn [forallb existsb]. rewrite IH. by destruct (N.eqb_spec 48 u), (N.eqb_spec u 48); try congruence. Qed.

(** A token without an exponent keeps its text but for the sign of zero. *)
Lemma negativeZero_token t :
  token_ok t -> exponentPart t = None ->
  negativeZero (token_text t) = negative t && negb (existsb (fun u => negb (u =? 48)%N) (token_digits t)).
Proof.
  intros ([Hne Hi] & Hz & Hf & _) He. unfold token_text, token_digits. rewrite He, app_nil_r.
  destruct (integerDigits t) as [|u d]; [done|]. apply Forall_cons in Hi as [Hu Hd]. unfold is_digit in Hu.
  destruct (negative t); simpl.
  - destruct (N.eqb_spec u 48) as [->|Hne']; simpl; [|done].
    destruct Hz as [[= ->]|?]; [|done]. simpl.
    destruct (fractionDigits t) as [f|]; simpl; [by rewrite all_zero|done].
  - destruct (d ++ _) as [|v r]; [done|]. by rewrite (proj2 (N.eqb_neq u 45)) by lia.
Qed.

Lemma numericTextBytes_plain t :
  token_ok t -> exponentPart t = None -> numericTextBytes (token_text t) = Z.of_nat (length (numeric_out t)).
Proof.
  intros Hok He. rewrite numeric_out_length. unfold numericTextBytes.
  rewrite exponent_letter_iff, He, negativeZero_token by done. cbn [negb].
  assert (Hx : exponent_value t = 0) by (unfold exponent_value; by rewrite He). rewrite Hx, Z.add_0_r.
  assert (Hlen : length (token_text t) = ((if negative t then 1 else 0) + length (integerDigits t)
    + match fractionDigits t with Some f => S (length f) | None => 0 end)%nat).
  { unfold token_text. rewrite He, app_nil_r, !length_app. destruct (negative t), (fractionDigits t); simpl; lia. }
  assert (Hd : length (token_digits t) = (length (integerDigits t)
    + match fractionDigits t with Some f => length f | None => 0 end)%nat).
  { unfold token_digits. rewrite length_app. by destruct (fractionDigits t). }
  assert (Htake : take (length (integerDigits t)) (token_digits t) = integerDigits t) by apply take_app_length.
  destruct Hok as ([Hne Hi] & Hz & Hf & _).
  assert (Hi1 : (1 <= length (integerDigits t))%nat) by (destruct (integerDigits t); simpl; [done|lia]).
  replace (Z.min _ _) with (Z.of_nat (length (integerDigits t))) by lia.
  rewrite Nat2Z.id, Htake, (proj2 (Z.ltb_lt 0 _)) by lia.
  assert (Hzero : Z.of_nat (leadingZeroCount (integerDigits t)) = 0 \/
    (length (integerDigits t) = 1 /\ leadingZeroCount (integerDigits t) = 1)%nat).
  { destruct Hz as [-> |Hh]; [by right|]. left. destruct (integerDigits t) as [|u d]; [done|]. simpl.
    destruct (N.eqb_spec u 48) as [->|]; done. }
  assert (Hf1 : match fractionDigits t with Some f => (1 <= length f)%nat | None => True end).
  { destruct (fractionDigits t) as [[|]|]; simpl; [by destruct Hf|lia|done]. }
  destruct (negative t), (existsb _ (token_digits t)), (fractionDigits t) as [f|]; simpl in *;
    repeat case_match; lia.
Qed.

(** Both ways to write a token. *)
Lemma numeric_bytes t : token_ok t -> numericTextBytes (token_text t) = Z.of_nat (length (numeric_out t)).
Proof.
  intros Hok. destruct (exponentPart t) as [[[up sg] d]|] eqn:He; [|by apply numericTextBytes_plain].
  rewrite numeric_out_length. unfold numericTextBytes.
  rewrite exponent_letter_iff, He, numberPattern_token by done. cbn [negb]. unfold exponent_group. rewrite He.
  assert (Hx : (if match sg with Some true => true | _ => false end then -1 else 1) * digits_value 0 d
    = exponent_value t).
  { unfold exponent_value. rewrite He. destruct sg as [[]|]; lia. }
  rewrite Hx. assert (Hsafe := proj2 (proj2 (proj2 (proj2 Hok)))). rewrite (proj2 (Z.leb_le _ _) Hsafe). cbn [negb].
  fold (token_digits t). rewrite digit_test by by apply token_digits_ok.
  assert (Hscale : Z.max 0 (Z.of_nat (length (default [] (fractionDigits t))) - exponent_value t) =
    Z.max 0 (Z.of_nat (length (token_digits t)) - (Z.of_nat (length (integerDigits t)) + exponent_value t))).
  { unfold token_digits. rewrite length_app. lia. }
  by rewrite Hscale.
Qed.

(** ** The text of a value *)

(** [Buffer.byteLength(text, "utf8")]: a surrogate outside a pair is written as
    U+FFFD. *)
Definition unit_bytes (u : N) : Z := if (u <? 0x80)%N then 1 else if (u <? 0x800)%N then 2 else 3.
Definition point_bytes (p : point) : Z := match p with Pair _ _ => 4 | One u => unit_bytes u end.
Definition byteLength (s : ustring) : Z := foldr (fun p n => point_bytes p + n) 0 (points s).

(** [JSON.stringify] of a value whose numbers are tokens. *)
Fixpoint jsonText (v : json number_token) : ustring :=
  match v with
  | JNull => units "null"
  | JBool b => units (if b then "true" else "false")
  | JNum t => token_text t
  | JStr s => quote s
  | JArr items => bracket (map jsonText items)
  | JObj members => brace (map (fun m => member_text (m.1, jsonText m.2)) members)
  end.

(** *** jsonbTextBytes *)
Record OpenContainer : Type := {
  object : bool;
  members : jsmap ustring Z;
  bytes : Z;
  count : Z;
  key : ustring;
  keyBytes : Z;
}.
#[export] Instance eta_container : Eta OpenContainer := fun c =>
  {| object := object c; members := members c; bytes := bytes c; count := count c; key := key c;
     keyBytes := keyBytes c |}.
Record TextWalk : Type := { stack : list OpenContainer; result : Z; expectKey : bool }.
#[export] Instance eta_TextWalk : Eta TextWalk := fun w =>
  {| stack := stack w; result := result w; expectKey := expectKey w |}.

Definition newContainer (isObject : bool) : OpenContainer :=
  {| object := isObject; members := []; bytes := 0; count := 0; key := []; keyBytes := 0 |}.
Definition addTo (n : Z) (c : OpenContainer) : OpenContainer :=
  if object c then c <| members ::= jsset (key c) (keyBytes c + n) |>
  else c <| bytes ::= Z.add n |> <| count ::= Z.add 1 |>.
Definition add (n : Z) (w : TextWalk) : TextWalk :=
  match stack w with
  | [] => w <| result := n |>
  | top :: below => w <| stack := addTo n top :: below |>
  end.
Definition containerBytes (c : OpenContainer) : Z :=
  let count := if object c then Z.of_nat (length (members c)) else count c in
  let bytes := if object c then foldl (fun n m => n + m.2) (bytes c) (members c) else bytes c in
  2 + bytes + (if 0 <? count then 2 * (count - 1) else 0).

(** The units up to the closing quote, whether one of them is escaped, and the
    text after the quote.  [None] when the text ends before the quote, where
    the loop of the source does not end. *)
Fixpoint scanString (rest : ustring) : option (bool * ustring * ustring) :=
  match rest with
  | [] => None
  | u :: rest' =>
      if (u =? QUOTE)%N then Some (false, [], rest')
      else if (u =? BACKSLASH)%N then
        match rest' with
        | e :: after =>
            match scanString after with Some (_, body, r) => Some (true, u :: e :: body, r) | None => None end
        | [] => None
        end
      else match scanString rest' with Some (esc, body, r) => Some (esc, u :: body, r) | None => None end
  end.
(** [JSON.parse] of a string token, from its body. *)
Definition parseString (body : ustring) : ustring :=
  match readChars (S (length body)) (body ++ [QUOTE]) [] with Some (s, _) => s | None => [] end.

Definition isNumberCharacter (u : N) : bool :=
  is_digit u || (u =? 45)%N || (u =? 43)%N || (u =? 46)%N || (u =? 101)%N || (u =? 69)%N.
Fixpoint spanNumber (l : ustring) : ustring * ustring :=
  match l with
  | u :: l' => if isNumberCharacter u then let (d, r) := spanNumber l' in (u :: d, r) else ([], l)
  | [] => ([], [])
  end.

(** A string token: the key of a member, or a value. *)
Definition addString (escaped : bool) (body : ustring) (w : TextWalk) : TextWalk :=
  let text := if escaped then parseString body else body in
  let n := if escaped then byteLength (quote text) else byteLength (QUOTE :: body ++ [QUOTE]) in
  match stack w with
  | top :: below =>
      if expectKey w
      then w <| stack := top <| key := text |> <| keyBytes := n + 2 |> :: below |> <| expectKey := false |>
      else add n w
  | [] => add n w
  end.

(** One turn of the loop at the unit [c]: the walk and the text from the new
    index on. *)
Definition walkStep (c : N) (rest : ustring) (w : TextWalk) : option (TextWalk * ustring) :=
  (if (c =? 123) || (c =? 91) then
     Some (w <| stack ::= cons (newContainer (c =? 123)) |> <| expectKey := (c =? 123) |>, rest)
   else if (c =? 125) || (c =? 93) then
     match stack w with
     | top :: below => Some ((add (containerBytes top) (w <| stack := below |>)) <| expectKey := false |>, rest)
     | [] => None
     end
   else if c =? 44 then
     Some (w <| expectKey := match stack w with top :: _ => object top | [] => false end |>, rest)
   else if c =? QUOTE then
     match scanString rest with Some (escaped, body, r) => Some (addString escaped body w, r) | None => None end
   else if (c =? 116) || (c =? 110) then Some (add 4 w, drop 3 rest)
   else if c =? 102 then Some (add 5 w, drop 4 rest)
   else if isNumberCharacter c then
     let (token, r) := spanNumber rest in Some (add (numericTextBytes (c :: token)) w, r)
   else Some (w, rest))%N.
Fixpoint walkText (fuel : nat) (rest : ustring) (w : TextWalk) : option Z :=
  match rest, fuel with
  | [], _ => Some (result w)
  | c :: rest, S fuel => match walkStep c rest w with Some (w, rest) => walkText fuel rest w | None => None end
  | _ :: _, O => None
  end.
Definition jsonbTextBytes (serialized : ustring) : option Z :=
  walkText (length serialized) serialized {| stack := []; result := 0; expectKey := false |}.

(** *** The reference: the text that PostgreSQL writes for the jsonb value *)
Fixpoint spacedJoin (l : list ustring) : ustring :=
  match l with [] => [] | [x] => x | x :: l => x ++ 44%N :: 32%N :: spacedJoin l end.
(** jsonb keeps the last value of each key. *)
Definition lastMembers {V} (l : list (ustring * V)) : jsmap ustring V :=
  foldl (fun m e => jsset e.1 e.2 m) [] l.
Fixpoint jsonbText (v : json number_token) : ustring :=
  match v with
  | JNull => units "null"
  | JBool b => units (if b then "true" else "false")
  | JNum t => numeric_out t
  | JStr s => quote s
  | JArr items => 91%N :: spacedJoin (map jsonbText items) ++ [93%N]
  | JObj members =>
      123%N :: spacedJoin (map (fun m => quote m.1 ++ 58%N :: 32%N :: m.2)
                             (lastMembers (map (fun m => (m.1, jsonbText m.2)) members))) ++ [125%N]
  end.
Fixpoint json_numbers (v : json number_token) : list number_token :=
  match v with
  | JNum t => [t]
  | JArr items => flat_map json_numbers items
  | JObj members => flat_map (fun m => json_numbers m.2) members
  | _ => []
  end.

(** ** The walk measures exactly that text *)

(** *** Byte lengths *)
Definition starts_low (s : ustring) : bool := match s with u :: _ => is_low u | [] => false end.
Lemma points_app s1 s2 : starts_low s2 = false -> points (s1 ++ s2) = points s1 ++ points s2.
Proof.
  intros Hs. induction s1 as [s1 IH] using (induction_ltof1 _ (@length N)). unfold ltof in IH.
  destruct s1 as [|u [|v s1]]; [done| |].
  - destruct s2 as [|v s2]; [done|]. simpl in *. by rewrite Hs, andb_false_r.
  - change ((u :: v :: s1) ++ s2) with (u :: v :: (s1 ++ s2)). rewrite !points_two.
    destruct (is_high u && is_low v).
    + rewrite IH by (simpl; lia). done.
    + exact (f_equal (cons (One u)) (IH (v :: s1) ltac:(simpl; lia))).
Qed.
Lemma byteLength_app s1 s2 : starts_low s2 = false -> byteLength (s1 ++ s2) = byteLength s1 + byteLength s2.
Proof.
  intros Hs. unfold byteLength. rewrite points_app by done. induction (points s1) as [|p ps IH]; simpl; lia.
Qed.
Lemma byteLength_ascii u s : (u < 128)%N -> byteLength (u :: s) = 1 + byteLength s.
Proof.
  intros Hu. unfold byteLength. replace (points (u :: s)) with (One u :: points s).
  - simpl. unfold unit_bytes. by rewrite (proj2 (N.ltb_lt u 0x80)).
  - destruct s as [|v s]; [done|]. rewrite points_two. unfold is_high. by rewrite (proj2 (N.leb_gt _ u)) by lia.
Qed.
Lemma byteLength_all_ascii s : Forall (fun u => (u < 128)%N) s -> byteLength s = Z.of_nat (length s).
Proof. induction 1 as [|u s Hu _ IH]; [done|]. rewrite byteLength_ascii, IH by done. simpl. lia. Qed.
Lemma byteLength_nonneg s : 0 <= byteLength s.
Proof.
  unfold byteLength. induction (points s) as [|[|u] ps IH]; simpl; [done|lia|].
  unfold unit_bytes. repeat case_match; lia.
Qed.

(** *** Strings *)
Definition point_escaped (p : point) : bool :=
  match p with Pair _ _ => false | One u => negb (bool_decide (escape_unit u = [u])) end.
Definition string_escaped (s : ustring) : bool := existsb point_escaped (points s).

Definition plain (u : N) : bool := negb (u =? QUOTE)%N && negb (u =? BACKSLASH)%N.
Lemma scanString_plain l tl esc body r :
  Forall (fun u => plain u = true) l -> scanString tl = Some (esc, body, r) ->
  scanString (l ++ tl) = Some (esc, l ++ body, r).
Proof.
  intros Hl Htl. induction Hl as [|u l Hu _ IH]; [done|]. simpl. rewrite IH.
  unfold plain in Hu. destruct (u =? QUOTE)%N, (u =? BACKSLASH)%N; done.
Qed.
Lemma hex4_plain u : (u < 65536)%N -> Forall (fun u => plain u = true) (hex4 u).
Proof.
  intros Hu. assert (Hd : forall d, (d < 16)%N -> plain (hexDigit d) = true).
  { intros d Hd. unfold plain, hexDigit, QUOTE, BACKSLASH. case_match; lia. }
  unfold hex4. repeat apply Forall_cons_2; try apply Forall_nil_2; apply Hd;
    solve [apply N.mod_lt; lia | apply N.Div0.div_lt_upper_bound; lia].
Qed.

(** An escaped unit: a backslash, one unit, and plain units. *)
Lemma escape_unit_shape u :
  (escape_unit u = [u] /\ plain u = true) \/
  (exists e t, escape_unit u = BACKSLASH :: e :: t /\ Forall (fun u => plain u = true) t).
Proof.
  unfold escape_unit.
  repeat match goal with |- context [if (u =? ?k)%N then _ else _] =>
    destruct (N.eqb_spec u k) as [->|?]; [right; by eexists _, []|] end.
  destruct ((u <? 32)%N || is_surrogate u) eqn:E.
  - right. exists 117%N, (hex4 u). split; [done|]. apply hex4_plain. unfold is_surrogate in E. lia.
  - left. split; [done|]. unfold plain, QUOTE, BACKSLASH. lia.
Qed.
Lemma escape_unit_escaped u e t : escape_unit u = BACKSLASH :: e :: t -> bool_decide (escape_unit u = [u]) = false.
Proof. intros E. apply bool_decide_eq_false. rewrite E. congruence. Qed.

Lemma scanString_points ps tl : Forall point_ok ps ->
  scanString (flat_map escape_point ps ++ QUOTE :: tl) =
    Some (existsb point_escaped ps, flat_map escape_point ps, tl).
Proof.
  induction 1 as [|p ps Hp _ IH]; [done|]. cbn [flat_map existsb]. rewrite <- app_assoc.
  destruct p as [u v|u].
  - change (point_escaped (Pair u v) || existsb point_escaped ps) with (existsb point_escaped ps).
    apply (scanString_plain [u; v]); [|done]. destruct Hp as [Hu Hv]. unfold is_high, is_low in Hu, Hv.
    repeat apply Forall_cons_2; try apply Forall_nil_2; unfold plain, QUOTE, BACKSLASH; lia.
  - simpl escape_point. unfold point_escaped at 1.
    destruct (escape_unit_shape u) as [[E Hu]|(e & t & E & Ht)].
    + rewrite E. rewrite bool_decide_eq_true_2 by done. apply (scanString_plain [u]); [|done]. by repeat constructor.
    + rewrite (escape_unit_escaped u e t E), E. cbn [negb orb app scanString].
      by rewrite (scanString_plain t _ _ _ _ Ht IH).
Qed.
Lemma scanString_quote s tl :
  scanString (quote_body s ++ QUOTE :: tl) = Some (string_escaped s, quote_body s, tl).
Proof. apply scanString_points, points_ok. Qed.
Lemma unescaped_body s : string_escaped s = false -> quote_body s = s.
Proof.
  unfold string_escaped, quote_body. intros H. rewrite <- (points_units s) at 2.
  induction (points s) as [|p ps IH]; [done|]. simpl in *. apply orb_false_elim in H as [Hp Hps].
  rewrite IH by done. f_equal. destruct p as [u v|u]; [done|]. simpl in *.
  apply negb_false_iff, bool_decide_eq_true in Hp. done.
Qed.
Lemma parseString_quote s : parseString (quote_body s) = s.
Proof. unfold parseString. rewrite readChars_quote by lia. done. Qed.

(** A string token as the walk reads it, whichever way it measures it. *)
Lemma addString_quote s w :
  addString (string_escaped s) (quote_body s) w =
  match stack w with
  | top :: below =>
      if expectKey w
      then w <| stack := top <| key := s |> <| keyBytes := byteLength (quote s) + 2 |> :: below |>
             <| expectKey := false |>
      else add (byteLength (quote s)) w
  | [] => add (byteLength (quote s)) w
  end.
Proof.
  unfold addString. rewrite parseString_quote.
  destruct (string_escaped s) eqn:E; [done|]. unfold quote. by rewrite (unescaped_body s E).
Qed.

(** *** Values *)

(** The walk over [text] takes [w] to [w'], whatever follows that [ok] allows. *)
Definition walks (ok : ustring -> Prop) (text : ustring) (w w' : TextWalk) : Prop :=
  forall rest fuel, ok rest -> (length text + length rest <= fuel)%nat ->
    exists fuel', (length rest <= fuel')%nat /\ walkText fuel (text ++ rest) w = walkText fuel' rest w'.

Lemma walks_step (ok : ustring -> Prop) c text w w' :
  (forall rest, ok rest -> walkStep c (text ++ rest) w = Some (w', rest)) -> walks ok (c :: text) w w'.
Proof.
  intros Hs rest fuel Hr Hf. destruct fuel as [|fuel]; [simpl in Hf; lia|].
  exists fuel. split; [simpl in Hf; lia|]. simpl. by rewrite Hs.
Qed.
Lemma walks_app (ok1 ok2 : ustring -> Prop) t1 t2 w1 w2 w3 :
  walks ok1 t1 w1 w2 -> walks ok2 t2 w2 w3 -> (forall rest, ok2 rest -> ok1 (t2 ++ rest)) ->
  walks ok2 (t1 ++ t2) w1 w3.
Proof.
  intros H1 H2 Hok rest fuel Hr Hf. rewrite length_app in Hf. rewrite <- app_assoc.
  destruct (H1 (t2 ++ rest) fuel) as (f1 & Hf1 & ->); [auto|rewrite length_app; lia|].
  rewrite length_app in Hf1. apply H2; [done|lia].
Qed.
Lemma walks_nil ok w : walks ok [] w w.
Proof. intros rest fuel _ Hf. exists fuel. split; [done|]. done. Qed.

Lemma token_characters t : token_ok t -> Forall (fun u => isNumberCharacter u = true) (token_text t).
Proof.
  intros ([_ Hi] & _ & Hf & He & _). unfold token_text.
  assert (Hd : forall l, Forall (fun u => is_digit u = true) l -> Forall (fun u => isNumberCharacter u = true) l).
  { intros l Hl. eapply Forall_impl; [exact Hl|]. intros u Hu. unfold isNumberCharacter. by rewrite Hu. }
  repeat (apply Forall_app; split).
  - destruct (negative t); by repeat constructor.
  - by apply Hd.
  - destruct (fractionDigits t); constructor; [done|]. apply Hd, Hf.
  - destruct (exponentPart t) as [[[up sg] d]|]; [|constructor]. destruct He as [_ He].
    destruct up, sg as [[]|]; repeat (constructor; [done|]); by apply Hd.
Qed.
Lemma spanNumber_app l rest :
  Forall (fun u => isNumberCharacter u = true) l -> follow rest -> spanNumber (l ++ rest) = (l, rest).
Proof.
  intros Hl Hr. induction Hl as [|u l Hu _ IH]; simpl; [|by rewrite Hu, IH].
  destruct Hr as [->|(u & r & -> & Hu)]; [done|]. simpl.
  replace (isNumberCharacter u) with false; [done|]. unfold delimiter, isNumberCharacter, is_digit in *. lia.
Qed.
Lemma number_step c token w r rest :
  isNumberCharacter c = true -> spanNumber rest = (token, r) ->
  walkStep c rest w = Some (add (numericTextBytes (c :: token)) w, r).
Proof.
  intros Hc Hs. unfold walkStep. rewrite Hc, Hs.
  unfold isNumberCharacter, is_digit in Hc. unfold QUOTE.
  repeat match goal with |- context [(c =? ?k)%N] =>
    lazymatch k with 45%N => fail | 43%N => fail | 46%N => fail | 101%N => fail | 69%N => fail
    | _ => rewrite (proj2 (N.eqb_neq c k)) by lia end end. done.
Qed.
Lemma number_walks t w :
  token_ok t -> walks follow (token_text t) w (add (Z.of_nat (length (numeric_out t))) w).
Proof.
  intros Hok. rewrite <- numeric_bytes by done. pose proof (token_characters t Hok) as Hc.
  destruct (token_text t) as [|c l] eqn:E.
  - exfalso. destruct Hok as ([Hne _] & _). unfold token_text in E.
    apply app_eq_nil in E as [_ E]. by apply app_eq_nil in E as [E _].
  - apply Forall_cons in Hc as [Hc Hl]. apply walks_step. intros rest Hr.
    apply number_step; [done|]. by apply spanNumber_app.
Qed.

Abbreviation at_ st r k := {| stack := st; result := r; expectKey := k |}.
(** The value is read as its jsonb text is long. *)
Definition value_walks (v : json number_token) : Prop := forall st r,
  Forall token_ok (json_numbers v) ->
  walks follow (jsonText v) (at_ st r false) (add (byteLength (jsonbText v)) (at_ st r false)).

Lemma add_key n st r k : expectKey (add n (at_ st r k)) = k.
Proof. by destruct st. Qed.

Lemma word_walks (text : ustring) n c l st r :
  text = c :: l -> (forall rest w, walkStep c (l ++ rest) w = Some (add n w, rest)) ->
  walks follow text (at_ st r false) (add n (at_ st r false)).
Proof. intros -> H. apply walks_step. auto. Qed.
Lemma string_walks s st r :
  walks follow (quote s) (at_ st r false) (add (byteLength (quote s)) (at_ st r false)).
Proof.
  apply walks_step. intros rest _. rewrite <- app_assoc.
  change (walkStep QUOTE (quote_body s ++ QUOTE :: rest) (at_ st r false) =
          Some (add (byteLength (quote s)) (at_ st r false), rest)).
  unfold walkStep. simpl N.eqb. cbv iota. rewrite scanString_quote, addString_quote. by destruct st.
Qed.
Lemma key_walks s top below r :
  walks (fun _ => True) (quote s) (at_ (top :: below) r true)
    (at_ (top <| key := s |> <| keyBytes := byteLength (quote s) + 2 |> :: below) r false).
Proof.
  apply walks_step. intros rest _. rewrite <- app_assoc.
  change (walkStep QUOTE (quote_body s ++ QUOTE :: rest) (at_ (top :: below) r true) =
    Some (at_ (top <| key := s |> <| keyBytes := byteLength (quote s) + 2 |> :: below) r false, rest)).
  unfold walkStep. simpl N.eqb. cbv iota. by rewrite scanString_quote, addString_quote.
Qed.
Lemma colon_walks w : walks (fun _ => True) [58%N] w w.
Proof. by apply walks_step. Qed.
Lemma comma_walks top below r k :
  walks (fun _ => True) [44%N] (at_ (top :: below) r k) (at_ (top :: below) r (object top)).
Proof. by apply walks_step. Qed.

Definition items_into (c : OpenContainer) (l : list (json number_token)) : OpenContainer :=
  foldl (fun c x => addTo (byteLength (jsonbText x)) c) c l.
Definition member_into (c : OpenContainer) (m : ustring * json number_token) : OpenContainer :=
  addTo (byteLength (jsonbText m.2)) (c <| key := m.1 |> <| keyBytes := byteLength (quote m.1) + 2 |>).
Definition members_into (c : OpenContainer) (l : list (ustring * json number_token)) : OpenContainer :=
  foldl member_into c l.
Lemma addTo_object n c : object (addTo n c) = object c.
Proof. unfold addTo. destruct (object c) eqn:E; simpl; congruence. Qed.

Lemma items_walks l : Forall value_walks l -> forall c below r,
  object c = false -> Forall token_ok (flat_map json_numbers l) ->
  walks follow (join (map jsonText l)) (at_ (c :: below) r false) (at_ (items_into c l :: below) r false).
Proof.
  induction 1 as [|x l Hx Hl IH]; intros c below r Hc Hok; [apply walks_nil|].
  simpl in Hok. apply Forall_app in Hok as [Hok1 Hok2]. specialize (Hx (c :: below) r Hok1).
  destruct l as [|y l]; [exact Hx|]. 
  change (join (map jsonText (x :: y :: l))) with (jsonText x ++ [44%N] ++ join (map jsonText (y :: l))).
  eapply walks_app; [exact Hx| |intros rest _; by apply follow_cons].
  eapply walks_app; [apply comma_walks| |done]. rewrite addTo_object, Hc.
  by apply IH; [rewrite addTo_object|].
Qed.
Lemma member_walks m c below r :
  value_walks m.2 -> object c = true -> Forall token_ok (json_numbers m.2) ->
  walks follow (member_text (m.1, jsonText m.2)) (at_ (c :: below) r true) (at_ (member_into c m :: below) r false).
Proof.
  intros Hm Hc Hok.
  change (member_text (m.1, jsonText m.2)) with (quote m.1 ++ [58%N] ++ jsonText m.2).
  eapply walks_app; [apply key_walks| |done].
  eapply walks_app; [apply colon_walks| |done]. exact (Hm _ r Hok).
Qed.
Lemma members_walks l : Forall (fun m => value_walks m.2) l -> forall c below r,
  l <> [] -> object c = true -> Forall token_ok (flat_map (fun m => json_numbers m.2) l) ->
  walks follow (join (map (fun m => member_text (m.1, jsonText m.2)) l))
    (at_ (c :: below) r true) (at_ (members_into c l :: below) r false).
Proof.
  induction 1 as [|m l Hm Hl IH]; intros c below r Hne Hc Hok; [done|].
  simpl in Hok. apply Forall_app in Hok as [Hok1 Hok2].
  pose proof (member_walks m c below r Hm Hc Hok1) as Hx.
  destruct l as [|y l]; [exact Hx|].
  set (text := fun m => member_text (m.1, jsonText m.2)) in *.
  change (join (map text (m :: y :: l))) with (text m ++ [44%N] ++ join (map text (y :: l))).
  eapply walks_app; [exact Hx| |intros rest _; by apply follow_cons].
  eapply walks_app; [apply comma_walks| |done].
  assert (Ho : object (member_into c m) = true) by (unfold member_into; by rewrite addTo_object).
  rewrite Ho. by apply IH.
Qed.

(** *** The bytes of a container *)
Definition total (l : list ustring) : Z := foldr (fun s n => byteLength s + n) 0 l.
Definition separators (n : nat) : Z := match n with O => 0 | S n => 2 * Z.of_nat n end.

Lemma byteLength_spacedJoin l : byteLength (spacedJoin l) = total l + separators (length l).
Proof.
  induction l as [|x l IH]; [done|]. destruct l as [|y l]; [simpl; lia|].
  change (spacedJoin (x :: y :: l)) with (x ++ 44%N :: 32%N :: spacedJoin (y :: l)).
  rewrite byteLength_app, !byteLength_ascii, IH by done.
  change (total (x :: y :: l)) with (byteLength x + total (y :: l)). unfold separators. cbn [length]. lia.
Qed.
Lemma byteLength_enclosed a b s :
  (a < 128)%N -> (b < 128)%N -> byteLength (a :: s ++ [b]) = 2 + byteLength s.
Proof.
  intros Ha Hb. rewrite byteLength_ascii, byteLength_app, byteLength_ascii by (first [done | simpl; unfold is_low; lia]).
  unfold byteLength at 2. simpl. lia.
Qed.

Lemma items_into_bytes l : forall c, object c = false ->
  containerBytes (items_into c l) =
  2 + (bytes c + total (map jsonbText l))
    + (let n := count c + Z.of_nat (length l) in if 0 <? n then 2 * (n - 1) else 0).
Proof.
  induction l as [|x l IH]; intros c Hc.
  - unfold containerBytes. simpl. by rewrite Hc, !Z.add_0_r.
  - cbn [items_into foldl]. fold (items_into (addTo (byteLength (jsonbText x)) c) l).
    rewrite IH by by rewrite addTo_object. unfold addTo. rewrite Hc. simpl.
    replace (1 + count c + Z.of_nat (length l)) with (count c + Z.of_nat (S (length l))) by lia.
    cbv zeta. destruct (0 <? count c + Z.of_nat (S (length l))); lia.
Qed.

(** The bytes of a member, from its key and the text of its value. *)
Definition member_bytes (e : ustring * ustring) : ustring * Z := (e.1, byteLength (quote e.1) + 2 + byteLength e.2).
Lemma jshas_map {V W} (f : ustring * V -> ustring * W) k (m : jsmap ustring V) :
  (forall e, (f e).1 = e.1) -> jshas k (map f m) = jshas k m.
Proof.
  intros Hf. unfold jshas. induction m as [|[k' v] m IH]; [done|]. simpl.
  destruct (f (k', v)) as [k'' w] eqn:E. assert (k'' = k') as -> by (specialize (Hf (k', v)); by rewrite E in Hf).
  by case_decide.
Qed.
Lemma jsset_map {V W} (f : ustring * V -> ustring * W) k v (m : jsmap ustring V) :
  (forall e, (f e).1 = e.1) -> map f (jsset k v m) = jsset k (f (k, v)).2 (map f m).
Proof.
  intros Hf. assert (Hkv : f (k, v) = (k, (f (k, v)).2)) by (rewrite <- (Hf (k, v)) at 2; by destruct (f (k, v))).
  unfold jsset. rewrite jshas_map by done. destruct (jshas k m).
  - rewrite !map_map. apply map_ext. intros e. rewrite Hf. by case_decide.
  - rewrite map_app. simpl. by rewrite Hkv at 1.
Qed.
Lemma members_into_members l : forall c, object c = true ->
  object (members_into c l) = true /\ bytes (members_into c l) = bytes c /\
  (forall m, members c = map member_bytes m ->
    members (members_into c l) =
      map member_bytes (foldl (fun m e => jsset e.1 e.2 m) m (map (fun m => (m.1, jsonbText m.2)) l))).
Proof.
  induction l as [|e l IH]; intros c Hc; [by split_and!|]. cbn [members_into foldl map].
  fold (members_into (member_into c e) l).
  assert (Ho : object (member_into c e) = true) by (unfold member_into; by rewrite addTo_object).
  assert (Hb : bytes (member_into c e) = bytes c) by (unfold member_into, addTo; simpl; by rewrite Hc).
  destruct (IH (member_into c e) Ho) as (? & ? & Hm). split_and!; [done|congruence|].
  intros m Hcm. simpl. apply Hm. unfold member_into, addTo. simpl. rewrite Hc. simpl. rewrite Hcm.
  by rewrite jsset_map.
Qed.
Lemma foldl_member_bytes (m : jsmap ustring ustring) n :
  foldl (fun n (e : ustring * Z) => n + e.2) n (map member_bytes m) =
    n + total (map (fun e => quote e.1 ++ 58%N :: 32%N :: e.2) m).
Proof.
  revert n. induction m as [|e m IH]; intros n; [simpl; lia|]. cbn [map foldl]. rewrite IH.
  change (total (?x :: ?l)) with (byteLength x + total l).
  rewrite byteLength_app, !byteLength_ascii by done. unfold member_bytes. cbn [snd]. lia.
Qed.

Lemma array_bytes l :
  containerBytes (items_into (newContainer false) l) = byteLength (jsonbText (JArr l)).
Proof.
  rewrite items_into_bytes by done. cbn [jsonbText].
  rewrite byteLength_enclosed, byteLength_spacedJoin, length_map by done.
  cbn [newContainer bytes count]. unfold separators. destruct l as [|x l]; [done|]. cbn [length].
  rewrite (proj2 (Z.ltb_lt 0 _)) by lia. lia.
Qed.
Lemma object_bytes l :
  containerBytes (members_into (newContainer true) l) = byteLength (jsonbText (JObj l)).
Proof.
  destruct (members_into_members l (newContainer true) eq_refl) as (Ho & Hb & Hm).
  specialize (Hm [] eq_refl). unfold containerBytes. rewrite Ho, Hb, Hm. cbn [jsonbText].
  rewrite byteLength_enclosed, byteLength_spacedJoin by done. fold (@lastMembers ustring).
  change (foldl (fun (m : jsmap ustring ustring) e => jsset e.1 e.2 m) [] ?l) with (lastMembers l).
  rewrite foldl_member_bytes, !length_map. cbn [newContainer bytes].
  unfold separators. destruct (length (lastMembers _)); [simpl; lia|].
  rewrite (proj2 (Z.ltb_lt 0 _)) by lia. lia.
Qed.

Lemma close_walks (c : N) top below r k :
  (c = 125 \/ c = 93)%N ->
  walks (fun _ => True) [c] (at_ (top :: below) r k) (add (containerBytes top) (at_ below r false)).
Proof.
  intros Hc. apply walks_step. intros rest _. destruct Hc as [-> | ->]; unfold walkStep; simpl; by destruct below.
Qed.
Lemma open_walks (c : N) st r k :
  (c = 123 \/ c = 91)%N ->
  walks (fun _ => True) [c] (at_ st r k) (at_ (newContainer (c =? 123)%N :: st) r (c =? 123)%N).
Proof. intros Hc. apply walks_step. intros rest _. by destruct Hc as [-> | ->]. Qed.
Lemma walks_weaken (ok ok' : ustring -> Prop) text w w' :
  (forall rest, ok' rest -> ok rest) -> walks ok text w w' -> walks ok' text w w'.
Proof. intros Hok Hw rest fuel Hr. apply Hw. auto. Qed.

Lemma numeric_out_ascii t : token_ok t -> Forall (fun u => (u < 128)%N) (numeric_out t).
Proof.
  intros Hok. pose proof (token_digits_ok t Hok) as Hd.
  assert (Hd' : Forall (fun u => (u < 128)%N) (token_digits t)).
  { eapply Forall_impl; [exact Hd|]. intros u Hu. unfold is_digit in Hu. lia. }
  assert (Hs : forall l, Forall (fun u => (u < 128)%N) l -> Forall (fun u => (u < 128)%N) (stripZeros l)).
  { induction 1 as [|u l Hu Hl IH]; simpl; [constructor|]. case_match; [done|by constructor]. }
  assert (Hr : forall n, Forall (fun u => (u < 128)%N) (replicate n 48%N)) by (intros n; by apply Forall_replicate).
  unfold numeric_out. repeat (apply Forall_app; split).
  - case_match; by repeat constructor.
  - set (w := if 0 <? _ then _ else _). assert (Hw : Forall (fun u => (u < 128)%N) w).
    { subst w. case_match; [|constructor]. apply Forall_app. split; [by apply Forall_take|done]. }
    specialize (Hs w Hw). destruct (stripZeros w); [by repeat constructor|done].
  - set (f := if 0 <? _ then _ else _). assert (Hf : Forall (fun u => (u < 128)%N) f).
    { subst f. case_match; [by apply Forall_drop|]. apply Forall_app. done. }
    destruct f; [constructor|]. by constructor.
Qed.

Lemma values_walk v : value_walks v.
Proof.
  induction v as [|b|t|s|l IH|l IH] using json_induction; intros st r Hok.
  - by eapply word_walks.
  - by destruct b; eapply word_walks.
  - cbn [jsonText jsonbText]. assert (Ht : token_ok t) by by inversion Hok.
    rewrite (byteLength_all_ascii _ (numeric_out_ascii t Ht)). by apply number_walks.
  - apply string_walks.
  - cbn [jsonText]. rewrite <- array_bytes. unfold bracket.
    change (91%N :: join (map jsonText l) ++ [93%N]) with ([91%N] ++ join (map jsonText l) ++ [93%N]).
    eapply walks_app; [apply (open_walks 91); by right| |done].
    eapply walks_app; [by apply items_walks| |intros rest _; by apply follow_cons].
    eapply walks_weaken; [|apply close_walks; by right]. done.
  - cbn [jsonText]. rewrite <- object_bytes. unfold brace.
    change (123%N :: ?t ++ [125%N]) with ([123%N] ++ t ++ [125%N]).
    eapply walks_app; [apply (open_walks 123); by left| |done]. destruct l as [|m l].
    + eapply walks_weaken; [|apply (close_walks 125); by left]. done.
    + eapply walks_app; [by apply members_walks| |intros rest _; by apply follow_cons].
      eapply walks_weaken; [|apply close_walks; by left]. done.
Qed.

(** The walk over a whole text. *)
Lemma jsonbTextBytes_value v :
  Forall token_ok (json_numbers v) -> jsonbTextBytes (jsonText v) = Some (byteLength (jsonbText v)).
Proof.
  intros Hok. destruct (values_walk v [] 0 Hok [] (length (jsonText v))) as (fuel & _ & E); [by left|simpl; lia|].
  unfold jsonbTextBytes. rewrite app_nil_r in E. rewrite E. by destruct fuel.
Qed.

(** ** serializeJsonWithinLimit *)

(** The test of [EXPONENT_NUMBER]: a digit, a letter e, an optional sign, a
    digit. *)
Definition exponentAt (l : ustring) : bool :=
  match l with
  | d :: e :: s :: l =>
      is_digit d && isExponentLetter e &&
      (is_digit s || (((s =? 43) || (s =? 45))%N && match l with d' :: _ => is_digit d' | [] => false end))
  | _ => false
  end.
(** [pattern.test(l)] for a pattern that [p] matches at the start of a text. *)
Fixpoint anywhere (p : ustring -> bool) (l : ustring) : bool :=
  p l || match l with _ :: l => anywhere p l | [] => false end.
Definition exponentNumber : ustring -> bool := anywhere exponentAt.

Inductive value_error : Type := TaskValueSizeLimit (actualBytes maxBytes : Z) | UnstorableResult.
Definition serializeJsonWithinLimit (v : json number_token) (maxBytes : Z) : option (res value_error ustring) :=
  let serialized := jsonText v in
  let compactBytes := byteLength serialized in
  if (compactBytes * 2 <=? maxBytes) && negb (exponentNumber serialized) then Some (Ret serialized)
  else
    actualBytes ← jsonbTextBytes serialized;
    Some (if maxBytes <? actualBytes then Throw (TaskValueSizeLimit actualBytes maxBytes) else Ret serialized).

(** *** Without an exponent the jsonb text is at most twice as long *)
Lemma exponentAt_app l k : exponentAt l = true -> exponentAt (l ++ k) = true.
Proof.
  destruct l as [|d [|e [|s l]]]; try done. simpl. destruct l as [|d' l]; simpl; [|done].
  rewrite andb_false_r, orb_false_r. intros [-> ->]%andb_prop. done.
Qed.
Lemma anywhere_app_r p k l : anywhere p l = true -> anywhere p (k ++ l) = true.
Proof. intros H. induction k as [|u k IH]; [done|]. cbn [anywhere app]. rewrite IH. apply orb_true_r. Qed.
Lemma anywhere_infix p a l b :
  (forall l k, p l = true -> p (l ++ k) = true) -> anywhere p l = true -> anywhere p (a ++ l ++ b) = true.
Proof.
  intros Hp H. apply anywhere_app_r. induction l as [|u l IH]; cbn [anywhere app] in *.
  - rewrite orb_false_r in H. specialize (Hp [] b H). simpl in Hp. destruct b; cbn [anywhere]; by rewrite Hp.
  - apply orb_prop in H as [H|H]; apply orb_true_intro; [left; by apply (Hp (u :: l))|right; auto].
Qed.
Lemma exponentNumber_infix a l b : exponentNumber l = true -> exponentNumber (a ++ l ++ b) = true.
Proof. apply anywhere_infix, exponentAt_app. Qed.

Lemma token_exponent t : token_ok t -> exponentPart t <> None -> exponentNumber (token_text t) = true.
Proof.
  intros ([Hne Hi] & _ & Hf & He & _) Hx. destruct (exponentPart t) as [[[up sg] d]|] eqn:E; [|done].
  unfold token_text. rewrite E. rewrite !app_assoc.
  set (mantissa := (_ ++ integerDigits t) ++ _).
  assert (Hm : exists pre u, mantissa = pre ++ [u] /\ is_digit u = true).
  { assert (Hlast : forall l, all_digits l -> exists pre u, l = pre ++ [u] /\ is_digit u = true).
    { intros l [Hl Hd]. destruct l as [|u l _] using rev_ind; [done|]. exists l, u. split; [done|].
      apply Forall_app in Hd as [_ Hd]. by inversion Hd. }
    subst mantissa. destruct (fractionDigits t) as [f|].
    - destruct (Hlast f Hf) as (pre & u & -> & Hu). eexists _, u. split; [|done].
      by rewrite app_comm_cons, !app_assoc.
    - destruct (Hlast _ (conj Hne Hi)) as (pre & u & -> & Hu). eexists _, u. split; [|done].
      by rewrite app_nil_r, !app_assoc. }
  destruct Hm as (pre & u & -> & Hu). rewrite <- app_assoc. apply anywhere_app_r.
  destruct He as [Hd0 Hd]. destruct d as [|v d]; [done|]. apply Forall_cons in Hd as [Hv _].
  destruct up, sg as [[]|]; cbn [anywhere exponent_text app]; unfold exponentAt; rewrite Hu, Hv; done.
Qed.
(** The texts of the numbers and of the strings of a value are parts of its text. *)
Definition part (x l : ustring) : Prop := exists a b, l = a ++ x ++ b.
Lemma part_trans x y z : part x y -> part y z -> part x z.
Proof. intros (a & b & ->) (c & d & ->). exists (c ++ a), (b ++ d). by rewrite <- !app_assoc. Qed.
Lemma part_enclosed u x v : part x (u :: x ++ [v]).
Proof. by exists [u], [v]. Qed.
Lemma part_join (l : list ustring) x : x ∈ l -> part x (join l).
Proof.
  induction l as [|y l IH]; [by intros ?%elem_of_nil|]. intros [->|Hx]%elem_of_cons.
  - destruct l as [|u l]; [exists [], []; simpl; by rewrite app_nil_r|]. by exists [], (44%N :: join (u :: l)).
  - destruct l as [|z l]; [by apply elem_of_nil in Hx|]. destruct (IH Hx) as (a & b & E).
    exists (y ++ 44%N :: a), b. change (join (y :: z :: l)) with (y ++ 44%N :: join (z :: l)).
    rewrite E. by rewrite <- app_assoc.
Qed.
Lemma part_item v l : v ∈ l -> part (jsonText v) (jsonText (JArr l)).
Proof.
  intros Hv. cbn [jsonText]. eapply part_trans; [|apply part_enclosed].
  by apply part_join, (list_elem_of_fmap_2 jsonText).
Qed.
Lemma part_member m l : m ∈ l -> part (quote m.1) (jsonText (JObj l)) /\ part (jsonText m.2) (jsonText (JObj l)).
Proof.
  intros Hm. set (text := fun m => member_text (m.1, jsonText m.2)).
  assert (Ht : part (text m) (jsonText (JObj l))).
  { cbn [jsonText]. eapply part_trans; [|apply part_enclosed]. by apply part_join, (list_elem_of_fmap_2 text). }
  split; (eapply part_trans; [|exact Ht]).
  - by exists [], (58%N :: jsonText m.2).
  - exists (quote m.1 ++ [58%N]), []. rewrite app_nil_r, <- app_assoc. done.
Qed.
Lemma part_number v t : t ∈ json_numbers v -> part (token_text t) (jsonText v).
Proof.
  induction v as [|b|t'|s|l IH|l IH] using json_induction; cbn [json_numbers]; try by intros ?%elem_of_nil.
  - intros ->%list_elem_of_singleton. exists [], []. by rewrite app_nil_r.
  - intros (x & Hx & Hin)%list_elem_of_In%in_flat_map. apply list_elem_of_In in Hx, Hin.
    rewrite Forall_forall in IH. eapply part_trans; [by apply (IH x)|by apply part_item].
  - intros (m & Hm & Hin)%list_elem_of_In%in_flat_map. apply list_elem_of_In in Hm, Hin.
    rewrite Forall_forall in IH. eapply part_trans; [by apply (IH m)|by apply part_member].
Qed.
Lemma value_exponent v t :
  t ∈ json_numbers v -> token_ok t -> exponentPart t <> None -> exponentNumber (jsonText v) = true.
Proof.
  intros (a & b & ->)%part_number Hok Hx. by apply exponentNumber_infix, token_exponent.
Qed.

Lemma byteLength_join l : byteLength (join l) = total l + Z.of_nat (pred (length l)).
Proof.
  induction l as [|x l IH]; [done|]. destruct l as [|y l]; [simpl; lia|].
  change (join (x :: y :: l)) with (x ++ 44%N :: join (y :: l)).
  rewrite byteLength_app, byteLength_ascii, IH by done.
  change (total (x :: y :: l)) with (byteLength x + total (y :: l)). cbn [length pred]. lia.
Qed.
(** The sum of weights over the last members is at most the sum over all. *)
Definition weigh {V} (weight : ustring * V -> Z) (l : list (ustring * V)) : Z := foldr (fun e n => weight e + n) 0 l.
Lemma weigh_perm {V} (weight : ustring * V -> Z) l k : l ≡ₚ k -> weigh weight l = weigh weight k.
Proof. induction 1; simpl; lia. Qed.
Lemma weigh_delete {V} (weight : ustring * V -> Z) k (m : jsmap ustring V) :
  (forall e, 0 <= weight e) -> weigh weight (jsdelete k m) <= weigh weight m.
Proof.
  intros Hw. unfold jsdelete. induction m as [|e m IH]; [done|]. rewrite filter_cons. specialize (Hw e).
  case_decide; simpl; lia.
Qed.
Lemma last_members_weigh {V} (weight : ustring * V -> Z) l : (forall e, 0 <= weight e) -> forall m,
  NoDup m.*1 ->
  let m' := foldl (fun m e => jsset e.1 e.2 m) m l in
  weigh weight m' <= weigh weight m + weigh weight l /\ (length m' <= length m + length l)%nat.
Proof.
  intros Hw. induction l as [|e l IH]; intros m Hn; simpl; [lia|].
  destruct (IH (jsset e.1 e.2 m) (jsset_NoDup _ _ _ Hn)) as [H1 H2]. simpl in H1, H2.
  assert (Hp := jsset_perm e.1 e.2 m Hn). rewrite (weigh_perm weight _ _ Hp) in H1. simpl in H1.
  apply Permutation_length in Hp. simpl in Hp.
  pose proof (weigh_delete weight e.1 m Hw). replace (e.1, e.2) with e in H1 by by destruct e.
  assert (length (jsdelete e.1 m) <= length m)%nat by apply length_filter. lia.
Qed.

Lemma quote_bytes s : 2 <= byteLength (quote s).
Proof. unfold quote. rewrite byteLength_enclosed by done. pose proof (byteLength_nonneg (quote_body s)). lia. Qed.
Lemma token_bytes t : token_ok t -> byteLength (token_text t) = Z.of_nat (length (token_text t)).
Proof.
  intros Hok. apply byteLength_all_ascii. eapply Forall_impl; [by apply token_characters|].
  intros u Hu. unfold isNumberCharacter, is_digit in Hu. lia.
Qed.
Lemma texts_total_le f g (l : list (json number_token)) :
  Forall (fun v => byteLength (f v) <= 2 * byteLength (g v)) l -> total (map f l) <= 2 * total (map g l).
Proof. induction 1; simpl; lia. Qed.

Definition no_exponents (v : json number_token) : Prop :=
  Forall (fun t => token_ok t /\ exponentPart t = None) (json_numbers v).
Lemma object_half l :
  Forall (fun m => byteLength (jsonbText m.2) <= 2 * byteLength (jsonText m.2)) l ->
  byteLength (jsonbText (JObj l)) <= 2 * byteLength (jsonText (JObj l)).
Proof.
  intros Hl. cbn [jsonText jsonbText]. unfold brace. rewrite !byteLength_enclosed by done.
  rewrite byteLength_spacedJoin, byteLength_join, !length_map.
  set (texts := map (fun m : ustring * json number_token => (m.1, jsonbText m.2)) l).
  set (weight := fun e : ustring * ustring => byteLength (quote e.1) + 2 + byteLength e.2).
  assert (Hw : forall e, 0 <= weight e).
  { intros e. unfold weight. pose proof (quote_bytes e.1). pose proof (byteLength_nonneg e.2). lia. }
  destruct (last_members_weigh weight texts Hw [] (NoDup_nil_2)) as [H1 H2]. fold (lastMembers texts) in H1, H2.
  assert (Ht : forall m, total (map (fun m => quote m.1 ++ 58%N :: 32%N :: m.2) m) = weigh weight m).
  { induction m as [|e m IH]; [done|]. cbn [map weigh foldr]. change (total (?x :: ?l)) with (byteLength x + total l).
    rewrite IH, byteLength_app, !byteLength_ascii by done. unfold weight at 2. fold (weigh weight m). lia. }
  assert (Hall : weigh weight texts <= 2 * total (map (fun m => member_text (m.1, jsonText m.2)) l)).
  { subst texts. clear -Hl. induction Hl as [|m l Hm _ IH]; [done|]. cbn [map weigh foldr].
    change (total (?x :: ?l)) with (byteLength x + total l).
    assert (Hm' : byteLength (member_text (m.1, jsonText m.2)) = byteLength (quote m.1) + 1 + byteLength (jsonText m.2)).
    { unfold member_text. cbn [fst snd]. rewrite byteLength_app, byteLength_ascii by done. lia. }
    rewrite Hm'. unfold weight at 1. cbn [fst snd]. pose proof (quote_bytes m.1). unfold weigh in IH. lia. }
  rewrite Ht. unfold texts in H2. rewrite length_map in H2. simpl in H1, H2.
  fold texts in H2. unfold separators. destruct (length (lastMembers texts)), l; simpl in *; lia.
Qed.
Lemma jsonb_half v : no_exponents v -> byteLength (jsonbText v) <= 2 * byteLength (jsonText v).
Proof.
  induction v as [|b|t|s|l IH|l IH] using json_induction; intros Hv.
  - done.
  - by destruct b.
  - cbn [jsonText jsonbText]. apply Forall_inv in Hv as [Hok He].
    rewrite (byteLength_all_ascii _ (numeric_out_ascii t Hok)), token_bytes, <- numeric_bytes by done.
    unfold numericTextBytes. rewrite exponent_letter_iff, He by done. cbn [negb]. case_match; lia.
  - cbn [jsonText jsonbText]. pose proof (quote_bytes s). lia.
  - cbn [jsonText jsonbText]. unfold bracket. rewrite !byteLength_enclosed by done.
    rewrite byteLength_spacedJoin, byteLength_join, !length_map.
    assert (Hl : Forall (fun v => byteLength (jsonbText v) <= 2 * byteLength (jsonText v)) l).
    { unfold no_exponents in Hv. cbn [json_numbers] in Hv. clear -IH Hv.
      induction IH as [|x l Hx _ IH]; [constructor|]. simpl in Hv. apply Forall_app in Hv as [??]. constructor; auto. }
    apply texts_total_le in Hl. unfold separators. destruct l; simpl in *; lia.
  - apply object_half. unfold no_exponents in Hv. cbn [json_numbers] in Hv. clear -IH Hv.
    induction IH as [|x l Hx _ IH]; [constructor|]. simpl in Hv. apply Forall_app in Hv as [??]. constructor; auto.
Qed.

(** C10: The measure of a value is exact: for every JSON value, with members of
    equal keys too, [jsonbTextBytes] of its text is the UTF-8 length of the
    text that PostgreSQL writes for the jsonb value, with a space after each
    colon and comma, the last member of each key, and plain decimal numbers. *)
Theorem jsonb_measure_exact v :
  Forall token_ok (json_numbers v) -> jsonbTextBytes (jsonText v) = Some (byteLength (jsonbText v)).
Proof. apply jsonbTextBytes_value. Qed.

Lemma serialize_value v maxBytes :
  Forall token_ok (json_numbers v) ->
  serializeJsonWithinLimit v maxBytes =
    Some (if maxBytes <? byteLength (jsonbText v)
          then Throw (TaskValueSizeLimit (byteLength (jsonbText v)) maxBytes) else Ret (jsonText v)).
Proof.
  intros Hok. unfold serializeJsonWithinLimit. rewrite jsonbTextBytes_value by done. simpl.
  destruct ((byteLength (jsonText v) * 2 <=? maxBytes) && negb (exponentNumber (jsonText v))) eqn:E; [|done].
  apply andb_prop in E as [Hle He]. apply negb_true_iff in He.
  assert (Hn : no_exponents v).
  { apply Forall_forall. intros t Ht. rewrite Forall_forall in Hok. split; [by apply Hok|].
    destruct (exponentPart t) eqn:Ex; [|done]. exfalso. rewrite (value_exponent v t Ht) in He; [done|by apply Hok|].
    by rewrite Ex. }
  pose proof (jsonb_half v Hn). by rewrite (proj2 (Z.ltb_ge _ _)) by lia.
Qed.
(** The size check accepts a value exactly when its jsonb text fits the
    limit, and otherwise reports its exact size: the shortcut for short values
    without exponents changes no answer. *)
Theorem size_limit_exact v maxBytes :
  Forall token_ok (json_numbers v) ->
  serializeJsonWithinLimit v maxBytes =
    Some (if maxBytes <? byteLength (jsonbText v)
          then Throw (TaskValueSizeLimit (byteLength (jsonbText v)) maxBytes) else Ret (jsonText v)).
Proof. apply serialize_value. Qed.

(** ** Strings that jsonb refuses *)

(** The four units of a hex escape. *)
Definition hexUnit (l : ustring) : option N :=
  match l with
  | a :: b :: c :: d :: _ =>
      x ← hexValue a; y ← hexValue b; z ← hexValue c; w ← hexValue d; Some (((x * 16 + y) * 16 + z) * 16 + w)%N
  | _ => None
  end.

(** [UNSTORABLE_ESCAPE_START] at the start of a text. *)
Definition unstorableStart (l : ustring) : bool :=
  match l with
  | b :: u :: r =>
      (b =? BACKSLASH)%N && (u =? 117)%N &&
      (bool_decide (take 4 r = [48; 48; 48; 48]%N)
       || match r with d :: _ => ((d =? 100) || (d =? 68))%N | [] => false end)
  | _ => false
  end.
Definition mayHoldUnstorableEscape : ustring -> bool := anywhere unstorableStart.

(** The loop over the matches of [JSON_ESCAPE] in the text from [index] on; [low]
    is [lowExpectedAt]. *)
Fixpoint scanEscapes (fuel index : nat) (rest : ustring) (low : option nat) : bool :=
  match fuel, rest with
  | S fuel, u :: rest' =>
      if (u =? BACKSLASH)%N then
        match rest' with
        | [] => scanEscapes fuel (S index) rest' low
        | e :: after =>
            let unit := if (e =? 117)%N then hexUnit after else None in
            let size := match unit with Some _ => 6%nat | None => 2%nat end in
            let next low := scanEscapes fuel (index + size) (drop (size - 2) after) low in
            match low, unit with
            | Some at_low, Some u => if (index =? at_low)%nat && is_low u then next None else true
            | Some _, None => true
            | None, Some u =>
                if (u =? 0)%N || is_low u then true
                else next (if is_high u then Some (index + size)%nat else None)
            | None, None => next None
            end
        end
      else scanEscapes fuel (S index) rest' low
  | _, _ => match low with Some _ => true | None => false end
  end.
Definition hasUnstorableEscape (serialized : ustring) : bool :=
  if negb (mayHoldUnstorableEscape serialized) then false
  else scanEscapes (length serialized) 0 serialized None.

Definition assertStorableResult (serialized : ustring) : res value_error ustring :=
  if hasUnstorableEscape serialized then Throw UnstorableResult else Ret serialized.

(** The strings and keys of a value, and the strings that jsonb refuses. *)
Fixpoint json_strings (v : json number_token) : list ustring :=
  match v with
  | JStr s => [s]
  | JArr items => flat_map json_strings items
  | JObj members => flat_map (fun m => m.1 :: json_strings m.2) members
  | _ => []
  end.
Definition point_refused (p : point) : bool := match p with Pair _ _ => false | One u => refused u end.
Definition string_refused (s : ustring) : bool := existsb point_refused (points s).

(** *** The scan is exact *)
Lemma hexUnit_hex4 u l : (u < 65536)%N -> hexUnit (hex4 u ++ l) = Some u.
Proof.
  intros Hu. unfold hexUnit, hex4. cbn [app].
  rewrite !hexValue_digit by (solve [apply N.mod_lt; lia | apply N.Div0.div_lt_upper_bound; lia]). simpl. f_equal.
  pose proof (N.Div0.div_mod u 16). pose proof (N.Div0.div_mod (u / 16) 16).
  pose proof (N.Div0.div_mod (u / 256) 16).
  replace (u / 256)%N with (u / 16 / 16)%N in * by (by rewrite N.Div0.div_div).
  replace (u / 4096)%N with (u / 16 / 16 / 16)%N by (by rewrite !N.Div0.div_div). lia.
Qed.

(** The text does not start with the escape of a low surrogate. *)
Definition no_low_escape (l : ustring) : Prop :=
  forall after u, l = BACKSLASH :: 117%N :: after -> hexUnit after = Some u -> is_low u = false.
Lemma late_high fuel : forall index rest at_low,
  (at_low < index)%nat -> scanEscapes fuel index rest (Some at_low) = true.
Proof.
  induction fuel as [|fuel IH]; intros index rest at_low Hlt; [done|]. destruct rest as [|u rest]; [done|].
  cbn [scanEscapes]. destruct (u =? BACKSLASH)%N; [|apply IH; lia].
  destruct rest as [|e after]; [apply IH; lia|].
  destruct (if (e =? 117)%N then hexUnit after else None); [|done].
  by rewrite (proj2 (Nat.eqb_neq index at_low)) by lia.
Qed.
Lemma high_refused fuel index rest :
  no_low_escape rest -> scanEscapes fuel index rest (Some index) = true.
Proof.
  intros Hn. destruct fuel as [|fuel]; [done|]. destruct rest as [|u rest]; [done|]. cbn [scanEscapes].
  destruct (N.eqb_spec u BACKSLASH) as [->|]; [|apply late_high; lia].
  destruct rest as [|e after]; [apply late_high; lia|].
  destruct (N.eqb_spec e 117) as [->|]; [|done]. destruct (hexUnit after) as [x|] eqn:E; [|done].
  by rewrite (Hn after x eq_refl E), andb_false_r.
Qed.

(** The scan of [text] finds a refused unit, or goes on after it. *)
Definition scans (text : ustring) (found : bool) : Prop := forall index rest fuel,
  (length text + length rest <= fuel)%nat ->
  exists fuel' index', (length rest <= fuel')%nat /\
    scanEscapes fuel index (text ++ rest) None =
      if found then true else scanEscapes fuel' index' rest None.
Lemma scans_nil : scans [] false.
Proof. intros index rest fuel Hf. by exists fuel, index. Qed.
Lemma scans_app t1 t2 b1 b2 : scans t1 b1 -> scans t2 b2 -> scans (t1 ++ t2) (b1 || b2).
Proof.
  intros H1 H2 index rest fuel Hf. rewrite length_app in Hf. rewrite <- app_assoc.
  destruct (H1 index (t2 ++ rest) fuel) as (f1 & i1 & Hf1 & ->); [rewrite length_app; lia|].
  destruct b1; simpl; [by exists f1, i1; split; [rewrite length_app in Hf1; lia|]|].
  rewrite length_app in Hf1. apply H2. lia.
Qed.
Lemma scans_plain text : Forall (fun u => u <> BACKSLASH) text -> scans text false.
Proof.
  induction 1 as [|u text Hu _ IH]; [apply scans_nil|]. intros index rest fuel Hf.
  destruct fuel as [|fuel]; [simpl in Hf; lia|]. simpl in Hf.
  destruct (IH (S index) rest fuel) as (f & i & ? & E); [lia|]. exists f, i. split; [done|].
  cbn [app scanEscapes]. by rewrite (proj2 (N.eqb_neq u _) Hu).
Qed.

(** After the escape of a high surrogate no low surrogate follows in the points
    of a text: the two would be a pair. *)
Fixpoint unpaired (ps : list point) : Prop :=
  match ps with
  | One u :: (One v :: _) as rest => is_high u && is_low v = false /\ unpaired rest
  | _ :: rest => unpaired rest
  | [] => True
  end.
Lemma points_head s u rest : points s = One u :: rest -> exists s', s = u :: s' /\ points s' = rest.
Proof.
  destruct s as [|a [|b s]]; [done|intros [= <- <-]; by exists []|]. rewrite points_two.
  case_match; [done|]. intros [= <- <-]. by exists (b :: s).
Qed.
Lemma points_unpaired s : unpaired (points s).
Proof.
  induction s as [s IH] using (induction_ltof1 _ (@length N)). unfold ltof in IH.
  destruct s as [|u [|v s]]; [done|done|]. rewrite points_two. destruct (is_high u && is_low v) eqn:E.
  - apply IH. simpl. lia.
  - assert (IH' := IH (v :: s) ltac:(simpl; lia)). destruct (points (v :: s)) as [|[a b|a] ps] eqn:Ep; [done|done|].
    destruct (points_head _ _ _ Ep) as (s' & [= -> ->] & _). done.
Qed.

Lemma escape_unit_cases u :
  (escape_unit u = [u] /\ u <> BACKSLASH /\ refused u = false) \/
  (exists e, escape_unit u = [BACKSLASH; e] /\ e <> 117%N /\ refused u = false) \/
  (escape_unit u = BACKSLASH :: 117%N :: hex4 u /\ (u < 65536)%N).
Proof.
  unfold escape_unit.
  repeat match goal with |- context [if (u =? ?k)%N then _ else _] =>
    destruct (N.eqb_spec u k) as [->|?]; [right; left; by eexists|] end.
  unfold refused. destruct ((u <? 32)%N || is_surrogate u) eqn:E.
  - right; right. split; [done|]. unfold is_surrogate in E. lia.
  - left. apply orb_false_elim in E as [E1 E2]. rewrite E2. split_and!; [done|done|lia].
Qed.
Lemma no_low_after u ps tl :
  is_high u = true -> Forall point_ok ps -> unpaired (One u :: ps) ->
  no_low_escape (flat_map escape_point ps ++ QUOTE :: tl).
Proof.
  intros Hu Hok Hun after x E Hx. destruct ps as [|p ps]; [done|]. cbn [flat_map] in E. rewrite <- app_assoc in E.
  apply Forall_cons in Hok as [Hp _]. destruct p as [a b|v].
  - injection E as -> _. by destruct Hp.
  - destruct Hun as [Hun _]. rewrite Hu in Hun. simpl in Hun, E.
    destruct (escape_unit_cases v) as [(Ev & Hv & _)|[(e & Ev & He & _)|(Ev & Hv)]]; rewrite Ev in E.
    + injection E as E _. done.
    + injection E as E _. done.
    + assert (Ea : after = hex4 v ++ flat_map escape_point ps ++ QUOTE :: tl) by (by injection E as <-).
      rewrite Ea, hexUnit_hex4 in Hx by done. by simplify_eq.
Qed.

Lemma points_scan ps : Forall point_ok ps -> unpaired ps ->
  forall index tl fuel, (length (flat_map escape_point ps) + S (length tl) <= fuel)%nat ->
  exists fuel' index', (length tl <= fuel')%nat /\
    scanEscapes fuel index (flat_map escape_point ps ++ QUOTE :: tl) None =
      if existsb point_refused ps then true else scanEscapes fuel' index' tl None.
Proof.
  induction 1 as [|p ps Hp Hps IH]; intros Hun index tl fuel Hf.
  - destruct fuel as [|fuel]; [simpl in Hf; lia|]. exists fuel, (S index). split; [simpl in Hf; lia|done].
  - cbn [flat_map existsb] in *. rewrite length_app in Hf. rewrite <- app_assoc.
    assert (Hun' : unpaired ps) by (destruct p, ps as [|[]]; simpl in Hun; tauto).
    destruct p as [a b|u]; simpl point_refused; simpl orb.
    + simpl in Hf. destruct fuel as [|[|fuel]]; [lia|lia|].
      destruct (IH Hun' (S (S index)) tl fuel) as (f & i & ? & E); [lia|]. exists f, i. split; [done|]. rewrite <- E.
      destruct Hp as [Ha Hb]. unfold is_high, is_low in Ha, Hb. simpl app. cbn [scanEscapes]. unfold BACKSLASH.
      by rewrite (proj2 (N.eqb_neq a 92)), (proj2 (N.eqb_neq b 92)) by lia.
    + simpl escape_point in *. destruct fuel as [|fuel]; [lia|].
      destruct (escape_unit_cases u) as [(Eu & Hu & Hr)|[(e & Eu & He & Hr)|(Eu & Hu)]]; rewrite Eu in *.
      * rewrite Hr. cbn [orb]. simpl in Hf. destruct (IH Hun' (S index) tl fuel) as (f & i & ? & E); [lia|].
        exists f, i. split; [done|]. rewrite <- E. cbn [app scanEscapes]. by rewrite (proj2 (N.eqb_neq u _) Hu).
      * rewrite Hr. cbn [orb]. simpl in Hf. destruct (IH Hun' (index + 2)%nat tl fuel) as (f & i & ? & E); [lia|].
        exists f, i. split; [done|]. rewrite <- E. cbn [app scanEscapes].
        by rewrite N.eqb_refl, (proj2 (N.eqb_neq e 117) He).
      * assert (Hl : length (hex4 u) = 4%nat) by done. cbn [length] in Hf. rewrite Hl in Hf.
        set (rest := flat_map escape_point ps ++ QUOTE :: tl).
        assert (Hstep : scanEscapes (S fuel) index (BACKSLASH :: 117%N :: hex4 u ++ rest) None =
          if (u =? 0)%N || is_low u then true
          else scanEscapes fuel (index + 6) rest (if is_high u then Some (index + 6)%nat else None)).
        { cbn [scanEscapes]. rewrite !N.eqb_refl, hexUnit_hex4 by done. done. }
        cbn [app]. rewrite Hstep.
        destruct (IH Hun' (index + 6)%nat tl fuel) as (f & i & ? & E); [lia|]. exists f, i. split; [done|].
        unfold refused, is_surrogate. destruct (u =? 0)%N; [done|]. simpl.
        destruct (is_low u) eqn:El; unfold is_low in El.
        { replace ((55296 <=? u) && (u <=? 57343))%N with true by lia. done. }
        destruct (is_high u) eqn:Eh; unfold is_high in Eh.
        { replace ((55296 <=? u) && (u <=? 57343))%N with true by lia. simpl.
          apply high_refused. eapply no_low_after; [|done|done]. done. }
        replace ((55296 <=? u) && (u <=? 57343))%N with false by lia. exact E.
Qed.
Lemma quote_scans s : scans (quote s) (string_refused s).
Proof.
  intros index rest fuel Hf. unfold quote in *. cbn [app] in *. rewrite <- app_assoc. simpl in Hf.
  rewrite length_app in Hf. simpl in Hf. destruct fuel as [|fuel]; [lia|].
  destruct (points_scan (points s) (points_ok s) (points_unpaired s) (S index) rest fuel) as (f & i & ? & E);
    [unfold quote_body in Hf; lia|].
  exists f, i. split; [done|]. exact E.
Qed.

Lemma token_scans t : token_ok t -> scans (token_text t) false.
Proof.
  intros Hok. apply scans_plain. eapply Forall_impl; [by apply token_characters|].
  intros u Hu ->. done.
Qed.
Lemma join_scans (l : list (ustring * bool)) :
  Forall (fun e => scans e.1 e.2) l -> scans (join (map fst l)) (existsb snd l).
Proof.
  induction 1 as [|x l Hx Hl IH]; [apply scans_nil|]. destruct l as [|y l].
  - simpl. by rewrite orb_false_r.
  - change (join (map fst (x :: y :: l))) with (x.1 ++ [44%N] ++ join (map fst (y :: l))).
    cbn [existsb]. apply scans_app; [done|]. apply (scans_app [44%N] _ false); [|done]. by apply scans_plain; constructor.
Qed.
Definition found (l : list ustring) : bool := existsb string_refused l.
Lemma enclosed_scans a b text f :
  a <> BACKSLASH -> b <> BACKSLASH -> scans text f -> scans (a :: text ++ [b]) f.
Proof.
  intros Ha Hb Ht. change (a :: text ++ [b]) with ([a] ++ text ++ [b]).
  replace f with (false || (f || false)) by by rewrite orb_false_r.
  apply scans_app; [|apply scans_app; [done|]]; by apply scans_plain; constructor.
Qed.
Lemma value_scans v : Forall token_ok (json_numbers v) -> scans (jsonText v) (found (json_strings v)).
Proof.
  induction v as [|b|t|s|l IH|l IH] using json_induction; intros Hok.
  - apply scans_plain. by repeat constructor.
  - apply scans_plain. destruct b; by repeat constructor.
  - apply token_scans. by inversion Hok.
  - unfold found. simpl. rewrite orb_false_r. apply quote_scans.
  - change (jsonText (JArr l)) with (91%N :: join (map jsonText l) ++ [93%N]).
    apply enclosed_scans; [done..|]. cbn [json_strings json_numbers] in *. unfold found in *.
    rewrite existsb_flat_map. set (g := fun v => (jsonText v, existsb string_refused (json_strings v))).
    replace (map jsonText l) with (map fst (map g l)) by by rewrite map_map.
    replace (existsb (fun v => existsb string_refused (json_strings v)) l) with (existsb snd (map g l)).
    2: { clear. induction l; simpl; congruence. }
    apply join_scans. clear -IH Hok. induction IH as [|x l Hx _ IH]; [constructor|].
    simpl in Hok. apply Forall_app in Hok as [??]. constructor; [by apply Hx|auto].
  - change (jsonText (JObj l)) with (123%N :: join (map (fun m => member_text (m.1, jsonText m.2)) l) ++ [125%N]).
    apply enclosed_scans; [done..|]. cbn [json_strings json_numbers] in *. unfold found in *.
    rewrite existsb_flat_map.
    set (g := fun m : ustring * json number_token => (member_text (m.1, jsonText m.2),
                existsb string_refused (m.1 :: json_strings m.2))).
    replace (map (fun m => member_text (m.1, jsonText m.2)) l) with (map fst (map g l)) by by rewrite map_map.
    replace (existsb (fun m => existsb string_refused (m.1 :: json_strings m.2)) l) with (existsb snd (map g l)).
    2: { clear. induction l as [|m l IH]; [done|]. cbn [map existsb]. by rewrite IH. }
    apply join_scans. clear -IH Hok. induction IH as [|m l Hm _ IH]; [constructor|].
    simpl in Hok. apply Forall_app in Hok as [??]. constructor; [|auto].
    change (scans (quote m.1 ++ [58%N] ++ jsonText m.2) (string_refused m.1 || existsb string_refused (json_strings m.2))).
    apply scans_app; [apply quote_scans|]. apply (scans_app [58%N] _ false); [by apply scans_plain; constructor|auto].
Qed.

(** A refused unit leaves a match of the first test. *)
Lemma unstorableStart_app l k : unstorableStart l = true -> unstorableStart (l ++ k) = true.
Proof.
  destruct l as [|b [|u r]]; [done..|]. cbn [unstorableStart app]. intros [-> H]%andb_prop. simpl.
  apply orb_prop in H as [H|H].
  - apply bool_decide_eq_true in H. apply orb_true_intro. left. apply bool_decide_eq_true.
    destruct r as [|a [|b' [|c [|d r]]]]; simplify_eq/=. done.
  - destruct r as [|d r]; [done|]. simpl. rewrite H. apply orb_true_r.
Qed.
Lemma refused_escape u : refused u = true -> unstorableStart (escape_unit u) = true.
Proof.
  intros Hr. destruct (escape_unit_cases u) as [(_ & _ & H)|[(e & _ & _ & H)|(-> & Hu)]]; [congruence..|].
  destruct (decide (u = 0%N)) as [E|E]; [by rewrite E|]. unfold refused, is_surrogate in Hr.
  cbn [unstorableStart hex4]. rewrite !N.eqb_refl. simpl. apply orb_true_intro. right.
  replace (u / 4096)%N with 13%N; [done|]. apply (N.div_unique u 4096 13 (u - 53248)); lia.
Qed.
Lemma quote_may_hold s : string_refused s = true -> mayHoldUnstorableEscape (quote s) = true.
Proof.
  unfold string_refused. intros (p & Hin & Hp)%existsb_exists. destruct p as [|u]; [done|]. simpl in Hp.
  apply in_split in Hin as (l1 & l2 & E). unfold quote, quote_body. rewrite E, flat_map_app. cbn [flat_map].
  replace (QUOTE :: (flat_map escape_point l1 ++ escape_point (One u) ++ flat_map escape_point l2) ++ [QUOTE])
    with ((QUOTE :: flat_map escape_point l1) ++ escape_unit u ++ flat_map escape_point l2 ++ [QUOTE])
    by by rewrite <- !app_assoc.
  apply anywhere_infix; [apply unstorableStart_app|].
  apply refused_escape in Hp. destruct (escape_unit u); cbn [anywhere]; by rewrite Hp.
Qed.
Lemma part_string v s : s ∈ json_strings v -> part (quote s) (jsonText v).
Proof.
  induction v as [|b|t'|s'|l IH|l IH] using json_induction; cbn [json_strings]; try by intros ?%elem_of_nil.
  - intros ->%list_elem_of_singleton. exists [], []. by rewrite app_nil_r.
  - intros (x & Hx & Hin)%list_elem_of_In%in_flat_map. apply list_elem_of_In in Hx, Hin.
    rewrite Forall_forall in IH. eapply part_trans; [by apply (IH x)|by apply part_item].
  - intros (m & Hm & Hin)%list_elem_of_In%in_flat_map. apply list_elem_of_In in Hm.
    rewrite Forall_forall in IH. destruct Hin as [<-|Hin]; [by apply part_member|]. apply list_elem_of_In in Hin.
    eapply part_trans; [by apply (IH m)|by apply part_member].
Qed.
Lemma value_may_hold v : found (json_strings v) = true -> mayHoldUnstorableEscape (jsonText v) = true.
Proof.
  intros (s & Hin & Hs)%existsb_exists. apply list_elem_of_In, part_string in Hin as (a & b & ->).
  apply anywhere_infix; [apply unstorableStart_app|by apply quote_may_hold].
Qed.

Lemma storable_value v :
  Forall token_ok (json_numbers v) ->
  assertStorableResult (jsonText v) =
    if found (json_strings v) then Throw UnstorableResult else Ret (jsonText v).
Proof.
  intros Hok. unfold assertStorableResult, hasUnstorableEscape.
  destruct (value_scans v Hok 0%nat [] (length (jsonText v))) as (fuel & index & _ & E); [simpl; lia|].
  rewrite app_nil_r in E. destruct (found (json_strings v)) eqn:Hf.
  - by rewrite (value_may_hold v Hf), E.
  - rewrite E. destruct fuel; by destruct (mayHoldUnstorableEscape (jsonText v)).
Qed.
(** The check of a result is exact: a result is refused exactly when one of
    its strings or keys holds a NUL or a surrogate without its other half, which
    jsonb cannot store. The first, cheap test hides no refused string, and an
    escaped backslash before a [u] refuses nothing. *)
Theorem unstorable_result_exact v :
  Forall token_ok (json_numbers v) ->
  assertStorableResult (jsonText v) =
    if found (json_strings v) then Throw UnstorableResult else Ret (jsonText v).
Proof. apply storable_value. Qed.

(** *** A concrete value *)
Definition sample_token : number_token :=
  {| negative := true; integerDigits := [49%N]; fractionDigits := Some [53; 48]%N;
     exponentPart := Some (false, Some true, [50%N]) |}.
Definition sample_value : json number_token :=
  JObj [(units "a", JArr [JNum sample_token; JNull]); (units "b", JStr [92; 117; 233; 0xD83D; 0xDE00; 10]%N);
        (units "a", JStr [0xD83D]%N)].
Lemma sample_numbers : Forall token_ok (json_numbers sample_value).
Proof.
  constructor; [|constructor]. unfold token_ok, all_digits. simpl.
  repeat split; try done; try (by repeat constructor); by right.
Qed.
Lemma jsonb_measure_exact_witness : jsonbTextBytes (jsonText sample_value) = Some (byteLength (jsonbText sample_value)).
Proof. exact (jsonb_measure_exact sample_value sample_numbers). Defined.
Lemma size_limit_exact_witness :
  serializeJsonWithinLimit sample_value 10 =
    Some (if 10 <? byteLength (jsonbText sample_value)
          then Throw (TaskValueSizeLimit (byteLength (jsonbText sample_value)) 10) else Ret (jsonText sample_value)).
Proof. exact (size_limit_exact sample_value 10 sample_numbers). Defined.
Lemma unstorable_result_exact_witness :
  assertStorableResult (jsonText sample_value) =
    if found (json_strings sample_value) then Throw UnstorableResult else Ret (jsonText sample_value).
Proof. exact (unstorable_result_exact sample_value sample_numbers). Defined.
