(* ===== verification/Notifications.v ===== *)
(** * The notification hub

    [TaskNotificationHub] of [typescript/core/src/notifications.ts], with
    [connectUntilAbort], [listenUntilAbort] and [unlistenWithin]: the one
    listening connection that the workers of a pool share, as a state machine.

    The answers of the pool and of PostgreSQL, the events of the client and the
    resumptions of [raceAbort] are events of the machine, in any order.  A
    promise that lost its race stays pending: a connection that arrives late is
    an event of its own.  The end of [run] has two parts, since the [finally] of
    [start] clears the hub some microtasks before the calls that wait for the
    run resume.  [wake] and [release] do not throw.

    [owed] is a ghost: the subscribers with a notification that PostgreSQL sent
    and that no wake followed yet. *)

From S2P Require Import Prelude Dispatch.
From Stdlib Require Import Lqa.

Definition CHANNEL : string := "workhorse_tasks".
Definition RECONNECT_INITIAL_MS : Z := 100.
Definition RECONNECT_MAX_MS : Z := 5000.

Record DatabaseNotification : Set := { channel : string; payload : string }.

(** A call that awaits [this.running]. *)
Inductive waiter : Set := WaitClose (subscriberId : nat) | WaitSubscribe (queueName : string).

(** Where [run] is. *)
Inductive hub_phase : Set :=
| Connecting | SettingUp (client : nat) | Attached (client : nat) | Unlistening (client : nat)
| Sleeping | Returned.

(** A client that went back to the pool: with an error, which destroys it, and
    whether its session was listening then. *)
Record Release : Set := { r_client : nat; r_error : bool; r_listening : bool }.

Record Hub : Type := {
  subscribers : jsmap nat string;
  nextSubscriberId : nat;
  controller : option bool;              (* whether its signal aborted *)
  running : option hub_phase;
  listening : bool;
  reconnectMs : Z;
  closed : list nat;                     (* the subscriptions with [closed] set *)
  waiters : list waiter;                 (* on the present run *)
  resuming : list waiter;                (* on a run that ended *)
  disconnected : bool;                   (* the deferred is resolved *)
  lateConnects : nat;
  nextClient : nat;
  released : list Release;
  serverListens : bool;
  inflight : list DatabaseNotification;
  owed : list nat;
  wakes : list nat;
  reports : list nat;
}.
#[export] Instance eta_hub : Eta Hub := fun s => {|
  subscribers := subscribers s; nextSubscriberId := nextSubscriberId s; controller := controller s;
  running := running s; listening := listening s; reconnectMs := reconnectMs s; closed := closed s;
  waiters := waiters s; resuming := resuming s; disconnected := disconnected s;
  lateConnects := lateConnects s; nextClient := nextClient s; released := released s;
  serverListens := serverListens s; inflight := inflight s; owed := owed s; wakes := wakes s;
  reports := reports s |}.

Definition newHub : Hub := {|
  subscribers := []; nextSubscriberId := 0; controller := None; running := None; listening := false;
  reconnectMs := RECONNECT_INITIAL_MS; closed := []; waiters := []; resuming := []; disconnected := false;
  lateConnects := 0; nextClient := 0; released := []; serverListens := false; inflight := []; owed := [];
  wakes := []; reports := [] |}.

Definition aborted (s : Hub) : bool := default false (controller s).

(** ** Wakes and reports *)
Definition wakeIds (ids : list nat) (s : Hub) : Hub :=
  s <| wakes ::= fun w => w ++ ids |> <| owed ::= filter (fun i => i ∉ ids) |>.
Definition wakes_queue (n : DatabaseNotification) (queueName : string) : bool :=
  bool_decide (channel n = CHANNEL) && (bool_decide (payload n = queueName) || bool_decide (payload n = "*"%string)).
Definition matching (n : DatabaseNotification) (s : Hub) : list nat :=
  (filter (fun e : nat * string => wakes_queue n e.2 = true) (subscribers s)).*1.
Definition wakeMatching (n : DatabaseNotification) (s : Hub) : Hub := wakeIds (matching n s) s.
Definition wakeAll (s : Hub) : Hub := wakeIds (subscribers s).*1 s.
Definition report (s : Hub) : Hub := s <| reports ::= fun r => r ++ (subscribers s).*1 |>.

(** ** Subscriptions *)
Definition startRun (s : Hub) : Hub :=
  s <| controller := Some false |> <| running := Some Connecting |> <| reconnectMs := RECONNECT_INITIAL_MS |>.
Definition register (queueName : string) (s : Hub) : Hub :=
  let s := s <| nextSubscriberId ::= S |> <| subscribers ::= jsset (nextSubscriberId s) queueName |> in
  match running s with None => startRun s | Some _ => s end.
Definition subscribe (queueName : string) (s : Hub) : Hub :=
  match running s with
  | Some _ => if aborted s then s <| waiters ::= fun w => w ++ [WaitSubscribe queueName] |> else register queueName s
  | None => register queueName s
  end.
Definition removeSubscriber (id : nat) (s : Hub) : Hub := s <| subscribers ::= jsdelete id |>.
Definition closeSubscription (id : nat) (s : Hub) : Hub :=
  if bool_decide (id ∈ closed s) then s
  else
    let s := s <| closed ::= cons id |> in
    if (1 <? length (subscribers s))%nat then removeSubscriber id s
    else
      let s := s <| controller ::= option_map (fun _ => true) |> in
      match running s with
      | Some _ => s <| waiters ::= fun w => w ++ [WaitClose id] |>
      | None => removeSubscriber id s
      end.
Definition resumeWaiter (s : Hub) (w : waiter) : Hub :=
  match w with WaitClose id => removeSubscriber id s | WaitSubscribe queueName => register queueName s end.

(** ** The loop *)
(** [client.release], which ends the session of a client that carries an error. *)
Definition releaseListener (client : nat) (error : bool) (s : Hub) : Hub :=
  s <| released ::= cons {| r_client := client; r_error := error; r_listening := serverListens s |} |>
    <| serverListens := false |> <| inflight := [] |>.
(** After the [finally] of an iteration. *)
Definition afterIteration (s : Hub) : Hub :=
  s <| listening := false |> <| running := Some (if aborted s then Returned else Sleeping) |>.

Inductive connect_answer : Set := Connected | ConnectFailed | Incapable.
Definition connectAnswers (answer : connect_answer) (s : Hub) : Hub :=
  match answer with
  | Connected =>
      let client := nextClient s in
      let s := s <| nextClient ::= S |> <| disconnected := false |> in
      if aborted s then (releaseListener client false s) <| listening := false |> <| running := Some Returned |>
      else s <| running := Some (SettingUp client) |>
  | ConnectFailed | Incapable => afterIteration (report s)
  end.
Definition listenAnswers (ok : bool) (client : nat) (s : Hub) : Hub :=
  if ok then
    wakeAll (s <| listening := true |> <| reconnectMs := RECONNECT_INITIAL_MS |> <| running := Some (Attached client) |>)
  else afterIteration (releaseListener client true (report s)).
Definition disconnectResumes (client : nat) (s : Hub) : Hub :=
  afterIteration (releaseListener client true (wakeAll (report s))).
Definition abortResumes (phase : hub_phase) (s : Hub) : Hub :=
  match phase with
  | Connecting => s <| lateConnects ::= S |> <| listening := false |> <| running := Some Returned |>
  | SettingUp client => (releaseListener client true s) <| listening := false |> <| running := Some Returned |>
  | Attached client => s <| listening := false |> <| running := Some (Unlistening client) |>
  | _ => s
  end.
Definition unlistenEnds (ok : bool) (client : nat) (s : Hub) : Hub :=
  afterIteration (releaseListener client (negb ok) (if ok then s else report s)).
Definition sleepEnds (s : Hub) : Hub :=
  s <| reconnectMs ::= fun ms => Z.min RECONNECT_MAX_MS (ms * 2) |>
    <| running := Some (if aborted s then Returned else Connecting) |>.
(** The time of a sleep, with the random number in [0, 1). *)
Definition sleepMs (random : Q) (s : Hub) : Z := jitterDuration random (reconnectMs s).

(** The [finally] of [start]; the run is the present one, since [start] is
    called only without one. *)
Definition finallyRuns (s : Hub) : Hub :=
  s <| running := None |> <| controller := None |> <| resuming ::= fun r => r ++ waiters s |>
    <| waiters := [] |>.
Definition waitersResume (s : Hub) : Hub := foldl resumeWaiter (s <| resuming := [] |>) (resuming s).

(** ** The machine *)
Inductive hub_event : Set :=
| Subscribe (queueName : string) | CloseSubscription (id : nat)
| ConnectAnswers (answer : connect_answer) | LateConnectAnswers (connected : bool)
| ServerListens | ListenAnswers (ok : bool) | ClientFails | DisconnectResumes | AbortResumes
| ServerUnlistens | UnlistenEnds (ok : bool) | SleepEnds | FinallyRuns | WaitersResume
| Emit (n : DatabaseNotification) | Deliver.

(** The client's events: the connection is lost with what it carried. *)
Definition clientFails (s : Hub) : Hub :=
  match running s with
  | Some (SettingUp _ | Attached _) => s <| disconnected := true |> <| serverListens := false |> <| inflight := [] |>
  | Some (Unlistening _) => s <| serverListens := false |> <| inflight := [] |>
  | _ => s
  end.
(** PostgreSQL sends a notification to a session that listens. *)
Definition emit (n : DatabaseNotification) (s : Hub) : Hub :=
  let s := s <| owed ::= fun o => o ++ matching n s |> in
  if serverListens s then s <| inflight ::= fun l => l ++ [n] |> else s.
Definition deliverNotification (s : Hub) : Hub :=
  match inflight s with
  | n :: rest =>
      let s := s <| inflight := rest |> in
      match running s with Some (SettingUp _ | Attached _) => wakeMatching n s | _ => s end
  | [] => s
  end.
Definition hub_step (s : Hub) (e : hub_event) : Hub :=
  match e, running s with
  | Subscribe q, _ => subscribe q s
  | CloseSubscription id, _ => if (id <? nextSubscriberId s)%nat then closeSubscription id s else s
  | ConnectAnswers a, Some Connecting => connectAnswers a s
  | LateConnectAnswers ok, _ =>
      match lateConnects s with
      | S n =>
          let s := s <| lateConnects := n |> in
          if ok then
            s <| nextClient ::= S |>
              <| released ::= cons {| r_client := nextClient s; r_error := false; r_listening := false |} |>
          else s
      | O => s
      end
  | ServerListens, Some (SettingUp _) => if disconnected s then s else s <| serverListens := true |>
  | ListenAnswers ok, Some (SettingUp c) =>
      (* LISTEN is in effect before its answer *)
      if negb ok || serverListens s || disconnected s then listenAnswers ok c s else s
  | ClientFails, _ => clientFails s
  | DisconnectResumes, Some (Attached c) => if disconnected s then disconnectResumes c s else s
  | AbortResumes, Some p => if aborted s then abortResumes p s else s
  | ServerUnlistens, Some (Unlistening _) => s <| serverListens := false |>
  | UnlistenEnds ok, Some (Unlistening c) =>
      (* UNLISTEN is in effect before its answer *)
      if ok && serverListens s then s else unlistenEnds ok c s
  | SleepEnds, Some Sleeping => sleepEnds s
  | FinallyRuns, Some Returned => finallyRuns s
  | WaitersResume, _ => waitersResume s
  | Emit n, _ => emit n s
  | Deliver, _ => deliverNotification s
  | _, _ => s
  end.

(** ** The invariant of the calls *)
Definition ids (s : Hub) : list nat := (subscribers s).*1.
Definition open (s : Hub) (id : nat) : Prop := (id < nextSubscriberId s)%nat /\ id ∉ closed s.
Definition after_abort (p : hub_phase) : bool := match p with Unlistening _ | Returned => true | _ => false end.

(** The waiters of a run are one close, of the last subscriber, and then
    subscriptions. *)
Record calls_ok (s : Hub) : Prop := {
  co_nodup : NoDup (ids s);
  co_known : forall id, id ∈ ids s -> (id < nextSubscriberId s)%nat;
  co_closed_known : forall id, id ∈ closed s -> (id < nextSubscriberId s)%nat;
  co_open : forall id, open s id -> id ∈ ids s;
  co_control : is_Some (controller s) <-> is_Some (running s);
  co_after : forall p, running s = Some p -> after_abort p = true -> aborted s = true;
  co_live : aborted s = false -> waiters s = [];
  co_aborted : aborted s = true ->
    resuming s = [] /\ exists a qs, waiters s = WaitClose a :: map WaitSubscribe qs /\ ids s = [a] /\ a ∈ closed s;
  co_resuming : resuming s = [] \/
    exists a qs, resuming s = WaitClose a :: map WaitSubscribe qs /\ a ∈ ids s /\ a ∈ closed s;
  co_served : (exists id, open s id) -> running s <> None /\ aborted s = false;
}.

Lemma new_calls_ok : calls_ok newHub.
Proof.
  constructor; simpl; try done; try (by constructor); try (by left); try (by intros ? ?%elem_of_nil).
  - intros id [H _]. simpl in H. lia.
  - intros [id [H _]]. simpl in H. lia.
Qed.

(** Events of the loop and of the connection change nothing of the calls but the
    phase. *)
Definition same_calls (s s' : Hub) : Prop :=
  subscribers s' = subscribers s /\ nextSubscriberId s' = nextSubscriberId s /\ controller s' = controller s /\
  closed s' = closed s /\ waiters s' = waiters s /\ resuming s' = resuming s.
Lemma loop_calls_ok s s' :
  calls_ok s -> same_calls s s' -> (is_Some (running s') <-> is_Some (running s)) ->
  (forall p, running s' = Some p -> after_abort p = true -> aborted s = true) -> calls_ok s'.
Proof.
  intros H (E1 & E2 & E3 & E4 & E5 & E6) Hr Hp. destruct H.
  assert (Ea : aborted s' = aborted s) by (unfold aborted; by rewrite E3).
  assert (Eo : forall id, open s' id <-> open s id) by (intros id; unfold open; by rewrite E2, E4).
  assert (Ei : ids s' = ids s) by (unfold ids; by rewrite E1).
  constructor; rewrite ?Ea, ?Ei, ?E2, ?E3, ?E4, ?E5, ?E6; try done.
  - intros id Ho. by apply co_open0, Eo.
  - by rewrite Hr.
  - intros [id Ho]. destruct co_served0 as [Hn Ha]; [exists id; by apply Eo|]. split; [|done].
    intros E. rewrite E in Hr. destruct (running s); [|done]. destruct Hr as [_ [? [=]]]. by eexists.
Qed.

Lemma register_ids q s : calls_ok s -> ids (register q s) = ids s ++ [nextSubscriberId s].
Proof.
  intros H. assert (Hn : jshas (nextSubscriberId s) (subscribers s) = false).
  { unfold jshas. destruct (jsget _ _) eqn:E; [|done]. exfalso.
    apply jsget_in, (list_elem_of_fmap_2 fst) in E. apply (co_known s H) in E. simpl in E. lia. }
  unfold register, ids, startRun. destruct (running s) eqn:E; simpl; rewrite E; simpl; by rewrite jsset_keys, Hn.
Qed.
Lemma register_fields q s :
  nextSubscriberId (register q s) = S (nextSubscriberId s) /\ closed (register q s) = closed s /\
  waiters (register q s) = waiters s /\ resuming (register q s) = resuming s /\
  is_Some (running (register q s)) /\
  (running s = None /\ controller (register q s) = Some false /\ running (register q s) = Some Connecting \/
   running s <> None /\ controller (register q s) = controller s /\ running (register q s) = running s).
Proof. unfold register, startRun. destruct (running s) eqn:E; simpl; rewrite E; simpl; naive_solver. Qed.
Lemma register_not_aborted q s : aborted s = false -> aborted (register q s) = false.
Proof.
  intros Ha. destruct (register_fields q s) as (_ & _ & _ & _ & _ & [(_ & E & _)|(_ & E & _)]);
    unfold aborted in *; by rewrite E.
Qed.
Lemma register_calls_ok q s : calls_ok s -> aborted s = false -> calls_ok (register q s).
Proof.
  intros H Ha. pose proof (register_ids q s H) as Ei. pose proof (register_not_aborted q s Ha) as Ha'.
  destruct (register_fields q s) as (En & Ec & Ew & Er & Hr & Hc). destruct H.
  assert (Eo : forall id, open (register q s) id -> open s id \/ id = nextSubscriberId s).
  { intros id [Ho Hcl]. rewrite En in Ho. rewrite Ec in Hcl. unfold open. destruct (decide (id = nextSubscriberId s)); [auto|left; split; [lia|done]]. }
  constructor; rewrite ?Ei, ?En, ?Ec, ?Ew, ?Er, ?Ha'; try done.
  - apply NoDup_app. split; [done|]. split; [|apply NoDup_singleton].
    intros x Hx%co_known0 ->%list_elem_of_singleton. lia.
  - intros id [Hi%co_known0| ->%list_elem_of_singleton]%elem_of_app; lia.
  - intros id Hi%co_closed_known0. lia.
  - intros id [Ho| ->]%Eo; apply elem_of_app; [left; auto|right; by apply list_elem_of_singleton].
  - destruct Hc as [(_ & -> & _)|(Hn & -> & ->)]; [done|done].
  - intros p Hp Hpa. exfalso. destruct Hc as [(_ & _ & E)|(_ & _ & E)]; rewrite E in Hp; [by simplify_eq|].
    rewrite (co_after0 p) in Ha; done.
  - intros _. by apply co_live0.
  - destruct co_resuming0 as [?|(a & qs & E & Hin & Hcl)]; [by left|right]. exists a, qs.
    split; [done|]. split; [by apply elem_of_app; left|done].
  - intros _. split; [by destruct Hr as [p ->]|done].
Qed.

Lemma remove_ids id s : ids (removeSubscriber id s) = filter (fun i => i <> id) (ids s).
Proof.
  unfold ids, removeSubscriber, jsdelete. simpl. induction (subscribers s) as [|[i q] m IH]; [done|].
  rewrite filter_cons, fmap_cons, filter_cons. simpl. case_decide; [by rewrite fmap_cons, IH|done].
Qed.
Lemma remove_calls_ok id s :
  calls_ok s -> aborted s = false -> id ∈ closed s -> (forall ws, resuming s <> WaitClose id :: ws) ->
  calls_ok (removeSubscriber id s).
Proof.
  intros H Ha Hid Hr. pose proof (remove_ids id s) as Ei. destruct H.
  assert (Eo : forall i, open (removeSubscriber id s) i -> open s i) by done.
  constructor; rewrite ?Ei; try done.
  - by apply NoDup_filter.
  - intros i [_ Hi]%list_elem_of_filter. auto.
  - intros i Ho. apply list_elem_of_filter. split; [|auto]. intros ->. by destruct Ho.
  - intros Hx. change (aborted s = true) in Hx. congruence.
  - destruct co_resuming0 as [?|(a & qs & E & Hin & Hcl)]; [by left|right]. exists a, qs.
    split; [done|]. split; [|done]. apply list_elem_of_filter. split; [|done]. intros ->. by eapply Hr.
Qed.

Lemma subscribe_calls_ok q s : calls_ok s -> calls_ok (subscribe q s).
Proof.
  intros H. unfold subscribe. destruct (aborted s) eqn:Ha.
  - destruct (running s) eqn:Hr; [|exfalso].
    + destruct H. constructor; try done.
      * change (aborted (s <| waiters ::= _ |>)) with (aborted s). by rewrite Ha.
      * intros _. destruct (co_aborted0 Ha) as (? & a & qs & E & ?). split; [done|]. exists a, (qs ++ [q]).
        simpl. rewrite E, map_app. done.
    + destruct (proj1 (co_control s H)) as [? E]; [|congruence]. unfold aborted in Ha. by destruct (controller s).
  - destruct (running s); by apply register_calls_ok.
Qed.
Lemma mark_closed_ok id s :
  calls_ok s -> (id < nextSubscriberId s)%nat -> calls_ok (s <| closed ::= cons id |>).
Proof.
  intros H Hid. destruct H.
  assert (Eo : forall i, open (s <| closed ::= cons id |>) i -> open s i).
  { intros i [? Hi]. simpl in Hi. apply not_elem_of_cons in Hi as [_ Hi]. by split. }
  constructor; try done; simpl.
  - intros i [->|?]%elem_of_cons; auto.
  - intros i Ho. auto.
  - intros Ha. destruct (co_aborted0 Ha) as (? & a & qs & ? & ? & ?). split; [done|]. exists a, qs. split_and!; try done; apply elem_of_cons; by right.
  - destruct co_resuming0 as [?|(a & qs & ? & ? & ?)]; [by left|right]. exists a, qs. split_and!; try done; apply elem_of_cons; by right.
  - intros [i Ho]. apply co_served0. eauto.
Qed.
Lemma close_calls_ok id s :
  calls_ok s -> (id < nextSubscriberId s)%nat -> calls_ok (closeSubscription id s).
Proof.
  intros H Hid. unfold closeSubscription. case_bool_decide as Hcl; [done|].
  assert (Ho : open s id) by done. assert (Hin := co_open s H id Ho).
  destruct (co_served s H) as [Hr Ha]; [by exists id|].
  pose proof (mark_closed_ok id s H Hid) as H1. set (s1 := s <| closed ::= cons id |>) in *.
  assert (Hres : forall ws, resuming s1 <> WaitClose id :: ws).
  { intros ws E. destruct (co_resuming s H) as [E'|(a & qs & E' & _ & Hc)]; simpl in E; rewrite E' in E; by simplify_eq. }
  destruct (Nat.ltb_spec 1 (length (subscribers s1))) as [_|Hlen].
  { apply remove_calls_ok; [done|done| |done]. apply list_elem_of_here. }
  assert (Ei : ids s = [id]).
  { unfold ids in *. simpl in Hlen. destruct (subscribers s) as [|e [|e' m]]; simpl in *; [by apply elem_of_nil in Hin| |lia].
    by apply list_elem_of_singleton in Hin as ->. }
  assert (Hn : resuming s = []).
  { destruct (co_resuming s H) as [?|(a & qs & _ & Ha' & Hc)]; [done|]. rewrite Ei in Ha'.
    by apply list_elem_of_singleton in Ha' as ->. }
  pose proof (co_live s H Ha) as Hw. simpl. destruct (running s) as [p|] eqn:Er; [|done].
  assert (Hcs : is_Some (controller s)) by (apply (co_control s H); by rewrite Er). destruct Hcs as [b Hb].
  assert (Hab : forall s', controller s' = option_map (fun _ => true) (controller s) -> aborted s' = true).
  { intros s' E. unfold aborted. by rewrite E, Hb. }
  destruct H1. constructor; simpl; try done.
  - split; intros _; [by rewrite Er|by rewrite Hb].
  - by rewrite Hab.
  - by rewrite Hab.
  - intros _. rewrite Hw. split; [done|]. exists id, []. split; [done|]. split; [done|apply list_elem_of_here].
  - intros [i Hi]. exfalso. assert (Hi' : i ∈ ids s1) by (by apply co_open0). change (ids s1) with (ids s) in Hi'.
    rewrite Ei in Hi'. apply list_elem_of_singleton in Hi' as ->. destruct Hi as [_ Hi]. apply Hi, list_elem_of_here.
Qed.
Lemma finally_calls_ok s : calls_ok s -> running s = Some Returned -> calls_ok (finallyRuns s).
Proof.
  intros H Hr. assert (Ha := co_after s H Returned Hr eq_refl).
  destruct (co_aborted s H Ha) as (Hn & a & qs & Ew & Ei & Hc). destruct H. constructor; simpl; try done.
  - right. exists a, qs. rewrite Hn, Ew. split; [done|]. change (ids (finallyRuns s)) with (ids s).
    rewrite Ei. split; [apply list_elem_of_here|done].
  - intros [id Ho]. destruct co_served0 as [_ Ha']; [by exists id|congruence].
Qed.
Lemma resume_subscribes_ok qs : forall s, calls_ok s -> aborted s = false ->
  calls_ok (foldl resumeWaiter s (map WaitSubscribe qs)).
Proof.
  induction qs as [|q qs IH]; intros s H Ha; [done|]. simpl.
  apply IH; [by apply register_calls_ok|by apply register_not_aborted].
Qed.
Lemma clear_resuming_ok s : calls_ok s -> calls_ok (s <| resuming := [] |>).
Proof.
  intros H. destruct H. constructor; try done; [|by left]. intros Ha. destruct (co_aborted0 Ha) as [_ ?]. by split.
Qed.
Lemma resume_calls_ok s : calls_ok s -> calls_ok (waitersResume s).
Proof.
  intros H. unfold waitersResume.
  assert (H0 := clear_resuming_ok s H).
  destruct (co_resuming s H) as [->|(a & qs & E & Hin & Hc)]; [done|]. rewrite E. simpl.
  assert (Ha : aborted s = false).
  { destruct (aborted s) eqn:Ha; [|done]. destruct (co_aborted s H Ha) as [Hn _]. congruence. }
  apply resume_subscribes_ok; [|done]. by apply remove_calls_ok.
Qed.

Lemma same_phase_ok s s' : calls_ok s -> same_calls s s' -> running s' = running s -> calls_ok s'.
Proof.
  intros H Hs Hr. apply (loop_calls_ok s); [done..|by rewrite Hr|]. rewrite Hr. apply (co_after s H).
Qed.
Lemma new_phase_ok s s' p p' :
  calls_ok s -> same_calls s s' -> running s = Some p -> running s' = Some p' ->
  (after_abort p' = true -> aborted s = true) -> calls_ok s'.
Proof. intros H Hs Hr Hr' Ha. apply (loop_calls_ok s); [done..| |]; rewrite ?Hr, Hr'; [done|naive_solver]. Qed.
Lemma loop_end_ok (b : bool) : after_abort (if b then Returned else Sleeping) = true -> b = true.
Proof. by destruct b. Qed.
Lemma step_calls_ok s e : calls_ok s -> calls_ok (hub_step s e).
Proof.
  intros H. destruct e as [q|id|a|ok| |ok| | | | |ok| | | |n|]; unfold hub_step.
  - by apply subscribe_calls_ok.
  - case_match eqn:E; [|done]. apply Nat.ltb_lt in E. by apply close_calls_ok.
  - destruct (running s) as [[]|] eqn:Er; try done. unfold connectAnswers. destruct a.
    + change (aborted (s <| nextClient ::= S |> <| disconnected := false |>)) with (aborted s).
      destruct (aborted s) eqn:Ha; eapply new_phase_ok; done.
    + eapply new_phase_ok; [done|done|done|done|apply loop_end_ok].
    + eapply new_phase_ok; [done|done|done|done|apply loop_end_ok].
  - destruct (lateConnects s); [done|]. destruct ok; by eapply same_phase_ok.
  - destruct (running s) as [[]|] eqn:Er; try done. destruct (disconnected s); [done|by eapply same_phase_ok].
  - destruct (running s) as [[]|] eqn:Er; try done. case_match; [|done]. unfold listenAnswers. destruct ok.
    + eapply new_phase_ok; done.
    + eapply new_phase_ok; [done|done|done|done|apply loop_end_ok].
  - unfold clientFails. destruct (running s) as [[]|] eqn:Er; try done; by eapply same_phase_ok.
  - destruct (running s) as [[]|] eqn:Er; try done. destruct (disconnected s); [|done].
    eapply new_phase_ok; [done|done|done|done|apply loop_end_ok].
  - destruct (running s) as [p|] eqn:Er; [|done]. destruct (aborted s) eqn:Ha; [|done]. unfold abortResumes.
    destruct p; try done; eapply new_phase_ok; done.
  - destruct (running s) as [[]|] eqn:Er; try done. by eapply same_phase_ok.
  - destruct (running s) as [[]|] eqn:Er; try done. case_match; [done|]. unfold unlistenEnds.
    assert (Ha := co_after s H _ Er eq_refl). destruct ok; eapply new_phase_ok; done.
  - destruct (running s) as [[]|] eqn:Er; try done. unfold sleepEnds. destruct (aborted s) eqn:Ha; eapply new_phase_ok; done.
  - destruct (running s) as [[]|] eqn:Er; try done. by apply finally_calls_ok.
  - by apply resume_calls_ok.
  - unfold emit. simpl. destruct (serverListens s); by eapply same_phase_ok.
  - unfold deliverNotification. destruct (inflight s) as [|m rest]; [done|]. simpl. destruct (running s) as [[]|] eqn:Er; by eapply same_phase_ok.
Qed.
Lemma run_calls_ok evs : calls_ok (run hub_step newHub evs).
Proof. apply (run_invariant hub_step calls_ok); [intros s e; apply step_calls_ok|apply new_calls_ok]. Qed.

(** C26: Every open subscription is served: whatever the order of calls, aborts
    and answers, a subscription that is not closed is registered, and the hub
    has a run that was not aborted and has not returned. *)
Theorem open_subscription_is_served evs id :
  let s := run hub_step newHub evs in
  open s id -> id ∈ ids s /\ exists p, running s = Some p /\ aborted s = false /\ after_abort p = false.
Proof.
  intros s Ho. assert (H := run_calls_ok evs). fold s in H. split; [by apply co_open|].
  destruct (co_served s H) as [Hr Ha]; [by exists id|]. destruct (running s) as [p|] eqn:E; [|done].
  exists p. split_and!; [done..|]. destruct (after_abort p) eqn:Ep; [|done].
  rewrite (co_after s H p E Ep) in Ha. done.
Qed.

(** ** The clients *)
Definition held (s : Hub) : list nat :=
  match running s with Some (SettingUp c | Attached c | Unlistening c) => [c] | _ => [] end.
Lemma held_after s : held (afterIteration s) = [].
Proof. unfold afterIteration, held. simpl. by destruct (aborted s). Qed.
Record clients_ok (s : Hub) : Prop := {
  cl_owned : held s ++ map r_client (released s) ≡ₚ seq 0 (nextClient s);
  cl_clean : forall r, r ∈ released s -> r_error r = false -> r_listening r = false;
  cl_session : serverListens s = true -> held s <> [];
}.
Lemma kept_clients_ok s s' :
  clients_ok s -> nextClient s' = nextClient s -> released s' = released s -> held s' = held s ->
  (serverListens s' = true -> held s <> []) -> clients_ok s'.
Proof. intros [H1 H2 H3] E1 E2 E3 Hs. constructor; rewrite ?E1, ?E2, ?E3; auto. Qed.
Lemma released_clients_ok s s' c err :
  clients_ok s -> held s = [c] -> held s' = [] -> nextClient s' = nextClient s -> serverListens s' = false ->
  released s' = {| r_client := c; r_error := err; r_listening := serverListens s |} :: released s ->
  (err = false -> serverListens s = false) -> clients_ok s'.
Proof.
  intros [H1 H2 H3] Eh Eh' En Es Er Hc. constructor; rewrite ?Eh', ?En, ?Er, ?Es.
  - simpl. rewrite Eh in H1. done.
  - intros r [->|Hr]%elem_of_cons; auto.
  - done.
Qed.
Lemma fresh_clients_ok s s' :
  clients_ok s -> held s' = held s -> nextClient s' = S (nextClient s) -> serverListens s' = serverListens s ->
  released s' = {| r_client := nextClient s; r_error := false; r_listening := false |} :: released s -> clients_ok s'.
Proof.
  intros [H1 H2 H3] Eh En Es Er. constructor; rewrite ?Eh, ?En, ?Er, ?Es.
  - rewrite seq_S, <- H1. simpl. rewrite <- Permutation_middle. apply Permutation_cons_append.
  - intros r [->|Hr]%elem_of_cons; auto.
  - done.
Qed.
Lemma register_held q s : held (register q s) = held s /\ nextClient (register q s) = nextClient s /\
  released (register q s) = released s /\ serverListens (register q s) = serverListens s.
Proof. unfold register, held, startRun. destruct (running s) eqn:E; simpl; rewrite E; simpl; rewrite ?E; done. Qed.
Lemma register_clients_ok q s : clients_ok s -> clients_ok (register q s).
Proof.
  intros H. destruct (register_held q s) as (E1 & E2 & E3 & E4). eapply kept_clients_ok; [done..|].
  rewrite E4. apply (cl_session s H).
Qed.
Lemma close_held id s : held (closeSubscription id s) = held s /\ nextClient (closeSubscription id s) = nextClient s /\
  released (closeSubscription id s) = released s /\ serverListens (closeSubscription id s) = serverListens s.
Proof. unfold closeSubscription, held. repeat (case_match; simplify_eq/=); done. Qed.
Lemma resume_clients_ok s : clients_ok s -> clients_ok (waitersResume s).
Proof.
  intros H. unfold waitersResume. assert (H0 : clients_ok (s <| resuming := [] |>)) by (by destruct H).
  revert H0. generalize (s <| resuming := [] |>). induction (resuming s) as [|w ws IH]; intros s0 H0; [done|].
  simpl. apply IH. destruct w; [by destruct H0|by apply register_clients_ok].
Qed.
Lemma step_clients_ok s e : clients_ok s -> clients_ok (hub_step s e).
Proof.
  intros H. assert (Hs := cl_session s H).
  destruct e as [q|id|a|ok| |ok| | | | |ok| | | |n|]; unfold hub_step.
  - unfold subscribe. repeat case_match; try by apply register_clients_ok. by destruct H.
  - case_match; [|done]. destruct (close_held id s) as (E1 & E2 & E3 & E4). eapply kept_clients_ok; [done..|]. by rewrite E4.
  - destruct (running s) as [[]|] eqn:Er; try done. unfold held in Hs. rewrite Er in Hs.
    destruct (serverListens s) eqn:El; [by destruct Hs|].
    unfold connectAnswers. destruct a;
      [|eapply kept_clients_ok; [done|done|done| |]; [rewrite held_after; unfold held; by rewrite Er|simpl; by rewrite El]..].
    simpl. case_match.
    + apply (fresh_clients_ok s); unfold held; rewrite ?Er; simpl; rewrite ?El; done.
    + destruct H as [H1 H2 H3]. constructor; [|done|done]. unfold held in H1. rewrite Er in H1.
      change (nextClient s :: map r_client (released s) ≡ₚ seq 0 (S (nextClient s))). simpl app in H1.
      rewrite seq_S, <- H1. apply Permutation_cons_append.
  - destruct (lateConnects s); [done|]. destruct ok; [|by eapply kept_clients_ok]. by apply (fresh_clients_ok s).
  - destruct (running s) as [[]|] eqn:Er; try done. case_match; [done|]. eapply kept_clients_ok; try done. unfold held. by rewrite Er.
  - destruct (running s) as [[]|] eqn:Er; try done. case_match; [|done]. unfold listenAnswers. destruct ok.
    + eapply kept_clients_ok; try done. unfold held. by rewrite Er.
    + eapply (released_clients_ok s _ client true); try done; [unfold held; by rewrite Er|apply held_after].
  - unfold clientFails. destruct (running s) as [[]|] eqn:Er; try done; by eapply kept_clients_ok.
  - destruct (running s) as [[]|] eqn:Er; try done. case_match; [|done].
    eapply (released_clients_ok s _ client true); try done; [unfold held; by rewrite Er|apply held_after].
  - destruct (running s) as [p|] eqn:Er; [|done]. case_match; [|done]. unfold abortResumes. destruct p; try done.
    + eapply kept_clients_ok; unfold held; rewrite ?Er; try done. unfold held in Hs. by rewrite Er in Hs.
    + eapply (released_clients_ok s _ client true); unfold held; rewrite ?Er; done.
    + eapply kept_clients_ok; unfold held; rewrite ?Er; done.
  - destruct (running s) as [[]|] eqn:Er; try done. by eapply kept_clients_ok.
  - destruct (running s) as [[]|] eqn:Er; try done. case_match eqn:Eg; [done|].
    eapply (released_clients_ok s _ client (negb ok)); try done;
      [unfold held; by rewrite Er|apply held_after|by destruct ok..].
  - destruct (running s) as [[]|] eqn:Er; try done. eapply kept_clients_ok; unfold held; rewrite ?Er; try done.
    + unfold sleepEnds. simpl. by destruct (aborted s).
    + unfold held in Hs. by rewrite Er in Hs.
  - destruct (running s) as [[]|] eqn:Er; try done. eapply kept_clients_ok; unfold held; rewrite ?Er; try done.
    unfold held in Hs. by rewrite Er in Hs.
  - by apply resume_clients_ok.
  - unfold emit. simpl. case_match; by destruct H.
  - unfold deliverNotification. destruct (inflight s); [done|]. simpl. destruct (running s) as [[]|]; by destruct H.
Qed.

(** Each client that the pool connects for the hub is held by the loop or
    went back to the pool exactly once, a client that arrives after the abort
    included; and a client that goes back for reuse does not listen any more,
    since each other client is released with an error, which destroys it. *)
Theorem hub_clients_returned_clean evs :
  let s := run hub_step newHub evs in
  held s ++ map r_client (released s) ≡ₚ seq 0 (nextClient s) /\
  forall r, r ∈ released s -> r_error r = false -> r_listening r = false.
Proof.
  intros s. assert (H : clients_ok s).
  { apply (run_invariant hub_step clients_ok); [intros ??; apply step_clients_ok|].
    constructor; simpl; [done|by intros ? ?%elem_of_nil|done]. }
  by destruct H.
Qed.

(** ** The wakes *)
Record wakes_ok (s : Hub) : Prop := {
  wk_known : forall id, id ∈ owed s -> (id < nextSubscriberId s)%nat;
  wk_flag : listening s = true <-> exists c, running s = Some (Attached c);
  wk_session : forall c, running s = Some (Attached c) -> disconnected s = false -> serverListens s = true;
  wk_live : forall c, running s = Some (Attached c) -> disconnected s = false ->
    forall id q, (id, q) ∈ subscribers s -> id ∈ owed s -> exists n, n ∈ inflight s /\ wakes_queue n q = true;
  wk_backoff : RECONNECT_INITIAL_MS <= reconnectMs s <= RECONNECT_MAX_MS;
}.
Lemma new_wakes_ok : wakes_ok newHub.
Proof. constructor; simpl; [by intros ? ?%elem_of_nil|split; [done|by intros [? [=]]]|done|done|done]. Qed.
Lemma detached_wakes_ok s s' :
  wakes_ok s -> (forall id, id ∈ owed s' -> id ∈ owed s) -> nextSubscriberId s' = nextSubscriberId s ->
  listening s' = false -> (forall c, running s' <> Some (Attached c)) ->
  RECONNECT_INITIAL_MS <= reconnectMs s' <= RECONNECT_MAX_MS -> wakes_ok s'.
Proof.
  intros H Ho En El Hr Hb. constructor.
  - intros id Hi. rewrite En. by apply (wk_known s H), Ho.
  - rewrite El. split; [done|]. intros [c E]. by destruct (Hr c).
  - intros c E. by destruct (Hr c).
  - intros c E. by destruct (Hr c).
  - done.
Qed.
(** Changes that leave the loop and what is owed as they are. *)
Lemma kept_wakes_ok s s' :
  wakes_ok s -> owed s' = owed s -> (nextSubscriberId s <= nextSubscriberId s')%nat -> listening s' = listening s ->
  running s' = running s -> disconnected s' = disconnected s -> serverListens s' = serverListens s ->
  inflight s' = inflight s -> reconnectMs s' = reconnectMs s ->
  (forall id q, (id, q) ∈ subscribers s' -> (id, q) ∈ subscribers s \/ (nextSubscriberId s <= id)%nat) -> wakes_ok s'.
Proof.
  intros [H1 H2 H3 H4 H5] Eo En El Er Ed Es Ei Eb Hsub. constructor; rewrite ?Eo, ?El, ?Er, ?Ed, ?Es, ?Ei, ?Eb; try done.
  - intros id Hi%H1. lia.
  - intros c Hc Hd id q [Hin|Hge]%Hsub Ho; [by eapply H4|]. apply H1 in Ho. lia.
Qed.
Lemma jsset_elem (m : jsmap nat string) k v id q : (id, q) ∈ jsset k v m -> (id, q) ∈ m \/ id = k.
Proof.
  unfold jsset. destruct (jshas k m).
  - intros ([id' q'] & E & Hin)%list_elem_of_fmap. case_decide; simplify_eq/=; [by right|by left].
  - intros [?|E%list_elem_of_singleton]%elem_of_app; [by left|simplify_eq; by right].
Qed.
Lemma register_wakes_ok q s : wakes_ok s -> wakes_ok (register q s).
Proof.
  intros H. unfold register, startRun. simpl.
  assert (Hsub : forall id q', (id, q') ∈ jsset (nextSubscriberId s) q (subscribers s) ->
      (id, q') ∈ subscribers s \/ (nextSubscriberId s <= id)%nat).
  { intros id q' [?| ->]%jsset_elem; [by left|by right]. }
  destruct (running s) eqn:Er.
  - eapply kept_wakes_ok; simpl; try done. lia.
  - destruct H as [H1 H2 H3 H4 H5]. constructor; simpl; try done.
    + intros id Hi%H1. lia.
    + rewrite H2, Er. split; by intros [? [=]].
Qed.
Lemma jsdelete_elem (m : jsmap nat string) k e : e ∈ jsdelete k m -> e ∈ m.
Proof. by intros [_ ?]%list_elem_of_filter. Qed.
Lemma close_wakes_ok id s : wakes_ok s -> wakes_ok (closeSubscription id s).
Proof.
  intros H. unfold closeSubscription, removeSubscriber.
  repeat (case_match; try done); (eapply kept_wakes_ok; simpl; try done); try by left.
  all: intros i q ?%jsdelete_elem; by left.
Qed.
Lemma resume_wakes_ok s : wakes_ok s -> wakes_ok (waitersResume s).
Proof.
  intros H. unfold waitersResume. assert (H0 : wakes_ok (s <| resuming := [] |>)) by (by destruct H).
  revert H0. generalize (s <| resuming := [] |>). induction (resuming s) as [|w ws IH]; intros s0 H0; [done|].
  simpl. apply IH. destruct w; [|by apply register_wakes_ok]. eapply kept_wakes_ok; simpl; try done.
  intros i q ?%jsdelete_elem; by left.
Qed.

Lemma matching_elem n s id q : NoDup (ids s) -> (id, q) ∈ subscribers s -> (id ∈ matching n s <-> wakes_queue n q = true).
Proof.
  intros Hn Hin. unfold matching. rewrite list_elem_of_fmap. split.
  - intros ([id' q'] & E & [Hw Hin']%list_elem_of_filter). simpl in *. subst id'.
    apply (jsget_NoDup _ _ _ Hn) in Hin, Hin'. by simplify_eq.
  - intros Hw. exists (id, q). split; [done|]. by apply list_elem_of_filter.
Qed.
Lemma wakeAll_owes_none s id q : (id, q) ∈ subscribers s -> id ∉ owed (wakeAll s).
Proof.
  intros Hin. simpl. intros [Hn _]%list_elem_of_filter. apply Hn. by apply (list_elem_of_fmap_2 fst _ (id, q)).
Qed.
Lemma emit_wakes_ok n s : calls_ok s -> wakes_ok s -> wakes_ok (emit n s).
Proof.
  intros Hc [H1 H2 H3 H4 H5].
  assert (Hk : forall id, id ∈ owed s ++ matching n s -> (id < nextSubscriberId s)%nat).
  { intros id [Hi|Hi]%elem_of_app; [auto|]. unfold matching in Hi. apply (co_known s Hc).
    apply list_elem_of_fmap in Hi as (e & -> & [_ He]%list_elem_of_filter). by apply (list_elem_of_fmap_2 fst). }
  unfold emit. simpl. destruct (serverListens s) eqn:El; constructor; simpl; try done.
  - intros c Hr Hd id q Hin [Ho|Ho]%elem_of_app.
    + destruct (H4 c Hr Hd id q Hin Ho) as (m & Hm & Hw). exists m. split; [apply elem_of_app; by left|done].
    + exists n. split; [apply elem_of_app; right; by apply list_elem_of_singleton|].
      by apply (matching_elem n s id q (co_nodup s Hc) Hin).
  - intros c Hr Hd. by pose proof (H3 c Hr Hd).
  - intros c Hr Hd. by pose proof (H3 c Hr Hd).
Qed.
Lemma deliver_wakes_ok s : calls_ok s -> wakes_ok s -> wakes_ok (deliverNotification s).
Proof.
  intros Hc H. unfold deliverNotification. destruct (inflight s) as [|n rest] eqn:Ei; [done|]. simpl.
  assert (Hd : forall s', (forall id, id ∈ owed s' -> id ∈ owed s) -> nextSubscriberId s' = nextSubscriberId s ->
     listening s' = listening s -> running s' = running s -> (forall c, running s <> Some (Attached c)) ->
     reconnectMs s' = reconnectMs s -> wakes_ok s').
  { intros s' Ho En El Er Hn Eb. apply (detached_wakes_ok s); try done; [|by rewrite Er|rewrite Eb; apply H].
    rewrite El. destruct (listening s) eqn:E; [|done]. apply (wk_flag s H) in E as [c E]. by destruct (Hn c). }
  destruct (running s) as [[]|] eqn:Er; try (by apply Hd).
  - apply Hd; try done. simpl. by intros id [_ ?]%list_elem_of_filter.
  - destruct H as [H1 H2 H3 H4 H5]. constructor; simpl; try done.
    + intros id [_ Hi]%list_elem_of_filter. auto.
    + intros c Hr Hdis id q Hin [Hn Ho]%list_elem_of_filter.
      destruct (H4 c Hr Hdis id q Hin Ho) as (m & Hm & Hw). exists m. split; [|done]. rewrite Ei in Hm.
      apply elem_of_cons in Hm as [->|?]; [|done]. destruct Hn.
      by apply (matching_elem n s id q (co_nodup s Hc) Hin).
Qed.
Lemma after_not_attached s c : running (afterIteration s) <> Some (Attached c).
Proof. unfold afterIteration. simpl. by destruct (aborted s). Qed.
Lemma step_wakes_ok s e : calls_ok s -> wakes_ok s -> wakes_ok (hub_step s e).
Proof.
  intros Hc H. assert (Hb := wk_backoff s H).
  destruct e as [q|id|a|ok| |ok| | | | |ok| | | |n|]; unfold hub_step.
  - unfold subscribe. repeat case_match; try by apply register_wakes_ok. by destruct H.
  - case_match; [|done]. by apply close_wakes_ok.
  - destruct (running s) as [[]|] eqn:Er; try done. assert (El : listening s = false).
    { destruct (listening s) eqn:E; [|done]. apply (wk_flag s H) in E as [? ?]. congruence. }
    unfold connectAnswers. destruct a; [|eapply (detached_wakes_ok s); [done|done|done|done|apply after_not_attached|done]..].
    simpl. destruct (aborted _); by eapply (detached_wakes_ok s).
  - destruct (lateConnects s); [done|]. destruct ok; by destruct H.
  - destruct (running s) as [[]|] eqn:Er; try done. case_match; [done|].
    destruct H as [H1 H2 H3 H4 H5]; constructor; simpl; try done.
  - destruct (running s) as [[]|] eqn:Er; try done. case_match eqn:Eg; [|done]. unfold listenAnswers. destruct ok.
    + destruct H as [H1 H2 H3 H4 H5]. constructor; try done.
      * intros id [_ Hi]%list_elem_of_filter. auto.
      * simpl. split; [by eexists|done].
      * intros c _ Hd. simpl in *. rewrite Hd, orb_false_r in Eg. done.
      * intros c _ _ id q Hin Ho. exfalso. revert Ho. by apply (wakeAll_owes_none _ id q).
    + eapply (detached_wakes_ok s); try done. apply after_not_attached.
  - unfold clientFails. destruct (running s) as [[]|] eqn:Er; try done; destruct H as [H1 H2 H3 H4 H5]; constructor; simpl; try done; congruence.
  - destruct (running s) as [[]|] eqn:Er; try done. case_match; [|done]. eapply (detached_wakes_ok s); try done.
    + simpl. by intros id [_ ?]%list_elem_of_filter.
    + apply after_not_attached.
  - destruct (running s) as [p|] eqn:Er; [|done]. case_match; [|done]. unfold abortResumes. destruct p; try done; by eapply (detached_wakes_ok s).
  - destruct (running s) as [[]|] eqn:Er; try done. destruct H as [H1 H2 H3 H4 H5]; constructor; simpl; try done; congruence.
  - destruct (running s) as [[]|] eqn:Er; try done. case_match; [done|]. eapply (detached_wakes_ok s); try (by destruct ok).
    apply after_not_attached.
  - destruct (running s) as [[]|] eqn:Er; try done. eapply (detached_wakes_ok s); try done.
    + simpl. destruct (listening s) eqn:E; [|done]. apply (wk_flag s H) in E as [? ?]. congruence.
    + intros c. simpl. by destruct (aborted s).
    + change (reconnectMs (sleepEnds s)) with (Z.min RECONNECT_MAX_MS (reconnectMs s * 2)).
      unfold RECONNECT_INITIAL_MS, RECONNECT_MAX_MS in *. lia.
  - destruct (running s) as [[]|] eqn:Er; try done. eapply (detached_wakes_ok s); try done.
    simpl. destruct (listening s) eqn:E; [|done]. apply (wk_flag s H) in E as [? ?]. congruence.
  - by apply resume_wakes_ok.
  - by apply emit_wakes_ok.
  - by apply deliver_wakes_ok.
Qed.
Lemma run_wakes_ok evs : calls_ok (run hub_step newHub evs) /\ wakes_ok (run hub_step newHub evs).
Proof.
  apply (run_invariant hub_step (fun s => calls_ok s /\ wakes_ok s)).
  - intros s e [Hc H]. split; [by apply step_calls_ok|by apply step_wakes_ok].
  - split; [apply new_calls_ok|apply new_wakes_ok].
Qed.


(** The delay before a new connection is between 90 and 5500 ms. *)
Lemma jitter_range random d :
  (0 <= random < 1)%Q -> 1 <= d -> (9 * d + 5) / 10 <= jitterDuration random d /\ 10 * jitterDuration random d <= 11 * d + 9.
Proof.
  intros Hr Hd. pose proof (jitter_bounds random d Hr Hd) as [_ Hu]. split; [|lia].
  unfold jitterDuration. set (x := (_ + (1 # 2))%Q). set (z := (9 * d + 5) / 10).
  assert (Hz : 10 * z <= 9 * d + 5) by (apply Z.mul_div_le; lia).
  assert (Hd' : (1 <= inject_Z d)%Q) by (change 1%Q with (inject_Z 1); by rewrite <- Zle_Qle).
  assert (Hx : (inject_Z z <= x)%Q).
  { rewrite Zle_Qle, inject_Z_plus, !inject_Z_mult in Hz.
    change (inject_Z 10) with 10%Q in Hz. change (inject_Z 9) with 9%Q in Hz. change (inject_Z 5) with 5%Q in Hz.
    unfold x. assert (0 <= random * inject_Z d)%Q by nra. lra. }
  apply Qfloor_resp_le in Hx. rewrite Qfloor_Z in Hx. lia.
Qed.
(** The hub neither spins nor sleeps long between connections: each sleep is
    between 90 and 5500 ms. *)
Theorem reconnect_delay_bounded evs random :
  (0 <= random < 1)%Q -> 90 <= sleepMs random (run hub_step newHub evs) <= 5500.
Proof.
  intros Hr. destruct (run_wakes_ok evs) as [_ H]. pose proof (wk_backoff _ H) as Hb.
  unfold sleepMs, RECONNECT_INITIAL_MS, RECONNECT_MAX_MS in *.
  destruct (jitter_range random (reconnectMs (run hub_step newHub evs)) Hr) as [H1 H2]; [lia|].
  assert (90 <= (9 * reconnectMs (run hub_step newHub evs) + 5) / 10) by (apply Z.div_le_lower_bound; lia). lia.
Qed.

(** ** Closing ends the run *)
(** The abort itself, the timer of the UNLISTEN, and the end of a sleep. *)
Definition wind_down : list hub_event := [AbortResumes; UnlistenEnds false; SleepEnds].
Lemma winds_down s :
  calls_ok s -> aborted s = true ->
  same_calls s (run hub_step s wind_down) /\ running (run hub_step s wind_down) = Some Returned.
Proof.
  intros H Ha. assert (Hr : is_Some (running s)).
  { apply (co_control s H). unfold aborted in Ha. by destruct (controller s). }
  destruct Hr as [p Hr]. clear H. destruct s as [? ? control phase]. simpl in *. subst phase.
  unfold aborted in Ha. simpl in Ha. destruct control as [[]|]; [|done..]. by destruct p.
Qed.
Lemma resumed_subscriptions qs : forall s,
  calls_ok s -> aborted s = false -> resuming s = [] -> waiters s = [] ->
  let s' := foldl resumeWaiter s (map WaitSubscribe qs) in
  waiters s' = [] /\ resuming s' = [] /\ ids s' = ids s ++ seq (nextSubscriberId s) (length qs) /\
  (running s' = None <-> running s = None /\ qs = []).
Proof.
  induction qs as [|q qs IH]; intros s H Ha Hr Hw; [rewrite app_nil_r; naive_solver|]. simpl.
  destruct (register_fields q s) as (En & _ & Ew & Er & [p Ep] & _).
  destruct (IH (register q s)) as (H1 & H2 & H3 & H4);
    [by apply register_calls_ok|by apply register_not_aborted|by rewrite Er|by rewrite Ew|].
  split_and!; [done..| |rewrite H4, Ep; naive_solver]. by rewrite H3, En, (register_ids q s H), <- app_assoc.
Qed.

(** C27: Closing the last subscription ends whatever PostgreSQL does: from every
    state after the abort, with no answer of the pool or the database, the
    abort, the timer of the UNLISTEN and the end of a sleep end the run; then
    the closed subscriber is gone, and each subscription that waited for the
    end is registered, in the order of the calls, under a new run. *)
Theorem last_close_never_hangs evs :
  let s := run hub_step newHub evs in
  aborted s = true ->
  exists a qs, waiters s = WaitClose a :: map WaitSubscribe qs /\
    let s' := run hub_step s (wind_down ++ [FinallyRuns; WaitersResume]) in
    waiters s' = [] /\ resuming s' = [] /\ ids s' = seq (nextSubscriberId s) (length qs) /\
    (running s' = None <-> qs = []).
Proof.
  intros s Ha. assert (H := run_calls_ok evs). fold s in H.
  destruct (co_aborted s H Ha) as (Hn & a & qs & Ew & Ei & Hc). exists a, qs. split; [done|].
  rewrite run_app. destruct (winds_down s H Ha) as [Hs Hr]. set (s1 := run hub_step s wind_down) in *.
  assert (H1 : calls_ok s1) by (apply (run_invariant hub_step calls_ok); [intros ??; apply step_calls_ok|done]).
  destruct Hs as (E1 & E2 & _ & E4 & E5 & E6). cbn [run foldl]. unfold run. cbn [foldl].
  assert (H2 := finally_calls_ok s1 H1 Hr). assert (H3 := resume_calls_ok _ H2).
  change (hub_step s1 FinallyRuns) with (match running s1 with Some Returned => finallyRuns s1 | _ => s1 end).
  rewrite Hr. change (hub_step (finallyRuns s1) WaitersResume) with (waitersResume (finallyRuns s1)).
  assert (E : waitersResume (finallyRuns s1) =
    foldl resumeWaiter (removeSubscriber a ((finallyRuns s1) <| resuming := [] |>)) (map WaitSubscribe qs)).
  { unfold waitersResume. replace (resuming (finallyRuns s1)) with (WaitClose a :: map WaitSubscribe qs); [reflexivity|].
    simpl. by rewrite E5, E6, Hn, Ew. }
  assert (Ei1 : ids (removeSubscriber a ((finallyRuns s1) <| resuming := [] |>)) = []).
  { rewrite remove_ids. change (ids ((finallyRuns s1) <| resuming := [] |>)) with (ids s1). unfold ids. rewrite E1.
    fold (ids s). rewrite Ei. rewrite filter_cons_False; [done|]. intros Hx. by apply Hx. }
  destruct (resumed_subscriptions qs (removeSubscriber a ((finallyRuns s1) <| resuming := [] |>))) as (R1 & R2 & R3 & R4); [|done..|].
  { apply remove_calls_ok; [|done| |done].
    - by apply clear_resuming_ok.
    - simpl. by rewrite E4. }
  rewrite E, Ei1 in *. simpl in R3. rewrite E2 in R3. split_and!; [done..|].
  rewrite R4. naive_solver.
Qed.

(** ** A concrete hub *)
Definition sample_hub_events : list hub_event :=
  [Subscribe "q"; ConnectAnswers ConnectFailed; SleepEnds; ConnectAnswers Connected; ServerListens; ListenAnswers true;
   Emit {| channel := CHANNEL; payload := "q" |}].
Definition sample_close_events : list hub_event := sample_hub_events ++ [CloseSubscription 0; Subscribe "r"].
Lemma sample_open : open (run hub_step newHub sample_hub_events) 0.
Proof. split; vm_compute; [lia|apply not_elem_of_nil]. Qed.
Lemma open_subscription_is_served_witness :
  let s := run hub_step newHub sample_hub_events in
  0%nat ∈ ids s /\ exists p, running s = Some p /\ aborted s = false /\ after_abort p = false.
Proof. exact (open_subscription_is_served sample_hub_events 0 sample_open). Defined.
Lemma sample_listening : listening (run hub_step newHub sample_hub_events) = true.
Proof. by vm_compute. Qed.
Lemma sample_connected : disconnected (run hub_step newHub sample_hub_events) = false.
Proof. by vm_compute. Qed.
Lemma sample_subscribed : (0%nat, "q"%string) ∈ subscribers (run hub_step newHub sample_hub_events).
Proof. vm_compute. apply list_elem_of_here. Qed.
Lemma sample_owed : 0%nat ∈ owed (run hub_step newHub sample_hub_events).
Proof. vm_compute. apply list_elem_of_here. Qed.
Lemma sample_random : (0 <= 1 # 2 < 1)%Q.
Proof. split; vm_compute; congruence. Qed.
Lemma reconnect_delay_bounded_witness : 90 <= sleepMs (1 # 2) (run hub_step newHub sample_hub_events) <= 5500.
Proof. exact (reconnect_delay_bounded sample_hub_events (1 # 2) sample_random). Defined.
Lemma sample_aborted : aborted (run hub_step newHub sample_close_events) = true.
Proof. by vm_compute. Qed.
Lemma last_close_never_hangs_witness :
  exists a qs, waiters (run hub_step newHub sample_close_events) = WaitClose a :: map WaitSubscribe qs /\
    let s' := run hub_step (run hub_step newHub sample_close_events) (wind_down ++ [FinallyRuns; WaitersResume]) in
    waiters s' = [] /\ resuming s' = [] /\
    ids s' = seq (nextSubscriberId (run hub_step newHub sample_close_events)) (length qs) /\
    (running s' = None <-> qs = []).
Proof. exact (last_close_never_hangs sample_close_events sample_aborted). Defined.
