(* ===== verification/Enqueue.v ===== *)
(** * Enqueue requests, task contracts and results

    [typescript/core/src/queue/enqueue-contracts.ts]: the checks of the enqueue
    options, the acceptance of a payload under a task contract with the cache
    of contract definitions, the submission of a batch with its one retry after
    a contract mismatch, the errors that PostgreSQL's SQLSTATE selects, and the
    check of a handler's result.  The measure of a value is in [JsonbText].

    Parameters: the answers of PostgreSQL to the n-th statement, the order in
    which answers to statements of one [Promise.all] arrive, and the validator
    that Ajv compiles from a schema.  [concurrencyKey], [budget], [retryPolicy],
    the dependency policies and the trace context go to PostgreSQL unread and
    are left out, and so are telemetry and the text around the payload. *)

From stdpp Require Import sorting.
From S2P Require Import Prelude Canonical JsonbText.

Definition MAX_TASK_VALUE_MAX_BYTES : Z := 16777216.
Definition DEFAULT_TASK_VALUE_MAX_BYTES : Z := 1048576.
Definition MAX_ENQUEUE_BATCH_SIZE : nat := 1000.
Definition MAX_TASK_DEPENDENCIES : nat := 100.
Definition MAX_TASK_PRIORITY : Z := 100.
Definition MAX_TASK_CONTRACT_SENSITIVE_KEYS : nat := 50.
Definition DEFAULT_MAX_ATTEMPTS : Z := 25.
Definition MAX_TASK_ATTEMPTS : Z := 100.
Definition DEFAULT_IDEMPOTENCY_SCOPE : string := "default".
Definition DEFAULT_IDEMPOTENCY_TTL_MS : Z := 86400000.

(** ** The options of a request *)

(** A value that JavaScript callers may pass as null. *)
Inductive nullable (A : Type) : Type := JsNull | JsValue (a : A).
Arguments JsNull {A}.
Arguments JsValue {A} a.

(** A coalescing option: its key, its scope, and its window. *)
Record Coalescing : Type := { c_key : string; c_scope : option string; c_ms : option num }.

(** A date is its time, or invalid. *)
Abbreviation date := (option Z).
Record EnqueueOptions : Type := {
  o_queue : option string;
  idempotency : option (nullable Coalescing);
  debounce : option (nullable Coalescing);
  throttle : option (nullable Coalescing);
  runAt : option date;
  deadline : option date;
  prerequisiteTaskId : option ustring;
  dependencies : option (list ustring);
  priority : option num;
  maxAttempts : option num;
  executionTimeoutMs : option num;
  o_tags : option (list string);
}.
Record EnqueueRequest : Type := {
  r_type : ustring;
  r_payload : json number_token;
  r_options : option EnqueueOptions;
  r_tags : option (list string);
}.
Definition emptyOptions : EnqueueOptions := {|
  o_queue := None; idempotency := None; debounce := None; throttle := None; runAt := None; deadline := None;
  prerequisiteTaskId := None; dependencies := None; priority := None; maxAttempts := None;
  executionTimeoutMs := None; o_tags := None |}.
Definition options_of (r : EnqueueRequest) : EnqueueOptions := default emptyOptions (r_options r).

Inductive option_refusal : Set :=
| CombinedModes | DebouncedRunAt | CoalescedDependencies | BothDependencies | DependencyCount
| DuplicateDependencies | NullMode | InvalidDate | BadPriority | BadMaxAttempts | BatchTooLarge | CallbackCoalesces.

Definition defined {A} (o : option A) : bool := match o with Some _ => true | None => false end.

Definition is_zero (n : num) : bool := negb (num_lt_Z n 0) && negb (num_gt_Z n 0) && isFinite n.
Definition executionTimeoutValue (value : option num) : option num :=
  match value with Some n => if is_zero n then None else Some n | None => None end.
Definition maxAttemptsValue (value : option num) : res option_refusal num :=
  match value with
  | None => Ret (DEFAULT_MAX_ATTEMPTS : num)
  | Some n =>
      if is_zero n then Ret (DEFAULT_MAX_ATTEMPTS : num)
      else throw_if (negb (isSafeInteger n) || num_lt_Z n 1 || num_gt_Z n MAX_TASK_ATTEMPTS) BadMaxAttempts ;;; Ret n
  end.
Definition validateTaskPriority (value : option num) : res option_refusal num :=
  match value with
  | None => Ret (0 : num)
  | Some n => throw_if (negb (isSafeInteger n) || num_lt_Z n 0 || num_gt_Z n MAX_TASK_PRIORITY) BadPriority ;;; Ret n
  end.
Definition coalescingKey (mode : option (nullable Coalescing)) : res option_refusal (option string) :=
  match mode with
  | None => Ret None
  | Some JsNull => Throw NullMode
  | Some (JsValue m) => Ret (Some (c_key m))
  end.
Definition toISOString (d : date) : res option_refusal Z :=
  match d with Some t => Ret t | None => Throw InvalidDate end.
Definition modes (o : EnqueueOptions) : list (option (nullable Coalescing)) := [idempotency o; debounce o; throttle o].

Definition validateEnqueueOptions (o : EnqueueOptions) : res option_refusal unit :=
  throw_if (1 <? length (filter (fun m => defined m = true) (modes o)))%nat CombinedModes ;;;
  throw_if (defined (debounce o) && defined (runAt o)) DebouncedRunAt ;;;
  throw_if ((defined (debounce o) || defined (throttle o)) &&
            (defined (prerequisiteTaskId o) || defined (dependencies o))) CoalescedDependencies ;;;
  throw_if (defined (prerequisiteTaskId o) && defined (dependencies o)) BothDependencies ;;;
  match dependencies o with
  | None => Ret tt
  | Some ids =>
      throw_if ((length ids =? 0)%nat || (MAX_TASK_DEPENDENCIES <? length ids)%nat) DependencyCount ;;;
      throw_if (negb (length (remove_dups ids) =? length ids)%nat) DuplicateDependencies
  end ;;;
  res_iter (fun m => coalescingKey m ;;; Ret tt) (modes o) ;;;
  match runAt o with Some d => toISOString d ;;; Ret tt | None => Ret tt end ;;;
  match deadline o with Some d => toISOString d ;;; Ret tt | None => Ret tt end ;;;
  validateTaskPriority (priority o) ;;;
  maxAttemptsValue (maxAttempts o) ;;;
  Ret tt.
Definition validateEnqueueRequests (requests : list EnqueueRequest) : res option_refusal unit :=
  res_iter (fun r => validateEnqueueOptions (options_of r)) requests.
Definition validateEnqueueBatch (requests : list EnqueueRequest) : res option_refusal unit :=
  throw_if (MAX_ENQUEUE_BATCH_SIZE <? length requests)%nat BatchTooLarge ;;;
  validateEnqueueRequests requests.
Definition validateCallbackRequest (request : EnqueueRequest) : res option_refusal unit :=
  let o := options_of request in
  throw_if (defined (idempotency o) || defined (debounce o) || defined (throttle o)) CallbackCoalesces ;;;
  validateEnqueueOptions o.

(** ** Contracts *)
Section contracts.
Context {Schema : Type} (validator : Schema -> json number_token -> bool).

Record TaskContractVersion : Type := {
  payloadSchema : option Schema;
  resultSchema : option Schema;
  maxPayloadBytes : option Z;
  maxResultBytes : option Z;
  sensitivePayloadKeys : option (list string);
  sensitiveResultKeys : option (list string);
}.
Record CachedContractDefinition : Type := { cd_version : string; cd_contract : TaskContractVersion }.
Record TypeContracts : Type := { currentVersion : string; versions : jsmap string TaskContractVersion }.
Record QueueOptions : Type := {
  contracts : jsmap ustring TypeContracts;
  defaultMaxPayloadBytes : option Z;
  defaultMaxResultBytes : option Z;
  defaultQueue : string;
}.
Context (options : QueueOptions).

Inductive value_kind : Set := PayloadValue | ResultValue.
(** An error of PostgreSQL: its SQLSTATE and the DETAIL texts that parse as JSON. *)
Record DatabaseError : Type := { db_code : option string; db_details : list (json num) }.
Inductive enqueue_error : Type :=
| OptionError (e : option_refusal)
| TaskContractValidation (taskType : ustring) (version : string) (kind : value_kind)
| ValueError (e : value_error)
| MeasureFailed
| TaskContractUnavailable (taskType : ustring) (version : string)
| Database (e : DatabaseError)
| EnqueueIdempotencyConflict (details : option (json num))
| DependencyCycle (details : option (json num))
| DependencyLimitExceeded (details : option (json num))
| FastTierUnsupportedQueue
| InvalidMismatchDetails | PolicyChangedAgain | IncompleteResult | InvalidReason.

(** The measure cannot fail on a text that [JSON.stringify] wrote. *)
Definition serializeJson (value : json number_token) (maxBytes : Z) : res enqueue_error ustring :=
  match serializeJsonWithinLimit value maxBytes with
  | Some (Ret text) => Ret text
  | Some (Throw e) => Throw (ValueError e)
  | None => Throw MeasureFailed
  end.
Definition validateContractValue (taskType : ustring) (version : string) (kind : value_kind) (value : json number_token)
    (contract : TaskContractVersion) (maxBytes : Z) : res enqueue_error ustring :=
  match (match kind with PayloadValue => payloadSchema contract | ResultValue => resultSchema contract end) with
  | Some schema => throw_if (negb (validator schema value)) (TaskContractValidation taskType version kind)
  | None => Ret tt
  end ;;; serializeJson value maxBytes.

Record TaskAcceptance : Type := {
  contractVersion : option string;
  payloadMaxBytes : Z;
  resultMaxBytes : Z;
  acc_payloadKeys : list string;
  acc_resultKeys : list string;
}.

(** [CachedContractDefinition | null | undefined] *)
Inductive database_contract : Type := Undefined | NoContract | Current (d : CachedContractDefinition).
Definition localContract (taskType : ustring) (version : option string) : option TaskContractVersion :=
  v ← version; c ← jsget taskType (contracts options); jsget v (versions c).
Definition selectedVersion (taskType : ustring) (dc : database_contract) : option string :=
  match dc with
  | Current d => Some (cd_version d)
  | NoContract => None
  | Undefined => currentVersion <$> jsget taskType (contracts options)
  end.
Definition selectedContract (taskType : ustring) (dc : database_contract) : option TaskContractVersion :=
  match dc with Current d => Some (cd_contract d) | _ => localContract taskType (selectedVersion taskType dc) end.
Definition payloadLimit (contract : option TaskContractVersion) : Z :=
  default (default DEFAULT_TASK_VALUE_MAX_BYTES (defaultMaxPayloadBytes options)) (contract ≫= maxPayloadBytes).
Definition resultLimit (contract : option TaskContractVersion) : Z :=
  default (default DEFAULT_TASK_VALUE_MAX_BYTES (defaultMaxResultBytes options)) (contract ≫= maxResultBytes).
Definition serializedTaskAcceptanceUnder (taskType : ustring) (payload : json number_token) (dc : database_contract)
    : res enqueue_error (TaskAcceptance * ustring) :=
  let version := selectedVersion taskType dc in
  let contract := selectedContract taskType dc in
  text <- match contract with
          | Some c => validateContractValue taskType (default ""%string version) PayloadValue payload c (payloadLimit contract)
          | None => serializeJson payload (payloadLimit contract)
          end ;;
  Ret ({| contractVersion := version; payloadMaxBytes := payloadLimit contract; resultMaxBytes := resultLimit contract;
          acc_payloadKeys := default [] (contract ≫= sensitivePayloadKeys);
          acc_resultKeys := default [] (contract ≫= sensitiveResultKeys) |}, text).

(** ** Requests as PostgreSQL reads them *)
Record SerializedRequest : Type := {
  sr_queue : string;
  sr_type : ustring;
  sr_payload : ustring;
  sr_acceptance : TaskAcceptance;
  sr_priority : num;
  sr_runAt : option Z;
  sr_deadline : option Z;
  sr_executionTimeoutMs : option num;
  sr_maxAttempts : num;
  sr_prerequisiteTaskId : option ustring;
  sr_dependencies : option (list ustring);
  sr_tags : list string;
  sr_idempotency : option Coalescing;
  sr_debounce : option Coalescing;
  sr_throttle : option Coalescing;
}.
Inductive EnqueueOutcome : Set := Accepted | Replayed | Replaced | NonReplaceable | Coalesced | ContractMismatch.
#[export] Instance outcome_eq : EqDecision EnqueueOutcome.
Proof. solve_decision. Defined.
(** A row; [row_json] is [JSON.parse(reason ?? "null")], or None when that throws. *)
Record EnqueueRow : Type := {
  row_taskId : option string;
  row_outcome : EnqueueOutcome;
  row_reason : option string;
  row_json : option (json num);
}.
Inductive enqueue_statement : Type :=
| LoadContract (taskType : ustring) (version : option string) | Submit (batch : list SerializedRequest) | SyncDefinitions.
Record EnqueueState : Type := {
  currentDatabaseContracts : jsmap ustring CachedContractDefinition;
  retainedDatabaseContracts : jsmap ustring (jsmap string CachedContractDefinition);
  sent : list enqueue_statement;
}.
#[local] Instance eta_enqueue : Eta EnqueueState := fun s => {|
  currentDatabaseContracts := currentDatabaseContracts s; retainedDatabaseContracts := retainedDatabaseContracts s;
  sent := sent s |}.

(** PostgreSQL's answer to the n-th statement, and the order of the answers. *)
Context (load : nat -> ustring -> option string -> res DatabaseError (option CachedContractDefinition)).
Context (submit : nat -> list SerializedRequest -> res DatabaseError (list EnqueueRow)).
Context (arrival : nat -> list nat -> list nat) (now : Z).
Local Abbreviation action := (stx EnqueueState enqueue_error).

Definition withScope (ttl : option num -> option num) (mode : option (nullable Coalescing)) : option Coalescing :=
  match mode with
  | Some (JsValue m) =>
      Some {| c_key := c_key m; c_scope := Some (default DEFAULT_IDEMPOTENCY_SCOPE (c_scope m)); c_ms := ttl (c_ms m) |}
  | _ => None
  end.
Definition idempotencyTtl (ttlMs : option num) : option num :=
  match ttlMs with
  | Some n => if is_zero n then Some (DEFAULT_IDEMPOTENCY_TTL_MS : num) else Some n
  | None => Some (DEFAULT_IDEMPOTENCY_TTL_MS : num)
  end.
Definition sortIds (ids : list ustring) : list ustring := (sort_members (map (fun i => (i, tt)) ids)).*1.
Definition coalesces (o : EnqueueOptions) : bool := defined (idempotency o) || defined (debounce o) || defined (throttle o).
(** The object that [serializeEnqueueRequest] returns. *)
Definition serializedRequest (r : EnqueueRequest) (accepted : TaskAcceptance * ustring) : res option_refusal SerializedRequest :=
  let o := options_of r in
  p <- validateTaskPriority (priority o) ;;
  at_ <- match runAt o with
         | Some d => t <- toISOString d ;; Ret (Some t)
         | None => Ret (if coalesces o then None else Some now)
         end ;;
  due <- match deadline o with Some d => t <- toISOString d ;; Ret (Some t) | None => Ret None end ;;
  attempts <- maxAttemptsValue (maxAttempts o) ;;
  Ret {| sr_queue := default (defaultQueue options) (o_queue o); sr_type := r_type r; sr_payload := accepted.2;
         sr_acceptance := accepted.1; sr_priority := p; sr_runAt := at_; sr_deadline := due;
         sr_executionTimeoutMs := executionTimeoutValue (executionTimeoutMs o); sr_maxAttempts := attempts;
         sr_prerequisiteTaskId := prerequisiteTaskId o; sr_dependencies := sortIds <$> dependencies o;
         sr_tags := default [] (match r_tags r with Some t => Some t | None => o_tags o end);
         sr_idempotency := withScope idempotencyTtl (idempotency o);
         sr_debounce := withScope id (debounce o); sr_throttle := withScope id (throttle o) |}.
Definition as_option_error {A} (m : res option_refusal A) : res enqueue_error A :=
  match m with Ret a => Ret a | Throw e => Throw (OptionError e) end.
Definition finish (r : EnqueueRequest) (m : res enqueue_error (TaskAcceptance * ustring)) : res enqueue_error SerializedRequest :=
  accepted <- m ;; as_option_error (serializedRequest r accepted).

(** ** The batch of a call *)
Definition storeCurrentContract (taskType : ustring) (definition : option CachedContractDefinition) (s : EnqueueState) : EnqueueState :=
  match definition with
  | None => s <| currentDatabaseContracts ::= jsdelete taskType |>
  | Some d => s <| currentDatabaseContracts ::= jsset taskType d |>
  end.
Definition cachedContract (s : EnqueueState) (taskType : ustring) : database_contract :=
  match jsget taskType (currentDatabaseContracts s) with Some d => Current d | None => Undefined end.
Definition loadedContract (definition : option CachedContractDefinition) : database_contract :=
  match definition with Some d => Current d | None => Undefined end.
Definition isContractError (e : enqueue_error) : bool :=
  match e with TaskContractValidation _ _ _ | ValueError (TaskValueSizeLimit _ _) => true | _ => false end.

(** [serializeEnqueueRequest] up to its first await: None when the request
    reloads its contract. *)
Definition acceptNow (s : EnqueueState) (r : EnqueueRequest) : option (res enqueue_error SerializedRequest) :=
  match as_option_error (validateEnqueueOptions (options_of r)) with
  | Throw e => Some (Throw e)
  | Ret _ =>
      let dc := cachedContract s (r_type r) in
      match serializedTaskAcceptanceUnder (r_type r) (r_payload r) dc with
      | Throw e => match dc with
                   | Current _ => if isContractError e then None else Some (Throw e)
                   | _ => Some (Throw e)
                   end
      | Ret accepted => Some (finish r (Ret accepted))
      end
  end.
Local Abbreviation promises := (list (option (res enqueue_error SerializedRequest))).
Definition pending (ps : promises) : list nat :=
  filter (fun i => match ps !! i with Some None => true | _ => false end = true) (seq 0 (length ps)).
(** The loads of a batch go out in the order of the requests. *)
Definition loadAnswers (n : nat) (requests : list EnqueueRequest) (ids : list nat)
    : list (nat * res DatabaseError (option CachedContractDefinition)) :=
  imap (fun k i => (i, match requests !! i with Some r => load (n + k) (r_type r) None | None => Ret None end)) ids.
Definition sendLoads (requests : list EnqueueRequest) (ids : list nat) (s : EnqueueState) : EnqueueState :=
  s <| sent ::= fun l => l ++ omap (fun i => (fun r => LoadContract (r_type r) None) <$> requests !! i) ids |>.
(** One answer arrives: the request stores the definition and checks again. *)
Definition settleLoad (requests : list EnqueueRequest) (answers : list (nat * res DatabaseError (option CachedContractDefinition)))
    (sp : EnqueueState * promises) (i : nat) : EnqueueState * promises :=
  let '(s, ps) := sp in
  match requests !! i, jsget i answers with
  | Some r, Some (Ret definition) =>
      (storeCurrentContract (r_type r) definition s,
       <[i := Some (finish r (serializedTaskAcceptanceUnder (r_type r) (r_payload r) (loadedContract definition)))]> ps)
  | Some _, Some (Throw e) => (s, <[i := Some (Throw (Database e))]> ps)
  | _, _ => sp
  end.
(** [Promise.all]: the first rejection in time, or all values. *)
Fixpoint firstRejection (ps : promises) (order : list nat) : option enqueue_error :=
  match order with
  | [] => None
  | i :: order => match ps !! i with Some (Some (Throw e)) => Some e | _ => firstRejection ps order end
  end.
Definition values (ps : promises) : list SerializedRequest :=
  omap (fun p => match p with Some (Ret v) => Some v | _ => None end) ps.
Definition promiseAll (ps : promises) (order : list nat) : res enqueue_error (list SerializedRequest) :=
  match firstRejection ps order with Some e => Throw e | None => Ret (values ps) end.
Definition serializeEnqueueRequests (requests : list EnqueueRequest) : action (list SerializedRequest) :=
  st_lift (as_option_error (validateEnqueueRequests requests)) ;;-
  fun s =>
    let ps := map (acceptNow s) requests in
    let ids := pending ps in
    let n := length (sent s) in
    let settled := foldl (settleLoad requests (loadAnswers n requests ids)) (sendLoads requests ids s, ps) (arrival n ids) in
    (settled.1, promiseAll settled.2 (filter (fun i => i ∉ ids) (seq 0 (length requests)) ++ arrival n ids)).

(** ** Errors of PostgreSQL *)
Definition isHexUnit (u : N) : bool := defined (hexValue u).
Definition isLowerHex (u : N) : bool := isHexUnit u && negb ((65 <=? u) && (u <=? 70))%N.
Definition uuidUnit (i : nat) (u : N) : bool :=
  if bool_decide (i ∈ [8; 13; 18; 23]%nat) then (u =? 45)%N
  else if (i =? 14)%nat then ((49 <=? u) && (u <=? 53))%N
  else if (i =? 19)%nat then bool_decide (u ∈ [56; 57; 97; 98; 65; 66]%N)
  else isHexUnit u.
Definition uuidPattern (s : ustring) : bool := (length s =? 36)%nat && forallb id (imap uuidUnit s).
Definition lowerHexText (size : nat) (s : ustring) : bool := (length s =? size)%nat && forallb isLowerHex s.

(** A member of an object that [JSON.parse] returned; its keys are distinct. *)
Definition member (k : string) (l : list (ustring * json num)) : option (json num) := jsget (units k) l.
Definition stringMember (k : string) (l : list (ustring * json num)) (p : ustring -> bool) : bool :=
  match member k l with Some (JStr s) => p s | _ => false end.
Definition integerMember (k : string) (l : list (ustring * json num)) (low high : Z) : bool :=
  match member k l with
  | Some (JNum n) => isSafeInteger n && negb (num_lt_Z n low) && negb (num_gt_Z n high)
  | _ => false
  end.
Definition string_items (items : list (json num)) : option (list ustring) :=
  mapM (fun v => match v with JStr s => Some s | _ => None end) items.
Definition arrayMember (k : string) (l : list (ustring * json num)) (p : list ustring -> bool) : bool :=
  match member k l with
  | Some (JArr items) => match string_items items with Some ss => p ss | None => false end
  | _ => false
  end.

Definition enqueueConflictFields : list ustring := map units
  ["queue"; "type"; "payload"; "priority"; "concurrencyKey"; "budget"; "contractVersion"; "payloadMaxBytes";
   "resultMaxBytes"; "sensitivePayloadKeys"; "sensitiveResultKeys"; "tags"; "runAt"; "deadline";
   "executionTimeoutMs"; "maxAttempts"; "retryPolicy"; "prerequisiteTaskId"; "dependencies"; "ttlMs"]%string.
Definition enqueueConflictDetailKeys : list ustring := map units
  ["scope"; "keyPreview"; "keyDigest"; "keyLength"; "existingTaskId"; "ordinal"; "conflictingFields";
   "storedRequestDigest"; "rejectedRequestDigest"]%string.
Fixpoint ascending (fields : list ustring) : bool :=
  match fields with a :: (b :: _) as rest => units_lt a b && ascending rest | _ => true end.
Definition validEnqueueConflictDetails (value : json num) : bool :=
  match value with
  | JObj l =>
      (length l =? length enqueueConflictDetailKeys)%nat &&
      forallb (fun m => bool_decide (m.1 ∈ enqueueConflictDetailKeys)) l &&
      stringMember "scope" l (fun s => (0 <? length s)%nat && (length (points s) <=? 256)%nat) &&
      stringMember "keyPreview" l (fun s => (0 <? length s)%nat && (length (points s) <=? 16)%nat) &&
      stringMember "keyDigest" l (lowerHexText 12) &&
      integerMember "keyLength" l 1 512 &&
      stringMember "existingTaskId" l uuidPattern &&
      integerMember "ordinal" l 1 (Z.of_nat MAX_ENQUEUE_BATCH_SIZE) &&
      arrayMember "conflictingFields" l (fun fields =>
        (0 <? length fields)%nat && forallb (fun f => bool_decide (f ∈ enqueueConflictFields)) fields &&
        (length (remove_dups fields) =? length fields)%nat && ascending fields) &&
      stringMember "storedRequestDigest" l (lowerHexText 64) &&
      stringMember "rejectedRequestDigest" l (lowerHexText 64)
  | _ => false
  end.
Definition validDependencyLimitDetails (value : json num) : bool :=
  match value with
  | JObj l =>
      (length l =? 3)%nat && stringMember "taskId" l uuidPattern &&
      integerMember "max" l (Z.of_nat MAX_TASK_DEPENDENCIES) (Z.of_nat MAX_TASK_DEPENDENCIES) &&
      stringMember "limit" l (fun s => bool_decide (s ∈ map units ["prerequisites"; "dependents"; "unresolved_dependents"]%string))
  | _ => false
  end.
Definition validDependencyCycleDetails (value : json num) : bool :=
  match value with
  | JObj l =>
      (length l =? 4)%nat && stringMember "dependentTaskId" l uuidPattern &&
      stringMember "prerequisiteTaskId" l uuidPattern &&
      arrayMember "cycleTaskIds" l (fun taskIds =>
        (2 <=? length taskIds)%nat && (length taskIds <=? 101)%nat && forallb uuidPattern taskIds) &&
      match member "truncated" l with Some (JBool _) => true | _ => false end
  | _ => false
  end.
(** [parsedErrorDetails]: None is the fallback of the caller. *)
Definition parsedErrorDetails (valid : json num -> bool) (e : DatabaseError) : option (json num) :=
  List.find valid (db_details e).
Definition enqueueConflict (e : DatabaseError) : option enqueue_error :=
  if bool_decide (db_code e = Some "P1001"%string)
  then Some (EnqueueIdempotencyConflict (parsedErrorDetails validEnqueueConflictDetails e)) else None.
Definition dependencyCycle (e : DatabaseError) : option enqueue_error :=
  if bool_decide (db_code e = Some "P1003"%string)
  then Some (DependencyCycle (parsedErrorDetails validDependencyCycleDetails e)) else None.
Definition dependencyLimit (e : DatabaseError) : option enqueue_error :=
  if bool_decide (db_code e = Some "P1005"%string)
  then Some (DependencyLimitExceeded (parsedErrorDetails validDependencyLimitDetails e)) else None.
Definition fastTier (e : DatabaseError) : option enqueue_error :=
  if bool_decide (db_code e = Some "P1007"%string) then Some FastTierUnsupportedQueue else None.
Definition orElse {A} (a b : option A) : option A := match a with Some _ => a | None => b end.
(** The catch of an attempt. *)
Definition enqueueError (error : enqueue_error) : enqueue_error :=
  match error with
  | Database e =>
      default error (orElse (enqueueConflict e) (orElse (dependencyCycle e) (orElse (dependencyLimit e) (fastTier e))))
  | _ => error
  end.

(** ** Submission *)
Definition askLoad (taskType : ustring) (version : option string) : action (option CachedContractDefinition) := fun s =>
  (s <| sent ::= fun l => l ++ [LoadContract taskType version] |>,
   match load (length (sent s)) taskType version with Ret d => Ret d | Throw e => Throw (Database e) end).
Definition askSubmit (batch : list SerializedRequest) : action (list EnqueueRow) := fun s =>
  (s <| sent ::= fun l => l ++ [Submit batch] |>,
   match submit (length (sent s)) batch with Ret rows => Ret rows | Throw e => Throw (Database e) end).
Definition mismatchTypes (row : EnqueueRow) : res enqueue_error (list ustring) :=
  match row_json row with
  | Some (JObj l) =>
      match member "taskTypes" l with
      | Some (JArr items) => match string_items items with Some types => Ret types | None => Throw InvalidMismatchDetails end
      | _ => Throw InvalidMismatchDetails
      end
  | _ => Throw InvalidMismatchDetails
  end.
Fixpoint refreshTypes (types : list ustring) : action unit :=
  match types with
  | [] => st_ret tt
  | t :: types =>
      definition <-- askLoad t None ;;
      st_modify (storeCurrentContract t definition) ;;- refreshTypes types
  end.

Record EnqueueResult : Type := { res_taskId : string; res_outcome : EnqueueOutcome; res_reason : option string }.
Definition enqueueNonReplaceableReasons : list string := ["incompatible_key_mode"; "not_pending"; "window_elapsed_pending"]%string.
Definition enqueueResult (row : EnqueueRow) : res enqueue_error EnqueueResult :=
  match row_taskId row with
  | None => Throw IncompleteResult
  | Some taskId =>
      if bool_decide (row_outcome row = ContractMismatch) then Throw IncompleteResult
      else if negb (bool_decide (row_outcome row = NonReplaceable))
      then Ret {| res_taskId := taskId; res_outcome := row_outcome row; res_reason := None |}
      else match row_reason row with
           | Some reason =>
               throw_if (negb (bool_decide (reason ∈ enqueueNonReplaceableReasons))) InvalidReason ;;;
               Ret {| res_taskId := taskId; res_outcome := row_outcome row; res_reason := Some reason |}
           | None => Throw InvalidReason
           end
  end.
Definition isMismatch (row : EnqueueRow) : bool := bool_decide (row_outcome row = ContractMismatch).
(** The attempt with [refreshOnMismatch]; the retry is inside its try. *)
Fixpoint enqueueAttempt (retries : nat) (requests : list EnqueueRequest) : action (list EnqueueResult) :=
  input <-- serializeEnqueueRequests requests ;;
  st_catch
    (rows <-- askSubmit input ;;
     match List.find isMismatch rows with
     | Some row =>
         types <-- st_lift (mismatchTypes row) ;;
         refreshTypes types ;;-
         match retries with O => st_throw PolicyChangedAgain | S retries => enqueueAttempt retries requests end
     | None => st_lift (res_map enqueueResult rows)
     end)
    (fun error => st_throw (enqueueError error)).
Definition submitEnqueueRequests : list EnqueueRequest -> action (list EnqueueResult) := enqueueAttempt 1.
Definition enqueueManyWithResults (requests : list EnqueueRequest) : action (list EnqueueResult) :=
  match requests with
  | [] => st_ret []
  | _ => st_lift (as_option_error (validateEnqueueBatch requests)) ;;- submitEnqueueRequests requests
  end.

(** ** The result of a handler *)
Record ResultTask : Type := { t_type : ustring; t_contractVersion : option string; t_resultMaxBytes : Z }.
Definition storableResult (text : ustring) : res enqueue_error ustring :=
  match assertStorableResult text with Ret t => Ret t | Throw e => Throw (ValueError e) end.
Definition retainedContract (s : EnqueueState) (taskType : ustring) (version : string) : option TaskContractVersion :=
  versions ← jsget taskType (retainedDatabaseContracts s); cd_contract <$> jsget version versions.
Definition retain (taskType : ustring) (version : string) (d : CachedContractDefinition) (s : EnqueueState) : EnqueueState :=
  s <| retainedDatabaseContracts ::=
       jsset taskType (jsset version d (default [] (jsget taskType (retainedDatabaseContracts s)))) |>.
(** The contract of the version that the task was accepted under. *)
Definition resultContract (taskType : ustring) (version : string) : action (option TaskContractVersion) :=
  s <-- st_get ;;
  match retainedContract s taskType version with
  | Some c => st_ret (Some c)
  | None =>
      loaded <-- askLoad taskType (Some version) ;;
      match loaded with
      | Some d => st_modify (retain taskType version d) ;;- st_ret (Some (cd_contract d))
      | None => st_ret (localContract taskType (Some version))
      end
  end.
Definition validateResult (task : ResultTask) (result : json number_token) : action ustring :=
  match t_contractVersion task with
  | Some version =>
      contract <-- resultContract (t_type task) version ;;
      match contract with
      | None => st_throw (TaskContractUnavailable (t_type task) version)
      | Some c =>
          st_lift (text <- validateContractValue (t_type task) version ResultValue result c (t_resultMaxBytes task) ;;
                   storableResult text)
      end
  | None => st_lift (text <- serializeJson result (t_resultMaxBytes task) ;; storableResult text)
  end.

(** ** What a submitted request satisfies *)
Lemma serializeJson_value v maxBytes :
  Forall token_ok (json_numbers v) ->
  serializeJson v maxBytes =
    if maxBytes <? byteLength (jsonbText v) then Throw (ValueError (TaskValueSizeLimit (byteLength (jsonbText v)) maxBytes))
    else Ret (jsonText v).
Proof. intros Hok. unfold serializeJson. rewrite serialize_value by done. by destruct (_ <? _). Qed.
Lemma serializeJson_Ret v maxBytes text :
  Forall token_ok (json_numbers v) -> serializeJson v maxBytes = Ret text ->
  text = jsonText v /\ byteLength (jsonbText v) <= maxBytes.
Proof. intros Hok. rewrite serializeJson_value by done. destruct (_ <? _) eqn:E; [done|]. intros [= <-]. split; [done|lia]. Qed.

(** A value that satisfies the schema a contract has for it. *)
Definition meets (schema : option Schema) (v : json number_token) : Prop :=
  forall sc, schema = Some sc -> validator sc v = true.
Lemma validateContractValue_Ret taskType version kind v c maxBytes text :
  Forall token_ok (json_numbers v) ->
  validateContractValue taskType version kind v c maxBytes = Ret text ->
  text = jsonText v /\ byteLength (jsonbText v) <= maxBytes /\
  meets (match kind with PayloadValue => payloadSchema c | ResultValue => resultSchema c end) v.
Proof.
  intros Hok. unfold validateContractValue. intros ([] & Hs & Ht)%res_bind_Ret.
  destruct (serializeJson_Ret _ _ _ Hok Ht) as [-> Hle]. split_and!; [done..|]. intros sc E. rewrite E in Hs.
  apply throw_if_Ret in Hs. by destruct (validator sc v).
Qed.

(** The acceptance that a contract selection gives a payload. *)
Record accepted_under (taskType : ustring) (v : json number_token) (dc : database_contract) (a : TaskAcceptance) (text : ustring) : Prop := {
  au_text : text = jsonText v;
  au_fits : byteLength (jsonbText v) <= payloadMaxBytes a;
  au_version : contractVersion a = selectedVersion taskType dc;
  au_limits : payloadMaxBytes a = payloadLimit (selectedContract taskType dc) /\
              resultMaxBytes a = resultLimit (selectedContract taskType dc);
  au_schema : meets (selectedContract taskType dc ≫= payloadSchema) v;
}.
Lemma accepted_sound taskType v dc a text :
  Forall token_ok (json_numbers v) ->
  serializedTaskAcceptanceUnder taskType v dc = Ret (a, text) -> accepted_under taskType v dc a text.
Proof.
  intros Hok. unfold serializedTaskAcceptanceUnder. intros (t & Ht & [= <- <-])%res_bind_Ret.
  destruct (selectedContract taskType dc) as [c|] eqn:Ec.
  - destruct (validateContractValue_Ret _ _ _ _ _ _ _ Hok Ht) as (-> & ? & ?). constructor; by rewrite ?Ec.
  - destruct (serializeJson_Ret _ _ _ Hok Ht) as [-> ?]. constructor; by rewrite ?Ec.
Qed.

(** What the checked options make of a request. *)
Definition num_between (low high : Z) (n : num) : Prop := isSafeInteger n = true /\ low <= num_to_Z n <= high.
Record request_ok (sr : SerializedRequest) : Prop := {
  ro_priority : num_between 0 MAX_TASK_PRIORITY (sr_priority sr);
  ro_attempts : num_between 1 MAX_TASK_ATTEMPTS (sr_maxAttempts sr);
  ro_modes : (length (omap id [sr_idempotency sr; sr_debounce sr; sr_throttle sr]) <= 1)%nat;
  ro_debounce : is_Some (sr_debounce sr) -> sr_runAt sr = None;
  ro_coalesced : is_Some (sr_debounce sr) \/ is_Some (sr_throttle sr) ->
    sr_prerequisiteTaskId sr = None /\ sr_dependencies sr = None;
  ro_dependencies : forall ids, sr_dependencies sr = Some ids ->
    sr_prerequisiteTaskId sr = None /\ (1 <= length ids <= MAX_TASK_DEPENDENCIES)%nat /\
    StronglySorted (fun a b => units_lt a b = true) ids;
}.
Lemma in_range_Ret low high (e : option_refusal) n m :
  (throw_if (negb (isSafeInteger n) || num_lt_Z n low || num_gt_Z n high) e ;;; Ret n) = Ret m ->
  m = n /\ num_between low high n.
Proof.
  intros ([] & Ht & [= <-])%res_bind_Ret. apply throw_if_Ret, orb_false_elim in Ht as [[Hs Hl]%orb_false_elim Hg].
  apply negb_false_iff in Hs. rewrite num_lt_Z_safe in Hl by done. rewrite num_gt_Z_safe in Hg by done.
  split; [done|]. split; [done|lia].
Qed.
Lemma priority_Ret o p : validateTaskPriority o = Ret p -> num_between 0 MAX_TASK_PRIORITY p.
Proof.
  destruct o as [n|]; simpl; [by intros [-> ?]%in_range_Ret|]. intros [= <-].
  split; [by apply isSafeInteger_Z|rewrite num_to_Z_of_Z; unfold MAX_TASK_PRIORITY; lia].
Qed.
Lemma attempts_Ret o p : maxAttemptsValue o = Ret p -> num_between 1 MAX_TASK_ATTEMPTS p.
Proof.
  assert (H : num_between 1 MAX_TASK_ATTEMPTS DEFAULT_MAX_ATTEMPTS).
  { split; [by apply isSafeInteger_Z|rewrite num_to_Z_of_Z; unfold MAX_TASK_ATTEMPTS, DEFAULT_MAX_ATTEMPTS; lia]. }
  destruct o as [n|]; simpl; [|by intros [= <-]]. destruct (is_zero n); [by intros [= <-]|by intros [-> ?]%in_range_Ret].
Qed.

Lemma sortIds_perm ids : sortIds ids ≡ₚ ids.
Proof.
  unfold sortIds. rewrite sort_members_perm. induction ids as [|i ids IH]; [done|]. rewrite map_cons, fmap_cons. by rewrite IH.
Qed.
Lemma sortIds_sorted ids : NoDup ids -> StronglySorted (fun a b => units_lt a b = true) (sortIds ids).
Proof.
  intros Hn. unfold sortIds. assert (Hs : StronglySorted before (sort_members (map (fun i => (i, tt)) ids))).
  { apply sort_members_sorted. rewrite <- list_fmap_compose. by rewrite list_fmap_id. }
  induction Hs as [|m l _ IH Hm]; [constructor|]. rewrite fmap_cons. constructor; [done|].
  apply Forall_fmap. eapply Forall_impl; [exact Hm|]. done.
Qed.
Lemma remove_dups_same (ids : list ustring) : length (remove_dups ids) = length ids -> NoDup ids.
Proof.
  intros H. assert (Hp : remove_dups ids ≡ₚ ids).
  { apply submseteq_length_Permutation; [|lia]. apply NoDup_submseteq; [apply NoDup_remove_dups|].
    intros x. apply elem_of_remove_dups. }
  rewrite <- Hp. apply NoDup_remove_dups.
Qed.

Record options_ok (o : EnqueueOptions) : Prop := {
  oo_modes : (length (filter (fun m => defined m = true) (modes o)) <= 1)%nat;
  oo_debounce : defined (debounce o) && defined (runAt o) = false;
  oo_coalesced : (defined (debounce o) || defined (throttle o)) && (defined (prerequisiteTaskId o) || defined (dependencies o)) = false;
  oo_both : defined (prerequisiteTaskId o) && defined (dependencies o) = false;
  oo_count : forall ids, dependencies o = Some ids -> (1 <= length ids <= MAX_TASK_DEPENDENCIES)%nat /\ NoDup ids;
}.
Lemma validate_options_ok o : validateEnqueueOptions o = Ret tt -> options_ok o.
Proof.
  unfold validateEnqueueOptions.
  intros ([] & H1%throw_if_Ret & ([] & H2%throw_if_Ret & ([] & H3%throw_if_Ret & ([] & H4%throw_if_Ret & ([] & H5 & _)%res_bind_Ret)%res_bind_Ret)%res_bind_Ret)%res_bind_Ret)%res_bind_Ret.
  constructor; try done.
  - by apply Nat.ltb_ge in H1.
  - intros ids E. rewrite E in H5. apply res_bind_Ret in H5 as ([] & Hc%throw_if_Ret & Hd%throw_if_Ret).
    apply negb_false_iff, Nat.eqb_eq in Hd. split; [lia|]. by apply remove_dups_same.
Qed.
Lemma withScope_defined ttl m : is_Some (withScope ttl m) -> defined m = true.
Proof. destruct m as [[]|]; simpl; [by intros [? [=]]|done|by intros [? [=]]]. Qed.
Lemma modes_count o :
  (length (omap id [withScope idempotencyTtl (idempotency o); withScope id (debounce o); withScope id (throttle o)])
   <= length (filter (fun m => defined m = true) (modes o)))%nat.
Proof.
  unfold modes. destruct (idempotency o) as [[]|], (debounce o) as [[]|], (throttle o) as [[]|]; simpl; lia.
Qed.
Lemma serialized_ok r accepted sr :
  options_ok (options_of r) -> serializedRequest r accepted = Ret sr -> request_ok sr.
Proof.
  intros [H1 H2 H3 H4 H5]. unfold serializedRequest.
  intros (p & Hp & (at_ & Hat & (due & _ & (n & Hn & [= <-])%res_bind_Ret)%res_bind_Ret)%res_bind_Ret)%res_bind_Ret.
  constructor; simpl.
  - by eapply priority_Ret.
  - by eapply attempts_Ret.
  - pose proof (modes_count (options_of r)). simpl in *. lia.
  - intros Hd%withScope_defined. rewrite Hd in H2. simpl in H2. destruct (runAt (options_of r)); [done|].
    unfold coalesces in Hat. rewrite Hd, orb_true_r in Hat. by injection Hat.
  - intros Hd. assert (Hor : defined (debounce (options_of r)) || defined (throttle (options_of r)) = true).
    { destruct Hd as [->%withScope_defined| ->%withScope_defined]; [done|apply orb_true_r]. }
    rewrite Hor in H3. simpl in H3. apply orb_false_elim in H3 as [Hp' Hd'].
    split; [by destruct (prerequisiteTaskId _)|by destruct (dependencies _)].
  - intros ids Hi. destruct (dependencies (options_of r)) as [l|] eqn:E; [|done]. injection Hi as <-.
    rewrite andb_true_r in H4. destruct (H5 l eq_refl) as [Hc Hnd]. split_and!; [by destruct (prerequisiteTaskId _)| | |].
    + rewrite sortIds_perm. lia.
    + rewrite sortIds_perm. lia.
    + by apply sortIds_sorted.
Qed.

(** ** The batch *)
(** The contract of a type is the cached one, or one that PostgreSQL answered. *)
Definition known (s : EnqueueState) (taskType : ustring) (dc : database_contract) : Prop :=
  dc = cachedContract s taskType \/ exists n d, load n taskType None = Ret d /\ dc = loadedContract d.
Definition cache_from (s s' : EnqueueState) : Prop := forall t, known s t (cachedContract s' t).
Lemma cache_from_refl s s' : currentDatabaseContracts s' = currentDatabaseContracts s -> cache_from s s'.
Proof. intros E t. left. unfold cachedContract. by rewrite E. Qed.
Lemma cache_from_trans s1 s2 s3 : cache_from s1 s2 -> cache_from s2 s3 -> cache_from s1 s3.
Proof. intros H1 H2 t. destruct (H2 t) as [->|?]; [apply H1|by right]. Qed.
Lemma known_from s s' t dc : cache_from s s' -> known s' t dc -> known s t dc.
Proof. intros H [->|?]; [apply H|by right]. Qed.
Lemma store_cache_from s t n d : load n t None = Ret d -> cache_from s (storeCurrentContract t d s).
Proof.
  intros Hl t'. unfold cachedContract, storeCurrentContract. destruct d as [d|]; simpl.
  - rewrite jsget_set. case_decide; [|by left]. subst. right. by exists n, (Some d).
  - rewrite jsget_delete. case_decide; [|by left]. subst. right. by exists n, None.
Qed.

Record valid_request (s : EnqueueState) (r : EnqueueRequest) (sr : SerializedRequest) : Prop := {
  ar_type : sr_type sr = r_type r;
  ar_ok : request_ok sr;
  ar_contract : exists dc, known s (r_type r) dc /\
    accepted_under (r_type r) (r_payload r) dc (sr_acceptance sr) (sr_payload sr);
}.
Definition payload_ok (r : EnqueueRequest) : Prop := Forall token_ok (json_numbers (r_payload r)).
Lemma finish_sound s r dc sr :
  payload_ok r -> options_ok (options_of r) -> known s (r_type r) dc ->
  finish r (serializedTaskAcceptanceUnder (r_type r) (r_payload r) dc) = Ret sr -> valid_request s r sr.
Proof.
  intros Hp Ho Hk. unfold finish. intros ([a text] & Ha & Hs)%res_bind_Ret.
  destruct (serializedRequest r (a, text)) as [sr'|] eqn:E; [|done]. injection Hs as <-.
  pose proof (serialized_ok _ _ _ Ho E) as Hok. apply accepted_sound in Ha; [|done].
  unfold serializedRequest in E.
  apply res_bind_Ret in E as (? & _ & (? & _ & (? & _ & (? & _ & [= <-])%res_bind_Ret)%res_bind_Ret)%res_bind_Ret).
  constructor; [done|done|]. by exists dc.
Qed.
Lemma acceptNow_sound s r sr : payload_ok r -> acceptNow s r = Some (Ret sr) -> valid_request s r sr.
Proof.
  intros Hp. unfold acceptNow. destruct (validateEnqueueOptions (options_of r)) as [[]|] eqn:Ho; [|done]. simpl.
  apply validate_options_ok in Ho. destruct (serializedTaskAcceptanceUnder _ _ _) as [a|e] eqn:Ea.
  - intros [= E]. apply (finish_sound s r (cachedContract s (r_type r))); [done|done|by left|by rewrite Ea].
  - destruct (cachedContract s (r_type r)); [done|done|by destruct (isContractError e)].
Qed.

Definition promises_ok (s : EnqueueState) (requests : list EnqueueRequest) (ps : promises) : Prop :=
  length ps = length requests /\
  forall i r x, requests !! i = Some r -> ps !! i = Some (Some (Ret x)) -> valid_request s r x.
Definition resolved (ps : promises) (i : nat) : Prop := exists x, ps !! i = Some (Some x).
Section settle.
Context (s0 : EnqueueState) (requests : list EnqueueRequest) (answers : list (nat * res DatabaseError (option CachedContractDefinition))).
Context (payloads : Forall payload_ok requests) (checked : Forall (fun r => options_ok (options_of r)) requests).
Context (answered : forall i r d, requests !! i = Some r -> jsget i answers = Some (Ret d) -> exists n, load n (r_type r) None = Ret d).

Lemma settle_one s ps i :
  promises_ok s0 requests ps -> cache_from s0 s -> (i < length requests)%nat -> is_Some (jsget i answers) ->
  let sp := settleLoad requests answers (s, ps) i in
  promises_ok s0 requests sp.2 /\ cache_from s0 sp.1 /\ sent sp.1 = sent s /\ resolved sp.2 i /\
  (forall j, resolved ps j -> resolved sp.2 j).
Proof.
  intros [Hlen Hp] Hc Hi [a Ha]. destruct (lookup_lt_is_Some_2 _ _ Hi) as [r Hr]. simpl. rewrite Hr, Ha.
  assert (Hins : forall x : res enqueue_error SerializedRequest,
    (forall y, x = Ret y -> valid_request s0 r y) ->
    promises_ok s0 requests (<[i := Some x]> ps) /\ resolved (<[i := Some x]> ps) i /\
    (forall j, resolved ps j -> resolved (<[i := Some x]> ps) j)).
  { intros x Hx. split_and!.
    - split; [by rewrite length_insert|]. intros j r' y Hj Hy. destruct (decide (j = i)) as [->|Hne].
      + rewrite list_lookup_insert_eq in Hy by lia. simplify_eq. by apply Hx.
      + rewrite list_lookup_insert_ne in Hy by done. eauto.
    - exists x. by rewrite list_lookup_insert_eq by lia.
    - intros j [y Hy]. destruct (decide (j = i)) as [->|Hne].
      + exists x. by rewrite list_lookup_insert_eq by lia.
      + exists y. by rewrite list_lookup_insert_ne. }
  destruct a as [d|e].
  - destruct (answered i r d Hr Ha) as [n Hn]. simpl.
    destruct (Hins (finish r (serializedTaskAcceptanceUnder (r_type r) (r_payload r) (loadedContract d)))) as (H1 & H2 & H3).
    { intros y Hy. eapply finish_sound; [| |right; by exists n, d|exact Hy].
      - by eapply (Forall_lookup_1 payload_ok).
      - by eapply (Forall_lookup_1 (fun r => options_ok (options_of r))). }
    split_and!; [done| |by destruct d|done..]. eapply cache_from_trans; [done|]. by eapply store_cache_from.
  - simpl. destruct (Hins (Throw (Database e))) as (H1 & H2 & H3); [done|]. done.
Qed.
Lemma settle_all order : forall s ps,
  promises_ok s0 requests ps -> cache_from s0 s ->
  Forall (fun i => (i < length requests)%nat /\ is_Some (jsget i answers)) order ->
  let sp := foldl (settleLoad requests answers) (s, ps) order in
  promises_ok s0 requests sp.2 /\ cache_from s0 sp.1 /\ sent sp.1 = sent s /\ Forall (resolved sp.2) order /\
  (forall j, resolved ps j -> resolved sp.2 j).
Proof.
  induction order as [|i order IH]; intros s ps Hp Hc Ho; [done|]. apply Forall_cons in Ho as [[Hi Ha] Ho].
  destruct (settle_one s ps i Hp Hc Hi Ha) as (H1 & H2 & H3 & H4 & H5). cbn [foldl].
  destruct (settleLoad requests answers (s, ps) i) as [s' ps']. simpl in H1, H2, H3, H4, H5.
  destruct (IH s' ps' H1 H2 Ho) as (R1 & R2 & R3 & R4 & R5). simpl.
  split_and!; [done|done|by rewrite R3|constructor; auto|auto].
Qed.
End settle.

Lemma firstRejection_None ps order i x :
  firstRejection ps order = None -> i ∈ order -> ps !! i = Some (Some x) -> exists y, x = Ret y.
Proof.
  induction order as [|j order IH]; [by intros _ ?%elem_of_nil|]. cbn [firstRejection].
  intros Hf [->|Hi]%elem_of_cons Hx.
  - rewrite Hx in Hf. destruct x as [y|e]; [by exists y|done].
  - apply IH; [|done..]. by destruct (ps !! j) as [[[]|]|].
Qed.
Lemma values_Forall2 (P : EnqueueRequest -> SerializedRequest -> Prop) requests : forall ps : promises,
  length ps = length requests ->
  (forall i r, requests !! i = Some r -> exists x, ps !! i = Some (Some (Ret x)) /\ P r x) ->
  Forall2 P requests (values ps).
Proof.
  induction requests as [|r requests IH]; intros [|p ps] Hlen H; simpl in Hlen; try done.
  destruct (H 0%nat r eq_refl) as (x & E & Hx). simpl in E. injection E as ->. simpl. constructor; [done|].
  apply IH; [lia|]. intros i r' Hi. by apply (H (S i)).
Qed.
Lemma loadAnswers_elem n requests ids i r a :
  requests !! i = Some r -> jsget i (loadAnswers n requests ids) = Some a -> exists k, a = load k (r_type r) None.
Proof.
  intros Hr (j & Hj)%jsget_in%list_elem_of_lookup_1. unfold loadAnswers in Hj.
  rewrite list_lookup_imap in Hj. destruct (ids !! j) as [i'|] eqn:E; [|done]. simpl in Hj.
  injection Hj as -> Ha. rewrite Hr in Ha. by exists (n + j)%nat.
Qed.
Lemma loadAnswers_some n requests ids i : i ∈ ids -> is_Some (jsget i (loadAnswers n requests ids)).
Proof.
  intros Hi. destruct (jsget i _) eqn:E; [done|]. apply jsget_None in E. destruct E. unfold loadAnswers.
  apply list_elem_of_lookup_1 in Hi as [j Hj]. apply list_elem_of_fmap.
  eexists (_, _). split; [reflexivity|]. apply list_elem_of_lookup_2 with j. rewrite list_lookup_imap, Hj. done.
Qed.

Context (arrival_perm : forall n l, arrival n l ≡ₚ l).
Definition no_submits (l : list enqueue_statement) : Prop := Forall (fun st => forall b, st <> Submit b) l.
Lemma serialize_spec requests s s' r :
  Forall payload_ok requests -> serializeEnqueueRequests requests s = (s', r) ->
  cache_from s s' /\ (exists new, sent s' = sent s ++ new /\ no_submits new) /\
  forall batch, r = Ret batch -> Forall2 (valid_request s) requests batch.
Proof.
  intros Hp. unfold serializeEnqueueRequests, st_bind, st_lift.
  destruct (validateEnqueueRequests requests) as [[]|e] eqn:Ev; simpl.
  2: { intros [= <- <-]. split_and!; [by apply cache_from_refl| |done]. exists []. rewrite app_nil_r. split; [done|constructor]. }
  assert (Hok : Forall (fun r => options_ok (options_of r)) requests).
  { apply res_iter_Ret in Ev. eapply Forall_impl; [exact Ev|]. intros q Hq. by apply validate_options_ok. }
  set (ps := map (acceptNow s) requests). set (ids := pending ps).
  assert (Hps : promises_ok s requests ps).
  { split; [apply length_map|]. intros i q x Hi Hx. unfold ps in Hx. rewrite list_lookup_fmap, Hi in Hx.
    injection Hx as Hx. apply acceptNow_sound; [|done]. by eapply (Forall_lookup_1 payload_ok). }
  assert (Hids : forall i, i ∈ ids -> (i < length requests)%nat).
  { intros i [_ Hi%elem_of_seq]%list_elem_of_filter. rewrite (proj1 Hps) in Hi. lia. }
  destruct (settle_all s requests (loadAnswers (length (sent s)) requests ids) Hp Hok) with
    (order := arrival (length (sent s)) ids) (s := sendLoads requests ids s) (ps := ps) as (H1 & H2 & H3 & H4 & H5).
  - intros i q d Hq Hj. destruct (loadAnswers_elem _ _ _ _ _ _ Hq Hj) as [k Hk]. by exists k.
  - done.
  - by apply cache_from_refl.
  - apply Forall_forall. intros i Hi. rewrite arrival_perm in Hi. split; [auto|by apply loadAnswers_some].
  - destruct (foldl _ _ _) as [s2 ps2]. simpl in *. intros [= <- <-]. split_and!; [done| |].
    + eexists. split; [exact H3|]. apply Forall_forall. intros st (i & _ & Hst)%list_elem_of_omap b ->.
      by destruct (requests !! i).
    + intros batch Hb. unfold promiseAll in Hb. destruct (firstRejection ps2 _) eqn:Hf; [done|]. injection Hb as <-.
      apply values_Forall2; [apply H1|]. intros i q Hq.
      assert (Hi : (i < length requests)%nat) by by eapply lookup_lt_Some.
      assert (Hr : resolved ps2 i).
      { destruct (decide (i ∈ ids)) as [Hin|Hnin].
        - rewrite Forall_forall in H4. apply H4. by rewrite arrival_perm.
        - apply H5. destruct (ps !! i) as [[x|]|] eqn:E; [by exists x| |].
          + destruct Hnin. apply list_elem_of_filter. rewrite E. split; [done|]. apply elem_of_seq.
            rewrite (proj1 Hps). lia.
          + apply lookup_ge_None in E. rewrite (proj1 Hps) in E. lia. }
      destruct Hr as [x Hx]. destruct (firstRejection_None ps2 _ i x Hf) as [y ->]; [|done|].
      { apply elem_of_app. destruct (decide (i ∈ ids)) as [Hin|Hnin]; [right; by rewrite arrival_perm|left].
        apply list_elem_of_filter. split; [done|]. apply elem_of_seq. lia. }
      exists y. split; [done|]. by eapply (proj2 H1).
Qed.

(** ** Attempts *)
(** The submissions among statements from the [n]-th on. *)
Fixpoint submits (n : nat) (l : list enqueue_statement) : list (nat * list SerializedRequest) :=
  match l with
  | [] => []
  | Submit b :: l => (n, b) :: submits (S n) l
  | _ :: l => submits (S n) l
  end.
Lemma submits_app n l1 l2 : submits n (l1 ++ l2) = submits n l1 ++ submits (n + length l1) l2.
Proof.
  revert n. induction l1 as [|st l1 IH]; intros n; simpl; [by rewrite Nat.add_0_r|].
  rewrite <- Nat.add_succ_comm. destruct st; rewrite IH; done.
Qed.
Lemma submits_none n l : no_submits l -> submits n l = [].
Proof.
  intros H. revert n. induction H as [|st l Hst _ IH]; intros n; [done|]. destruct st as [| b|]; simpl; [done| |done].
  by destruct (Hst b).
Qed.
Definition mismatched (nb : nat * list SerializedRequest) : Prop :=
  exists rows, submit nb.1 nb.2 = Ret rows /\ existsb isMismatch rows = true.
Definition answered_with (nb : nat * list SerializedRequest) (results : list EnqueueResult) : Prop :=
  exists rows, submit nb.1 nb.2 = Ret rows /\ existsb isMismatch rows = false /\ res_map enqueueResult rows = Ret results.

(** At most [n] submissions of valid batches; each but the last answered a
    mismatch, and results are the answer to the last. *)
Definition attempts_spec (s0 : EnqueueState) (requests : list EnqueueRequest) (n : nat) (s s' : EnqueueState)
    (r : res enqueue_error (list EnqueueResult)) : Prop :=
  exists new, sent s' = sent s ++ new /\ cache_from s0 s' /\
    let subs := submits (length (sent s)) new in
    (length subs <= n)%nat /\ Forall (fun nb => Forall2 (valid_request s0) requests nb.2) subs /\
    (forall i nb, subs !! i = Some nb -> (S i < length subs)%nat -> mismatched nb) /\
    forall results, r = Ret results -> exists nb, last subs = Some nb /\ answered_with nb results.

Lemma askLoad_spec t v s s' d : askLoad t v s = (s', d) ->
  sent s' = sent s ++ [LoadContract t v] /\ currentDatabaseContracts s' = currentDatabaseContracts s /\
  forall x, d = Ret x -> exists n, load n t v = Ret x.
Proof.
  unfold askLoad. intros [= <- <-]. split_and!; [done..|]. intros x Hx. exists (length (sent s)).
  destruct (load _ t v); by simplify_eq.
Qed.
Lemma refresh_spec types : forall s s' r, refreshTypes types s = (s', r) ->
  cache_from s s' /\ exists new, sent s' = sent s ++ new /\ no_submits new.
Proof.
  induction types as [|t types IH]; intros s s' r.
  - intros [= <- <-]. split; [by apply cache_from_refl|]. exists []. rewrite app_nil_r. split; [done|constructor].
  - cbn [refreshTypes]. unfold st_bind at 1. destruct (askLoad t None s) as [s1 d] eqn:Ea.
    destruct (askLoad_spec _ _ _ _ _ Ea) as (Es & Ec & Hd).
    assert (Hone : no_submits [LoadContract t None]) by (constructor; [done|constructor]).
    destruct d as [d|e].
    + unfold st_bind, st_modify. intros H%IH. destruct H as (H1 & new & H2 & H3).
      destruct (Hd d eq_refl) as [n Hn]. split.
      * eapply cache_from_trans; [|exact H1]. eapply cache_from_trans; [by apply cache_from_refl|]. by eapply store_cache_from.
      * exists (LoadContract t None :: new). rewrite H2.
        replace (sent (storeCurrentContract t d s1)) with (sent s1) by by destruct d. rewrite Es, <- app_assoc.
        split; [done|]. by constructor.
    + intros [= <- <-]. split; [by apply cache_from_refl|]. by exists [LoadContract t None].
Qed.
Lemma accepted_from s s1 r sr : cache_from s s1 -> valid_request s1 r sr -> valid_request s r sr.
Proof.
  intros Hc [H1 H2 (dc & Hk & Hu)]. constructor; [done..|]. exists dc. split; [by eapply known_from|done].
Qed.
Section attempts.
Context (s0 : EnqueueState) (requests : list EnqueueRequest).
Local Abbreviation spec := (attempts_spec s0 requests).
(** The work between two submissions changes nothing of the specification. *)
Lemma attempts_after n s s1 s' r new1 :
  sent s1 = sent s ++ new1 -> no_submits new1 -> spec n s1 s' r -> spec n s s' r.
Proof.
  intros E1 Hn (new & E & Hc & Hrest). exists (new1 ++ new). rewrite E, E1, app_assoc. split; [done|]. split; [done|].
  cbv zeta in *. rewrite submits_app, submits_none by done. rewrite E1, length_app in Hrest. done.
Qed.
Lemma attempts_none n s e : cache_from s0 s -> spec n s s (Throw e).
Proof. intros Hc. exists []. rewrite app_nil_r. split; [done|]. split; [done|]. simpl. split; [lia|]. split; [constructor|done]. Qed.
(** A submission that answered a mismatch, before other attempts. *)
Lemma attempts_cons n s batch rows s' r :
  Forall2 (valid_request s0) requests batch -> submit (length (sent s)) batch = Ret rows ->
  existsb isMismatch rows = true ->
  spec n (s <| sent ::= fun l => l ++ [Submit batch] |>) s' r -> spec (S n) s s' r.
Proof.
  intros Hb Hs Hm (new & E & Hc & Hlen & Hall & Hmis & Hres). exists (Submit batch :: new). simpl in E, Hlen, Hall, Hmis, Hres.
  rewrite <- app_assoc in E. rewrite length_app, Nat.add_1_r in *. split; [done|]. split; [done|].
  cbn [submits]. split_and!.
  - simpl. lia.
  - by constructor.
  - intros [|i] nb Hi Hlt; simpl in *; [injection Hi as <-; by exists rows|]. eapply Hmis; [done|lia].
  - intros results Hr. destruct (Hres results Hr) as (nb & Hl & Ha). exists nb. split; [|done].
    by rewrite last_cons, Hl.
Qed.
End attempts.

Definition afterRows (again : action (list EnqueueResult)) (rows : list EnqueueRow) : action (list EnqueueResult) :=
  match List.find isMismatch rows with
  | Some row => types <-- st_lift (mismatchTypes row) ;; refreshTypes types ;;- again
  | None => st_lift (res_map enqueueResult rows)
  end.
Definition again (retries : nat) (requests : list EnqueueRequest) : action (list EnqueueResult) :=
  match retries with O => st_throw PolicyChangedAgain | S retries => enqueueAttempt retries requests end.
Lemma enqueueAttempt_eq retries requests :
  enqueueAttempt retries requests =
    (input <-- serializeEnqueueRequests requests ;;
     st_catch (rows <-- askSubmit input ;; afterRows (again retries requests) rows)
       (fun error => st_throw (enqueueError error))).
Proof. by destruct retries. Qed.
Lemma find_existsb {A} (p : A -> bool) l : match List.find p l with Some _ => existsb p l = true | None => existsb p l = false end.
Proof.
  destruct (List.find p l) as [x|] eqn:E; [apply existsb_exists; exists x; by apply find_some|].
  destruct (existsb p l) eqn:Ex; [|done]. apply existsb_exists in Ex as (x & Hx & Hp).
  by rewrite (find_none p l E x Hx) in Hp.
Qed.

(** One submission; [k] is what a mismatch leads to. *)
Lemma submitted_spec s0 n requests s batch k s' r :
  Forall2 (valid_request s0) requests batch -> cache_from s0 s ->
  (forall s1 s2 r2, cache_from s0 s1 -> k s1 = (s2, r2) -> attempts_spec s0 requests n s1 s2 r2) ->
  (rows <-- askSubmit batch ;; afterRows k rows) s = (s', r) -> attempts_spec s0 requests (S n) s s' r.
Proof.
  intros Hb Hc0 Hk. unfold st_bind, askSubmit. set (s1 := s <| sent ::= fun l => l ++ [Submit batch] |>).
  assert (Hone : forall r', (forall results, r' = Ret results -> answered_with (length (sent s), batch) results) ->
      attempts_spec s0 requests (S n) s s1 r').
  { intros r' Hr'. exists [Submit batch]. simpl. split_and!; [done|done|lia| | |].
    - by constructor.
    - intros [|i] nb; simpl; [lia|done].
    - intros results Hr. eauto. }
  destruct (submit (length (sent s)) batch) as [rows|e] eqn:Es; [|intros [= <- <-]; by apply Hone].
  unfold afterRows. pose proof (find_existsb isMismatch rows) as Hf. destruct (List.find isMismatch rows) as [row|].
  - unfold st_bind, st_lift. destruct (mismatchTypes row) as [types|e]; [|intros [= <- <-]; by apply Hone].
    destruct (refreshTypes types s1) as [s2 r2] eqn:Er. destruct (refresh_spec _ _ _ _ Er) as (Hc & new & E & Hn).
    assert (Hc2 : cache_from s0 s2) by by eapply cache_from_trans.
    intros H. apply (attempts_cons s0 requests n s batch rows); [done..|]. eapply attempts_after; [done..|].
    destruct r2 as [[]|e]; [by apply Hk|]. injection H as <- <-. by apply attempts_none.
  - intros [= <- <-]. apply Hone. intros results Hr. by exists rows.
Qed.
Lemma attempt_spec s0 requests retries : forall s s' r,
  Forall payload_ok requests -> cache_from s0 s ->
  enqueueAttempt retries requests s = (s', r) -> attempts_spec s0 requests (S retries) s s' r.
Proof.
  induction retries as [|retries IH]; intros s s' r Hp Hc0; rewrite enqueueAttempt_eq; unfold st_bind at 1;
    destruct (serializeEnqueueRequests requests s) as [s1 r1] eqn:Es;
    destruct (serialize_spec _ _ _ _ Hp Es) as (Hc & (new & E & Hn) & Hb);
    assert (Hc1 : cache_from s0 s1) by (by eapply cache_from_trans);
    (destruct r1 as [batch|e]; [|intros [= <- <-]; eapply attempts_after; [done..|by apply attempts_none]]);
    unfold st_catch; (destruct (st_bind (askSubmit batch) _ s1) as [s2 r2] eqn:Ea);
    (intros Hr; eapply attempts_after; [done..|]);
    assert (Hb' : Forall2 (valid_request s0) requests batch)
      by (eapply Forall2_impl; [by apply Hb|]; intros q sr; by apply accepted_from).
  - eapply submitted_spec in Ea as (new2 & H1 & H2 & H3 & H4 & H5 & H6);
      [|done|done|by intros t1 t2 t3 Ht [= <- <-]; apply attempts_none].
    destruct r2; injection Hr as <- <-; by exists new2.
  - eapply submitted_spec in Ea as (new2 & H1 & H2 & H3 & H4 & H5 & H6);
      [|done|done|by intros t1 t2 t3 Ht; apply IH].
    destruct r2; injection Hr as <- <-; by exists new2.
Qed.

(** C7: What reaches PostgreSQL is valid, and is sent at most twice. Every batch
    that an enqueue call submits has one request per request of the call, in
    order, each within the limits of its options, with the JSON text of its
    payload, whose jsonb text fits the limit of a contract definition that was
    cached or that PostgreSQL answered, and whose schema it satisfies. A second
    submission follows only a contract mismatch, there is no third, and the
    results of the call are the rows of the last. *)
Theorem enqueue_submits_valid_batches requests s s' r :
  Forall payload_ok requests -> enqueueManyWithResults requests s = (s', r) ->
  (r = Ret [] /\ requests = [] \/ attempts_spec s requests 2 s s' r) /\
  (forall q, q ∈ requests -> validateEnqueueOptions (options_of q) <> Ret tt -> s' = s).
Proof.
  intros Hp. unfold enqueueManyWithResults. destruct requests as [|q0 requests].
  { intros [= <- <-]. split; [by left|done]. }
  unfold st_bind, st_lift. destruct (validateEnqueueBatch (q0 :: requests)) as [[]|e] eqn:Ev.
  - intros H. split.
    + right. by eapply attempt_spec; [|apply cache_from_refl|exact H].
    + intros q Hq Hne. exfalso. apply res_bind_Ret in Ev as (_ & _ & Ev). apply res_iter_Ret in Ev.
      rewrite Forall_forall in Ev. by apply Hne, Ev.
  - intros [= <- <-]. split; [|done]. right. apply attempts_none. by apply cache_from_refl.
Qed.

(** ** Results *)
(** The retained definitions are answers of PostgreSQL for their version. *)
Definition retained_sound (s : EnqueueState) : Prop := forall t v c,
  retainedContract s t v = Some c -> exists n d, load n t (Some v) = Ret (Some d) /\ c = cd_contract d.
(** The contract of a pinned version: PostgreSQL's, or the local one when
    PostgreSQL has none. *)
Definition pinned (t : ustring) (v : string) (c : TaskContractVersion) : Prop :=
  (exists n d, load n t (Some v) = Ret (Some d) /\ c = cd_contract d) \/
  ((exists n, load n t (Some v) = Ret None) /\ localContract t (Some v) = Some c).
Lemma retain_sound t v d n s : retained_sound s -> load n t (Some v) = Ret (Some d) -> retained_sound (retain t v d s).
Proof.
  intros H Hl t' v' c. unfold retainedContract, retain. simpl. rewrite jsget_set. case_decide as Ht; [subst t'|by apply H].
  simpl. rewrite jsget_set. case_decide as Hv; [subst v'; intros [= <-]; by exists n, d|].
  intros Hc. apply (H t v' c). unfold retainedContract. by destruct (jsget t (retainedDatabaseContracts s)).
Qed.
Lemma resultContract_spec t v s s' r :
  retained_sound s -> resultContract t v s = (s', r) ->
  retained_sound s' /\ forall c, r = Ret (Some c) -> pinned t v c.
Proof.
  intros H. unfold resultContract. unfold st_bind at 1, st_get. destruct (retainedContract s t v) as [c|] eqn:Ec.
  { intros [= <- <-]. split; [done|]. intros c' [= <-]. left. by apply H. }
  unfold st_bind at 1. destruct (askLoad t (Some v) s) as [s1 d] eqn:Ea.
  assert (H1 : retained_sound s1) by (unfold askLoad in Ea; by injection Ea as <- _).
  destruct (askLoad_spec _ _ _ _ _ Ea) as (_ & _ & Hd). destruct d as [[d|]|e].
  - destruct (Hd _ eq_refl) as [n Hn]. intros [= <- <-]. split; [by eapply retain_sound|].
    intros c [= <-]. left. by exists n, d.
  - destruct (Hd _ eq_refl) as [n Hn]. intros [= <- <-]. split; [done|]. intros c [= Hc]. right. split; [by exists n|done].
  - intros [= <- <-]. by split.
Qed.
Lemma storableResult_Ret v text :
  Forall token_ok (json_numbers v) -> storableResult (jsonText v) = Ret text -> text = jsonText v /\ found (json_strings v) = false.
Proof.
  intros Hok. unfold storableResult. rewrite storable_value by done. destruct (found _); [done|]. by intros [= <-].
Qed.

(** C19: A result that the client sends is one that PostgreSQL stores: it is the
    JSON text of the value, its jsonb text fits the limit that the task was
    accepted with, no string of it holds a NUL or a lone surrogate, and it
    satisfies the schema of the contract version that the task was accepted
    under, whatever the current version is. *)
Theorem stored_result_is_valid task result s s' text :
  Forall token_ok (json_numbers result) -> retained_sound s -> validateResult task result s = (s', Ret text) ->
  retained_sound s' /\ text = jsonText result /\ byteLength (jsonbText result) <= t_resultMaxBytes task /\
  found (json_strings result) = false /\
  forall v, t_contractVersion task = Some v ->
    exists c, pinned (t_type task) v c /\ meets (resultSchema c) result.
Proof.
  intros Hok Hs. unfold validateResult. destruct (t_contractVersion task) as [v|] eqn:Ev.
  - unfold st_bind. destruct (resultContract (t_type task) v s) as [s1 r] eqn:Er.
    destruct (resultContract_spec _ _ _ _ _ Hs Er) as [H1 Hc]. destruct r as [[c|]|e]; [|done|done].
    intros [= <- (t & Ht & Hst)%res_bind_Ret].
    destruct (validateContractValue_Ret _ _ _ _ _ _ _ Hok Ht) as (-> & Hle & Hm).
    destruct (storableResult_Ret _ _ Hok Hst) as [-> Hf]. split_and!; [done..|]. intros v' [= <-]. exists c. eauto.
  - intros [= <- (t & Ht & Hst)%res_bind_Ret]. destruct (serializeJson_Ret _ _ _ Hok Ht) as [-> Hle].
    destruct (storableResult_Ret _ _ Hok Hst) as [-> Hf]. done.
Qed.

(** ** Synchronization *)
Section sync.
Context (sync : nat -> res DatabaseError unit).
Definition askSync : action unit := fun s =>
  (s <| sent ::= fun l => l ++ [SyncDefinitions] |>,
   match sync (length (sent s)) with Ret _ => Ret tt | Throw e => Throw (Database e) end).
Fixpoint loadCurrent (types : list ustring) (acc : jsmap ustring CachedContractDefinition)
    : action (jsmap ustring CachedContractDefinition) :=
  match types with
  | [] => st_ret acc
  | t :: types =>
      definition <-- askLoad t None ;;
      loadCurrent types (match definition with Some d => jsset t d acc | None => acc end)
  end.
Definition syncContracts : action unit :=
  askSync ;;-
  current <-- loadCurrent (contracts options).*1 [] ;;
  st_modify (fun s => s <| currentDatabaseContracts := foldl (fun m e => jsset e.1 e.2 m) [] current |>).

Lemma loadCurrent_spec types : forall acc s s' r,
  NoDup types -> NoDup acc.*1 -> loadCurrent types acc s = (s', r) ->
  currentDatabaseContracts s' = currentDatabaseContracts s /\
  forall m, r = Ret m -> NoDup m.*1 /\ (forall t, t ∉ types -> jsget t m = jsget t acc) /\
    (forall t, t ∈ types -> jsget t acc = None -> exists n d, load n t None = Ret d /\ jsget t m = d).
Proof.
  induction types as [|t types IH]; intros acc s s' r Hn Hacc.
  { intros [= <- <-]. split; [done|]. intros m [= <-]. split_and!; [done|done|by intros ? ?%elem_of_nil]. }
  apply NoDup_cons in Hn as [Ht Hn]. cbn [loadCurrent]. unfold st_bind. destruct (askLoad t None s) as [s1 d] eqn:Ea.
  destruct (askLoad_spec _ _ _ _ _ Ea) as (_ & Ec & Hd). destruct d as [d|e]; [|by intros [= <- <-]].
  set (acc' := match d with Some d => jsset t d acc | None => acc end).
  assert (Hacc' : NoDup acc'.*1) by (destruct d; [by apply jsset_NoDup|done]).
  assert (Hget : forall t', jsget t' acc' = if decide (t' = t) then match d with Some _ => d | None => jsget t acc end else jsget t' acc).
  { intros t'. subst acc'. destruct d as [d|]; [by rewrite jsget_set|]. case_decide; [by subst|done]. }
  intros H. destruct (IH _ _ _ _ Hn Hacc' H) as [E Hm]. split; [by rewrite E|]. intros m Er.
  destruct (Hm m Er) as (H1 & H2 & H3). split; [done|]. split.
  - intros t' [Hne Hnin]%not_elem_of_cons. by rewrite H2, Hget, decide_False.
  - intros t' [->|Hin]%elem_of_cons Hnone.
    + destruct (Hd d eq_refl) as [n Hl]. exists n, d. split; [done|]. rewrite (H2 t Ht), Hget, decide_True by done.
      by destruct d.
    + apply H3; [done|]. rewrite Hget, decide_False; [done|]. by intros ->.
Qed.
Lemma copy_map {V} (m : jsmap ustring V) t : NoDup m.*1 ->
  forall acc, (forall k, k ∈ m.*1 -> jsget k acc = None) ->
  jsget t (foldl (fun m e => jsset e.1 e.2 m) acc m) = match jsget t m with Some v => Some v | None => jsget t acc end.
Proof.
  induction m as [|[k v] m IH]; intros Hn acc Hacc; [done|]. rewrite fmap_cons in Hn. apply NoDup_cons in Hn as [Hk Hn].
  cbn [foldl fst snd jsget]. rewrite IH; [|done|].
  - rewrite jsget_set. destruct (decide (k = t)) as [->|Hne].
    + rewrite (proj2 (jsget_None t m) Hk). by rewrite decide_True.
    + by rewrite decide_False.
  - intros k' Hk'. rewrite jsget_set, decide_False; [|by intros ->]. apply Hacc. rewrite fmap_cons. apply elem_of_cons. by right.
Qed.
(** C36: Synchronization replaces the cache or leaves it: a call that fails at any
    statement keeps every cached definition, and one that succeeds caches, for
    each configured type, what PostgreSQL answered for it, and nothing else. *)
Theorem sync_replaces_or_keeps s s' r :
  NoDup (contracts options).*1 -> syncContracts s = (s', r) ->
  match r with
  | Throw _ => currentDatabaseContracts s' = currentDatabaseContracts s
  | Ret _ => forall t,
      (t ∈ (contracts options).*1 -> exists n d, load n t None = Ret d /\ jsget t (currentDatabaseContracts s') = d) /\
      (t ∉ (contracts options).*1 -> jsget t (currentDatabaseContracts s') = None)
  end.
Proof.
  intros Hn. unfold syncContracts, st_bind, askSync, st_modify. destruct (sync _) as [|e]; [|by intros [= <- <-]].
  destruct (loadCurrent _ [] _) as [s1 r1] eqn:El.
  destruct (loadCurrent_spec _ [] _ _ _ Hn NoDup_nil_2 El) as [Ec Hm]. destruct r1 as [m|e]; [|by intros [= <- <-]].
  intros [= <- <-]. destruct (Hm m eq_refl) as (H1 & H2 & H3). intros t. simpl. rewrite copy_map by done. split.
  - intros Ht. destruct (H3 t Ht eq_refl) as (n & d & Hl & E). exists n, d. split; [done|]. rewrite E. by destruct d.
  - intros Ht. by rewrite (H2 t Ht).
Qed.
End sync.
End contracts.

(** ** A concrete queue *)
(** A schema asks for a string or for another value; the first submission
    answers a mismatch, and the second one is accepted. *)
Definition is_string (v : json number_token) : bool := match v with JStr _ => true | _ => false end.
Definition sample_validator (strings : bool) (v : json number_token) : bool := if strings then is_string v else negb (is_string v).
Definition sample_contract (strings : bool) : @TaskContractVersion bool := {|
  payloadSchema := Some strings; resultSchema := Some strings; maxPayloadBytes := Some 100; maxResultBytes := None;
  sensitivePayloadKeys := None; sensitiveResultKeys := None |}.
Definition sample_options : @QueueOptions bool := {|
  contracts := [(units "mail", {| currentVersion := "1"; versions := [("1"%string, sample_contract true)] |})];
  defaultMaxPayloadBytes := None; defaultMaxResultBytes := None; defaultQueue := "default" |}.
Definition sample_load (n : nat) (t : ustring) (v : option string) : res DatabaseError (option (@CachedContractDefinition bool)) :=
  Ret (Some {| cd_version := default "2"%string v; cd_contract := sample_contract true |}).
Definition sample_row (o : EnqueueOutcome) : EnqueueRow := {|
  row_taskId := Some "id"%string; row_outcome := o; row_reason := None;
  row_json := Some (JObj [(units "taskTypes", JArr [JStr (units "mail")])]) |}.
Definition sample_submit (n : nat) (batch : list SerializedRequest) : res DatabaseError (list EnqueueRow) :=
  Ret (if (n =? 0)%nat then [sample_row ContractMismatch] else [sample_row Accepted]).
Definition sample_arrival (n : nat) (l : list nat) : list nat := rev l.
Lemma sample_arrival_perm n l : sample_arrival n l ≡ₚ l.
Proof. symmetry. apply Permutation_rev. Qed.
Definition sample_enqueue_state : @EnqueueState bool :=
  {| currentDatabaseContracts := []; retainedDatabaseContracts := []; sent := [] |}.
Definition sample_requests : list EnqueueRequest :=
  [{| r_type := units "mail"; r_payload := JStr (units "hello"); r_options := None; r_tags := None |}].
Lemma sample_payloads : Forall payload_ok sample_requests.
Proof. repeat constructor. Qed.
Definition sample_run := enqueueManyWithResults sample_validator sample_options sample_load sample_submit sample_arrival 0
  sample_requests sample_enqueue_state.
Example sample_run_retries :
  sample_run.2 = Ret [{| res_taskId := "id"; res_outcome := Accepted; res_reason := None |}] /\
  map fst (submits 0 (sent sample_run.1)) = [0; 2]%nat.
Proof. by vm_compute. Qed.
Lemma sample_run_eq : sample_run = (sample_run.1, sample_run.2).
Proof. by destruct sample_run. Qed.
Lemma enqueue_submits_valid_batches_witness :
  (sample_run.2 = Ret [] /\ sample_requests = [] \/
   attempts_spec sample_validator sample_options sample_load sample_submit sample_enqueue_state sample_requests 2
     sample_enqueue_state sample_run.1 sample_run.2) /\
  (forall q, q ∈ sample_requests -> validateEnqueueOptions (options_of q) <> Ret tt -> sample_run.1 = sample_enqueue_state).
Proof.
  exact (enqueue_submits_valid_batches sample_validator sample_options sample_load sample_submit sample_arrival 0
    sample_arrival_perm sample_requests sample_enqueue_state sample_run.1 sample_run.2 sample_payloads sample_run_eq).
Defined.

Definition sample_task : ResultTask := {| t_type := units "mail"; t_contractVersion := Some "1"%string; t_resultMaxBytes := 100 |}.
Definition sample_result : json number_token := JStr (units "done").
Definition sample_stored := validateResult sample_validator sample_options sample_load sample_task sample_result sample_enqueue_state.
Lemma sample_result_numbers : Forall token_ok (json_numbers sample_result).
Proof. constructor. Qed.
Lemma sample_retained : retained_sound sample_load sample_enqueue_state.
Proof. intros t v c. done. Qed.
Lemma sample_stored_eq : sample_stored = (sample_stored.1, Ret (jsonText sample_result)).
Proof. by vm_compute. Qed.
Lemma stored_result_is_valid_witness :
  retained_sound sample_load sample_stored.1 /\ jsonText sample_result = jsonText sample_result /\
  byteLength (jsonbText sample_result) <= t_resultMaxBytes sample_task /\ found (json_strings sample_result) = false /\
  forall v, t_contractVersion sample_task = Some v ->
    exists c, pinned sample_options sample_load (t_type sample_task) v c /\ meets sample_validator (resultSchema c) sample_result.
Proof.
  exact (stored_result_is_valid sample_validator sample_options sample_load sample_task sample_result sample_enqueue_state
    sample_stored.1 (jsonText sample_result) sample_result_numbers sample_retained sample_stored_eq).
Defined.

Definition sample_sync := syncContracts sample_options sample_load (fun _ => Ret tt) sample_enqueue_state.
Lemma sample_sync_eq : sample_sync = (sample_sync.1, Ret tt).
Proof. by vm_compute. Qed.
Lemma sample_types : NoDup (contracts sample_options).*1.
Proof. apply NoDup_singleton. Qed.
Lemma sync_replaces_or_keeps_witness :
  (units "mail" ∈ (contracts sample_options).*1 ->
    exists n d, sample_load n (units "mail") None = Ret d /\ jsget (units "mail") (currentDatabaseContracts sample_sync.1) = d) /\
  (units "mail" ∉ (contracts sample_options).*1 -> jsget (units "mail") (currentDatabaseContracts sample_sync.1) = None).
Proof.
  exact (sync_replaces_or_keeps sample_options sample_load (fun _ => Ret tt) sample_enqueue_state sample_sync.1 (Ret tt)
    sample_types sample_sync_eq (units "mail")).
Defined.
