(* ===== verification/Timers.v ===== *)
(** * Timers longer than the platform allows

    [setUnrefTimeoutAt] of [typescript/core/src/timers.ts]: a callback at a time
    of the monotonic clock, through timers of at most [MAX_TIMER_DELAY_MS]
    each.  The platform may fire a timer early or late, so its time is part of
    the event.  A firing reads the clock twice, before and in [arm]; the model
    reads it once.  Times are nanoseconds. *)

From S2P Require Import Prelude WorkerOptions.

Record Timeout : Type := {
  timer : option Z;          (* the due time of the armed timer *)
  delays : list Z;           (* the delays that were asked for *)
  calls : list Z;            (* the times of the callback *)
  cancelled : bool;
}.
#[export] Instance eta_timeout : Eta Timeout := fun s => {|
  timer := timer s; delays := delays s; calls := calls s; cancelled := cancelled s |}.

Section timeout.
Context (at_ : Z).
Definition arm (now : Z) (s : Timeout) : Timeout :=
  let delay := Z.min (Z.max 0 (at_ - now)) (ms MAX_TIMER_DELAY_MS) in
  s <| timer := Some (now + delay) |> <| delays ::= cons delay |>.
Definition setUnrefTimeoutAt (now : Z) : Timeout :=
  arm now {| timer := None; delays := []; calls := []; cancelled := false |}.
Inductive timeout_event : Set := TimerFires | Cancel.
Definition timeout_step (s : Timeout) (te : Z * timeout_event) : Timeout :=
  let '(now, e) := te in
  match e, timer s with
  | TimerFires, Some _ =>
      let s := s <| timer := None |> in
      if now <? at_ then arm now s else s <| calls ::= cons now |>
  | TimerFires, None => s
  | Cancel, _ => s <| timer := None |> <| cancelled := true |>
  end.

(** The callback ran, was cancelled, or a timer is armed for it. *)
Record timeout_ok (s : Timeout) : Prop := {
  to_delays : Forall (fun d => 0 <= d <= ms MAX_TIMER_DELAY_MS) (delays s);
  to_due : forall due, timer s = Some due -> calls s = [] /\ cancelled s = false;
  to_calls : (length (calls s) <= 1)%nat /\ Forall (fun t => at_ <= t) (calls s);
  to_armed : timer s = None -> cancelled s = false -> calls s <> [];
}.
Lemma arm_ok now s :
  Forall (fun d => 0 <= d <= ms MAX_TIMER_DELAY_MS) (delays s) -> calls s = [] -> cancelled s = false ->
  timeout_ok (arm now s).
Proof.
  intros Hd Hc Hx. constructor; simpl; rewrite ?Hc; try done.
  - constructor; [|done]. unfold ms, NS_PER_MS, MAX_TIMER_DELAY_MS. lia.
  - by split; [simpl; lia|constructor].
Qed.
Lemma timeout_step_ok s te : timeout_ok s -> timeout_ok (timeout_step s te).
Proof.
  intros [H1 H2 [H3 H4] H5]. destruct te as [now []]; simpl.
  - destruct (timer s) as [due|] eqn:E; [|by constructor; rewrite ?E]. destruct (H2 due eq_refl) as (Hc & Hx).
    destruct (Z.ltb_spec now at_) as [Hlt|Hge]; [by apply arm_ok|].
    constructor; simpl; rewrite ?Hc; try done. split; [simpl; lia|by constructor].
  - constructor; simpl; try done.
Qed.
Lemma timeouts_ok now evs : timeout_ok (run timeout_step (setUnrefTimeoutAt now) evs).
Proof. apply (run_invariant timeout_step timeout_ok); [apply timeout_step_ok|]. by apply arm_ok. Qed.

(** A timeout runs its callback once and never early: whenever the platform
    fires its timers, the callback runs at most once, not before its time, and
    no timer asks for more than the platform's maximum; until the callback runs
    or is cancelled a timer is armed for it. *)
Theorem timeout_runs_once_and_never_early now evs :
  let s := run timeout_step (setUnrefTimeoutAt now) evs in
  (length (calls s) <= 1)%nat /\ Forall (fun t => at_ <= t) (calls s) /\
  Forall (fun d => 0 <= d <= ms MAX_TIMER_DELAY_MS) (delays s) /\
  (timer s = None -> cancelled s = false -> calls s <> []).
Proof. intros s. destruct (timeouts_ok now evs) as [H1 H2 [H3 H4] H5]. done. Qed.

(** ** The callback runs in the end *)
(** Timers that fire when they are due. *)
Fixpoint on_time (n : nat) (s : Timeout) : Timeout :=
  match n, timer s with
  | S n, Some due => on_time n (timeout_step s (due, TimerFires))
  | _, _ => s
  end.
Lemma on_time_calls n : forall now s,
  timer s = Some (now + Z.min (Z.max 0 (at_ - now)) (ms MAX_TIMER_DELAY_MS)) -> calls s = [] ->
  at_ - now <= Z.of_nat n * ms MAX_TIMER_DELAY_MS -> now <= at_ -> calls (on_time (S n) s) = [at_].
Proof.
  induction n as [|n IH]; intros now s Ht Hc Hn Hle; cbn [on_time]; rewrite Ht; cbn [timeout_step]; rewrite Ht;
    set (due := now + _) in *; assert (Hmax : 0 < ms MAX_TIMER_DELAY_MS) by done.
  - assert (Hd : due = at_) by lia. rewrite Hd, (proj2 (Z.ltb_ge at_ at_)) by lia. simpl. by rewrite Hc.
  - destruct (Z.ltb_spec due at_) as [Hlt|Hge].
    + apply (IH due); [done|done|lia|lia].
    + assert (Hd : due = at_) by lia. rewrite Hd. cbn [on_time]. simpl. by rewrite Hc.
Qed.
(** However far away its time is, a timeout whose timers fire on time runs its
    callback exactly at its time, after one timer for each maximal delay and one
    more. *)
Theorem timeout_arrives n now :
  now <= at_ <= now + Z.of_nat n * ms MAX_TIMER_DELAY_MS -> calls (on_time (S n) (setUnrefTimeoutAt now)) = [at_].
Proof. intros [H1 H2]. apply (on_time_calls n now); [done|done|lia|done]. Qed.
End timeout.

Lemma sample_far : 0 <= ms 3000000000 <= 0 + Z.of_nat 2 * ms MAX_TIMER_DELAY_MS.
Proof. unfold ms, NS_PER_MS, MAX_TIMER_DELAY_MS. lia. Qed.
Lemma timeout_arrives_witness : calls (on_time (ms 3000000000) 3 (setUnrefTimeoutAt (ms 3000000000) 0)) = [ms 3000000000].
Proof. exact (timeout_arrives (ms 3000000000) 2 0 sample_far). Defined.
